(* ===== verification/_CoqProject ===== *)
-Q . S2P
Prelude.v
SortedArray.v
Files.v
Text.v
Doubles.v
IntStack.v
IntArrayList.v
IntArraySet.v
OrderedIntSet.v
BinaryHeap.v
DijkstraHeap.v
DistanceHeap.v
RoutingResult.v
DijkstraGrid.v
DijkstraRouter.v
Edges.v
HubLEdges.v
HubLNodes.v
HubLRouter.v
HubLRoute.v
HubLSamples.v
Grid.v
DynamicGrid.v
Labels.v
HLDijkstra.v
TempLabels.v
CHDijkstra.v
CHSearch.v
LabelCreator.v
Contraction.v
LevelGraph.v
LevelCorrect.v
Hierarchy.v
Preprocessing.v
Controller.v
ControllerSamples.v
Serving.v
Import.v
Stores.v
Main.v
GridCreator.v
Coastline.v
Geometry.v
PointInWater.v
WaterCells.v
Generation.v
GeoJson.v
PerformanceTest.v
Frontend.v
