(* ===== verification/Prelude.v ===== *)
(** * A verification of the sea router

    The repository computes shortest sea routes.  Its parts, and where each is modelled:

    - A grid graph in a text file.  [dijkstragrid/Grid.java] reads and writes it ([Grid], with
      [DijkstraGrid] for [Node.java], [Edge.java] and the adjacency array) and finds the node
      nearest to a point.  [Text] has the words, lines and numerals of the format, [Doubles] the
      floating-point numbers as an interface.
    - Where that file comes from: [dijkstragrid/GridCreator.java] with [GridNode.java] and the threads
      of [NodeCreateWorkerThread.java] ([GridCreator]), on coordinates counted in hundredths of a
      degree.  The point-in-water test is an argument there; [Generation], the program [main], puts
      the checker of the next item in.
    - That test: the coastlines of the OSM file, [osmimport/CoastlineImporter.java] and
      [coastlinegrid/CoastlineWays.java] ([Coastline]), the arcs of [utils/IntersectionHelper.java]
      ([Geometry]), and the multi-level grid of [coastlinegrid/] ([PointInWater], its theorems in
      [WaterCells]).
    - Routing on the grid: [router/DijkstraRouter.java] ([DijkstraRouter]) with the queue
      [router/DijkstraHeap.java] ([DijkstraHeap]); the answers are [router/RoutingResult.java]
      ([RoutingResult]).
    - The precomputation of hub labels, in [hublablecreation/]: [DynamicGrid.java] and [Nodes.java]
      ([DynamicGrid]) and the edge store with shortcuts [Edges.java] ([Edges]).  The contraction
      hierarchy: the shortcuts of one node [CHDijkstra.java] ([CHDijkstra]; the correctness of its
      search in [CHSearch]), and [LabelCreator.calculateCH], level by level ([Contraction]; what a
      level does to the graph in [LevelGraph], to the distances in [LevelCorrect], and all levels
      in [Hierarchy]).  The labels: the rows [Labels.java] ([Labels]), the labels of one node
      [HLDijkstra.java] ([HLDijkstra]), and of all nodes, level by level in interleaved threads
      ([LabelCreator]).  [Preprocessing] puts both together, [Serving] adds the arrays that are
      handed to the router ([serializeHubLData]) and the server that reads them, and [Import] the
      grid file.
    - The files between the programs, [HubLStore.java], [CHData.java] and [TmpLabelData.java]
      ([Stores]), and the two programs, [LabelCreator.main] and [SearouterApplication.main]
      ([Main]).  How the classes write a file, byte by byte under its final name, so that a killed
      program leaves it torn, is in [Files]; [Generation] has the files of the grid generator.
    - The data used for routing, in [hublabeldata/]: [HubLEdges], [HubLNodes]; the router
      [router/HubLRouter.java] ([HubLRouter], its correctness in [HubLRoute], examples and
      witnesses in [HubLSamples]; the temporary labels of nodes without labels in [TempLabels]).
    - The containers of [utils/]: [IntStack], [IntArrayList], [IntArraySet], [OrderedIntSet] on
      top of [SortedArray] (binary search in padded sorted arrays), and [DistanceHeap]; the sift
      loops that both heaps share are in [BinaryHeap].
    - The server: [rest/RoutingController.java] and the interface [router/Router.java]
      ([Controller], witnesses in [ControllerSamples]).
    - The performance test, [SearouterApplication.test] ([PerformanceTest]).
    - Debugging output, [utils/GeoJsonConverter.java] ([GeoJson]).
    - The browser client, [vue-frontend/src] ([Frontend]): the component [RoutingWindow.vue] as a
      state machine over user events and responses, [Navbar.vue], [App.vue], [main.js].

    How they interact: [Controller] looks up the nearest nodes in [Grid] and calls a router
    through the type class [Router]; its law class [RouterLaws] is the contract, and
    [DijkstraRouter] and [HubLRouter] are the two instances.  [Contraction] runs the threads of
    [CHDijkstra], whose searches read [DynamicGrid] and [Edges], and writes their shortcuts to both;
    what it leaves is a [LabelCreator.hierarchy], the only thing the labels depend on.
    [LabelCreator] drives [HLDijkstra], which writes [Labels]; [HubLNodes] flattens those rows.

    ** Conventions

    Java code is in the error monad [res]; [Err] holds the exception the source throws, so that
    a theorem [returns m Q] says that [m] ends, without an exception, in a value with [Q].  Static
    fields are explicit state; a method that mutates an object returns the new object.  Ints are
    [Z], with [wrap32] where the source can overflow; arrays are lists of fixed length with
    checked access ([aget], [aset]).  A [for] loop is [forRange] or [forEach]; a [while] loop is a
    [Fixpoint] with fuel.  The fuel is computed from the data where a bound is known (the size of
    the heap, the number of nodes, the lengths of the lists) and the theorems prove [OutOfFuel]
    impossible; for the hub label router, whose loops depend on the depth of the shortcuts, the
    theorems say that every sufficiently large fuel gives the result.  The label threads share the
    rows, so they are advanced in an arbitrary order ([LabelCreator.stepThread]); the contraction
    threads share nothing that they write, so they run one after the other.

    The contraction theorems are about graphs that are [Hierarchy.contractible]: simple,
    symmetric, with positive lengths and edges that are strictly shorter than every detour.
    [Import.import_ok] shows that the import of a file with such a graph ([Import.sea_list])
    leaves one; at most four edges may start at a node, as the rows the import fills have four
    cells.
    [n] is the number of nodes, [W] bounds the length of an edge and [Emax] the distance of any
    two connected nodes; the bounds say that the sums of distances the code computes, and the ids
    of at most [n * n] shortcuts, are ints.  [B] bounds what the rows of edge ids hold.  The
    shuffle order is arbitrary ([rnd]).

    ** What the theorems show

    - The whole system: [Main.main_exact], from the grid file to the answers of the server, after
      runs that were killed anywhere, or that the next run exits because a file is torn;
      [Main.routers_agree], that it does not matter which router the server uses;
      [Main.cut_resumes], which killed runs are resumed and which leave a torn file that has to
      be deleted.  [Serving.served_exactly] starts from a graph in memory.
      All nodes get labels ([NUM_OF_NO_LABEL_LVLS] is 0), so the answers are those of the router
      for two nodes with labels.  For other data, [TempLabels.calcTempLabels_exact] says what the
      search of a node without labels leaves, whatever was computed before.
    - Routing: [DijkstraRouter.route_shortest] and [route_complete]; for the hub label router
      [HubLRoute.route_best_label] and [calculateRoute_unpacks].
    - Preprocessing, from a graph to its labels: [Preprocessing.createLabels_exact] and
      [calculateCH_joins].  They rest on [Hierarchy.calcNextLvl_keeps] (a level keeps the
      distances), [CHSearch.run_shortcuts] (which shortcuts the threads find) and
      [Contraction.selectNode_independent] (the nodes of a level).
    - Labels: [LabelCreator.calcLabels_cover] (the labels meet on every pair of upward ways, for
      every interleaving of the threads), [calcLabels_ends], [threads_disjoint] (a row is written
      at most once, by the thread that has its node), [createHLCalcOrder_levels],
      [HLDijkstra.calcLabels_row], [Labels.isRedundant_spec].
    - Server: [Controller.server_answers] composes the nearest-node lookup and either router;
      [Controller.getRoute_agrees], that both entry points answer alike;
      [PerformanceTest.test_statistics].
    - Grid generation: [Generation.main_generates], from the OSM file to the imported graph, after
      runs that were killed anywhere.  It rests on [GridCreator.generated_grid], for every interleaving
      of the threads, and the point-in-water test.  [configured_lattice] shows that
      the configured steps qualify.  [Main.main_exact] is not about such a file: at the
      poles the distances of a row are 0 as ints, and it asks for positive ones.
    - Coastlines: [Coastline.coastline_edges], from the OSM file to the edges;
      [WaterCells.point_in_leaf], that the point-in-water grid is built and asks the right leaf, and
      [division_endless], where it is not built.  The depth of the division is fuel: [depth] + 1
      is enough when no area that is left after [depth] divisions is touched by as many edges
      as the threshold ([sparse_map]).  The laws of floating-point numbers that this needs
      ([Coordinates], [ShiftLaws]) are about numbers that are neither NaN nor infinite, and where
      rounding matters, within a thousand degrees.  That the crossings of arcs on
      the sphere tell water from land is not stated: it holds of the sphere, not of doubles.
    - Data structures: refinement of the abstract queue, sequence and stack
      ([DistanceHeap.priority_queue_refines], [OrderedIntSet.set_refines],
      [IntStack.stack_refines]) and the heap and search operations they rest on.
    - File format and stores: [Grid.importFmiFile_graph], [nearest_node]; [export_import], what
      the import adds to an exported graph and which graphs come back as they were;
      [DynamicGrid.removeNode_isolates]; [HubLNodes.initLabelInfo_concat], [initEdgeInfo_upward].
    - Client: [Frontend.no_stale_layers], [markers_follow_text], [select_and_calculate],
      [posts_typed], [responses_drain], [sanitizeLongitude_meridian].
    - Behaviour that the code does not intend, proved as it is: [Grid.missing_reverse_not_added],
      [TempLabels.tempEdges_collects] (examples of its consequences are
      [HubLSamples.tempEdges_drops_edge] and [TempLabels.overwritten_info]),
      [Edges.addShortcutEdge_no_room], [GridCreator.western_wrap], [GridCreator.lonely_column], and
      the torn files of [Main.cut_resumes].

    ** Not modelled

    Errors of the disk while a file is read or written are left out, and so are a run that is killed
    while it writes the text of the exported grid (which [Generation.main] hands on as a whole), the
    averages of the performance test, console output, framework start-up, styles and the bundled
    client.  The parser of OSM files, the JSON library, the arithmetic of doubles with
    [DoubleMath.fuzzyEquals], Leaflet, axios, the conversions of numbers in the browser and Java
    serialization are interfaces. *)

From stdpp Require Export base numbers list gmap sets strings.
From Stdlib Require Export Lia.

Open Scope Z_scope.

Declare Scope java_scope.
Delimit Scope java_scope with java.
Open Scope java_scope.

(** Linear arithmetic with division and remainder by constants. *)
Ltac dlia := Z.to_euclidean_division_equations; lia.

(** ** Exceptions and fallible results

    [Err e] is the Java exception the source would throw at that point; [SystemExit] stands for
    the call that ends the program.  [OutOfFuel] is not a Java exception: a loop that is given
    too little fuel returns it, and the termination theorems show that it never happens. *)

Inductive exn :=
| ArrayIndexOutOfBounds
| NegativeArraySize
| IndexOutOfBounds
| NullPointer
| IllegalArgument
| IllegalState
| NumberFormat
| SystemExit
| OutOfFuel.

Inductive res (A : Type) :=
| Ok (a : A)
| Err (e : exn).
Arguments Ok {A} a.
Arguments Err {A} e.

#[export] Instance exn_eq_dec : EqDecision exn.
Proof. solve_decision. Defined.

#[export] Instance res_eq_dec {A} `{EqDecision A} : EqDecision (res A).
Proof. solve_decision. Defined.

#[export] Instance res_ret : MRet res := fun A a => Ok a.
#[export] Instance res_bind : MBind res := fun A B f m =>
  match m with Ok a => f a | Err e => Err e end.

#[export] Instance res_fmap : FMap res := fun A B f m =>
  match m with Ok a => Ok (f a) | Err e => Err e end.

(** A counting loop [for (i = lo; i < hi; i++) body], with the loop state threaded. *)
Fixpoint forLoop {St} (n : nat) (i : Z) (body : Z -> St -> res St) (s : St) : res St :=
  match n with
  | O => Ok s
  | S n' => s' ← body i s; forLoop n' (i + 1) body s'
  end.

Definition forRange {St} (lo hi : Z) (body : Z -> St -> res St) (s : St) : res St :=
  forLoop (Z.to_nat (hi - lo)) lo body s.

(** An enhanced [for] over the elements of a collection, in its iteration order. *)
Fixpoint forEach {A St} (l : list A) (body : A -> St -> res St) (s : St) : res St :=
  match l with
  | [] => Ok s
  | x :: l' => s' ← body x s; forEach l' body s'
  end.

(** ** 32-bit integers *)

Definition MAX_VALUE : Z := 2147483647.
Definition MIN_VALUE : Z := -2147483648.

Definition wrap32 (z : Z) : Z := (z + 2147483648) `mod` 4294967296 - 2147483648.
Definition is_int (z : Z) : Prop := MIN_VALUE <= z <= MAX_VALUE.

Definition iadd (x y : Z) : Z := wrap32 (x + y).

(** ** Java arrays

    A Java array is the list of its cells; its length never changes. *)

Definition alen {A} (a : list A) : Z := Z.of_nat (length a).

Definition aget {A} (a : list A) (i : Z) : res A :=
  if i <? 0 then Err ArrayIndexOutOfBounds else
  match a !! Z.to_nat i with
  | Some x => Ok x
  | None => Err ArrayIndexOutOfBounds
  end.

Definition aset {A} (a : list A) (i : Z) (x : A) : res (list A) :=
  if (0 <=? i) && (i <? alen a) then Ok (<[Z.to_nat i := x]> a) else Err ArrayIndexOutOfBounds.

Definition newArray {A} (d : A) (n : Z) : res (list A) :=
  if n <? 0 then Err NegativeArraySize else Ok (replicate (Z.to_nat n) d).

(** Dereferencing a reference that may be null. *)
Definition deref {A} (x : option A) : res A := match x with Some a => Ok a | None => Err NullPointer end.

(** [Arrays.fill(a, x)] and [Arrays.fill(a, from, to, x)] *)
Definition fill {A} (a : list A) (x : A) : list A := replicate (length a) x.

Definition fillRange {A} (a : list A) (from to : Z) (x : A) : res (list A) :=
  if to <? from then Err IllegalArgument else
  if (from <? 0) || (alen a <? to) then Err ArrayIndexOutOfBounds else
  Ok (take (Z.to_nat from) a ++ replicate (Z.to_nat (to - from)) x ++ drop (Z.to_nat to) a).

(** [Arrays.copyOf(a, n)]: truncated, or padded with the type's default value. *)
Definition copyOf {A} (d : A) (a : list A) (n : Z) : res (list A) :=
  if n <? 0 then Err NegativeArraySize else
  Ok (take (Z.to_nat n) a ++ replicate (Z.to_nat (n - alen a)) d).

(** [System.arraycopy]: the source segment is read before anything is written, so the two
    arrays may be the same one. *)
Definition arraycopy {A} (src : list A) (srcPos : Z) (dst : list A) (dstPos n : Z)
    : res (list A) :=
  if (srcPos <? 0) || (dstPos <? 0) || (n <? 0)
     || (alen src <? srcPos + n) || (alen dst <? dstPos + n)
  then Err ArrayIndexOutOfBounds else
  Ok (take (Z.to_nat dstPos) dst
        ++ take (Z.to_nat n) (drop (Z.to_nat srcPos) src)
        ++ drop (Z.to_nat (dstPos + n)) dst).

(** [Arrays.binarySearch0]; the fuel is one more than the number of cells searched. *)
Fixpoint binarySearch0 (fuel : nat) (a : list Z) (low high key : Z) : Z :=
  match fuel with
  | O => - (low + 1)
  | S fuel' =>
      if low <=? high then
        let mid := (low + high) / 2 in
        let midVal := a !!! Z.to_nat mid in
        if midVal <? key then binarySearch0 fuel' a (mid + 1) high key
        else if key <? midVal then binarySearch0 fuel' a low (mid - 1) key
        else mid
      else - (low + 1)
  end.

Definition binarySearch (a : list Z) (key : Z) : Z :=
  binarySearch0 (S (length a)) a 0 (alen a - 1) key.

Definition binarySearchRange (a : list Z) (from to key : Z) : res Z :=
  if to <? from then Err IllegalArgument else
  if (from <? 0) || (alen a <? to) then Err ArrayIndexOutOfBounds else
  Ok (binarySearch0 (S (length a)) a from (to - 1) key).

(** The value of the insertion point that a negative search result encodes,
    [(idx + 1) * (-1)] in the source. *)
Definition insertionPoint (idx : Z) : Z := (idx + 1) * (-1).

(** Total access, used by the specifications: the cell [i] of [a]. *)
Notation "a .[ i ]" := (a !!! Z.to_nat i) (at level 1, left associativity, format "a .[ i ]")
  : java_scope.

(** [returns m Q]: the computation [m] ends without an exception, in a value with [Q]. *)
Definition returns {A} (m : res A) (Q : A -> Prop) : Prop :=
  match m with Ok x => Q x | Err _ => False end.

(** Cells [0..n) of [a] are the list [l]; the cells after them are spare capacity. *)
Definition holds {A} (a : list A) (l : list A) : Prop := exists r, a = l ++ r.

(** The weakly ascending arrays, which is what [binarySearch] asks for. *)
Definition ascending (a : list Z) : Prop :=
  forall i j, 0 <= i <= j -> j < alen a -> a.[i] <= a.[j].

(** ** Lemmas on fallible results *)

Section returns.
Context {A B : Type}.
Implicit Types (m : res A) (f : A -> res B).

Lemma returns_ok (x : A) (Q : A -> Prop) : Q x -> returns (Ok x) Q.
Proof. done. Qed.

Lemma returns_bind m f (P : A -> Prop) (Q : B -> Prop) :
  returns m P -> (forall x, P x -> returns (f x) Q) -> returns (m ≫= f) Q.
Proof. destruct m; simpl; [eauto | done]. Qed.

Lemma returns_mono m (P Q : A -> Prop) :
  returns m P -> (forall x, P x -> Q x) -> returns m Q.
Proof. destruct m; simpl; eauto. Qed.

Lemma returns_elim m (Q : A -> Prop) : returns m Q -> exists x, m = Ok x /\ Q x.
Proof. destruct m; simpl; [eauto | done]. Qed.

Lemma returns_intro m (Q : A -> Prop) x : m = Ok x -> Q x -> returns m Q.
Proof. by intros ->. Qed.

Lemma bind_ok (x : A) f : (Ok x ≫= f) = f x.
Proof. done. Qed.

Lemma bind_assoc_res {C} m f (h : B -> res C) : ((m ≫= f) ≫= h) = (m ≫= fun x => f x ≫= h).
Proof. by destruct m. Qed.

Lemma bind_inv m f y : (m ≫= f) = Ok y -> exists x, m = Ok x /\ f x = Ok y.
Proof. destruct m; simpl; [eauto | done]. Qed.
End returns.

(** The computation has returned: what remains is to prove the postcondition. *)
Ltac ret := apply returns_ok; cbv beta.

(** Loop rules: an invariant indexed by the loop counter. *)
Lemma forRange_inv {St} (I : Z -> St -> Prop) lo hi body s :
  lo <= hi -> I lo s ->
  (forall i s, lo <= i < hi -> I i s -> returns (body i s) (I (i + 1))) ->
  returns (forRange lo hi body s) (I hi).
Proof.
  unfold forRange. intros Hle.
  assert (hi = lo + Z.of_nat (Z.to_nat (hi - lo))) as Hhi by lia.
  revert Hhi. generalize (Z.to_nat (hi - lo)) as n. clear Hle. intros n.
  revert lo s. induction n as [|n IH]; intros lo s Hhi HI Hbody; cbn [forLoop].
  { apply returns_ok. by replace hi with lo by lia. }
  eapply returns_bind; [apply Hbody; [lia | done] |].
  intros s' Hs'. apply IH; [lia | done |]. intros i ? ?. apply Hbody. lia.
Qed.

(** A counting loop whose state is a function of the counter. *)
Lemma forRange_steps {St} (f : Z -> St) lo hi body : lo <= hi ->
  (forall i, lo <= i < hi -> body i (f i) = Ok (f (i + 1))) ->
  forRange lo hi body (f lo) = Ok (f hi).
Proof.
  intros Hle Hbody.
  assert (returns (forRange lo hi body (f lo)) (fun s => s = f hi)) as Hr.
  { apply (forRange_inv (fun i s => s = f i)); [done | done |].
    intros i s Hi ->. by rewrite Hbody by done. }
  apply returns_elim in Hr as (s & Hs & ->). done.
Qed.

Lemma forEach_inv {A St} (I : list A -> St -> Prop) (l : list A) body s :
  I [] s ->
  (forall pre x todo s, l = pre ++ x :: todo -> I pre s ->
     returns (body x s) (I (pre ++ [x]))) ->
  returns (forEach l body s) (I l).
Proof.
  intros H0 Hbody.
  assert (forall todo pre s, l = pre ++ todo -> I pre s ->
    returns (forEach todo body s) (I l)) as Hgen; [| by apply (Hgen l [] s)].
  induction todo as [|x todo IH]; intros pre t -> HI; cbn [forEach].
  { apply returns_ok. by rewrite app_nil_r in *. }
  eapply returns_bind; [by eapply Hbody |]. intros t' Ht'.
  apply (IH (pre ++ [x])); [by rewrite <-app_assoc | done].
Qed.

(** ** Lemmas on integers *)

Lemma wrap32_id z : is_int z -> wrap32 z = z.
Proof. unfold is_int, wrap32, MIN_VALUE, MAX_VALUE. intros. rewrite Z.mod_small; lia. Qed.

Lemma wrap32_int z : is_int (wrap32 z).
Proof.
  unfold is_int, wrap32, MIN_VALUE, MAX_VALUE.
  pose proof (Z.mod_pos_bound (z + 2147483648) 4294967296). lia.
Qed.

Lemma iadd_id x y : is_int (x + y) -> iadd x y = x + y.
Proof. apply wrap32_id. Qed.

(** A property of finitely many integers, checked one by one. *)
Lemma all_range (P : Z -> Prop) lo n : Forall P (seqZ lo n) -> forall x, lo <= x < lo + n -> P x.
Proof.
  intros H x Hx. rewrite Forall_forall in H. apply H, elem_of_seqZ. lia.
Qed.

Lemma all_range_dec (P : Z -> Prop) `{!forall x, Decision (P x)} lo n :
  bool_decide (Forall P (seqZ lo n)) = true -> forall x, lo <= x < lo + n -> P x.
Proof. intros Hb%bool_decide_eq_true. by apply all_range. Qed.

(** ** Lemmas on arrays *)

Section arrays.
Context {A : Type} `{Inhabited A}.
Implicit Types (a b l r : list A) (i j n : Z) (x y : A).

(** The order of the elements does not matter to the length. *)
#[export] Instance alen_proper {B} : Proper ((≡ₚ) ==> (=)) (alen (A := B)).
Proof. intros l l' Hl. unfold alen. by rewrite Hl. Qed.

Lemma alen_nonneg {B} (a : list B) : 0 <= alen a.
Proof. unfold alen. lia. Qed.

Lemma alen_nil : alen (@nil A) = 0.
Proof. done. Qed.
Lemma alen_cons x a : alen (x :: a) = 1 + alen a.
Proof. unfold alen. simpl. lia. Qed.
Lemma alen_app a b : alen (a ++ b) = alen a + alen b.
Proof. unfold alen. rewrite length_app. lia. Qed.
Lemma alen_insert k x a : alen (<[k := x]> a) = alen a.
Proof. unfold alen. by rewrite length_insert. Qed.
Lemma alen_replicate n x : 0 <= n -> alen (replicate (Z.to_nat n) x) = n.
Proof. unfold alen. rewrite length_replicate. lia. Qed.
Lemma alen_fill a x : alen (fill a x) = alen a.
Proof. unfold alen, fill. by rewrite length_replicate. Qed.
Lemma alen_take n a : 0 <= n <= alen a -> alen (take (Z.to_nat n) a) = n.
Proof. unfold alen. rewrite length_take. lia. Qed.
Lemma alen_drop n a : 0 <= n <= alen a -> alen (drop (Z.to_nat n) a) = alen a - n.
Proof. unfold alen. rewrite length_drop. lia. Qed.

Lemma at_lookup a i : 0 <= i < alen a -> a !! Z.to_nat i = Some a.[i].
Proof. unfold alen. intros. apply list_lookup_lookup_total_lt. lia. Qed.

Lemma aget_ok a i : 0 <= i < alen a -> aget a i = Ok a.[i].
Proof.
  intros Hi. unfold aget. destruct (Z.ltb_spec i 0); [lia |]. by rewrite at_lookup.
Qed.

Lemma aget_oob a i : i < 0 \/ alen a <= i -> aget a i = Err ArrayIndexOutOfBounds.
Proof.
  unfold aget, alen. intros Hi. destruct (Z.ltb_spec i 0); [done |].
  by rewrite lookup_ge_None_2 by lia.
Qed.

Lemma aget_inv a i x : aget a i = Ok x -> 0 <= i < alen a /\ x = a.[i].
Proof.
  intros E. destruct (decide (0 <= i < alen a)) as [Hi | Hi].
  - split; [done |]. rewrite aget_ok in E by done. congruence.
  - rewrite aget_oob in E by lia. done.
Qed.

Lemma aset_ok a i x : 0 <= i < alen a -> aset a i x = Ok (<[Z.to_nat i := x]> a).
Proof.
  intros Hi. unfold aset.
  destruct (Z.leb_spec 0 i); [| lia]. destruct (Z.ltb_spec i (alen a)); [done | lia].
Qed.

Lemma aset_oob a i x : i < 0 \/ alen a <= i -> aset a i x = Err ArrayIndexOutOfBounds.
Proof.
  unfold aset. intros Hi.
  destruct (Z.leb_spec 0 i); [| done]. destruct (Z.ltb_spec i (alen a)); [lia | done].
Qed.

Lemma at_insert a i j x : 0 <= i < alen a -> 0 <= j ->
  (<[Z.to_nat i := x]> a).[j] = if decide (i = j) then x else a.[j].
Proof.
  unfold alen. intros Hi Hj. case_decide as Hij.
  - subst. rewrite list_lookup_total_insert_eq by lia. done.
  - rewrite list_lookup_total_insert_ne by lia. done.
Qed.

Lemma at_app_l a b i : 0 <= i < alen a -> (a ++ b).[i] = a.[i].
Proof. unfold alen. intros. rewrite lookup_total_app_l by lia. done. Qed.

Lemma at_app_r a b i : alen a <= i -> (a ++ b).[i] = b.[i - alen a].
Proof.
  unfold alen. intros. rewrite lookup_total_app_r by lia. f_equal. lia.
Qed.

Lemma at_cons_0 x a : (x :: a).[0] = x.
Proof. done. Qed.

Lemma at_cons_pos x a i : 0 < i -> (x :: a).[i] = a.[i - 1].
Proof. intros. replace (Z.to_nat i) with (S (Z.to_nat (i - 1))) by lia. done. Qed.

Lemma at_take a n i : 0 <= i < n -> (take (Z.to_nat n) a).[i] = a.[i].
Proof. intros. rewrite lookup_total_take_lt by lia. done. Qed.

Lemma at_drop a n i : 0 <= n -> 0 <= i -> (drop (Z.to_nat n) a).[i] = a.[n + i].
Proof. intros. rewrite lookup_total_drop. f_equal. lia. Qed.

Lemma at_replicate (n : nat) x i : 0 <= i < Z.of_nat n -> (replicate n x).[i] = x.
Proof. intros. apply lookup_total_replicate_2. lia. Qed.

Lemma at_fill a x i : 0 <= i < alen a -> (fill a x).[i] = x.
Proof. intros. by apply at_replicate. Qed.

Lemma at_In a i : 0 <= i < alen a -> a.[i] ∈ a.
Proof. intros Hi. eapply list_elem_of_lookup_2. by apply at_lookup. Qed.

Lemma In_at a x : x ∈ a -> exists i, 0 <= i < alen a /\ a.[i] = x.
Proof.
  intros [k Hk]%list_elem_of_lookup. exists (Z.of_nat k).
  pose proof (lookup_lt_Some _ _ _ Hk). unfold alen. split; [lia |].
  rewrite Nat2Z.id. by apply list_lookup_total_correct.
Qed.

Lemma arr_ext a b : alen a = alen b -> (forall i, 0 <= i < alen a -> a.[i] = b.[i]) -> a = b.
Proof.
  unfold alen. intros Hlen Hat. apply (list_eq_same_length a b (length a)); [lia | done |].
  intros k x y Hk Hx Hy. specialize (Hat (Z.of_nat k)).
  rewrite !Nat2Z.id in Hat. apply list_lookup_total_correct in Hx, Hy.
  rewrite Hx, Hy in Hat. apply Hat. lia.
Qed.

(** Filling a fresh array from the front with the elements of a list. *)
Lemma fill_next l d i m : 0 <= i < alen l -> i < m ->
  aset (take (Z.to_nat i) l ++ replicate (Z.to_nat (m - i)) d) i l.[i]
    = Ok (take (Z.to_nat (i + 1)) l ++ replicate (Z.to_nat (m - (i + 1))) d).
Proof.
  intros Hi Hm.
  assert (alen (take (Z.to_nat i) l) = i) as Ht by (apply alen_take; lia).
  rewrite aset_ok.
  2:{ rewrite alen_app, Ht. unfold alen. rewrite length_replicate. lia. }
  f_equal.
  replace (Z.to_nat (m - i)) with (S (Z.to_nat (m - (i + 1)))) by lia. cbn [replicate].
  rewrite insert_app_r_alt by (unfold alen in Ht; lia).
  replace (Z.to_nat i - length (take (Z.to_nat i) l))%nat with 0%nat by (unfold alen in Ht; lia).
  cbn. replace (Z.to_nat (i + 1)) with (S (Z.to_nat i)) by lia.
  rewrite (take_S_r l _ l.[i]) by (by apply at_lookup). by rewrite <-app_assoc.
Qed.

Lemma arraycopy_ok (src dst : list A) sp dp n :
  0 <= sp -> 0 <= dp -> 0 <= n -> sp + n <= alen src -> dp + n <= alen dst ->
  arraycopy src sp dst dp n =
    Ok (take (Z.to_nat dp) dst ++ take (Z.to_nat n) (drop (Z.to_nat sp) src)
          ++ drop (Z.to_nat (dp + n)) dst).
Proof.
  intros. unfold arraycopy.
  repeat match goal with |- context [?x <? ?y] => destruct (Z.ltb_spec x y); [lia |] end. done.
Qed.

(** Shifting the cells from [i] on by one and writing cell [i] inserts [x] at [i]. *)
Lemma shift_insert l y r i x : 0 <= i <= alen l ->
  (a ← arraycopy (l ++ y :: r) i (l ++ y :: r) (i + 1) (alen l - i); aset a i x)
    = Ok (take (Z.to_nat i) l ++ x :: drop (Z.to_nat i) l ++ r).
Proof.
  intros Hi. rewrite arraycopy_ok; rewrite ?alen_app, ?alen_cons; pose proof (alen_nonneg r);
    try lia.
  rewrite bind_ok, aset_ok.
  2:{ pose proof (alen_nonneg r). unfold alen in *.
      repeat rewrite ?length_app, ?length_take, ?length_drop. cbn [length]. lia. }
  f_equal. unfold alen in *.
  assert (Z.to_nat (i + 1 + (Z.of_nat (length l) - i)) = S (length l)) as -> by lia.
  rewrite (drop_app_ge l (y :: r) (S (length l))) by lia.
  replace (S (length l) - length l)%nat with 1%nat by lia. simpl.
  rewrite (drop_app_le l) by lia.
  rewrite (take_app_le (drop _ l)) by (rewrite length_drop; lia).
  rewrite (take_ge (drop _ l)) by (rewrite length_drop; lia).
  assert (exists z, take (Z.to_nat (i + 1)) (l ++ y :: r) = take (Z.to_nat i) l ++ [z])
    as [z ->].
  { replace (Z.to_nat (i + 1)) with (S (Z.to_nat i)) by lia.
    destruct (lookup_lt_is_Some_2 (l ++ y :: r) (Z.to_nat i)) as [z Hz].
    { rewrite length_app. simpl. lia. }
    exists z. rewrite (take_S_r _ _ z Hz). f_equal. rewrite take_app_le by lia. done. }
  rewrite <-app_assoc. simpl.
  replace (Z.to_nat i) with (length (take (Z.to_nat i) l) + 0)%nat at 1
    by (rewrite length_take; lia).
  rewrite insert_app_r. done.
Qed.

(** Shifting the cells after [i] back by one removes cell [i]; the last cell stays behind. *)
Lemma shift_remove l r i : 0 <= i < alen l ->
  exists z, arraycopy (l ++ r) (i + 1) (l ++ r) i (alen l - 1 - i)
    = Ok (delete (Z.to_nat i) l ++ z :: r).
Proof.
  intros Hi. rewrite arraycopy_ok; rewrite ?alen_app; pose proof (alen_nonneg r); try lia.
  unfold alen in *.
  assert (Z.to_nat (i + (Z.of_nat (length l) - 1 - i)) = length l - 1)%nat as -> by lia.
  destruct (lookup_lt_is_Some_2 l (length l - 1)) as [z Hz]; [lia |].
  exists z. f_equal. rewrite delete_take_drop.
  rewrite (take_app_le l) by lia.
  rewrite (drop_app_le l _ (Z.to_nat (i + 1))) by lia.
  rewrite (take_app_le (drop _ l)) by (rewrite length_drop; lia).
  rewrite (take_ge (drop _ l)) by (rewrite length_drop; lia).
  rewrite (drop_app_le l _ (length l - 1)) by lia. rewrite (drop_S l z (length l - 1)) by done.
  rewrite (drop_ge l (S (length l - 1))) by lia. cbn [app]. rewrite <-app_assoc.
  replace (Z.to_nat (i + 1)) with (S (Z.to_nat i)) by lia. done.
Qed.
End arrays.

Create Rewrite HintDb alen.
#[export] Hint Rewrite @alen_nil @alen_cons @alen_app @alen_insert @alen_fill : alen.
#[export] Hint Rewrite @alen_replicate @alen_take @alen_drop using lia : alen.

(** Lengths of arrays that were cut and pasted. *)
Ltac lens := unfold alen in *;
  repeat rewrite ?length_app, ?length_take, ?length_drop, ?length_insert, ?length_replicate;
  cbn [length]; lia.

(** Run the array accesses of a computation whose indices [lia] can bound. *)
Ltac in_bounds := autorewrite with alen; lia.
Ltac jstep := first
  [ rewrite bind_ok
  | rewrite aget_ok by in_bounds
  | rewrite aset_ok by in_bounds ].
Ltac jsteps := repeat (jstep; cbv beta).
