(* ===== verification/SortedArray.v ===== *)
(** * Sorted int arrays with spare capacity

    Several structures of the program keep their ids in the first cells of an [int[]] in
    strictly ascending order and fill the spare cells with [Integer.MAX_VALUE], "to make sure
    binary search will work": [IntArraySet], the ordered [OrderedIntSet], [DistanceHeap] and
    [CHDijkstra].  This file proves what [Arrays.binarySearch] answers on such an array and
    what the shifting insertion and removal do to its contents. *)

From stdpp Require Import sorting.
From S2P Require Import Prelude.

(** The ids stored in a sorted array: strictly ascending, all different from the filler. *)
Definition sorted_ids (l : list Z) : Prop := StronglySorted Z.lt l /\ Forall (fun x => x < MAX_VALUE) l.

(** The array whose first cells are [l] and whose spare cells are the filler. *)
Definition filled (l : list Z) (a : list Z) : Prop := exists k, a = l ++ replicate k MAX_VALUE.

(** Inserting [x] as cell [p] of [l]. *)
Definition insert_cell {A} (p : Z) (x : A) (l : list A) : list A :=
  take (Z.to_nat p) l ++ x :: drop (Z.to_nat p) l.

Definition remove_cell {A} (p : Z) (l : list A) : list A := delete (Z.to_nat p) l.

(** ** [Arrays.binarySearch] *)

Lemma binarySearch0_spec fuel a lo hi from to key :
  0 <= from -> to <= alen a ->
  (forall i j, from <= i <= j -> j < to -> a.[i] <= a.[j]) ->
  from <= lo -> hi < to -> lo <= hi + 1 -> hi - lo + 1 < Z.of_nat fuel ->
  (forall i, from <= i < lo -> a.[i] < key) -> (forall i, hi < i < to -> key < a.[i]) ->
  let r := binarySearch0 fuel a lo hi key in
  (from <= r < to /\ a.[r] = key) \/
  (exists p, from <= p <= to /\ r = - (p + 1) /\
     (forall i, from <= i < p -> a.[i] < key) /\ (forall i, p <= i < to -> key < a.[i])).
Proof.
  intros Hfrom Hto Hasc. revert lo hi.
  induction fuel as [|fuel IH]; intros lo hi Hlo Hhi Hlohi Hfuel Hl Hr; [lia |].
  cbn [binarySearch0]. destruct (Z.leb_spec lo hi) as [Hle | Hgt]; cbv zeta.
  - set (mid := (lo + hi) / 2). assert (lo <= mid <= hi) as Hmid by (unfold mid; dlia).
    destruct (Z.ltb_spec a.[mid] key) as [Hlt | Hge].
    { apply IH; try lia; [| intros; apply Hr; lia].
      intros i Hi. apply Z.le_lt_trans with a.[mid]; [apply Hasc; lia | done]. }
    destruct (Z.ltb_spec key a.[mid]) as [Hlt | Hge'].
    { apply IH; try lia; [intros; apply Hl; lia |].
      intros i Hi. apply Z.lt_le_trans with a.[mid]; [done | apply Hasc; lia]. }
    left. lia.
  - right. exists lo. repeat split; try lia; [done |]. intros; apply Hr; lia.
Qed.

Lemma binarySearch_spec a key : ascending a ->
  let r := binarySearch a key in
  (0 <= r < alen a /\ a.[r] = key) \/
  (exists p, 0 <= p <= alen a /\ r = - (p + 1) /\
     (forall i, 0 <= i < p -> a.[i] < key) /\ (forall i, p <= i < alen a -> key < a.[i])).
Proof.
  intros Hasc. unfold binarySearch. apply binarySearch0_spec; try lia; [done | ..];
    unfold alen; lia.
Qed.

Lemma binarySearchRange_spec a from to key :
  0 <= from <= to -> to <= alen a ->
  (forall i j, from <= i <= j -> j < to -> a.[i] <= a.[j]) ->
  returns (binarySearchRange a from to key) (fun r =>
    (from <= r < to /\ a.[r] = key) \/
    (exists p, from <= p <= to /\ r = - (p + 1) /\
       (forall i, from <= i < p -> a.[i] < key) /\ (forall i, p <= i < to -> key < a.[i]))).
Proof.
  intros Hft Hto Hasc. unfold binarySearchRange.
  destruct (Z.ltb_spec to from); [lia |]. destruct (Z.ltb_spec from 0); [lia |].
  destruct (Z.ltb_spec (alen a) to); [lia |]. simpl orb. cbv iota. apply returns_ok.
  apply binarySearch0_spec; try lia; [done |]. unfold alen in *. lia.
Qed.

(** ** Sorted lists of ids *)

Lemma sorted_at l i j : StronglySorted Z.lt l -> 0 <= i < j -> j < alen l -> l.[i] < l.[j].
Proof.
  intros Hl Hij Hj.
  assert (Z.to_nat i < Z.to_nat j)%nat as Hn by lia.
  rewrite <-(take_drop (Z.to_nat j) l) in Hl.
  eapply (StronglySorted_app_1_elem_of Z.lt); [exact Hl | |].
  - rewrite <-(at_take l j i) by lia. apply at_In. rewrite alen_take by lia. lia.
  - replace l.[j] with ((drop (Z.to_nat j) l).[0]) by (rewrite at_drop by lia; f_equal; lia).
    apply at_In. rewrite alen_drop by lia. lia.
Qed.

Lemma sorted_at_inj l i j : StronglySorted Z.lt l ->
  0 <= i < alen l -> 0 <= j < alen l -> l.[i] = l.[j] -> i = j.
Proof.
  intros Hl Hi Hj E. destruct (Z.lt_trichotomy i j) as [H | [H | H]]; [| done |].
  - pose proof (sorted_at l i j Hl). lia.
  - pose proof (sorted_at l j i Hl). lia.
Qed.

Lemma sorted_NoDup l : StronglySorted Z.lt l -> NoDup l.
Proof.
  induction 1 as [|x l Hl IH Hx]; constructor; [| done].
  intros Hin. rewrite Forall_forall in Hx. specialize (Hx x Hin). lia.
Qed.

Lemma sorted_ids_nil : sorted_ids [].
Proof. split; constructor. Qed.

Lemma sorted_ids_lt l i : sorted_ids l -> 0 <= i < alen l -> l.[i] < MAX_VALUE.
Proof. intros [_ Hf] Hi. rewrite Forall_forall in Hf. apply Hf. by apply at_In. Qed.

Lemma filled_ascending l a : sorted_ids l -> filled l a -> ascending a.
Proof.
  intros Hs [k ->] i j Hij Hj. rewrite alen_app in Hj.
  assert (alen (replicate k MAX_VALUE) = Z.of_nat k) as Hk
    by (unfold alen; by rewrite length_replicate).
  destruct (decide (j < alen l)) as [Hjl | Hjl].
  - rewrite !at_app_l by lia. destruct (decide (i = j)) as [-> | Hne]; [lia |].
    pose proof (sorted_at l i j (proj1 Hs)). lia.
  - rewrite (at_app_r l _ j) by lia. rewrite at_replicate by lia.
    destruct (decide (i < alen l)).
    + rewrite at_app_l by lia. pose proof (sorted_ids_lt l i Hs). lia.
    + rewrite at_app_r by lia. rewrite at_replicate by lia. lia.
Qed.

(** [Arrays.binarySearch] on a filled array finds exactly the stored ids, and otherwise the
    only cell where the id can be inserted in order. *)
Lemma search_filled l a key : sorted_ids l -> filled l a -> key < MAX_VALUE ->
  (0 <= binarySearch a key < alen l /\ l.[binarySearch a key] = key) \/
  (exists p, binarySearch a key = - (p + 1) /\ 0 <= p <= alen l /\
     (forall x, x ∈ take (Z.to_nat p) l -> x < key) /\
     (forall x, x ∈ drop (Z.to_nat p) l -> key < x)).
Proof.
  intros Hs Hf Hkey. pose proof (filled_ascending l a Hs Hf) as Hasc. destruct Hf as [k ->].
  set (a := l ++ replicate k MAX_VALUE) in *.
  assert (alen (replicate k MAX_VALUE) = Z.of_nat k) as Hk
    by (unfold alen; by rewrite length_replicate).
  assert (alen a = alen l + Z.of_nat k) as Hla by (unfold a; rewrite alen_app; lia).
  assert (forall i, 0 <= i < alen l -> a.[i] = l.[i]) as Hal
    by (intros; unfold a; rewrite at_app_l; done).
  assert (forall i, alen l <= i < alen a -> a.[i] = MAX_VALUE) as Har.
  { intros i Hi. unfold a. pose proof (alen_nonneg l).
    rewrite at_app_r, at_replicate by lia. done. }
  destruct (binarySearch_spec a key Hasc) as [[Hr Hrk] | (p & Hp & Hr & Hlt & Hgt)].
  - left. destruct (decide (binarySearch a key < alen l)).
    + rewrite <-Hal by lia. lia.
    + rewrite Har in Hrk by lia. lia.
  - right. exists p. split; [done |].
    assert (p <= alen l) as Hpl.
    { destruct (decide (p <= alen l)); [done |]. specialize (Hlt (alen l)).
      pose proof (alen_nonneg l). rewrite Har in Hlt by lia. lia. }
    split; [lia |]. split; intros x (i & Hi & <-)%In_at.
    + rewrite alen_take in Hi by lia. rewrite at_take by lia. rewrite <-Hal by lia.
      apply Hlt. lia.
    + rewrite alen_drop in Hi by lia. rewrite at_drop by lia. rewrite <-Hal by lia.
      apply Hgt. lia.
Qed.

Lemma split_not_elem (p : Z) (l : list Z) key :
  (forall x, x ∈ take (Z.to_nat p) l -> x < key) ->
  (forall x, x ∈ drop (Z.to_nat p) l -> key < x) -> key ∉ l.
Proof.
  intros Hl Hr Hin. rewrite <-(take_drop (Z.to_nat p) l) in Hin.
  apply elem_of_app in Hin as [Hin | Hin]; [apply Hl in Hin | apply Hr in Hin]; lia.
Qed.

Lemma search_member l a key : sorted_ids l -> filled l a -> key ∈ l ->
  0 <= binarySearch a key < alen l /\ l.[binarySearch a key] = key.
Proof.
  intros Hs Hf Hin.
  assert (key < MAX_VALUE) by (destruct Hs as [_ Hm]; rewrite Forall_forall in Hm; auto).
  destruct (search_filled l a key) as [? | (p & _ & _ & Hl & Hr)]; [done .. |].
  destruct (split_not_elem p l key); done.
Qed.

(** Searching for the id stored in a known cell. *)
Lemma search_index l a i : sorted_ids l -> filled l a -> 0 <= i < alen l ->
  binarySearch a l.[i] = i.
Proof.
  intros Hs Hf Hi. destruct (search_member l a l.[i]) as [Hr E]; [done | done | by apply at_In |].
  apply (sorted_at_inj l); [apply Hs | done | done | done].
Qed.

(** ** Insertion and removal *)

Lemma elem_insert_cell {A} p (x y : A) l : y ∈ insert_cell p x l <-> y = x \/ y ∈ l.
Proof.
  unfold insert_cell. rewrite elem_of_app, elem_of_cons.
  rewrite <-(take_drop (Z.to_nat p) l) at 3. rewrite elem_of_app. intuition auto.
Qed.

Lemma alen_insert_cell {A} p (x : A) l : alen (insert_cell p x l) = alen l + 1.
Proof.
  unfold insert_cell. rewrite alen_app, alen_cons.
  rewrite <-(take_drop (Z.to_nat p) l) at 3. rewrite alen_app. lia.
Qed.

Lemma alen_remove_cell {A} p (l : list A) : 0 <= p < alen l -> alen (remove_cell p l) = alen l - 1.
Proof.
  unfold remove_cell, alen. intros Hp.
  rewrite length_delete; [lia |]. apply lookup_lt_is_Some_2. lia.
Qed.

Lemma at_insert_cell {A} `{Inhabited A} p (x : A) l i :
  0 <= p <= alen l -> 0 <= i ->
  (insert_cell p x l).[i] = if decide (i < p) then l.[i] else if decide (i = p) then x else l.[i - 1].
Proof.
  intros Hp Hi. unfold insert_cell.
  assert (alen (take (Z.to_nat p) l) = p) as Hlt by (by apply alen_take).
  repeat case_decide.
  - rewrite at_app_l by lia. by rewrite at_take by lia.
  - subst. rewrite at_app_r by lia. rewrite Hlt, Z.sub_diag. done.
  - rewrite at_app_r by lia. rewrite Hlt, at_cons_pos by lia.
    rewrite at_drop by lia. f_equal. lia.
Qed.

Lemma at_remove_cell {A} `{Inhabited A} p (l : list A) i :
  0 <= p < alen l -> 0 <= i ->
  (remove_cell p l).[i] = if decide (i < p) then l.[i] else l.[i + 1].
Proof.
  intros Hp Hi. unfold remove_cell. rewrite delete_take_drop.
  assert (alen (take (Z.to_nat p) l) = p) as Hlt by (apply alen_take; lia).
  case_decide.
  - rewrite at_app_l by lia. by rewrite at_take by lia.
  - rewrite at_app_r by lia. rewrite Hlt.
    replace (S (Z.to_nat p)) with (Z.to_nat (p + 1)) by lia.
    rewrite at_drop by lia. f_equal. lia.
Qed.

Lemma remove_insert_cell {A} p (x : A) l : 0 <= p <= alen l -> remove_cell p (insert_cell p x l) = l.
Proof.
  intros Hp. unfold remove_cell, insert_cell.
  assert (length (take (Z.to_nat p) l) = Z.to_nat p) as Hlen
    by (rewrite length_take; unfold alen in *; lia).
  rewrite delete_take_drop, take_app_le, take_ge by lia.
  rewrite drop_app_ge by lia. rewrite Hlen.
  replace (S (Z.to_nat p) - Z.to_nat p)%nat with 1%nat by lia. simpl. by rewrite drop_0, take_drop.
Qed.

Lemma sorted_insert p key l : sorted_ids l -> key < MAX_VALUE ->
  (forall x, x ∈ take (Z.to_nat p) l -> x < key) ->
  (forall x, x ∈ drop (Z.to_nat p) l -> key < x) -> sorted_ids (insert_cell p key l).
Proof.
  intros [Hs Hm] Hkey Hl Hr. rewrite <-(take_drop (Z.to_nat p) l) in Hs, Hm.
  apply StronglySorted_app in Hs as (Hlr & Hsl & Hsr).
  apply Forall_app in Hm as [Hml Hmr]. split.
  - apply StronglySorted_app. split; [| split; [done |]].
    + intros x y Hx [-> | Hy]%elem_of_cons; [by apply Hl | by apply Hlr].
    + apply StronglySorted_cons. split; [| done]. apply Forall_forall. auto.
  - apply Forall_app. split; [done |]. by constructor.
Qed.

Lemma remove_subseteq {A} p (l : list A) x : x ∈ remove_cell p l -> x ∈ l.
Proof. apply list_elem_of_delete_inv. Qed.

Lemma sorted_remove p l : sorted_ids l -> sorted_ids (remove_cell p l).
Proof.
  intros [Hs Hm]. split.
  - unfold remove_cell. rewrite delete_take_drop. apply StronglySorted_app. split; [| split].
    + intros x y Hx Hy.
      rewrite <-(take_drop (Z.to_nat p) l) in Hs.
      eapply (StronglySorted_app_1_elem_of Z.lt); [exact Hs | done |].
      replace (S (Z.to_nat p)) with (Z.to_nat p + 1)%nat in Hy by lia.
      rewrite <-drop_drop in Hy. destruct (drop (Z.to_nat p) l); [done |]. apply elem_of_cons; by right.
    + rewrite <-(take_drop (Z.to_nat p) l) in Hs. by eapply StronglySorted_app_1_l.
    + rewrite <-(take_drop (S (Z.to_nat p)) l) in Hs. by eapply StronglySorted_app_1_r.
  - rewrite Forall_forall in *. intros x Hx. apply Hm. by eapply remove_subseteq.
Qed.

(** The shifting insertion of the source, on a filled array with a free cell. *)
Lemma filled_insert l a p key : filled l a -> alen l < alen a -> 0 <= p <= alen l ->
  returns (b ← arraycopy a p a (p + 1) (alen l - p); aset b p key)
    (fun b => filled (insert_cell p key l) b /\ alen b = alen a).
Proof.
  intros [k ->] Hlt Hp. destruct k as [|k].
  { rewrite app_nil_r in Hlt. lia. }
  simpl replicate. rewrite shift_insert by done. apply returns_ok. split.
  - exists k. unfold insert_cell. rewrite <-app_assoc. done.
  - rewrite <-(take_drop (Z.to_nat p) l) at 3. autorewrite with alen. lia.
Qed.

(** The shifting removal of the source followed by the write of the filler. *)
Lemma filled_remove l a p : filled l a -> 0 <= p < alen l ->
  returns (b ← arraycopy a (p + 1) a p (alen l - 1 - p); aset b (alen l - 1) MAX_VALUE)
    (fun b => filled (remove_cell p l) b /\ alen b = alen a).
Proof.
  intros [k ->] Hp. destruct (shift_remove l (replicate k MAX_VALUE) p Hp) as [z ->].
  assert (alen (delete (Z.to_nat p) l) = alen l - 1) as Hd by (by apply alen_remove_cell).
  rewrite bind_ok, aset_ok.
  2:{ autorewrite with alen. pose proof (alen_nonneg (replicate k MAX_VALUE)). lia. }
  apply returns_ok. split.
  - exists (S k). unfold remove_cell. simpl replicate. rewrite <-Hd.
    replace (Z.to_nat (alen (delete (Z.to_nat p) l)))
      with (length (delete (Z.to_nat p) l) + 0)%nat by (unfold alen; lia).
    by rewrite insert_app_r.
  - autorewrite with alen. lia.
Qed.

(** Growing an array, with the new cells set to the filler. *)
Lemma filled_grow l a n : filled l a -> 0 <= n ->
  returns (b ← copyOf 0 a (alen a + n); fillRange b (alen a) (alen b) MAX_VALUE)
    (fun b => filled l b /\ alen b = alen a + n).
Proof.
  intros [k ->] Hn. set (a := l ++ replicate k MAX_VALUE).
  pose proof (alen_nonneg a) as Ha. unfold copyOf.
  destruct (Z.ltb_spec (alen a + n) 0); [lia |]. rewrite bind_ok.
  rewrite take_ge by (unfold alen; lia).
  replace (alen a + n - alen a) with n by lia. unfold fillRange.
  rewrite alen_app, alen_replicate by done.
  destruct (Z.ltb_spec (alen a + n) (alen a)); [lia |].
  destruct (Z.ltb_spec (alen a) 0); [lia |]. rewrite Z.ltb_irrefl. simpl orb. cbv iota.
  apply returns_ok. replace (Z.to_nat (alen a)) with (length a) by (unfold alen; lia).
  rewrite take_app_length. replace (alen a + n - alen a) with n by lia.
  rewrite drop_ge by (rewrite length_app, length_replicate; unfold alen; lia).
  rewrite app_nil_r. split.
  - exists (k + Z.to_nat n)%nat. unfold a. rewrite <-app_assoc. f_equal.
    by rewrite replicate_add.
  - by rewrite alen_app, alen_replicate.
Qed.
