(* ===== verification/Files.v ===== *)
(** * Files that are written byte by byte

    The programs keep intermediate results in files of the working directory.  Every class writes
    its file the same way: [new FileOutputStream(name)] truncates or creates the file under its
    final name, then the serialized object is written to it.  A program that is killed meanwhile
    leaves the bytes that have arrived.  Java serialization is an interface. *)

From S2P Require Import Prelude.

(** Java serialization of the objects of one class. *)
Class Serial (A B : Type) := { serialize : A -> list B; deserialize : list B -> res A }.

(** An object that was written is read back; a stream that ends too early is an [IOException]. *)
Class SerialLaws (A B : Type) `{!Serial A B} : Prop := {
  deserialize_serialize (x : A) : deserialize (serialize x) = Ok x;
  deserialize_early (x : A) b : b `prefix_of` serialize x -> b <> serialize x -> exists e, deserialize (A := A) b = Err e;
}.

(** The working directory. *)
Notation disk B := (gmap string (list B)) (only parsing).

Section files.
Context {B : Type}.
Implicit Types (files : disk B) (name : string) (content : list B).

Definition FileOutputStream name files : disk B := <[name := []]> files.
Definition writeByte name files (b : B) : disk B := <[name := default [] (files !! name) ++ [b]]> files.

(** [cut] is the number of bytes after which the program is killed, if it is. *)
Definition writeFile (cut : option nat) name content files : disk B :=
  foldl (writeByte name) (FileOutputStream name files) (match cut with Some m => take m content | None => content end).

Lemma writeFile_bytes cut name content files :
  writeFile cut name content files = <[name := match cut with Some m => take m content | None => content end]> files.
Proof.
  unfold writeFile, FileOutputStream. generalize (match cut with Some m => take m content | None => content end). intros bytes.
  change (<[name := bytes]> files) with (<[name := [] ++ bytes]> files). generalize (@nil B) as front. clear content.
  induction bytes as [| b bytes IH]; intros front; cbn [foldl]; [by rewrite app_nil_r |].
  unfold writeByte at 2. rewrite lookup_insert_eq, insert_insert_eq. cbn [default]. rewrite IH. by rewrite <-app_assoc.
Qed.

Lemma writeFile_all name content files : writeFile None name content files = <[name := content]> files.
Proof. apply writeFile_bytes. Qed.
End files.

Section objects.
Context {A B : Type} `{!Serial A B}.
Implicit Types (files : disk B) (name : string) (x : A).

(** A file that is there but does not hold an object of the class. *)
Definition unreadable name files : bool :=
  match files !! name with
  | Some b => match deserialize (A := A) b with Ok _ => false | Err _ => true end
  | None => false
  end.

Lemma unreadable_None name files : files !! name = None -> unreadable name files = false.
Proof. intros E. unfold unreadable. by rewrite E. Qed.

Lemma unreadable_ne name name' content files : name <> name' -> unreadable name (<[name' := content]> files) = unreadable name files.
Proof. intros Hne. unfold unreadable. by rewrite lookup_insert_ne. Qed.

Context `{!SerialLaws A B}.

Lemma unreadable_written name x files : files !! name = Some (serialize x) -> unreadable name files = false.
Proof. intros E. unfold unreadable. by rewrite E, deserialize_serialize. Qed.

(** What a killed program has written is unreadable, unless all bytes had arrived. *)
Lemma early_cases x m : take m (serialize x) = serialize x \/ exists e, deserialize (A := A) (take m (serialize x)) = Err e.
Proof.
  destruct (decide (m < length (serialize x))%nat) as [Hlt | Hge]; [right | left; apply take_ge; lia].
  apply (deserialize_early x); [apply prefix_take |]. intros E. apply (f_equal length) in E. rewrite length_take in E. lia.
Qed.

Lemma unreadable_cut name x m files : unreadable name (<[name := take m (serialize x)]> files) = false ->
  take m (serialize x) = serialize x.
Proof.
  unfold unreadable. rewrite lookup_insert_eq. by destruct (early_cases x m) as [-> | [e ->]].
Qed.
End objects.
Arguments unreadable A {B _} name files.

(** Files of one byte, for computing with the definitions. *)
Definition oneByte {A B} (inj : A -> B) (proj : B -> option A) : Serial A B :=
  {| serialize x := [inj x];
     deserialize b := match b with [y] => match proj y with Some x => Ok x | None => Err IllegalState end | _ => Err IllegalState end |}.

Lemma oneByte_laws {A B} (inj : A -> B) (proj : B -> option A) : (forall x, proj (inj x) = Some x) -> SerialLaws A B (Serial0 := oneByte inj proj).
Proof.
  intros H. split; [intros x; cbn; by rewrite H |]. intros x [| y b] [rest E] Hne; [by eexists |]. cbn in E. injection E as <- E.
  symmetry in E. apply app_eq_nil in E as [-> ->]. by destruct Hne.
Qed.
