(* ===== verification/Text.v ===== *)
(** * Text: [Integer.parseInt], the printing of an [int], [trim], [split] and the lines of a file

    The standard library's operations on strings that the file formats of the program go through. *)

From S2P Require Import Prelude.
From Stdlib Require Import Ascii DecimalString DecimalZ DecimalPos.

Definition printInt (z : Z) : string := NilZero.string_of_int (Z.to_int z).

(** [Integer.parseInt]: an optional sign, at least one digit, and a value in the range. *)
Definition parseInt (s : string) : res Z :=
  let digits := match s with
    | String c s' => if Ascii.eqb c "+"%char then Decimal.Pos <$> NilZero.uint_of_string s'
                     else NilZero.int_of_string s
    | EmptyString => None
    end in
  match digits with
  | None => Err NumberFormat
  | Some d => let z := Z.of_int d in
      if (MIN_VALUE <=? z) && (z <=? MAX_VALUE) then Ok z else Err NumberFormat
  end.

Lemma to_uint_nonnil p : Pos.to_uint p <> Decimal.Nil.
Proof. apply Unsigned.to_uint_nonnil. Qed.

Lemma printInt_digits z : NilZero.int_of_string (printInt z) = Some (Z.to_int z).
Proof.
  unfold printInt. apply NilZero.isi; destruct z as [| p | p]; cbn; try discriminate;
    intros [= E]; by apply (to_uint_nonnil p).
Qed.

Lemma printInt_first z c s : printInt z = String c s -> Ascii.eqb c "+"%char = false.
Proof.
  unfold printInt. destruct z as [| p | p]; cbn.
  - by intros [= <- _].
  - pose proof (to_uint_nonnil p). destruct (Pos.to_uint p); cbn; intros [= <- _]; done.
  - by intros [= <- _].
Qed.

Lemma parse_print z : is_int z -> parseInt (printInt z) = Ok z.
Proof.
  intros Hz. pose proof (printInt_digits z) as Hd. pose proof (printInt_first z) as Hf.
  unfold parseInt. destruct (printInt z) as [| c s]; [done |].
  rewrite (Hf c s eq_refl), Hd, DecimalZ.of_to. unfold is_int in Hz.
  destruct (Z.leb_spec MIN_VALUE z); [| lia]. by destruct (Z.leb_spec z MAX_VALUE); [| lia].
Qed.

(** ** Words and lines *)

(** [s.split(" ")] of JavaScript. *)
Fixpoint splitSpace (s : string) : list string :=
  match s with
  | EmptyString => [""%string]
  | String c s' =>
      if Ascii.eqb c " "%char then ""%string :: splitSpace s' else
      match splitSpace s' with
      | w :: ws => String c w :: ws
      | [] => [String c ""]
      end
  end.

(** [s.split(" ")] of Java, which drops the trailing empty parts unless it found no separator. *)
Fixpoint dropEmpty (l : list string) : list string :=
  match l with
  | [] => []
  | x :: l' => match dropEmpty l' with
      | [] => if bool_decide (x = "")%string then [] else [x]
      | l'' => x :: l''
      end
  end.

Definition split (s : string) : list string :=
  match splitSpace s with [w] => [w] | ws => dropEmpty ws end.

Definition isBlank (c : ascii) : bool := (nat_of_ascii c <=? 32)%nat.

Fixpoint dropBlanks (l : list ascii) : list ascii :=
  match l with c :: l' => if isBlank c then dropBlanks l' else l | [] => [] end.

(** [s.trim()] *)
Definition trim (s : string) : string :=
  String.string_of_list_ascii (rev (dropBlanks (rev (dropBlanks (String.list_ascii_of_string s))))).

Definition LF : ascii := "010"%char.
Definition CR : ascii := "013"%char.

(** The lines that [BufferedReader.readLine] answers, one by one. *)
Fixpoint lines (s : string) : list string :=
  match s with
  | EmptyString => []
  | String c s' =>
      if Ascii.eqb c LF then ""%string :: lines s'
      else if Ascii.eqb c CR then
        match s' with
        | String d s'' => if Ascii.eqb d LF then ""%string :: lines s'' else ""%string :: lines s'
        | EmptyString => [""%string]
        end
      else match lines s' with l :: ls => String c l :: ls | [] => [String c ""] end
  end.

(** [readLine]; no line is [null]. *)
Definition readLine (file : list string) : option string * list string :=
  match file with [] => (None, []) | l :: file' => (Some l, file') end.

Definition unspaced (c : ascii) : Prop := (32 < nat_of_ascii c)%nat.
Definition word (s : string) : Prop := s <> ""%string /\ Forall unspaced (String.list_ascii_of_string s).
Definition printable (s : string) : Prop :=
  Forall (fun c => (32 <= nat_of_ascii c)%nat) (String.list_ascii_of_string s).

Lemma append_cons c a b : (String c a +:+ b = String c (a +:+ b))%string.
Proof. done. Qed.

Lemma append_nil_l b : ("" +:+ b = b)%string.
Proof. done. Qed.

Lemma append_assoc a b c : (a +:+ (b +:+ c) = (a +:+ b) +:+ c)%string.
Proof. induction a as [| x a IH]; [done |]. by rewrite !append_cons, IH. Qed.

Lemma list_ascii_app a b : String.list_ascii_of_string (a +:+ b)
  = String.list_ascii_of_string a ++ String.list_ascii_of_string b.
Proof. induction a as [| c a IH]; [done |]. rewrite append_cons. cbn. by rewrite IH. Qed.

Lemma string_of_list_of_string s : String.string_of_list_ascii (String.list_ascii_of_string s) = s.
Proof. induction s; cbn; congruence. Qed.

Lemma ascii_differs c d n : nat_of_ascii d = n -> nat_of_ascii c <> n -> Ascii.eqb c d = false.
Proof. intros Hd Hne. apply Ascii.eqb_neq. intros ->. by apply Hne. Qed.

Lemma splitSpace_word w : word w -> splitSpace w = [w].
Proof.
  intros [Hne Hw]. clear Hne. induction w as [| c w IH]; [done |]. cbn in *.
  inversion_clear Hw as [| ? ? Hc Hw'].
  rewrite (ascii_differs c " "%char 32) by (done || (unfold unspaced in Hc; lia)). by rewrite IH.
Qed.

Lemma splitSpace_join a b : word a -> splitSpace (a +:+ " " +:+ b)%string = a :: splitSpace b.
Proof.
  intros [Hne Hw]. clear Hne. induction a as [| c a IH]; [done |].
  cbn in Hw. inversion_clear Hw as [| ? ? Hc Hw'].
  rewrite append_cons. cbn [splitSpace].
  rewrite (ascii_differs c " "%char 32) by (done || (unfold unspaced in Hc; lia)). by rewrite IH.
Qed.

Lemma dropEmpty_words l : Forall word l -> dropEmpty l = l.
Proof.
  induction 1 as [| w l [Hne _] _ IH]; [done |]. cbn. rewrite IH.
  destruct l; [| done]. by rewrite bool_decide_eq_false_2.
Qed.

Lemma split_two a b : word a -> word b -> split (a +:+ " " +:+ b)%string = [a; b].
Proof.
  intros Ha Hb. unfold split. rewrite splitSpace_join, splitSpace_word by done.
  apply dropEmpty_words. repeat (apply Forall_cons; split; [done |]). constructor.
Qed.

Lemma split_three a b c : word a -> word b -> word c ->
  split (a +:+ " " +:+ b +:+ " " +:+ c)%string = [a; b; c].
Proof.
  intros Ha Hb Hc. unfold split. rewrite !splitSpace_join, splitSpace_word by done.
  apply dropEmpty_words. repeat (apply Forall_cons; split; [done |]). constructor.
Qed.

Lemma dropBlanks_word w l : word w ->
  dropBlanks (String.list_ascii_of_string w ++ l) = String.list_ascii_of_string w ++ l.
Proof.
  intros [Hne Hw]. destruct w as [| c w]; [done |]. cbn in *.
  inversion_clear Hw as [| ? ? Hc Hw']. unfold isBlank, unspaced in *.
  by destruct (Nat.leb_spec (nat_of_ascii c) 32); [lia |].
Qed.

Lemma dropBlanks_word_rev w l : word w ->
  dropBlanks (rev (String.list_ascii_of_string w) ++ l) = rev (String.list_ascii_of_string w) ++ l.
Proof.
  intros [Hne Hw].
  destruct (rev (String.list_ascii_of_string w)) as [| c r] eqn:E.
  { assert (String.list_ascii_of_string w = []) as E'
      by (rewrite <-(rev_involutive (String.list_ascii_of_string w)), E; done).
    by destruct w. }
  assert (unspaced c) as Hc.
  { rewrite Forall_forall in Hw. apply Hw. rewrite list_elem_of_In, in_rev, E. by left. }
  cbn. unfold isBlank, unspaced in *. by destruct (Nat.leb_spec (nat_of_ascii c) 32); [lia |].
Qed.

(** A line between two words, or of one, is not trimmed. *)
Lemma trim_word w : word w -> trim w = w.
Proof.
  intros Hw. unfold trim. pose proof (dropBlanks_word w [] Hw) as E1. rewrite app_nil_r in E1.
  pose proof (dropBlanks_word_rev w [] Hw) as E2. rewrite app_nil_r in E2.
  by rewrite E1, E2, rev_involutive, string_of_list_of_string.
Qed.

Lemma trim_between a m b : word a -> word b -> trim (a +:+ m +:+ b)%string = (a +:+ m +:+ b)%string.
Proof.
  intros Ha Hb. unfold trim. rewrite list_ascii_app, dropBlanks_word by done.
  rewrite list_ascii_app, !rev_app_distr, <-app_assoc, dropBlanks_word_rev by done.
  rewrite app_assoc, <-!rev_app_distr, rev_involutive, <-!list_ascii_app.
  by rewrite string_of_list_of_string.
Qed.

Lemma printable_app a b : printable a -> printable b -> printable (a +:+ b)%string.
Proof. unfold printable. intros. rewrite list_ascii_app. by apply Forall_app. Qed.

Lemma word_printable w : word w -> printable w.
Proof. intros [_ Hw]. eapply Forall_impl; [exact Hw |]. unfold unspaced. cbn. lia. Qed.

(** Lines that were written one by one are read one by one. *)
Lemma lines_line l s : printable l -> lines (l +:+ String LF s)%string = l :: lines s.
Proof.
  unfold printable. induction l as [| c l IH]; intros Hl; [done |]. cbn in Hl.
  inversion_clear Hl as [| ? ? Hc Hl'].
  rewrite append_cons. cbn [lines].
  rewrite (ascii_differs c LF 10), (ascii_differs c CR 13) by (done || lia).
  rewrite IH by done. done.
Qed.

Lemma word_uint d : d <> Decimal.Nil -> word (NilEmpty.string_of_uint d).
Proof.
  intros Hd. split; [by destruct d |]. clear Hd.
  induction d; cbn; constructor; try done; apply Nat.ltb_lt; reflexivity.
Qed.

Lemma word_printInt z : word (printInt z).
Proof.
  unfold printInt. destruct z as [| p | p]; cbn.
  - split; [done |]. constructor; [apply Nat.ltb_lt; reflexivity | constructor].
  - pose proof (to_uint_nonnil p). unfold NilZero.string_of_uint.
    destruct (Pos.to_uint p) eqn:E; try done; rewrite <-E in *; by apply word_uint.
  - pose proof (to_uint_nonnil p). unfold NilZero.string_of_uint. split; [done |].
    cbn. constructor; [apply Nat.ltb_lt; reflexivity |].
    destruct (Pos.to_uint p) eqn:E; try done; rewrite <-E in *; by apply word_uint.
Qed.
