(* ===== verification/Doubles.v ===== *)
(** * Floating-point numbers, as an interface

    The program's [double]s are a type [D] with the operations the sources use.  A theorem names
    the laws it needs: the order ([DoubleOrder]) or the text conversions ([DoubleText]).
    [Z] is an instance, for computing with the definitions. *)

From S2P Require Import Prelude Text.
From Stdlib Require Import DecimalString DecimalZ.

Class JDouble (D : Type) := {
  dofZ : Z -> D;
  dadd : D -> D -> D;
  dsub : D -> D -> D;
  dmul : D -> D -> D;
  ddiv : D -> D -> D;
  dlt : D -> D -> bool;
  dsin : D -> D;
  dcos : D -> D;
  dsqrt : D -> D;
  datan2 : D -> D -> D;
  dPI : D;
  dMAX : D;                      (* Double.MAX_VALUE *)
  dtoInt : D -> Z;               (* the cast (int) *)
  parseDouble : string -> res D;
  printDouble : D -> string;
}.

(** The comparison of doubles, of NaN too, is a strict order. *)
Class DoubleOrder (D : Type) `{!JDouble D} : Prop := {
  dlt_irrefl x : dlt x x = false;
  dlt_trans x y z : dlt x y = true -> dlt y z = true -> dlt x z = true;
}.

(** A printed double is one word, and parses back to the number. *)
Class DoubleText (D : Type) `{!JDouble D} : Prop := {
  parse_printDouble x : parseDouble (printDouble x) = Ok x;
  word_printDouble x : word (printDouble x);
}.

(** The integers, with a trigonometry that is good enough to run the definitions. *)
#[local] Instance intDouble : JDouble Z := {|
  dofZ z := z; dadd := Z.add; dsub := Z.sub; dmul := Z.mul; ddiv := Z.quot; dlt := Z.ltb;
  dsin z := z; dcos z := 1; dsqrt := Z.sqrt; datan2 y x := y; dPI := 180; dMAX := 2 ^ 1023;
  dtoInt z := z;
  parseDouble s := match NilZero.int_of_string s with
    | Some d => Ok (Z.of_int d) | None => Err NumberFormat end;
  printDouble := printInt;
|}.

#[local] Instance intDouble_order : DoubleOrder Z.
Proof.
  split; cbn; [intros x; apply Z.ltb_irrefl |].
  intros x y z Hxy%Z.ltb_lt Hyz%Z.ltb_lt. apply Z.ltb_lt. lia.
Qed.

#[local] Instance intDouble_text : DoubleText Z.
Proof.
  split; intros x; cbn; [| apply word_printInt]. by rewrite printInt_digits, DecimalZ.of_to.
Qed.
