(* ===== verification/IntStack.v ===== *)
(** * utils/IntStack.java: a growable stack of ints that can also be read in FIFO order

    The concrete state keeps two indices into one array; the abstract state is the list of
    the elements not yet returned.  [push] appends to the list, [pop] takes its last element
    and [popFifo] its first one. *)

From S2P Require Import Prelude.

Record t := mk {
  elements : list Z;
  nextIdx : Z;
  fifoIdx : Z;
  sizeIncrease : Z;
}.

Definition new (size : Z) : res t :=
  es ← newArray 0 size; Ok (mk es 0 0 size).

Definition clear (s : t) : t := mk (elements s) 0 0 (sizeIncrease s).

Definition popFifo (s : t) : res (Z * t) :=
  retVal ← aget (elements s) (fifoIdx s);
  Ok (retVal, mk (elements s) (nextIdx s) (fifoIdx s + 1) (sizeIncrease s)).

Definition pop (s : t) : res (Z * t) :=
  let next := nextIdx s - 1 in
  x ← aget (elements s) next;
  Ok (x, mk (elements s) next (fifoIdx s) (sizeIncrease s)).

Definition grow (s : t) : res t :=
  let oldLen := alen (elements s) in
  es ← copyOf 0 (elements s) (oldLen + sizeIncrease s);
  Ok (mk es (nextIdx s) (fifoIdx s) (sizeIncrease s)).

Definition push (s : t) (toAdd : Z) : res t :=
  s ← (if nextIdx s =? alen (elements s) then grow s else Ok s);
  es ← aset (elements s) (nextIdx s) toAdd;
  Ok (mk es (nextIdx s + 1) (fifoIdx s) (sizeIncrease s)).

Definition isEmpty (s : t) : bool := nextIdx s =? fifoIdx s.

(** ** Abstraction *)

(** [s] stores the pending elements [l], after a prefix already returned by [popFifo]. *)
Definition repr (s : t) (l : list Z) : Prop :=
  0 < sizeIncrease s /\
  exists pre post, elements s = pre ++ l ++ post /\
    fifoIdx s = alen pre /\ nextIdx s = alen pre + alen l.

(** A client's use of the stack, as a sequence of calls. *)
Inductive op := Push (x : Z) | Pop | PopFifo | Clear | IsEmpty.

Inductive out := ONone | OInt (x : Z) | OBool (b : bool).

Definition step (o : op) (s : t) : res (out * t) :=
  match o with
  | Push x => s' ← push s x; Ok (ONone, s')
  | Pop => '(x, s') ← pop s; Ok (OInt x, s')
  | PopFifo => '(x, s') ← popFifo s; Ok (OInt x, s')
  | Clear => Ok (ONone, clear s)
  | IsEmpty => Ok (OBool (isEmpty s), s)
  end.

Fixpoint run (os : list op) (s : t) : res (list out * t) :=
  match os with
  | [] => Ok ([], s)
  | o :: os' => '(r, s') ← step o s; '(rs, s'') ← run os' s'; Ok (r :: rs, s'')
  end.

(** The abstract machine; removing from the empty list is outside the contract. *)
Definition astep (o : op) (l : list Z) : option (out * list Z) :=
  match o with
  | Push x => Some (ONone, l ++ [x])
  | Pop => match last l with Some x => Some (OInt x, removelast l) | None => None end
  | PopFifo => match l with x :: l' => Some (OInt x, l') | [] => None end
  | Clear => Some (ONone, [])
  | IsEmpty => Some (OBool (bool_decide (l = [])), l)
  end.

Fixpoint arun (os : list op) (l : list Z) : option (list out * list Z) :=
  match os with
  | [] => Some ([], l)
  | o :: os' => '(r, l') ← astep o l; '(rs, l'') ← arun os' l'; Some (r :: rs, l'')
  end.

(** ** Lemmas *)

Lemma stack_repr_new n : 0 < n -> returns (new n) (fun s => repr s []).
Proof.
  intros Hn. unfold new, newArray. destruct (Z.ltb_spec n 0); [lia |].
  apply returns_ok. split; [done |]. by exists [], (replicate (Z.to_nat n) 0).
Qed.

Lemma repr_clear s l : repr s l -> repr (clear s) [].
Proof. intros [Hi _]. split; [done |]. by exists [], (elements s). Qed.

Lemma repr_grow s l : repr s l -> nextIdx s = alen (elements s) ->
  returns (grow s) (fun s' => repr s' l /\ nextIdx s' < alen (elements s')).
Proof.
  intros [Hi (pre & post & He & Hf & Hn)] Hfull. unfold grow, copyOf.
  pose proof (alen_nonneg (elements s)).
  destruct (Z.ltb_spec (alen (elements s) + sizeIncrease s) 0); [lia |].
  rewrite take_ge by (unfold alen; lia).
  replace (alen (elements s) + sizeIncrease s - alen (elements s)) with (sizeIncrease s) by lia.
  apply returns_ok. split.
  - split; [done |]. exists pre, (post ++ replicate (Z.to_nat (sizeIncrease s)) 0).
    cbn. rewrite He, <-!app_assoc. done.
  - cbn. rewrite alen_app, alen_replicate by lia. lia.
Qed.

Lemma push_repr s l x : repr s l -> returns (push s x) (fun s' => repr s' (l ++ [x])).
Proof.
  intros Hr. unfold push.
  apply (returns_bind _ _ (fun s' => repr s' l /\ nextIdx s' < alen (elements s'))).
  { destruct (Z.eqb_spec (nextIdx s) (alen (elements s))) as [E | E].
    - by apply repr_grow.
    - apply returns_ok. split; [done |]. destruct Hr as [_ (pre & post & He & _ & Hn)].
      rewrite He in *. autorewrite with alen in *. pose proof (alen_nonneg post). lia. }
  clear s Hr. intros s [[Hi (pre & post & He & Hf & Hn)] Hlt].
  destruct post as [|y post]; [rewrite He in Hlt; autorewrite with alen in Hlt; lia |].
  pose proof (alen_nonneg pre). pose proof (alen_nonneg l).
  rewrite aset_ok by lia. apply returns_ok. split; [done |].
  exists pre, post. cbn. rewrite He, Hn, Hf. split; [| split; [done |]].
  - rewrite app_assoc. replace (Z.to_nat (alen pre + alen l))
      with (length (pre ++ l) + 0)%nat by (rewrite length_app; unfold alen; lia).
    rewrite insert_app_r. cbn. by rewrite <-!app_assoc.
  - autorewrite with alen. lia.
Qed.

Lemma pop_repr s l x : repr s (l ++ [x]) ->
  returns (pop s) (fun '(y, s') => y = x /\ repr s' l).
Proof.
  intros [Hi (pre & post & He & Hf & Hn)]. unfold pop. autorewrite with alen in Hn.
  pose proof (alen_nonneg pre). pose proof (alen_nonneg l). pose proof (alen_nonneg post).
  assert (elements s = (pre ++ l) ++ x :: post) as He'
    by (rewrite He, <-!app_assoc; done).
  rewrite aget_ok by (rewrite He'; autorewrite with alen; lia).
  apply returns_ok. split.
  - rewrite He', at_app_r by (autorewrite with alen; lia). autorewrite with alen.
    by replace (nextIdx s - 1 - (alen pre + alen l)) with 0 by lia.
  - split; [done |]. exists pre, (x :: post). cbn. rewrite He', <-app_assoc. split_and!; [done .. |]. lia.
Qed.

Lemma popFifo_repr s l x : repr s (x :: l) ->
  returns (popFifo s) (fun '(y, s') => y = x /\ repr s' l).
Proof.
  intros [Hi (pre & post & He & Hf & Hn)]. unfold popFifo. autorewrite with alen in Hn.
  pose proof (alen_nonneg pre). pose proof (alen_nonneg l). pose proof (alen_nonneg post).
  rewrite aget_ok by (rewrite He; autorewrite with alen; lia). apply returns_ok. split.
  - rewrite He, Hf, at_app_r by lia. by rewrite Z.sub_diag.
  - split; [done |]. exists (pre ++ [x]), post. cbn. rewrite He, <-app_assoc.
    autorewrite with alen. split_and!; [done | lia | lia].
Qed.

Lemma isEmpty_repr s l : repr s l -> isEmpty s = bool_decide (l = []).
Proof.
  intros [Hi (pre & post & He & Hf & Hn)]. unfold isEmpty. destruct l as [|x l].
  - rewrite bool_decide_true by done. autorewrite with alen in Hn. lia.
  - rewrite bool_decide_false by done. autorewrite with alen in Hn.
    pose proof (alen_nonneg l). lia.
Qed.

Lemma stack_step_refines o s l r l' : repr s l -> astep o l = Some (r, l') ->
  returns (step o s) (fun '(r', s') => r' = r /\ repr s' l').
Proof.
  intros Hr Ho. destruct o; cbn [astep step] in *.
  - simplify_eq. eapply returns_bind; [by apply push_repr |]. done.
  - destruct (last l) as [x|] eqn:El; simplify_eq.
    apply last_Some in El as [l0 ->]. rewrite removelast_last.
    eapply returns_bind; [by apply (pop_repr s l0 x) |]. by intros [y s'] [-> ?].
  - destruct l as [|x l]; simplify_eq.
    eapply returns_bind; [by apply popFifo_repr |]. by intros [y s'] [-> ?].
  - simplify_eq. apply returns_ok. split; [done |]. by eapply repr_clear.
  - simplify_eq. apply returns_ok. by erewrite isEmpty_repr.
Qed.

(** ** Properties *)

(** IntStack refines the abstract sequence: whatever interleaving of [push], [pop], [popFifo],
    [clear] and [isEmpty] a client performs without removing from the empty structure, the
    array implementation never throws and returns exactly what the sequence returns. *)
Theorem stack_refines os : forall s l outs l',
  repr s l -> arun os l = Some (outs, l') ->
  returns (run os s) (fun '(outs', s') => outs' = outs /\ repr s' l').
Proof.
  induction os as [|o os IH]; intros s l outs l' Hr Ha; cbn [arun run] in *.
  { by simplify_eq. }
  destruct (astep o l) as [[r l1]|] eqn:Eo; simplify_eq/=.
  destruct (arun os l1) as [[rs l2]|] eqn:Es; simplify_eq/=.
  eapply returns_bind; [by eapply stack_step_refines |]. intros [r' s1] [-> Hs1].
  eapply returns_bind; [by eapply IH |]. by intros [rs' s2] [-> Hs2].
Qed.

(** A stack of initial size 1, used from both ends. *)
Lemma stack_refines_witness :
  returns (new 1) (fun s0 =>
    returns (run [Push 5; Push 6; PopFifo; Push 7; Pop; IsEmpty; Pop; IsEmpty] s0) (fun '(outs, s') =>
      outs = [ONone; ONone; OInt 5; ONone; OInt 7; OBool false; OInt 6; OBool true] /\ repr s' [])).
Proof.
  eapply returns_mono; [apply (stack_repr_new 1); lia |]. cbv beta. intros s0 H0.
  by apply (stack_refines _ s0 [] _ [] H0).
Defined.
