(* ===== verification/IntArrayList.v ===== *)
(** * utils/IntArrayList.java: a growable list of ints *)

From S2P Require Import Prelude.

Record t := mk {
  elements : list Z;
  elementCount : Z;
  sizeIncrease : Z;
}.

Definition new (size : Z) : res t := es ← newArray 0 size; Ok (mk es 0 size).

Definition get (s : t) (idx : Z) : res Z :=
  if elementCount s <=? idx then Err IndexOutOfBounds else aget (elements s) idx.

Definition grow (s : t) : res t :=
  let oldLen := alen (elements s) in
  es ← copyOf 0 (elements s) (oldLen + sizeIncrease s);
  Ok (mk es (elementCount s) (sizeIncrease s)).

Definition add (s : t) (toAdd : Z) : res t :=
  s ← (if elementCount s =? alen (elements s) then grow s else Ok s);
  es ← aset (elements s) (elementCount s) toAdd;
  Ok (mk es (elementCount s + 1) (sizeIncrease s)).

Definition getLen (s : t) : Z := elementCount s.

Definition clear (s : t) : t := mk (elements s) 0 (sizeIncrease s).

(** ** Abstraction: the list of the elements added since the last [clear] *)

Definition repr (s : t) (l : list Z) : Prop :=
  0 < sizeIncrease s /\ holds (elements s) l /\ elementCount s = alen l.

Lemma repr_new n : 0 < n -> returns (new n) (fun s => repr s []).
Proof.
  intros Hn. unfold new, newArray. destruct (Z.ltb_spec n 0); [lia |].
  apply returns_ok. split_and!; [done | by eexists | done].
Qed.

Lemma clear_repr s l : repr s l -> repr (clear s) [].
Proof. intros (Hi & _ & _). split_and!; [done | by eexists | done]. Qed.

Lemma getLen_repr s l : repr s l -> getLen s = alen l.
Proof. by intros (_ & _ & ?). Qed.

Lemma get_repr s l i : repr s l -> 0 <= i < alen l -> get s i = Ok l.[i].
Proof.
  intros (Hi & [r He] & Hc) Hb. unfold get. destruct (Z.leb_spec (elementCount s) i); [lia |].
  pose proof (alen_nonneg r).
  rewrite aget_ok by (rewrite He; autorewrite with alen; lia). by rewrite He, at_app_l.
Qed.

Lemma get_oob s l i : repr s l -> alen l <= i -> get s i = Err IndexOutOfBounds.
Proof. intros (_ & _ & Hc) Hb. unfold get. destruct (Z.leb_spec (elementCount s) i); [done | lia]. Qed.

(** Appending to an array that [holds] a list, growing it when it is full. *)
Lemma add_repr s l x : repr s l -> returns (add s x) (fun s' => repr s' (l ++ [x])).
Proof.
  intros Hr. unfold add.
  apply (returns_bind _ _ (fun s' => repr s' l /\ elementCount s' < alen (elements s'))).
  { destruct Hr as (Hi & [r He] & Hc). pose proof (alen_nonneg r).
    assert (alen (elements s) = alen l + alen r) as Hlen by (rewrite He; by autorewrite with alen).
    destruct (Z.eqb_spec (elementCount s) (alen (elements s))) as [E | E].
    - unfold grow, copyOf. pose proof (alen_nonneg (elements s)).
      destruct (Z.ltb_spec (alen (elements s) + sizeIncrease s) 0); [lia |].
      rewrite take_ge by (unfold alen; lia).
      replace (alen (elements s) + sizeIncrease s - alen (elements s)) with (sizeIncrease s) by lia.
      apply returns_ok. split; [split_and! |]; cbn; [done | | done |].
      + rewrite He, <-app_assoc. by eexists.
      + autorewrite with alen. lia.
    - apply returns_ok. split; [split_and!; [done | by eexists | done] | lia]. }
  clear s Hr. intros s [(Hi & [r He] & Hc) Hlt].
  destruct r as [|y r]; [rewrite He in Hlt; autorewrite with alen in Hlt; lia |].
  pose proof (alen_nonneg l). rewrite aset_ok by lia. apply returns_ok. split_and!; cbn.
  - done.
  - exists r. rewrite He, Hc. replace (Z.to_nat (alen l)) with (length l + 0)%nat by (unfold alen; lia).
    rewrite insert_app_r. cbn. by rewrite <-app_assoc.
  - autorewrite with alen. lia.
Qed.

(** IntArrayList refines the list of its elements: after [add], the length has grown by one,
    the new element is read back at the last index, every earlier index reads what it read
    before, and an index past the end throws IndexOutOfBoundsException instead of reading spare
    capacity. *)
Theorem add_get s l x : repr s l ->
  returns (add s x) (fun s' =>
    getLen s' = getLen s + 1 /\ get s' (getLen s) = Ok x /\
    (forall i, 0 <= i < getLen s -> get s' i = get s i) /\
    (forall i, getLen s' <= i -> get s' i = Err IndexOutOfBounds)).
Proof.
  intros Hr. eapply returns_mono; [by apply add_repr |]. intros s' Hs'.
  pose proof (alen_nonneg l).
  rewrite (getLen_repr s' _ Hs'), (getLen_repr s _ Hr), alen_app, alen_cons, alen_nil.
  split_and!; [lia | | |].
  - rewrite (get_repr s' (l ++ [x])) by (try done; autorewrite with alen; lia).
    rewrite at_app_r by lia. by rewrite Z.sub_diag.
  - intros i Hi. rewrite (get_repr s' (l ++ [x])) by (try done; autorewrite with alen; lia).
    by rewrite at_app_l, (get_repr s l) by done.
  - intros i Hi. apply (get_oob s' (l ++ [x])); [done |]. autorewrite with alen. lia.
Qed.

(** Adding to a full list of capacity 2. *)
Lemma add_get_witness :
  let s := mk [10; 20] 2 2 in
  add s 30 = Ok (mk [10; 20; 30; 0] 3 2) /\
  returns (add s 30) (fun s' =>
    getLen s' = getLen s + 1 /\ get s' (getLen s) = Ok 30 /\
    (forall i, 0 <= i < getLen s -> get s' i = get s i) /\
    (forall i, getLen s' <= i -> get s' i = Err IndexOutOfBounds)).
Proof.
  split; [reflexivity |]. apply (add_get (mk [10; 20] 2 2) [10; 20] 30).
  split_and!; [done | by exists [] | done].
Defined.
