(* ===== verification/IntArraySet.v ===== *)
(** * utils/IntArraySet.java: a set of ints in a sorted array *)

From S2P Require Import Prelude SortedArray.

Record t := mk {
  elements : list Z;
  elementCount : Z;
  sizeIncrease : Z;
}.

Definition new (size sizeIncrease : Z) : res t :=
  es ← newArray 0 size; Ok (mk (fill es MAX_VALUE) 0 sizeIncrease).

Definition contains (s : t) (element : Z) : bool := 0 <=? binarySearch (elements s) element.

Definition grow (s : t) : res t :=
  let oldLen := alen (elements s) in
  es ← copyOf 0 (elements s) (oldLen + sizeIncrease s);
  es ← fillRange es oldLen (alen es) MAX_VALUE;
  Ok (mk es (elementCount s) (sizeIncrease s)).

Definition add (s : t) (toAdd : Z) : res t :=
  let idx := binarySearch (elements s) toAdd in
  if 0 <=? idx then Ok s else
  s ← (if elementCount s =? alen (elements s) then grow s else Ok s);
  let idx := insertionPoint idx in
  es ← arraycopy (elements s) idx (elements s) (idx + 1) (elementCount s - idx);
  es ← aset es idx toAdd;
  Ok (mk es (elementCount s + 1) (sizeIncrease s)).

(** ** Abstraction: a finite set of ints below [Integer.MAX_VALUE] *)

Definition wf (s : t) (l : list Z) : Prop :=
  0 < sizeIncrease s /\ sorted_ids l /\ filled l (elements s) /\ elementCount s = alen l.

Definition models (s : t) (X : gset Z) : Prop := exists l, wf s l /\ X = list_to_set l.

Lemma models_new n k : 0 <= n -> 0 < k -> returns (new n k) (fun s => models s ∅).
Proof.
  intros Hn Hk. unfold new, newArray. destruct (Z.ltb_spec n 0); [lia |].
  apply returns_ok. exists []. split; [| done]. split_and!; [done | apply sorted_ids_nil | | done].
  by exists (length (replicate (Z.to_nat n) 0)).
Qed.

Lemma wf_contains s l x : wf s l -> x < MAX_VALUE -> contains s x = bool_decide (x ∈ l).
Proof.
  intros (_ & Hs & Hf & _) Hx. unfold contains.
  destruct (search_filled l (elements s) x) as [[Hr E] | (p & E & Hp & Hl & Hg)]; [done .. | |].
  - rewrite bool_decide_true by (rewrite <-E; by apply at_In). lia.
  - rewrite bool_decide_false by (by eapply split_not_elem). lia.
Qed.

Lemma wf_grow s l : wf s l -> elementCount s = alen (elements s) ->
  returns (grow s) (fun s' => wf s' l /\ elementCount s' < alen (elements s')).
Proof.
  intros (Hi & Hs & Hf & Hc) Hfull. unfold grow.
  pose proof (filled_grow l (elements s) (sizeIncrease s) Hf) as Hg.
  destruct (copyOf 0 (elements s) (alen (elements s) + sizeIncrease s)) as [es|]; cbn in *; [| lia].
  eapply returns_bind; [apply Hg; lia |]. intros es' [Hf' Hlen]. apply returns_ok.
  split; [split_and!; done | cbn; lia].
Qed.

Lemma wf_add s l x : wf s l -> x < MAX_VALUE ->
  returns (add s x) (fun s' => exists l', wf s' l' /\ forall y, y ∈ l' <-> y = x \/ y ∈ l).
Proof.
  intros Hw Hx. pose proof Hw as (Hi & Hs & Hf & Hc). unfold add.
  destruct (search_filled l (elements s) x) as [[Hr E] | (p & E & Hp & Hl & Hg)]; [done .. | |].
  { destruct (Z.leb_spec 0 (binarySearch (elements s) x)); [| lia]. apply returns_ok.
    exists l. split; [done |]. intros y. split; [by right |]. intros [-> | ?]; [| done].
    rewrite <-E. by apply at_In. }
  rewrite E. destruct (Z.leb_spec 0 (- (p + 1))); [lia |].
  apply (returns_bind _ _ (fun s' => wf s' l /\ elementCount s' < alen (elements s'))).
  { destruct (Z.eqb_spec (elementCount s) (alen (elements s))); [by apply wf_grow |].
    apply returns_ok. split; [done |]. destruct Hf as [k Hk]. rewrite Hk in *.
    autorewrite with alen in *. pose proof (alen_nonneg (replicate k MAX_VALUE)). lia. }
  clear s Hw Hi Hf Hc E. intros s [(Hi & _ & Hf & Hc) Hlt].
  replace (insertionPoint (- (p + 1))) with p by (unfold insertionPoint; lia).
  rewrite Hc in *. pose proof (filled_insert l (elements s) p x Hf Hlt Hp) as Hins.
  destruct (arraycopy _ _ _ _ _) as [es|]; [| done]. rewrite bind_ok in *.
  eapply returns_bind; [exact Hins |]. intros es' [Hf' Hlen]. apply returns_ok.
  exists (insert_cell p x l). split; [| intros y; apply elem_insert_cell].
  split_and!; [done | by apply sorted_insert | done | rewrite alen_insert_cell; cbn; lia].
Qed.

(** IntArraySet refines a mathematical set: [add] never throws, the result represents
    [{x} ∪ X] (adding a present element changes nothing), and [contains] decides membership for
    every int other than the filler [Integer.MAX_VALUE]. *)
Theorem add_contains s X x : models s X -> x < MAX_VALUE ->
  returns (add s x) (fun s' =>
    models s' ({[x]} ∪ X) /\
    forall y, y < MAX_VALUE -> contains s' y = bool_decide (y = x \/ y ∈ X)).
Proof.
  intros (l & Hw & ->) Hx. eapply returns_mono; [by apply wf_add |].
  intros s' (l' & Hw' & Hin). split.
  - exists l'. split; [done |]. apply set_eq. intros y.
    rewrite elem_of_union, elem_of_singleton, !elem_of_list_to_set. by rewrite Hin.
  - intros y Hy. rewrite (wf_contains s' l') by done. apply bool_decide_ext.
    by rewrite Hin, elem_of_list_to_set.
Qed.

(** The filler itself counts as contained as long as there is spare capacity. *)
Lemma contains_filler s X : models s X -> elementCount s < alen (elements s) ->
  contains s MAX_VALUE = true.
Proof.
  intros (l & (_ & Hs & Hf & Hc) & _) Hlt. unfold contains.
  destruct (binarySearch_spec (elements s) MAX_VALUE) as [? | (p & Hp & E & Hl & Hg)];
    [by eapply filled_ascending | lia |].
  exfalso. destruct Hf as [k Hk]. rewrite Hc in Hlt. pose proof (alen_nonneg l).
  assert ((elements s).[alen l] = MAX_VALUE) as Hm.
  { rewrite Hk in *. autorewrite with alen in Hlt.
    rewrite at_app_r, at_replicate by (unfold alen in *; rewrite ?length_replicate in *; lia). done. }
  destruct (decide (alen l < p)).
  - specialize (Hl (alen l)). lia.
  - specialize (Hg (alen l)). lia.
Qed.

(** Adding to a full set of capacity 2. *)
Lemma add_contains_witness :
  let s := mk [10; 30] 2 1 in
  add s 20 = Ok (mk [10; 20; 30] 3 1) /\
  returns (add s 20) (fun s' =>
    models s' ({[20]} ∪ {[10; 30]}) /\
    forall y, y < MAX_VALUE -> contains s' y = bool_decide (y = 20 \/ y ∈ ({[10; 30]} : gset Z))).
Proof.
  split; [reflexivity |]. apply (add_contains (mk [10; 30] 2 1) {[10; 30]} 20); [| by unfold MAX_VALUE].
  exists [10; 30]. split; [| set_solver]. split_and!; [done | | by exists 0%nat | done].
  split; repeat constructor.
Defined.
