(* ===== verification/OrderedIntSet.v ===== *)
(** * utils/OrderedIntSet.java: an int sequence, in a sorted and an unsorted variant

    Both variants store the sequence in the first [elementCount] cells of an array.  The
    ordered variant also keeps the spare cells at [Integer.MAX_VALUE], so that the whole array
    can be searched with [Arrays.binarySearch] as long as the client keeps it sorted.  Several
    of these sets are used in parallel, an index of the sorted one selecting the cells of the
    others, so the abstract value is the list of the stored elements and not a set. *)

From stdpp Require Import sorting.
From S2P Require Import Prelude SortedArray.

Record t := mk {
  orderedBySorting : bool;
  elements : list Z;
  elementCount : Z;
  sizeIncrease : Z;
}.

Definition new (orderedBySorting : bool) (initialSize sizeIncrease : Z) : res t :=
  es ← newArray 0 initialSize;
  Ok (mk orderedBySorting (if orderedBySorting then fill es MAX_VALUE else es) 0 sizeIncrease).

Definition withElements (s : t) (es : list Z) : t :=
  mk (orderedBySorting s) es (elementCount s) (sizeIncrease s).

Definition withContents (s : t) (es : list Z) (n : Z) : t :=
  mk (orderedBySorting s) es n (sizeIncrease s).

Definition grow (s : t) : res t :=
  let oldLen := alen (elements s) in
  es ← copyOf 0 (elements s) (oldLen + sizeIncrease s);
  es ← (if orderedBySorting s then fillRange es oldLen (alen es) MAX_VALUE else Ok es);
  Ok (withElements s es).

Definition insertTail (s : t) (toAdd : Z) : res t :=
  s ← (if elementCount s =? alen (elements s) then grow s else Ok s);
  es ← aset (elements s) (elementCount s) toAdd;
  Ok (withContents s es (elementCount s + 1)).

Definition removeAtIdx (s : t) (idx : Z) : res t :=
  let n := elementCount s - 1 in
  es ← arraycopy (elements s) (idx + 1) (elements s) idx (n - idx);
  es ← aset es n MAX_VALUE;
  Ok (withContents s es n).

Definition insertAtIdx (s : t) (toAdd idx : Z) : res t :=
  s ← (if elementCount s =? alen (elements s) then grow s else Ok s);
  es ← arraycopy (elements s) idx (elements s) (idx + 1) (elementCount s - idx);
  es ← aset es idx toAdd;
  Ok (withContents s es (elementCount s + 1)).

Definition insertSorted (s : t) (toAdd : Z) : res (Z * t) :=
  s ← (if elementCount s =? alen (elements s) then grow s else Ok s);
  let idx := binarySearch (elements s) toAdd in
  if 0 <=? idx then Ok (-1, s) else
  let idx := insertionPoint idx in
  es ← arraycopy (elements s) idx (elements s) (idx + 1) (elementCount s - idx);
  es ← aset es idx toAdd;
  Ok (idx, withContents s es (elementCount s + 1)).

Definition get (s : t) (idx : Z) : res Z :=
  if elementCount s <=? idx then Err IndexOutOfBounds else aget (elements s) idx.

Definition size (s : t) : Z := elementCount s.

Definition getIdx (s : t) (element : Z) : Z := binarySearch (elements s) element.

Definition updateValue (s : t) (newVal idx : Z) : res t :=
  es ← aset (elements s) idx newVal; Ok (withElements s es).

Definition makeSpace (s : t) (numOfElements : Z) : res t :=
  let oldLen := alen (elements s) in
  let freeElements := oldLen - elementCount s in
  if freeElements <? numOfElements then
    es ← copyOf 0 (elements s) (alen (elements s) + numOfElements);
    es ← (if orderedBySorting s then fillRange es oldLen (alen es) MAX_VALUE else Ok es);
    Ok (withElements s es)
  else Ok s.

Definition clear (s : t) : t :=
  withContents s (if orderedBySorting s then fill (elements s) MAX_VALUE else elements s) 0.

Definition toArray (s : t) : res (list Z) :=
  asArray ← newArray 0 (elementCount s);
  arraycopy (elements s) 0 asArray 0 (elementCount s).

(** ** Abstraction *)

(** The spare cells [r] of a set: the filler in the ordered variant, anything otherwise. *)
Definition spare (ordered : bool) (r : list Z) : Prop :=
  ordered = true -> exists k, r = replicate k MAX_VALUE.

Definition repr (s : t) (l : list Z) : Prop :=
  0 < sizeIncrease s /\ elementCount s = alen l /\
  exists r, elements s = l ++ r /\ spare (orderedBySorting s) r.

(** [s] also has a free cell. *)
Definition repr_free (s : t) (l : list Z) : Prop :=
  repr s l /\ elementCount s < alen (elements s).

Inductive op :=
| InsertTail (x : Z) | RemoveAt (i : Z) | InsertAt (x i : Z) | Get (i : Z)
| Update (x i : Z) | MakeSpace (n : Z) | Clear | ToArray | Size
| InsertSorted (x : Z) | GetIdx (x : Z).

Inductive out := ONone | OInt (x : Z) | OArr (a : list Z).

Definition step (o : op) (s : t) : res (out * t) :=
  match o with
  | InsertTail x => s' ← insertTail s x; Ok (ONone, s')
  | RemoveAt i => s' ← removeAtIdx s i; Ok (ONone, s')
  | InsertAt x i => s' ← insertAtIdx s x i; Ok (ONone, s')
  | Get i => x ← get s i; Ok (OInt x, s)
  | Update x i => s' ← updateValue s x i; Ok (ONone, s')
  | MakeSpace n => s' ← makeSpace s n; Ok (ONone, s')
  | Clear => Ok (ONone, clear s)
  | ToArray => a ← toArray s; Ok (OArr a, s)
  | Size => Ok (OInt (size s), s)
  | InsertSorted x => '(idx, s') ← insertSorted s x; Ok (OInt idx, s')
  | GetIdx x => Ok (OInt (getIdx s x), s)
  end.

Definition in_range (i : Z) (l : list Z) : bool := (0 <=? i) && (i <? alen l).

(** The elements are strictly ascending, below the filler. *)
Fixpoint strictly (l : list Z) : bool :=
  match l with
  | [] => true
  | [x] => x <? MAX_VALUE
  | x :: ((y :: _) as l) => (x <? y) && strictly l
  end.

(** How many elements are less than [x]. *)
Definition rank (x : Z) (l : list Z) : Z := alen (List.filter (fun y => y <? x) l).

(** The same operations on the list of elements, for either variant; an index out of range is outside
    the contract ("undefined behaviour may occur"), and so are the two operations that search, unless
    the set is of the ordered variant and its elements are ascending. *)
Definition astep (ordered : bool) (o : op) (l : list Z) : option (out * list Z) :=
  match o with
  | InsertTail x => Some (ONone, l ++ [x])
  | RemoveAt i => if in_range i l then Some (ONone, remove_cell i l) else None
  | InsertAt x i => if (0 <=? i) && (i <=? alen l) then Some (ONone, insert_cell i x l) else None
  | Get i => if in_range i l then Some (OInt l.[i], l) else None
  | Update x i => if in_range i l then Some (ONone, <[Z.to_nat i := x]> l) else None
  | MakeSpace n => if 0 <=? n then Some (ONone, l) else None
  | Clear => Some (ONone, [])
  | ToArray => Some (OArr l, l)
  | Size => Some (OInt (alen l), l)
  | InsertSorted x =>
      if ordered && strictly l && (x <? MAX_VALUE) then
        if bool_decide (x ∈ l) then Some (OInt (-1), l) else Some (OInt (rank x l), insert_cell (rank x l) x l)
      else None
  | GetIdx x =>
      if ordered && strictly l && (x <? MAX_VALUE) then
        Some (OInt (if bool_decide (x ∈ l) then rank x l else - rank x l - 1), l)
      else None
  end.

Fixpoint run (os : list op) (s : t) : res (list out * t) :=
  match os with
  | [] => Ok ([], s)
  | o :: os' => '(r, s') ← step o s; '(rs, s'') ← run os' s'; Ok (r :: rs, s'')
  end.

Fixpoint arun (ordered : bool) (os : list op) (l : list Z) : option (list out * list Z) :=
  match os with
  | [] => Some ([], l)
  | o :: os' => '(r, l') ← astep ordered o l; '(rs, l'') ← arun ordered os' l'; Some (r :: rs, l'')
  end.

(** ** Lemmas *)

Lemma set_repr_new b n k : 0 <= n -> 0 < k -> returns (new b n k) (fun s => repr s []).
Proof.
  intros Hn Hk. unfold new, newArray. destruct (Z.ltb_spec n 0); [lia |].
  apply returns_ok. split_and!; [done | done |]. destruct b; cbn.
  - eexists. split; [done |]. intros _. by eexists.
  - eexists. by split.
Qed.

Lemma set_repr_clear s l : repr s l -> repr (clear s) [].
Proof.
  intros (Hi & _ & _). split_and!; [done | done |]. unfold clear, withContents. cbn.
  destruct (orderedBySorting s); eexists; (split; [done |]); intros ?; [by eexists | done].
Qed.

(** Allocating [n] further cells, as [grow] and [makeSpace] do. *)
Lemma repr_extend s l n : repr s l -> 0 <= n ->
  returns (es ← copyOf 0 (elements s) (alen (elements s) + n);
           es ← (if orderedBySorting s then fillRange es (alen (elements s)) (alen es) MAX_VALUE else Ok es);
           Ok (withElements s es))
    (fun s' => repr s' l /\ orderedBySorting s' = orderedBySorting s /\
               alen (elements s') = alen (elements s) + n).
Proof.
  intros (Hi & Hc & r & He & Hr) Hn. destruct (orderedBySorting s) eqn:Eb.
  - destruct (Hr eq_refl) as [k ->].
    pose proof (filled_grow l (elements s) n (ex_intro _ k He) Hn) as Hg.
    destruct (copyOf 0 (elements s) (alen (elements s) + n)) as [es|]; [| done].
    rewrite bind_ok in Hg. rewrite bind_ok. eapply returns_bind; [exact Hg |]. intros es' [[k' ->] Hlen].
    apply returns_ok. split_and!; [| by rewrite <-Eb | exact Hlen].
    split_and!; [done | done |]. eexists. split; [done |]. intros _. by eexists.
  - unfold copyOf. pose proof (alen_nonneg (elements s)).
    destruct (Z.ltb_spec (alen (elements s) + n) 0); [lia |]. rewrite !bind_ok.
    rewrite take_ge by (unfold alen; lia).
    replace (alen (elements s) + n - alen (elements s)) with n by lia.
    apply returns_ok. split_and!.
    + split_and!; [done | done |]. exists (r ++ replicate (Z.to_nat n) 0). cbn. split.
      * by rewrite He, <-app_assoc.
      * rewrite Eb. done.
    + by rewrite <-Eb.
    + cbn. by rewrite alen_app, alen_replicate.
Qed.

Lemma set_repr_grow s l : repr s l ->
  returns (if elementCount s =? alen (elements s) then grow s else Ok s)
    (fun s' => repr_free s' l /\ orderedBySorting s' = orderedBySorting s).
Proof.
  intros Hr. destruct (Z.eqb_spec (elementCount s) (alen (elements s))) as [E | E].
  - pose proof Hr as (Hi & Hc & _). unfold grow.
    eapply returns_mono; [apply (repr_extend s l); [done | lia] |].
    intros s' (Hs' & Hb & Hlen). split; [| done]. split; [done |].
    destruct Hs' as (_ & Hc' & _). lia.
  - apply returns_ok. split; [| done]. split; [done |].
    destruct Hr as (_ & Hc & r & He & _). rewrite He in *. autorewrite with alen in *.
    pose proof (alen_nonneg r). lia.
Qed.

Lemma spare_tl b y r : spare b (y :: r) -> spare b r.
Proof. intros Hs Hb. destruct (Hs Hb) as [[|k] E]; [done |]. exists k. by simplify_eq/=. Qed.

(** The shifting insertion into a set that has a free cell. *)
Lemma insert_free s l x i : repr_free s l -> 0 <= i <= alen l ->
  returns (es ← arraycopy (elements s) i (elements s) (i + 1) (elementCount s - i);
           es ← aset es i x; Ok (withContents s es (elementCount s + 1)))
    (fun s' => repr s' (insert_cell i x l) /\ orderedBySorting s' = orderedBySorting s).
Proof.
  intros [(Hi & Hc & r & He & Hr) Hlt] Hb.
  destruct r as [|y r]; [rewrite He in Hlt; autorewrite with alen in Hlt; lia |].
  pose proof (shift_insert l y r i x Hb) as Hs. rewrite He, Hc.
  destruct (arraycopy _ _ _ _ _) as [es|]; [| done]. rewrite bind_ok in Hs.
  rewrite bind_ok, Hs, bind_ok. apply returns_ok. split; [| done]. split_and!; [done | |].
  - cbn. by rewrite alen_insert_cell.
  - exists r. split; [by unfold insert_cell; rewrite <-app_assoc | by eapply spare_tl].
Qed.

Lemma insertAtIdx_repr s l x i : repr s l -> 0 <= i <= alen l ->
  returns (insertAtIdx s x i)
    (fun s' => repr s' (insert_cell i x l) /\ orderedBySorting s' = orderedBySorting s).
Proof.
  intros Hr Hi. unfold insertAtIdx. eapply returns_bind; [by apply set_repr_grow |].
  intros s' [Hs' Hb]. rewrite <-Hb. by apply insert_free.
Qed.

Lemma insertTail_repr s l x : repr s l ->
  returns (insertTail s x)
    (fun s' => repr s' (l ++ [x]) /\ orderedBySorting s' = orderedBySorting s).
Proof.
  intros Hr. unfold insertTail. eapply returns_bind; [by apply set_repr_grow |].
  clear Hr. intros s' [[(Hi & Hc & r & He & Hr) Hlt] Hb].
  destruct r as [|y r]; [rewrite He in Hlt; autorewrite with alen in Hlt; lia |].
  pose proof (alen_nonneg l). rewrite aset_ok by lia. apply returns_ok.
  split; [| by rewrite <-Hb]. split_and!; [done | |].
  - cbn. autorewrite with alen. lia.
  - exists r. split; [| by eapply spare_tl]. cbn. rewrite He, Hc.
    replace (Z.to_nat (alen l)) with (length l + 0)%nat by (unfold alen; lia).
    rewrite insert_app_r. cbn. by rewrite <-app_assoc.
Qed.

Lemma removeAtIdx_repr s l i : repr s l -> 0 <= i < alen l ->
  returns (removeAtIdx s i)
    (fun s' => repr s' (remove_cell i l) /\ orderedBySorting s' = orderedBySorting s).
Proof.
  intros (Hi & Hc & r & He & Hr) Hb. unfold removeAtIdx. rewrite He, Hc.
  destruct (shift_remove l r i Hb) as [z ->]. rewrite bind_ok.
  assert (alen (delete (Z.to_nat i) l) = alen l - 1) as Hd by (by apply alen_remove_cell).
  rewrite aset_ok by (autorewrite with alen; pose proof (alen_nonneg r); lia).
  apply returns_ok. split; [| done]. split_and!; [done | by cbn; rewrite alen_remove_cell |].
  exists (MAX_VALUE :: r). split.
  - cbn. unfold remove_cell. rewrite <-Hd.
    replace (Z.to_nat (alen (delete (Z.to_nat i) l)))
      with (length (delete (Z.to_nat i) l) + 0)%nat by (unfold alen; lia).
    by rewrite insert_app_r.
  - intros Hord. destruct (Hr Hord) as [k ->]. by exists (S k).
Qed.

Lemma set_get_repr s l i : repr s l -> 0 <= i < alen l -> get s i = Ok l.[i].
Proof.
  intros (Hi & Hc & r & He & _) Hb. unfold get. destruct (Z.leb_spec (elementCount s) i); [lia |].
  pose proof (alen_nonneg r). rewrite aget_ok by (rewrite He; autorewrite with alen; lia).
  by rewrite He, at_app_l.
Qed.

Lemma updateValue_repr s l x i : repr s l -> 0 <= i < alen l ->
  returns (updateValue s x i)
    (fun s' => repr s' (<[Z.to_nat i := x]> l) /\ orderedBySorting s' = orderedBySorting s).
Proof.
  intros (Hi & Hc & r & He & Hr) Hb. unfold updateValue. pose proof (alen_nonneg r).
  rewrite aset_ok by (rewrite He; autorewrite with alen; lia). apply returns_ok.
  split; [| done]. split_and!; [done | cbn; by autorewrite with alen |].
  exists r. split; [| done]. cbn. rewrite He, insert_app_l; [done |]. unfold alen in *. lia.
Qed.

Lemma makeSpace_repr s l n : repr s l -> 0 <= n ->
  returns (makeSpace s n)
    (fun s' => repr s' l /\ orderedBySorting s' = orderedBySorting s /\
               n <= alen (elements s') - elementCount s').
Proof.
  intros Hr Hn. unfold makeSpace.
  destruct (Z.ltb_spec (alen (elements s) - elementCount s) n).
  - eapply returns_mono; [by apply (repr_extend s l) |]. intros s' (Hs' & Hb & Hlen).
    split_and!; [done .. |]. destruct Hs' as (_ & Hc' & r & He & _). rewrite Hlen, Hc'.
    destruct Hr as (_ & Hc & r0 & He0 & _). rewrite He0. autorewrite with alen.
    pose proof (alen_nonneg r0). lia.
  - by apply returns_ok.
Qed.

Lemma toArray_repr s l : repr s l -> toArray s = Ok l.
Proof.
  intros (Hi & Hc & r & He & _). unfold toArray, newArray. pose proof (alen_nonneg l).
  pose proof (alen_nonneg r). destruct (Z.ltb_spec (elementCount s) 0); [lia |].
  rewrite bind_ok, arraycopy_ok;
    rewrite ?He, ?Hc, ?alen_replicate; autorewrite with alen; try lia.
  f_equal. cbn. rewrite (drop_ge (replicate _ _)) by (rewrite length_replicate; unfold alen; lia).
  rewrite app_nil_r, drop_0. unfold alen. by rewrite Nat2Z.id, take_app_length.
Qed.

Lemma repr_filled s l : repr s l -> orderedBySorting s = true -> filled l (elements s).
Proof. intros (_ & _ & r & -> & Hr) Hb. destruct (Hr Hb) as [k ->]. by exists k. Qed.

(** ** The ordered variant *)

(** [getIdx] on the ordered variant, in the sense of [search_filled]. *)
Lemma getIdx_repr s l x : repr s l -> orderedBySorting s = true -> sorted_ids l -> x < MAX_VALUE ->
  (0 <= getIdx s x < alen l /\ l.[getIdx s x] = x) \/
  (exists p, getIdx s x = - (p + 1) /\ 0 <= p <= alen l /\ x ∉ l /\ sorted_ids (insert_cell p x l)).
Proof.
  intros Hr Hb Hs Hx. pose proof (repr_filled s l Hr Hb) as Hf.
  destruct (search_filled l (elements s) x) as [? | (p & E & Hp & Hl & Hg)]; [done .. | by left |].
  right. exists p. split_and!; [done | lia | lia | by eapply split_not_elem | by apply sorted_insert].
Qed.

Lemma strictly_sorted l : strictly l = true -> sorted_ids l.
Proof.
  intros H. induction l as [| x [| y l] IH]; cbn [strictly] in H; [by split; constructor | |].
  - apply Z.ltb_lt in H. by repeat constructor.
  - apply andb_prop in H as [Hxy%Z.ltb_lt H]. destruct (IH H) as [Hs Hm]. split; constructor; [done | | | done].
    + apply StronglySorted_cons in Hs as [Hs _]. constructor; [done |]. eapply Forall_impl; [exact Hs |]. cbn. lia.
    + apply Forall_inv in Hm. lia.
Qed.

Lemma rank_split p x l : 0 <= p <= alen l -> (forall y, y ∈ take (Z.to_nat p) l -> y < x) ->
  (forall y, y ∈ drop (Z.to_nat p) l -> x <= y) -> rank x l = p.
Proof.
  intros Hp Hl Hr. unfold rank. rewrite <-(take_drop (Z.to_nat p) l), List.filter_app, alen_app.
  assert (List.filter (fun y => y <? x) (drop (Z.to_nat p) l) = []) as ->.
  { apply elem_of_nil_inv. intros y [Hy Hlt]%list_elem_of_In%filter_In. apply list_elem_of_In, Hr in Hy. lia. }
  assert (List.filter (fun y => y <? x) (take (Z.to_nat p) l) = take (Z.to_nat p) l) as ->.
  { clear Hr. induction (take (Z.to_nat p) l) as [| y l' IH]; [done |]. cbn. rewrite (proj2 (Z.ltb_lt _ _)) by (apply Hl; by left).
    rewrite IH; [done |]. intros z Hz. apply Hl. by right. }
  rewrite alen_take by lia. apply Z.add_0_r.
Qed.

Lemma rank_at l i : sorted_ids l -> 0 <= i < alen l -> rank l.[i] l = i.
Proof.
  intros [Hs _] Hi. apply rank_split; [lia | |].
  - intros y Hy. apply In_at in Hy as (j & Hj & <-). rewrite alen_take in Hj by lia. rewrite at_take by lia. apply sorted_at; [done | lia | lia].
  - intros y Hy. apply In_at in Hy as (j & Hj & <-). rewrite alen_drop in Hj by lia. rewrite at_drop by lia.
    destruct (decide (j = 0)) as [-> | Hne]; [rewrite Z.add_0_r; lia |]. apply Z.lt_le_incl, sorted_at; [done | lia | lia].
Qed.

(** [getIdx] answers the index of an element, and [- (p + 1)] for the place [p] of one that is missing. *)
Lemma getIdx_rank s l x : repr s l -> orderedBySorting s = true -> sorted_ids l -> x < MAX_VALUE ->
  0 <= rank x l <= alen l /\
  if bool_decide (x ∈ l) then getIdx s x = rank x l
  else getIdx s x = - rank x l - 1 /\ sorted_ids (insert_cell (rank x l) x l).
Proof.
  intros Hr Hb Hs Hx. pose proof (repr_filled s l Hr Hb) as Hf. unfold getIdx.
  destruct (search_filled l (elements s) x) as [[Hi E] | (p & E & Hp & Hl & Hg)]; [done .. | |].
  - rewrite bool_decide_true by (rewrite <-E; by apply at_In). set (i := binarySearch _ _) in *.
    rewrite <-E, (rank_at l i Hs Hi). lia.
  - rewrite bool_decide_false by (by eapply split_not_elem).
    assert (rank x l = p) as -> by (apply rank_split; [lia | done | intros y Hy%Hg; lia]).
    rewrite E. split; [lia |]. split; [lia | by apply sorted_insert].
Qed.

(** [insertSorted] answers -1 and changes nothing when the element is there; otherwise it puts the element
    in its place. *)
Lemma insertSorted_repr s l x : repr s l -> orderedBySorting s = true -> sorted_ids l -> x < MAX_VALUE ->
  returns (insertSorted s x) (fun '(idx, s') => orderedBySorting s' = true /\
    if bool_decide (x ∈ l) then idx = -1 /\ repr s' l else idx = rank x l /\ repr s' (insert_cell (rank x l) x l)).
Proof.
  intros Hr Hb Hs Hx. unfold insertSorted. eapply returns_bind; [by apply set_repr_grow |].
  clear Hr. intros s' [Hfree Hb']. rewrite Hb in Hb'. pose proof Hfree as [Hr _].
  fold (getIdx s' x). destruct (getIdx_rank s' l x Hr Hb' Hs Hx) as [Hp Hidx]. case_bool_decide as Hin.
  - rewrite Hidx, (proj2 (Z.leb_le _ _)) by lia. apply returns_ok. done.
  - destruct Hidx as [-> _]. rewrite (proj2 (Z.leb_gt _ _)) by lia.
    replace (insertionPoint (- rank x l - 1)) with (rank x l) by (unfold insertionPoint; lia).
    pose proof (insert_free s' l x (rank x l) Hfree Hp) as Hins.
    destruct (arraycopy _ _ _ _ _) as [es|]; [| done]. rewrite bind_ok in Hins. rewrite bind_ok.
    destruct (aset es _ x) as [es'|]; [| done].
    apply returns_ok. destruct Hins as [? Hb2]. split; [by rewrite Hb2 | done].
Qed.

(** ** Refinement *)

Lemma set_step_refines o s l r l' : repr s l -> astep (orderedBySorting s) o l = Some (r, l') ->
  returns (step o s) (fun '(r', s') => r' = r /\ repr s' l' /\ orderedBySorting s' = orderedBySorting s).
Proof.
  intros Hr Ho. destruct o as [x|i|x i|i|x i|n| | | |x|x]; cbn [astep step] in *;
    unfold in_range in *.
  10: { destruct (orderedBySorting s) eqn:Eb; [| done]. destruct (strictly l) eqn:El; [| done].
    destruct (Z.ltb_spec x MAX_VALUE) as [Hx |]; [| done]. cbn [andb] in Ho. apply strictly_sorted in El.
    eapply returns_bind; [by apply insertSorted_repr |]. intros [idx s'] [Hb' Hidx]. cbn. 
    case_bool_decide; destruct Hidx as [-> ?]; by injection Ho as <- <-. }
  10: { destruct (orderedBySorting s) eqn:Eb; [| done]. destruct (strictly l) eqn:El; [| done].
    destruct (Z.ltb_spec x MAX_VALUE) as [Hx |]; [| done]. cbn [andb] in Ho. apply strictly_sorted in El.
    destruct (getIdx_rank s l x Hr Eb El Hx) as [_ Hidx]. injection Ho as <- <-. apply returns_ok. rewrite Eb.
    case_bool_decide; [by rewrite Hidx | by rewrite (proj1 Hidx)]. }
  all: repeat match type of Ho with context [?x <=? ?y] => destruct (Z.leb_spec x y) end;
    repeat match type of Ho with context [?x <? ?y] => destruct (Z.ltb_spec x y) end;
    cbn in Ho; try done; injection Ho as <- <-.
  - eapply returns_bind; [by apply insertTail_repr |]. by intros ? [? ?].
  - eapply returns_bind; [apply (removeAtIdx_repr s l); [done | lia] |]. by intros ? [? ?].
  - eapply returns_bind; [apply (insertAtIdx_repr s l); [done | lia] |]. by intros ? [? ?].
  - rewrite (set_get_repr s l) by (done || lia). done.
  - eapply returns_bind; [apply (updateValue_repr s l); [done | lia] |]. by intros ? [? ?].
  - eapply returns_bind; [by apply (makeSpace_repr s l) |]. by intros ? (? & ? & _).
  - apply returns_ok. split; [done |]. split; [by eapply set_repr_clear | done].
  - by rewrite (toArray_repr s l).
  - apply returns_ok. split; [| done]. by destruct Hr as (_ & <- & _).
Qed.

(** ** Properties *)

(** C35: OrderedIntSet, in both variants, refines the list of its elements: any sequence of
    insertions at the tail or at an index, removals, reads, updates, [makeSpace], [clear],
    [toArray] and [size] calls with indices in range runs without an exception and returns what
    the same operations return on a list, however often the array is grown (by a positive size
    increase, which [repr] asks for).  So do [insertSorted] and [getIdx], of ints that are less than
    the filler, whenever the set is of the ordered variant and its elements are strictly ascending: the
    index of an element is the number of smaller ones, [getIdx] answers [- (p + 1)] for an element
    that is missing with [p] the number of smaller ones, and [insertSorted] puts it there, or
    answers -1 if it is present already. *)
Theorem set_refines os : forall s l outs l',
  repr s l -> arun (orderedBySorting s) os l = Some (outs, l') ->
  returns (run os s) (fun '(outs', s') => outs' = outs /\ repr s' l').
Proof.
  induction os as [|o os IH]; intros s l outs l' Hr Ha; cbn [arun run] in *.
  { by simplify_eq. }
  destruct (astep _ o l) as [[r l1]|] eqn:Eo; simplify_eq/=.
  destruct (arun _ os l1) as [[rs l2]|] eqn:Es; simplify_eq/=.
  eapply returns_bind; [by eapply set_step_refines |]. intros [r' s1] (-> & Hs1 & Hb). rewrite <-Hb in Es.
  eapply returns_bind; [by eapply IH |]. by intros [rs' s2] [-> Hs2].
Qed.

(** [insertSorted] keeps the elements strictly ascending. *)
Theorem insertSorted_spec s l x :
  repr s l -> orderedBySorting s = true -> sorted_ids l -> x < MAX_VALUE ->
  returns (insertSorted s x) (fun '(idx, s') =>
    (x ∈ l /\ idx = -1 /\ repr s' l) \/
    (x ∉ l /\ 0 <= idx <= alen l /\ sorted_ids (insert_cell idx x l) /\
     repr s' (insert_cell idx x l))).
Proof.
  intros Hr Hb Hs Hx. destruct (getIdx_rank s l x Hr Hb Hs Hx) as [Hp Hidx].
  eapply returns_mono; [by apply (insertSorted_repr s l) |]. intros [idx s'] [_ H].
  case_bool_decide as Hin; destruct H as [-> Hrepr]; [by left | right]. split_and!; [done | lia | lia | apply Hidx | done].
Qed.

(** An unordered set of initial size 1 that is grown several times, and an ordered one. *)
Lemma set_refines_witness :
  returns (new false 1 1) (fun s0 =>
    returns (run [InsertTail 5; InsertAt 6 0; InsertTail 4; Update 9 1; RemoveAt 2; Get 1; ToArray] s0)
      (fun '(outs, s') =>
        outs = [ONone; ONone; ONone; ONone; ONone; OInt 9; OArr [6; 9]] /\ repr s' [6; 9])) /\
  returns (run [InsertSorted 20; GetIdx 20; InsertSorted 10; InsertSorted 20; GetIdx 15; RemoveAt 0; GetIdx 30] (mk true [30] 1 1))
    (fun '(outs, s') => outs = [OInt 0; OInt 0; OInt 0; OInt (-1); OInt (-2); ONone; OInt 1] /\ repr s' [20; 30]).
Proof.
  split.
  - assert (returns (new false 1 1) (fun s => s = mk false [0] 0 1)) as H0 by done.
    eapply returns_mono; [exact H0 |]. cbv beta. intros s0 ->.
    apply (set_refines _ (mk false [0] 0 1) [] _ [6; 9]); [| vm_compute; reflexivity].
    split_and!; [done | done |]. by exists [0].
  - apply (set_refines _ (mk true [30] 1 1) [30] _ [20; 30]); [| vm_compute; reflexivity].
    split_and!; [done | done |]. exists []. split; [done |]. intros _. by exists 0%nat.
Defined.

(** Inserting 20 between 10 and 30 in a full set. *)
Lemma insertSorted_spec_witness :
  let s := mk true [10; 30] 2 1 in
  (fst <$> insertSorted s 20) = Ok 1 /\
  returns (insertSorted s 20) (fun '(idx, s') =>
    (20 ∈ [10; 30] /\ idx = -1 /\ repr s' [10; 30]) \/
    (20 ∉ [10; 30] /\ 0 <= idx <= alen [10; 30] /\ sorted_ids (insert_cell idx 20 [10; 30]) /\
     repr s' (insert_cell idx 20 [10; 30]))).
Proof.
  split; [reflexivity |].
  apply (insertSorted_spec (mk true [10; 30] 2 1) [10; 30] 20); [| done | | by unfold MAX_VALUE].
  - split_and!; [done | done |]. exists []. split; [done |]. intros _. by exists 0%nat.
  - split; repeat constructor.
Defined.
