(* ===== verification/BinaryHeap.v ===== *)
(** * The binary heap code shared by [DijkstraHeap] and [DistanceHeap]

    Both classes keep an array of ids ordered as a binary min-heap and differ in where the
    priority of an id and its position in the heap are stored.  [heapifyTopDown] and
    [heapifyBottomUp] are the same text in the two classes, written over [compareValues] and
    [swap].  [HeapImpl] is that interface, [HeapLaws] is what an implementation promises about
    it, and the lemmas prove once that the two loops restore the heap order. *)

From S2P Require Import Prelude.

Class HeapImpl (St : Type) := {
  compareValues : St -> Z -> Z -> res Z;
  swap : St -> Z -> Z -> res St;
}.

Section code.
Context {St : Type} `{HeapImpl St}.

(** The index of the smallest among [root] and its children below [n]. *)
Definition smallestOf (n root : Z) (s : St) : res Z :=
  let smallest := root in
  let leftChild := 2 * root + 1 in
  let rightChild := 2 * root + 2 in
  smallest ← (if leftChild <? n then
                c ← compareValues s leftChild smallest;
                Ok (if c <? 0 then leftChild else smallest)
              else Ok smallest);
  (if rightChild <? n then
     c ← compareValues s rightChild smallest;
     Ok (if c <? 0 then rightChild else smallest)
   else Ok smallest).

Fixpoint heapifyTopDown (fuel : nat) (n root : Z) (s : St) : res St :=
  match fuel with
  | O => Err OutOfFuel
  | S fuel' =>
      smallest ← smallestOf n root s;
      if smallest =? root then Ok s else
      s' ← swap s root smallest;
      heapifyTopDown fuel' n smallest s'
  end.

Fixpoint heapifyBottomUp (fuel : nat) (nodeID : Z) (s : St) : res St :=
  match fuel with
  | O => Err OutOfFuel
  | S fuel' =>
      if nodeID <=? 0 then Ok s else
      let parent := (nodeID - 1) / 2 in
      c ← compareValues s nodeID parent;
      if c <? 0 then
        s' ← swap s nodeID parent;
        heapifyBottomUp fuel' parent s'
      else Ok s
  end.
End code.

Definition parent (i : Z) : Z := (i - 1) / 2.

(** What an implementation promises: [entry s i] is the id in heap cell [i], [prio s x] the
    priority of id [x], [hinv n s] the representation invariant of a heap of [n] cells and
    [frame n s s'] says that [s'] differs from [s] only in the order of those [n] cells. *)
Class HeapLaws (St : Type) `{HeapImpl St} := {
  entry : St -> Z -> Z;
  prio : St -> Z -> Z;
  hinv : Z -> St -> Prop;
  frame : Z -> St -> St -> Prop;
  frame_refl : forall n s, frame n s s;
  frame_trans : forall n s1 s2 s3, frame n s1 s2 -> frame n s2 s3 -> frame n s1 s3;
  frame_prio : forall n s1 s2 x, frame n s1 s2 -> prio s2 x = prio s1 x;
  compare_law : forall n s i j, hinv n s -> 0 <= i < n -> 0 <= j < n ->
    returns (compareValues s i j)
      (fun c => c < 0 <-> prio s (entry s i) < prio s (entry s j));
  swap_law : forall n s i j, hinv n s -> 0 <= i < n -> 0 <= j < n -> i <> j ->
    returns (swap s i j) (fun s' =>
      hinv n s' /\ frame n s s' /\
      forall k, 0 <= k < n ->
        entry s' k = if decide (k = i) then entry s j
                     else if decide (k = j) then entry s i else entry s k);
}.

Section order.
Context {St : Type} `{HeapLaws St}.
Implicit Types (s : St) (n i j r : Z).

Definition key s i : Z := prio s (entry s i).

Definition heap_ordered n s : Prop := forall i, 0 < i < n -> key s (parent i) <= key s i.

Definition same_entries n s s' : Prop :=
  forall x, (exists k, 0 <= k < n /\ entry s' k = x) <-> (exists k, 0 <= k < n /\ entry s k = x).

(** What the two loops establish. *)
Definition restored n s s' : Prop :=
  hinv n s' /\ heap_ordered n s' /\ frame n s s' /\ same_entries n s s'.

Lemma parent_bounds i : 0 < i -> 0 <= parent i < i.
Proof. unfold parent. dlia. Qed.

Lemma parent_child i r : 0 < i -> 0 <= r -> parent i = r <-> i = 2 * r + 1 \/ i = 2 * r + 2.
Proof. unfold parent. dlia. Qed.

(** The root of an ordered heap has the least priority. *)
Lemma heap_min n s : heap_ordered n s -> forall i, 0 <= i < n -> key s 0 <= key s i.
Proof.
  intros Ho i. induction i as [i IH] using (well_founded_induction (Z.lt_wf 0)). intros Hi.
  destruct (decide (i = 0)) as [-> | Hne]; [lia |].
  pose proof (parent_bounds i). specialize (Ho i). specialize (IH (parent i)). lia.
Qed.

Lemma same_entries_refl n s : same_entries n s s.
Proof. done. Qed.

Lemma same_entries_trans n s1 s2 s3 :
  same_entries n s1 s2 -> same_entries n s2 s3 -> same_entries n s1 s3.
Proof. intros H12 H23 x. rewrite (H23 x). apply H12. Qed.

(** One swap, seen through [key] and [same_entries]. *)
Lemma swap_key n s i j : hinv n s -> 0 <= i < n -> 0 <= j < n -> i <> j ->
  returns (swap s i j) (fun s' =>
    hinv n s' /\ frame n s s' /\ same_entries n s s' /\
    forall k, 0 <= k < n ->
      key s' k = if decide (k = i) then key s j
                 else if decide (k = j) then key s i else key s k).
Proof.
  intros Hinv Hi Hj Hij. eapply returns_mono; [by apply (swap_law n) |].
  intros s' (Hinv' & Hf & He). split_and!; [done | done | |].
  - intros x. split; intros (k & Hk & <-).
    + rewrite He by done. repeat case_decide; eauto.
    + destruct (decide (k = i)) as [-> | Hki]; [exists j | destruct (decide (k = j)) as [-> | Hkj]; [exists i | exists k]];
        (split; [done |]); rewrite He by done; repeat case_decide; congruence.
  - intros k Hk. unfold key. rewrite (frame_prio n s s') by done. rewrite He by done.
    by repeat case_decide.
Qed.

(** What [smallestOf] answers. *)
Definition is_smallest n root s m : Prop :=
  (m = root /\ forall c, 0 < c < n -> parent c = root -> key s root <= key s c) \/
  (root < m < n /\ parent m = root /\ key s m < key s root /\
   forall c, 0 < c < n -> parent c = root -> key s m <= key s c).

Lemma smallestOf_spec n r s : hinv n s -> 0 <= r ->
  returns (smallestOf n r s) (is_smallest n r s).
Proof.
  intros Hinv Hr. unfold smallestOf.
  eapply (returns_bind _ _ (fun m =>
    (m = r \/ m = 2 * r + 1 /\ 2 * r + 1 < n) /\ key s m <= key s r /\
    (2 * r + 1 < n -> key s m <= key s (2 * r + 1)) /\ (m <> r -> key s m < key s r))).
  { destruct (Z.ltb_spec (2 * r + 1) n) as [Hl | Hl]; [| ret; lia].
    eapply returns_bind; [apply (compare_law n); [done | lia | lia] |].
    cbv beta; intros c Hc. ret. fold (key s (2 * r + 1)) (key s r) in Hc.
    destruct (Z.ltb_spec c 0); cbv iota; lia. }
  intros m (Hm & Hmr & Hml & Hlt). eapply returns_mono with (P := fun m' =>
    (m' = m \/ m' = 2 * r + 2 /\ 2 * r + 2 < n) /\ key s m' <= key s m /\
    (2 * r + 2 < n -> key s m' <= key s (2 * r + 2)) /\ (m' <> m -> key s m' < key s m)).
  { destruct (Z.ltb_spec (2 * r + 2) n) as [Hl | Hl]; [| ret; lia].
    eapply returns_bind; [apply (compare_law n); [done | lia | lia] |].
    cbv beta; intros c Hc. ret. fold (key s (2 * r + 2)) (key s m) in Hc.
    destruct (Z.ltb_spec c 0); cbv iota; lia. }
  intros m' (Hm' & Hmm & Hmr' & Hlt').
  assert (forall c, 0 < c < n -> parent c = r -> key s m' <= key s c) as Hall.
  { intros c Hc Hp. apply parent_child in Hp as [-> | ->]; lia. }
  destruct (decide (m' = r)) as [-> | Hne]; [by left | right].
  assert (parent m' = r) as Hp by (apply parent_child; lia).
  split_and!; [lia | lia | done | lia | done].
Qed.

(** [heapifyTopDown] repairs a heap that is ordered except below [r]. *)
Lemma heapifyTopDown_restores fuel : forall n r s,
  hinv n s -> 0 <= r -> n - r < Z.of_nat fuel ->
  (forall i, 0 < i < n -> parent i <> r -> key s (parent i) <= key s i) ->
  (forall i, 0 < i < n -> parent i = r -> 0 < r -> key s (parent r) <= key s i) ->
  0 < Z.of_nat fuel ->
  returns (heapifyTopDown fuel n r s) (restored n s).
Proof.
  induction fuel as [|fuel IH]; intros n r s Hinv Hr Hfuel Hord Hgrand Hpos; [lia |].
  cbn [heapifyTopDown]. eapply returns_bind; [by apply smallestOf_spec |].
  intros m [[-> Hmin] | (Hm & Hpm & Hlt & Hmin)].
  { rewrite Z.eqb_refl. ret. split_and!; [done | | apply frame_refl | done].
    intros i Hi. destruct (decide (parent i = r)) as [Hp | Hp]; [| by apply Hord].
    rewrite Hp. by apply Hmin. }
  destruct (Z.eqb_spec m r); [lia |].
  eapply returns_bind; [apply (swap_key n); [done | lia | lia | lia] |].
  intros s1 (Hinv1 & Hf1 & He1 & Hk).
  eapply returns_mono; [apply IH; [done | lia | lia | | | lia] |].
  - intros i Hi Hpi. pose proof (parent_bounds i). rewrite !Hk by lia.
    destruct (decide (i = m)) as [-> | Him].
    { rewrite Hpm. repeat case_decide; try lia. }
    destruct (decide (parent i = r)) as [Hpr | Hpr].
    { specialize (Hmin i Hi Hpr). rewrite Hpr in *. repeat case_decide; try lia.
      }
    destruct (decide (i = r)) as [-> | Hir].
    { pose proof (Hgrand m). repeat case_decide; try lia. }
    specialize (Hord i Hi Hpr). repeat case_decide; try lia.
  - intros i Hi Hpi _. pose proof (parent_bounds i). rewrite Hpm, !Hk by lia.
    assert (parent i <> r) as Hpr by lia. specialize (Hord i Hi Hpr). rewrite Hpi in Hord.
    repeat case_decide; try lia.
  - intros s' (Hinv' & Ho' & Hf' & He'). split_and!; [done | done | |].
    + by eapply frame_trans.
    + by eapply same_entries_trans.
Qed.

(** [heapifyBottomUp] repairs a heap that is ordered except above [j]. *)
Lemma heapifyBottomUp_restores fuel : forall n j s,
  hinv n s -> 0 <= j < n -> j < Z.of_nat fuel ->
  (forall i, 0 < i < n -> i <> j -> key s (parent i) <= key s i) ->
  (forall i, 0 < i < n -> parent i = j -> 0 < j -> key s (parent j) <= key s i) ->
  returns (heapifyBottomUp fuel j s) (restored n s).
Proof.
  induction fuel as [|fuel IH]; intros n j s Hinv Hj Hfuel Hord Hgrand; [lia |].
  cbn [heapifyBottomUp].
  destruct (Z.leb_spec j 0).
  { ret. split_and!; [done | | apply frame_refl | done]. intros i Hi. apply Hord; lia. }
  fold (parent j). pose proof (parent_bounds j).
  eapply returns_bind; [apply (compare_law n); [done | lia | lia] |]. cbv beta; intros c Hc.
  fold (key s j) (key s (parent j)) in Hc. destruct (Z.ltb_spec c 0) as [Hlt | Hge].
  2:{ ret. split_and!; [done | | apply frame_refl | done]. intros i Hi.
      destruct (decide (i = j)) as [-> |]; [lia | by apply Hord]. }
  eapply returns_bind; [apply (swap_key n); [done | lia | lia | lia] |].
  intros s1 (Hinv1 & Hf1 & He1 & Hk).
  eapply returns_mono; [apply IH; [done | lia | lia | |] |].
  - intros i Hi Hip. pose proof (parent_bounds i). rewrite !Hk by lia.
    destruct (decide (i = j)) as [-> | Hij]; [repeat case_decide; lia |].
    pose proof (Hord i Hi Hij) as Hoi.
    destruct (decide (parent i = j)) as [Hpj | Hpj].
    { pose proof (Hgrand i Hi Hpj). rewrite Hpj in *. repeat case_decide; lia. }
    destruct (decide (parent i = parent j)) as [Hpp | Hpp].
    { rewrite Hpp in *. repeat case_decide; lia. }
    repeat case_decide; try lia.
  - intros i Hi Hpi Hpos. pose proof (parent_bounds i). pose proof (parent_bounds (parent j)).
    rewrite !Hk by lia. pose proof (Hord (parent j)) as Hop.
    destruct (decide (i = j)) as [-> | Hij]; [repeat case_decide; lia |].
    pose proof (Hord i Hi Hij) as Hoi. rewrite Hpi in Hoi. repeat case_decide; lia.
  - intros s' (Hinv' & Ho' & Hf' & He'). split_and!; [done | done | |].
    + by eapply frame_trans.
    + by eapply same_entries_trans.
Qed.
End order.
