(* ===== verification/DijkstraHeap.v ===== *)
(** * router/DijkstraHeap.java: the priority queue of the Dijkstra router

    The heap stores node ids only: their priorities are the router's [currDistanceToNode],
    here the argument [dist], which the router lowers before it calls [add].  [heapPosition]
    is indexed by node id, and -1 means that the id was never added since the last reset. *)

From S2P Require Import Prelude BinaryHeap.

Definition INITIAL_SIZE : Z := 400.
Definition SIZE_INCREASE : Z := 200.

Record t := mk {
  heapPosition : list Z;
  idHeapArray : list Z;
  currentSize : Z;
}.

(** The constructor; [nodeSize] is [Node.getSize()]. *)
Definition new (nodeSize : Z) : res t :=
  pos ← newArray 0 nodeSize;
  arr ← newArray 0 INITIAL_SIZE;
  Ok (mk pos (fill arr (-1)) 0).

Definition resetState (s : t) : res t :=
  arr ← newArray 0 INITIAL_SIZE;
  Ok (mk (fill (heapPosition s) (-1)) (fill arr (-1)) 0).

Definition isEmpty (s : t) : bool := currentSize s =? 0.

Definition grow (s : t) : res t :=
  let oldLen := alen (idHeapArray s) in
  arr ← copyOf 0 (idHeapArray s) (oldLen + SIZE_INCREASE);
  arr ← fillRange arr oldLen (alen arr) (-1);
  Ok (mk (heapPosition s) arr (currentSize s)).

Section ops.
Variable dist : list Z.

Definition compareValues (s : t) (firstID secondID : Z) : res Z :=
  a ← aget (idHeapArray s) firstID;
  da ← aget dist a;
  b ← aget (idHeapArray s) secondID;
  db ← aget dist b;
  Ok (if da =? db then 0 else if db <? da then 1 else -1).

Definition swap (s : t) (i j : Z) : res t :=
  tmp ← aget (idHeapArray s) i;
  x ← aget (idHeapArray s) j;
  arr ← aset (idHeapArray s) i x;
  arr ← aset arr j tmp;
  idI ← aget arr i;
  idJ ← aget arr j;
  tmp ← aget (heapPosition s) idI;
  y ← aget (heapPosition s) idJ;
  pos ← aset (heapPosition s) idI y;
  pos ← aset pos idJ tmp;
  Ok (mk pos arr (currentSize s)).

#[local] Instance impl : HeapImpl t := {
  BinaryHeap.compareValues := compareValues;
  BinaryHeap.swap := swap;
}.

Definition heapifyTopDown (n root : Z) (s : t) : res t :=
  BinaryHeap.heapifyTopDown (S (Z.to_nat n)) n root s.

Definition heapifyBottomUp (nodeID : Z) (s : t) : res t :=
  BinaryHeap.heapifyBottomUp (S (Z.to_nat nodeID)) nodeID s.

Definition getNext (s : t) : res (Z * t) :=
  returnValue ← aget (idHeapArray s) 0;
  let n := currentSize s - 1 in
  x ← aget (idHeapArray s) n;
  arr ← aset (idHeapArray s) 0 x;
  id ← aget arr 0;
  pos ← aset (heapPosition s) id 0;
  arr ← aset arr n (-1);
  s' ← heapifyTopDown n 0 (mk pos arr n);
  Ok (returnValue, s').

Definition add (s : t) (id : Z) : res t :=
  p ← aget (heapPosition s) id;
  if negb (p =? -1) then heapifyBottomUp p s else
  s ← (if currentSize s =? alen (idHeapArray s) then grow s else Ok s);
  arr ← aset (idHeapArray s) (currentSize s) id;
  pos ← aset (heapPosition s) id (currentSize s);
  s' ← heapifyBottomUp (currentSize s) (mk pos arr (currentSize s));
  Ok (mk (heapPosition s') (idHeapArray s') (currentSize s' + 1)).

(** ** Representation *)

(** The first [n] heap cells hold distinct node ids whose recorded position is that cell. *)
Definition cells_ok (n : Z) (s : t) : Prop :=
  alen (heapPosition s) = alen dist /\ 0 <= n <= alen (idHeapArray s) /\
  forall i, 0 <= i < n ->
    0 <= (idHeapArray s).[i] < alen dist /\ (heapPosition s).[(idHeapArray s).[i]] = i.

Definition in_cells (n : Z) (s : t) (x : Z) : Prop :=
  exists k, 0 <= k < n /\ (idHeapArray s).[k] = x.

Definition cells_frame (n : Z) (s s' : t) : Prop :=
  alen (heapPosition s') = alen (heapPosition s) /\
  alen (idHeapArray s') = alen (idHeapArray s) /\ currentSize s' = currentSize s /\
  (forall x, in_cells n s' x <-> in_cells n s x) /\
  forall x, 0 <= x -> ~ in_cells n s x -> (heapPosition s').[x] = (heapPosition s).[x].

(** [s] holds the ids [H]; the ids [D] were removed since the last reset. *)
Definition models (s : t) (H D : gset Z) : Prop :=
  cells_ok (currentSize s) s /\ H ## D /\
  (forall x, x ∈ H <-> in_cells (currentSize s) s x) /\
  (forall x, 0 <= x < alen dist -> (heapPosition s).[x] = -1 <-> x ∉ H ∪ D).

Definition ordered (s : t) : Prop :=
  forall i, 0 < i < currentSize s ->
    dist.[(idHeapArray s).[BinaryHeap.parent i]] <= dist.[(idHeapArray s).[i]].
End ops.

(** ** The shared heap lemmas apply *)

Section laws.
Variable dist : list Z.

Lemma cells_inj n s i j : cells_ok dist n s -> 0 <= i < n -> 0 <= j < n ->
  (idHeapArray s).[i] = (idHeapArray s).[j] -> i = j.
Proof.
  intros (_ & _ & Hc) Hi Hj E. destruct (Hc i Hi) as [_ <-]. rewrite E. by apply Hc.
Qed.

Lemma compareValues_law n s i j : cells_ok dist n s -> 0 <= i < n -> 0 <= j < n ->
  returns (compareValues dist s i j)
    (fun c => c < 0 <-> dist.[(idHeapArray s).[i]] < dist.[(idHeapArray s).[j]]).
Proof.
  intros (_ & Hn & Hc) Hi Hj. pose proof (Hc i Hi) as [Hdi _]. pose proof (Hc j Hj) as [Hdj _].
  unfold compareValues. jsteps. ret. destruct (Z.eqb_spec dist.[(idHeapArray s).[i]] dist.[(idHeapArray s).[j]]);
    [cbv iota; lia |].
  destruct (Z.ltb_spec dist.[(idHeapArray s).[j]] dist.[(idHeapArray s).[i]]); cbv iota; lia.
Qed.

Lemma swap_law n s i j : cells_ok dist n s -> 0 <= i < n -> 0 <= j < n -> i <> j ->
  returns (swap s i j) (fun s' =>
    cells_ok dist n s' /\ cells_frame n s s' /\
    forall k, 0 <= k < n ->
      (idHeapArray s').[k] = if decide (k = i) then (idHeapArray s).[j]
        else if decide (k = j) then (idHeapArray s).[i] else (idHeapArray s).[k]).
Proof.
  intros Hok Hi Hj Hij. pose proof Hok as (Hp & Hn & Hc).
  pose proof (Hc i Hi) as [Hdi Hpi]. pose proof (Hc j Hj) as [Hdj Hpj].
  set (a := idHeapArray s) in *. set (p := heapPosition s) in *.
  assert (a.[i] <> a.[j]) as Hne by (intros E; by apply (cells_inj n s i j Hok) in E).
  set (a' := <[Z.to_nat j := a.[i]]> (<[Z.to_nat i := a.[j]]> a)).
  set (p' := <[Z.to_nat a.[i] := j]> (<[Z.to_nat a.[j] := i]> p)).
  assert (forall k, 0 <= k -> a'.[k] = if decide (k = i) then a.[j]
            else if decide (k = j) then a.[i] else a.[k]) as Ha'.
  { intros k Hk. unfold a'. rewrite !at_insert by (autorewrite with alen; lia).
    repeat case_decide; congruence. }
  assert (forall x, 0 <= x -> p'.[x] = if decide (x = a.[i]) then j
            else if decide (x = a.[j]) then i else p.[x]) as Hp'.
  { intros x Hx. unfold p'. rewrite !at_insert by (autorewrite with alen; lia).
    repeat case_decide; congruence. }
  assert (a'.[i] = a.[j]) as Hai by (rewrite Ha' by lia; by repeat case_decide).
  assert (a'.[j] = a.[i]) as Haj by (rewrite Ha' by lia; by repeat case_decide).
  assert (alen a' = alen a) as Hal by (unfold a'; by autorewrite with alen).
  assert (swap s i j = Ok (mk p' a' (currentSize s))) as ->.
  { unfold swap. fold a p. do 8 (jstep; cbv beta). fold a'.
    rewrite !aget_ok, !bind_ok, Hai, Haj by lia. jsteps. by rewrite Hpi, Hpj. }
  ret. cbn [idHeapArray heapPosition currentSize].
  assert (forall x, in_cells n (mk p' a' (currentSize s)) x <-> in_cells n s x) as Hin.
  { intros x. split; intros (k & Hk & <-); cbn [idHeapArray].
    - rewrite Ha' by lia. repeat case_decide; eexists; (split; [|done]); lia.
    - fold a. destruct (decide (k = i)) as [-> | Hki]; [exists j | destruct (decide (k = j)) as [-> | Hkj]; [exists i | exists k]];
        (split; [lia |]); cbn; rewrite Ha' by lia; repeat case_decide; congruence. }
  split_and!; [| | intros k Hk; apply Ha'; lia].
  - split_and!; cbn [idHeapArray heapPosition]; [unfold p'; by autorewrite with alen | lia | unfold a'; autorewrite with alen; lia |].
    intros k Hk. rewrite Ha' by lia. repeat case_decide; subst.
    + split; [done |]. rewrite Hp' by lia. by repeat case_decide.
    + split; [done |]. rewrite Hp' by lia. by repeat case_decide.
    + pose proof (Hc k Hk) as [Hdk Hpk]. split; [done |]. rewrite Hp' by lia.
      repeat case_decide; [| | done].
      * exfalso. by apply (cells_inj n s k i Hok) in H1.
      * exfalso. by apply (cells_inj n s k j Hok) in H2.
  - split_and!; cbn [idHeapArray heapPosition currentSize];
      [unfold p'; by autorewrite with alen | unfold a'; by autorewrite with alen | done | done |].
    intros x Hx Hx'. rewrite Hp' by done. repeat case_decide; [| | done].
    + exfalso. apply Hx'. by exists i.
    + exfalso. apply Hx'. by exists j.
Qed.

#[local] Program Instance laws : @HeapLaws t (impl dist) := {
  entry s i := (idHeapArray s).[i];
  prio _ x := dist.[x];
  hinv := cells_ok dist;
  frame := cells_frame;
  compare_law := compareValues_law;
  swap_law := swap_law;
}.
Next Obligation. intros n s. by repeat split. Qed.
Next Obligation.
  intros n s1 s2 s3 (Hp1 & Ha1 & Hs1 & Hi1 & Hf1) (Hp2 & Ha2 & Hs2 & Hi2 & Hf2).
  split_and!; [lia | lia | lia | |].
  - intros x. by rewrite Hi2.
  - intros x Hx Hn. rewrite Hf2, Hf1; [done .. |]. by rewrite Hi1.
Qed.
Next Obligation. done. Qed.

Lemma heapifyBottomUp_ok n j s : cells_ok dist n s -> 0 <= j < n ->
  (forall i, 0 < i < n -> i <> j ->
     dist.[(idHeapArray s).[BinaryHeap.parent i]] <= dist.[(idHeapArray s).[i]]) ->
  (forall i, 0 < i < n -> BinaryHeap.parent i = j -> 0 < j ->
     dist.[(idHeapArray s).[BinaryHeap.parent j]] <= dist.[(idHeapArray s).[i]]) ->
  returns (heapifyBottomUp dist j s) (fun s' =>
    cells_ok dist n s' /\ cells_frame n s s' /\
    forall i, 0 < i < n ->
      dist.[(idHeapArray s').[BinaryHeap.parent i]] <= dist.[(idHeapArray s').[i]]).
Proof.
  intros Hok Hj Ho Hg. unfold heapifyBottomUp.
  eapply returns_mono; [apply (@heapifyBottomUp_restores t (impl dist) laws _ n); try done; lia |].
  by intros s' (? & ? & ? & _).
Qed.

Lemma heapifyTopDown_ok n s : cells_ok dist n s ->
  (forall i, 0 < i < n -> BinaryHeap.parent i <> 0 ->
     dist.[(idHeapArray s).[BinaryHeap.parent i]] <= dist.[(idHeapArray s).[i]]) ->
  returns (heapifyTopDown dist n 0 s) (fun s' =>
    cells_ok dist n s' /\ cells_frame n s s' /\
    forall i, 0 < i < n ->
      dist.[(idHeapArray s').[BinaryHeap.parent i]] <= dist.[(idHeapArray s').[i]]).
Proof.
  intros Hok Ho. pose proof Hok as (_ & Hn & _). unfold heapifyTopDown.
  eapply returns_mono; [apply (@heapifyTopDown_restores t (impl dist) laws _ n); try done; try lia |].
  by intros s' (? & ? & ? & _).
Qed.

Lemma ordered_min s : ordered dist s -> cells_ok dist (currentSize s) s ->
  forall i, 0 <= i < currentSize s -> dist.[(idHeapArray s).[0]] <= dist.[(idHeapArray s).[i]].
Proof. intros Ho Hok. exact (@heap_min t (impl dist) laws (currentSize s) s Ho). Qed.

(** ** Specifications of the operations *)

Lemma new_spec nodeSize : 0 <= nodeSize ->
  returns (new nodeSize) (fun s => alen (heapPosition s) = nodeSize).
Proof.
  intros Hn. unfold new, newArray. destruct (Z.ltb_spec nodeSize 0); [lia |].
  cbn. unfold alen. rewrite length_replicate. lia.
Qed.

Lemma resetState_spec s : alen (heapPosition s) = alen dist ->
  returns (resetState s) (fun s' => models dist s' ∅ ∅ /\ ordered dist s').
Proof.
  intros Hp. unfold resetState, newArray, INITIAL_SIZE.
  destruct (Z.ltb_spec 400 0); [lia |]. rewrite bind_ok. ret.
  split; [| intros i; cbn [currentSize]; lia].
  split_and!; cbn [idHeapArray heapPosition currentSize].
  - split_and!; cbn [idHeapArray heapPosition]; autorewrite with alen; [done | lia | lia | lia].
  - set_solver.
  - intros x. split; [set_solver |]. intros (k & Hk & _). lia.
  - intros x Hx. rewrite at_fill by lia. set_solver.
Qed.

Lemma isEmpty_spec s H D : models dist s H D -> isEmpty s = bool_decide (H = ∅).
Proof.
  intros ((_ & Hn & _) & _ & Hin & _). unfold isEmpty.
  destruct (Z.eqb_spec (currentSize s) 0) as [E | E].
  - rewrite bool_decide_true; [done |]. apply set_eq. intros x. split; [| set_solver].
    intros (k & Hk & _)%Hin. lia.
  - rewrite bool_decide_false; [done |]. intros ->.
    assert ((idHeapArray s).[0] ∈ (∅ : gset Z)) by (apply Hin; exists 0; split; [lia | done]).
    set_solver.
Qed.

(** The state in which [getNext] calls [heapifyTopDown]. *)
Definition moved (s : t) : t :=
  let n := currentSize s - 1 in
  let last := (idHeapArray s).[n] in
  mk (<[Z.to_nat last := 0]> (heapPosition s))
     (<[Z.to_nat n := -1]> (<[Z.to_nat 0 := last]> (idHeapArray s))) n.

Lemma getNext_moved s : cells_ok dist (currentSize s) s -> 0 < currentSize s ->
  getNext dist s = (s' ← heapifyTopDown dist (currentSize s - 1) 0 (moved s);
                    Ok ((idHeapArray s).[0], s')).
Proof.
  intros (Hp & Hn & Hc) Hpos. pose proof (Hc (currentSize s - 1)) as [Hdl _]; [lia |].
  unfold getNext. do 6 (jstep; cbv beta).
  rewrite aget_ok, bind_ok by in_bounds. rewrite at_insert, decide_True by (done || lia).
  jsteps. done.
Qed.

Lemma moved_at s k : 0 <= k < currentSize s - 1 -> cells_ok dist (currentSize s) s ->
  (idHeapArray (moved s)).[k] =
    if decide (k = 0) then (idHeapArray s).[currentSize s - 1] else (idHeapArray s).[k].
Proof.
  intros Hk (Hp & Hn & Hc). cbn [moved idHeapArray].
  rewrite !at_insert by in_bounds. by repeat case_decide; try lia.
Qed.

Lemma moved_pos s x : 0 <= x -> 0 < currentSize s -> cells_ok dist (currentSize s) s ->
  (heapPosition (moved s)).[x] =
    if decide (x = (idHeapArray s).[currentSize s - 1]) then 0 else (heapPosition s).[x].
Proof.
  intros Hx Hpos (Hp & Hn & Hc). pose proof (Hc (currentSize s - 1)) as [Hdl _]; [lia |].
  cbn [moved heapPosition]. rewrite at_insert by in_bounds. by repeat case_decide; try lia.
Qed.

Lemma moved_ok s : cells_ok dist (currentSize s) s -> 0 < currentSize s ->
  cells_ok dist (currentSize s - 1) (moved s).
Proof.
  intros Hok Hpos. pose proof Hok as (Hp & Hn & Hc).
  pose proof (Hc (currentSize s - 1)) as [Hdl _]; [lia |]. split_and!.
  1-3: cbn [moved idHeapArray heapPosition]; autorewrite with alen; lia.
  intros k Hk. rewrite (moved_at s k) by done. case_decide as E; subst.
  - split; [done |]. rewrite moved_pos, decide_True by (done || lia). done.
  - pose proof (Hc k) as [Hdk Hpk]; [lia |]. split; [done |]. rewrite moved_pos by (done || lia).
    case_decide as E'; [| done].
    apply (cells_inj (currentSize s) s k) in E'; [lia | done | lia | lia].
Qed.

Lemma moved_cells s x : cells_ok dist (currentSize s) s -> 0 < currentSize s ->
  in_cells (currentSize s - 1) (moved s) x <->
  in_cells (currentSize s) s x /\ x <> (idHeapArray s).[0].
Proof.
  intros Hok Hpos. split.
  - intros (k & Hk & <-). rewrite moved_at by done. case_decide as E.
    + split; [exists (currentSize s - 1); split; [lia | done] |]. intros E'.
      apply (cells_inj (currentSize s) s) in E'; [lia | done | lia | lia].
    + split; [exists k; split; [lia | done] |]. intros E'.
      apply (cells_inj (currentSize s) s k 0) in E'; [lia | done | lia | lia].
  - intros [(k & Hk & <-) Hx]. destruct (decide (k = 0)) as [-> |]; [done |].
    destruct (decide (k = currentSize s - 1)) as [-> |].
    + exists 0. split; [lia |]. by rewrite moved_at, decide_True by (done || lia).
    + exists k. split; [lia |]. by rewrite moved_at, decide_False by (done || lia).
Qed.

(** Positions after [getNext]: -1 stays reserved for the ids never added. *)
Lemma moved_fresh s s' H D : models dist s H D -> 0 < currentSize s ->
  cells_ok dist (currentSize s - 1) s' -> cells_frame (currentSize s - 1) (moved s) s' ->
  forall x, 0 <= x < alen dist -> (heapPosition s').[x] = -1 <-> x ∉ H ∪ D.
Proof.
  intros (Hok & Hdisj & Hin & Hfresh) Hpos Hok' (_ & _ & _ & Hfin & Hff) x Hx.
  destruct (decide (x ∈ H)) as [HxH | HxH].
  - assert ((heapPosition s').[x] <> -1) as Hne; [| set_solver].
    destruct (decide (x = (idHeapArray s).[0])) as [Ex | Ex].
    + rewrite Hff, moved_pos by (lia || done || (rewrite moved_cells; tauto)).
      case_decide; [done |]. destruct Hok as (_ & _ & Hc). rewrite Ex.
      destruct (Hc 0) as [_ ->]; lia.
    + assert (in_cells (currentSize s - 1) s' x) as (k & Hk & <-).
      { apply Hfin, moved_cells; [done .. |]. split; [by apply Hin | done]. }
      destruct Hok' as (_ & _ & Hc'). destruct (Hc' k Hk) as [_ ->]. lia.
  - rewrite Hff, moved_pos by (lia || done || (rewrite moved_cells by done; rewrite <-Hin; tauto)).
    case_decide as E; [| by apply Hfresh]. exfalso. apply HxH, Hin.
    exists (currentSize s - 1). split; [lia | done].
Qed.

Lemma elem_of_popped (H D : gset Z) a x : a ∈ H -> x ∉ H ∪ D <-> x ∉ H ∖ {[a]} ∪ ({[a]} ∪ D).
Proof. intros Ha. destruct (decide (x = a)); set_solver. Qed.

(** [getNext] on a heap that is not empty. *)
Lemma getNext_spec s H D : models dist s H D -> ordered dist s -> H <> ∅ ->
  returns (getNext dist s) (fun '(x, s') =>
    x ∈ H /\ (forall y, y ∈ H -> dist.[x] <= dist.[y]) /\
    models dist s' (H ∖ {[x]}) ({[x]} ∪ D) /\ ordered dist s').
Proof.
  intros Hm Ho Hne. pose proof Hm as (Hok & Hdisj & Hin & Hfresh).
  assert (0 < currentSize s) as Hpos.
  { apply set_choose_L in Hne as [x (k & Hk & _)%Hin]. lia. }
  rewrite getNext_moved by done.
  eapply returns_bind.
  { apply heapifyTopDown_ok; [by apply moved_ok |]. intros i Hi Hpi.
    pose proof (parent_bounds i). rewrite !moved_at by (done || lia).
    rewrite !decide_False by lia. apply Ho. lia. }
  cbv beta. intros s' (Hok' & Hframe & Ho'). ret.
  pose proof (moved_fresh s s' H D Hm Hpos Hok' Hframe) as Hfresh'.
  destruct Hframe as (_ & _ & Hs' & Hfin & _). cbn [moved currentSize] in Hs'.
  assert ((idHeapArray s).[0] ∈ H) as H0 by (apply Hin; exists 0; split; [lia | done]).
  split_and!; [done | | | by unfold ordered; rewrite Hs'].
  - intros y (k & Hk & <-)%Hin. by apply ordered_min.
  - split_and!; [by rewrite Hs' | clear -Hdisj; set_solver | |].
    + intros x. rewrite Hs', Hfin, moved_cells, <-Hin by done.
      by rewrite elem_of_difference, elem_of_singleton.
    + intros x Hx. rewrite Hfresh' by done. by apply elem_of_popped.
Qed.

(** The distance array after the router lowered the entry of [x]. *)
Definition lowered (dist0 : list Z) (x : Z) (H : gset Z) : Prop :=
  alen dist0 = alen dist /\ (forall y, 0 <= y -> y <> x -> dist.[y] = dist0.[y]) /\
  (x ∈ H -> dist.[x] <= dist0.[x]).

(** [add] of an id that is already in the heap, after its distance was lowered. *)
Lemma add_present dist0 s H D x : models dist s H D -> ordered dist0 s -> lowered dist0 x H ->
  x ∈ H ->
  returns (add dist s x) (fun s' => models dist s' H D /\ ordered dist s').
Proof.
  intros (Hok & Hdisj & Hin & Hfresh) Ho (Hl & Hsame & Hlow) Hx. specialize (Hlow Hx).
  pose proof Hok as (Hp & Hn & Hc). pose proof (proj1 (Hin x) Hx) as (j & Hj & Ej).
  pose proof (Hc j Hj) as [Hdj Hpj]. rewrite Ej in Hdj, Hpj.
  unfold add. rewrite aget_ok, bind_ok, Hpj by lia.
  destruct (Z.eqb_spec j (-1)); [lia |]. cbn [negb].
  assert (forall i, 0 <= i < currentSize s -> i <> j ->
    dist.[(idHeapArray s).[i]] = dist0.[(idHeapArray s).[i]]) as Hother.
  { intros i Hi Hij. apply Hsame; [apply Hc; lia |]. rewrite <-Ej. intros E.
    apply (cells_inj (currentSize s) s) in E; done. }
  eapply returns_mono; [apply (heapifyBottomUp_ok (currentSize s)); [done | done | |] |].
  - intros i Hi Hij. pose proof (parent_bounds i). specialize (Ho i Hi). rewrite (Hother i) by lia.
    destruct (decide (BinaryHeap.parent i = j)) as [E | E]; [| by rewrite Hother by lia].
    rewrite E, Ej in *. lia.
  - intros i Hi Hpi Hjpos. pose proof (parent_bounds i). pose proof (parent_bounds j).
    pose proof (Ho i Hi) as Hoi. pose proof (Ho j) as Hoj. rewrite Hpi, Ej in Hoi. rewrite Ej in Hoj.
    rewrite !Hother by lia. lia.
  - cbv beta. intros s' (Hok' & (Hfp & Hfa & Hfs & Hfin & Hff) & Ho').
    split; [| by unfold ordered; rewrite Hfs].
    split_and!; [by rewrite Hfs | done | intros y; by rewrite Hfs, Hfin, Hin |].
    intros y Hy. rewrite <-Hfresh by done. destruct (decide (y ∈ H)) as [HyH | HyH].
    + pose proof (proj1 (Hin y) HyH) as (k & Hk & <-). destruct (Hc k Hk) as [_ ->].
      assert (in_cells (currentSize s) s' (idHeapArray s).[k]) as (k' & Hk' & Ek')
        by (apply Hfin; by exists k).
      destruct Hok' as (_ & _ & Hc'). destruct (Hc' k' Hk') as [_ Hp']. rewrite Ek' in Hp'. lia.
    + rewrite Hff; [done | lia |]. by rewrite <-Hin.
Qed.

Lemma grow_spec s : 0 <= currentSize s <= alen (idHeapArray s) ->
  returns (if currentSize s =? alen (idHeapArray s) then grow s else Ok s) (fun s' =>
    currentSize s' = currentSize s /\ heapPosition s' = heapPosition s /\
    currentSize s < alen (idHeapArray s') /\
    forall i, 0 <= i < currentSize s -> (idHeapArray s').[i] = (idHeapArray s).[i]).
Proof.
  intros Hn. destruct (Z.eqb_spec (currentSize s) (alen (idHeapArray s))) as [E | E].
  2:{ ret. split_and!; (done || lia). }
  unfold grow, copyOf, SIZE_INCREASE. set (a := idHeapArray s) in *.
  destruct (Z.ltb_spec (alen a + 200) 0); [lia |]. rewrite bind_ok, take_ge by (unfold alen; lia).
  replace (alen a + 200 - alen a) with 200 by lia. unfold fillRange.
  rewrite alen_app, alen_replicate by lia.
  destruct (Z.ltb_spec (alen a + 200) (alen a)); [lia |].
  destruct (Z.ltb_spec (alen a) 0); [lia |]. rewrite Z.ltb_irrefl. cbn [orb]. rewrite bind_ok. ret.
  cbn [currentSize heapPosition idHeapArray].
  replace (Z.to_nat (alen a)) with (length a) by (unfold alen; lia). rewrite take_app_length.
  split_and!; [done | done | rewrite alen_app, alen_app, alen_replicate by lia; pose proof (alen_nonneg (drop (Z.to_nat (alen a + 200)) (a ++ replicate (Z.to_nat 200) 0))); lia |].
  intros i Hi. rewrite at_app_l by lia. done.
Qed.

(** The state in which [add] calls [heapifyBottomUp] for a new id. *)
Definition appended (s : t) (x : Z) : t :=
  mk (<[Z.to_nat x := currentSize s]> (heapPosition s))
     (<[Z.to_nat (currentSize s) := x]> (idHeapArray s)) (currentSize s).

Lemma appended_cells s x y : 0 <= currentSize s < alen (idHeapArray s) ->
  in_cells (currentSize s + 1) (appended s x) y <-> y = x \/ in_cells (currentSize s) s y.
Proof.
  intros Hn. assert (forall k, 0 <= k -> (idHeapArray (appended s x)).[k] =
    if decide (currentSize s = k) then x else (idHeapArray s).[k]) as Ha
    by (intros k Hk; cbn [appended idHeapArray]; by rewrite at_insert by lia).
  split.
  - intros (k & Hk & <-). rewrite Ha by lia. case_decide; [by left | right].
    exists k. split; [lia | done].
  - intros [-> | (k & Hk & <-)].
    + exists (currentSize s). split; [lia |]. by rewrite Ha, decide_True by (lia || done).
    + exists k. split; [lia |]. by rewrite Ha, decide_False by lia.
Qed.

Lemma appended_ok s x : cells_ok dist (currentSize s) s -> 0 <= x < alen dist ->
  currentSize s < alen (idHeapArray s) -> ~ in_cells (currentSize s) s x ->
  cells_ok dist (currentSize s + 1) (appended s x).
Proof.
  intros (Hp & Hn & Hc) Hx Hlt Hnot. split_and!.
  1-3: cbn [appended idHeapArray heapPosition]; autorewrite with alen; lia.
  intros i Hi. cbn [appended idHeapArray heapPosition]. rewrite (at_insert _ _ i) by lia.
  case_decide as E.
  - split; [done |]. rewrite at_insert, decide_True by (lia || done). done.
  - pose proof (Hc i) as [Hd Hpos]; [lia |]. split; [done |].
    rewrite at_insert by lia. case_decide as E'; [| done].
    exfalso. apply Hnot. exists i. split; [lia | done].
Qed.

(** [add] of an id that was not added since the last reset. *)
Lemma add_absent dist0 s H D x : models dist s H D -> ordered dist0 s -> lowered dist0 x H ->
  0 <= x < alen dist -> x ∉ H ∪ D ->
  returns (add dist s x) (fun s' => models dist s' ({[x]} ∪ H) D /\ ordered dist s').
Proof.
  intros (Hok & Hdisj & Hin & Hfresh) Ho (Hl & Hsame & _) Hx Hnew.
  pose proof Hok as (Hp & Hn & Hc). unfold add.
  rewrite aget_ok, bind_ok by lia. rewrite (proj2 (Hfresh x Hx) Hnew). cbn [negb Z.eqb Pos.eqb].
  eapply returns_bind; [by apply grow_spec |]. cbv beta.
  intros s1 (Hs1 & Hp1 & Hlt & Ha1).
  assert (cells_ok dist (currentSize s1) s1) as Hok1.
  { rewrite Hs1. split_and!; [by rewrite Hp1 | lia | lia |]. intros i Hi.
    rewrite Ha1, Hp1 by lia. by apply Hc. }
  assert (forall y, in_cells (currentSize s1) s1 y <-> y ∈ H) as Hin1.
  { intros y. rewrite Hin, Hs1. split; intros (k & Hk & <-); exists k; (split; [done |]); by rewrite Ha1. }
  assert (~ in_cells (currentSize s1) s1 x) as Hnot by (rewrite Hin1; set_solver +Hnew).
  pose proof (appended_ok s1 x Hok1 Hx) as Hok2. specialize (Hok2 ltac:(lia) Hnot).
  rewrite (aset_ok (idHeapArray s1)), bind_ok by lia. rewrite aset_ok, bind_ok by (rewrite Hp1; lia).
  fold (appended s1 x). eapply returns_bind; [apply (heapifyBottomUp_ok (currentSize s1 + 1)); [done | lia | |] |].
  - intros i Hi Hij. pose proof (parent_bounds i). cbn [appended idHeapArray].
    rewrite !at_insert, !decide_False by lia. rewrite !Ha1 by lia.
    rewrite !Hsame; [apply Ho; lia | | | |]; try (apply Hc; lia);
      intros E; apply Hnew, elem_of_union_l, Hin; eexists; (split; [| exact E]); lia.
  - intros i Hi Hpi. pose proof (parent_bounds i). lia.
  - cbv beta. intros s2 (Hok' & (Hfp & Hfa & Hfs & Hfin & Hff) & Ho'). ret.
    cbn [appended currentSize] in Hfs.
    split; [split_and!; cbn [currentSize] |]; rewrite ?Hfs.
    + exact Hok'.
    + set_solver +Hdisj Hnew.
    + intros y. rewrite elem_of_union, elem_of_singleton, <-Hin1.
      rewrite <-(appended_cells s1 x y) by lia. rewrite <-Hfin. done.
    + intros y Hy. cbn [heapPosition].
      destruct (decide (y = x \/ y ∈ H)) as [HyH | HyH].
      * assert (in_cells (currentSize s1 + 1) s2 y) as (k & Hk & <-)
          by (apply Hfin, appended_cells; [lia |]; by rewrite Hin1).
        destruct Hok' as (_ & _ & Hc'). destruct (Hc' k Hk) as [_ ->]. set_solver +HyH Hk.
      * rewrite Hff; [| lia | rewrite appended_cells by lia; by rewrite Hin1].
        cbn [appended heapPosition]. rewrite at_insert by (rewrite ?Hp1; lia). rewrite decide_False by naive_solver.
        rewrite Hp1, Hfresh by done. set_solver +HyH.
    + intros i Hi. cbn [currentSize] in Hi. apply Ho'. lia.
Qed.

(** [add] on the heap of the Dijkstra router: the id is in the heap afterwards and the heap is
    ordered by the lowered distances. *)
Lemma add_spec dist0 s H D x : models dist s H D -> ordered dist0 s -> lowered dist0 x H ->
  0 <= x < alen dist -> x ∉ D ->
  returns (add dist s x) (fun s' => models dist s' ({[x]} ∪ H) D /\ ordered dist s').
Proof.
  intros Hm Ho Hlow Hx HD. destruct (decide (x ∈ H)) as [HxH | HxH].
  - replace ({[x]} ∪ H) with H by set_solver +HxH. by eapply add_present.
  - eapply add_absent; try done. set_solver +HD HxH.
Qed.
End laws.

(** ** Properties *)

(** [add], called after the distance of [id] was lowered in the router's array, puts the id on
    the heap if it was not there, and in either case leaves a heap ordered by the new distances;
    the heap array grows when it is full. *)
Theorem add_orders dist dist0 s H D id : models dist s H D -> ordered dist0 s ->
  lowered dist dist0 id H -> 0 <= id < alen dist -> id ∉ D ->
  returns (add dist s id) (fun s' => models dist s' ({[id]} ∪ H) D /\ ordered dist s').
Proof. apply add_spec. Qed.

(** C33: [getNext] on a heap that is not empty answers an id whose distance is the least of those
    on the heap, removes exactly that id, and leaves a heap that is ordered again. *)
Theorem getNext_closest dist s H D : models dist s H D -> ordered dist s -> isEmpty s = false ->
  returns (getNext dist s) (fun '(x, s') =>
    x ∈ H /\ (forall y, y ∈ H -> dist.[x] <= dist.[y]) /\
    models dist s' (H ∖ {[x]}) ({[x]} ∪ D) /\ ordered dist s').
Proof.
  intros Hm Ho He. apply getNext_spec; [done | done |]. intros ->.
  rewrite (isEmpty_spec _ _ _ _ Hm), bool_decide_true in He by done. done.
Qed.

(** A heap of three ids with distances 8, 3 and 5, built by [add]. *)
Definition sampleHeap : res t :=
  s ← resetState (mk (replicate 4 0) [] 0);
  s ← add [8; 3; 5; 1] s 0;
  s ← add [8; 3; 5; 1] s 2;
  add [8; 3; 5; 1] s 1.

Lemma sampleHeap_models : returns sampleHeap (fun s =>
  models [8; 3; 5; 1] s {[1; 2; 0]} ∅ /\ ordered [8; 3; 5; 1] s).
Proof.
  unfold sampleHeap.
  eapply returns_bind; [by apply (resetState_spec [8; 3; 5; 1]) |]. cbv beta. intros s0 [H0 O0].
  eapply returns_bind; [eapply (add_spec [8; 3; 5; 1] [8; 3; 5; 1]); [exact H0 | exact O0 | | done | set_solver] |].
  { split_and!; [done | done | set_solver]. }
  cbv beta. intros s1 [H1 O1].
  eapply returns_bind; [eapply (add_spec [8; 3; 5; 1] [8; 3; 5; 1]); [exact H1 | exact O1 | | done | set_solver] |].
  { split_and!; [done | done | done]. }
  cbv beta. intros s2 [H2 O2].
  eapply returns_mono; [eapply (add_spec [8; 3; 5; 1] [8; 3; 5; 1]); [exact H2 | exact O2 | | done | set_solver] |].
  { split_and!; [done | done | done]. }
  cbv beta. intros s3 [H3 O3]. split; [| done].
  replace ({[1; 2; 0]} : gset Z) with ({[1]} ∪ ({[2]} ∪ ({[0]} ∪ ∅)) : gset Z) by set_solver. done.
Qed.

(** Lowering the distance of id 0 from 8 to 2 moves it to the root. *)
Lemma add_orders_witness :
  (s ← sampleHeap; s ← add [2; 3; 5; 1] s 0; Ok (take 3 (idHeapArray s))) = Ok [0; 1; 2] /\
  returns sampleHeap (fun s => returns (add [2; 3; 5; 1] s 0) (fun s' =>
    models [2; 3; 5; 1] s' ({[0]} ∪ {[1; 2; 0]}) ∅ /\ ordered [2; 3; 5; 1] s')).
Proof.
  split; [vm_compute; reflexivity |].
  eapply returns_mono; [exact sampleHeap_models |]. cbv beta. intros s [Hm Ho].
  apply (add_orders [2; 3; 5; 1] [8; 3; 5; 1] s {[1; 2; 0]} ∅ 0); [| exact Ho | | done | set_solver].
  - exact Hm.
  - split_and!; [done | | intros _; vm_compute; discriminate].
    intros y Hy Hne. by rewrite (at_cons_pos 2), (at_cons_pos 8) by lia.
Defined.

Lemma getNext_closest_witness :
  (s ← sampleHeap; '(x, s) ← getNext [8; 3; 5; 1] s; Ok x) = Ok 1 /\
  returns sampleHeap (fun s => isEmpty s = false /\
    returns (getNext [8; 3; 5; 1] s) (fun '(x, s') =>
      x ∈ ({[1; 2; 0]} : gset Z) /\
      (forall y, y ∈ ({[1; 2; 0]} : gset Z) -> [8; 3; 5; 1].[x] <= [8; 3; 5; 1].[y]) /\
      models [8; 3; 5; 1] s' ({[1; 2; 0]} ∖ {[x]}) ({[x]} ∪ ∅) /\ ordered [8; 3; 5; 1] s')).
Proof.
  split; [vm_compute; reflexivity |].
  eapply returns_mono; [exact sampleHeap_models |]. cbv beta. intros s [Hm Ho].
  assert (isEmpty s = false) as He.
  { rewrite (isEmpty_spec _ _ _ _ Hm). apply bool_decide_false. set_solver. }
  split; [done |]. by apply (getNext_closest [8; 3; 5; 1] s {[1; 2; 0]} ∅).
Defined.
