(* ===== verification/DistanceHeap.v ===== *)
(** * utils/DistanceHeap.java: a priority queue of (id, distance) pairs

    The ids in the heap are kept sorted in [containedIds], padded with [Integer.MAX_VALUE];
    [distances] and [heapPosition] are parallel to it.  Abstractly a heap is the finite map
    [M] from its ids to their distances: [getNext] removes an id of least distance and [add]
    binds an id.  The loops are those of [BinaryHeap]. *)

From S2P Require Import Prelude SortedArray BinaryHeap.

Record t := mk {
  containedIds : list Z;
  distances : list Z;
  heapPosition : list Z;
  idHeapArray : list Z;
  currentSize : Z;
  SIZE_INCREASE : Z;
}.

(** The constructor with parameters, and the one without. *)
Definition new (initialSize sizeIncrease : Z) : res t :=
  pos ← newArray 0 initialSize;
  arr ← newArray 0 initialSize;
  ids ← newArray 0 initialSize;
  ds ← newArray 0 initialSize;
  Ok (mk (fill ids MAX_VALUE) ds pos arr 0 sizeIncrease).

Definition newDefault : res t := new 10 5.

Definition reset (s : t) : t :=
  mk (fill (containedIds s) MAX_VALUE) (distances s) (heapPosition s) (idHeapArray s) 0
     (SIZE_INCREASE s).

Definition isEmpty (s : t) : bool := currentSize s =? 0.

Definition compareValues (s : t) (firstID secondID : Z) : res Z :=
  x ← aget (idHeapArray s) firstID;
  y ← aget (idHeapArray s) secondID;
  let positionIdx1 := binarySearch (containedIds s) x in
  let positionIdx2 := binarySearch (containedIds s) y in
  d1 ← aget (distances s) positionIdx1;
  d2 ← aget (distances s) positionIdx2;
  Ok (if d1 =? d2 then 0 else if d2 <? d1 then 1 else -1).

Definition swap (s : t) (i j : Z) : res t :=
  tmp ← aget (idHeapArray s) i;
  x ← aget (idHeapArray s) j;
  arr ← aset (idHeapArray s) i x;
  arr ← aset arr j tmp;
  idI ← aget arr i;
  idJ ← aget arr j;
  let positionIdxI := binarySearch (containedIds s) idI in
  let positionIdxJ := binarySearch (containedIds s) idJ in
  tmp ← aget (heapPosition s) positionIdxI;
  y ← aget (heapPosition s) positionIdxJ;
  pos ← aset (heapPosition s) positionIdxI y;
  pos ← aset pos positionIdxJ tmp;
  Ok (mk (containedIds s) (distances s) pos arr (currentSize s) (SIZE_INCREASE s)).

#[local] Instance impl : HeapImpl t := {
  BinaryHeap.compareValues := compareValues;
  BinaryHeap.swap := swap;
}.

Definition heapifyTopDown (n root : Z) (s : t) : res t :=
  BinaryHeap.heapifyTopDown (S (Z.to_nat n)) n root s.

Definition heapifyBottomUp (nodeID : Z) (s : t) : res t :=
  BinaryHeap.heapifyBottomUp (S (Z.to_nat nodeID)) nodeID s.

Definition grow (s : t) : res t :=
  let oldLen := alen (idHeapArray s) in
  arr ← copyOf 0 (idHeapArray s) (oldLen + SIZE_INCREASE s);
  ds ← copyOf 0 (distances s) (oldLen + SIZE_INCREASE s);
  ids ← copyOf 0 (containedIds s) (oldLen + SIZE_INCREASE s);
  ids ← fillRange ids oldLen (alen ids) MAX_VALUE;
  pos ← copyOf 0 (heapPosition s) (oldLen + SIZE_INCREASE s);
  ids ← fillRange ids oldLen (alen ids) MAX_VALUE;
  Ok (mk ids ds pos arr (currentSize s) (SIZE_INCREASE s)).

Definition getNext (s : t) : res (Z * t) :=
  returnValue ← aget (idHeapArray s) 0;
  let deleteIdx := binarySearch (containedIds s) returnValue in
  let n := currentSize s - 1 in
  x ← aget (idHeapArray s) n;
  arr ← aset (idHeapArray s) 0 x;
  id ← aget arr 0;
  let positionIdx := binarySearch (containedIds s) id in
  pos ← aset (heapPosition s) positionIdx 0;
  s ← heapifyTopDown n 0 (mk (containedIds s) (distances s) pos arr n (SIZE_INCREASE s));
  s ← (if deleteIdx <? n then
         ids ← arraycopy (containedIds s) (deleteIdx + 1) (containedIds s) deleteIdx (n - deleteIdx);
         ds ← arraycopy (distances s) (deleteIdx + 1) (distances s) deleteIdx (n - deleteIdx);
         pos ← arraycopy (heapPosition s) (deleteIdx + 1) (heapPosition s) deleteIdx (n - deleteIdx);
         Ok (mk ids ds pos (idHeapArray s) (currentSize s) (SIZE_INCREASE s))
       else Ok s);
  ids ← aset (containedIds s) n MAX_VALUE;
  Ok (returnValue, mk ids (distances s) (heapPosition s) (idHeapArray s) n (SIZE_INCREASE s)).

Definition add (s : t) (id distance : Z) : res t :=
  let idx := binarySearch (containedIds s) id in
  if 0 <=? idx then
    ds ← aset (distances s) idx distance;
    p ← aget (heapPosition s) idx;
    heapifyBottomUp p
      (mk (containedIds s) ds (heapPosition s) (idHeapArray s) (currentSize s) (SIZE_INCREASE s))
  else
    s ← (if currentSize s =? alen (idHeapArray s) then grow s else Ok s);
    let insertIdx := insertionPoint idx in
    let n := currentSize s in
    ids ← arraycopy (containedIds s) insertIdx (containedIds s) (insertIdx + 1) (n - insertIdx);
    ids ← aset ids insertIdx id;
    ds ← arraycopy (distances s) insertIdx (distances s) (insertIdx + 1) (n - insertIdx);
    ds ← aset ds insertIdx distance;
    arr ← aset (idHeapArray s) n id;
    pos ← arraycopy (heapPosition s) insertIdx (heapPosition s) (insertIdx + 1) (n - insertIdx);
    pos ← aset pos insertIdx n;
    s ← heapifyBottomUp n (mk ids ds pos arr n (SIZE_INCREASE s));
    Ok (mk (containedIds s) (distances s) (heapPosition s) (idHeapArray s) (n + 1)
           (SIZE_INCREASE s)).

(** ** Parallel arrays

    [assoc ids vals x v]: the cell of [vals] at the index of [x] in [ids] is [v]. *)
Definition assoc (ids vals : list Z) (x v : Z) : Prop :=
  exists k, 0 <= k < alen ids /\ ids.[k] = x /\ vals.[k] = v.

Lemma assoc_mem ids vals x v : assoc ids vals x v -> x ∈ ids.
Proof. intros (k & Hk & <- & _). by apply at_In. Qed.

Lemma assoc_ex ids vals x : x ∈ ids -> exists v, assoc ids vals x v.
Proof. intros (k & Hk & <-)%In_at. by exists vals.[k], k. Qed.

Lemma assoc_fun ids vals x v w : sorted_ids ids -> assoc ids vals x v -> assoc ids vals x w -> v = w.
Proof.
  intros [Hs _] (k & Hk & Ek & <-) (k' & Hk' & Ek' & <-).
  by rewrite (sorted_at_inj ids k k' Hs Hk Hk') by congruence.
Qed.

Lemma assoc_same ids vals vals' x v : (forall k, 0 <= k < alen ids -> vals.[k] = vals'.[k]) ->
  assoc ids vals x v <-> assoc ids vals' x v.
Proof. intros E. split; intros (k & Hk & Ek & <-); exists k; rewrite E in *; auto. Qed.

Lemma assoc_search ids a vals x v : sorted_ids ids -> filled ids a -> assoc ids vals x v ->
  0 <= binarySearch a x < alen ids /\ ids.[binarySearch a x] = x /\ vals.[binarySearch a x] = v.
Proof.
  intros Hs Hf (k & Hk & <- & <-). by rewrite (search_index ids a k Hs Hf Hk).
Qed.

(** [b] is [a] with [v] inserted at cell [p], or with cell [p] removed, as far as the first cells
    are concerned. *)
Definition shifted_in (a b : list Z) (m p v : Z) : Prop :=
  alen b = alen a /\
  forall k, 0 <= k <= m -> b.[k] = if decide (k < p) then a.[k] else if decide (k = p) then v else a.[k - 1].

Definition shifted_out (a b : list Z) (m p : Z) : Prop :=
  alen b = alen a /\ forall k, 0 <= k < m - 1 -> b.[k] = if decide (k < p) then a.[k] else a.[k + 1].

Lemma assoc_insert ids a b p x v : 0 <= p <= alen ids -> shifted_in a b (alen ids) p v -> forall y w,
  assoc (insert_cell p x ids) b y w <-> (y = x /\ w = v) \/ assoc ids a y w.
Proof.
  intros Hp [_ Hl] y w. unfold assoc. rewrite alen_insert_cell. split.
  - intros (k & Hk & <- & <-). rewrite at_insert_cell, Hl by lia.
    destruct (decide (k < p)); [right; exists k; auto with lia |].
    destruct (decide (k = p)); [by left | right; exists (k - 1); auto with lia].
  - intros [[-> ->] | (k & Hk & <- & <-)].
    + exists p. rewrite at_insert_cell, Hl by lia. split; [lia |].
      destruct (decide (p < p)); [lia |]. by destruct (decide (p = p)).
    + destruct (decide (k < p)) as [Hlt | Hge].
      * exists k. rewrite at_insert_cell, Hl by lia. rewrite !decide_True by lia. auto with lia.
      * exists (k + 1). rewrite at_insert_cell, Hl, !decide_False by lia.
        replace (k + 1 - 1) with k by lia. auto with lia.
Qed.

Lemma assoc_remove ids a b p : sorted_ids ids -> 0 <= p < alen ids -> shifted_out a b (alen ids) p ->
  forall y w, assoc (remove_cell p ids) b y w <-> assoc ids a y w /\ y <> ids.[p].
Proof.
  intros [Hs _] Hp [_ Hl] y w. unfold assoc. rewrite alen_remove_cell by lia. split.
  - intros (k & Hk & <- & <-). rewrite at_remove_cell, Hl by lia. destruct (decide (k < p)).
    + split; [exists k; auto with lia |]. intros E. apply (sorted_at_inj ids) in E; (done || lia).
    + split; [exists (k + 1); auto with lia |]. intros E.
      apply (sorted_at_inj ids) in E; (done || lia).
  - intros [(k & Hk & <- & <-) Hne]. destruct (decide (k = p)) as [-> |]; [done |].
    destruct (decide (k < p)) as [Hlt | Hge].
    + exists k. rewrite at_remove_cell, Hl, !decide_True by lia. auto with lia.
    + exists (k - 1). rewrite at_remove_cell, Hl, !decide_False by lia.
      replace (k - 1 + 1) with k by lia. auto with lia.
Qed.

Lemma shift_in_ok a m p v : 0 <= p <= m -> m < alen a ->
  exists b c, arraycopy a p a (p + 1) (m - p) = Ok b /\ aset b p v = Ok c /\ shifted_in a c m p v.
Proof.
  intros Hp Hm. rewrite arraycopy_ok by lia. eexists _, _. split; [done |].
  rewrite aset_ok by lens.
  split; [done |]. split.
  { lens. }
  intros k Hk. rewrite at_insert by lens.
  destruct (decide (p = k)) as [<- | Hne].
  { by rewrite decide_False, decide_True by lia. }
  destruct (decide (k < p)).
  - rewrite at_app_l by lens. by rewrite at_take by lia.
  - rewrite decide_False by lia. rewrite at_app_r by lens.
    rewrite alen_take by lia. rewrite at_app_l by lens.
    rewrite at_take, at_drop by lia. f_equal. lia.
Qed.

Lemma shift_out_ok a m p : 0 <= p < m -> m <= alen a ->
  exists b, arraycopy a (p + 1) a p (m - 1 - p) = Ok b /\ shifted_out a b m p.
Proof.
  intros Hp Hm. rewrite arraycopy_ok by lia. eexists. split; [done |]. split.
  { lens. }
  intros k Hk. destruct (decide (k < p)).
  - rewrite at_app_l by lens. by rewrite at_take by lia.
  - rewrite at_app_r by lens. rewrite alen_take by lia.
    rewrite at_app_l by lens.
    rewrite at_take, at_drop by lia. f_equal. lia.
Qed.

(** Copying no cells changes nothing, so the guard around the copies makes no difference. *)
Lemma arraycopy_guard {A} `{Inhabited A} (a : list A) p n : 0 <= p <= n -> n < alen a ->
  (if p <? n then arraycopy a (p + 1) a p (n - p) else Ok a) = arraycopy a (p + 1) a p (n - p).
Proof.
  intros Hp Hn. destruct (Z.ltb_spec p n); [done |]. assert (p = n) as -> by lia.
  rewrite arraycopy_ok by lia. replace (n - n) with 0 by lia. change (Z.to_nat 0) with 0%nat.
  rewrite take_0, Z.add_0_r. cbn [app]. by rewrite take_drop.
Qed.

Lemma assoc_update ids vals k v : sorted_ids ids -> 0 <= k < alen ids -> alen ids <= alen vals ->
  forall y w, assoc ids (<[Z.to_nat k := v]> vals) y w <->
    if decide (y = ids.[k]) then w = v else assoc ids vals y w.
Proof.
  intros [Hs _] Hk Hl y w. unfold assoc. split.
  - intros (i & Hi & <- & <-). rewrite at_insert by lia. case_decide as E.
    + apply (sorted_at_inj ids) in E; [| done ..]. by rewrite decide_True.
    + rewrite decide_False by congruence. by exists i.
  - case_decide as E.
    + intros ->. exists k. rewrite at_insert, decide_True by (done || lia). auto.
    + intros (i & Hi & <- & <-). exists i. rewrite at_insert, decide_False by (congruence || lia). auto.
Qed.

(** ** Representation *)

Definition in_cells (n : Z) (s : t) (x : Z) : Prop :=
  exists k, 0 <= k < n /\ (idHeapArray s).[k] = x.

(** The first [n] heap cells hold ids of [ids] whose recorded position is that cell. *)
Definition cells_ok (ids : list Z) (n : Z) (s : t) : Prop :=
  sorted_ids ids /\ filled ids (containedIds s) /\
  alen (containedIds s) = alen (idHeapArray s) /\ alen (distances s) = alen (idHeapArray s) /\
  alen (heapPosition s) = alen (idHeapArray s) /\ alen ids <= alen (idHeapArray s) /\
  0 <= n <= alen (idHeapArray s) /\
  forall i, 0 <= i < n -> assoc ids (heapPosition s) (idHeapArray s).[i] i.

Definition cells_frame (n : Z) (s s' : t) : Prop :=
  containedIds s' = containedIds s /\ distances s' = distances s /\
  currentSize s' = currentSize s /\ SIZE_INCREASE s' = SIZE_INCREASE s /\
  forall x, in_cells n s' x <-> in_cells n s x.

(** The distance stored for an id. *)
Definition prioOf (s : t) (x : Z) : Z := (distances s).[binarySearch (containedIds s) x].

Definition ordered (n : Z) (s : t) : Prop :=
  forall i, 0 < i < n ->
    prioOf s (idHeapArray s).[BinaryHeap.parent i] <= prioOf s (idHeapArray s).[i].

(** [s] holds the ids of [M] with their distances. *)
Definition models (s : t) (M : gmap Z Z) : Prop :=
  exists ids, cells_ok ids (currentSize s) s /\ alen ids = currentSize s /\
    0 < SIZE_INCREASE s /\ ordered (currentSize s) s /\
    (forall x d, M !! x = Some d <-> assoc ids (distances s) x d) /\
    (forall x, x ∈ ids -> in_cells (currentSize s) s x).

(** ** The shared heap lemmas apply *)

Section laws.
Variable ids : list Z.

Lemma queue_cells_inj n s i j : cells_ok ids n s -> 0 <= i < n -> 0 <= j < n ->
  (idHeapArray s).[i] = (idHeapArray s).[j] -> i = j.
Proof.
  intros (Hs & _ & _ & _ & _ & _ & _ & Hc) Hi Hj E. pose proof (Hc i Hi) as H1.
  pose proof (Hc j Hj) as H2. rewrite E in H1. by eapply assoc_fun.
Qed.

Lemma prio_assoc n s x d : cells_ok ids n s -> assoc ids (distances s) x d -> prioOf s x = d.
Proof.
  intros (Hs & Hf & _) Ha. by destruct (assoc_search _ _ _ _ _ Hs Hf Ha) as (_ & _ & <-).
Qed.

Lemma cell_search n s i : cells_ok ids n s -> 0 <= i < n ->
  let p := binarySearch (containedIds s) (idHeapArray s).[i] in
  0 <= p < alen ids /\ ids.[p] = (idHeapArray s).[i] /\ (heapPosition s).[p] = i.
Proof.
  intros (Hs & Hf & _ & _ & _ & _ & _ & Hc) Hi. apply assoc_search; auto.
Qed.

Lemma queue_compareValues_law n s i j : cells_ok ids n s -> 0 <= i < n -> 0 <= j < n ->
  returns (compareValues s i j)
    (fun c => c < 0 <-> prioOf s (idHeapArray s).[i] < prioOf s (idHeapArray s).[j]).
Proof.
  intros Hok Hi Hj. pose proof (cell_search n s i Hok Hi) as (Hpi & _).
  pose proof (cell_search n s j Hok Hj) as (Hpj & _).
  destruct Hok as (_ & _ & Hl1 & Hl2 & Hl3 & Hl4 & Hn & _).
  unfold compareValues. do 4 (jstep; cbv beta). jsteps. ret.
  fold (prioOf s (idHeapArray s).[i]) (prioOf s (idHeapArray s).[j]).
  generalize (prioOf s (idHeapArray s).[i]), (prioOf s (idHeapArray s).[j]). intros x y.
  destruct (Z.eqb_spec x y); [cbv iota; lia |]. destruct (Z.ltb_spec y x); cbv iota; lia.
Qed.

Lemma queue_swap_law n s i j : cells_ok ids n s -> 0 <= i < n -> 0 <= j < n -> i <> j ->
  returns (swap s i j) (fun s' =>
    cells_ok ids n s' /\ cells_frame n s s' /\
    forall k, 0 <= k < n ->
      (idHeapArray s').[k] = if decide (k = i) then (idHeapArray s).[j]
        else if decide (k = j) then (idHeapArray s).[i] else (idHeapArray s).[k]).
Proof.
  intros Hok Hi Hj Hij. pose proof (cell_search n s i Hok Hi) as (Hbi & Hei & Hpi).
  pose proof (cell_search n s j Hok Hj) as (Hbj & Hej & Hpj).
  pose proof Hok as (Hs & Hf & Hl1 & Hl2 & Hl3 & Hl4 & Hn & Hc).
  set (a := idHeapArray s) in *. set (p := heapPosition s) in *.
  assert (a.[i] <> a.[j]) as Hne by (intros E; by apply (queue_cells_inj n s i j Hok) in E).
  set (bi := binarySearch (containedIds s) a.[i]) in *.
  set (bj := binarySearch (containedIds s) a.[j]) in *.
  set (a' := <[Z.to_nat j := a.[i]]> (<[Z.to_nat i := a.[j]]> a)).
  set (p' := <[Z.to_nat bi := j]> (<[Z.to_nat bj := i]> p)).
  assert (forall k, 0 <= k -> a'.[k] = if decide (k = i) then a.[j]
            else if decide (k = j) then a.[i] else a.[k]) as Ha'.
  { intros k Hk. unfold a'. rewrite !at_insert by (autorewrite with alen; lia).
    repeat case_decide; congruence. }
  assert (forall x v, assoc ids p' x v <-> if decide (x = a.[i]) then v = j
            else if decide (x = a.[j]) then v = i else assoc ids p x v) as Hp'.
  { intros x v. unfold p'. rewrite assoc_update by (done || autorewrite with alen; lia).
    rewrite Hei. case_decide; [done |]. rewrite assoc_update by (done || lia). by rewrite Hej. }
  assert (a'.[i] = a.[j]) as Hai by (rewrite Ha' by lia; by repeat case_decide).
  assert (a'.[j] = a.[i]) as Haj by (rewrite Ha' by lia; by repeat case_decide).
  assert (alen a' = alen a) as Hal by (unfold a'; by autorewrite with alen).
  assert (swap s i j = Ok (mk (containedIds s) (distances s) p' a' (currentSize s)
                              (SIZE_INCREASE s))) as ->.
  { unfold swap. fold a p. do 8 (jstep; cbv beta). fold a'.
    rewrite !aget_ok, !bind_ok, Hai, Haj by lia. fold bi bj. jsteps. by rewrite Hpi, Hpj. }
  ret. cbn [idHeapArray heapPosition currentSize].
  split_and!; [| | intros k Hk; apply Ha'; lia].
  - unfold cells_ok. cbn [idHeapArray heapPosition containedIds distances]. rewrite Hal.
    assert (alen p' = alen a) as -> by (unfold p'; autorewrite with alen; lia).
    refine (conj Hs (conj Hf (conj Hl1 (conj Hl2 (conj eq_refl (conj Hl4 (conj Hn _))))))).
    intros k Hk. rewrite Ha' by lia. rewrite Hp'.
    destruct (decide (k = i)) as [-> | Hki]; [by rewrite decide_False, decide_True by congruence |].
    destruct (decide (k = j)) as [-> | Hkj]; [by rewrite decide_True by congruence |].
    rewrite !decide_False; [by apply Hc | |]; intros E;
      by apply (queue_cells_inj n s k _ Hok Hk) in E.
  - split_and!; try done. cbn. intros x. split; intros (k & Hk & <-); cbn [idHeapArray].
    + rewrite Ha' by lia. repeat case_decide; eexists; (split; [|done]); lia.
    + fold a. destruct (decide (k = i)) as [-> | Hki]; [exists j |
        destruct (decide (k = j)) as [-> | Hkj]; [exists i | exists k]];
        (split; [lia |]); cbn; rewrite Ha' by lia; repeat case_decide; congruence.
Qed.

#[local] Program Instance laws : HeapLaws t := {
  entry s i := (idHeapArray s).[i];
  prio := prioOf;
  hinv := cells_ok ids;
  frame := cells_frame;
  compare_law := queue_compareValues_law;
  swap_law := queue_swap_law;
}.
Next Obligation. intros n s. by repeat split. Qed.
Next Obligation.
  intros n s1 s2 s3 (Hp1 & Ha1 & Hs1 & Hi1 & Hf1) (Hp2 & Ha2 & Hs2 & Hi2 & Hf2).
  split_and!; [congruence .. |]. intros x. by rewrite Hf2.
Qed.
Next Obligation. intros n s1 s2 x (Hc & Hd & _). unfold prioOf. by rewrite Hc, Hd. Qed.

Lemma queue_heapifyBottomUp_ok n j s : cells_ok ids n s -> 0 <= j < n ->
  (forall i, 0 < i < n -> i <> j ->
     prioOf s (idHeapArray s).[BinaryHeap.parent i] <= prioOf s (idHeapArray s).[i]) ->
  (forall i, 0 < i < n -> BinaryHeap.parent i = j -> 0 < j ->
     prioOf s (idHeapArray s).[BinaryHeap.parent j] <= prioOf s (idHeapArray s).[i]) ->
  returns (heapifyBottomUp j s) (fun s' => cells_ok ids n s' /\ cells_frame n s s' /\ ordered n s').
Proof.
  intros Hok Hj Ho Hg. unfold heapifyBottomUp.
  eapply returns_mono; [apply (@heapifyBottomUp_restores t impl laws _ n); try done; lia |].
  by intros s' (? & ? & ? & _).
Qed.

Lemma queue_heapifyTopDown_ok n s : cells_ok ids n s ->
  (forall i, 0 < i < n -> BinaryHeap.parent i <> 0 ->
     prioOf s (idHeapArray s).[BinaryHeap.parent i] <= prioOf s (idHeapArray s).[i]) ->
  returns (heapifyTopDown n 0 s) (fun s' => cells_ok ids n s' /\ cells_frame n s s' /\ ordered n s').
Proof.
  intros Hok Ho. pose proof Hok as (_ & _ & _ & _ & _ & _ & Hn & _). unfold heapifyTopDown.
  eapply returns_mono; [apply (@heapifyTopDown_restores t impl laws _ n); try done; try lia |].
  by intros s' (? & ? & ? & _).
Qed.

Lemma queue_ordered_min n s : ordered n s -> cells_ok ids n s ->
  forall i, 0 <= i < n -> prioOf s (idHeapArray s).[0] <= prioOf s (idHeapArray s).[i].
Proof. intros Ho Hok. exact (@heap_min t impl laws n s Ho). Qed.
End laws.

(** ** Specifications of the operations *)

Lemma alen_newArray n : 0 <= n -> newArray 0 n = Ok (replicate (Z.to_nat n) 0).
Proof. intros. unfold newArray. by destruct (Z.ltb_spec n 0); [lia |]. Qed.

Lemma filled_nil a : filled [] (fill a MAX_VALUE).
Proof. by exists (length a). Qed.

Lemma queue_new_spec initialSize sizeIncrease : 0 <= initialSize -> 0 < sizeIncrease ->
  returns (new initialSize sizeIncrease) (fun s => models s ∅).
Proof.
  intros Hi Hs. unfold new. rewrite !alen_newArray, !bind_ok by done. ret.
  exists []. unfold cells_ok, models. cbn [containedIds distances heapPosition idHeapArray currentSize SIZE_INCREASE].
  autorewrite with alen. split_and!; try done; try lia.
  - apply sorted_ids_nil.
  - apply filled_nil.
  - intros i Hx. lia.
  - intros x d. rewrite lookup_empty. split; [done |]. intros (k & Hk & _).
    unfold alen in Hk. cbn in Hk. lia.
  - intros x Hx. set_solver +Hx.
Qed.

Lemma reset_spec s M : models s M -> models (reset s) ∅.
Proof.
  intros (ids & (_ & _ & Hl1 & Hl2 & Hl3 & _ & Hn & _) & _ & Hs & _).
  exists []. unfold cells_ok, reset. cbn [containedIds distances heapPosition idHeapArray currentSize SIZE_INCREASE].
  autorewrite with alen. split_and!; try done; try lia.
  - apply sorted_ids_nil.
  - apply filled_nil.
  - intros i Hx. lia.
  - intros x d. rewrite lookup_empty. split; [done |]. intros (k & Hk & _).
    unfold alen in Hk. cbn in Hk. lia.
  - intros x Hx. set_solver +Hx.
Qed.

Lemma queue_isEmpty_spec s M : models s M -> isEmpty s = bool_decide (M = ∅).
Proof.
  intros (ids & Hok & Hl & _ & _ & HM & _). pose proof (alen_nonneg ids). unfold isEmpty.
  destruct (Z.eqb_spec (currentSize s) 0) as [E | E].
  - rewrite bool_decide_true; [done |]. apply map_empty. intros x.
    destruct (M !! x) as [d |] eqn:Ex; [| done]. apply HM in Ex as (k & Hk & _). lia.
  - rewrite bool_decide_false; [done |]. intros ->.
    assert (assoc ids (distances s) ids.[0] (distances s).[0]) as Ha by (exists 0; auto with lia).
    by apply HM in Ha.
Qed.

Lemma getNext_empty s : currentSize s = 0 -> getNext s = Err ArrayIndexOutOfBounds.
Proof.
  intros E. unfold getNext. destruct (decide (0 < alen (idHeapArray s))).
  - rewrite (aget_ok (idHeapArray s) 0), bind_ok by lia. cbv zeta. rewrite E. by rewrite (aget_oob (idHeapArray s)) by lia.
  - by rewrite (aget_oob (idHeapArray s) 0) by lia.
Qed.

(** The state in which [getNext] calls [heapifyTopDown]. *)
Definition moved (s : t) : t :=
  let n := currentSize s - 1 in
  let last := (idHeapArray s).[n] in
  mk (containedIds s) (distances s)
     (<[Z.to_nat (binarySearch (containedIds s) last) := 0]> (heapPosition s))
     (<[Z.to_nat 0 := last]> (idHeapArray s)) n (SIZE_INCREASE s).

(** The state after the entries at [p] were removed. *)
Definition removed (s s' : t) (ids : list Z) (p : Z) : Prop :=
  filled (remove_cell p ids) (containedIds s') /\ alen (containedIds s') = alen (containedIds s) /\
  shifted_out (distances s) (distances s') (alen ids) p /\
  shifted_out (heapPosition s) (heapPosition s') (alen ids) p /\
  idHeapArray s' = idHeapArray s /\ currentSize s' = currentSize s /\ SIZE_INCREASE s' = SIZE_INCREASE s.

Lemma removal_ok s ids n p (v : Z) : cells_ok ids n s -> currentSize s = n -> alen ids = n + 1 -> 0 <= p <= n ->
  returns (s ← (if p <? n then
         ids ← arraycopy (containedIds s) (p + 1) (containedIds s) p (n - p);
         ds ← arraycopy (distances s) (p + 1) (distances s) p (n - p);
         pos ← arraycopy (heapPosition s) (p + 1) (heapPosition s) p (n - p);
         Ok (mk ids ds pos (idHeapArray s) (currentSize s) (SIZE_INCREASE s))
       else Ok s);
     ids ← aset (containedIds s) n MAX_VALUE;
     Ok (v, mk ids (distances s) (heapPosition s) (idHeapArray s) n (SIZE_INCREASE s)))
    (fun '(w, s') => w = v /\ removed s s' ids p).
Proof.
  intros (Hs & Hf & Hl1 & Hl2 & Hl3 & Hl4 & Hn & _) Hcs Hm Hp.
  destruct (shift_out_ok (distances s) (n + 1) p) as (ds & Eds & Hds); [lia .. |].
  destruct (shift_out_ok (heapPosition s) (n + 1) p) as (pos & Epos & Hpos); [lia .. |].
  destruct (returns_elim _ _ (filled_remove ids (containedIds s) p Hf ltac:(lia))) as (c & Ec & Hc1 & Hc2).
  apply bind_inv in Ec as (c0 & Ec0 & Ec).
  replace (n + 1 - 1 - p) with (n - p) in * by lia.
  replace (alen ids - 1 - p) with (n - p) in * by lia. replace (alen ids - 1) with n in * by lia.
  assert ((if p <? n then
         ids ← arraycopy (containedIds s) (p + 1) (containedIds s) p (n - p);
         ds ← arraycopy (distances s) (p + 1) (distances s) p (n - p);
         pos ← arraycopy (heapPosition s) (p + 1) (heapPosition s) p (n - p);
         Ok (mk ids ds pos (idHeapArray s) (currentSize s) (SIZE_INCREASE s))
       else Ok s) = Ok (mk c0 ds pos (idHeapArray s) (currentSize s) (SIZE_INCREASE s))) as ->.
  { pose proof (arraycopy_guard (containedIds s) p n) as G1.
    pose proof (arraycopy_guard (distances s) p n) as G2.
    pose proof (arraycopy_guard (heapPosition s) p n) as G3.
    destruct (p <? n); [by rewrite Ec0, bind_ok, Eds, bind_ok, Epos, bind_ok |].
    rewrite Ec0 in G1 by lia. rewrite Eds in G2 by lia. rewrite Epos in G3 by lia.
    specialize (G1 ltac:(lia) ltac:(lia)). specialize (G2 ltac:(lia) ltac:(lia)).
    specialize (G3 ltac:(lia) ltac:(lia)). destruct s; cbn in *. congruence. }
  rewrite bind_ok. cbn [containedIds]. rewrite Ec, bind_ok. ret. split; [done |].
  unfold removed. rewrite Hm. by split_and!; try done; cbn; try lia.
Qed.

Section specs.
Context (ids : list Z) (s : t) (Hok : cells_ok ids (currentSize s) s).

Lemma queue_moved_at k : 0 <= k < currentSize s - 1 ->
  (idHeapArray (moved s)).[k] =
    if decide (k = 0) then (idHeapArray s).[currentSize s - 1] else (idHeapArray s).[k].
Proof.
  intros Hk. destruct Hok as (_ & _ & _ & _ & _ & _ & Hn & _). cbn [moved idHeapArray].
  rewrite at_insert by lia. by repeat case_decide; try lia.
Qed.

Lemma queue_moved_ok : 0 < currentSize s -> cells_ok ids (currentSize s - 1) (moved s).
Proof.
  intros Hpos. pose proof (cell_search ids _ s (currentSize s - 1) Hok) as Hlast.
  specialize (Hlast ltac:(lia)). cbv zeta in Hlast. destruct Hlast as (Hb & Hl & _).
  pose proof Hok as (Hs & Hf & Hl1 & Hl2 & Hl3 & Hl4 & Hn & Hc).
  unfold cells_ok. cbn [moved containedIds distances heapPosition idHeapArray].
  autorewrite with alen.
  refine (conj Hs (conj Hf (conj Hl1 (conj Hl2 (conj Hl3 (conj Hl4 (conj _ _))))))); [lia |].
  intros k Hk. pose proof (queue_moved_at k Hk) as E. cbn [moved idHeapArray] in E. rewrite E.
  rewrite assoc_update, Hl by (done || lia). case_decide as Ek; [by rewrite decide_True by done |].
  rewrite decide_False; [apply Hc; lia |]. intros E'.
  apply (queue_cells_inj ids (currentSize s) s) in E'; (done || lia).
Qed.

Lemma queue_moved_cells x : 0 < currentSize s ->
  in_cells (currentSize s - 1) (moved s) x <->
  in_cells (currentSize s) s x /\ x <> (idHeapArray s).[0].
Proof.
  intros Hpos. split.
  - intros (k & Hk & <-). rewrite queue_moved_at by done. case_decide as E.
    + split; [exists (currentSize s - 1); split; [lia | done] |]. intros E'.
      apply (queue_cells_inj ids (currentSize s) s) in E'; [lia | done | lia | lia].
    + split; [exists k; split; [lia | done] |]. intros E'.
      apply (queue_cells_inj ids (currentSize s) s k 0) in E'; [lia | done | lia | lia].
  - intros [(k & Hk & <-) Hx]. destruct (decide (k = 0)) as [-> |]; [done |].
    destruct (decide (k = currentSize s - 1)) as [-> |].
    + exists 0. split; [lia |]. by rewrite queue_moved_at, decide_True by (done || lia).
    + exists k. split; [lia |]. by rewrite queue_moved_at, decide_False by (done || lia).
Qed.
End specs.

(** Removing an id that is not in the heap cells from the sorted arrays. *)
Lemma removed_models ids s s' p M n : cells_ok ids n s -> ordered n s ->
  n = currentSize s -> 0 < SIZE_INCREASE s -> alen ids = n + 1 -> 0 <= p < alen ids ->
  (forall x d, M !! x = Some d <-> assoc ids (distances s) x d) ->
  (forall x, in_cells n s x <-> x ∈ ids /\ x <> ids.[p]) ->
  removed s s' ids p -> models s' (delete ids.[p] M).
Proof.
  intros Hok Ho -> Hinc Hm Hp HM Hin (Hf' & Hlc & Hds & Hpos & Harr & Hsz & Hinc').
  pose proof Hok as (Hs & Hf & Hl1 & Hl2 & Hl3 & Hl4 & Hn & Hc).
  pose proof (assoc_remove ids _ _ p Hs Hp Hds) as Hrd.
  pose proof (assoc_remove ids _ _ p Hs Hp Hpos) as Hrp.
  destruct Hds as [Hlds _], Hpos as [Hlpos _].
  assert (forall i, 0 <= i < currentSize s -> (idHeapArray s).[i] ∈ ids /\ (idHeapArray s).[i] <> ids.[p])
    as Hcell by (intros i Hi; apply Hin; by exists i).
  assert (cells_ok (remove_cell p ids) (currentSize s) s') as Hok'.
  { unfold cells_ok. rewrite Harr, alen_remove_cell by lia.
    split_and!; try done; try lia; [by apply sorted_remove |].
    intros i Hi. apply Hrp. split; [by apply Hc | by apply Hcell]. }
  exists (remove_cell p ids). rewrite Hsz, Hinc', alen_remove_cell by lia.
  split_and!; try done; try lia.
  - intros i Hi. pose proof (parent_bounds i ltac:(lia)).
    assert (forall k, 0 <= k < currentSize s ->
      prioOf s' (idHeapArray s').[k] = prioOf s (idHeapArray s).[k]) as Hsame.
    { intros k Hk. destruct (Hcell k Hk) as [Hki Hkp].
      destruct (assoc_ex ids (distances s) _ Hki) as [d Hd].
      rewrite (prio_assoc ids _ s _ d Hok Hd). rewrite Harr.
      apply (prio_assoc _ _ s' _ d Hok'). by apply Hrd. }
    rewrite !Hsame by lia. by apply Ho.
  - intros x d. rewrite lookup_delete_Some, HM, Hrd. naive_solver.
  - intros x Hx. destruct (assoc_ex _ (distances s') _ Hx) as [d Hd].
    apply Hrd in Hd as [Hd Hne]. apply assoc_mem in Hd.
    unfold in_cells. rewrite Harr. by apply Hin.
Qed.

(** [getNext] on a heap that is not empty. *)
Lemma queue_getNext_spec s M : models s M -> M <> ∅ ->
  returns (getNext s) (fun '(x, s') => exists d, M !! x = Some d /\
    (forall y d', M !! y = Some d' -> d <= d') /\ models s' (delete x M)).
Proof.
  intros Hm Hne. pose proof (queue_isEmpty_spec s M Hm) as He. rewrite bool_decide_false in He by done.
  destruct Hm as (ids & Hok & Hl & Hinc & Ho & HM & Hin). unfold isEmpty in He.
  pose proof Hok as (Hs & Hf & Hl1 & Hl2 & Hl3 & Hl4 & Hn & Hc).
  assert (0 < currentSize s) as Hpos by lia. clear He Hne.
  destruct (cell_search ids _ s 0 Hok ltac:(lia)) as (Hp & Hip & _).
  destruct (cell_search ids _ s (currentSize s - 1) Hok ltac:(lia)) as (Hb & _).
  set (p := binarySearch (containedIds s) (idHeapArray s).[0]) in *.
  unfold getNext. do 6 (jstep; cbv beta zeta).
  rewrite aget_ok, bind_ok by in_bounds. rewrite at_insert, decide_True by (done || lia).
  cbv zeta. jsteps. fold p. fold (moved s).
  eapply returns_bind.
  { apply (queue_heapifyTopDown_ok ids); [by apply queue_moved_ok |]. intros i Hi Hpi.
    pose proof (parent_bounds i ltac:(lia)). rewrite !(queue_moved_at ids s Hok) by lia.
    rewrite !decide_False by lia. apply Ho. lia. }
  cbv beta. intros s2 (Hok2 & (Ec & Ed & Es & Ei & Hfin) & Ho2).
  eapply returns_mono; [apply (removal_ok s2 ids (currentSize s - 1) p); (done || lia) |].
  intros [w s'] [-> Hrem]. cbv beta iota.
  assert (assoc ids (distances s) (idHeapArray s).[0] (prioOf s (idHeapArray s).[0])) as H0.
  { destruct (assoc_ex ids (distances s) (idHeapArray s).[0]) as [d Hd].
    { rewrite <-Hip. by apply at_In. }
    by rewrite (prio_assoc ids _ s _ d Hok Hd). }
  exists (prioOf s (idHeapArray s).[0]). split_and!.
  - by apply HM.
  - intros y d' Hy%HM. pose proof (assoc_mem _ _ _ _ Hy) as (k & Hk & <-)%Hin.
    rewrite <-(prio_assoc ids _ s _ d' Hok Hy). by apply (queue_ordered_min ids (currentSize s)).
  - rewrite <-Hip. eapply (removed_models ids s2 s'); eauto; try lia.
    + by rewrite Ei.
    + intros x d. rewrite HM. by rewrite Ed.
    + intros x. rewrite Hfin, (queue_moved_cells ids s Hok), Hip by done.
      split; intros [Hx Hne]; (split; [| done]); [| by apply Hin].
      destruct Hx as (k & Hk & <-). by eapply assoc_mem, Hc.
Qed.

(** [add] of an id that is in the heap, with a distance that is not larger than before. *)
Lemma queue_add_present s M x d d0 : models s M -> M !! x = Some d0 -> d <= d0 -> x < MAX_VALUE ->
  returns (add s x d) (fun s' => models s' (<[x := d]> M)).
Proof.
  intros (ids & Hok & Hl & Hinc & Ho & HM & Hin) Hx0 Hd HxM.
  apply HM in Hx0. pose proof Hok as (Hs & Hf & Hl1 & Hl2 & Hl3 & Hl4 & Hn & Hc).
  destruct (assoc_search _ _ _ _ _ Hs Hf Hx0) as (Hb & Hix & Hdx).
  pose proof (Hin x (assoc_mem _ _ _ _ Hx0)) as (j & Hj & Ej).
  destruct (cell_search ids _ s j Hok Hj) as (_ & _ & Hpj). rewrite Ej in Hpj.
  unfold add. destruct (Z.leb_spec 0 (binarySearch (containedIds s) x)); [| lia].
  rewrite aset_ok, bind_ok, aget_ok, bind_ok by lia. rewrite Hpj.
  set (k := binarySearch (containedIds s) x) in *.
  set (s1 := mk _ (<[Z.to_nat k := d]> (distances s)) _ _ _ _).
  assert (cells_ok ids (currentSize s) s1) as Hok1.
  { unfold cells_ok, s1. cbn [containedIds distances heapPosition idHeapArray].
    by autorewrite with alen. }
  assert (forall y w, assoc ids (distances s1) y w <->
    if decide (y = x) then w = d else assoc ids (distances s) y w) as Hass.
  { intros y w. unfold s1. cbn [distances]. rewrite assoc_update by (done || lia). by rewrite Hix. }
  assert (forall i, 0 <= i < currentSize s -> prioOf s1 (idHeapArray s).[i] =
    if decide (i = j) then d else prioOf s (idHeapArray s).[i]) as Hprio.
  { intros i Hi. pose proof (assoc_mem _ _ _ _ (Hc i Hi)) as Hm.
    destruct (assoc_ex ids (distances s) _ Hm) as [w Hw].
    rewrite (prio_assoc ids _ s _ w Hok Hw). case_decide as E.
    - subst i. apply (prio_assoc ids _ s1 _ d Hok1), Hass. by rewrite decide_True.
    - apply (prio_assoc ids _ s1 _ w Hok1), Hass. rewrite decide_False; [done |].
      rewrite <-Ej. intros E'. by apply (queue_cells_inj ids (currentSize s) s) in E'. }
  assert (prioOf s x = d0) as Hp0 by by apply (prio_assoc ids (currentSize s)).
  eapply returns_mono; [apply (queue_heapifyBottomUp_ok ids (currentSize s)); [done | done | |] |].
  - intros i Hi Hij. pose proof (parent_bounds i ltac:(lia)). specialize (Ho i Hi).
    cbn [s1 idHeapArray]. rewrite !Hprio by lia. rewrite (decide_False (P := i = j)) by done.
    case_decide as E; [| done]. rewrite E, Ej in Ho. lia.
  - intros i Hi Hpi Hjpos. pose proof (parent_bounds i ltac:(lia)).
    pose proof (parent_bounds j ltac:(lia)). cbn [s1 idHeapArray]. rewrite !Hprio by lia.
    rewrite !decide_False by lia. pose proof (Ho i Hi) as Hoi. rewrite Hpi in Hoi.
    pose proof (Ho j ltac:(lia)). lia.
  - cbv beta. intros s' (Hok' & (Ec & Ed & Es & Ei & Hfin) & Ho').
    exists ids. rewrite Es, Ei. cbn [s1 currentSize SIZE_INCREASE]. split_and!; try done.
    + intros y w. rewrite Ed, Hass. case_decide as E.
      * subst y. rewrite lookup_insert_eq. naive_solver.
      * by rewrite lookup_insert_ne by congruence.
    + intros y Hy. apply Hfin. by apply Hin.
Qed.

(** ** Growing *)

Lemma copyOf_grow (a : list Z) n : 0 <= n ->
  copyOf 0 a (alen a + n) = Ok (a ++ replicate (Z.to_nat n) 0).
Proof.
  intros Hn. unfold copyOf. pose proof (alen_nonneg a). destruct (Z.ltb_spec (alen a + n) 0); [lia |].
  rewrite take_ge by lens. do 2 f_equal. f_equal. lia.
Qed.

Lemma fillRange_tail (a r : list Z) v :
  fillRange (a ++ r) (alen a) (alen (a ++ r)) v = Ok (a ++ replicate (length r) v).
Proof.
  unfold fillRange. pose proof (alen_nonneg a). pose proof (alen_nonneg r). autorewrite with alen.
  destruct (Z.ltb_spec (alen a + alen r) (alen a)); [lia |].
  destruct (Z.ltb_spec (alen a) 0); [lia |].
  destruct (Z.ltb_spec (alen a + alen r) (alen a + alen r)); [lia |]. cbn [orb].
  replace (Z.to_nat (alen a)) with (length a) by lens. rewrite take_app_length.
  rewrite drop_ge by lens. rewrite app_nil_r. do 3 f_equal. lens.
Qed.

Lemma grow_ok ids n s : cells_ok ids n s -> 0 < SIZE_INCREASE s ->
  returns (grow s) (fun s' => cells_ok ids n s' /\ alen (idHeapArray s) < alen (idHeapArray s') /\
    currentSize s' = currentSize s /\ SIZE_INCREASE s' = SIZE_INCREASE s /\
    (forall k, 0 <= k < alen (idHeapArray s) -> (distances s').[k] = (distances s).[k]) /\
    (forall k, 0 <= k < alen (idHeapArray s) -> (idHeapArray s').[k] = (idHeapArray s).[k])).
Proof.
  intros (Hs & (k & Hf) & Hl1 & Hl2 & Hl3 & Hl4 & Hn & Hc) Hinc. unfold grow.
  rewrite copyOf_grow, bind_ok by lia.
  rewrite <-Hl2 at 1. rewrite copyOf_grow, bind_ok by lia.
  rewrite <-Hl1 at 1. rewrite copyOf_grow, bind_ok by lia.
  rewrite <-Hl1 at 1. rewrite fillRange_tail, bind_ok.
  rewrite <-Hl3 at 1. rewrite copyOf_grow, bind_ok by lia.
  rewrite <-Hl1 at 1. rewrite fillRange_tail, bind_ok. ret.
  unfold cells_ok. cbn [containedIds distances heapPosition idHeapArray currentSize SIZE_INCREASE].
  rewrite !length_replicate. autorewrite with alen.
  split_and!; try done; try lia; try lens.
  - exists (k + Z.to_nat (SIZE_INCREASE s))%nat. by rewrite Hf, replicate_add, <-app_assoc.
  - intros i Hi. rewrite at_app_l by lia. rewrite assoc_same; [by apply Hc |].
    intros j Hj. by rewrite at_app_l by lia.
  - intros j Hj. by rewrite at_app_l by lia.
  - intros j Hj. by rewrite at_app_l by lia.
Qed.

(** The state in which [add] calls [heapifyBottomUp] for a new id [x]. *)
Definition appended (s s' : t) (ids : list Z) (p x d : Z) : Prop :=
  filled (insert_cell p x ids) (containedIds s') /\ alen (containedIds s') = alen (containedIds s) /\
  shifted_in (distances s) (distances s') (alen ids) p d /\
  shifted_in (heapPosition s) (heapPosition s') (alen ids) p (currentSize s) /\
  idHeapArray s' = <[Z.to_nat (currentSize s) := x]> (idHeapArray s) /\
  currentSize s' = currentSize s /\ SIZE_INCREASE s' = SIZE_INCREASE s.

Section insertion.
Context (ids : list Z) (s s' : t) (p x d : Z).
Context (Hok : cells_ok ids (currentSize s) s) (Hm : alen ids = currentSize s).
Context (Hlt : currentSize s < alen (idHeapArray s)) (Hp : 0 <= p <= alen ids).
Context (Hsorted : sorted_ids (insert_cell p x ids)) (Hx : x ∉ ids).
Context (Happ : appended s s' ids p x d).

Lemma appended_at k : 0 <= k ->
  (idHeapArray s').[k] = if decide (currentSize s = k) then x else (idHeapArray s).[k].
Proof.
  intros Hk. destruct Happ as (_ & _ & _ & _ & -> & _). destruct Hok as (_ & _ & _ & _ & _ & _ & Hn & _).
  by rewrite at_insert by lia.
Qed.

Lemma appended_assoc y w :
  assoc (insert_cell p x ids) (distances s') y w <-> (y = x /\ w = d) \/ assoc ids (distances s) y w.
Proof. apply assoc_insert; [done |]. apply Happ. Qed.

Lemma queue_appended_ok : cells_ok (insert_cell p x ids) (currentSize s + 1) s'.
Proof.
  destruct Happ as (Hf' & Hlc & Hds & Hpos & Harr & _). pose proof (assoc_insert ids _ _ p x _ Hp Hpos) as Ha.
  destruct Hds as [Hlds _], Hpos as [Hlp _].
  pose proof Hok as (Hs & Hf & Hl1 & Hl2 & Hl3 & Hl4 & Hn & Hc).
  unfold cells_ok. rewrite alen_insert_cell, Harr. autorewrite with alen.
  split_and!; try done; try lia. intros i Hi. rewrite <-Harr, appended_at by lia. apply Ha.
  case_decide; [by left | right]. apply Hc. lia.
Qed.

Lemma appended_prio i : 0 <= i < currentSize s ->
  prioOf s' (idHeapArray s').[i] = prioOf s (idHeapArray s).[i].
Proof.
  intros Hi. rewrite appended_at, decide_False by lia.
  pose proof Hok as (_ & _ & _ & _ & _ & _ & _ & Hc).
  destruct (assoc_ex ids (distances s) _ (assoc_mem _ _ _ _ (Hc i Hi))) as [w Hw].
  rewrite (prio_assoc ids _ s _ w Hok Hw). apply (prio_assoc _ _ s' _ w queue_appended_ok).
  apply appended_assoc. by right.
Qed.

Lemma queue_appended_cells y : (forall z, z ∈ ids -> in_cells (currentSize s) s z) ->
  y ∈ insert_cell p x ids -> in_cells (currentSize s + 1) s' y.
Proof.
  intros Hin. destruct Hok as (_ & _ & _ & _ & _ & _ & Hn & _).
  intros [-> | (k & Hk & <-)%Hin]%elem_insert_cell.
  - exists (currentSize s). split; [lia |]. by rewrite appended_at, decide_True by (lia || done).
  - exists k. split; [lia |]. by rewrite appended_at, decide_False by lia.
Qed.
End insertion.

(** The tail of [add] once the arrays have room. *)
Lemma queue_insert_ok s ids M x d p : cells_ok ids (currentSize s) s -> alen ids = currentSize s ->
  0 < SIZE_INCREASE s -> currentSize s < alen (idHeapArray s) -> ordered (currentSize s) s ->
  (forall y w, M !! y = Some w <-> assoc ids (distances s) y w) ->
  (forall y, y ∈ ids -> in_cells (currentSize s) s y) ->
  0 <= p <= alen ids -> sorted_ids (insert_cell p x ids) -> x ∉ ids ->
  returns (
    let n := currentSize s in
    ids ← arraycopy (containedIds s) p (containedIds s) (p + 1) (n - p);
    ids ← aset ids p x;
    ds ← arraycopy (distances s) p (distances s) (p + 1) (n - p);
    ds ← aset ds p d;
    arr ← aset (idHeapArray s) n x;
    pos ← arraycopy (heapPosition s) p (heapPosition s) (p + 1) (n - p);
    pos ← aset pos p n;
    s ← heapifyBottomUp n (mk ids ds pos arr n (SIZE_INCREASE s));
    Ok (mk (containedIds s) (distances s) (heapPosition s) (idHeapArray s) (n + 1)
           (SIZE_INCREASE s))) (fun s' => models s' (<[x := d]> M)).
Proof.
  intros Hok Hm Hinc Hlt Ho HM Hin Hp Hsorted Hx. pose proof Hok as (Hs & Hf & Hl1 & Hl2 & Hl3 & Hl4 & Hn & Hc).
  destruct (shift_in_ok (distances s) (currentSize s) p d) as (ds0 & ds & E1 & E2 & Hds); [lia .. |].
  destruct (shift_in_ok (heapPosition s) (currentSize s) p (currentSize s)) as (pos0 & pos & E3 & E4 & Hpos); [lia .. |].
  destruct (returns_elim _ _ (filled_insert ids (containedIds s) p x Hf ltac:(lia) Hp)) as (c & Ec & Hc1 & Hc2).
  apply bind_inv in Ec as (c0 & E5 & E6). rewrite Hm in E5. cbv zeta.
  rewrite E5, bind_ok, E6, bind_ok, E1, bind_ok, E2, bind_ok, aset_ok, bind_ok, E3, bind_ok, E4, bind_ok by lia.
  set (s1 := mk c ds pos _ _ _).
  assert (appended s s1 ids p x d) as Happ by (unfold appended; rewrite Hm; by split_and!).
  pose proof (queue_appended_ok ids s s1 p x d Hok Hm Hlt Hp Hsorted Happ) as Hok1.
  assert (forall i, 0 <= i < currentSize s -> prioOf s1 (idHeapArray s1).[i] = prioOf s (idHeapArray s).[i])
    as Hprio by (by apply (appended_prio ids s s1 p x d)).
  eapply returns_bind; [apply (queue_heapifyBottomUp_ok (insert_cell p x ids) (currentSize s + 1)); [done | lia | |] |].
  - intros i Hi Hij. pose proof (parent_bounds i ltac:(lia)). rewrite !Hprio by lia. apply Ho. lia.
  - intros i Hi Hpi. pose proof (parent_bounds i ltac:(lia)). lia.
  - cbv beta. intros s2 (Hok2 & (Ec & Ed & Es & Ei & Hfin) & Ho2). ret.
    exists (insert_cell p x ids). cbn [currentSize SIZE_INCREASE distances]. rewrite alen_insert_cell, Ei.
    split_and!; try done; try lia.
    + intros y w. rewrite Ed, (appended_assoc ids s s1 p x d Hp Happ), <-HM.
      destruct (decide (y = x)) as [-> | Hne].
      * rewrite lookup_insert_eq. split; [intros [= <-]; by left |]. intros [[_ ->] | Hc']; [done |].
        apply HM in Hc'. by apply assoc_mem in Hc'.
      * rewrite lookup_insert_ne by congruence. naive_solver.
    + intros y Hy. apply Hfin. by apply (queue_appended_cells ids s s1 p x d).
Qed.

Lemma queue_add_absent s M x d : models s M -> M !! x = None -> x < MAX_VALUE ->
  returns (add s x d) (fun s' => models s' (<[x := d]> M)).
Proof.
  intros (ids & Hok & Hl & Hinc & Ho & HM & Hin) Hx0 HxM.
  pose proof Hok as (Hs & Hf & Hl1 & Hl2 & Hl3 & Hl4 & Hn & Hc).
  assert (x ∉ ids) as Hx.
  { intros Hx. destruct (assoc_ex ids (distances s) x Hx) as [w Hw%HM]. congruence. }
  destruct (search_filled ids (containedIds s) x Hs Hf HxM) as [[Hb E] | (p & Ep & Hp & Hlo & Hhi)].
  { exfalso. apply Hx. rewrite <-E. by apply at_In. }
  pose proof (sorted_insert p x ids Hs HxM Hlo Hhi) as Hsorted.
  unfold add. rewrite Ep. destruct (Z.leb_spec 0 (- (p + 1))); [lia |].
  replace (insertionPoint (- (p + 1))) with p by (unfold insertionPoint; lia).
  destruct (Z.eqb_spec (currentSize s) (alen (idHeapArray s))) as [E | E].
  - eapply returns_bind; [by apply (grow_ok ids (currentSize s)) |]. cbv beta.
    intros s1 (Hok1 & Hlt & Es & Ei & Hd & Ha). cbv zeta. rewrite <-Es in Hok1, Hl.
    apply (queue_insert_ok s1 ids M x d p); try done; try lia.
    + intros i Hi. pose proof (parent_bounds i ltac:(lia)).
      assert (forall k, 0 <= k < currentSize s -> prioOf s1 (idHeapArray s1).[k] = prioOf s (idHeapArray s).[k])
        as Hsame.
      { intros k Hk. destruct (assoc_ex ids (distances s) _ (assoc_mem _ _ _ _ (Hc k Hk))) as [w Hw].
        rewrite (prio_assoc ids _ s _ w Hok Hw), Ha by lia. apply (prio_assoc _ _ s1 _ w Hok1).
        rewrite assoc_same; [exact Hw |]. intros j Hj. apply Hd. lia. }
      rewrite !Hsame by lia. apply Ho. lia.
    + intros y w. rewrite HM. apply assoc_same. intros j Hj. symmetry. apply Hd. lia.
    + intros y (k & Hk & <-)%Hin. exists k. split; [lia |]. apply Ha. lia.
  - rewrite bind_ok. cbv zeta. apply (queue_insert_ok s ids M x d p); try done; lia.
Qed.

(** [add] binds the id, if it is new or its distance does not grow. *)
Lemma queue_add_spec s M x d : models s M -> x < MAX_VALUE -> (forall d0, M !! x = Some d0 -> d <= d0) ->
  returns (add s x d) (fun s' => models s' (<[x := d]> M)).
Proof.
  intros Hm Hx Hle. destruct (M !! x) as [d0 |] eqn:E.
  - eapply queue_add_present; eauto.
  - by apply queue_add_absent.
Qed.

(** ** Runs *)

Inductive op := Add (x d : Z) | GetNext | IsEmpty | Reset.

Inductive out := ONone | OInt (x : Z) | OBool (b : bool).

Definition step (o : op) (s : t) : res (out * t) :=
  match o with
  | Add x d => s' ← add s x d; Ok (ONone, s')
  | GetNext => '(x, s') ← getNext s; Ok (OInt x, s')
  | IsEmpty => Ok (OBool (isEmpty s), s)
  | Reset => Ok (ONone, reset s)
  end.

Fixpoint run (os : list op) (s : t) : res (list out * t) :=
  match os with
  | [] => Ok ([], s)
  | o :: os' => '(x, s1) ← step o s; '(xs, s2) ← run os' s1; Ok (x :: xs, s2)
  end.

(** The abstract priority queue, which may answer any id of least distance. *)
Inductive astep : op -> gmap Z Z -> out -> gmap Z Z -> Prop :=
| astep_add M x d : astep (Add x d) M ONone (<[x := d]> M)
| astep_getNext M x d : M !! x = Some d -> (forall y d', M !! y = Some d' -> d <= d') ->
    astep GetNext M (OInt x) (delete x M)
| astep_isEmpty M : astep IsEmpty M (OBool (bool_decide (M = ∅))) M
| astep_reset M : astep Reset M ONone ∅.

Inductive asteps : list op -> gmap Z Z -> list out -> gmap Z Z -> Prop :=
| asteps_nil M : asteps [] M [] M
| asteps_cons o os M x M1 xs M2 : astep o M x M1 -> asteps os M1 xs M2 ->
    asteps (o :: os) M (x :: xs) M2.

(** The calls the heap is made for: an id below the padding value, whose distance is never
    raised, and [getNext] on a heap that is not empty. *)
Definition allowed (o : op) (M : gmap Z Z) : Prop :=
  match o with
  | Add x d => x < MAX_VALUE /\ forall d0, M !! x = Some d0 -> d <= d0
  | GetNext => M <> ∅
  | _ => True
  end.

Fixpoint safe (os : list op) (M : gmap Z Z) : Prop :=
  match os with
  | [] => True
  | o :: os' => allowed o M /\ forall x M', astep o M x M' -> safe os' M'
  end.

Lemma step_refines o s M : models s M -> allowed o M ->
  returns (step o s) (fun '(x, s') => exists M', astep o M x M' /\ models s' M').
Proof.
  intros Hm Ha. destruct o as [x d | | |]; cbn [step].
  - destruct Ha as [Hx Hd]. eapply returns_bind; [by apply (queue_add_spec s M) |].
    cbv beta. intros s' Hm'. ret. eexists. split; [constructor | done].
  - eapply returns_bind; [by apply (queue_getNext_spec s M) |]. intros [x s'] (d & Hx & Hmin & Hm').
    cbv beta iota. ret. exists (delete x M). split; [by econstructor | done].
  - ret. rewrite (queue_isEmpty_spec s M Hm). eexists. split; [constructor | done].
  - ret. eexists. split; [constructor |]. by eapply reset_spec.
Qed.

(** C22: DistanceHeap refines a priority queue: started from a heap that represents the finite map
    [M] of ids to distances, any sequence of [add] (of a new id, or of an id whose distance does
    not grow), [getNext] (not on an empty heap), [isEmpty] and [reset] runs without an exception,
    whatever growing and resorting of the parallel arrays it needs, and its outputs are those of
    the abstract queue, where [getNext] removes an id of least distance. *)
Theorem priority_queue_refines os : forall s M, models s M -> safe os M ->
  returns (run os s) (fun '(xs, s') => exists M', asteps os M xs M' /\ models s' M').
Proof.
  induction os as [|o os IH]; intros s M Hm Hs; cbn [run].
  { ret. exists M. split; [constructor | done]. }
  destruct Hs as [Ha Hsafe].
  eapply returns_bind; [by apply (step_refines o s M) |]. intros [x s1] (M1 & Hst & Hm1).
  cbv beta iota. eapply returns_bind; [by apply (IH s1 M1), Hsafe with x |].
  intros [xs s2] (M2 & Hsts & Hm2). cbv beta iota. ret. exists M2. split; [by econstructor | done].
Qed.

(** Four insertions into a heap of initial size 2, one of them again with a smaller distance. *)
Lemma priority_queue_refines_witness :
  returns (new 2 1) (fun s0 =>
    (fst <$> run [Add 7 30; Add 3 20; Add 5 40; Add 5 10; GetNext; IsEmpty; Reset; IsEmpty] s0)
      = Ok [ONone; ONone; ONone; ONone; OInt 5; OBool false; ONone; OBool true] /\
    returns (run [Add 7 30; Add 3 20; Add 5 40; Add 5 10; GetNext; IsEmpty; Reset; IsEmpty] s0)
      (fun '(xs, s') => exists M',
        asteps [Add 7 30; Add 3 20; Add 5 40; Add 5 10; GetNext; IsEmpty; Reset; IsEmpty] ∅ xs M' /\
        models s' M')).
Proof.
  destruct (new 2 1) as [s0 |] eqn:E; [| discriminate E].
  assert (models s0 ∅) as Hm.
  { pose proof (queue_new_spec 2 1) as Hn. rewrite E in Hn. apply Hn; lia. }
  injection E as <-. split; [vm_compute; reflexivity |].
  apply (priority_queue_refines _ _ ∅ Hm).
  repeat (match goal with
    | |- safe _ _ => split
    | |- forall x M', astep _ _ x M' -> _ => let H := fresh in intros ?x ?M' H; inversion H; subst; clear H
    end); cbn; try done.
  all: try (intros E; apply (f_equal (fun m => m !! 7)) in E; vm_compute in E; discriminate E).
  all: split; [unfold MAX_VALUE; lia |]; intros d0; vm_compute; intros [=]; subst; discriminate.
Defined.

(** [getNext] on an empty heap throws ArrayIndexOutOfBoundsException; on a heap that holds
    [M] it removes an id of least distance and nothing else. *)
Theorem getNext_least s M : models s M ->
  if bool_decide (M = ∅) then getNext s = Err ArrayIndexOutOfBounds
  else returns (getNext s) (fun '(x, s') => exists d, M !! x = Some d /\
    (forall y d', M !! y = Some d' -> d <= d') /\ models s' (delete x M)).
Proof.
  intros Hm. case_bool_decide as E; [| by apply queue_getNext_spec].
  apply getNext_empty. pose proof (queue_isEmpty_spec s M Hm) as He. rewrite bool_decide_true in He by done.
  unfold isEmpty in He. lia.
Qed.

Lemma getNext_least_witness :
  returns (s ← new 10 5; s ← add s 4 70; add s 9 20) (fun s =>
    fst <$> getNext s = Ok 9 /\
    returns (getNext s) (fun '(x, s') => exists d, (<[9 := 20]> (<[4 := 70]> ∅) : gmap Z Z) !! x = Some d /\
      (forall y d', (<[9 := 20]> (<[4 := 70]> ∅) : gmap Z Z) !! y = Some d' -> d <= d') /\
      models s' (delete x (<[9 := 20]> (<[4 := 70]> ∅))))).
Proof.
  eapply returns_bind; [apply (queue_new_spec 10 5); lia |]. cbv beta. intros s0 H0.
  eapply returns_bind; [apply (queue_add_spec s0 ∅ 4 70 H0); [unfold MAX_VALUE; lia | intros ?; by rewrite lookup_empty] |].
  cbv beta. intros s1 H1.
  eapply returns_mono; [apply (queue_add_spec s1 _ 9 20 H1); [unfold MAX_VALUE; lia |] |].
  { intros d0. rewrite lookup_insert_ne, lookup_empty by lia. done. }
  cbv beta. intros s2 H2.
  assert ((<[9 := 20]> (<[4 := 70]> ∅) : gmap Z Z) <> ∅) as Hne by (intros E; discriminate E).
  pose proof (getNext_least s2 _ H2) as H. rewrite bool_decide_false in H by done.
  split; [| exact H].
  destruct (getNext s2) as [[x s'] |]; [| done]. destruct H as (d & Hx & Hmin & _).
  assert (d <= 20) by (by apply (Hmin 9)). cbn. f_equal.
  apply lookup_insert_Some in Hx as [[<- _] | [_ Hx]]; [done |].
  apply lookup_insert_Some in Hx as [[_ <-] | [_ Hx]]; [lia | done].
Defined.
