(* ===== verification/RoutingResult.v ===== *)
(** * router/RoutingResult.java: what a router answers

    [D] is the type of the program's [double]s.  A result never computes with them: it copies
    coordinates and stores a time, so [D] stays abstract, with the constant [-1.0]. *)

From S2P Require Import Prelude.

Section result.
Context {D : Type}.

Record t := mk {
  path : option (list Z);
  pathCoordinates : option (list (list D));
  overallDistance : Z;
  calculationTimeInMs : D;
  routeFound : bool;
}.

(** The coordinates of a node: [Node.getLatitude]/[getLongitude] for the Dijkstra router,
    [HubLNodes.getLat]/[getLong] for the hub label router, as [useHubLabelRouter] says. *)
Record coordinates := {
  useHubLabelRouter : bool;
  nodeCoord : Z -> res (D * D);
  hubLNodesCoord : Z -> res (D * D);
}.

Definition coordOf (c : coordinates) (nodeIdx : Z) : res (list D) :=
  if negb (useHubLabelRouter c)
  then '(lat, lon) ← nodeCoord c nodeIdx; Ok [lat; lon]
  else '(lat, lon) ← hubLNodesCoord c nodeIdx; Ok [lat; lon].

Definition setPath (c : coordinates) (p : list Z) : res (list Z * list (list D)) :=
  coords ← forEach p (fun nodeIdx coords => coord ← coordOf c nodeIdx; Ok (coords ++ [coord])) [];
  Ok (p, coords).

(** The constructors, in the order of the source. *)
Definition newFoundTimed (c : coordinates) (p : list Z) (dist : Z) (time : D) : res t :=
  '(p, coords) ← setPath c p; Ok (mk (Some p) (Some coords) dist time true).

Definition newTimed (time : D) (found : bool) : t := mk None None 0 time found.

Definition newEmpty (minusOne : D) : t := mk None None 0 minusOne false.

Definition newFound (c : coordinates) (zero : D) (p : list Z) (dist : Z) (found : bool) : res t :=
  '(p, coords) ← setPath c p; Ok (mk (Some p) (Some coords) dist zero found).

Definition setCalculationTimeInMs (r : t) (time : D) : t :=
  mk (path r) (pathCoordinates r) (overallDistance r) time (routeFound r).

Definition getOverallDistance (r : t) : Z :=
  if negb (routeFound r) then -1 else overallDistance r.

(** ** Lemmas *)

(** [setPath] gives every node of the path its coordinates, in order. *)
Lemma setPath_ok c p (f : Z -> list D) :
  (forall x, x ∈ p -> coordOf c x = Ok (f x)) -> setPath c p = Ok (p, f <$> p).
Proof.
  intros Hc. unfold setPath.
  assert (forEach p (fun nodeIdx coords => coord ← coordOf c nodeIdx; Ok (coords ++ [coord])) []
            = Ok (f <$> p)) as ->; [| done].
  assert (forall l acc, (forall x, x ∈ l -> coordOf c x = Ok (f x)) ->
    forEach l (fun nodeIdx coords => coord ← coordOf c nodeIdx; Ok (coords ++ [coord])) acc
      = Ok (acc ++ (f <$> l))) as Hgen; [| by apply (Hgen p [])].
  induction l as [|x l IH]; intros acc Hl; cbn [forEach].
  { by rewrite app_nil_r. }
  rewrite Hl by set_solver. rewrite !bind_ok, IH by set_solver. by rewrite <-app_assoc.
Qed.
End result.
Arguments t : clear implicits.
Arguments coordinates : clear implicits.
