(* ===== verification/DijkstraGrid.v ===== *)
(** * dijkstragrid/Node.java, Edge.java and the adjacency array of Grid.java

    The static arrays that hold the grid graph for the Dijkstra router, and the graph they
    denote. *)

From S2P Require Import Prelude.

Section store.
Context {D : Type}.

(** Node.java *)
Record Node := mkNode { latitude : list D; longitude : list D }.

Definition getLatitude (nd : Node) (i : Z) : res D := aget (latitude nd) i.
Definition getLongitude (nd : Node) (i : Z) : res D := aget (longitude nd) i.
Definition nodeSize (nd : Node) : Z := alen (latitude nd).
End store.
Arguments Node : clear implicits.

(** Edge.java *)
Record Edge := mkEdge { startNode : list Z; destNode : list Z; dist : list Z }.

Definition edgeSize (e : Edge) : Z := alen (startNode e).
Definition getStart (e : Edge) (i : Z) : res Z := aget (startNode e) i.
Definition getDest (e : Edge) (i : Z) : res Z := aget (destNode e) i.
Definition getDist (e : Edge) (i : Z) : res Z := aget (dist e) i.

(** What the router reads: the number of nodes, [Grid.offset] and the edges. *)
Record graph := mkGraph { size : Z; offset : list Z; edges : Edge }.

(** ** The denoted graph *)

(** Edge [e] leaves node [u]. *)
Definition outgoing (g : graph) (u e : Z) : Prop := (offset g).[u] <= e < (offset g).[u + 1].

Definition edge (g : graph) (u v w : Z) : Prop :=
  0 <= u < size g /\ exists e, outgoing g u e /\ (destNode (edges g)).[e] = v /\ (dist (edges g)).[e] = w.

(** A walk from [s], with the list of its nodes, its last node and its total length. *)
Inductive walk (g : graph) (s : Z) : list Z -> Z -> Z -> Prop :=
| walk_here : walk g s [s] s 0
| walk_step l u d v w : walk g s l u d -> edge g u v w -> walk g s (l ++ [v]) v (d + w).

Definition reachable (g : graph) (s v : Z) : Prop := exists l d, walk g s l v d.

(** A consistent store: the offsets delimit the edges of each node, edges end in nodes, and no
    distance is negative or above [W]. *)
Record graph_ok (g : graph) (W : Z) : Prop := {
  ok_size : 0 <= size g;
  ok_offset : alen (offset g) = size g + 1;
  ok_lens : alen (dist (edges g)) = alen (destNode (edges g));
  ok_range : forall u, 0 <= u < size g ->
    0 <= (offset g).[u] <= (offset g).[u + 1] /\ (offset g).[u + 1] <= alen (destNode (edges g));
  ok_dest : forall e, 0 <= e < alen (destNode (edges g)) -> 0 <= (destNode (edges g)).[e] < size g;
  ok_dist : forall e, 0 <= e < alen (destNode (edges g)) -> 0 <= (dist (edges g)).[e] <= W;
}.

(** Every node that is reachable from [s] is reachable by a walk of length at most [E]. *)
Definition eccentricity_le (g : graph) (s E : Z) : Prop :=
  forall l v d, walk g s l v d -> exists l' d', walk g s l' v d' /\ d' <= E.

(** ** Lemmas *)

Section graph.
Context (g : graph) (W : Z) (Hg : graph_ok g W).

Lemma edge_bounds u v w : edge g u v w -> 0 <= u < size g /\ 0 <= v < size g /\ 0 <= w <= W.
Proof.
  intros [Hu (e & He & <- & <-)]. unfold outgoing in He.
  pose proof (ok_range g W Hg u Hu). split; [done |].
  split; [apply (ok_dest g W Hg) | apply (ok_dist g W Hg)]; lia.
Qed.

Lemma walk_nonneg s l v d : walk g s l v d -> 0 <= d.
Proof. induction 1 as [|l u d v w Hw IH He]; [lia |]. apply edge_bounds in He. lia. Qed.

Lemma walk_end_in s l v d : walk g s l v d -> v ∈ l.
Proof. destruct 1; set_solver. Qed.

Lemma walk_start_in s l v d : walk g s l v d -> s ∈ l.
Proof. induction 1; set_solver. Qed.

Lemma walk_nodes s l v d : walk g s l v d -> 0 <= s < size g -> Forall (fun x => 0 <= x < size g) l.
Proof.
  induction 1 as [|l u d v w Hw IH He]; intros Hs; [by constructor; [| constructor] |].
  apply Forall_app. split; [by apply IH |]. apply edge_bounds in He. constructor; [lia | constructor].
Qed.

Lemma walk_length s l v d : walk g s l v d -> d <= (alen l - 1) * W.
Proof.
  induction 1 as [|l u d v w Hw IH He]; [autorewrite with alen; lia |].
  apply edge_bounds in He. autorewrite with alen. nia.
Qed.

(** Distinct nodes: at most as many as the graph has. *)
Lemma nodup_length (l : list Z) n : 0 <= n -> NoDup l -> Forall (fun x => 0 <= x < n) l -> alen l <= n.
Proof.
  intros Hn Hnd Hall. assert (l ⊆+ seqZ 0 n) as Hsub.
  { apply NoDup_submseteq; [done |]. intros x Hx. rewrite Forall_forall in Hall.
    apply elem_of_seqZ. specialize (Hall x Hx). lia. }
  apply submseteq_length in Hsub. rewrite length_seqZ in Hsub. unfold alen. lia.
Qed.
End graph.
