(* ===== verification/DijkstraRouter.v ===== *)
(** * router/DijkstraRouter.java: Dijkstra's algorithm on the grid graph

    The operations follow the Java methods; the theorems say that [route] always returns, that
    the path it answers is a walk of the graph of the answered length, that no walk is
    shorter, and that it answers "no route" exactly when the destination cannot be reached. *)

From S2P Require Import Prelude RoutingResult DijkstraGrid DijkstraHeap.

Record t := mk {
  currDistanceToNode : list Z;
  previousNode : list Z;
  vertexHeap : DijkstraHeap.t;
  nodeTouched : list bool;
}.

Definition new (nodeSize : Z) : res t :=
  ds ← newArray 0 nodeSize;
  prev ← newArray 0 nodeSize;
  touched ← newArray false nodeSize;
  heap ← DijkstraHeap.new nodeSize;
  Ok (mk (fill ds MAX_VALUE) (fill prev (-1)) heap (fill touched false)).

Definition resetState (r : t) : res t :=
  heap ← DijkstraHeap.resetState (vertexHeap r);
  Ok (mk (fill (currDistanceToNode r) MAX_VALUE) (fill (previousNode r) (-1)) heap
         (fill (nodeTouched r) false)).

(** [vertexHeap.add(id)], which compares by the router's distances. *)
Definition heapAdd (r : t) (id : Z) : res t :=
  heap ← DijkstraHeap.add (currDistanceToNode r) (vertexHeap r) id;
  Ok (mk (currDistanceToNode r) (previousNode r) heap (nodeTouched r)).

(** The body of the loop over the outgoing edges of [nodeToHandleId]. *)
Definition relaxEdge (g : graph) (nodeToHandleId neighbourEdgeId : Z) (r : t) : res t :=
  destinationVertexId ← getDest (edges g) neighbourEdgeId;
  touched ← aget (nodeTouched r) destinationVertexId;
  if (touched : bool) then Ok r else
  d ← aget (currDistanceToNode r) nodeToHandleId;
  w ← getDist (edges g) neighbourEdgeId;
  let newDistance := iadd d w in
  old ← aget (currDistanceToNode r) destinationVertexId;
  if newDistance <? old then
    ds ← aset (currDistanceToNode r) destinationVertexId newDistance;
    prev ← aset (previousNode r) destinationVertexId nodeToHandleId;
    heapAdd (mk ds prev (vertexHeap r) (nodeTouched r)) destinationVertexId
  else Ok r.

(** The main loop; its answer is [routeFound]. *)
Fixpoint search (fuel : nat) (g : graph) (destNodeIdx : Z) (r : t) : res (bool * t) :=
  match fuel with
  | O => Err OutOfFuel
  | S fuel' =>
      if isEmpty (vertexHeap r) then Ok (false, r) else
      '(nodeToHandleId, heap) ← getNext (currDistanceToNode r) (vertexHeap r);
      touched ← aset (nodeTouched r) nodeToHandleId true;
      let r := mk (currDistanceToNode r) (previousNode r) heap touched in
      if nodeToHandleId =? destNodeIdx then Ok (true, r) else
      lo ← aget (offset g) nodeToHandleId;
      hi ← aget (offset g) (nodeToHandleId + 1);
      r ← forRange lo hi (relaxEdge g nodeToHandleId) r;
      search fuel' g destNodeIdx r
  end.

(** The nodes collected from the destination back to the start, before they are reversed. *)
Fixpoint collectPath (fuel : nat) (prev : list Z) (startNodeIdx curr : Z) (path : list Z)
    : res (list Z) :=
  match fuel with
  | O => Err OutOfFuel
  | S fuel' =>
      if curr =? startNodeIdx then Ok path else
      previousNodeIdx ← aget prev curr;
      collectPath fuel' prev startNodeIdx previousNodeIdx (path ++ [previousNodeIdx])
  end.

(** Everything [route] does before the main loop. *)
Definition start (r : t) (startNodeIdx : Z) : res t :=
  r ← resetState r;
  ds ← aset (currDistanceToNode r) startNodeIdx 0;
  prev ← aset (previousNode r) startNodeIdx startNodeIdx;
  heapAdd (mk ds prev (vertexHeap r) (nodeTouched r)) startNodeIdx.

(** [route]; [time] is the elapsed time read from the clock. *)
Definition route {D} (c : coordinates D) (time : D) (g : graph) (r : t)
    (startNodeIdx destNodeIdx : Z) : res (RoutingResult.t D * t) :=
  r ← start r startNodeIdx;
  '(routeFound, r) ← search (S (Z.to_nat (size g))) g destNodeIdx r;
  if (routeFound : bool) then
    path ← collectPath (S (Z.to_nat (size g))) (previousNode r) startNodeIdx destNodeIdx [destNodeIdx];
    d ← aget (currDistanceToNode r) destNodeIdx;
    result ← newFoundTimed c (rev path) d time;
    Ok (result, r)
  else Ok (newTimed time false, r).

(** The arrays of a router for [g]; their contents do not matter, [route] resets them. *)
Definition router_ok (g : graph) (r : t) : Prop :=
  alen (currDistanceToNode r) = size g /\ alen (previousNode r) = size g /\
  alen (nodeTouched r) = size g /\ alen (heapPosition (vertexHeap r)) = size g.

(** ** The invariant of the search *)

(** A walk whose steps are recorded in [prev]. *)
Inductive prevWalk (g : graph) (prev : list Z) (s : Z) : list Z -> Z -> Z -> Prop :=
| prevWalk_here : prevWalk g prev s [s] s 0
| prevWalk_step l u d v w : prevWalk g prev s l u d -> edge g u v w -> prev.[v] = u ->
    prevWalk g prev s (l ++ [v]) v (d + w).

(** The recorded shortest candidate for [x]: through touched nodes, without repetition. *)
Definition candidate (g : graph) (s : Z) (T : gset Z) (r : t) (x : Z) : Prop :=
  exists l, prevWalk g (previousNode r) s l x (currDistanceToNode r).[x] /\ NoDup l /\
    forall y, y ∈ l -> y = x \/ y ∈ T.

(** [T] is the set of touched nodes and [H] the set of nodes in the heap. *)
Record inv (g : graph) (s : Z) (T H : gset Z) (r : t) : Prop := {
  inv_ok : router_ok g r;
  inv_heap : models (currDistanceToNode r) (vertexHeap r) H T;
  inv_ordered : ordered (currDistanceToNode r) (vertexHeap r);
  inv_nodes : forall x, x ∈ H ∪ T -> 0 <= x < size g;
  inv_touched : forall x, 0 <= x < size g -> (nodeTouched r).[x] = bool_decide (x ∈ T);
  inv_known : forall x, 0 <= x < size g -> x ∉ H ∪ T -> (currDistanceToNode r).[x] = MAX_VALUE;
  inv_candidate : forall x, x ∈ H ∪ T -> candidate g s T r x;
  inv_monotone : forall u v, u ∈ T -> v ∈ H ->
    (currDistanceToNode r).[u] <= (currDistanceToNode r).[v];
  inv_start : s ∈ H ∪ T /\ (currDistanceToNode r).[s] = 0;
}.

(** Edge [e] of node [u] has been relaxed. *)
Definition relaxed (g : graph) (T H : gset Z) (r : t) (u e : Z) : Prop :=
  let v := (destNode (edges g)).[e] in
  v ∈ H ∪ T /\ (currDistanceToNode r).[v] <= (currDistanceToNode r).[u] + (dist (edges g)).[e].

(** All outgoing edges of the nodes in [R] have been relaxed. *)
Definition all_relaxed (g : graph) (R T H : gset Z) (r : t) : Prop :=
  forall u e, u ∈ R -> outgoing g u e -> relaxed g T H r u e.

Section proofs.
Context (g : graph) (W Emax : Z) (Hg : graph_ok g W) (Hover : Emax + W < MAX_VALUE).
Context (s : Z) (Hs : 0 <= s < size g) (Hecc : eccentricity_le g s Emax).

(** ** Recorded walks *)

Lemma prevWalk_walk prev l x d : prevWalk g prev s l x d -> walk g s l x d.
Proof. induction 1; [constructor | by econstructor]. Qed.

Lemma prevWalk_insert prev l x d v u : prevWalk g prev s l x d -> v ∉ l ->
  0 <= v < alen prev -> prevWalk g (<[Z.to_nat v := u]> prev) s l x d.
Proof.
  induction 1 as [|l y d x w Hw IH He Hp]; intros Hv Hb; [constructor |].
  apply not_elem_of_app in Hv as [Hvl Hvx]. econstructor; [by apply IH | done |].
  pose proof (edge_bounds g W Hg _ _ _ He). rewrite at_insert by lia.
  rewrite decide_False; [done |]. intros ->. set_solver +Hvx.
Qed.

Lemma candidate_bound T r x : candidate g s T r x ->
  0 <= (currDistanceToNode r).[x].
Proof. intros (l & Hw%prevWalk_walk & _). by apply (walk_nonneg g W Hg _ _ _ _ Hw). Qed.

(** The loop that collects the path follows the recorded walk back to the start. *)
Lemma collectPath_walk prev l x d : prevWalk g prev s l x d -> alen prev = size g ->
  NoDup l -> forall fuel path, alen l < Z.of_nat fuel ->
  collectPath fuel prev s x path = Ok (path ++ tail (rev l)).
Proof.
  intros Hw Hlen. induction Hw as [|l u d v w Hw IH He Hp]; intros Hnd fuel path Hfuel;
    try pose proof (alen_nonneg l); destruct fuel as [|fuel];
    autorewrite with alen in Hfuel; try lia; cbn [collectPath].
  { rewrite Z.eqb_refl. cbn. by rewrite app_nil_r. }
  pose proof (edge_bounds g W Hg _ _ _ He). pose proof (prevWalk_walk _ _ _ _ Hw) as Hw'.
  apply NoDup_app in Hnd as (Hnd & Hdisj & _).
  destruct (Z.eqb_spec v s) as [-> | Hne].
  { exfalso. apply (Hdisj s); [by eapply walk_start_in | set_solver +]. }
  rewrite aget_ok, bind_ok, Hp by lia. rewrite IH by (done || lia).
  rewrite rev_app_distr. cbn. rewrite <-app_assoc. cbn. do 2 f_equal.
  assert (exists l0, l = l0 ++ [u]) as [l0 ->] by (destruct Hw; [by exists [] | by eexists]).
  by rewrite rev_app_distr.
Qed.

(** ** One relaxation *)

(** The distances only ever decrease, and those of touched nodes are final. *)
Definition progress (T H H' : gset Z) (r r' : t) : Prop :=
  (forall x, x ∈ T -> (currDistanceToNode r').[x] = (currDistanceToNode r).[x]) /\
  (forall x, x ∈ H ∪ T -> x ∈ H' ∪ T /\ (currDistanceToNode r').[x] <= (currDistanceToNode r).[x]).

Lemma progress_refl T H r : progress T H H r r.
Proof. split; [done |]. intros; split; [done | lia]. Qed.

Lemma progress_trans T H H' H'' r r' r'' :
  progress T H H' r r' -> progress T H' H'' r' r'' -> progress T H H'' r r''.
Proof.
  intros [Ht1 Hp1] [Ht2 Hp2]. split.
  - intros x Hx. by rewrite Ht2, Ht1.
  - intros x Hx. destruct (Hp1 x Hx) as [Hx' ?]. destruct (Hp2 x Hx'). split; [done | lia].
Qed.

Lemma relaxed_progress T H H' r r' u e : u ∈ T ->
  progress T H H' r r' -> relaxed g T H r u e -> relaxed g T H' r' u e.
Proof.
  intros Hu [Ht Hp] [Hv Hd]. destruct (Hp _ Hv) as [Hv' Hd']. split; [done |].
  rewrite (Ht u Hu). lia.
Qed.

(** The router after the shorter distance [nd] to [v] over [u] has been recorded. *)
Definition lowerTo (r : t) (u v nd : Z) : t :=
  mk (<[Z.to_nat v := nd]> (currDistanceToNode r)) (<[Z.to_nat v := u]> (previousNode r))
     (vertexHeap r) (nodeTouched r).

Definition withHeap (r : t) (heap : DijkstraHeap.t) : t :=
  mk (currDistanceToNode r) (previousNode r) heap (nodeTouched r).

(** [u] is the node being expanded: touched last, at the largest distance so far. *)
Definition expanding (T : gset Z) (r : t) (u : Z) : Prop :=
  u ∈ T /\ forall x, x ∈ T -> (currDistanceToNode r).[x] <= (currDistanceToNode r).[u].

Lemma lowerTo_dist r u v nd x : 0 <= v < alen (currDistanceToNode r) -> 0 <= x ->
  (currDistanceToNode (lowerTo r u v nd)).[x] =
    if decide (v = x) then nd else (currDistanceToNode r).[x].
Proof. intros Hv Hx. cbn [lowerTo currDistanceToNode]. by rewrite at_insert. Qed.

Lemma lower_candidate T H r u v w : inv g s T H r -> u ∈ T -> v ∉ T -> edge g u v w ->
  let nd := (currDistanceToNode r).[u] + w in
  forall x, x ∈ ({[v]} ∪ H) ∪ T -> candidate g s T (lowerTo r u v nd) x.
Proof.
  intros Hinv Hu Hv He nd x Hx. destruct (inv_ok _ _ _ _ _ Hinv) as (Hld & Hlp & _).
  pose proof (edge_bounds g W Hg _ _ _ He) as (Hub & Hvb & _).
  destruct (decide (v = x)) as [<- | Hne].
  - destruct (inv_candidate _ _ _ _ _ Hinv u) as (l & Hw & Hnd & Hl); [set_solver +Hu |].
    assert (v ∉ l) as Hvl by (intros Hin; destruct (Hl v Hin) as [-> | ?]; done).
    exists (l ++ [v]). rewrite lowerTo_dist, decide_True by (done || lia). split_and!.
    + econstructor; [apply prevWalk_insert; [exact Hw | done | lia] | done |].
      cbn [lowerTo previousNode]. by rewrite at_insert, decide_True by (done || lia).
    + apply NoDup_app. split_and!; [done | | apply NoDup_singleton].
      intros y Hy ->%list_elem_of_singleton. done.
    + intros y [Hy | ->%list_elem_of_singleton]%elem_of_app; [right | by left].
      by destruct (Hl y Hy) as [-> | ?].
  - destruct (inv_candidate _ _ _ _ _ Hinv x) as (l & Hw & Hnd & Hl); [set_solver +Hx Hne |].
    assert (0 <= x < size g) as Hxb
      by (apply (inv_nodes _ _ _ _ _ Hinv); set_solver +Hx Hne).
    exists l. rewrite lowerTo_dist, decide_False by (done || lia). split_and!; [| done | done].
    apply prevWalk_insert; [done | | lia]. intros Hin. destruct (Hl v Hin); congruence.
Qed.

(** Recording the shorter distance and updating the heap preserves the invariant. *)
Lemma lower_inv T H r u v w heap : inv g s T H r -> expanding T r u -> v ∉ T -> edge g u v w ->
  let nd := (currDistanceToNode r).[u] + w in
  let r' := lowerTo r u v nd in
  nd < (currDistanceToNode r).[v] ->
  models (currDistanceToNode r') heap ({[v]} ∪ H) T -> ordered (currDistanceToNode r') heap ->
  inv g s T ({[v]} ∪ H) (withHeap r' heap) /\ progress T H ({[v]} ∪ H) r (withHeap r' heap).
Proof.
  intros Hinv [Hu Hmax] Hv He nd r' Hlt Hm Ho.
  pose proof (edge_bounds g W Hg _ _ _ He) as (Hub & Hvb & Hwb).
  pose proof (inv_ok _ _ _ _ _ Hinv) as (Hld & Hlp & Hlt' & Hlh).
  pose proof (lower_candidate T H r u v w Hinv Hu Hv He) as Hcand.
  assert (forall x, 0 <= x -> (currDistanceToNode r').[x] =
    if decide (v = x) then nd else (currDistanceToNode r).[x]) as Hd
    by (intros; apply lowerTo_dist; lia).
  assert (forall x, x ∈ H ∪ T -> 0 <= x < size g) as Hnodes by apply (inv_nodes _ _ _ _ _ Hinv).
  destruct (inv_start _ _ _ _ _ Hinv) as [Hsin Hs0].
  assert (0 <= (currDistanceToNode r).[u]) as Hdu.
  { apply (candidate_bound T r u), (inv_candidate _ _ _ _ _ Hinv). set_solver +Hu. }
  split; [split; cbn [withHeap currDistanceToNode previousNode vertexHeap nodeTouched] |].
  - split_and!; cbn [withHeap lowerTo currDistanceToNode previousNode vertexHeap nodeTouched r'];
      autorewrite with alen; try done.
    destruct Hm as ((-> & _) & _). unfold r'. cbn [lowerTo currDistanceToNode]. by autorewrite with alen.
  - done.
  - done.
  - intros x Hx. destruct (decide (x = v)) as [-> | Hne]; [done |]. apply Hnodes. set_solver +Hx Hne.
  - apply (inv_touched _ _ _ _ _ Hinv).
  - intros x Hx Hnot. rewrite Hd by lia. rewrite decide_False by set_solver +Hnot.
    apply (inv_known _ _ _ _ _ Hinv); [done | set_solver +Hnot].
  - exact Hcand.
  - intros x y Hx Hy. assert (0 <= x < size g) as Hxb by (apply Hnodes; set_solver +Hx).
    assert (0 <= y) as Hyb.
    { destruct (decide (y = v)) as [-> |]; [lia |]. apply Hnodes. set_solver +Hy n. }
    rewrite !Hd by lia. rewrite (decide_False (P := v = x)) by (intros ->; done).
    case_decide as E; [specialize (Hmax x Hx); unfold nd; lia |].
    apply (inv_monotone _ _ _ _ _ Hinv); [done | set_solver +Hy E].
  - split; [set_solver +Hsin |]. rewrite Hd by lia. case_decide as E; [| done].
    subst v. rewrite Hs0 in Hlt. unfold nd in *. lia.
  - split; cbn [withHeap currDistanceToNode].
    + intros x Hx. assert (0 <= x < size g) by (apply Hnodes; set_solver +Hx).
      rewrite Hd, decide_False by (lia || intros ->; done). done.
    + intros x Hx. split; [set_solver +Hx |]. specialize (Hnodes x Hx). rewrite Hd by lia.
      case_decide; subst; lia.
Qed.

Lemma relaxEdge_spec T H r u e : inv g s T H r -> expanding T r u -> outgoing g u e ->
  0 <= u < size g -> (currDistanceToNode r).[u] <= Emax ->
  returns (relaxEdge g u e r) (fun r' =>
    exists H', inv g s T H' r' /\ progress T H H' r r' /\ relaxed g T H' r' u e).
Proof.
  intros Hinv Hexp Hout Hub HE. pose proof Hexp as [Hu Hmax].
  pose proof (inv_ok _ _ _ _ _ Hinv) as (Hld & Hlp & Hlt & Hlh).
  set (v := (destNode (edges g)).[e]). set (w := (dist (edges g)).[e]).
  assert (edge g u v w) as He by (split; [done | by exists e]).
  pose proof (edge_bounds g W Hg _ _ _ He) as (_ & Hvb & Hwb).
  assert (0 <= e < alen (destNode (edges g))) as Heb.
  { unfold outgoing in Hout. pose proof (ok_range g W Hg u Hub). lia. }
  pose proof (ok_lens g W Hg) as Hlens.
  assert (0 <= (currDistanceToNode r).[u]) as Hdu.
  { apply (candidate_bound T r u), (inv_candidate _ _ _ _ _ Hinv). set_solver +Hu. }
  unfold relaxEdge, getDest, getDist. jsteps. fold v. jsteps.
  rewrite (inv_touched _ _ _ _ _ Hinv) by done.
  case_bool_decide as HvT.
  { ret. exists H. split_and!; [done | apply progress_refl |]. split; [set_solver +HvT |].
    fold v w. specialize (Hmax v HvT). lia. }
  jsteps. fold v w. jsteps.
  rewrite iadd_id by (unfold is_int, MIN_VALUE, MAX_VALUE in *; lia).
  destruct (Z.ltb_spec ((currDistanceToNode r).[u] + w) (currDistanceToNode r).[v]) as [Hless | Hge].
  - jsteps.
    fold (lowerTo r u v ((currDistanceToNode r).[u] + w)). set (r' := lowerTo _ _ _ _).
    unfold heapAdd. eapply returns_bind.
    { change (vertexHeap r') with (vertexHeap r).
      apply (add_spec (currDistanceToNode r') (currDistanceToNode r) (vertexHeap r) H T v).
      - destruct (inv_heap _ _ _ _ _ Hinv) as ((Hp & Hn & Hc) & Hrest). unfold models, cells_ok.
        unfold r'. cbn [lowerTo currDistanceToNode]. rewrite alen_insert. exact (conj (conj Hp (conj Hn Hc)) Hrest).
      - apply (inv_ordered _ _ _ _ _ Hinv).
      - split_and!; unfold r'; cbn [lowerTo currDistanceToNode]; [by autorewrite with alen | |].
        + intros y Hy Hne. rewrite at_insert, decide_False by (lia || congruence). done.
        + intros _. rewrite at_insert, decide_True by (lia || done). lia.
      - unfold r'. cbn [lowerTo currDistanceToNode]. autorewrite with alen. lia.
      - done. }
    cbv beta. intros heap [Hm Ho]. ret. exists ({[v]} ∪ H).
    destruct (lower_inv T H r u v w heap Hinv Hexp HvT He Hless Hm Ho) as [Hinv' Hprog].
    split_and!; [exact Hinv' | exact Hprog |]. split; [fold v; set_solver + |]. fold v w.
    cbn [withHeap currDistanceToNode]. change (currDistanceToNode (mk _ _ _ _)) with (currDistanceToNode r').
    unfold r'. rewrite !lowerTo_dist, decide_True by (done || lia).
    case_decide as E; [subst; done | lia].
  - ret. exists H. split_and!; [done | apply progress_refl |]. fold v w. split; fold v w; [| lia].
    destruct (decide (v ∈ H ∪ T)) as [? | Hnot]; [done |]. exfalso.
    rewrite (inv_known _ _ _ _ _ Hinv v) in Hge by done. lia.
Qed.

(** ** Expanding a node *)

Lemma expanding_progress T H H' r r' u : progress T H H' r r' -> expanding T r u -> expanding T r' u.
Proof.
  intros [Ht _] [Hu Hmax]. split; [done |]. intros x Hx. rewrite !Ht by done. by apply Hmax.
Qed.

(** A walk either stays within the relaxed nodes, whose distances are then no longer than it,
    or leaves them through the heap, whose distances are at least [M]. *)
Lemma walk_bounded T H R r M : inv g s T H r -> R ⊆ T -> all_relaxed g R T H r ->
  (forall x, x ∈ (H ∪ T) ∖ R -> M <= (currDistanceToNode r).[x]) ->
  forall l x w, walk g s l x w ->
  (x ∈ H ∪ T /\ (currDistanceToNode r).[x] <= w) \/ M <= w.
Proof.
  intros Hinv HR Hrel HM l x w Hw. destruct (inv_start _ _ _ _ _ Hinv) as [Hs0 Hd0].
  induction Hw as [|l u d v w Hw IH He].
  { left. split; [done | lia]. }
  pose proof (edge_bounds g W Hg _ _ _ He) as (_ & _ & Hwb).
  destruct IH as [[Hu Hdu] | ?]; [| right; lia].
  destruct (decide (u ∈ R)) as [HuR | HuR].
  - left. destruct He as (_ & e & Hout & <- & <-).
    destruct (Hrel u e HuR Hout) as [Hv Hdv]. split; [done | lia].
  - right. specialize (HM u). rewrite elem_of_difference in HM. specialize (HM (conj Hu HuR)). lia.
Qed.

(** The distance of the node that is expanded is the shortest. *)
Lemma expanding_shortest T H r u : inv g s T H r -> expanding T r u ->
  all_relaxed g (T ∖ {[u]}) T H r -> forall l w, walk g s l u w -> (currDistanceToNode r).[u] <= w.
Proof.
  intros Hinv [Hu Hmax] Hrel l w Hw.
  destruct (walk_bounded T H (T ∖ {[u]}) r (currDistanceToNode r).[u] Hinv) with l u w as [[_ ?] | ?];
    [set_solver + | done | | done | done | done].
  intros x Hx. destruct (decide (x ∈ T)) as [HxT |].
  - assert (x = u) as -> by (destruct (decide (x = u)); set_solver). lia.
  - apply (inv_monotone _ _ _ _ _ Hinv); [done | set_solver].
Qed.

Lemma expanding_bound T H r u : inv g s T H r -> expanding T r u ->
  all_relaxed g (T ∖ {[u]}) T H r -> (currDistanceToNode r).[u] <= Emax.
Proof.
  intros Hinv Hexp Hrel. destruct (inv_candidate _ _ _ _ _ Hinv u) as (l & Hw & _).
  { destruct Hexp as [Hu _]. set_solver +Hu. }
  destruct (Hecc _ _ _ (prevWalk_walk _ _ _ _ Hw)) as (l' & w' & Hw' & ?).
  pose proof (expanding_shortest T H r u Hinv Hexp Hrel l' w' Hw'). lia.
Qed.

Lemma expand_spec T H r u : inv g s T H r -> expanding T r u -> 0 <= u < size g ->
  all_relaxed g (T ∖ {[u]}) T H r ->
  returns (forRange (offset g).[u] (offset g).[u + 1] (relaxEdge g u) r) (fun r' =>
    exists H', inv g s T H' r' /\ all_relaxed g T T H' r').
Proof.
  intros Hinv Hexp Hub Hrel. pose proof (ok_range g W Hg u Hub) as [[Hr0 Hr1] Hr2].
  pose proof (expanding_bound T H r u Hinv Hexp Hrel) as HE.
  eapply returns_mono.
  - apply (forRange_inv (fun e r' => exists H', inv g s T H' r' /\ progress T H H' r r' /\
      forall e', (offset g).[u] <= e' < e -> relaxed g T H' r' u e')); [lia | |].
    + exists H. split_and!; [done | apply progress_refl |]. intros e' [??]. lia.
    + intros e r1 He (H1 & Hinv1 & Hp1 & Hrel1).
      eapply returns_mono; [apply (relaxEdge_spec T H1 r1 u e); try done|].
      * by eapply expanding_progress.
      * destruct Hp1 as [Ht1 _]. rewrite Ht1; [done | apply Hexp].
      * cbv beta. intros r2 (H2 & Hinv2 & Hp2 & Hrel2). exists H2.
        split_and!; [done | by eapply progress_trans |]. intros e' He'.
        destruct (decide (e' = e)) as [-> |]; [done |].
        eapply relaxed_progress; [apply Hexp | exact Hp2 |]. apply Hrel1. lia.
  - cbv beta. intros r' (H' & Hinv' & Hp & Hrel'). exists H'. split; [done |].
    intros x e Hx Hout. destruct (decide (x = u)) as [-> |]; [by apply Hrel' |].
    eapply relaxed_progress; [done | exact Hp |]. apply Hrel; [set_solver +Hx n | done].
Qed.

(** ** Taking the closest node off the heap *)

Definition touch (r : t) (x : Z) (heap : DijkstraHeap.t) : t :=
  mk (currDistanceToNode r) (previousNode r) heap (<[Z.to_nat x := true]> (nodeTouched r)).

Lemma touch_inv T H r x heap : inv g s T H r -> x ∈ H ->
  (forall y, y ∈ H -> (currDistanceToNode r).[x] <= (currDistanceToNode r).[y]) ->
  models (currDistanceToNode r) heap (H ∖ {[x]}) ({[x]} ∪ T) ->
  ordered (currDistanceToNode r) heap ->
  inv g s ({[x]} ∪ T) (H ∖ {[x]}) (touch r x heap) /\
  expanding ({[x]} ∪ T) (touch r x heap) x.
Proof.
  intros Hinv Hx Hmin Hm Ho. pose proof (inv_ok _ _ _ _ _ Hinv) as (Hld & Hlp & Hlt & Hlh).
  assert (H ∖ {[x]} ∪ ({[x]} ∪ T) = H ∪ T) as Hun.
  { apply set_eq. intros y. destruct (decide (y = x)); set_solver +Hx n || set_solver +Hx e. }
  assert (0 <= x < size g) as Hxb by (apply (inv_nodes _ _ _ _ _ Hinv); set_solver +Hx).
  split; [split; rewrite ?Hun; cbn [touch currDistanceToNode previousNode vertexHeap nodeTouched] |].
  - split_and!; cbn [touch currDistanceToNode previousNode vertexHeap nodeTouched];
      autorewrite with alen; try done. destruct Hm as ((-> & _) & _). done.
  - done.
  - done.
  - apply (inv_nodes _ _ _ _ _ Hinv).
  - intros y Hy. rewrite at_insert by lia. rewrite (inv_touched _ _ _ _ _ Hinv) by done.
    case_decide as E; [subst; symmetry; apply bool_decide_eq_true; set_solver + |].
    apply bool_decide_ext. set_solver +E.
  - apply (inv_known _ _ _ _ _ Hinv).
  - intros y Hy. destruct (inv_candidate _ _ _ _ _ Hinv y Hy) as (l & Hw & Hnd & Hl).
    exists l. split_and!; [done | done |]. intros z Hz. destruct (Hl z Hz); [by left | right; set_solver].
  - intros u v Hu Hv. destruct (decide (u = x)) as [-> |].
    + apply Hmin. set_solver +Hv.
    + apply (inv_monotone _ _ _ _ _ Hinv); [set_solver +Hu n | set_solver +Hv].
  - apply (inv_start _ _ _ _ _ Hinv).
  - split; [set_solver + |]. cbn [touch currDistanceToNode]. intros y Hy.
    destruct (decide (y = x)) as [-> |]; [lia |].
    apply (inv_monotone _ _ _ _ _ Hinv); [set_solver +Hy n | done].
Qed.

Lemma touch_relaxed R T H r x heap : x ∈ H -> all_relaxed g R T H r ->
  all_relaxed g R ({[x]} ∪ T) (H ∖ {[x]}) (touch r x heap).
Proof.
  intros Hx Hrel u e Hu Hout. destruct (Hrel u e Hu Hout) as [Hv Hd]. split; [| done].
  destruct (decide ((destNode (edges g)).[e] = x)); set_solver.
Qed.

Lemma touched_bound T H r : inv g s T H r -> Z.of_nat (base.size T) <= size g.
Proof.
  intros Hinv. unfold base.size, set_size. cbn.
  apply (nodup_length (elements T) (size g) (ok_size g W Hg) (NoDup_elements T)).
  apply Forall_forall. intros x Hx%elem_of_elements. apply (inv_nodes _ _ _ _ _ Hinv). set_solver +Hx.
Qed.

(** ** The search *)

Definition search_post (dest : Z) (out : bool * t) : Prop :=
  let '(found, r') := out in exists T' H', inv g s T' H' r' /\
    if found : bool then dest ∈ T' /\ expanding T' r' dest /\ all_relaxed g (T' ∖ {[dest]}) T' H' r'
    else H' = ∅ /\ dest ∉ T' /\ all_relaxed g T' T' H' r'.

Lemma size_touched x (T : gset Z) : x ∉ T ->
  Z.of_nat (base.size ({[x]} ∪ T)) = 1 + Z.of_nat (base.size T).
Proof. intros Hx. rewrite size_union by set_solver +Hx. rewrite size_singleton. lia. Qed.

Lemma search_spec dest : forall fuel T H r, inv g s T H r -> all_relaxed g T T H r -> dest ∉ T ->
  size g - Z.of_nat (base.size T) < Z.of_nat fuel ->
  returns (search fuel g dest r) (search_post dest).
Proof.
  induction fuel as [|fuel IH]; intros T H r Hinv Hrel Hdest Hfuel.
  { pose proof (touched_bound T H r Hinv). lia. }
  cbn [search]. pose proof (inv_heap _ _ _ _ _ Hinv) as Hm. rewrite (isEmpty_spec _ _ _ _ Hm).
  case_bool_decide as HH.
  { ret. exists T, H. by split_and!. }
  eapply returns_bind; [apply (getNext_spec _ _ _ _ Hm (inv_ordered _ _ _ _ _ Hinv) HH) |].
  intros [x heap] (Hx & Hmin & Hm' & Ho'). cbv beta iota.
  destruct (touch_inv T H r x heap Hinv Hx Hmin Hm' Ho') as [Hinv' Hexp].
  pose proof (inv_ok _ _ _ _ _ Hinv) as (Hld & Hlp & Hlt & Hlh).
  assert (0 <= x < size g) as Hxb by (apply (inv_nodes _ _ _ _ _ Hinv); set_solver +Hx).
  assert (x ∉ T) as HxT by (destruct Hm as (_ & Hdisj & _); set_solver +Hx Hdisj).
  pose proof (touch_relaxed T T H r x heap Hx Hrel) as Hrel'.
  assert (({[x]} ∪ T) ∖ {[x]} = T) as Hsub by (apply leibniz_equiv; set_solver +HxT).
  jsteps. fold (touch r x heap). destruct (Z.eqb_spec x dest) as [-> | Hne].
  { ret. exists ({[dest]} ∪ T), (H ∖ {[dest]}). rewrite Hsub.
    split_and!; [done | set_solver + | done | done]. }
  pose proof (ok_offset g W Hg) as Hoff. jsteps.
  eapply returns_bind; [apply (expand_spec _ _ _ _ Hinv' Hexp Hxb); by rewrite Hsub |].
  cbv beta. intros r2 (H2 & Hinv2 & Hrel2).
  apply (IH ({[x]} ∪ T) H2 r2 Hinv2 Hrel2); [set_solver +Hne Hdest |].
  rewrite size_touched by done. lia.
Qed.

(** ** The start of a search *)

Lemma start_spec r : router_ok g r ->
  returns (start r s) (fun r' => inv g s ∅ {[s]} r' /\ all_relaxed g ∅ ∅ {[s]} r').
Proof.
  intros (Hld & Hlp & Hlt & Hlh). unfold start, resetState.
  destruct (vertexHeap r) as [hp ha cs] eqn:Ehp. rewrite bind_assoc_res.
  set (dist1 := <[Z.to_nat s := 0]> (fill (currDistanceToNode r) MAX_VALUE)).
  eapply returns_bind.
  { apply (resetState_spec dist1). unfold dist1. autorewrite with alen. cbn [heapPosition] in *. lia. }
  cbv beta. intros heap [Hm Ho]. rewrite bind_ok. cbn [currDistanceToNode previousNode vertexHeap nodeTouched].
  jsteps. fold dist1. unfold heapAdd. cbn [currDistanceToNode previousNode vertexHeap nodeTouched].
  eapply returns_bind.
  { apply (add_spec dist1 dist1 heap ∅ ∅ s Hm Ho); [| | set_solver +].
    - split_and!; [done | done |]. set_solver +.
    - unfold dist1. autorewrite with alen. lia. }
  cbv beta. intros heap' [Hm' Ho']. ret. rewrite (right_id_L ∅ (∪)) in Hm'.
  split; [| intros u e Hu; set_solver +Hu].
  assert (dist1.[s] = 0) as Hd1 by (unfold dist1; rewrite at_insert, decide_True; autorewrite with alen; done || lia).
  split; cbn [currDistanceToNode previousNode vertexHeap nodeTouched]; try done.
  - split_and!; cbn [currDistanceToNode previousNode vertexHeap nodeTouched]; unfold dist1;
      autorewrite with alen; try done. destruct Hm' as ((Hl & _) & _). rewrite Hl.
    unfold dist1. by autorewrite with alen.
  - intros x Hx. assert (x = s) as -> by set_solver +Hx. done.
  - intros x Hx. rewrite at_fill by lia. rewrite bool_decide_false by set_solver +. done.
  - intros x Hx Hnot. unfold dist1. rewrite at_insert by (autorewrite with alen; lia).
    rewrite decide_False by set_solver +Hnot. apply at_fill. lia.
  - intros x Hx. assert (x = s) as -> by set_solver +Hx. exists [s].
    cbn [currDistanceToNode previousNode]. rewrite Hd1.
    split_and!; [constructor | apply NoDup_singleton |]. set_solver +.
  - split; [set_solver + | done].
Qed.

(** ** The answer *)

(** [res] answers a request from [s] to [dest]: a repetition-free walk of the graph with its
    coordinates and its length, than which no walk is shorter. *)
Definition answers {D} (f : Z -> list D) (dest : Z) (res : RoutingResult.t D) : Prop :=
  exists l, path res = Some l /\ pathCoordinates res = Some (f <$> l) /\ NoDup l /\
    walk g s l dest (overallDistance res) /\
    forall l' w', walk g s l' dest w' -> overallDistance res <= w'.

Lemma route_correct {D} (c : coordinates D) (f : Z -> list D) time r dest :
  router_ok g r -> 0 <= dest < size g -> (forall x, 0 <= x < size g -> coordOf c x = Ok (f x)) ->
  returns (route c time g r s dest) (fun '(res, r') => router_ok g r' /\
    calculationTimeInMs res = time /\
    if routeFound res then answers f dest res
    else path res = None /\ ~ reachable g s dest).
Proof.
  intros Hok Hdest Hc. unfold route.
  eapply returns_bind; [by apply start_spec |]. cbv beta. intros r0 [Hinv0 Hrel0].
  eapply returns_bind.
  { apply (search_spec dest _ ∅ {[s]} r0 Hinv0 Hrel0); [set_solver + |].
    rewrite size_empty. pose proof (ok_size g W Hg). lia. }
  intros [found r1] (T & H & Hinv & Hpost). cbv beta iota.
  pose proof (inv_ok _ _ _ _ _ Hinv) as (Hld & Hlp & _).
  destruct found.
  - destruct Hpost as (HdT & Hexp & Hrel).
    destruct (inv_candidate _ _ _ _ _ Hinv dest) as (l & Hw & Hnd & _); [set_solver +HdT |].
    pose proof (prevWalk_walk _ _ _ _ Hw) as Hw'.
    pose proof (walk_nodes g W Hg _ _ _ _ Hw' Hs) as Hall.
    pose proof (nodup_length l (size g) (ok_size g W Hg) Hnd Hall) as Hlen.
    rewrite (collectPath_walk _ l dest _ Hw) by (done || lia). rewrite bind_ok. jsteps.
    assert (rev ([dest] ++ tail (rev l)) = l) as ->.
    { assert (exists l0, l = l0 ++ [dest]) as [l0 ->] by (destruct Hw; [by exists [] | by eexists]).
      rewrite (rev_app_distr l0 [dest]). cbn. by rewrite rev_involutive. }
    unfold newFoundTimed. rewrite (setPath_ok c l f), !bind_ok.
    2:{ intros x Hx. apply Hc. rewrite Forall_forall in Hall. by apply Hall. }
    ret. split_and!; [by apply (inv_ok _ _ _ _ _ Hinv) | done |]. cbn [routeFound].
    exists l. cbn [path pathCoordinates overallDistance]. split_and!; try done.
    by apply (expanding_shortest T H r1 dest Hinv Hexp Hrel).
  - destruct Hpost as (-> & HdT & Hrel). ret.
    split_and!; [by apply (inv_ok _ _ _ _ _ Hinv) | done |]. cbn [newTimed routeFound path].
    split; [done |]. intros (l & w & Hw).
    destruct (walk_bounded T ∅ T r1 (w + 1) Hinv) with l dest w as [[Hin _] | ?];
      [done | done | set_solver + | done | | lia].
    set_solver +Hin HdT.
Qed.
End proofs.

(** ** Properties *)

(** C13: On a consistent graph, and as long as the longest shortest path and one more edge stay
    below [Integer.MAX_VALUE], [route] always returns, whatever the router's arrays held before;
    when it answers that a route was found, the path is a repetition-free walk of the graph from
    the start to the destination with the coordinates of its nodes, [overallDistance] is its
    length, and no walk between the two nodes is shorter. *)
Theorem route_shortest {D} (c : coordinates D) (f : Z -> list D) time g W Emax r s dest :
  graph_ok g W -> Emax + W < MAX_VALUE -> eccentricity_le g s Emax ->
  router_ok g r -> 0 <= s < size g -> 0 <= dest < size g ->
  (forall x, 0 <= x < size g -> coordOf c x = Ok (f x)) ->
  returns (route c time g r s dest) (fun '(res, r') => router_ok g r' /\
    (routeFound res = true -> answers g s f dest res)).
Proof.
  intros. eapply returns_mono; [by eapply route_correct |].
  intros [res r'] (? & _ & Hif). cbv beta iota. split; [done |]. intros E. by rewrite E in Hif.
Qed.

(** C14: [route] answers "route found" exactly when the destination can be reached in the graph,
    and answers no path otherwise. *)
Theorem route_complete {D} (c : coordinates D) (f : Z -> list D) time g W Emax r s dest :
  graph_ok g W -> Emax + W < MAX_VALUE -> eccentricity_le g s Emax ->
  router_ok g r -> 0 <= s < size g -> 0 <= dest < size g ->
  (forall x, 0 <= x < size g -> coordOf c x = Ok (f x)) ->
  returns (route c time g r s dest) (fun '(res, _) =>
    (routeFound res = true <-> reachable g s dest) /\
    (routeFound res = false -> path res = None /\ getOverallDistance res = -1)).
Proof.
  intros. eapply returns_mono; [by eapply route_correct |].
  intros [res r'] (_ & _ & Hif). cbv beta iota. unfold getOverallDistance.
  destruct (routeFound res).
  - destruct Hif as (l & _ & _ & _ & Hw & _). split; [| done]. split; [| done].
    intros _. by exists l, (overallDistance res).
  - destruct Hif as [Hp Hr]. split; [split; [done | intros; done] | done].
Qed.

(** ** A concrete graph: a square 0-1-3-2 with a shortcut 0-2-1, and the unconnected node 4. *)

Definition sampleGraph : graph :=
  mkGraph 5 [0; 2; 3; 5; 5; 5] (mkEdge [0; 0; 1; 2; 2] [1; 2; 3; 1; 3] [10; 2; 4; 3; 20]).

Definition sampleCoordinates : coordinates Z :=
  {| useHubLabelRouter := false; nodeCoord := fun x => Ok (x, x + 100);
     hubLNodesCoord := fun _ => Err NullPointer |}.

Definition sampleRouter : t :=
  mk (replicate 5 0) (replicate 5 0) (DijkstraHeap.mk (replicate 5 0) [] 0) (replicate 5 true).

Lemma sampleGraph_ok : graph_ok sampleGraph 20.
Proof.
  split; try done.
  - intros u Hu. cbn in Hu. assert (u ∈ [0; 1; 2; 3; 4]) as Hin by (rewrite !elem_of_cons; lia).
    cbn. clear Hu; revert u Hin. apply Forall_forall. repeat constructor; vm_compute; congruence.
  - intros e He. cbn in He. unfold alen in He. cbn in He.
    assert (e ∈ [0; 1; 2; 3; 4]) as Hin by (rewrite !elem_of_cons; lia).
    clear He; revert e Hin. apply Forall_forall. repeat constructor; vm_compute; congruence.
  - intros e He. cbn in He. unfold alen in He. cbn in He.
    assert (e ∈ [0; 1; 2; 3; 4]) as Hin by (rewrite !elem_of_cons; lia).
    clear He; revert e Hin. apply Forall_forall. repeat constructor; vm_compute; congruence.
Qed.

Lemma sample_step l u d v w e : walk sampleGraph 0 l u d -> 0 <= u < 5 ->
  outgoing sampleGraph u e -> (destNode (edges sampleGraph)).[e] = v ->
  (dist (edges sampleGraph)).[e] = w -> walk sampleGraph 0 (l ++ [v]) v (d + w).
Proof. intros Hw Hu Ho Hv Hd. econstructor; [done |]. split; [exact Hu |]. by exists e. Qed.

Lemma sample_walks : walk sampleGraph 0 [0] 0 0 /\ walk sampleGraph 0 [0; 2] 2 2 /\
  walk sampleGraph 0 [0; 2; 1] 1 5 /\ walk sampleGraph 0 [0; 2; 1; 3] 3 9.
Proof.
  assert (walk sampleGraph 0 [0] 0 0) as H0 by constructor.
  assert (walk sampleGraph 0 [0; 2] 2 2) as H2.
  { by apply (sample_step [0] 0 0 2 2 1). }
  assert (walk sampleGraph 0 [0; 2; 1] 1 5) as H1.
  { by apply (sample_step [0; 2] 2 2 1 3 3). }
  assert (walk sampleGraph 0 [0; 2; 1; 3] 3 9) as H3.
  { by apply (sample_step [0; 2; 1] 1 5 3 4 2). }
  done.
Qed.

Lemma sample_eccentricity : eccentricity_le sampleGraph 0 9.
Proof.
  destruct sample_walks as (H0 & H2 & H1 & H3).
  intros l v d Hw. assert (v ∈ [0; 1; 2; 3]) as Hv.
  { destruct Hw as [|l u d v w _ [Hu (e & He & <- & _)]]; [set_solver |].
    assert (0 <= e < 5) as Hb.
    { pose proof (ok_range _ _ sampleGraph_ok u Hu). unfold outgoing in He. cbn in *.
      unfold alen in *. cbn in *. lia. }
    assert (e ∈ [0; 1; 2; 3; 4]) as Hin by (rewrite !elem_of_cons; lia).
    clear He Hb; revert e Hin. apply Forall_forall. repeat constructor; vm_compute; set_solver. }
  clear Hw; revert v Hv. apply Forall_forall. repeat constructor.
  - exists [0], 0. split; [exact H0 | lia].
  - exists [0; 2; 1], 5. split; [exact H1 | lia].
  - exists [0; 2], 2. split; [exact H2 | lia].
  - exists [0; 2; 1; 3], 9. split; [exact H3 | lia].
Qed.

Lemma sample_coordinates x : 0 <= x < 5 -> coordOf sampleCoordinates x = Ok [x; x + 100].
Proof. done. Qed.

(** The route from 0 to 3 goes over 2 and 1 and has length 9. *)
Lemma route_shortest_witness :
  (fst <$> (route sampleCoordinates 7 sampleGraph sampleRouter 0 3 : res _)) =
    Ok (RoutingResult.mk (Some [0; 2; 1; 3])
          (Some [[0; 100]; [2; 102]; [1; 101]; [3; 103]]) 9 7 true) /\
  returns (route sampleCoordinates 7 sampleGraph sampleRouter 0 3) (fun '(res, r') =>
    router_ok sampleGraph r' /\
    (routeFound res = true -> answers sampleGraph 0 (fun x => [x; x + 100]) 3 res)).
Proof.
  split; [vm_compute; reflexivity |].
  apply (route_shortest sampleCoordinates (fun x => [x; x + 100]) 7 sampleGraph 20 9 sampleRouter 0 3 sampleGraph_ok);
    [done | apply sample_eccentricity | done | done | done | apply sample_coordinates].
Defined.

(** Node 4 cannot be reached from node 0. *)
Lemma route_complete_witness :
  returns (route sampleCoordinates 7 sampleGraph sampleRouter 0 4) (fun '(res, _) =>
    (routeFound res = true <-> reachable sampleGraph 0 4) /\
    (routeFound res = false -> path res = None /\ getOverallDistance res = -1)).
Proof.
  apply (route_complete sampleCoordinates (fun x => [x; x + 100]) 7 sampleGraph 20 9 sampleRouter 0 4 sampleGraph_ok);
    [done | apply sample_eccentricity | done | done | done | apply sample_coordinates].
Defined.
