(* ===== verification/Edges.v ===== *)
(** * hublablecreation/Edges.java: original edges and the shortcuts added to them

    All data of one edge is found at the same index.  Ids below [numOfOriginalEdges] are edges of
    the grid, the ids from there on are shortcuts in the order in which they were added. *)

From S2P Require Import Prelude.

Record t := mk {
  originalEdgeStart : list Z;
  originalEdgeDest : list Z;
  originalEdgeDist : list Z;
  numOfOriginalEdges : Z;
  shortcutEdgeStart : list Z;
  shortcutEdgeDest : list Z;
  shortcutEdgeDist : list Z;
  shortcutEdgeParts : list Z;
  nextShortcutId : Z;
  shortcutEdgeSizeIncrease : Z;
}.

Definition getDest (s : t) (i : Z) : res Z :=
  if i <? numOfOriginalEdges s then aget (originalEdgeDest s) i
  else aget (shortcutEdgeDest s) (i - numOfOriginalEdges s).

Definition getDist (s : t) (i : Z) : res Z :=
  if i <? numOfOriginalEdges s then aget (originalEdgeDist s) i
  else aget (shortcutEdgeDist s) (i - numOfOriginalEdges s).

(** The integer division by 2 truncates; the number of edges is not negative. *)
Definition initializeForShortcutEdges (s : t) (numOfOriginalEdges : Z) : res t :=
  let inc := Z.quot numOfOriginalEdges 2 in
  st ← newArray 0 inc;
  de ← newArray 0 inc;
  di ← newArray 0 inc;
  pa ← newArray 0 (inc * 2);
  Ok (mk (originalEdgeStart s) (originalEdgeDest s) (originalEdgeDist s) numOfOriginalEdges
         st de di pa numOfOriginalEdges inc).

Definition grow (s : t) : res t :=
  let oldLen := alen (shortcutEdgeDist s) in
  st ← copyOf 0 (shortcutEdgeStart s) (oldLen + shortcutEdgeSizeIncrease s);
  de ← copyOf 0 (shortcutEdgeDest s) (oldLen + shortcutEdgeSizeIncrease s);
  di ← copyOf 0 (shortcutEdgeDist s) (oldLen + shortcutEdgeSizeIncrease s);
  pa ← copyOf 0 (shortcutEdgeParts s) ((oldLen + shortcutEdgeSizeIncrease s) * 2);
  Ok (mk (originalEdgeStart s) (originalEdgeDest s) (originalEdgeDist s) (numOfOriginalEdges s)
         st de di pa (nextShortcutId s) (shortcutEdgeSizeIncrease s)).

Definition addShortcutEdge (s : t) (start dest dist firstEdgeUsed secondEdgeUsed : Z) : res (Z * t) :=
  let nextArrayPosition := nextShortcutId s - numOfOriginalEdges s in
  s ← (if alen (shortcutEdgeDist s) - 1 <? nextArrayPosition then grow s else Ok s);
  st ← aset (shortcutEdgeStart s) nextArrayPosition start;
  de ← aset (shortcutEdgeDest s) nextArrayPosition dest;
  di ← aset (shortcutEdgeDist s) nextArrayPosition dist;
  pa ← aset (shortcutEdgeParts s) (nextArrayPosition * 2) firstEdgeUsed;
  pa ← aset pa (nextArrayPosition * 2 + 1) secondEdgeUsed;
  let edgeId := nextShortcutId s in
  Ok (edgeId, mk (originalEdgeStart s) (originalEdgeDest s) (originalEdgeDist s)
                 (numOfOriginalEdges s) st de di pa (iadd (nextShortcutId s) 1)
                 (shortcutEdgeSizeIncrease s)).

(** ** Representation: the list of the shortcuts that were added *)

Record shortcut := mkShortcut {
  scStart : Z; scDest : Z; scDist : Z; scFirst : Z; scSecond : Z;
}.

#[export] Instance shortcut_inhabited : Inhabited shortcut := populate (mkShortcut 0 0 0 0 0).

Definition models (s : t) (l : list shortcut) : Prop :=
  0 <= numOfOriginalEdges s /\ nextShortcutId s = numOfOriginalEdges s + alen l /\
  alen (originalEdgeStart s) = numOfOriginalEdges s /\
  alen (originalEdgeDest s) = numOfOriginalEdges s /\
  alen (originalEdgeDist s) = numOfOriginalEdges s /\
  alen l <= alen (shortcutEdgeDist s) /\
  alen (shortcutEdgeStart s) = alen (shortcutEdgeDist s) /\
  alen (shortcutEdgeDest s) = alen (shortcutEdgeDist s) /\
  alen (shortcutEdgeParts s) = alen (shortcutEdgeDist s) * 2 /\
  forall k, 0 <= k < alen l ->
    (shortcutEdgeStart s).[k] = scStart l.[k] /\ (shortcutEdgeDest s).[k] = scDest l.[k] /\
    (shortcutEdgeDist s).[k] = scDist l.[k] /\ (shortcutEdgeParts s).[k * 2] = scFirst l.[k] /\
    (shortcutEdgeParts s).[k * 2 + 1] = scSecond l.[k].

Definition originals (s s' : t) : Prop :=
  originalEdgeStart s' = originalEdgeStart s /\ originalEdgeDest s' = originalEdgeDest s /\
  originalEdgeDist s' = originalEdgeDist s /\ numOfOriginalEdges s' = numOfOriginalEdges s /\
  shortcutEdgeSizeIncrease s' = shortcutEdgeSizeIncrease s.

(** ** Lemmas *)

Lemma copyOf_larger (a : list Z) n : alen a <= n ->
  returns (copyOf 0 a n) (fun b => alen b = n /\ forall k, 0 <= k < alen a -> b.[k] = a.[k]).
Proof.
  intros Hn. unfold copyOf. pose proof (alen_nonneg a). destruct (Z.ltb_spec n 0); [lia |]. ret.
  rewrite take_ge by lens. split; [lens |]. intros k Hk. by rewrite at_app_l.
Qed.

Lemma initialize_models s n : 0 <= n -> alen (originalEdgeStart s) = n ->
  alen (originalEdgeDest s) = n -> alen (originalEdgeDist s) = n ->
  returns (initializeForShortcutEdges s n) (fun s' =>
    models s' [] /\ shortcutEdgeSizeIncrease s' = n / 2).
Proof.
  intros Hn H1 H2 H3. unfold initializeForShortcutEdges, newArray.
  rewrite Z.quot_div_nonneg by lia. assert (0 <= n / 2) by dlia.
  destruct (Z.ltb_spec (n / 2) 0); [lia |]. destruct (Z.ltb_spec (n / 2 * 2) 0); [lia |].
  rewrite !bind_ok. ret. split; [| done].
  unfold models. cbn. rewrite !alen_replicate by lia.
  split_and!; try done; try lia; [unfold alen; cbn; lia |]. intros k Hk. unfold alen in Hk. cbn in Hk. lia.
Qed.

Lemma edges_grow s l : models s l -> 0 < shortcutEdgeSizeIncrease s ->
  returns (if alen (shortcutEdgeDist s) - 1 <? alen l then grow s else Ok s) (fun s' =>
    models s' l /\ originals s s' /\ alen l < alen (shortcutEdgeDist s')).
Proof.
  intros Hm Hi. destruct (Z.ltb_spec (alen (shortcutEdgeDist s) - 1) (alen l)).
  2:{ ret. split_and!; [done | done | lia]. }
  destruct Hm as (H0 & Hn & H1 & H2 & H3 & H4 & H5 & H6 & H7 & Hl). unfold grow.
  eapply returns_bind; [apply copyOf_larger; lia |]. cbv beta. intros st [Hst Est].
  eapply returns_bind; [apply copyOf_larger; lia |]. cbv beta. intros de [Hde Ede].
  eapply returns_bind; [apply copyOf_larger; lia |]. cbv beta. intros di [Hdi Edi].
  eapply returns_bind; [apply copyOf_larger; lia |]. cbv beta. intros pa [Hpa Epa]. ret.
  split; [| split; [done | cbn; lia]].
  unfold models. cbn. split_and!; try done; try lia. intros k Hk.
  rewrite Est, Ede, Edi, !Epa by lia. by apply Hl.
Qed.

Lemma addShortcutEdge_models s l x : models s l -> 0 < shortcutEdgeSizeIncrease s ->
  nextShortcutId s < MAX_VALUE ->
  returns (addShortcutEdge s (scStart x) (scDest x) (scDist x) (scFirst x) (scSecond x))
    (fun '(id, s') => id = nextShortcutId s /\ models s' (l ++ [x]) /\ originals s s').
Proof.
  intros Hm Hi Hmax. unfold addShortcutEdge.
  assert (nextShortcutId s - numOfOriginalEdges s = alen l) as E by (destruct Hm; lia).
  rewrite E. eapply returns_bind; [by apply (edges_grow s l) |]. cbv beta.
  intros s1 (Hm1 & Ho & Hlt). pose proof Hm as (_ & Hn0 & _).
  destruct Hm1 as (H0 & Hn & H1 & H2 & H3 & H4 & H5 & H6 & H7 & Hl).
  pose proof (alen_nonneg l). destruct Ho as (Ho1 & Ho2 & Ho3 & Ho4 & Ho5).
  jsteps. ret. split; [lia |]. split; [| by unfold originals].
  unfold models. cbn. autorewrite with alen.
  rewrite iadd_id by (unfold is_int, MIN_VALUE, MAX_VALUE in *; lia).
  split_and!; try done; try lia. intros k Hk.
  rewrite !at_insert by (autorewrite with alen; lia).
  destruct (decide (alen l = k)) as [<- | Hne].
  - rewrite (decide_False (P := alen l * 2 + 1 = alen l * 2)) by lia.
    rewrite !decide_True by done. rewrite at_app_r, Z.sub_diag by lia. done.
  - rewrite !decide_False by lia. rewrite !at_app_l by lia. apply Hl. lia.
Qed.

Lemma getDest_shortcut s l k : models s l -> 0 <= k < alen l ->
  getDest s (numOfOriginalEdges s + k) = Ok (scDest l.[k]).
Proof.
  intros (H0 & Hn & H1 & H2 & H3 & H4 & H5 & H6 & H7 & Hl) Hk. unfold getDest.
  destruct (Z.ltb_spec (numOfOriginalEdges s + k) (numOfOriginalEdges s)); [lia |].
  rewrite aget_ok by lia. f_equal. replace (_ + k - _) with k by lia. by apply Hl.
Qed.

Lemma getDist_shortcut s l k : models s l -> 0 <= k < alen l ->
  getDist s (numOfOriginalEdges s + k) = Ok (scDist l.[k]).
Proof.
  intros (H0 & Hn & H1 & H2 & H3 & H4 & H5 & H6 & H7 & Hl) Hk. unfold getDist.
  destruct (Z.ltb_spec (numOfOriginalEdges s + k) (numOfOriginalEdges s)); [lia |].
  rewrite aget_ok by lia. f_equal. replace (_ + k - _) with k by lia. by apply Hl.
Qed.

(** Where edge [i] starts; the class has no method for that. *)
Definition src (s : t) (i : Z) : Z :=
  if i <? numOfOriginalEdges s then (originalEdgeStart s).[i] else (shortcutEdgeStart s).[i - numOfOriginalEdges s].

Lemma src_shortcut s l k : models s l -> 0 <= k < alen l -> src s (numOfOriginalEdges s + k) = scStart l.[k].
Proof.
  intros (_ & _ & _ & _ & _ & _ & _ & _ & _ & Hl) Hk. unfold src.
  destruct (Z.ltb_spec (numOfOriginalEdges s + k) (numOfOriginalEdges s)); [lia |].
  replace (_ + k - _) with k by lia. by apply Hl.
Qed.

Lemma src_original s s' i : originals s s' -> i < numOfOriginalEdges s -> src s' i = src s i.
Proof. intros (H1 & _ & _ & H4 & _) Hi. unfold src. rewrite H1, H4. by destruct (Z.ltb_spec i (numOfOriginalEdges s)); [| lia]. Qed.

(** The start of the new shortcut is stored, those of the earlier edges are kept. *)
Lemma src_added s s' l x i : models s l -> models s' (l ++ [x]) -> originals s s' -> i <= nextShortcutId s ->
  src s' i = if decide (i = nextShortcutId s) then scStart x else src s i.
Proof.
  intros Hm Hm' Ho Hi. pose proof Hm as (_ & En & _). pose proof Ho as (_ & _ & _ & E4 & _). pose proof (alen_nonneg l).
  destruct (decide (i < numOfOriginalEdges s)) as [Hlt | Hge].
  { rewrite decide_False by lia. by apply src_original. }
  assert (exists k, 0 <= k <= alen l /\ i = numOfOriginalEdges s + k) as (k & Hk & ->) by (exists (i - numOfOriginalEdges s); lia).
  rewrite <-E4, (src_shortcut s' _ k Hm') by (rewrite alen_app; change (alen [x]) with 1; lia). rewrite E4.
  case_decide as E.
  - replace k with (alen l) by lia. by rewrite at_app_r, Z.sub_diag by lia.
  - rewrite at_app_l by lia. symmetry. apply (src_shortcut s l); [done | lia].
Qed.

Lemma addShortcutEdge_ok s l x : models s l -> 0 < shortcutEdgeSizeIncrease s ->
  nextShortcutId s < MAX_VALUE ->
  returns (addShortcutEdge s (scStart x) (scDest x) (scDist x) (scFirst x) (scSecond x))
    (fun '(id, s') => id = numOfOriginalEdges s + alen l /\ models s' (l ++ [x]) /\
      getDest s' id = Ok (scDest x) /\ getDist s' id = Ok (scDist x) /\
      (forall i, i < id -> getDest s' i = getDest s i /\ getDist s' i = getDist s i) /\ originals s s').
Proof.
  intros Hm Hi Hmax. eapply returns_mono; [by apply addShortcutEdge_models |].
  intros [id s'] (-> & Hm' & Ho). pose proof Hm as (_ & Hn & _). rewrite Hn.
  pose proof Ho as (Ho1 & Ho2 & Ho3 & Ho4 & Ho5). pose proof (alen_nonneg l).
  split; [done |]. split; [done |]. split; [| split; [| split; [| done]]].
  - rewrite <-Ho4, (getDest_shortcut s' _ _ Hm') by (autorewrite with alen; lia).
    by rewrite at_app_r, Z.sub_diag by lia.
  - rewrite <-Ho4, (getDist_shortcut s' _ _ Hm') by (autorewrite with alen; lia).
    by rewrite at_app_r, Z.sub_diag by lia.
  - intros i Hlt. destruct (decide (i < numOfOriginalEdges s)) as [Hs | Hs].
    + unfold getDest, getDist. rewrite Ho4, Ho2, Ho3. by destruct (Z.ltb_spec i (numOfOriginalEdges s)); [| lia].
    + assert (exists k, 0 <= k < alen l /\ i = numOfOriginalEdges s + k) as (k & Hk & ->)
        by (exists (i - numOfOriginalEdges s); lia).
      rewrite (getDest_shortcut s l), (getDist_shortcut s l) by done.
      rewrite <-Ho4, (getDest_shortcut s' _ k Hm'), (getDist_shortcut s' _ k Hm')
        by (autorewrite with alen; lia).
      by rewrite at_app_l by lia.
Qed.

(** ** Properties *)

(** [addShortcutEdge] hands out the next free id, stores the shortcut under it (growing the
    arrays when they are full) and leaves the destination and distance of every earlier id, of
    original edges and shortcuts alike, as they were. *)
Theorem addShortcutEdge_fresh s l x : models s l -> 0 < shortcutEdgeSizeIncrease s ->
  nextShortcutId s < MAX_VALUE ->
  returns (addShortcutEdge s (scStart x) (scDest x) (scDist x) (scFirst x) (scSecond x))
    (fun '(id, s') => id = numOfOriginalEdges s + alen l /\ models s' (l ++ [x]) /\
      getDest s' id = Ok (scDest x) /\ getDist s' id = Ok (scDist x) /\
      forall i, i < id -> getDest s' i = getDest s i /\ getDist s' i = getDist s i).
Proof.
  intros Hm Hi Hmax. eapply returns_mono; [by apply (addShortcutEdge_ok s l x) |].
  intros [id s'] (H1 & H2 & H3 & H4 & H5 & _). done.
Qed.

(** When there is at most one original edge the size increase is 0, so the first shortcut
    already throws ArrayIndexOutOfBoundsException: growing does not make room. *)
Theorem addShortcutEdge_no_room s n s0 a b c d e : 0 <= n <= 1 ->
  initializeForShortcutEdges s0 n = Ok s -> addShortcutEdge s a b c d e = Err ArrayIndexOutOfBounds.
Proof.
  intros Hn. assert (n = 0 \/ n = 1) as [-> | ->] by lia; intros [= <-]; reflexivity.
Qed.

(** ** Witnesses *)

Definition sampleEdges : t := mk [0; 1; 2] [1; 2; 0] [5; 6; 7] 3 [] [] [] [] 0 0.

Definition sampleStore : t := mk [0; 1; 2] [1; 2; 0] [5; 6; 7] 3 [0] [0] [0] [0; 0] 3 1.

Lemma addShortcutEdge_fresh_witness :
  initializeForShortcutEdges sampleEdges 3 = Ok sampleStore /\
  returns (addShortcutEdge sampleStore 0 2 11 1 0) (fun '(id, s') =>
    id = numOfOriginalEdges sampleStore + alen ([] : list shortcut) /\
    models s' ([] ++ [mkShortcut 0 2 11 1 0]) /\ getDest s' id = Ok 2 /\ getDist s' id = Ok 11 /\
    forall i, i < id -> getDest s' i = getDest sampleStore i /\ getDist s' i = getDist sampleStore i).
Proof.
  split; [reflexivity |].
  apply (addShortcutEdge_fresh sampleStore [] (mkShortcut 0 2 11 1 0)); [| done | done].
  by destruct (initialize_models sampleEdges 3 ltac:(lia) eq_refl eq_refl eq_refl).
Defined.

Lemma addShortcutEdge_no_room_witness :
  addShortcutEdge (mk [0] [1] [5] 1 [] [] [] [] 1 0) 0 0 5 0 0 = Err ArrayIndexOutOfBounds.
Proof.
  apply (addShortcutEdge_no_room _ 1 (mk [0] [1] [5] 0 [] [] [] [] 0 0)); [lia | reflexivity].
Defined.
