(* ===== verification/HubLEdges.v ===== *)
(** * hublabeldata/HubLEdges.java: the edges of the hub label router

    Destination and distance of every edge, and the two parts of every shortcut.  An edge stands
    for the original edges it unpacks to; [edges_ok] says that shortcuts are made of earlier edges
    that meet, and then every edge unpacks to a chain of original edges of its own length. *)

From S2P Require Import Prelude Edges.

Record t := mk {
  dest : list Z;
  dist : list Z;
  firstShortcutIdx : Z;
  shortcutParts : list Z;
}.

Definition getDest (s : t) (edgeId : Z) : res Z := aget (dest s) edgeId.
Definition getDist (s : t) (edgeId : Z) : res Z := aget (dist s) edgeId.
Definition isShortcut (s : t) (edgeId : Z) : bool := firstShortcutIdx s <=? edgeId.

Definition getSecondShortcut (s : t) (edgeId : Z) : res Z :=
  let idx := (edgeId - firstShortcutIdx s) * 2 in
  aget (shortcutParts s) idx.

Definition getFirstShortcut (s : t) (edgeId : Z) : res Z :=
  let idx := (edgeId - firstShortcutIdx s) * 2 + 1 in
  aget (shortcutParts s) idx.

(** [initialize], reading the static arrays of [Edges]. *)
Definition initialize (e : Edges.t) : res t :=
  let edgeCount := nextShortcutId e in
  de ← newArray 0 edgeCount;
  di ← newArray 0 edgeCount;
  let originalEdgeCount := numOfOriginalEdges e in
  let shortcutCount := edgeCount - originalEdgeCount in
  pa ← newArray 0 (shortcutCount * 2);
  de ← arraycopy (originalEdgeDest e) 0 de 0 originalEdgeCount;
  di ← arraycopy (originalEdgeDist e) 0 di 0 originalEdgeCount;
  de ← arraycopy (shortcutEdgeDest e) 0 de originalEdgeCount (edgeCount - originalEdgeCount);
  di ← arraycopy (shortcutEdgeDist e) 0 di originalEdgeCount (edgeCount - originalEdgeCount);
  pa ← arraycopy (shortcutEdgeParts e) 0 pa 0 (shortcutCount * 2);
  Ok (mk de di originalEdgeCount pa).

(** ** The parts of a shortcut *)

Definition secondPart (s : t) (e : Z) : Z := (shortcutParts s).[(e - firstShortcutIdx s) * 2].
Definition firstPart (s : t) (e : Z) : Z := (shortcutParts s).[(e - firstShortcutIdx s) * 2 + 1].

Definition edge_id (s : t) (e : Z) : Prop := 0 <= e < alen (dest s).

(** [src] gives the start of every edge, which the class does not store. *)
Record edges_ok (s : t) (src : Z -> Z) : Prop := {
  edges_first : 0 <= firstShortcutIdx s <= alen (dest s);
  edges_dist : alen (dist s) = alen (dest s);
  edges_parts : alen (shortcutParts s) = (alen (dest s) - firstShortcutIdx s) * 2;
  edges_nonneg : forall e, edge_id s e -> 0 <= (dist s).[e];
  edges_split : forall e, edge_id s e -> isShortcut s e = true ->
    0 <= firstPart s e < e /\ 0 <= secondPart s e < e /\
    src (firstPart s e) = src e /\ (dest s).[firstPart s e] = src (secondPart s e) /\
    (dest s).[secondPart s e] = (dest s).[e] /\
    (dist s).[e] = (dist s).[firstPart s e] + (dist s).[secondPart s e];
}.

(** Edge [e] unpacks to the original edges [l]. *)
Inductive unpacks (s : t) : Z -> list Z -> Prop :=
| unpacks_original e : edge_id s e -> isShortcut s e = false -> unpacks s e [e]
| unpacks_shortcut e l1 l2 : edge_id s e -> isShortcut s e = true ->
    unpacks s (firstPart s e) l1 -> unpacks s (secondPart s e) l2 -> unpacks s e (l1 ++ l2).

(** [l] leads from [u] to [v]. *)
Fixpoint chain (s : t) (src : Z -> Z) (u : Z) (l : list Z) (v : Z) : Prop :=
  match l with
  | [] => u = v
  | e :: l' => edge_id s e /\ src e = u /\ chain s src (dest s).[e] l' v
  end.

Definition distOf (s : t) (l : list Z) : Z := foldr (fun e d => (dist s).[e] + d) 0 l.

Section unpack.
Context (s : t) (src : Z -> Z) (Hok : edges_ok s src).

Lemma getFirstShortcut_ok e : edge_id s e -> isShortcut s e = true ->
  getFirstShortcut s e = Ok (firstPart s e).
Proof.
  unfold edge_id, isShortcut, getFirstShortcut. intros He Hs.
  pose proof (edges_parts _ _ Hok). by rewrite aget_ok by lia.
Qed.

Lemma getSecondShortcut_ok e : edge_id s e -> isShortcut s e = true ->
  getSecondShortcut s e = Ok (secondPart s e).
Proof.
  unfold edge_id, isShortcut, getSecondShortcut. intros He Hs.
  pose proof (edges_parts _ _ Hok). by rewrite aget_ok by lia.
Qed.

Lemma chain_app u l1 w l2 v : chain s src u l1 w -> chain s src w l2 v -> chain s src u (l1 ++ l2) v.
Proof.
  revert u. induction l1 as [|e l1 IH]; cbn; intros u H1 H2; [by subst |].
  destruct H1 as (? & ? & ?). auto.
Qed.

Lemma distOf_app l1 l2 : distOf s (l1 ++ l2) = distOf s l1 + distOf s l2.
Proof. induction l1 as [|e l1 IH]; cbn in *; unfold distOf in *; lia. Qed.

(** Every edge unpacks, to a chain between its ends of its length. *)
Lemma unpack_exists e : edge_id s e ->
  exists l, unpacks s e l /\ chain s src (src e) l (dest s).[e] /\ distOf s l = (dist s).[e].
Proof.
  induction e as [e IH] using (well_founded_induction (Z.lt_wf 0)). intros He.
  destruct (isShortcut s e) eqn:Es.
  - destruct (edges_split _ _ Hok e He Es) as (H1 & H2 & Hs1 & Hm & Hs2 & Hd).
    unfold edge_id in *.
    destruct (IH (firstPart s e)) as (l1 & U1 & C1 & D1); [lia | lia |].
    destruct (IH (secondPart s e)) as (l2 & U2 & C2 & D2); [lia | lia |].
    exists (l1 ++ l2). split; [by constructor |]. split.
    + rewrite Hs1 in C1. rewrite Hm in C1. rewrite Hs2 in C2. by eapply chain_app.
    + rewrite distOf_app. lia.
  - exists [e]. split; [by constructor |]. split; [done |]. unfold distOf. cbn. lia.
Qed.

Lemma unpacks_fun e l1 l2 : unpacks s e l1 -> unpacks s e l2 -> l1 = l2.
Proof.
  intros H. revert l2. induction H; inversion 1; subst; try congruence.
  f_equal; auto.
Qed.

Lemma unpacks_chain e l : unpacks s e l ->
  edge_id s e /\ chain s src (src e) l (dest s).[e] /\ distOf s l = (dist s).[e].
Proof.
  intros H. assert (edge_id s e) as He by (by destruct H).
  split; [done |]. destruct (unpack_exists e He) as (l' & Hu & ?).
  by rewrite (unpacks_fun _ _ _ H Hu).
Qed.

Lemma unpacks_pos e l : unpacks s e l -> (1 <= length l)%nat.
Proof. induction 1; cbn; [lia |]. rewrite length_app. lia. Qed.

(** A list of edges, unpacked one after the other. *)
Inductive unpacksAll : list Z -> list Z -> Prop :=
| unpacksAll_nil : unpacksAll [] []
| unpacksAll_cons e es l ls : unpacks s e l -> unpacksAll es ls -> unpacksAll (e :: es) (l ++ ls).

Lemma unpacksAll_app es1 es2 l1 l2 : unpacksAll es1 l1 -> unpacksAll es2 l2 ->
  unpacksAll (es1 ++ es2) (l1 ++ l2).
Proof. induction 1; cbn; intros; [done |]. rewrite <-app_assoc. constructor; auto. Qed.

Lemma unpackAll_exists es u v : chain s src u es v ->
  exists l, unpacksAll es l /\ chain s src u l v /\ distOf s l = distOf s es.
Proof.
  revert u. induction es as [|e es IH]; cbn [chain]; intros u Hc.
  { subst. exists []. split; [constructor | done]. }
  destruct Hc as (He & <- & Hc). destruct (unpack_exists e He) as (l & U & C & D).
  destruct (IH _ Hc) as (ls & Us & Cs & Ds). exists (l ++ ls). split; [by constructor |].
  split; [by eapply chain_app |]. rewrite distOf_app. unfold distOf in *. cbn. lia.
Qed.
End unpack.

(** ** Initialisation *)

Lemma two_copies (a b : list Z) n m : alen a = n -> 0 <= m <= alen b ->
  exists c, arraycopy a 0 (replicate (Z.to_nat (n + m)) 0) 0 n = Ok c /\
    arraycopy b 0 c n m = Ok (a ++ take (Z.to_nat m) b).
Proof.
  intros Ha Hm. pose proof (alen_nonneg a). exists (a ++ replicate (Z.to_nat m) 0). split.
  - rewrite arraycopy_ok by lens. f_equal. change (Z.to_nat 0) with 0%nat.
    rewrite take_0, drop_0, take_ge by lens. cbn [app]. f_equal.
    rewrite drop_replicate. f_equal. lia.
  - rewrite arraycopy_ok by lens. f_equal. change (Z.to_nat 0) with 0%nat.
    rewrite take_app_length' by lens. rewrite drop_0. f_equal.
    rewrite (drop_ge (_ ++ _)) by lens. by rewrite app_nil_r.
Qed.

Lemma initialize_arrays e l : Edges.models e l ->
  initialize e = Ok (mk (originalEdgeDest e ++ take (length l) (shortcutEdgeDest e))
    (originalEdgeDist e ++ take (length l) (shortcutEdgeDist e)) (numOfOriginalEdges e)
    (take (length l * 2) (shortcutEdgeParts e))).
Proof.
  intros Hm. pose proof Hm as (H0 & Hn & H1 & H2 & H3 & H4 & H5 & H6 & H7 & Hl).
  pose proof (alen_nonneg l). unfold initialize, newArray.
  rewrite Hn. replace (numOfOriginalEdges e + alen l - numOfOriginalEdges e) with (alen l) by lia.
  destruct (Z.ltb_spec (numOfOriginalEdges e + alen l) 0); [lia |].
  destruct (Z.ltb_spec (alen l * 2) 0); [lia |]. rewrite !bind_ok.
  destruct (two_copies (originalEdgeDest e) (shortcutEdgeDest e) (numOfOriginalEdges e) (alen l))
    as (c1 & E1 & E2); [done | lia |].
  destruct (two_copies (originalEdgeDist e) (shortcutEdgeDist e) (numOfOriginalEdges e) (alen l))
    as (c2 & E3 & E4); [done | lia |].
  destruct (two_copies [] (shortcutEdgeParts e) 0 (alen l * 2)) as (c3 & E5 & E6); [done | lia |].
  rewrite Z.add_0_l in E5. rewrite arraycopy_ok in E5 by lens.
  assert (c3 = replicate (Z.to_nat (alen l * 2)) 0) as ->.
  { injection E5 as <-. done. }
  rewrite E1, bind_ok, E3, bind_ok, E2, bind_ok, E4, bind_ok, E6, bind_ok.
  replace (Z.to_nat (alen l * 2)) with (length l * 2)%nat by lens.
  replace (Z.to_nat (alen l)) with (length l) by lens. done.
Qed.

Lemma initialize_ok e l : Edges.models e l -> returns (initialize e) (fun s =>
  alen (dest s) = nextShortcutId e /\ alen (dist s) = nextShortcutId e /\ firstShortcutIdx s = numOfOriginalEdges e /\
  alen (shortcutParts s) = alen l * 2 /\
  (forall i, 0 <= i < nextShortcutId e -> Edges.getDest e i = Ok (dest s).[i] /\ Edges.getDist e i = Ok (dist s).[i]) /\
  forall k, 0 <= k < alen l -> firstPart s (numOfOriginalEdges e + k) = scSecond l.[k] /\
    secondPart s (numOfOriginalEdges e + k) = scFirst l.[k]).
Proof.
  intros Hm. rewrite (initialize_arrays e l Hm).
  pose proof Hm as (H0 & Hn & H1 & H2 & H3 & H4 & H5 & H6 & H7 & Hl). ret. cbn [dest dist firstShortcutIdx shortcutParts].
  assert (forall m (a : list Z) i, 0 <= i < Z.of_nat m -> (take m a).[i] = a.[i]) as Htake
    by (intros m a i Hi; rewrite <-(Nat2Z.id m); by apply at_take).
  split; [lens |]. split; [lens |]. split; [done |]. split; [lens |]. split.
  - intros i Hi. unfold Edges.getDest, Edges.getDist. destruct (Z.ltb_spec i (numOfOriginalEdges e)).
    + rewrite !aget_ok by lens. by rewrite !at_app_l by lia.
    + rewrite !aget_ok by lens. rewrite !at_app_r by lia. rewrite !Htake by lens. by rewrite H2, H3.
  - intros k Hk. unfold firstPart, secondPart. cbn [firstShortcutIdx shortcutParts].
    replace (numOfOriginalEdges e + k - numOfOriginalEdges e) with k by lia.
    destruct (Hl k Hk) as (_ & _ & _ & E1 & E2). rewrite !Htake by lens. by rewrite E1, E2.
Qed.

(** ** Properties *)

(** [initialize] copies the original edges and the shortcuts of [Edges] into one index space:
    every id answers the same destination and distance as before, the shortcuts are exactly the
    ids from the number of original edges on, and [getSecondShortcut] answers what was stored as
    the first part, [getFirstShortcut] what was stored as the second. *)
Theorem initialize_same e l : Edges.models e l ->
  returns (initialize e) (fun s =>
    (forall i, 0 <= i < nextShortcutId e ->
       getDest s i = Edges.getDest e i /\ getDist s i = Edges.getDist e i) /\
    (forall i, isShortcut s i = true <-> numOfOriginalEdges e <= i) /\
    (forall k, 0 <= k < alen l ->
       getFirstShortcut s (numOfOriginalEdges e + k) = Ok (scSecond l.[k]) /\
       getSecondShortcut s (numOfOriginalEdges e + k) = Ok (scFirst l.[k]))).
Proof.
  intros Hm. rewrite (initialize_arrays e l Hm).
  pose proof Hm as (H0 & Hn & H1 & H2 & H3 & H4 & H5 & H6 & H7 & Hl). ret.
  assert (forall m (a : list Z) i, 0 <= i < Z.of_nat m -> (take m a).[i] = a.[i]) as Htake
    by (intros m a i Hi; rewrite <-(Nat2Z.id m); by apply at_take).
  unfold getDest, getDist, Edges.getDest, Edges.getDist, isShortcut, getFirstShortcut, getSecondShortcut.
  cbn [dest dist firstShortcutIdx shortcutParts]. split_and!.
  - intros i Hi. destruct (Z.ltb_spec i (numOfOriginalEdges e)).
    + rewrite !aget_ok by lens. by rewrite !at_app_l by lia.
    + rewrite !aget_ok by lens. rewrite !at_app_r by lia. rewrite !Htake by lens.
      by rewrite H2, H3.
  - intros i. apply Z.leb_le.
  - intros k Hk. replace (numOfOriginalEdges e + k - numOfOriginalEdges e) with k by lia.
    destruct (Hl k Hk) as (_ & _ & _ & E1 & E2).
    rewrite !aget_ok by lens. rewrite !Htake by lens. by rewrite E1, E2.
Qed.

Lemma initialize_same_witness :
  let e := Edges.mk [0; 1; 2] [1; 2; 0] [5; 6; 7] 3 [0; 0] [2; 0] [11; 0] [1; 0; 0; 0] 4 1 in
  initialize e = Ok (mk [1; 2; 0; 2] [5; 6; 7; 11] 3 [1; 0]) /\
  returns (initialize e) (fun s =>
    (forall i, 0 <= i < 4 -> getDest s i = Edges.getDest e i /\ getDist s i = Edges.getDist e i) /\
    (forall i, isShortcut s i = true <-> 3 <= i) /\
    (forall k, 0 <= k < alen [mkShortcut 0 2 11 1 0] ->
       getFirstShortcut s (3 + k) = Ok (scSecond [mkShortcut 0 2 11 1 0].[k]) /\
       getSecondShortcut s (3 + k) = Ok (scFirst [mkShortcut 0 2 11 1 0].[k]))).
Proof.
  split; [reflexivity |].
  apply (initialize_same (Edges.mk [0; 1; 2] [1; 2; 0] [5; 6; 7] 3 [0; 0] [2; 0] [11; 0] [1; 0; 0; 0] 4 1)
    [mkShortcut 0 2 11 1 0]).
  unfold Edges.models, alen. cbn. split_and!; try lia.
  intros k Hk. assert (k = 0) as -> by lia. done.
Defined.
