(* ===== verification/HubLNodes.v ===== *)
(** * hublabeldata/HubLNodes.java: the node data of the hub label router

    Levels, coordinates, and per node either the ids of the edges to higher nodes (for the nodes
    below [hlLevel]) or the labels.  [initEdgeInfo] and [initLabelInfo] build the offset arrays
    from the data of the precomputation. *)

From S2P Require Import Prelude Text Edges.

Record t (D : Type) := mk {
  hlLevel : Z;
  levels : list Z;
  longitudes : list D;
  latitudes : list D;
  edgesOffset : list Z;
  edges : list Z;
  labelOffset : list Z;
  labelNode : list Z;
  labelEdge : list Z;
  labelDist : list Z;
}.
Arguments mk {D}.
Arguments hlLevel {D}.
Arguments levels {D}.
Arguments longitudes {D}.
Arguments latitudes {D}.
Arguments edgesOffset {D}.
Arguments edges {D}.
Arguments labelOffset {D}.
Arguments labelNode {D}.
Arguments labelEdge {D}.
Arguments labelDist {D}.

Section accessors.
Context {D : Type}.
Implicit Types (s : t D).

Definition getNumOfNodes s : Z := alen (longitudes s).
Definition getLat s (nodeID : Z) : res D := aget (latitudes s) nodeID.
Definition getLong s (nodeID : Z) : res D := aget (longitudes s) nodeID.
Definition getLabelNode s (idx : Z) : res Z := aget (labelNode s) idx.
Definition getLabelEdge s (idx : Z) : res Z := aget (labelEdge s) idx.
Definition getLabelDist s (idx : Z) : res Z := aget (labelDist s) idx.
Definition nodeHasLabels s (nodeId : Z) : res bool :=
  lvl ← aget (levels s) nodeId; Ok (hlLevel s <=? lvl).
Definition getLabelOffset s (nodeId : Z) : res Z := aget (labelOffset s) nodeId.
Definition getEdgeOffset s (nodeId : Z) : res Z := aget (edgesOffset s) nodeId.
Definition getEdge s (idx : Z) : res Z := aget (edges s) idx.
End accessors.

(** ** [initEdgeInfo] *)

(** The loop that deletes the edges of one node that do not lead to a higher level; it answers
    the array, the number of edges kept and the running total. *)
Fixpoint keepUpward (fuel : nat) (e : Edges.t) (levels : list Z) (nodeLvl : Z)
    (edgeArray : list Z) (edgeCount j totalEdgeLen : Z) : res (list Z * Z * Z) :=
  match fuel with
  | O => Err OutOfFuel
  | S fuel' =>
      if j <? edgeCount then
        x ← aget edgeArray j;
        d ← Edges.getDest e x;
        destLvl ← aget levels d;
        if destLvl <=? nodeLvl then
          let edgeCount := edgeCount - 1 in
          edgeArray ← arraycopy edgeArray (j + 1) edgeArray j (edgeCount - j);
          keepUpward fuel' e levels nodeLvl edgeArray edgeCount j totalEdgeLen
        else keepUpward fuel' e levels nodeLvl edgeArray edgeCount (j + 1) (iadd totalEdgeLen 1)
      else Ok (edgeArray, edgeCount, totalEdgeLen)
  end.

(** The body of the first loop over the nodes; the state is the grid, the counts and the total. *)
Definition pruneNode (e : Edges.t) (levels : list Z) (hlLevel i : Z)
    (st : list (option (list Z)) * list Z * Z) : res (list (option (list Z)) * list Z * Z) :=
  let '(grid, counts, total) := st in
  nodeLvl ← aget levels i;
  if hlLevel <=? nodeLvl then
    grid ← aset grid i None;
    counts ← aset counts i 0;
    Ok (grid, counts, total)
  else
    edgeCount ← aget counts i;
    cell ← aget grid i;
    match cell with
    | None => if 0 <? edgeCount then Err NullPointer else counts ← aset counts i edgeCount; Ok (grid, counts, total)
    | Some edgeArray =>
        '(edgeArray, edgeCount, total) ← keepUpward (S (Z.to_nat edgeCount)) e levels nodeLvl edgeArray edgeCount 0 total;
        grid ← aset grid i (Some edgeArray);
        counts ← aset counts i edgeCount;
        Ok (grid, counts, total)
    end.

(** The body of the second loop, which copies the edges of node [i] behind those before it. *)
Definition copyNode (grid : list (option (list Z))) (counts : list Z) (i : Z)
    (st : list Z * list Z * Z) : res (list Z * list Z * Z) :=
  let '(off, es, nextOffset) := st in
  nextEdgeCount ← aget counts i;
  off ← aset off i nextOffset;
  if negb (nextEdgeCount =? 0) then
    cell ← aget grid i;
    match cell with
    | None => Err NullPointer
    | Some a => es ← arraycopy a 0 es nextOffset nextEdgeCount; Ok (off, es, iadd nextOffset nextEdgeCount)
    end
  else Ok (off, es, nextOffset).

(** [initEdgeInfo] on the grid's [allEdgeIds] and [allEdgeCount]; it answers the offsets and the
    edges. *)
Definition initEdgeInfo (e : Edges.t) (levels : list Z) (hlLevel : Z)
    (currentGrid : list (option (list Z))) (edgeCounts : list Z) : res (list Z * list Z) :=
  let nodeCount := alen edgeCounts in
  '(grid, counts, total) ← forRange 0 nodeCount (pruneNode e levels hlLevel) (currentGrid, edgeCounts, 0);
  off ← newArray 0 (nodeCount + 1);
  es ← newArray 0 total;
  '(off, es, nextOffset) ← forRange 0 nodeCount (copyNode grid counts) (off, es, 0);
  off ← aset off nodeCount nextOffset;
  Ok (off, es).

(** ** [initLabelInfo]

    The labels go through a text file with one number per line. *)

(** Writing the labels of node [i]: the state is the offsets, the file and the next offset. *)
Definition writeNode (nodes edges dists : list (option (list Z))) (i : Z)
    (st : list Z * list string * Z) : res (list Z * list string * Z) :=
  let '(off, file, nextOffset) := st in
  off ← aset off i nextOffset;
  cell ← aget nodes i;
  match cell with
  | None => Ok (off, file, nextOffset)
  | Some ns =>
      let labelCount := alen ns in
      ecell ← aget edges i;
      dcell ← aget dists i;
      match ecell, dcell with
      | Some es, Some ds =>
          file ← forRange 0 labelCount (fun j file =>
            n ← aget ns j; e ← aget es j; d ← aget ds j;
            Ok (file ++ [printInt n; printInt e; printInt d])) file;
          Ok (off, file, iadd nextOffset labelCount)
      | _, _ => if 0 <? labelCount then Err NullPointer else Ok (off, file, iadd nextOffset labelCount)
      end
  end.

(** [readLine] followed by [parseInt]; at the end of the file [readLine] answers null, for which
    [parseInt] throws NumberFormatException. *)
Definition readInt (file : list string) : res (Z * list string) :=
  match file with
  | [] => Err NumberFormat
  | line :: file' => z ← parseInt line; Ok (z, file')
  end.

Definition initLabelInfo (tmpLabelNodes tmpLabelEdges tmpLabelDist : list (option (list Z)))
    : res (list Z * list Z * list Z * list Z) :=
  let nodeCount := alen tmpLabelNodes in
  off ← newArray 0 (nodeCount + 1);
  '(off, file, nextOffset) ← forRange 0 nodeCount (writeNode tmpLabelNodes tmpLabelEdges tmpLabelDist) (off, [], 0);
  off ← aset off nodeCount nextOffset;
  ns ← newArray 0 (nextOffset + 1);
  es ← newArray 0 (nextOffset + 1);
  ds ← newArray 0 (nextOffset + 1);
  '(ns, es, ds, _) ← forRange 0 nextOffset (fun i '(ns, es, ds, file) =>
    '(n, file) ← readInt file;
    ns ← aset ns i n;
    '(e, file) ← readInt file;
    es ← aset es i e;
    '(d, file) ← readInt file;
    ds ← aset ds i d;
    Ok (ns, es, ds, file)) (ns, es, ds, file);
  ns ← aset ns nextOffset (-1);
  es ← aset es nextOffset (-1);
  ds ← aset ds nextOffset (-1);
  Ok (off, ns, es, ds).

(** ** Concatenations, and the offsets into them *)

(** The cells of the nodes before [i], one after the other; a null cell counts as empty. *)
Definition upto (a : list (option (list Z))) (i : Z) : list Z :=
  concat (default [] <$> take (Z.to_nat i) a).

Lemma upto_0 a : upto a 0 = [].
Proof. done. Qed.

Lemma upto_S a i : 0 <= i < alen a -> upto a (i + 1) = upto a i ++ default [] a.[i].
Proof.
  intros Hi. unfold upto. replace (Z.to_nat (i + 1)) with (S (Z.to_nat i)) by lia.
  rewrite (take_S_r _ _ a.[i]) by (by apply at_lookup).
  rewrite fmap_app, concat_app. cbn. by rewrite app_nil_r.
Qed.

Lemma upto_prefix a i j : 0 <= i <= j -> exists r, upto a j = upto a i ++ r.
Proof.
  intros Hij. unfold upto. exists (concat (default [] <$> drop (Z.to_nat i) (take (Z.to_nat j) a))).
  rewrite <-concat_app, <-fmap_app. f_equal. f_equal.
  rewrite <-(take_drop (Z.to_nat i) (take (Z.to_nat j) a)) at 1. rewrite take_take. do 2 f_equal. lia.
Qed.

Lemma upto_le a i j : 0 <= i <= j -> alen (upto a i) <= alen (upto a j).
Proof. intros Hij. destruct (upto_prefix a i j Hij) as [r ->]. rewrite alen_app. pose proof (alen_nonneg r). lia. Qed.

(** The data of a node lie behind those of the nodes before it. *)
Lemma upto_at a v l k : 0 <= v < alen a -> a.[v] = Some l -> 0 <= k < alen l ->
  (upto a (alen a)).[alen (upto a v) + k] = l.[k].
Proof.
  intros Hv E Hk. destruct (upto_prefix a (v + 1) (alen a)) as [r ->]; [lia |].
  pose proof (alen_nonneg (upto a v)). rewrite (upto_S a v Hv), E. cbn [default from_option id].
  rewrite at_app_l by (rewrite alen_app; lia). rewrite at_app_r by lia. f_equal. lia.
Qed.

Lemma upto_range a v l k : 0 <= v < alen a -> a.[v] = Some l -> 0 <= k < alen l ->
  alen (upto a v) <= alen (upto a v) + k < alen (upto a (v + 1)) /\ alen (upto a (v + 1)) <= alen (upto a (alen a)).
Proof.
  intros Hv E Hk. pose proof (upto_le a (v + 1) (alen a)). rewrite (upto_S a v Hv), E in *. cbn [default from_option id] in *.
  rewrite alen_app in *. lia.
Qed.

Lemma upto_find a m i : 0 <= m <= alen a -> 0 <= i < alen (upto a m) -> exists v l k,
  0 <= v < m /\ a.[v] = Some l /\ 0 <= k < alen l /\ i = alen (upto a v) + k.
Proof.
  intros [Hm Hle]. revert i Hle. pattern m. apply (natlike_ind _); [| | done]; clear m Hm.
  - intros i _ Hi. rewrite upto_0 in Hi. unfold alen in Hi. cbn in Hi. lia.
  - intros m Hm IH i Hle Hi. change (Z.succ m) with (m + 1) in *. rewrite upto_S, alen_app in Hi by lia.
    destruct (decide (i < alen (upto a m))) as [Hlt | Hge].
    + destruct (IH i ltac:(lia) ltac:(lia)) as (v & l & k & Hv & Hrest). exists v, l, k. split; [lia | done].
    + destruct (a.[m]) as [l |] eqn:E; cbn in Hi; [| change (alen (@nil Z)) with 0 in Hi; lia].
      exists m, l, (i - alen (upto a m)). split_and!; done || lia.
Qed.

Lemma upto_elem a z : z ∈ upto a (alen a) -> exists v l k, 0 <= v < alen a /\ a.[v] = Some l /\ 0 <= k < alen l /\ l.[k] = z.
Proof.
  intros (i & Hi & <-)%In_at. pose proof (alen_nonneg a).
  destruct (upto_find a (alen a) i ltac:(lia) Hi) as (v & l & k & Hv & E & Hk & ->).
  exists v, l, k. split; [done |]. split; [done |]. split; [done |]. symmetry. by apply upto_at.
Qed.

Lemma upto_bound a c m : (forall v l, 0 <= v < alen a -> a.[v] = Some l -> alen l <= c) -> 0 <= c -> 0 <= m <= alen a ->
  alen (upto a m) <= m * c.
Proof.
  intros Hc H0 [Hm Hle]. revert Hle. pattern m. apply (natlike_ind _); [| | done]; clear m Hm.
  - intros _. done.
  - intros m Hm IH Hle. change (Z.succ m) with (m + 1) in *. rewrite upto_S, alen_app by lia. specialize (IH ltac:(lia)).
    destruct (a.[m]) as [l |] eqn:E; cbn; [specialize (Hc m l ltac:(lia) E); lia | change (alen (@nil Z)) with 0; lia].
Qed.

(** What both initialisers make the offset array: entry [i] is where the data of node [i] start. *)
Definition offsets_of (a : list (option (list Z))) (off : list Z) : Prop :=
  alen off = alen a + 1 /\ forall i, 0 <= i <= alen a -> off.[i] = alen (upto a i).

Definition offsets_upto (a : list (option (list Z))) (off : list Z) (i : Z) : Prop :=
  alen off = alen a + 1 /\ forall k, 0 <= k < i -> off.[k] = alen (upto a k).

Lemma offsets_step a off i : 0 <= i < alen a + 1 -> offsets_upto a off i ->
  offsets_upto a (<[Z.to_nat i := alen (upto a i)]> off) (i + 1).
Proof.
  intros Hi [Hl Ho]. split; [by autorewrite with alen |]. intros k Hk.
  rewrite at_insert by lia. case_decide; [by subst | apply Ho; lia].
Qed.

Lemma offsets_last a off : offsets_upto a off (alen a + 1) -> offsets_of a off.
Proof. intros [Hl Ho]. split; [done |]. intros i Hi. apply Ho. lia. Qed.

(** ** Labels *)

(** Three label arrays of one node, as the lines of the file. *)
Fixpoint weave (ns es ds : list Z) : list Z :=
  match ns, es, ds with
  | n :: ns', e :: es', d :: ds' => n :: e :: d :: weave ns' es' ds'
  | _, _, _ => []
  end.

Lemma weave_app ns es ds ns' es' ds' : length es = length ns -> length ds = length ns ->
  weave (ns ++ ns') (es ++ es') (ds ++ ds') = weave ns es ds ++ weave ns' es' ds'.
Proof.
  revert es ds. induction ns as [|n ns IH]; intros [|e es] [|d ds] H1 H2; cbn in *; try done.
  by rewrite IH by lia.
Qed.

(** Consistent label data of [n] nodes: three arrays of one length per node that has labels. *)
Record labels_ok (N E D : list (option (list Z))) : Prop := {
  labels_lenE : alen E = alen N;
  labels_lenD : alen D = alen N;
  labels_cells : forall i ns, 0 <= i < alen N -> N.[i] = Some ns ->
    exists es ds, E.[i] = Some es /\ D.[i] = Some ds /\ alen es = alen ns /\ alen ds = alen ns;
  labels_none : forall i, 0 <= i < alen N -> N.[i] = None -> E.[i] = None /\ D.[i] = None;
  labels_ints : forall z, z ∈ upto N (alen N) ++ upto E (alen N) ++ upto D (alen N) -> is_int z;
  labels_total : alen (upto N (alen N)) < MAX_VALUE;
}.

Section labels.
Context (N E D : list (option (list Z))) (Hok : labels_ok N E D).

Lemma upto_same i : 0 <= i <= alen N ->
  alen (upto E i) = alen (upto N i) /\ alen (upto D i) = alen (upto N i).
Proof.
  intros Hi. replace i with (Z.of_nat (Z.to_nat i)) by lia.
  assert (Z.of_nat (Z.to_nat i) <= alen N) as Hle by lia. clear Hi. revert Hle.
  generalize (Z.to_nat i) as k. induction k as [|k IH]; intros Hk; [done |].
  replace (Z.of_nat (S k)) with (Z.of_nat k + 1) by lia.
  pose proof (labels_lenE _ _ _ Hok). pose proof (labels_lenD _ _ _ Hok).
  rewrite !upto_S by lia. autorewrite with alen. destruct IH as [IHE IHD]; [lia |].
  destruct (N.[Z.of_nat k]) as [ns |] eqn:En.
  - destruct (labels_cells _ _ _ Hok (Z.of_nat k) ns) as (es & ds & -> & -> & ? & ?); [lia | done |]. cbn. lia.
  - destruct (labels_none _ _ _ Hok (Z.of_nat k)) as [-> ->]; [lia | done |]. cbn. lia.
Qed.

(** The file once the nodes before [i] were written. *)
Definition fileUpto (i : Z) : list string := printInt <$> weave (upto N i) (upto E i) (upto D i).

Lemma write_labels ns es ds file : alen es = alen ns -> alen ds = alen ns ->
  returns (forRange 0 (alen ns) (fun j file =>
    n ← aget ns j; e ← aget es j; d ← aget ds j;
    Ok (file ++ [printInt n; printInt e; printInt d])) file)
  (fun file' => file' = file ++ (printInt <$> weave ns es ds)).
Proof.
  intros He Hd. eapply returns_mono.
  - apply (forRange_inv (fun j f => f = file ++
      (printInt <$> weave (take (Z.to_nat j) ns) (take (Z.to_nat j) es) (take (Z.to_nat j) ds)))).
    + apply alen_nonneg.
    + cbn. by rewrite app_nil_r.
    + intros j f Hj ->. jsteps. ret. replace (Z.to_nat (j + 1)) with (S (Z.to_nat j)) by lia.
      rewrite (take_S_r ns _ ns.[j]), (take_S_r es _ es.[j]), (take_S_r ds _ ds.[j])
        by (apply at_lookup; lia).
      rewrite weave_app by (rewrite !length_take; unfold alen in *; lia).
      rewrite fmap_app, app_assoc. done.
  - cbv beta. intros f ->. by rewrite !take_ge by lens.
Qed.

Lemma fileUpto_S i ns es ds : 0 <= i < alen N -> N.[i] = Some ns -> E.[i] = Some es ->
  D.[i] = Some ds -> fileUpto (i + 1) = fileUpto i ++ (printInt <$> weave ns es ds).
Proof.
  intros Hi En Ee Ed. pose proof (labels_lenE _ _ _ Hok). pose proof (labels_lenD _ _ _ Hok).
  unfold fileUpto. rewrite !upto_S, En, Ee, Ed by lia. cbn [default from_option id].
  destruct (upto_same i) as [H1 H2]; [lia |].
  rewrite weave_app by (unfold alen in *; lia). by rewrite fmap_app.
Qed.

Lemma writeNode_ok i off : 0 <= i < alen N -> offsets_upto N off i ->
  returns (writeNode N E D i (off, fileUpto i, alen (upto N i))) (fun '(off', file', next') =>
    offsets_upto N off' (i + 1) /\ file' = fileUpto (i + 1) /\ next' = alen (upto N (i + 1))).
Proof.
  intros Hi Ho. pose proof (labels_lenE _ _ _ Hok). pose proof (labels_lenD _ _ _ Hok).
  pose proof Ho as [Hl _]. unfold writeNode. rewrite aset_ok, bind_ok by lia.
  rewrite (aget_ok N i), bind_ok by lia. pose proof (offsets_step N off i ltac:(lia) Ho) as Ho'.
  assert (alen (upto N (i + 1)) < MAX_VALUE) as Hmax.
  { pose proof (upto_le N (i + 1) (alen N)). pose proof (labels_total _ _ _ Hok). lia. }
  destruct (N.[i]) as [ns |] eqn:En.
  - destruct (labels_cells _ _ _ Hok i ns Hi En) as (es & ds & Ee & Ed & Hle & Hld).
    rewrite !aget_ok, !bind_ok, Ee, Ed by lia.
    eapply returns_bind; [by apply write_labels |]. cbv beta. intros file ->.
    ret. split_and!; [done | by rewrite (fileUpto_S i ns es ds) |].
    rewrite upto_S, En by lia. cbn [default from_option id]. autorewrite with alen.
    rewrite upto_S, En in Hmax by lia. cbn [default from_option id] in Hmax. autorewrite with alen in Hmax.
    pose proof (alen_nonneg (upto N i)). pose proof (alen_nonneg ns).
    rewrite iadd_id; [done |]. unfold is_int, MIN_VALUE, MAX_VALUE in *. lia.
  - destruct (labels_none _ _ _ Hok i Hi En) as [Ee Ed]. ret.
    unfold fileUpto. rewrite !upto_S, En, Ee, Ed by lia. cbn [default from_option id]. rewrite !app_nil_r. done.
Qed.

(** Reading one label back. *)
Lemma readInt_print z file : is_int z -> readInt (printInt z :: file) = Ok (z, file).
Proof. intros Hz. unfold readInt. by rewrite parse_print. Qed.

Definition readBody (i : Z) (st : list Z * list Z * list Z * list string) :=
  let '(ns, es, ds, file) := st in
  '(n, file) ← readInt file;
  ns ← aset ns i n;
  '(e, file) ← readInt file;
  es ← aset es i e;
  '(d, file) ← readInt file;
  ds ← aset ds i d;
  Ok (ns, es, ds, file).

Definition readState (ns es ds : list Z) (i : Z) (st : list Z * list Z * list Z * list string) : Prop :=
  let '(ns', es', ds', file) := st in
  let rest l := replicate (Z.to_nat (alen ns + 1 - i)) 0 in
  ns' = take (Z.to_nat i) ns ++ rest ns /\ es' = take (Z.to_nat i) es ++ rest es /\
  ds' = take (Z.to_nat i) ds ++ rest ds /\
  file = printInt <$> weave (drop (Z.to_nat i) ns) (drop (Z.to_nat i) es) (drop (Z.to_nat i) ds).

Lemma read_labels ns es ds : alen es = alen ns -> alen ds = alen ns ->
  (forall z, z ∈ ns ++ es ++ ds -> is_int z) ->
  returns (forRange 0 (alen ns) readBody
    (replicate (Z.to_nat (alen ns + 1)) 0, replicate (Z.to_nat (alen ns + 1)) 0,
     replicate (Z.to_nat (alen ns + 1)) 0, printInt <$> weave ns es ds))
    (readState ns es ds (alen ns)).
Proof.
  intros He Hd Hint. apply (forRange_inv (readState ns es ds)).
  - apply alen_nonneg.
  - cbn. by rewrite Z.sub_0_r.
  - intros i [[[ns' es'] ds'] file] Hi (-> & -> & -> & ->). cbn [readBody].
    rewrite (drop_S ns ns.[i]), (drop_S es es.[i]), (drop_S ds ds.[i]) by (apply at_lookup; lia).
    cbn [weave fmap list_fmap].
    assert (is_int ns.[i] /\ is_int es.[i] /\ is_int ds.[i]) as (H1 & H2 & H3).
    { split_and!; apply Hint; rewrite !elem_of_app;
        [left | right; left | right; right]; apply at_In; lia. }
    rewrite readInt_print, bind_ok by done. rewrite fill_next, bind_ok by lia.
    rewrite readInt_print, bind_ok by done. rewrite fill_next, bind_ok by lia.
    rewrite readInt_print, bind_ok by done. rewrite fill_next, bind_ok by lia. ret.
    unfold readState. replace (Z.to_nat (i + 1)) with (S (Z.to_nat i)) by lia. by split_and!.
Qed.
End labels.

Lemma initLabelInfo_ok N E D : labels_ok N E D ->
  returns (initLabelInfo N E D) (fun '(off, ns, es, ds) =>
    offsets_of N off /\ ns = upto N (alen N) ++ [-1] /\ es = upto E (alen N) ++ [-1] /\
    ds = upto D (alen N) ++ [-1]).
Proof.
  intros Hok. pose proof (alen_nonneg N). unfold initLabelInfo, newArray.
  destruct (Z.ltb_spec (alen N + 1) 0); [lia |]. rewrite bind_ok.
  eapply returns_bind.
  { apply (forRange_inv (fun i '(off, file, next) =>
      offsets_upto N off i /\ file = fileUpto N E D i /\ next = alen (upto N i))); [lia | |].
    - split_and!; [| done | done]. split; [by rewrite alen_replicate by lia | lia].
    - intros i [[off file] next] Hi (Ho & -> & ->). by apply (writeNode_ok N E D Hok). }
  intros [[off file] next] (Ho & -> & ->). cbv beta iota.
  pose proof Ho as [Hl _]. rewrite aset_ok, bind_ok by lia.
  pose proof (offsets_last _ _ (offsets_step N off (alen N) ltac:(lia) Ho)) as Hoff.
  destruct (upto_same N E D Hok (alen N)) as [HE HD]; [lia |].
  set (ns := upto N (alen N)) in *. pose proof (alen_nonneg ns).
  destruct (Z.ltb_spec (alen ns + 1) 0); [lia |]. rewrite !bind_ok.
  eapply returns_bind; [apply (read_labels ns _ _ HE HD (labels_ints _ _ _ Hok)) |].
  intros [[[ns' es'] ds'] file'] (-> & -> & -> & _). cbv beta iota.
  replace (Z.to_nat (alen ns + 1 - alen ns)) with 1%nat by lia. cbn [replicate].
  assert (forall l, alen l = alen ns ->
    aset (take (Z.to_nat (alen ns)) l ++ [0]) (alen ns) (-1) = Ok (l ++ [-1])) as Hlast.
  { intros l Hll. rewrite take_ge by lens. rewrite aset_ok by lens. f_equal.
    rewrite insert_app_r_alt by lens. by replace (Z.to_nat (alen ns) - length l)%nat with 0%nat by lens. }
  rewrite !Hlast by done. rewrite !bind_ok. ret. done.
Qed.

(** C31: [initLabelInfo] lays the labels of all nodes out one after the other: although they go
    through a decimal text file, the three arrays are exactly the concatenations of the labels,
    each closed by one extra -1, and the offset array says for every node, and for the end, where
    its labels start. *)
Theorem initLabelInfo_concat N E D : labels_ok N E D ->
  returns (initLabelInfo N E D) (fun '(off, ns, es, ds) =>
    offsets_of N off /\ ns = upto N (alen N) ++ [-1] /\ es = upto E (alen N) ++ [-1] /\
    ds = upto D (alen N) ++ [-1]).
Proof. apply initLabelInfo_ok. Qed.

(** ** Edges to higher nodes *)

Section upward.
Context (e : Edges.t) (lvls : list Z).

(** Does edge [x] of a node of level [nodeLvl] lead to a higher level? *)
Definition leadsUp (nodeLvl x : Z) : bool :=
  match Edges.getDest e x with Ok d => nodeLvl <? lvls.[d] | Err _ => false end.

Definition knownEdge (x : Z) : Prop := exists d, Edges.getDest e x = Ok d /\ 0 <= d < alen lvls.

Definition seg (j c : Z) (a : list Z) : list Z := take (Z.to_nat (c - j)) (drop (Z.to_nat j) a).

Lemma seg_cons j c a : 0 <= j < c -> c <= alen a -> seg j c a = a.[j] :: seg (j + 1) c a.
Proof.
  intros Hj Hc. unfold seg. rewrite (drop_S a a.[j]) by (apply at_lookup; lia).
  replace (Z.to_nat (c - j)) with (S (Z.to_nat (c - (j + 1)))) by lia. cbn [take].
  by replace (Z.to_nat (j + 1)) with (S (Z.to_nat j)) by lia.
Qed.

Lemma seg_nil j c a : c <= j -> seg j c a = [].
Proof. intros H. unfold seg. by replace (Z.to_nat (c - j)) with 0%nat by lia. Qed.

(** Deleting cell [j] by shifting the cells behind it. *)
Lemma delete_cell (a : list Z) j c : 0 <= j < c -> c <= alen a ->
  exists b, arraycopy a (j + 1) a j (c - 1 - j) = Ok b /\ alen b = alen a /\
    take (Z.to_nat j) b = take (Z.to_nat j) a /\ seg j (c - 1) b = seg (j + 1) c a.
Proof.
  intros Hj Hc. rewrite arraycopy_ok by lia. eexists. split; [done |]. split; [lens |].
  split; [by rewrite take_app_length' by lens |].
  unfold seg. rewrite drop_app_length' by lens. rewrite take_app_length' by lens.
  f_equal. lia.
Qed.

Definition keptFrom (nodeLvl j c : Z) (a : list Z) : list Z := List.filter (leadsUp nodeLvl) (seg j c a).

Lemma keepUpward_ok fuel : forall nodeLvl a c j tot, 0 <= j -> c <= alen a -> c - j < Z.of_nat fuel ->
  (forall x, x ∈ seg j c a -> knownEdge x) -> 0 <= tot ->
  tot + alen (keptFrom nodeLvl j c a) <= MAX_VALUE -> j <= c ->
  returns (keepUpward fuel e lvls nodeLvl a c j tot) (fun '(a', c', tot') =>
    alen a' = alen a /\ j <= c' <= c /\
    take (Z.to_nat c') a' = take (Z.to_nat j) a ++ keptFrom nodeLvl j c a /\
    c' = j + alen (keptFrom nodeLvl j c a) /\
    tot' = tot + alen (keptFrom nodeLvl j c a)).
Proof.
  induction fuel as [|fuel IH]; intros nodeLvl a c j tot Hj Hc Hfuel Hk Ht Hmax Hjc; [lia |].
  cbn [keepUpward]. destruct (Z.ltb_spec j c) as [Hlt | Hge].
  2:{ ret. unfold keptFrom. rewrite seg_nil by lia. cbn. rewrite app_nil_r.
      replace c with j by lia. split_and!; (done || (unfold alen; cbn; lia)). }
  assert (a.[j] ∈ seg j c a) as Hin by (rewrite seg_cons by lia; set_solver +).
  destruct (Hk _ Hin) as (d & Ed & Hd).
  rewrite aget_ok, bind_ok, Ed, bind_ok, aget_ok, bind_ok by lia.
  assert (keptFrom nodeLvl j c a = if nodeLvl <? lvls.[d]
    then a.[j] :: keptFrom nodeLvl (j + 1) c a else keptFrom nodeLvl (j + 1) c a) as Ekept.
  { unfold keptFrom. rewrite seg_cons by lia. cbn [List.filter]. unfold leadsUp at 1. by rewrite Ed. }
  assert (forall x, x ∈ seg (j + 1) c a -> knownEdge x) as Hk'
    by (intros x Hx; apply Hk; rewrite seg_cons by lia; set_solver +Hx).
  destruct (Z.leb_spec lvls.[d] nodeLvl) as [Hle | Hup].
  - rewrite (proj2 (Z.ltb_ge _ _) Hle) in Ekept. rewrite Ekept in Hmax |- *. cbv zeta.
    destruct (delete_cell a j c) as (b & Eb & Hlb & Htb & Hsb); [lia | lia |].
    rewrite Eb, bind_ok.
    assert (keptFrom nodeLvl j (c - 1) b = keptFrom nodeLvl (j + 1) c a) as Ek
      by (unfold keptFrom; by rewrite Hsb).
    eapply returns_mono; [apply (IH nodeLvl b (c - 1) j tot); rewrite ?Hsb, ?Ek; (done || lia) |].
    intros [[a' c'] tot'] (Hla & Hcc & Etake & Ec & Et). rewrite Ek, Htb in *.
    split_and!; (done || lia).
  - rewrite (proj2 (Z.ltb_lt _ _) Hup) in Ekept. rewrite Ekept in Hmax |- *. autorewrite with alen in Hmax.
    pose proof (alen_nonneg (keptFrom nodeLvl (j + 1) c a)).
    rewrite iadd_id by (unfold is_int, MIN_VALUE, MAX_VALUE in *; lia).
    eapply returns_mono; [apply (IH nodeLvl a c (j + 1) (tot + 1)); (done || lia) |].
    intros [[a' c'] tot'] (Hla & Hcc & Etake & Ec & Et). autorewrite with alen.
    split_and!; try (done || lia). rewrite Etake.
    replace (Z.to_nat (j + 1)) with (S (Z.to_nat j)) by lia.
    rewrite (take_S_r a _ a.[j]) by (apply at_lookup; lia). by rewrite <-app_assoc.
Qed.
End upward.

Section edges.
Context (e : Edges.t) (lvls : list Z) (hl : Z).
Context (grid : list (option (list Z))) (counts : list Z).

(** The edges kept for node [i]: none if it has labels, else those that lead to a higher level. *)
Definition upwardEdges (i : Z) : list Z :=
  if hl <=? lvls.[i] then [] else
  List.filter (leadsUp e lvls lvls.[i]) (take (Z.to_nat counts.[i]) (default [] grid.[i])).

Definition allUpward : list (option (list Z)) :=
  (fun i => Some (upwardEdges i)) <$> seqZ 0 (alen counts).

Record grid_ok : Prop := {
  grid_levels : alen lvls = alen counts;
  grid_len : alen grid = alen counts;
  grid_cells : forall i, 0 <= i < alen counts -> exists a, grid.[i] = Some a /\
    0 <= counts.[i] <= alen a /\ forall x, x ∈ take (Z.to_nat counts.[i]) a -> knownEdge e lvls x;
  grid_total : alen (upto allUpward (alen counts)) <= MAX_VALUE;
}.

Context (Hok : grid_ok).

Lemma allUpward_len : alen allUpward = alen counts.
Proof. unfold allUpward, alen. rewrite length_fmap, length_seqZ. lia. Qed.

Lemma allUpward_at i : 0 <= i < alen counts -> allUpward.[i] = Some (upwardEdges i).
Proof.
  intros Hi. unfold allUpward. apply list_lookup_total_correct.
  rewrite list_lookup_fmap, (lookup_seqZ_lt 0 (alen counts)) by lia. cbn. do 3 f_equal. lia.
Qed.

Lemma upto_upward_S i : 0 <= i < alen counts ->
  upto allUpward (i + 1) = upto allUpward i ++ upwardEdges i.
Proof. intros Hi. rewrite upto_S, allUpward_at by (rewrite ?allUpward_len; lia). done. Qed.

(** The grid and the counts after the nodes before [i] were pruned. *)
Definition pruned (i : Z) (st : list (option (list Z)) * list Z * Z) : Prop :=
  let '(grid', counts', total) := st in
  alen grid' = alen counts /\ alen counts' = alen counts /\ total = alen (upto allUpward i) /\
  (forall k, 0 <= k < i -> counts'.[k] = alen (upwardEdges k) /\
     (counts'.[k] <> 0 -> exists a, grid'.[k] = Some a /\ alen (upwardEdges k) <= alen a /\
        take (Z.to_nat counts'.[k]) a = upwardEdges k)) /\
  (forall k, i <= k < alen counts -> counts'.[k] = counts.[k] /\ grid'.[k] = grid.[k]).

Lemma pruneNode_ok i st : 0 <= i < alen counts -> pruned i st ->
  returns (pruneNode e lvls hl i st) (pruned (i + 1)).
Proof.
  destruct st as [[grid' counts'] total]. intros Hi (Hlg & Hlc & -> & Hdone & Hrest).
  pose proof (grid_levels Hok). destruct (grid_cells Hok i Hi) as (a & Ea & Hca & Hka).
  destruct (Hrest i) as [Eci Egi]; [lia |].
  pose proof (upto_upward_S i Hi) as EU.
  assert (alen (upto allUpward i) + alen (upwardEdges i) <= MAX_VALUE) as Hmax.
  { pose proof (grid_total Hok). pose proof (upto_le allUpward (i + 1) (alen counts)).
    rewrite EU in H1. autorewrite with alen in H1. lia. }
  unfold pruneNode. rewrite (aget_ok lvls), bind_ok by lia.
  destruct (Z.leb_spec hl lvls.[i]) as [Hhl | Hhl].
  - assert (upwardEdges i = []) as Eup by (unfold upwardEdges; by destruct (Z.leb_spec hl lvls.[i]); [| lia]).
    rewrite !aset_ok, !bind_ok by lia. ret. unfold pruned. rewrite EU, Eup, app_nil_r.
    split_and!; [by autorewrite with alen .. | done | |].
    + intros k Hk. rewrite !at_insert by lia.
      destruct (decide (i = k)) as [<- |]; [by rewrite Eup | apply Hdone; lia].
    + intros k Hk. rewrite !at_insert, !decide_False by lia. apply Hrest. lia.
  - rewrite (aget_ok counts'), bind_ok, (aget_ok grid'), bind_ok, Egi, Ea, Eci by lia.
    assert (upwardEdges i = keptFrom e lvls lvls.[i] 0 counts.[i] a) as Eup.
    { unfold upwardEdges. destruct (Z.leb_spec hl lvls.[i]); [lia |]. rewrite Ea. cbn.
      unfold keptFrom, seg. rewrite Z.sub_0_r. done. }
    eapply returns_bind.
    { apply (keepUpward_ok e lvls); try lia; [| apply alen_nonneg | by rewrite <-Eup].
      unfold seg. rewrite Z.sub_0_r. cbn [drop Z.to_nat]. exact Hka. }
    rewrite <-Eup. intros [[a' c'] tot'] (Hla & Hcc & Etake & Ec & ->). cbv beta iota.
    rewrite !aset_ok, !bind_ok by lia. ret. unfold pruned. rewrite EU.
    change (Z.to_nat 0) with 0%nat in Etake. rewrite take_0 in Etake. cbn [app] in Etake.
    split_and!; [by autorewrite with alen .. | by autorewrite with alen | |].
    + intros k Hk. rewrite !at_insert by lia.
      destruct (decide (i = k)) as [<- |]; [| apply Hdone; lia]. split; [lia |].
      intros _. exists a'. split_and!; [done | | done].
      rewrite <-Etake. unfold alen. rewrite length_take. lia.
    + intros k Hk. rewrite !at_insert, !decide_False by lia. apply Hrest. lia.
Qed.

Definition copied (i : Z) (st : list Z * list Z * Z) : Prop :=
  let '(off, es, next) := st in
  offsets_upto allUpward off i /\ next = alen (upto allUpward i) /\
  es = upto allUpward i ++ replicate (Z.to_nat (alen (upto allUpward (alen counts)) - next)) 0.

Lemma copyNode_ok grid' counts' total i st : pruned (alen counts) (grid', counts', total) ->
  0 <= i < alen counts -> copied i st -> returns (copyNode grid' counts' i st) (copied (i + 1)).
Proof.
  destruct st as [[off es] next]. intros (Hlg & Hlc & -> & Hdone & _) Hi (Ho & -> & ->).
  destruct (Hdone i Hi) as [Eci Hcell]. pose proof Ho as [Hlo _]. rewrite allUpward_len in Hlo.
  pose proof (offsets_step allUpward off i ltac:(rewrite allUpward_len; lia) Ho) as Ho'.
  pose proof (upto_upward_S i Hi) as EU. pose proof (grid_total Hok).
  pose proof (upto_le allUpward (i + 1) (alen counts) ltac:(lia)) as Hle.
  rewrite EU in Hle. autorewrite with alen in Hle.
  pose proof (alen_nonneg (upto allUpward i)). pose proof (alen_nonneg (upwardEdges i)).
  unfold copyNode. rewrite (aget_ok counts'), bind_ok, aset_ok, bind_ok by lia.
  destruct (Z.eqb_spec counts'.[i] 0) as [E0 | E0]; cbn [negb].
  - ret. assert (upwardEdges i = []) as Eup by (apply length_zero_iff_nil; unfold alen in *; lia).
    unfold copied. rewrite EU, Eup, app_nil_r. done.
  - destruct (Hcell E0) as (a & Ea & Hla & Etake). rewrite (aget_ok grid'), bind_ok, Ea by lia.
    rewrite arraycopy_ok; try lia; [| autorewrite with alen; lens]. rewrite bind_ok. ret.
    rewrite iadd_id by (unfold is_int, MIN_VALUE, MAX_VALUE in *; lia).
    unfold copied. rewrite EU. autorewrite with alen. split_and!; [done | lia |].
    change (Z.to_nat 0) with 0%nat. rewrite drop_0, Etake.
    rewrite take_app_length' by lens. rewrite <-app_assoc. do 2 f_equal.
    rewrite drop_app_ge by lens. rewrite drop_replicate. f_equal. lens.
Qed.
End edges.

(** [initEdgeInfo] keeps, for every node without labels, exactly its edges to nodes of a higher
    level, in their order, and nothing for the nodes with labels; the kept edges of all nodes lie
    one after the other, and the offset array says for every node, and for the end, where its
    edges start. *)
Theorem initEdgeInfo_upward e lvls hl grid counts : grid_ok e lvls hl grid counts ->
  returns (initEdgeInfo e lvls hl grid counts) (fun '(off, es) =>
    offsets_of (allUpward e lvls hl grid counts) off /\
    es = upto (allUpward e lvls hl grid counts) (alen counts)).
Proof.
  intros Hok. pose proof (alen_nonneg counts). set (U := allUpward e lvls hl grid counts).
  pose proof (allUpward_len e lvls hl grid counts) as HlU. fold U in HlU.
  unfold initEdgeInfo. eapply returns_bind.
  { apply (forRange_inv (pruned e lvls hl grid counts)); [lia | |].
    - pose proof (grid_len _ _ _ _ _ Hok). split_and!; [done .. | lia |]. by intros k Hk.
    - intros i st Hi Hst. by apply pruneNode_ok. }
  intros [[grid' counts'] total] Hpr. cbv beta iota. pose proof Hpr as (_ & _ & -> & _). fold U in Hpr |- *.
  pose proof (alen_nonneg (upto U (alen counts))).
  unfold newArray. destruct (Z.ltb_spec (alen counts + 1) 0); [lia |].
  destruct (Z.ltb_spec (alen (upto U (alen counts))) 0); [lia |]. rewrite !bind_ok.
  eapply returns_bind.
  { apply (forRange_inv (copied e lvls hl grid counts)); [lia | |].
    - split_and!; [split; [rewrite alen_replicate, allUpward_len by lia; done | lia] | done |].
      rewrite upto_0. cbn [app]. fold U. by rewrite Z.sub_0_r.
    - intros i st Hi Hst. by eapply copyNode_ok. }
  intros [[off es] next] (Ho & -> & ->). cbv beta iota. fold U in Ho |- *.
  pose proof Ho as [Hlo _]. rewrite aset_ok, bind_ok by lia. ret.
  split.
  - apply offsets_last. rewrite <-HlU. apply offsets_step; [lia |]. by rewrite HlU.
  - rewrite Z.sub_diag. cbn. by rewrite app_nil_r.
Qed.

(** When all nodes have labels no edges are kept. *)
Lemma initEdgeInfo_none e lvls hl grid counts : alen lvls = alen counts -> alen grid = alen counts ->
  (forall i, 0 <= i < alen counts -> hl <= lvls.[i]) ->
  returns (initEdgeInfo e lvls hl grid counts) (fun st => st = (replicate (Z.to_nat (alen counts + 1)) 0, [])).
Proof.
  intros Hl Hg Hall. pose proof (alen_nonneg counts). set (n := alen counts) in *. unfold initEdgeInfo. fold n.
  eapply returns_bind.
  { apply (forRange_inv (fun i '(grid, cs, total) => alen grid = n /\ alen cs = n /\ total = 0 /\ forall k, 0 <= k < i -> cs.[k] = 0)); [done | |].
    - split_and!; try done. intros; lia.
    - intros i [[grid1 cs] total] Hi (H1 & H2 & -> & H3). unfold pruneNode. rewrite (aget_ok lvls), bind_ok by lia.
      rewrite (proj2 (Z.leb_le _ _) (Hall i Hi)), (aset_ok grid1), bind_ok, (aset_ok cs), bind_ok by lia. ret.
      autorewrite with alen. split_and!; try done. intros k Hk. rewrite at_insert by lia. case_decide; [done | apply H3; lia]. }
  intros [[grid1 cs] total] (H1 & H2 & -> & H3). cbv beta iota. unfold newArray. destruct (Z.ltb_spec (n + 1) 0); [lia |].
  rewrite !bind_ok. set (off := replicate (Z.to_nat (n + 1)) 0).
  assert (forall i, 0 <= i <= n -> aset off i 0 = Ok off) as Hoff.
  { intros i Hi. rewrite aset_ok by (unfold off; rewrite alen_replicate; lia). unfold off. by rewrite insert_replicate. }
  eapply (returns_bind _ _ (fun es => es = [])); [done |]. cbv beta. intros es ->. eapply returns_bind.
  { apply (forRange_inv (fun _ st => st = (off, [], 0))); [done | done |]. intros i st Hi ->. unfold copyNode.
    rewrite (aget_ok cs i), bind_ok by lia. rewrite Hoff, bind_ok, H3 by lia. cbn [negb Z.eqb]. by ret. }
  intros st ->. cbv beta iota. rewrite Hoff, bind_ok by lia. by ret.
Qed.

(** ** Witnesses *)

(** Node 1 is below the label level and has no labels. *)
Lemma initLabelInfo_concat_witness :
  let N := [Some [0; 2]; None; Some [2]] in
  let E := [Some [-1; 4]; None; Some [-1]] in
  let D := [Some [0; 70]; None; Some [0]] in
  initLabelInfo N E D = Ok ([0; 2; 2; 3], [0; 2; 2; -1], [-1; 4; -1; -1], [0; 70; 0; -1]) /\
  returns (initLabelInfo N E D) (fun '(off, ns, es, ds) =>
    offsets_of N off /\ ns = upto N (alen N) ++ [-1] /\ es = upto E (alen N) ++ [-1] /\
    ds = upto D (alen N) ++ [-1]).
Proof.
  split; [vm_compute; reflexivity |]. apply initLabelInfo_concat. split; try done.
  - intros i ns Hi. change (0 <= i < 3) in Hi.
    assert (i = 0 \/ i = 1 \/ i = 2) as [-> | [-> | ->]] by lia; cbn; intros [= <-];
      eexists _, _; done.
  - intros i Hi. change (0 <= i < 3) in Hi.
    assert (i = 0 \/ i = 1 \/ i = 2) as [-> | [-> | ->]] by lia; cbn; done.
  - intros z. match goal with |- _ ∈ ?l -> _ => change l with [0; 2; 2; -1; 4; -1; 0; 70; 0] end.
    rewrite !elem_of_cons, elem_of_nil. unfold is_int, MIN_VALUE, MAX_VALUE. lia.
Defined.

(** Three nodes of levels 0, 1 and 2 in a triangle; labels from level 2 on. *)
Lemma initEdgeInfo_upward_witness :
  let e := Edges.mk [0; 0; 1; 1; 2; 2] [1; 2; 0; 2; 0; 1] [5; 5; 5; 5; 5; 5] 6 [] [] [] [] 6 3 in
  let grid := [Some [0; 1; 0]; Some [2; 3; 0]; Some [4; 5; 0]] in
  initEdgeInfo e [0; 1; 2] 2 grid [2; 2; 2] = Ok ([0; 2; 3; 3], [0; 1; 3]) /\
  returns (initEdgeInfo e [0; 1; 2] 2 grid [2; 2; 2]) (fun '(off, es) =>
    offsets_of (allUpward e [0; 1; 2] 2 grid [2; 2; 2]) off /\
    es = upto (allUpward e [0; 1; 2] 2 grid [2; 2; 2]) 3).
Proof.
  split; [vm_compute; reflexivity |]. apply initEdgeInfo_upward. split; try done.
  intros i Hi. change (0 <= i < 3) in Hi.
  assert (i = 0 \/ i = 1 \/ i = 2) as [-> | [-> | ->]] by lia; cbn; eexists; (split; [done |]);
    (split; [vm_compute; split; discriminate |]); intros x Hx; cbv in Hx;
    apply elem_of_cons in Hx as [-> | [-> | []%elem_of_nil]%elem_of_cons]; cbn; eexists;
    (split; [reflexivity | vm_compute; split; congruence]).
Defined.
