(* ===== verification/HubLRouter.v ===== *)
(** * router/HubLRouter.java: the hub label router

    Labels are stored for the nodes from level [hlLevel] on; for the others temporary labels are
    computed by a search over the edges to higher nodes.  The route goes over the common label
    node of least total distance; its edges are collected from both ends and unpacked.

    The loops whose number of iterations the arrays do not bound directly take [fuel]. *)

From S2P Require Import Prelude IntStack OrderedIntSet DistanceHeap HubLEdges HubLNodes RoutingResult.

(** The four arrays of one side of the route: [labelLeft], [distLeft], [edgeLeft], [addInfoLeft],
    or those of the right side. *)
Record side := mkSide {
  label : OrderedIntSet.t;
  distTo : OrderedIntSet.t;
  edgeTo : OrderedIntSet.t;
  addInfo : OrderedIntSet.t;
}.

Record t := mk {
  resultNodes : IntStack.t;
  edgesRight : IntStack.t;
  edgesLeft : IntStack.t;
  edgeCalcStack : IntStack.t;
  heap : DistanceHeap.t;
  labelHeap : DistanceHeap.t;
  left : side;
  right : side;
}.

Definition sideOf (isLeft : bool) (r : t) : side := if isLeft then left r else right r.
Definition setSide (isLeft : bool) (r : t) (s : side) : t :=
  if isLeft
  then mk (resultNodes r) (edgesRight r) (edgesLeft r) (edgeCalcStack r) (heap r) (labelHeap r) s (right r)
  else mk (resultNodes r) (edgesRight r) (edgesLeft r) (edgeCalcStack r) (heap r) (labelHeap r) (left r) s.
Definition edgesOf (isLeft : bool) (r : t) : IntStack.t := if isLeft then edgesLeft r else edgesRight r.
Definition setEdges (isLeft : bool) (r : t) (s : IntStack.t) : t :=
  if isLeft
  then mk (resultNodes r) (edgesRight r) s (edgeCalcStack r) (heap r) (labelHeap r) (left r) (right r)
  else mk (resultNodes r) s (edgesLeft r) (edgeCalcStack r) (heap r) (labelHeap r) (left r) (right r).
Definition setHeaps (r : t) (h lh : DistanceHeap.t) : t :=
  mk (resultNodes r) (edgesRight r) (edgesLeft r) (edgeCalcStack r) h lh (left r) (right r).
Definition setResults (r : t) (res calc : IntStack.t) : t :=
  mk res (edgesRight r) (edgesLeft r) calc (heap r) (labelHeap r) (left r) (right r).

Definition clearSide (s : side) : side :=
  mkSide (OrderedIntSet.clear (label s)) (OrderedIntSet.clear (distTo s))
         (OrderedIntSet.clear (edgeTo s)) (OrderedIntSet.clear (addInfo s)).

(** [labelHeap] is not reset here; [calcTempLabels] does it. *)
Definition reset (r : t) : t :=
  mk (IntStack.clear (resultNodes r)) (IntStack.clear (edgesRight r)) (IntStack.clear (edgesLeft r))
     (IntStack.clear (edgeCalcStack r)) (DistanceHeap.reset (heap r)) (labelHeap r)
     (clearSide (left r)) (clearSide (right r)).

Definition newSide : res side :=
  l ← OrderedIntSet.new true 1000 1000;
  d ← OrderedIntSet.new false 1000 1000;
  e ← OrderedIntSet.new false 1000 1000;
  a ← OrderedIntSet.new false 1000 1000;
  Ok (mkSide l d e a).

Definition new : res t :=
  h ← DistanceHeap.new 1000 1000;
  lh ← DistanceHeap.new 1000 1000;
  rn ← IntStack.new 5000;
  er ← IntStack.new 500;
  el ← IntStack.new 500;
  ec ← IntStack.new 10;
  l ← newSide;
  r ← newSide;
  Ok (mk rn er el ec h lh l r).

(** ** The best common label

    The same loop stands in the four [route...] methods, which differ in where a label's node
    and distance are read; its result is the hub, the distance and the two indices. *)
Record best := mkBest { highestLvlNode : Z; currDistance : Z; idxA : Z; idxB : Z }.

Section merge.
Variables nodeOfA nodeOfB distOfA distOfB : Z -> res Z.
Variables endA endB : Z.

Fixpoint mergeLoop (fuel : nat) (a b nodeA nodeB : Z) (m : best) : res best :=
  match fuel with
  | O => Err OutOfFuel
  | S fuel' =>
      if (a <? endA) && (b <? endB) then
        if nodeA =? nodeB then
          dA ← distOfA a;
          dB ← distOfB b;
          let tmpDist := iadd dA dB in
          let m := if tmpDist <? currDistance m then mkBest nodeA tmpDist a b else m in
          nodeA ← nodeOfA (a + 1);
          nodeB ← nodeOfB (b + 1);
          mergeLoop fuel' (a + 1) (b + 1) nodeA nodeB m
        else if nodeB <? nodeA then
          nodeB ← nodeOfB (b + 1);
          mergeLoop fuel' a (b + 1) nodeA nodeB m
        else
          nodeA ← nodeOfA (a + 1);
          mergeLoop fuel' (a + 1) b nodeA nodeB m
      else Ok m
  end.

(** The first nodes are read before the loop. *)
Definition mergeLabels (a b : Z) : res best :=
  nodeA ← nodeOfA a;
  nodeB ← nodeOfB b;
  mergeLoop (S (Z.to_nat (endA - a) + Z.to_nat (endB - b))) a b nodeA nodeB (mkBest (-1) MAX_VALUE (-1) (-1)).
End merge.

Section router.
Context {D : Type} (zero minusOne : D) (c : coordinates D).
Context (nodes : HubLNodes.t D) (edges : HubLEdges.t).

(** [getEdges]; the answer is the stack with the edges pushed. *)
Fixpoint getEdges (fuel : nat) (currentNode highestLvlNode : Z) (edgeStack : IntStack.t) : res IntStack.t :=
  match fuel with
  | O => Err OutOfFuel
  | S fuel' =>
      if currentNode =? highestLvlNode then Ok edgeStack else
      startIdx ← getLabelOffset nodes currentNode;
      endIdx ← getLabelOffset nodes (currentNode + 1);
      labelIdx ← binarySearchRange (labelNode nodes) startIdx endIdx highestLvlNode;
      edgeId ← getLabelEdge nodes labelIdx;
      currentNode ← HubLEdges.getDest edges edgeId;
      edgeStack ← push edgeStack edgeId;
      getEdges fuel' currentNode highestLvlNode edgeStack
  end.

(** Levels rise along the way, so there are never more edges than nodes. *)
Definition upFuel : nat := S (length (labelOffset nodes)).

(** The edges from a node that has labels to the hub: the first edge of its label at [idx], and
    the edges from there on. *)
Definition labelEdges (isLeft : bool) (nodeId : Z) (idx hub : Z) (r : t) : res t :=
  if negb (nodeId =? hub) then
    nextEdge ← getLabelEdge nodes idx;
    nextNode ← HubLEdges.getDest edges nextEdge;
    st ← push (edgesOf isLeft r) nextEdge;
    st ← getEdges upFuel nextNode hub st;
    Ok (setEdges isLeft r st)
  else Ok r.

(** ** [calculateRoute] *)

(** The inner loops: unpack what is on [edgeCalcStack] and collect the destinations of the
    original edges.  The left side takes the first part of a shortcut first, the right side the
    second. *)
Fixpoint unpackLoop (fuel : nat) (isLeft : bool) (calc result : IntStack.t) : res (IntStack.t * IntStack.t) :=
  match fuel with
  | O => Err OutOfFuel
  | S fuel' =>
      if IntStack.isEmpty calc then Ok (calc, result) else
      '(currentEdge, calc) ← pop calc;
      if isShortcut edges currentEdge then
        second ← getSecondShortcut edges currentEdge;
        first ← getFirstShortcut edges currentEdge;
        calc ← push calc (if isLeft then second else first);
        calc ← push calc (if isLeft then first else second);
        unpackLoop fuel' isLeft calc result
      else
        d ← HubLEdges.getDest edges currentEdge;
        result ← push result d;
        unpackLoop fuel' isLeft calc result
  end.

(** The outer loops: the left edges are taken first in first out, the right ones last in first
    out. *)
Fixpoint expandLoop (fuel : nat) (isLeft : bool) (es calc result : IntStack.t)
    : res (IntStack.t * IntStack.t * IntStack.t) :=
  match fuel with
  | O => Err OutOfFuel
  | S fuel' =>
      if IntStack.isEmpty es then Ok (es, calc, result) else
      '(e, es) ← (if isLeft then popFifo es else pop es);
      calc ← push calc e;
      '(calc, result) ← unpackLoop fuel isLeft calc result;
      expandLoop fuel' isLeft es calc result
  end.

Definition calculateRoute (fuel : nat) (start dest : Z) (r : t) : res t :=
  result ← push (resultNodes r) start;
  '(el, calc, result) ← expandLoop fuel true (edgesLeft r) (edgeCalcStack r) result;
  '(_, result) ← pop result;
  '(er, calc, result) ← expandLoop fuel false (edgesRight r) calc result;
  result ← push result dest;
  Ok (mk result er el calc (heap r) (labelHeap r) (left r) (right r)).

(** The loop that moves [resultNodes] into the path. *)
Fixpoint drain (fuel : nat) (st : IntStack.t) (path : list Z) : res (list Z * IntStack.t) :=
  match fuel with
  | O => Err OutOfFuel
  | S fuel' =>
      if IntStack.isEmpty st then Ok (path, st) else
      '(x, st) ← popFifo st;
      drain fuel' st (path ++ [x])
  end.

Definition finish (fuel : nat) (start dest distance : Z) (r : t) : res (RoutingResult.t D * t) :=
  r ← calculateRoute fuel start dest r;
  '(path, st) ← drain (S (Z.to_nat (nextIdx (resultNodes r)))) (resultNodes r) [];
  result ← newFound c zero path distance true;
  Ok (result, setResults r st (edgeCalcStack r)).

(** ** Both nodes have labels *)

Definition route2Lbl (fuel : nat) (startId destId : Z) (r : t) : res (RoutingResult.t D * t) :=
  currOffsetA ← getLabelOffset nodes startId;
  currOffsetB ← getLabelOffset nodes destId;
  endOffsetA ← getLabelOffset nodes (startId + 1);
  endOffsetB ← getLabelOffset nodes (destId + 1);
  if (currOffsetA =? endOffsetA) || (currOffsetB =? endOffsetB) then Ok (newEmpty minusOne, r) else
  m ← mergeLabels (getLabelNode nodes) (getLabelNode nodes) (getLabelDist nodes) (getLabelDist nodes)
        endOffsetA endOffsetB currOffsetA currOffsetB;
  if highestLvlNode m =? -1 then Ok (newEmpty minusOne, r) else
  r ← labelEdges false destId (idxB m) (highestLvlNode m) r;
  r ← labelEdges true startId (idxA m) (highestLvlNode m) r;
  finish fuel startId destId (currDistance m) r.

(** ** Temporary labels *)

(** [addEdges]: the edges from the node [stopId] up to [nodeId], by the recorded predecessors. *)
Fixpoint predecessorEdges (fuel : nat) (s : side) (nodeId stopId : Z) (tmpStack : IntStack.t) : res IntStack.t :=
  match fuel with
  | O => Err OutOfFuel
  | S fuel' =>
      if nodeId =? stopId then Ok tmpStack else
      let nodeIdx := OrderedIntSet.getIdx (label s) nodeId in
      e ← OrderedIntSet.get (edgeTo s) nodeIdx;
      tmpStack ← push tmpStack e;
      nodeId ← OrderedIntSet.get (addInfo s) nodeIdx;
      predecessorEdges fuel' s nodeId stopId tmpStack
  end.

Fixpoint moveAll (fuel : nat) (from to : IntStack.t) : res IntStack.t :=
  match fuel with
  | O => Err OutOfFuel
  | S fuel' =>
      if IntStack.isEmpty from then Ok to else
      '(x, from) ← popFifo from;
      to ← push to x;
      moveAll fuel' from to
  end.

Definition addEdges (fuel : nat) (isLeft : bool) (nodeId stopId : Z) (r : t) : res t :=
  tmpStack ← IntStack.new 20;
  tmpStack ← predecessorEdges fuel (sideOf isLeft r) nodeId stopId tmpStack;
  st ← moveAll (S (Z.to_nat (nextIdx tmpStack))) tmpStack (edgesOf isLeft r);
  Ok (setEdges isLeft r st).

(** The edges from a node without labels to the hub, by the additional info of the hub's
    temporary label: below -1 it encodes a node whose stored labels lead on, otherwise it is the
    predecessor of the hub, or -1 for the node itself. *)
Definition tempEdges (fuel : nat) (isLeft : bool) (stopId idx hub : Z) (r : t) : res t :=
  info ← OrderedIntSet.get (addInfo (sideOf isLeft r)) idx;
  if info <? -1 then
    r ← addEdges fuel isLeft ((info + 2) * (-1)) stopId r;
    firstEdge ← OrderedIntSet.get (edgeTo (sideOf isLeft r)) idx;
    st ← push (edgesOf isLeft r) firstEdge;
    d ← HubLEdges.getDest edges firstEdge;
    st ← getEdges upFuel d hub st;
    Ok (setEdges isLeft r st)
  else if negb (info =? -1) then addEdges fuel isLeft info stopId r
  else Ok r.

(** Storing a new temporary label at [insertIdx], or a better one in place. *)
Definition insertLabel (s : side) (node d e info insertIdx : Z) : res side :=
  l ← OrderedIntSet.insertAtIdx (label s) node insertIdx;
  di ← OrderedIntSet.insertAtIdx (distTo s) d insertIdx;
  ed ← OrderedIntSet.insertAtIdx (edgeTo s) e insertIdx;
  ai ← OrderedIntSet.insertAtIdx (addInfo s) info insertIdx;
  Ok (mkSide l di ed ai).

Definition updateLabel (s : side) (d e info insertIdx : Z) : res side :=
  di ← OrderedIntSet.updateValue (distTo s) d insertIdx;
  ed ← OrderedIntSet.updateValue (edgeTo s) e insertIdx;
  ai ← OrderedIntSet.updateValue (addInfo s) info insertIdx;
  Ok (mkSide (label s) di ed ai).

(** The body of the loop over the edges of [currNode]; the state is the two heaps, the side and
    [maxNumOfLabels]. *)
Record search := mkSearch { sHeap : DistanceHeap.t; sLabelHeap : DistanceHeap.t; sSide : side; sMax : Z }.

Definition searchEdge (currNode currNodeDist i : Z) (st : search) : res search :=
  edgeId ← getEdge nodes i;
  destNode ← HubLEdges.getDest edges edgeId;
  edgeDist ← HubLEdges.getDist edges edgeId;
  let insertIdx := OrderedIntSet.getIdx (label (sSide st)) destNode in
  if insertIdx <? 0 then
    let initialDist := iadd currNodeDist edgeDist in
    hl ← nodeHasLabels nodes destNode;
    st ← (if (hl : bool) then
            lh ← DistanceHeap.add (sLabelHeap st) destNode initialDist;
            hi ← getLabelOffset nodes (destNode + 1);
            lo ← getLabelOffset nodes destNode;
            Ok (mkSearch (sHeap st) lh (sSide st) (iadd (sMax st) (hi - lo)))
          else
            h ← DistanceHeap.add (sHeap st) destNode initialDist;
            Ok (mkSearch h (sLabelHeap st) (sSide st) (sMax st)));
    s ← insertLabel (sSide st) destNode initialDist edgeId currNode (insertionPoint insertIdx);
    Ok (mkSearch (sHeap st) (sLabelHeap st) s (sMax st))
  else
    prevDist ← OrderedIntSet.get (distTo (sSide st)) insertIdx;
    let newDist := iadd currNodeDist edgeDist in
    if newDist <? prevDist then
      hl ← nodeHasLabels nodes destNode;
      st ← (if (hl : bool) then
              lh ← DistanceHeap.add (sLabelHeap st) destNode newDist;
              Ok (mkSearch (sHeap st) lh (sSide st) (sMax st))
            else
              h ← DistanceHeap.add (sHeap st) destNode newDist;
              Ok (mkSearch h (sLabelHeap st) (sSide st) (sMax st)));
      s ← updateLabel (sSide st) newDist edgeId currNode insertIdx;
      Ok (mkSearch (sHeap st) (sLabelHeap st) s (sMax st))
    else Ok st.

Fixpoint searchLoop (fuel : nat) (st : search) : res search :=
  match fuel with
  | O => Err OutOfFuel
  | S fuel' =>
      if DistanceHeap.isEmpty (sHeap st) then Ok st else
      '(currNode, h) ← DistanceHeap.getNext (sHeap st);
      let currNodeIdx := OrderedIntSet.getIdx (label (sSide st)) currNode in
      currNodeDist ← OrderedIntSet.get (distTo (sSide st)) currNodeIdx;
      edgesStart ← getEdgeOffset nodes currNode;
      edgesStop ← getEdgeOffset nodes (currNode + 1);
      st ← forRange edgesStart edgesStop (searchEdge currNode currNodeDist)
             (mkSearch h (sLabelHeap st) (sSide st) (sMax st));
      searchLoop fuel' st
  end.

(** The body of the loop over the stored labels of [labelNode]. *)
Definition mergeStored (labelNode nodeDist currIdx : Z) (s : side) : res side :=
  currLabelNode ← getLabelNode nodes currIdx;
  let currLabelIdx := OrderedIntSet.getIdx (label s) currLabelNode in
  if currLabelIdx <? 0 then
    d ← getLabelDist nodes currIdx;
    e ← getLabelEdge nodes currIdx;
    insertLabel s currLabelNode (iadd nodeDist d) e (labelNode * (-1) - 2) (insertionPoint currLabelIdx)
  else
    d ← getLabelDist nodes currIdx;
    let newDistance := iadd nodeDist d in
    oldDistance ← OrderedIntSet.get (distTo s) currLabelIdx;
    if newDistance <? oldDistance then
      e ← getLabelEdge nodes currIdx;
      updateLabel s newDistance e (labelNode * (-1) - 2) currLabelIdx
    else Ok s.

Fixpoint labelLoop (fuel : nat) (lh : DistanceHeap.t) (s : side) : res (DistanceHeap.t * side) :=
  match fuel with
  | O => Err OutOfFuel
  | S fuel' =>
      if DistanceHeap.isEmpty lh then Ok (lh, s) else
      '(labelNode, lh) ← DistanceHeap.getNext lh;
      nodeDist ← OrderedIntSet.get (distTo s) (OrderedIntSet.getIdx (label s) labelNode);
      endIdx ← getLabelOffset nodes (labelNode + 1);
      startIdx ← getLabelOffset nodes labelNode;
      s ← forRange startIdx endIdx (mergeStored labelNode nodeDist) s;
      labelLoop fuel' lh s
  end.

Definition makeSpaceSide (s : side) (n : Z) : res side :=
  l ← OrderedIntSet.makeSpace (label s) n;
  d ← OrderedIntSet.makeSpace (distTo s) n;
  e ← OrderedIntSet.makeSpace (edgeTo s) n;
  a ← OrderedIntSet.makeSpace (addInfo s) n;
  Ok (mkSide l d e a).

Definition calcTempLabels (fuel : nat) (nodeId : Z) (isLeft : bool) (r : t) : res t :=
  let lh := DistanceHeap.reset (labelHeap r) in
  let h := DistanceHeap.reset (heap r) in
  let s := sideOf isLeft r in
  l ← OrderedIntSet.insertTail (label s) nodeId;
  d ← OrderedIntSet.insertTail (distTo s) 0;
  e ← OrderedIntSet.insertTail (edgeTo s) (-1);
  a ← OrderedIntSet.insertTail (addInfo s) (-1);
  h ← DistanceHeap.add h nodeId 0;
  st ← searchLoop fuel (mkSearch h lh (mkSide l d e a) 0);
  s ← makeSpaceSide (sSide st) (sMax st);
  '(lh, s) ← labelLoop fuel (sLabelHeap st) s;
  Ok (setSide isLeft (setHeaps r (sHeap st) lh) s).

(** The dummy label that lets the loop read one label too far. *)
Definition addDummy (isLeft : bool) (r : t) : res t :=
  let s := sideOf isLeft r in
  l ← OrderedIntSet.insertTail (label s) MAX_VALUE;
  Ok (setSide isLeft r (mkSide l (distTo s) (edgeTo s) (addInfo s))).

(** ** One node or no node has labels *)

Definition routeLeftLbl (fuel : nat) (startId destId : Z) (r : t) : res (RoutingResult.t D * t) :=
  r ← calcTempLabels fuel destId false r;
  leftIdx ← getLabelOffset nodes startId;
  leftMaxIdx ← getLabelOffset nodes (startId + 1);
  let rightSize := OrderedIntSet.size (label (right r)) in
  if (leftIdx =? leftMaxIdx) || (rightSize =? 0) then Ok (newEmpty minusOne, r) else
  r ← addDummy false r;
  m ← mergeLabels (getLabelNode nodes) (OrderedIntSet.get (label (right r)))
        (getLabelDist nodes) (OrderedIntSet.get (distTo (right r))) leftMaxIdx rightSize leftIdx 0;
  if highestLvlNode m =? -1 then Ok (newEmpty minusOne, r) else
  r ← labelEdges true startId (idxA m) (highestLvlNode m) r;
  r ← tempEdges fuel false destId (idxB m) (highestLvlNode m) r;
  finish fuel startId destId (currDistance m) r.

Definition routeRightLbl (fuel : nat) (startId destId : Z) (r : t) : res (RoutingResult.t D * t) :=
  r ← calcTempLabels fuel startId true r;
  rightIdx ← getLabelOffset nodes destId;
  rightMaxIdx ← getLabelOffset nodes (destId + 1);
  let leftSize := OrderedIntSet.size (label (left r)) in
  if (rightIdx =? rightMaxIdx) || (leftSize =? 0) then Ok (newEmpty minusOne, r) else
  r ← addDummy true r;
  m ← mergeLabels (getLabelNode nodes) (OrderedIntSet.get (label (left r)))
        (getLabelDist nodes) (OrderedIntSet.get (distTo (left r))) rightMaxIdx leftSize rightIdx 0;
  if highestLvlNode m =? -1 then Ok (newEmpty minusOne, r) else
  r ← labelEdges false destId (idxA m) (highestLvlNode m) r;
  r ← tempEdges fuel true startId (idxB m) (highestLvlNode m) r;
  finish fuel startId destId (currDistance m) r.

Definition route0Lbl (fuel : nat) (startId destId : Z) (r : t) : res (RoutingResult.t D * t) :=
  r ← calcTempLabels fuel startId true r;
  r ← calcTempLabels fuel destId false r;
  let leftSize := OrderedIntSet.size (label (left r)) in
  let rightSize := OrderedIntSet.size (label (right r)) in
  if (leftSize =? 0) || (rightSize =? 0) then Ok (newEmpty minusOne, r) else
  r ← addDummy true r;
  r ← addDummy false r;
  m ← mergeLabels (OrderedIntSet.get (label (left r))) (OrderedIntSet.get (label (right r)))
        (OrderedIntSet.get (distTo (left r))) (OrderedIntSet.get (distTo (right r))) leftSize rightSize 0 0;
  if highestLvlNode m =? -1 then Ok (newEmpty minusOne, r) else
  r ← tempEdges fuel true startId (idxA m) (highestLvlNode m) r;
  r ← tempEdges fuel false destId (idxB m) (highestLvlNode m) r;
  finish fuel startId destId (currDistance m) r.

Definition routeGeneral (fuel : nat) (startNodeIdx destNodeIdx : Z) (r : t) : res (RoutingResult.t D * t) :=
  let r := reset r in
  startHasLabels ← nodeHasLabels nodes startNodeIdx;
  destHasLabels ← nodeHasLabels nodes destNodeIdx;
  if (startHasLabels : bool) && (destHasLabels : bool) then route2Lbl fuel startNodeIdx destNodeIdx r
  else if negb startHasLabels && negb destHasLabels then route0Lbl fuel startNodeIdx destNodeIdx r
  else if startHasLabels then routeLeftLbl fuel startNodeIdx destNodeIdx r
  else routeRightLbl fuel startNodeIdx destNodeIdx r.

(** [route]; [time] is the elapsed time read from the clock. *)
Definition route (fuel : nat) (time : D) (startNodeId destNodeId : Z) (r : t) : res (RoutingResult.t D * t) :=
  '(result, r) ← routeGeneral fuel startNodeId destNodeId r;
  Ok (setCalculationTimeInMs result time, r).
End router.
