(* ===== verification/HubLRoute.v ===== *)
(** * Correctness of the hub label router between two nodes with labels

    The loops of [HubLRouter] are shown to do what their names say: [mergeLabels] finds the best
    common label, [getEdges] follows the labels up to the hub, [calculateRoute] unpacks the edges
    of both sides into the nodes of the path.  Together, [route2Lbl] answers a walk of the answered
    length, which is the least over the common labels. *)

From S2P Require Import Prelude SortedArray IntStack HubLEdges HubLNodes RoutingResult HubLRouter.

(** ** Walks through a list of nodes *)

Inductive linked (E : Z -> Z -> Z -> Prop) : list Z -> Z -> Prop :=
| linked_one x : linked E [x] 0
| linked_cons x y l w d : E x y w -> linked E (y :: l) d -> linked E (x :: y :: l) (w + d).

Section linked.
Context (E : Z -> Z -> Z -> Prop) (Esym : forall u v w, E u v w -> E v u w).

Lemma linked_join l1 x l2 d1 d2 : linked E (l1 ++ [x]) d1 -> linked E (x :: l2) d2 ->
  linked E (l1 ++ x :: l2) (d1 + d2).
Proof.
  revert d1. induction l1 as [|y l1 IH]; cbn [app]; intros d1 H1 H2.
  { inversion H1; subst. by rewrite Z.add_0_l. }
  destruct l1 as [|z l1]; cbn [app] in *.
  - inversion H1 as [|? ? ? w d He Hl]; subst. inversion Hl; subst.
    rewrite Z.add_0_r. by constructor.
  - inversion H1 as [|? ? ? w d He Hl]; subst. rewrite <-Z.add_assoc. constructor; [done |]. by apply IH.
Qed.

Lemma linked_rev l d : linked E l d -> linked E (rev l) d.
Proof.
  induction 1 as [x | x y l w d He Hl IH]; [constructor |].
  cbn [rev] in *. rewrite <-app_assoc. cbn [app]. rewrite Z.add_comm.
  apply linked_join; [done |]. replace w with (w + 0) by lia. constructor; [by apply Esym | constructor].
Qed.
End linked.

(** ** Unpacking the edges of a route *)

Section unpacking.
Context (edges : HubLEdges.t) (src : Z -> Z) (Hok : edges_ok edges src).

(** Original edges, in either direction. *)
Definition original (u v w : Z) : Prop :=
  exists e, edge_id edges e /\ isShortcut edges e = false /\
    ((src e = u /\ (dest edges).[e] = v) \/ (src e = v /\ (dest edges).[e] = u)) /\ (dist edges).[e] = w.

Lemma original_sym u v w : original u v w -> original v u w.
Proof. intros (e & ? & ? & ? & ?). exists e. tauto. Qed.

Definition orient (isLeft : bool) (l : list Z) : list Z := if isLeft then l else rev l.

(** The original edges that come out when the edges [T] are unpacked one after the other. *)
Inductive emits (isLeft : bool) : list Z -> list Z -> Prop :=
| emits_nil : emits isLeft [] []
| emits_cons e T l out : unpacks edges e l -> emits isLeft T out ->
    emits isLeft (e :: T) (orient isLeft l ++ out).

Definition destOf (e : Z) : Z := (dest edges).[e].

Lemma emits_length isLeft T out : emits isLeft T out -> (length T <= length out)%nat.
Proof.
  induction 1 as [|e T l out Hu He IH]; cbn; [lia |]. rewrite length_app.
  apply unpacks_pos in Hu. unfold orient. destruct isLeft; rewrite ?length_rev; lia.
Qed.

Lemma emits_left T out : unpacksAll edges T out -> emits true T out.
Proof. induction 1; [constructor |]. by apply (emits_cons true). Qed.

Lemma emits_snoc isLeft T out e l : emits isLeft T out -> unpacks edges e l ->
  emits isLeft (T ++ [e]) (out ++ orient isLeft l).
Proof.
  induction 1 as [|e' T l' out Hu He IH]; intros H; cbn [app].
  - rewrite <-(app_nil_r (orient isLeft l)). constructor; [done | constructor].
  - rewrite <-app_assoc. constructor; auto.
Qed.

Lemma emits_right T out : unpacksAll edges T out -> emits false (rev T) (rev out).
Proof.
  induction 1; [constructor |]. cbn [rev]. rewrite rev_app_distr. by apply (emits_snoc false).
Qed.

Lemma unpackLoop_ok fuel : forall isLeft calc result st T out R,
  repr calc st -> st = rev T -> emits isLeft T out -> repr result R ->
  2 * alen out - alen T < Z.of_nat fuel ->
  returns (unpackLoop edges fuel isLeft calc result) (fun '(calc', result') =>
    repr calc' [] /\ repr result' (R ++ map destOf out)).
Proof.
  induction fuel as [|fuel IH]; intros isLeft calc result st T out R Hc -> Hem Hr Hfuel.
  { pose proof (emits_length _ _ _ Hem). unfold alen in *. lia. }
  cbn [unpackLoop]. rewrite (isEmpty_repr _ _ Hc).
  destruct Hem as [|e T l out Hu Hem].
  { cbn. ret. by rewrite app_nil_r. }
  cbn [rev] in *. rewrite bool_decide_false by (by destruct (rev T)).
  eapply returns_bind; [by apply pop_repr |]. intros [x calc'] [-> Hc']. cbv beta iota.
  destruct Hu as [e He Hs | e l1 l2 He Hs Hu1 Hu2]; rewrite Hs.
  - unfold HubLEdges.getDest. rewrite aget_ok, bind_ok by apply He.
    eapply returns_bind; [by apply push_repr |]. cbv beta. intros result' Hr'.
    eapply returns_mono; [apply (IH isLeft calc' result' (rev T) T out _ Hc' eq_refl Hem Hr') |].
    { assert (alen (orient isLeft [e] ++ out) = 1 + alen out) as El
        by (destruct isLeft; cbn; autorewrite with alen; lia).
      rewrite El in Hfuel. autorewrite with alen in Hfuel. lia. }
    intros [calc'' result''] [? Hr'']. split; [done |].
    destruct isLeft; cbn; by rewrite <-app_assoc in Hr''.
  - rewrite (getSecondShortcut_ok _ src Hok e He Hs), (getFirstShortcut_ok _ src Hok e He Hs), !bind_ok.
    eapply returns_bind; [by apply push_repr |]. cbv beta. intros c1 Hc1.
    eapply returns_bind; [by apply push_repr |]. cbv beta. intros c2 Hc2.
    assert (emits isLeft ((if isLeft then firstPart edges e else secondPart edges e) ::
      (if isLeft then secondPart edges e else firstPart edges e) :: T) (orient isLeft (l1 ++ l2) ++ out)) as Hem'.
    { destruct isLeft; cbn; [rewrite <-app_assoc | rewrite rev_app_distr, <-app_assoc];
        apply (emits_cons true) || apply (emits_cons false); try done;
        apply (emits_cons true) || apply (emits_cons false); done. }
    eapply (IH isLeft c2 result _ (_ :: _ :: T)); [exact Hc2 | reflexivity | exact Hem' | exact Hr |].
    rewrite alen_cons in Hfuel. rewrite !alen_cons. lia.
Qed.

Lemma expandLoop_ok fuel : forall isLeft es calc result Es out R,
  repr es (orient isLeft Es) -> emits isLeft Es out -> repr calc [] -> repr result R ->
  2 * alen out < Z.of_nat fuel ->
  returns (expandLoop edges fuel isLeft es calc result) (fun '(es', calc', result') =>
    repr es' [] /\ repr calc' [] /\ repr result' (R ++ map destOf out)).
Proof.
  induction fuel as [|fuel IH]; intros isLeft es calc result Es out R He Hem Hc Hr Hfuel.
  { pose proof (alen_nonneg out). lia. }
  cbn [expandLoop]. rewrite (isEmpty_repr _ _ He).
  destruct Hem as [|e T l out Hu Hem].
  { replace (orient isLeft []) with (@nil Z) in * by by destruct isLeft.
    rewrite bool_decide_true by done. ret. by rewrite app_nil_r. }
  rewrite bool_decide_false by (destruct isLeft; [done | cbn; by destruct (rev T)]).
  eapply (returns_bind _ _ (fun '(x, es') => x = e /\ repr es' (orient isLeft T))).
  { destruct isLeft; cbn [orient rev] in He |- *; [by apply popFifo_repr | by apply pop_repr]. }
  intros [x es'] [-> He']. cbv beta iota.
  eapply returns_bind; [by apply push_repr |]. cbv beta. intros calc1 Hc1. cbn [app] in Hc1.
  assert (alen (orient isLeft l) = alen l) as El
    by (destruct isLeft; cbn [orient]; unfold alen; by rewrite ?length_rev).
  rewrite alen_app, El in Hfuel. pose proof (unpacks_pos _ _ _ Hu) as Hpos. pose proof (alen_nonneg out).
  eapply returns_bind.
  { apply (unpackLoop_ok (S fuel) isLeft calc1 result [e] [e] (orient isLeft l ++ []) R Hc1 eq_refl);
      [constructor; [done | constructor] | done |].
    rewrite app_nil_r, El. autorewrite with alen. lia. }
  intros [calc2 result2] [Hc2 Hr2]. cbv beta iota. rewrite app_nil_r in Hr2.
  eapply returns_mono; [apply (IH isLeft es' calc2 result2 T out _ He' Hem Hc2 Hr2) |].
  { unfold alen in *. lia. }
  intros [[es3 calc3] result3] (? & ? & ?). by rewrite map_app, app_assoc.
Qed.

(** The path that [calculateRoute] builds. *)
Definition joined (start dest : Z) (UL UR : list Z) : list Z :=
  removelast (start :: map destOf UL) ++ rev (map destOf UR) ++ [dest].

Lemma calculateRoute_ok fuel start dest r L R UL UR :
  repr (resultNodes r) [] -> repr (edgeCalcStack r) [] ->
  repr (edgesLeft r) L -> repr (edgesRight r) R ->
  unpacksAll edges L UL -> unpacksAll edges R UR ->
  2 * alen UL < Z.of_nat fuel -> 2 * alen UR < Z.of_nat fuel ->
  returns (calculateRoute edges fuel start dest r) (fun r' =>
    repr (resultNodes r') (joined start dest UL UR) /\ repr (edgeCalcStack r') [] /\
    repr (edgesLeft r') [] /\ repr (edgesRight r') []).
Proof.
  intros Hres Hcalc HL HR HUL HUR HfL HfR. unfold calculateRoute.
  eapply returns_bind; [by apply push_repr |]. cbv beta. intros r1 Hr1. cbn [app] in Hr1.
  eapply returns_bind.
  { apply (expandLoop_ok fuel true (edgesLeft r) (edgeCalcStack r) r1 L UL); try done. by apply emits_left. }
  intros [[el c1] r2] (Hel & Hc1 & Hr2). cbv beta iota.
  assert ([start] ++ map destOf UL = removelast (start :: map destOf UL) ++ [List.last (start :: map destOf UL) 0]) as E
    by (by apply app_removelast_last).
  rewrite E in Hr2. eapply returns_bind; [by apply pop_repr |]. intros [x r3] [-> Hr3]. cbv beta iota.
  eapply returns_bind.
  { apply (expandLoop_ok fuel false (edgesRight r) c1 r3 (rev R) (rev UR) (removelast (start :: map destOf UL))); try done.
    - cbn [orient]. by rewrite rev_involutive.
    - by apply emits_right.
    - unfold alen in *. by rewrite length_rev. }
  intros [[er c2] r4] (Her & Hc2 & Hr4). cbv beta iota.
  eapply returns_bind; [by apply push_repr |]. cbv beta. intros r5 Hr5. ret.
  cbn. unfold joined. rewrite <-app_assoc, map_rev in Hr5. done.
Qed.

(** ** The path is a walk *)

Lemma chain_linked u l v : chain edges src u l v -> (forall e, e ∈ l -> isShortcut edges e = false) ->
  linked original (u :: map destOf l) (distOf edges l).
Proof.
  revert u. induction l as [|e l IH]; cbn [chain map]; intros u Hc Ho; [constructor |].
  destruct Hc as (He & <- & Hc). unfold distOf. cbn [foldr]. constructor.
  - exists e. split_and!; [done | apply Ho; set_solver + | by left | done].
  - apply IH; [done |]. intros e' He'. apply Ho. set_solver +He'.
Qed.

Lemma chain_last u l v d : chain edges src u l v -> List.last (u :: map destOf l) d = v.
Proof.
  revert u. induction l as [|e l IH]; cbn [chain map]; intros u Hc; [done |].
  destruct Hc as (_ & _ & Hc). by apply (IH (destOf e)).
Qed.

Lemma chain_edge_id u l v e : chain edges src u l v -> e ∈ l -> edge_id edges e.
Proof.
  revert u. induction l as [|e' l IH]; cbn [chain]; intros u Hc He; [set_solver |].
  destruct Hc as (? & _ & Hc). apply elem_of_cons in He as [-> | He]; [done | by eapply IH].
Qed.

Lemma joined_nodes start dest UL UR x : x ∈ joined start dest UL UR ->
  x = start \/ x = dest \/ exists e, e ∈ UL ++ UR /\ x = destOf e.
Proof.
  unfold joined. rewrite !elem_of_app, list_elem_of_singleton.
  intros [Hx | [Hx | ->]]; [| | auto].
  - assert (x ∈ start :: map destOf UL) as Hx'.
    { rewrite (@app_removelast_last _ (start :: map destOf UL) 0) by done. set_solver +Hx. }
    apply elem_of_cons in Hx' as [-> | Hx']; [by left |].
    apply list_elem_of_In, in_map_iff in Hx' as (e & <- & He%list_elem_of_In). right. right.
    exists e. set_solver +He.
  - apply list_elem_of_In, in_rev, in_map_iff in Hx.
    destruct Hx as (e & <- & He%list_elem_of_In). right. right. exists e. set_solver +He.
Qed.

Lemma unpacks_original_all e l : unpacks edges e l -> forall x, x ∈ l -> isShortcut edges x = false.
Proof.
  induction 1 as [| e l1 l2 He Hs H1 IH1 H2 IH2]; intros x Hx; [set_solver |].
  apply elem_of_app in Hx as [?|?]; auto.
Qed.

Lemma unpacksAll_original es l : unpacksAll edges es l -> forall x, x ∈ l -> isShortcut edges x = false.
Proof.
  induction 1 as [|e es l ls Hu Hus IH]; intros x Hx; [set_solver |].
  apply elem_of_app in Hx as [?|?]; [by eapply unpacks_original_all | auto].
Qed.

(** Two chains that meet in [hub], unpacked, give a walk from the one start to the other. *)
Lemma joined_linked start dest hub UL UR :
  chain edges src start UL hub -> chain edges src dest UR hub ->
  (forall e, e ∈ UL ++ UR -> isShortcut edges e = false) ->
  linked original (joined start dest UL UR) (distOf edges UL + distOf edges UR) /\
  head (joined start dest UL UR) = Some start /\ last (joined start dest UL UR) = Some dest.
Proof.
  intros HL HR Ho. unfold joined.
  pose proof (chain_linked _ _ _ HL) as LL. specialize (LL ltac:(intros e He; apply Ho; set_solver +He)).
  pose proof (chain_linked _ _ _ HR) as LR. specialize (LR ltac:(intros e He; apply Ho; set_solver +He)).
  apply (linked_rev _ original_sym) in LR. cbn [rev] in LR.
  assert (exists r, rev (map destOf UR) ++ [dest] = hub :: r) as [r Er].
  { pose proof (chain_last _ _ _ 0 HR) as El. change (rev (map destOf UR) ++ [dest]) with (rev (dest :: map destOf UR)).
    destruct (@exists_last _ (dest :: map destOf UR)) as (l0 & z & E0); [done |].
    rewrite E0 in El |- *. rewrite List.last_last in El. subst z. rewrite rev_app_distr. by eexists. }
  rewrite Er in LR. rewrite (@app_removelast_last _ (start :: map destOf UL) 0) in LL by done.
  rewrite (chain_last _ _ _ 0 HL) in LL. split_and!.
  - rewrite Er. by apply linked_join.
  - rewrite Er. destruct UL as [|e UL]; [| done]. cbn in HL. subst hub. done.
  - by rewrite app_assoc, last_snoc.
Qed.
End unpacking.

(** ** The best common label *)

Section merge.
Context (nA nB dA dB : Z -> Z) (a0 b0 endA endB : Z).

(** [i] and [j] are labels of the two sides with the same node. *)
Definition common (i j : Z) : Prop := a0 <= i < endA /\ b0 <= j < endB /\ nA i = nB j.

(** [m] is a best common label, if there is one. *)
Definition is_best (m : best) : Prop :=
  (highestLvlNode m = -1 /\ forall i j, ~ common i j) \/
  (common (idxA m) (idxB m) /\ highestLvlNode m = nA (idxA m) /\ 0 <= highestLvlNode m /\
   currDistance m = dA (idxA m) + dB (idxB m) /\
   forall i j, common i j -> currDistance m <= dA i + dB j).

Record sorted_labels : Prop := {
  sl_ascA : forall i j, a0 <= i < j -> j < endA -> nA i < nA j;
  sl_ascB : forall i j, b0 <= i < j -> j < endB -> nB i < nB j;
  sl_nodes : forall i, a0 <= i < endA -> 0 <= nA i;
  sl_distA : forall i, a0 <= i < endA -> 0 <= dA i;
  sl_distB : forall i, b0 <= i < endB -> 0 <= dB i;
  sl_sum : forall i j, common i j -> dA i + dB j < MAX_VALUE;
}.

(** The best over the common labels before [a] or before [b]. *)
Definition best_upto (a b : Z) (m : best) : Prop :=
  (m = mkBest (-1) MAX_VALUE (-1) (-1) /\ forall i j, common i j -> a <= i /\ b <= j) \/
  (common (idxA m) (idxB m) /\ highestLvlNode m = nA (idxA m) /\ 0 <= highestLvlNode m /\
   currDistance m = dA (idxA m) + dB (idxB m) /\
   forall i j, common i j -> (a <= i /\ b <= j) \/ currDistance m <= dA i + dB j).

Context (nodeOfA nodeOfB distOfA distOfB : Z -> res Z).
Context (EnA : forall i, a0 <= i <= endA -> nodeOfA i = Ok (nA i)).
Context (EnB : forall i, b0 <= i <= endB -> nodeOfB i = Ok (nB i)).
Context (EdA : forall i, a0 <= i < endA -> distOfA i = Ok (dA i)).
Context (EdB : forall i, b0 <= i < endB -> distOfB i = Ok (dB i)).
Context (Hs : sorted_labels).

Lemma best_step a b m : a0 <= a < endA -> b0 <= b < endB -> nA a = nB b -> best_upto a b m ->
  best_upto (a + 1) (b + 1)
    (if dA a + dB b <? currDistance m then mkBest (nA a) (dA a + dB b) a b else m).
Proof.
  intros Ha Hb Hn Hm. assert (common a b) as Hcom by done.
  assert (forall i j, common i j -> a <= i -> b <= j -> (i = a /\ j = b) \/ (a + 1 <= i /\ b + 1 <= j)) as Hcases.
  { intros i j (Hi & Hj & E) Hai Hbj. destruct (decide (i = a)) as [-> |].
    - destruct (decide (j = b)) as [-> |]; [by left |].
      pose proof (sl_ascB Hs b j). lia.
    - destruct (decide (j = b)) as [-> |]; [| right; lia].
      pose proof (sl_ascA Hs a i). lia. }
  pose proof (sl_sum Hs a b Hcom). pose proof (sl_nodes Hs a Ha).
  destruct (Z.ltb_spec (dA a + dB b) (currDistance m)) as [Hlt | Hge].
  - right. cbn. split_and!; try (done || lia). intros i j Hij.
    destruct Hm as [[-> Hm] | (_ & _ & _ & _ & Hm)].
    + destruct (Hm i j Hij) as [? ?]. destruct (Hcases i j Hij) as [[-> ->] | ?]; [done | done | right; lia | by left].
    + destruct (Hm i j Hij) as [[? ?] | ?]; [| right; lia].
      destruct (Hcases i j Hij) as [[-> ->] | ?]; [done | done | right; lia | by left].
  - destruct Hm as [[-> Hm] | (Hc & Hh & Hp & Hd & Hm)]; [cbn in Hge; lia |].
    right. split_and!; try done. intros i j Hij. destruct (Hm i j Hij) as [[? ?] | ?]; [| by right].
    destruct (Hcases i j Hij) as [[-> ->] | ?]; [done | done | right; lia | by left].
Qed.

Lemma best_skip a b a' b' m : best_upto a b m ->
  (forall i j, common i j -> a <= i -> b <= j -> a' <= i /\ b' <= j) -> best_upto a' b' m.
Proof.
  intros Hm Hskip. destruct Hm as [[-> Hm] | (Hc & Hh & Hp & Hd & Hm)].
  - left. split; [done |]. intros i j Hij. destruct (Hm i j Hij). auto.
  - right. split_and!; try done. intros i j Hij.
    destruct (Hm i j Hij) as [[? ?] | ?]; [left; auto | by right].
Qed.

Lemma mergeLoop_ok fuel : forall a b m, a0 <= a <= endA -> b0 <= b <= endB ->
  (endA - a) + (endB - b) < Z.of_nat fuel -> best_upto a b m ->
  returns (mergeLoop nodeOfA nodeOfB distOfA distOfB endA endB fuel a b (nA a) (nB b) m) is_best.
Proof.
  induction fuel as [|fuel IH]; intros a b m Ha Hb Hfuel Hm; [lia |]. cbn [mergeLoop].
  destruct (Z.ltb_spec a endA) as [Hae | Hae]; cbn [andb].
  2:{ ret. destruct Hm as [[-> Hm] | (Hc & Hh & Hp & Hd & Hm)]; [left | right]; (split; [done |]).
      - intros i j Hij. destruct (Hm i j Hij). destruct Hij. lia.
      - split_and!; try done. intros i j Hij. destruct (Hm i j Hij) as [[? ?] | ?]; [destruct Hij; lia | done]. }
  destruct (Z.ltb_spec b endB) as [Hbe | Hbe].
  2:{ ret. destruct Hm as [[-> Hm] | (Hc & Hh & Hp & Hd & Hm)]; [left | right]; (split; [done |]).
      - intros i j Hij. destruct (Hm i j Hij). destruct Hij as (_ & ? & _). lia.
      - split_and!; try done. intros i j Hij.
        destruct (Hm i j Hij) as [[? ?] | ?]; [destruct Hij as (_ & ? & _); lia | done]. }
  destruct (Z.eqb_spec (nA a) (nB b)) as [En | En].
  - rewrite EdA, bind_ok, EdB, bind_ok by lia.
    assert (common a b) as Hcom by (unfold common; lia). pose proof (sl_sum Hs a b Hcom).
    pose proof (sl_distA Hs a). pose proof (sl_distB Hs b).
    rewrite iadd_id by (unfold is_int, MIN_VALUE, MAX_VALUE in *; lia). cbv zeta.
    rewrite EnA, bind_ok, EnB, bind_ok by lia. apply IH; [lia | lia | lia | apply best_step; (done || lia)].
  - destruct (Z.ltb_spec (nB b) (nA a)) as [Hlt | Hge].
    + rewrite EnB, bind_ok by lia. apply IH; [lia | lia | lia |].
      eapply best_skip; [done |]. intros i j (Hi & Hj & E) Hai Hbj. split; [done |].
      destruct (decide (j = b)) as [-> |]; [| lia].
      destruct (decide (i = a)) as [-> |]; [lia |]. pose proof (sl_ascA Hs a i). lia.
    + rewrite EnA, bind_ok by lia. apply IH; [lia | lia | lia |].
      eapply best_skip; [done |]. intros i j (Hi & Hj & E) Hai Hbj. split; [| done].
      destruct (decide (i = a)) as [-> |]; [| lia].
      destruct (decide (j = b)) as [-> |]; [lia |]. pose proof (sl_ascB Hs b j). lia.
Qed.

(** The merge reads at most one label past the end on each side, and finds the best. *)
Lemma mergeLabels_ok : a0 <= endA -> b0 <= endB ->
  returns (mergeLabels nodeOfA nodeOfB distOfA distOfB endA endB a0 b0) is_best.
Proof.
  intros Ha Hb. unfold mergeLabels. rewrite EnA, bind_ok, EnB, bind_ok by lia.
  apply mergeLoop_ok; [lia | lia | lia |]. left. split; [done |]. intros i j (Hi & Hj & E). lia.
Qed.
End merge.

(** ** Following the labels up to the hub *)

(** Consistent labels: the labels of a node are sorted by their nodes, and a label of node [v]
    for another node starts with an edge of [v] to a node of higher rank that has a label for the
    same node, shorter by that edge. *)
Record labels_sound {D} (nodes : HubLNodes.t D) (edges : HubLEdges.t) (src rank : Z -> Z) (Dmax : Z) : Prop := {
  ls_count : 0 < alen (labelOffset nodes);
  ls_arrays : alen (labelEdge nodes) = alen (labelNode nodes) /\ alen (labelDist nodes) = alen (labelNode nodes);
  ls_offsets : forall v, 0 <= v < alen (labelOffset nodes) - 1 ->
    0 <= (labelOffset nodes).[v] <= (labelOffset nodes).[v + 1] /\
    (labelOffset nodes).[v + 1] < alen (labelNode nodes);
  ls_sorted : forall v i j, 0 <= v < alen (labelOffset nodes) - 1 ->
    (labelOffset nodes).[v] <= i < j -> j < (labelOffset nodes).[v + 1] ->
    (labelNode nodes).[i] < (labelNode nodes).[j];
  ls_values : forall i, 0 <= i < alen (labelNode nodes) - 1 ->
    0 <= (labelNode nodes).[i] < alen (labelOffset nodes) - 1 /\ 0 <= (labelDist nodes).[i] <= Dmax;
  ls_rank : forall v, 0 <= v < alen (labelOffset nodes) - 1 -> 0 <= rank v < alen (labelOffset nodes);
  ls_self : forall v i, 0 <= v < alen (labelOffset nodes) - 1 ->
    (labelOffset nodes).[v] <= i < (labelOffset nodes).[v + 1] ->
    (labelNode nodes).[i] = v -> (labelDist nodes).[i] = 0;
  ls_step : forall v i, 0 <= v < alen (labelOffset nodes) - 1 ->
    (labelOffset nodes).[v] <= i < (labelOffset nodes).[v + 1] -> (labelNode nodes).[i] <> v ->
    let e := (labelEdge nodes).[i] in let u := (dest edges).[e] in
    edge_id edges e /\ src e = v /\ 0 <= u < alen (labelOffset nodes) - 1 /\ rank v < rank u /\
    exists j, (labelOffset nodes).[u] <= j < (labelOffset nodes).[u + 1] /\
      (labelNode nodes).[j] = (labelNode nodes).[i] /\
      (labelDist nodes).[i] = (dist edges).[e] + (labelDist nodes).[j];
}.

(** Node [v] has a label for [h] at index [i]. *)
Definition labelAt {D} (nodes : HubLNodes.t D) (v i h : Z) : Prop :=
  (labelOffset nodes).[v] <= i < (labelOffset nodes).[v + 1] /\ (labelNode nodes).[i] = h.

Definition node_id {D} (nodes : HubLNodes.t D) (v : Z) : Prop := 0 <= v < alen (labelOffset nodes) - 1.

Section route.
Context {D : Type} (nodes : HubLNodes.t D) (edges : HubLEdges.t) (src rank : Z -> Z) (Dmax : Z).
Context (Hok : edges_ok edges src) (Hls : labels_sound nodes edges src rank Dmax).

Lemma off_bounds v : node_id nodes v ->
  0 <= (labelOffset nodes).[v] <= (labelOffset nodes).[v + 1] /\
  (labelOffset nodes).[v + 1] < alen (labelNode nodes).
Proof. apply (ls_offsets _ _ _ _ _ Hls). Qed.

(** The search for the hub among the labels of a node finds its label. *)
Lemma find_label v i h : node_id nodes v -> labelAt nodes v i h ->
  binarySearchRange (labelNode nodes) (labelOffset nodes).[v] (labelOffset nodes).[v + 1] h = Ok i.
Proof.
  intros Hv [Hi Hh]. pose proof (off_bounds v Hv) as [[? ?] ?].
  assert (forall a b, (labelOffset nodes).[v] <= a <= b -> b < (labelOffset nodes).[v + 1] ->
    (labelNode nodes).[a] <= (labelNode nodes).[b]) as Hasc.
  { intros a b Ha Hb. destruct (decide (a = b)) as [-> |]; [lia |].
    pose proof (ls_sorted _ _ _ _ _ Hls v a b Hv). lia. }
  pose proof (binarySearchRange_spec (labelNode nodes) (labelOffset nodes).[v]
    (labelOffset nodes).[v + 1] h) as Hbs. specialize (Hbs ltac:(lia) ltac:(lia) Hasc).
  destruct (returns_elim _ _ Hbs) as (r & -> & Hr). f_equal.
  destruct Hr as [[Hr E] | (p & Hp & _ & Hlo & Hhi)].
  - destruct (decide (r < i)); [pose proof (ls_sorted _ _ _ _ _ Hls v r i Hv); lia |].
    destruct (decide (i < r)); [pose proof (ls_sorted _ _ _ _ _ Hls v i r Hv); lia | lia].
  - exfalso. destruct (decide (i < p)); [specialize (Hlo i) | specialize (Hhi i)]; lia.
Qed.

Lemma getEdges_ok fuel : forall v i hub st l, node_id nodes v -> labelAt nodes v i hub -> repr st l ->
  alen (labelOffset nodes) - rank v < Z.of_nat fuel ->
  returns (getEdges nodes edges fuel v hub st) (fun st' => exists es,
    repr st' (l ++ es) /\ chain edges src v es hub /\ distOf edges es = (labelDist nodes).[i]).
Proof.
  induction fuel as [|fuel IH]; intros v i hub st l Hv Hl Hst Hfuel.
  { pose proof (ls_rank _ _ _ _ _ Hls v Hv). lia. }
  cbn [getEdges]. pose proof Hl as [Hi Hh].
  destruct (Z.eqb_spec v hub) as [-> | Hne].
  { ret. exists []. rewrite app_nil_r. split_and!; [done | done |].
    by rewrite (ls_self _ _ _ _ _ Hls hub i Hv Hi Hh). }
  pose proof (off_bounds v Hv) as [[? ?] ?]. pose proof (ls_arrays _ _ _ _ _ Hls) as [HlE HlD].
  destruct (ls_step _ _ _ _ _ Hls v i Hv Hi) as (He & Hsrc & Hu & Hrank & j & Hj & Hnj & Hd); [congruence |].
  unfold getLabelOffset, getLabelEdge, HubLEdges.getDest. unfold node_id in Hv.
  rewrite (aget_ok (labelOffset nodes) v), bind_ok, (aget_ok (labelOffset nodes) (v + 1)), bind_ok by lia.
  rewrite (find_label v i hub Hv Hl), bind_ok, (aget_ok (labelEdge nodes)), bind_ok by lia.
  rewrite (aget_ok (dest edges)), bind_ok by apply He.
  eapply returns_bind; [by apply push_repr |]. cbv beta. intros st' Hst'.
  eapply returns_mono; [apply (IH _ j hub st' (l ++ [(labelEdge nodes).[i]]) Hu); [split; [done | congruence] | done | lia] |].
  cbv beta. intros st'' (es & Hst'' & Hc & Hde).
  exists ((labelEdge nodes).[i] :: es). rewrite <-app_assoc in Hst''. split_and!; [done | by split_and! |].
  unfold distOf in *. cbn. lia.
Qed.

Lemma labelEdges_ok isLeft v i hub r : node_id nodes v -> labelAt nodes v i hub ->
  repr (edgesOf isLeft r) [] ->
  returns (labelEdges nodes edges isLeft v i hub r) (fun r' => exists es,
    repr (edgesOf isLeft r') es /\ r' = setEdges isLeft r (edgesOf isLeft r') /\
    chain edges src v es hub /\ distOf edges es = (labelDist nodes).[i]).
Proof.
  intros Hv Hl Hst. pose proof Hl as [Hi Hh]. unfold labelEdges.
  destruct (Z.eqb_spec v hub) as [-> | Hne]; cbn [negb].
  { ret. exists []. split_and!; [done | by destruct r, isLeft | done |].
    by rewrite (ls_self _ _ _ _ _ Hls hub i Hv Hi Hh). }
  pose proof (off_bounds v Hv) as [[? ?] ?]. pose proof (ls_arrays _ _ _ _ _ Hls) as [HlE HlD].
  destruct (ls_step _ _ _ _ _ Hls v i Hv Hi) as (He & Hsrc & Hu & Hrank & j & Hj & Hnj & Hd); [congruence |].
  pose proof (ls_rank _ _ _ _ _ Hls _ Hu).
  unfold getLabelEdge, HubLEdges.getDest. rewrite (aget_ok (labelEdge nodes)), bind_ok by lia.
  rewrite (aget_ok (dest edges)), bind_ok by apply He.
  eapply returns_bind; [by apply push_repr |]. cbv beta. intros st' Hst'.
  eapply returns_bind.
  { apply (getEdges_ok (upFuel nodes) _ j hub st' [(labelEdge nodes).[i]] Hu); [split; [done | congruence] | done |].
    unfold upFuel, alen in *. lia. }
  cbv beta. intros st'' (es & Hst'' & Hc & Hde). ret.
  exists ((labelEdge nodes).[i] :: es). cbn [app] in Hst''.
  split_and!; [by destruct isLeft | by destruct isLeft | by split_and! |].
  unfold distOf in *. cbn. lia.
Qed.

Lemma drain_ok fuel : forall st l path, repr st l -> alen l < Z.of_nat fuel ->
  returns (drain fuel st path) (fun '(p, st') => p = path ++ l /\ repr st' []).
Proof.
  induction fuel as [|fuel IH]; intros st l path Hst Hfuel; [pose proof (alen_nonneg l); lia |].
  cbn [drain]. rewrite (isEmpty_repr _ _ Hst). destruct l as [|x l].
  { rewrite bool_decide_true by done. ret. by rewrite app_nil_r. }
  rewrite bool_decide_false by done. eapply returns_bind; [by apply popFifo_repr |].
  intros [y st'] [-> Hst']. cbv beta iota. autorewrite with alen in Hfuel.
  eapply returns_mono; [apply (IH st' l (path ++ [x]) Hst'); lia |]. intros [p st''] [-> ?]. by rewrite <-app_assoc.
Qed.

(** The router between two requests: all four stacks are empty. *)
Definition stacks_empty (r : t) : Prop :=
  repr (resultNodes r) [] /\ repr (edgeCalcStack r) [] /\ repr (edgesLeft r) [] /\ repr (edgesRight r) [].

Context (zero minusOne : D) (c : coordinates D) (f : Z -> list D).
Context (Hc : forall x, node_id nodes x -> coordOf c x = Ok (f x)).
Context (Hdest : forall e, edge_id edges e -> node_id nodes (dest edges).[e]).

Lemma finish_ok start dest hub L R r distance : node_id nodes start -> node_id nodes dest ->
  repr (resultNodes r) [] -> repr (edgeCalcStack r) [] ->
  repr (edgesLeft r) L -> repr (edgesRight r) R ->
  chain edges src start L hub -> chain edges src dest R hub ->
  exists N, forall fuel, (N <= fuel)%nat ->
  returns (finish zero c edges fuel start dest distance r) (fun '(res, r') => stacks_empty r' /\
    routeFound res = true /\ overallDistance res = distance /\ exists p,
      path res = Some p /\ pathCoordinates res = Some (f <$> p) /\
      linked (original edges src) p (distOf edges L + distOf edges R) /\
      head p = Some start /\ last p = Some dest).
Proof.
  intros Hns Hnd Hres Hcalc HL HR CL CR.
  destruct (unpackAll_exists edges src Hok L start hub CL) as (UL & HUL & CUL & DUL).
  destruct (unpackAll_exists edges src Hok R dest hub CR) as (UR & HUR & CUR & DUR).
  exists (S (2 * length UL + 2 * length UR)). intros fuel Hfuel. unfold finish.
  eapply returns_bind.
  { apply (calculateRoute_ok edges src Hok fuel start dest r L R UL UR); try done; unfold alen; lia. }
  cbv beta. intros r1 (H1 & H2 & H3 & H4).
  destruct (joined_linked edges src start dest hub UL UR CUL CUR) as (Hlink & Hhead & Hlast).
  { intros e [He | He]%elem_of_app;
      [by apply (unpacksAll_original edges src Hok L UL) | by apply (unpacksAll_original edges src Hok R UR)]. }
  eapply returns_bind.
  { eapply drain_ok; [exact H1 |]. destruct H1 as (_ & pre & post & _ & _ & Hn). rewrite Hn.
    pose proof (alen_nonneg pre). lia. }
  intros [p st] [-> Hst]. cbv beta iota. cbn [app]. unfold newFound.
  rewrite (setPath_ok c _ f).
  2:{ intros x Hx. apply Hc. apply joined_nodes in Hx as [-> | [-> | (e & He & ->)]]; [done | done |].
      apply Hdest. apply elem_of_app in He as [He | He];
        [by apply (chain_edge_id edges src Hok _ _ _ _ CUL) | by apply (chain_edge_id edges src Hok _ _ _ _ CUR)]. }
  rewrite !bind_ok. ret.
  split; [by split_and! |]. cbn. split_and!; [done | done |].
  eexists. split_and!; [done | done | | done | done]. by rewrite <-DUL, <-DUR.
Qed.

(** [res] is a best route over the common labels of [s] and [d]. *)
Definition best_route (s d : Z) (res : RoutingResult.t D) : Prop :=
  exists i j hub p, labelAt nodes s i hub /\ labelAt nodes d j hub /\
    overallDistance res = (labelDist nodes).[i] + (labelDist nodes).[j] /\
    (forall i' j' h, labelAt nodes s i' h -> labelAt nodes d j' h ->
       overallDistance res <= (labelDist nodes).[i'] + (labelDist nodes).[j']) /\
    path res = Some p /\ pathCoordinates res = Some (f <$> p) /\
    linked (original edges src) p (overallDistance res) /\ head p = Some s /\ last p = Some d.

(** [m] is the best of the common labels of [s] and [d], if they have one. *)
Definition best_label (s d : Z) (m : best) : Prop :=
  (highestLvlNode m = -1 /\ forall i j h, labelAt nodes s i h -> ~ labelAt nodes d j h) \/
  (labelAt nodes s (idxA m) (highestLvlNode m) /\ labelAt nodes d (idxB m) (highestLvlNode m) /\ 0 <= highestLvlNode m /\
   currDistance m = (labelDist nodes).[idxA m] + (labelDist nodes).[idxB m] /\
   forall i j h, labelAt nodes s i h -> labelAt nodes d j h -> currDistance m <= (labelDist nodes).[i] + (labelDist nodes).[j]).

Lemma mergeNodes_ok s d : 2 * Dmax < MAX_VALUE -> node_id nodes s -> node_id nodes d ->
  returns (mergeLabels (getLabelNode nodes) (getLabelNode nodes) (getLabelDist nodes) (getLabelDist nodes)
    (labelOffset nodes).[s + 1] (labelOffset nodes).[d + 1] (labelOffset nodes).[s] (labelOffset nodes).[d]) (best_label s d).
Proof.
  intros HD Hs Hd. pose proof (off_bounds s Hs) as [[? ?] ?]. pose proof (off_bounds d Hd) as [[? ?] ?].
  pose proof (ls_arrays _ _ _ _ _ Hls) as [HlE HlD].
  set (a0 := (labelOffset nodes).[s]) in *. set (endA := (labelOffset nodes).[s + 1]) in *.
  set (b0 := (labelOffset nodes).[d]) in *. set (endB := (labelOffset nodes).[d + 1]) in *.
  set (nd := fun i => (labelNode nodes).[i]). set (ds := fun i => (labelDist nodes).[i]).
  assert (forall i, a0 <= i < endA \/ b0 <= i < endB -> 0 <= nd i /\ 0 <= ds i <= Dmax) as Hvalues.
  { intros i Hi. unfold nd, ds. pose proof (ls_values _ _ _ _ _ Hls i). lia. }
  assert (sorted_labels nd nd ds ds a0 b0 endA endB) as Hsorted.
  { split.
    - intros i j Hi Hj. by apply (ls_sorted _ _ _ _ _ Hls s).
    - intros i j Hi Hj. by apply (ls_sorted _ _ _ _ _ Hls d).
    - intros i Hi. apply Hvalues. by left.
    - intros i Hi. apply Hvalues. by left.
    - intros i Hi. apply Hvalues. by right.
    - intros i j (Hi & Hj & _). pose proof (Hvalues i (or_introl Hi)). pose proof (Hvalues j (or_intror Hj)). lia. }
  assert (forall i j h, labelAt nodes s i h -> labelAt nodes d j h -> common nd nd a0 b0 endA endB i j) as Hcommon.
  { intros i j h [Hi Hih] [Hj Hjh]. split_and!; [lia .. |]. unfold nd. congruence. }
  eapply returns_mono.
  { apply (mergeLabels_ok nd nd ds ds a0 b0 endA endB); try done; intros; apply aget_ok; lia. }
  intros m [[Hno Hnone] | (Hcom & Hhub & Hpos & Hcur & Hmin)]; [left | right].
  - split; [done |]. intros i j h Hi Hj. by eapply Hnone, Hcommon.
  - destruct Hcom as (HiA & HjB & Enode). unfold nd in Hhub, Enode. split; [by split |]. split; [split; [done | congruence] |]. split; [done |].
    split; [done |]. intros i j h Hi Hj. by eapply Hmin, Hcommon.
Qed.

(** The route of the router, from the offsets of the two nodes on. *)
Lemma route2Lbl_merge fuel s d r : node_id nodes s -> node_id nodes d ->
  route2Lbl zero minusOne c nodes edges fuel s d r =
  (if ((labelOffset nodes).[s] =? (labelOffset nodes).[s + 1]) || ((labelOffset nodes).[d] =? (labelOffset nodes).[d + 1])
   then Ok (newEmpty minusOne, r) else
   m ← mergeLabels (getLabelNode nodes) (getLabelNode nodes) (getLabelDist nodes) (getLabelDist nodes)
         (labelOffset nodes).[s + 1] (labelOffset nodes).[d + 1] (labelOffset nodes).[s] (labelOffset nodes).[d];
   if highestLvlNode m =? -1 then Ok (newEmpty minusOne, r) else
   r ← labelEdges nodes edges false d (idxB m) (highestLvlNode m) r;
   r ← labelEdges nodes edges true s (idxA m) (highestLvlNode m) r;
   finish zero c edges fuel s d (currDistance m) r).
Proof.
  unfold route2Lbl, getLabelOffset, node_id. intros Hs Hd.
  by rewrite (aget_ok (labelOffset nodes) s), bind_ok, (aget_ok (labelOffset nodes) d), bind_ok,
    (aget_ok (labelOffset nodes) (s + 1)), bind_ok, (aget_ok (labelOffset nodes) (d + 1)), bind_ok by lia.
Qed.

Lemma route2Lbl_ok s d r : 2 * Dmax < MAX_VALUE -> node_id nodes s -> node_id nodes d -> stacks_empty r ->
  exists N, forall fuel, (N <= fuel)%nat ->
  returns (route2Lbl zero minusOne c nodes edges fuel s d r) (fun '(res, r') => stacks_empty r' /\
    if routeFound res then best_route s d res
    else forall i j h, labelAt nodes s i h -> ~ labelAt nodes d j h).
Proof.
  intros HD Hs Hd Hr. pose proof Hr as (Hr1 & Hr2 & Hr3 & Hr4).
  destruct (returns_elim _ _ (mergeNodes_ok s d HD Hs Hd)) as (m & Em & [[Hno Hnone] | (HlA & HlB & Hpos & Hcur & Hmin)]).
  - exists 0%nat. intros fuel _. rewrite route2Lbl_merge, Em by done. rewrite bind_ok, Hno. by destruct (_ || _).
  - destruct (returns_elim _ _ (labelEdges_ok false d (idxB m) _ r Hd HlB Hr4))
      as (r1 & E1 & (R & HR & Er1 & CR & DR)).
    assert (repr (edgesOf true r1) []) as HL1 by (rewrite Er1; done).
    destruct (returns_elim _ _ (labelEdges_ok true s (idxA m) _ r1 Hs HlA HL1))
      as (r2 & E2 & (L & HL & Er2 & CL & DL)).
    destruct (finish_ok s d (highestLvlNode m) L R r2 (currDistance m)) as [N HN]; try done.
    { by rewrite Er2, Er1. }
    { by rewrite Er2, Er1. }
    { rewrite Er2. exact HR. }
    exists N. intros fuel Hfuel. specialize (HN fuel Hfuel). rewrite route2Lbl_merge by done.
    pose proof HlA as [HiA _]. pose proof HlB as [HiB _].
    destruct (Z.eqb_spec (labelOffset nodes).[s] (labelOffset nodes).[s + 1]); [lia |].
    destruct (Z.eqb_spec (labelOffset nodes).[d] (labelOffset nodes).[d + 1]); [lia |]. cbn [orb].
    rewrite Em, bind_ok. destruct (Z.eqb_spec (highestLvlNode m) (-1)); [lia |].
    rewrite E1, bind_ok, E2, bind_ok. eapply returns_mono; [exact HN |].
    intros [res r'] (? & Hf & Hdist & p & Hp & Hpc & Hlink & Hhead & Hlast). split; [done |]. rewrite Hf.
    exists (idxA m), (idxB m), (highestLvlNode m), p. rewrite Hdist. split_and!; try done.
    rewrite Hcur, <-DL, <-DR. done.
Qed.
End route.

(** ** Properties *)

Section properties.
Context {D : Type} (zero minusOne : D) (c : coordinates D) (f : Z -> list D).
Context (nodes : HubLNodes.t D) (edges : HubLEdges.t) (src rank : Z -> Z) (Dmax : Z).

(** Any state of the router between two requests. *)
Definition stacks_ok (r : t) : Prop :=
  (exists l, repr (resultNodes r) l) /\ (exists l, repr (edgeCalcStack r) l) /\
  (exists l, repr (edgesLeft r) l) /\ (exists l, repr (edgesRight r) l).

(** What the precomputation provides. *)
Record hub_data : Prop := {
  hd_edges : edges_ok edges src;
  hd_labels : labels_sound nodes edges src rank Dmax;
  hd_dist : 2 * Dmax < MAX_VALUE;
  hd_coord : forall x, node_id nodes x -> coordOf c x = Ok (f x);
  hd_dest : forall e, edge_id edges e -> node_id nodes (dest edges).[e];
}.

Lemma reset_empty r : stacks_ok r -> stacks_empty (reset r).
Proof.
  intros ([l1 H1] & [l2 H2] & [l3 H3] & [l4 H4]).
  split_and!; cbn; eapply repr_clear; eassumption.
Qed.

Lemma route_labels_ok time s d r : hub_data -> stacks_ok r -> node_id nodes s -> node_id nodes d ->
  nodeHasLabels nodes s = Ok true -> nodeHasLabels nodes d = Ok true ->
  exists N, forall fuel, (N <= fuel)%nat ->
  returns (route zero minusOne c nodes edges fuel time s d r) (fun '(res, r') =>
    stacks_empty r' /\ calculationTimeInMs res = time /\
    if routeFound res then best_route nodes edges src f s d res
    else forall i j h, labelAt nodes s i h -> ~ labelAt nodes d j h).
Proof.
  intros [He Hl HD Hc Hde] Hr Hs Hd Ls Ld.
  destruct (route2Lbl_ok nodes edges src rank Dmax He Hl zero minusOne c f Hc Hde s d (reset r) HD Hs Hd
    (reset_empty r Hr)) as [N HN].
  exists N. intros fuel Hfuel. unfold route, routeGeneral. cbv zeta. rewrite Ls, Ld, !bind_ok. cbn [andb].
  eapply returns_bind; [by apply HN |]. intros [res r'] [Hr' Hres]. cbv beta iota. ret.
  split; [done |]. split; [done |]. exact Hres.
Qed.
End properties.

(** C11: Between two nodes with labels, and whatever the router computed before, [route] ends; it
    answers "no route" exactly when the two nodes have no label node in common, and otherwise a
    distance that is least over the common label nodes, with a path from the start to the
    destination along original edges (every shortcut unpacked) of exactly that length. *)
Theorem route_best_label {D} (zero minusOne : D) c f nodes edges src rank Dmax time s d r :
  hub_data c f nodes edges src rank Dmax -> stacks_ok r -> node_id nodes s -> node_id nodes d ->
  nodeHasLabels nodes s = Ok true -> nodeHasLabels nodes d = Ok true ->
  exists N, forall fuel, (N <= fuel)%nat ->
  returns (route zero minusOne c nodes edges fuel time s d r) (fun '(res, r') =>
    stacks_empty r' /\
    (routeFound res = true -> best_route nodes edges src f s d res) /\
    (routeFound res = false <-> forall i j h, labelAt nodes s i h -> ~ labelAt nodes d j h)).
Proof.
  intros Hd Hr Hs Hdn Ls Ld.
  destruct (route_labels_ok zero minusOne c f nodes edges src rank Dmax time s d r) as [N HN]; try done.
  exists N. intros fuel Hfuel. eapply returns_mono; [by apply HN |].
  intros [res r'] (H1 & _ & H2). split; [done |]. destruct (routeFound res).
  - split; [done |]. split; [done |]. intros Hno. destruct H2 as (i & j & h & p & Hi & Hj & _).
    by destruct (Hno i j h Hi).
  - split; [done |]. done.
Qed.

(** C15: [calculateRoute] turns the edges of both sides, shortcuts of any depth included, into the
    nodes of one walk: if the left edges lead from the start to some node and the right edges from
    the destination to the same node, then with enough fuel the collected nodes are a walk from
    the start to the destination along original edges whose length is the sum of the lengths of
    all those edges. *)
Theorem calculateRoute_unpacks edges src r start dest hub L R : edges_ok edges src ->
  repr (resultNodes r) [] -> repr (edgeCalcStack r) [] ->
  repr (edgesLeft r) L -> repr (edgesRight r) R ->
  chain edges src start L hub -> chain edges src dest R hub ->
  exists N p, head p = Some start /\ last p = Some dest /\
    linked (original edges src) p (distOf edges L + distOf edges R) /\
    forall fuel, (N <= fuel)%nat ->
    returns (calculateRoute edges fuel start dest r) (fun r' =>
      repr (resultNodes r') p /\ repr (edgesLeft r') [] /\ repr (edgesRight r') []).
Proof.
  intros Hok Hres Hcalc HL HR CL CR.
  destruct (unpackAll_exists edges src Hok L start hub CL) as (UL & HUL & CUL & DUL).
  destruct (unpackAll_exists edges src Hok R dest hub CR) as (UR & HUR & CUR & DUR).
  destruct (joined_linked edges src start dest hub UL UR CUL CUR) as (Hlink & Hhead & Hlast).
  { intros e [He | He]%elem_of_app;
      [by apply (unpacksAll_original edges src Hok L UL) | by apply (unpacksAll_original edges src Hok R UR)]. }
  exists (S (2 * length UL + 2 * length UR)), (joined edges start dest UL UR).
  split; [done |]. split; [done |]. split; [by rewrite <-DUL, <-DUR |]. intros fuel Hfuel.
  eapply returns_mono.
  { apply (calculateRoute_ok edges src Hok fuel start dest r L R UL UR); try done; unfold alen; lia. }
  cbv beta. by intros r' (? & ? & ? & ?).
Qed.
