(* ===== verification/HubLSamples.v ===== *)
(** * A small hub label store

    The line 0 - 1 - 2 with distances 5 and 7.  Node 1 was contracted first, so there are shortcuts
    between 0 and 2 over it (edges 4 and 5), and node 2 is the highest.  The witnesses of the
    router's properties are evaluated on it. *)

From S2P Require Import Prelude IntStack HubLEdges HubLNodes RoutingResult HubLRouter HubLRoute.

Definition lineEdges : HubLEdges.t :=
  HubLEdges.mk [1; 0; 2; 1; 2; 0] [5; 5; 7; 7; 12; 12] 4 [2; 0; 1; 3].

Definition lineSrc (e : Z) : Z := [0; 1; 1; 2; 0; 2].[e].
Definition lineRank (v : Z) : Z := [1; 0; 2].[v].

Definition lineNodes : HubLNodes.t Z :=
  HubLNodes.mk 0 [1; 0; 2] [100; 101; 102] [0; 1; 2] [0; 0; 0; 0] []
    [0; 2; 5; 6] [0; 2; 0; 1; 2; 2; -1] [-1; 4; 1; -1; 2; -1; -1] [0; 12; 5; 0; 7; 0; -1].

Definition lineCoordinates : coordinates Z :=
  {| useHubLabelRouter := true; nodeCoord := fun _ => Err NullPointer;
     hubLNodesCoord := fun x => Ok (x, x + 100) |}.

Definition lineCoord (x : Z) : list Z := [x; x + 100].

Lemma line_edges_ok : edges_ok lineEdges lineSrc.
Proof.
  split; try done.
  - by apply (all_range_dec (fun e => 0 <= (dist lineEdges).[e]) 0 6).
  - apply (all_range_dec (fun e => isShortcut lineEdges e = true ->
      (0 <= firstPart lineEdges e < e) /\ (0 <= secondPart lineEdges e < e) /\
      lineSrc (firstPart lineEdges e) = lineSrc e /\
      (dest lineEdges).[firstPart lineEdges e] = lineSrc (secondPart lineEdges e) /\
      (dest lineEdges).[secondPart lineEdges e] = (dest lineEdges).[e] /\
      (dist lineEdges).[e] = (dist lineEdges).[firstPart lineEdges e] + (dist lineEdges).[secondPart lineEdges e]) 0 6).
    vm_compute. reflexivity.
Qed.

Definition labelOk (v i : Z) : Prop :=
  let n := lineNodes in
  (labelOffset n).[v] <= i < (labelOffset n).[v + 1] ->
  ((labelNode n).[i] = v -> (labelDist n).[i] = 0) /\
  ((labelNode n).[i] <> v ->
    let e := (labelEdge n).[i] in let u := (dest lineEdges).[e] in
    (0 <= e < 6) /\ lineSrc e = v /\ (0 <= u < 3) /\ lineRank v < lineRank u /\
    Exists (fun j => ((labelOffset n).[u] <= j < (labelOffset n).[u + 1]) /\
      (labelNode n).[j] = (labelNode n).[i] /\
      (labelDist n).[i] = (dist lineEdges).[e] + (labelDist n).[j]) (seqZ 0 7)).

#[local] Instance labelOk_dec v i : Decision (labelOk v i).
Proof. unfold labelOk. cbv zeta. apply _. Defined.

Lemma line_labels v i : 0 <= v < 3 -> labelOk v i.
Proof.
  intros Hv Hi. assert (0 <= i < 7) as Hi7.
  { revert v Hv Hi. apply (all_range (fun v => (labelOffset lineNodes).[v] <= i < (labelOffset lineNodes).[v + 1] -> 0 <= i < 7) 0 3).
    change (seqZ 0 3) with [0; 1; 2]. rewrite !Forall_cons.
    split_and!; [change (0 <= i < 2 -> 0 <= i < 7) | change (2 <= i < 5 -> 0 <= i < 7)
      | change (5 <= i < 6 -> 0 <= i < 7) | done]; lia. }
  revert Hi. fold (labelOk v i).
  apply (all_range (fun v => labelOk v i) 0 3); [| done].
  apply Forall_forall. intros v' Hv'. revert i Hi7. 
  assert (Forall (fun v => Forall (fun i => labelOk v i) (seqZ 0 7)) (seqZ 0 3)) as H.
  { apply (bool_decide_unpack _). vm_compute. exact I. }
  rewrite Forall_forall in H. intros i. apply (all_range (fun i => labelOk v' i) 0 7). by apply H.
Qed.

Lemma line_labels_sound : labels_sound lineNodes lineEdges lineSrc lineRank 12.
Proof.
  split.
  - done.
  - done.
  - apply (all_range_dec (fun v => (0 <= (labelOffset lineNodes).[v] <= (labelOffset lineNodes).[v + 1]) /\
      (labelOffset lineNodes).[v + 1] < alen (labelNode lineNodes)) 0 3). vm_compute. reflexivity.
  - intros v i j Hv. revert i j. change (0 <= v < 3) in Hv. revert v Hv.
    apply (all_range (fun v => forall i j, (labelOffset lineNodes).[v] <= i < j ->
      j < (labelOffset lineNodes).[v + 1] -> (labelNode lineNodes).[i] < (labelNode lineNodes).[j]) 0 3).
    change (seqZ 0 3) with [0; 1; 2]. rewrite !Forall_cons.
    split_and!; [| | | done]; intros i j Hi Hj;
      [change (0 <= i < j) in Hi; change (j < 2) in Hj | change (2 <= i < j) in Hi; change (j < 5) in Hj
      | change (5 <= i < j) in Hi; change (j < 6) in Hj].
    + by replace i with 0 by lia; replace j with 1 by lia.
    + assert (i = 2 /\ j = 3 \/ i = 2 /\ j = 4 \/ i = 3 /\ j = 4) as [[-> ->] | [[-> ->] | [-> ->]]] by lia; done.
    + lia.
  - apply (all_range_dec (fun i => (0 <= (labelNode lineNodes).[i] < alen (labelOffset lineNodes) - 1) /\
      (0 <= (labelDist lineNodes).[i] <= 12)) 0 6). vm_compute. reflexivity.
  - apply (all_range_dec (fun v => 0 <= lineRank v < alen (labelOffset lineNodes)) 0 3). vm_compute. reflexivity.
  - intros v i Hv Hi. by apply (line_labels v i Hv Hi).
  - intros v i Hv Hi Hne. destruct (line_labels v i Hv Hi) as [_ H].
    destruct (H Hne) as (He & Hs & Hu & Hr & (j & _ & Hj)%Exists_exists).
    split_and!; try done; try apply He; try apply Hu. by exists j.
Qed.

Lemma line_hub_data : hub_data lineCoordinates lineCoord lineNodes lineEdges lineSrc lineRank 12.
Proof.
  split; [apply line_edges_ok | apply line_labels_sound | done | done |].
  apply (all_range_dec (fun e => 0 <= (dest lineEdges).[e] < alen (labelOffset lineNodes) - 1) 0 6).
  vm_compute. reflexivity.
Qed.

Definition lineRouter : t :=
  let st := IntStack.mk [9; 9] 2 0 5 in
  let h := DistanceHeap.mk [] [] [] [] 0 5 in
  let l := OrderedIntSet.mk true [] 0 5 in
  let o := OrderedIntSet.mk false [] 0 5 in
  mk st st st st h h (mkSide l o o o) (mkSide l o o o).

Lemma lineRouter_ok : stacks_ok lineRouter.
Proof. repeat split; exists [9; 9]; split; try done; by exists [], []. Qed.

(** From 2 to 0 the hub is the start itself and the only edge is the shortcut of 0, unpacked from
    the right side; the router's stacks hold leftovers of an earlier request. *)
Lemma route_best_label_witness :
  (fst <$> (route 0 (-1) lineCoordinates lineNodes lineEdges 20 77 2 0 lineRouter : res _)) =
    Ok (RoutingResult.mk (Some [2; 1; 0]) (Some [[2; 102]; [1; 101]; [0; 100]]) 12 77 true) /\
  exists N, forall fuel, (N <= fuel)%nat ->
  returns (route 0 (-1) lineCoordinates lineNodes lineEdges fuel 77 2 0 lineRouter) (fun '(res, r') =>
    stacks_empty r' /\
    (routeFound res = true -> best_route lineNodes lineEdges lineSrc lineCoord 2 0 res) /\
    (routeFound res = false <-> forall i j h, labelAt lineNodes 2 i h -> ~ labelAt lineNodes 0 j h)).
Proof.
  split; [vm_compute; reflexivity |].
  by apply (route_best_label 0 (-1) lineCoordinates lineCoord lineNodes lineEdges lineSrc lineRank 12 77 2 0 lineRouter
    line_hub_data lineRouter_ok).
Defined.

(** Along any walk the distance from node 0 grows by at most the length of the walk. *)
Lemma line_potential p w : linked (original lineEdges lineSrc) p w ->
  [0; 5; 12].[List.last p 0] - [0; 5; 12].[List.hd 0 p] <= w.
Proof.
  induction 1 as [x | x y l w d He Hl IH]; [cbn; lia |].
  cbn [List.hd] in *. change (List.last (x :: y :: l) 0) with (List.last (y :: l) 0).
  assert ([0; 5; 12].[y] - [0; 5; 12].[x] <= w); [| lia].
  destruct He as (e & He & Hs & Hxy & <-).
  assert (0 <= e < 4) as He4.
  { unfold isShortcut in Hs. cbn in Hs. apply Z.leb_gt in Hs. unfold edge_id in He. lia. }
  assert ((([0; 5; 12] : list Z).[(dest lineEdges).[e]] - ([0; 5; 12] : list Z).[lineSrc e] <= (dist lineEdges).[e]) /\
    (([0; 5; 12] : list Z).[lineSrc e] - ([0; 5; 12] : list Z).[(dest lineEdges).[e]] <= (dist lineEdges).[e])) as [H1 H2].
  { clear He Hs Hxy. revert e He4. apply (all_range_dec (fun e =>
      ([0; 5; 12].[(dest lineEdges).[e]] - [0; 5; 12].[lineSrc e] <= (dist lineEdges).[e]) /\
      ([0; 5; 12].[lineSrc e] - [0; 5; 12].[(dest lineEdges).[e]] <= (dist lineEdges).[e])) 0 4).
    vm_compute. reflexivity. }
  by destruct Hxy as [[<- <-] | [<- <-]].
Qed.

(** The left side holds the shortcut 0 - 2, the right side nothing. *)
Lemma calculateRoute_unpacks_witness :
  let st := IntStack.mk [9] 0 0 5 in
  let r := setEdges true (reset lineRouter) (IntStack.mk [4] 1 0 5) in
  (exists r', calculateRoute lineEdges 9 0 2 r = Ok r' /\ take 3 (elements (resultNodes r')) = [0; 1; 2]) /\
  exists N p, head p = Some 0 /\ last p = Some 2 /\
    linked (original lineEdges lineSrc) p (distOf lineEdges [4] + distOf lineEdges []) /\
    forall fuel, (N <= fuel)%nat ->
    returns (calculateRoute lineEdges fuel 0 2 r) (fun r' =>
      repr (resultNodes r') p /\ repr (edgesLeft r') [] /\ repr (edgesRight r') []).
Proof.
  split; [eexists; split; vm_compute; reflexivity |].
  apply (calculateRoute_unpacks lineEdges lineSrc _ 0 2 2 [4] []).
  - apply line_edges_ok.
  - by apply (repr_clear _ [9; 9]); split; [| exists [], []].
  - by apply (repr_clear _ [9; 9]); split; [| exists [], []].
  - by split; [| exists [], []].
  - by apply (repr_clear _ [9; 9]); split; [| exists [], []].
  - done.
  - done.
Defined.

(** ** The last upward edge of a temporary label is lost

    Node 0 has level 0 and no labels, node 1 has level 1 and its own label; one edge of distance
    5 joins them. *)
Definition pairEdges : HubLEdges.t := HubLEdges.mk [1; 0] [5; 5] 2 [].
Definition pairNodes : HubLNodes.t Z :=
  HubLNodes.mk 1 [0; 1] [] [] [0; 1; 1] [0] [0; 0; 1] [1; -1] [-1; -1] [0; -1].

(** When the best common label is a node that the search over the upward edges reached itself
    (its additional info is the predecessor), the edge from the predecessor to that node is not
    collected: between two adjacent nodes the distance is right, but the path of the answer is the
    destination alone and does not contain the start. *)
Example tempEdges_drops_edge :
  (r ← new; fst <$> route 0 (-1) lineCoordinates pairNodes pairEdges 50 7 0 1 r)
    = Ok (RoutingResult.mk (Some [1]) (Some [[1; 101]]) 5 7 true).
Proof. vm_compute. reflexivity. Qed.
