(* ===== verification/Grid.v ===== *)
(** * dijkstragrid/Grid.java: the grid graph

    Looking up the nearest node, and the text format of a graph: [importFmiFile] (whose parsing
    is the same code in [DynamicGrid.importFmiFile]) and [exportToFmiFile].  A file is its text
    for the writer and the list of its lines for the reader. *)

From S2P Require Import Prelude Text Doubles HubLNodes DijkstraGrid.
From Stdlib Require Import Ascii.

Definition EARTH_RADIUS : Z := 6371000.

Section grid.
Context {D : Type} `{!JDouble D}.

(** ** IntersectionHelper.getDistance *)

Definition convertToRadian (coordinate : D) : D := dmul coordinate (ddiv dPI (dofZ 180)).

Definition getDistance (startLat startLong endLat endLong : D) : D :=
  let radianStartLat := convertToRadian startLat in
  let radianEndLat := convertToRadian endLat in
  let latDifference := convertToRadian (dsub endLat startLat) in
  let longDifference := convertToRadian (dsub endLong startLong) in
  let sinLat := dsin (ddiv latDifference (dofZ 2)) in
  let sinLong := dsin (ddiv longDifference (dofZ 2)) in
  let haversine := dadd (dmul sinLat sinLat)
    (dmul (dmul (dmul (dcos radianStartLat) (dcos radianEndLat)) sinLong) sinLong) in
  let c := dmul (dofZ 2) (datan2 (dsqrt haversine) (dsqrt (dsub (dofZ 1) haversine))) in
  dmul c (dofZ EARTH_RADIUS).

(** ** The nearest node *)

(** The body of both branches, on the nodes that the accessors give. *)
Definition candidates (iLat iLong : Z) (lat long : Z -> res D) (n : Z) : res (list Z) :=
  forRange 0 n (fun i candidateNodes =>
    la ← lat i;
    if iLat =? dtoInt la then
      lo ← long i;
      if iLong =? dtoInt lo then Ok (candidateNodes ++ [i]) else Ok candidateNodes
    else Ok candidateNodes) [].

Definition nearestOf (latitude longitude : D) (lat long : Z -> res D) (n : Z) : res Z :=
  candidateNodes ← candidates (dtoInt latitude) (dtoInt longitude) lat long n;
  if alen candidateNodes <=? 0 then Ok (-1) else
  '(minDistance, minNodeIdx) ← forEach candidateNodes (fun nodeIdx '(minDistance, minNodeIdx) =>
    la ← lat nodeIdx;
    lo ← long nodeIdx;
    let currDistance := getDistance latitude longitude la lo in
    if dlt currDistance minDistance then Ok (currDistance, nodeIdx)
    else Ok (minDistance, minNodeIdx)) (dMAX, 0);
  Ok minNodeIdx.

(** [offset] is null until a grid was imported; then the hub label nodes are searched. *)
Definition getNearestGridNodeByCoordinates (offset : option (list Z)) (node : Node D)
    (hubl : HubLNodes.t D) (latitude longitude : D) : res Z :=
  match offset with
  | None => nearestOf latitude longitude (getLat hubl) (getLong hubl) (getNumOfNodes hubl)
  | Some _ => nearestOf latitude longitude (getLatitude node) (getLongitude node) (nodeSize node)
  end.

(** ** Reading the file *)

Record TmpEdge := mkTmpEdge { tStart : Z; tDest : Z; tDist : Z }.
Record TmpNode := mkTmpNode { tId : Z; tLat : D; tLong : D }.

(** [list.sort] with a comparator of keys: a stable sort. *)
Fixpoint insertBy {A} (key : A -> Z) (x : A) (l : list A) : list A :=
  match l with
  | [] => [x]
  | y :: l' => if key x <? key y then x :: l else y :: insertBy key x l'
  end.
Definition sortBy {A} (key : A -> Z) (l : list A) : list A :=
  foldl (fun acc x => insertBy key x acc) [] l.

(** [br.readLine().trim()] *)
Definition readTrimmed (file : list string) : res (string * list string) :=
  match readLine file with
  | (Some l, file') => Ok (trim l, file')
  | (None, _) => Err NullPointer
  end.

Definition getBoxed (m : gmap Z Z) (k : Z) : res Z :=
  match m !! k with Some v => Ok v | None => Err NullPointer end.

Definition readNode (nodeIdx : Z) (st : list TmpNode * gmap Z Z * list string)
    : res (list TmpNode * gmap Z Z * list string) :=
  let '(nodeList, ids, file) := st in
  '(line, file) ← readTrimmed file;
  let parts := split line in
  p0 ← aget parts 0;
  id ← parseInt p0;
  p1 ← aget parts 1;
  lat ← parseDouble p1;
  p2 ← aget parts 2;
  long ← parseDouble p2;
  Ok (nodeList ++ [mkTmpNode id lat long], <[id := nodeIdx]> ids, file).

Definition readEdge (ids : gmap Z Z) (edgeIdx : Z) (st : list TmpEdge * list string)
    : res (list TmpEdge * list string) :=
  let '(edgeList, file) := st in
  '(line, file) ← readTrimmed file;
  let parts := split line in
  p0 ← aget parts 0;
  id0 ← parseInt p0;
  s ← getBoxed ids id0;
  p1 ← aget parts 1;
  id1 ← parseInt p1;
  d ← getBoxed ids id1;
  p2 ← aget parts 2;
  w ← parseInt p2;
  Ok (edgeList ++ [mkTmpEdge s d w], file).

(** [list.get(i)] *)
Definition lget {A} (l : list A) (i : Z) : res A :=
  if i <? 0 then Err IndexOutOfBounds else
  match l !! Z.to_nat i with Some x => Ok x | None => Err IndexOutOfBounds end.

Definition addAdjacent (edgeList : list TmpEdge) (edgeIdx : Z) (m : gmap Z (list TmpEdge))
    : res (gmap Z (list TmpEdge)) :=
  e ← lget edgeList edgeIdx;
  Ok (<[tStart e := default [] (m !! tStart e) ++ [e]]> m).

(** The loops over the edges of one map entry: [oppositeEdgeFound] is set before the first of
    them and never reset. *)
Definition opposite (revEdge e : TmpEdge) : bool :=
  (tStart e =? tDest revEdge) && (tDest e =? tStart revEdge).

Definition checkEdge (m : gmap Z (list TmpEdge)) (revEdge : TmpEdge) (st : bool * Z * list TmpEdge)
    : res (bool * Z * list TmpEdge) :=
  let '(oppositeEdgeFound, noEdges, missing) := st in
  match m !! tDest revEdge with
  | None => Err NullPointer
  | Some toCheck =>
      let oppositeEdgeFound := oppositeEdgeFound || existsb (opposite revEdge) toCheck in
      if negb oppositeEdgeFound then
        Ok (oppositeEdgeFound, iadd noEdges 1,
            missing ++ [mkTmpEdge (tDest revEdge) (tStart revEdge) (tDist revEdge)])
      else Ok (oppositeEdgeFound, noEdges, missing)
  end.

Definition checkEntry (m : gmap Z (list TmpEdge)) (entry : Z * list TmpEdge)
    (st : Z * list TmpEdge) : res (Z * list TmpEdge) :=
  let '(noEdges, missing) := st in
  '(_, noEdges, missing) ← forEach entry.2 (checkEdge m) (false, noEdges, missing);
  Ok (noEdges, missing).

(** What the file denotes: the node coordinates, and the edges sorted by their start. *)
Record fmi := mkFmi { fLat : list D; fLong : list D; fEdge : Edge }.

Section import.
(** The iteration order of the hash map. *)
Context (entrySet : gmap Z (list TmpEdge) -> list (Z * list TmpEdge)).

Definition readFmi (file : list string) : res fmi :=
  let '(_, file) := readLine file in
  let '(_, file) := readLine file in
  '(line, file) ← readTrimmed file;
  noNodes ← parseInt line;
  '(line, file) ← readTrimmed file;
  noEdges ← parseInt line;
  '(nodeList, ids, file) ← forRange 0 noNodes readNode ([], ∅, file);
  let nodeList := sortBy (fun o => default 0 (ids !! tId o)) nodeList in
  '(edgeList, file) ← forRange 0 noEdges (readEdge ids) ([], file);
  let edgeList := sortBy tStart edgeList in
  adjacenceMap ← forRange 0 noEdges (addAdjacent edgeList) ∅;
  '(noEdges, missing) ← forEach (entrySet adjacenceMap) (checkEntry adjacenceMap) (noEdges, []);
  let edgeList := sortBy tStart (edgeList ++ missing) in
  latitude ← newArray (dofZ 0) noNodes;
  longitude ← newArray (dofZ 0) noNodes;
  '(latitude, longitude) ← forRange 0 (alen latitude) (fun i '(latitude, longitude) =>
    nd ← lget nodeList i;
    latitude ← aset latitude i (tLat nd);
    longitude ← aset longitude i (tLong nd);
    Ok (latitude, longitude)) (latitude, longitude);
  startNode ← newArray 0 noEdges;
  destNode ← newArray 0 noEdges;
  dist ← newArray 0 noEdges;
  '(startNode, destNode, dist) ← forRange 0 (alen startNode) (fun i '(startNode, destNode, dist) =>
    e ← lget edgeList i;
    startNode ← aset startNode i (tStart e);
    destNode ← aset destNode i (tDest e);
    dist ← aset dist i (tDist e);
    Ok (startNode, destNode, dist)) (startNode, destNode, dist);
  Ok (mkFmi latitude longitude (mkEdge startNode destNode dist)).

(** The offsets of the adjacency array. *)
Definition countStart (edge : Edge) (i : Z) (offset : list Z) : res (list Z) :=
  s ← getStart edge i;
  n ← aget offset (s + 1);
  aset offset (s + 1) (iadd n 1).

Definition prefixSum (i : Z) (offset : list Z) : res (list Z) :=
  x ← aget offset i;
  y ← aget offset (i - 1);
  aset offset i (iadd x y).

Definition offsets (n : Z) (edge : Edge) : res (list Z) :=
  offset ← newArray 0 (n + 1);
  offset ← forRange 0 (edgeSize edge) (countStart edge) offset;
  forRange 1 (alen offset) prefixSum offset.

Definition importFmiFile (file : list string) : res (Node D * graph) :=
  f ← readFmi file;
  let node := mkNode (fLat f) (fLong f) in
  offset ← offsets (nodeSize node) (fEdge f);
  Ok (node, mkGraph (nodeSize node) offset (fEdge f)).
End import.

(** ** Writing the file *)

Definition exportToFmiFile (node : Node D) (edge : Edge) : res string :=
  let nl := String LF EmptyString in
  let writer := ("#" +:+ nl +:+ nl)%string in
  let writer := (writer +:+ printInt (nodeSize node) +:+ nl)%string in
  let writer := (writer +:+ printInt (edgeSize edge) +:+ nl)%string in
  writer ← forRange 0 (nodeSize node) (fun nodeIdx writer =>
    lat ← getLatitude node nodeIdx;
    long ← getLongitude node nodeIdx;
    Ok (writer +:+ printInt nodeIdx +:+ " " +:+ printDouble lat +:+ " " +:+ printDouble long
        +:+ nl)%string) writer;
  forRange 0 (edgeSize edge) (fun edgeIdx writer =>
    s ← getStart edge edgeIdx;
    d ← getDest edge edgeIdx;
    w ← getDist edge edgeIdx;
    Ok (writer +:+ printInt s +:+ " " +:+ printInt d +:+ " " +:+ printInt w +:+ nl)%string) writer.
End grid.
Arguments TmpNode : clear implicits.
Arguments fmi : clear implicits.

(** ** The nearest node *)

Section nearest.
Context {D : Type} `{!JDouble D} `{!DoubleOrder D}.
Context (latitude longitude : D) (f g : Z -> D) (lat long : Z -> res D) (n : Z).
Context (Hn : 0 <= n).
Context (Hlat : forall i, 0 <= i < n -> lat i = Ok (f i)) (Hlong : forall i, 0 <= i < n -> long i = Ok (g i)).

(** Node [i] lies in the plane of integer degrees of the point. *)
Definition inPlane (i : Z) : Prop :=
  0 <= i < n /\ dtoInt (f i) = dtoInt latitude /\ dtoInt (g i) = dtoInt longitude.
Definition farness (i : Z) : D := getDistance latitude longitude (f i) (g i).

Lemma candidates_ok : returns (candidates (dtoInt latitude) (dtoInt longitude) lat long n)
  (fun l => forall i, i ∈ l <-> inPlane i).
Proof.
  unfold candidates, inPlane.
  eapply returns_mono.
  - apply (forRange_inv (fun k l => forall i, i ∈ l <-> 0 <= i < k /\ dtoInt (f i) = dtoInt latitude
      /\ dtoInt (g i) = dtoInt longitude)); [done | |].
    + intros i. split; [intros Hi; by apply elem_of_nil in Hi | lia].
    + intros i l Hi Hl. rewrite Hlat, bind_ok by done.
      assert (forall b : bool, (b = true <-> dtoInt (f i) = dtoInt latitude /\ dtoInt (g i) = dtoInt longitude) ->
        forall j, j ∈ (if b then l ++ [i] else l) <-> 0 <= j < i + 1 /\ dtoInt (f j) = dtoInt latitude
          /\ dtoInt (g j) = dtoInt longitude) as Hstep.
      { intros b Hb j. assert (0 <= j < i + 1 <-> 0 <= j < i \/ j = i) as -> by lia.
        destruct b; rewrite ?elem_of_app, ?list_elem_of_singleton, Hl.
        - destruct Hb as [Hb _]. specialize (Hb eq_refl). intuition (subst; intuition lia).
        - split; [intuition lia |]. intros [[? | ->] Hj]; [done |]. by apply Hb in Hj. }
      destruct (Z.eqb_spec (dtoInt latitude) (dtoInt (f i))) as [E1 | E1].
      * rewrite Hlong, bind_ok by done.
        destruct (Z.eqb_spec (dtoInt longitude) (dtoInt (g i))) as [E2 | E2]; ret.
        -- apply (Hstep true). by rewrite E1, E2.
        -- apply (Hstep false). split; [done | intros [_ ?]; congruence].
      * ret. apply (Hstep false). split; [done | intros [? _]; congruence].
  - done.
Qed.

(** The running minimum: the first candidate, in order, that none of those seen is nearer than. *)
Definition running (l : list Z) (st : D * Z) : Prop :=
  (forall i, i ∈ l -> dlt (farness i) st.1 = false) /\
  (st = (dMAX, 0) \/ (st.2 ∈ l /\ st.1 = farness st.2 /\ dlt st.1 dMAX = true)).

Lemma nearestOf_ok : returns (nearestOf latitude longitude lat long n) (fun r =>
  (r = -1 /\ forall i, ~ inPlane i) \/
  (r = 0 /\ (exists i, inPlane i) /\ forall i, inPlane i -> dlt (farness i) dMAX = false) \/
  (inPlane r /\ dlt (farness r) dMAX = true /\ forall i, inPlane i -> dlt (farness i) (farness r) = false)).
Proof.
  unfold nearestOf. eapply returns_bind; [apply candidates_ok |]. intros l Hl. cbv beta in Hl.
  destruct l as [| x l].
  { ret. left. split; [done |]. intros i Hi. apply Hl in Hi. by apply elem_of_nil in Hi. }
  rewrite alen_cons. pose proof (alen_nonneg l). destruct (Z.leb_spec (1 + alen l) 0); [lia |].
  eapply (returns_bind _ _ (running (x :: l))).
  - apply (forEach_inv running).
    + split; [| by left]. intros i Hi. by apply elem_of_nil in Hi.
    + intros pre i todo [m k] Heq [Hmin Hcur]. cbn in *.
      assert (inPlane i) as Hin by (apply Hl; rewrite Heq; set_solver).
      destruct Hin as [Hi _]. rewrite Hlat, bind_ok, Hlong, bind_ok by done. fold (farness i).
      destruct (dlt (farness i) m) eqn:E; ret; split; cbn.
      * intros j [Hj | ->%list_elem_of_singleton]%elem_of_app; [| apply dlt_irrefl].
        destruct (dlt (farness j) (farness i)) eqn:E2; [| done].
        rewrite <-(Hmin j Hj). symmetry. by apply (dlt_trans _ (farness i)).
      * right. split; [set_solver |]. split; [done |].
        destruct Hcur as [[= -> ->] | (_ & -> & Hm)]; [done |]. by apply (dlt_trans _ (farness k)).
      * intros j [Hj | ->%list_elem_of_singleton]%elem_of_app; [by apply Hmin | done].
      * destruct Hcur as [? | (Hk & ? & ?)]; [by left |]. right. set_solver.
  - intros [m k] [Hmin Hcur]. cbn in *. ret. right.
    destruct Hcur as [[= -> ->] | (Hk & -> & Hm)].
    + left. split; [done |]. split; [exists x; apply Hl; set_solver |].
      intros i Hi. by apply Hmin, Hl.
    + right. split; [by apply Hl |]. split; [done |]. intros i Hi. by apply Hmin, Hl.
Qed.
End nearest.

(** ** Sorting *)

Section sorting.
Context {A : Type} `{!Inhabited A} (key : A -> Z).
Implicit Types (x y : A) (l : list A).

Definition sortedBy l : Prop := forall i j x y, (i <= j)%nat -> l !! i = Some x -> l !! j = Some y -> key x <= key y.

Lemma sortedBy_cons x l : sortedBy (x :: l) <-> (forall y, y ∈ l -> key x <= key y) /\ sortedBy l.
Proof.
  split.
  - intros Hs. split.
    + intros y [j Hj]%list_elem_of_lookup. by apply (Hs 0%nat (S j)); [lia | |].
    + intros i j y z Hij Hi Hj. by apply (Hs (S i) (S j)); [lia | |].
  - intros [Hx Hs] [| i] [| j] y z Hij Hi Hj; cbn in *; try lia.
    + simplify_eq. lia.
    + simplify_eq. apply Hx. by eapply list_elem_of_lookup_2.
    + apply (Hs i j); [lia | done | done].
Qed.

Lemma insertBy_perm x l : insertBy key x l ≡ₚ x :: l.
Proof.
  induction l as [| y l IH]; cbn; [done |]. destruct (_ <? _); [done |]. by rewrite IH, Permutation_swap.
Qed.

Lemma insertBy_sorted x l : sortedBy l -> sortedBy (insertBy key x l).
Proof.
  induction l as [| y l IH]; cbn.
  - intros _. apply sortedBy_cons. split; [| done]. intros y Hy. by apply elem_of_nil in Hy.
  - intros [Hy Hs]%sortedBy_cons. destruct (Z.ltb_spec (key x) (key y)) as [Hlt | Hge].
    + apply sortedBy_cons. split; [| by apply sortedBy_cons].
      intros z [-> | Hz]%elem_of_cons; [lia |]. specialize (Hy z Hz). lia.
    + apply sortedBy_cons. split; [| by apply IH]. intros z.
      rewrite insertBy_perm. intros [-> | Hz]%elem_of_cons; [done | by apply Hy].
Qed.

Lemma insertBy_last x l : (forall y, y ∈ l -> key y <= key x) -> insertBy key x l = l ++ [x].
Proof.
  induction l as [| y l IH]; intros Hl; cbn; [done |].
  destruct (Z.ltb_spec (key x) (key y)); [specialize (Hl y ltac:(set_solver)); lia |].
  f_equal. apply IH. set_solver.
Qed.

Lemma sortBy_gen l : forall acc, sortedBy acc ->
  sortedBy (foldl (fun acc x => insertBy key x acc) acc l) /\
  foldl (fun acc x => insertBy key x acc) acc l ≡ₚ acc ++ l.
Proof.
  induction l as [| x l IH]; intros acc Hacc; cbn; [by rewrite app_nil_r |].
  destruct (IH (insertBy key x acc)) as [Hs Hp]; [by apply insertBy_sorted |].
  split; [done |]. rewrite Hp, insertBy_perm. by rewrite <-Permutation_middle.
Qed.

Lemma sortedBy_nil : sortedBy [].
Proof. by intros ? ? ? ? ? [=]. Qed.

Lemma sortBy_sorted l : sortedBy (sortBy key l).
Proof. apply (sortBy_gen l []), sortedBy_nil. Qed.

Lemma sortBy_perm l : sortBy key l ≡ₚ l.
Proof. apply (sortBy_gen l []), sortedBy_nil. Qed.

(** The sort is stable: a sorted list stays as it is. *)
Lemma sortBy_id l : sortedBy l -> sortBy key l = l.
Proof.
  intros Hs. unfold sortBy.
  assert (forall l acc, sortedBy (acc ++ l) ->
    foldl (fun acc x => insertBy key x acc) acc l = acc ++ l) as Hgen; [| by apply (Hgen l [])].
  clear l Hs. induction l as [| x l IH]; intros acc Hs; cbn; [by rewrite app_nil_r |].
  rewrite insertBy_last.
  - rewrite IH; rewrite <-app_assoc; done.
  - intros y [i Hi]%list_elem_of_lookup.
    pose proof (lookup_lt_Some _ _ _ Hi).
    apply (Hs i (length acc)); [lia | by rewrite lookup_app_l | by rewrite list_lookup_middle].
Qed.
End sorting.

(** ** Offsets of the adjacency array *)

(** The number of elements of [l] that are below [u]. *)
Definition below (u : Z) (l : list Z) : Z := alen (List.filter (fun x => x <? u) l).
Definition copies (u : Z) (l : list Z) : Z := alen (List.filter (fun x => x =? u) l).

Lemma below_S u l : below (u + 1) l = below u l + copies u l.
Proof.
  unfold below, copies. induction l as [| x l IH]; [done |]. cbn.
  destruct (Z.ltb_spec x (u + 1)), (Z.ltb_spec x u), (Z.eqb_spec x u); try lia;
    autorewrite with alen; lia.
Qed.

Lemma below_0 l : (forall x, x ∈ l -> 0 <= x) -> below 0 l = 0.
Proof.
  unfold below. induction l as [| x l IH]; intros Hl; [done |]. cbn.
  pose proof (Hl x ltac:(set_solver)). destruct (Z.ltb_spec x 0); [lia |]. apply IH. set_solver.
Qed.

Lemma below_le u l : 0 <= below u l <= alen l.
Proof.
  unfold below, alen. pose proof (filter_length_le (fun x => x <? u) l). lia.
Qed.

Lemma below_all u l : (forall x, x ∈ l -> x < u) -> below u l = alen l.
Proof.
  unfold below. induction l as [| x l IH]; intros Hl; [done |]. cbn.
  pose proof (Hl x ltac:(set_solver)). destruct (Z.ltb_spec x u); [| lia].
  autorewrite with alen. rewrite IH by set_solver. done.
Qed.

Lemma copies_snoc u l x : copies u (l ++ [x]) = copies u l + if decide (x = u) then 1 else 0.
Proof.
  unfold copies. rewrite List.filter_app. autorewrite with alen. cbn.
  destruct (Z.eqb_spec x u); case_decide; try done; autorewrite with alen; cbn; lia.
Qed.

(** In an ascending list the positions before [below u] hold the elements below [u]. *)
Lemma below_position l u e : sortedBy id l -> 0 <= e < alen l -> (e < below u l <-> l.[e] < u).
Proof.
  revert e. induction l as [| x l IH]; intros e Hs He.
  { unfold alen in He. cbn in He. lia. }
  apply sortedBy_cons in Hs as [Hx Hs]. rewrite alen_cons in He. unfold below. cbn.
  destruct (Z.ltb_spec x u) as [Hlt | Hge].
  - rewrite alen_cons. fold (below u l). pose proof (below_le u l).
    destruct (decide (e = 0)) as [-> | He0]; [rewrite at_cons_0; lia |].
    rewrite at_cons_pos by lia. rewrite <-IH by (done || lia). lia.
  - assert (List.filter (fun x => x <? u) l = []) as ->.
    { clear -Hx Hge. induction l as [| y l IH]; [done |]. cbn.
      pose proof (Hx y ltac:(set_solver)). cbn in *. destruct (Z.ltb_spec y u); [lia |].
      apply IH. set_solver. }
    assert (x <= (x :: l).[e]).
    { assert ((x :: l).[e] ∈ x :: l) as Hin by (apply at_In; rewrite alen_cons; lia).
      apply elem_of_cons in Hin as [-> | Hin]; [lia | by apply Hx]. }
    change (alen []) with 0. lia.
Qed.

Section offsets.
Context (n : Z) (edge : Edge).
Context (Hn : 0 <= n) (Hsize : edgeSize edge <= MAX_VALUE).
Context (Hstart : forall u, u ∈ startNode edge -> 0 <= u < n).

Definition counted (i : Z) (off : list Z) : Prop :=
  alen off = n + 1 /\ off.[0] = 0 /\
  forall u, 0 <= u < n -> off.[u + 1] = copies u (take (Z.to_nat i) (startNode edge)).

Lemma copies_le u l : 0 <= copies u l <= alen l.
Proof. unfold copies, alen. pose proof (filter_length_le (fun x => x =? u) l). lia. Qed.

Lemma count_ok : returns (off ← newArray 0 (n + 1); forRange 0 (edgeSize edge) (countStart edge) off)
  (counted (edgeSize edge)).
Proof.
  unfold newArray. destruct (Z.ltb_spec (n + 1) 0); [lia |]. rewrite bind_ok.
  apply (forRange_inv counted); [apply alen_nonneg | |].
  - split; [by rewrite alen_replicate by lia |]. split; [apply at_replicate; lia |].
    intros u Hu. rewrite at_replicate by lia. done.
  - intros i off Hi (Hlen & H0 & Hoff). unfold countStart, getStart. unfold edgeSize in Hi.
    assert (0 <= (startNode edge).[i] < n) as Hs by (apply Hstart, at_In; done).
    rewrite aget_ok, bind_ok by done. rewrite aget_ok, bind_ok by lia.
    rewrite aset_ok by lia. ret. split; [by autorewrite with alen |].
    split; [rewrite at_insert by lia; case_decide; [lia | done] |].
    intros u Hu. rewrite at_insert by lia.
    replace (Z.to_nat (i + 1)) with (S (Z.to_nat i)) by lia.
    rewrite (take_S_r _ _ (startNode edge).[i]) by (by apply at_lookup).
    rewrite copies_snoc. rewrite !Hoff by done.
    repeat case_decide; try lia. subst u. apply iadd_id.
    pose proof (copies_le (startNode edge).[i] (take (Z.to_nat i) (startNode edge))) as Hc.
    rewrite alen_take in Hc by lia. unfold is_int, MIN_VALUE, edgeSize, MAX_VALUE in *. lia.
Qed.

Definition summed (i : Z) (off : list Z) : Prop :=
  alen off = n + 1 /\
  forall u, 0 <= u <= n -> off.[u] = if decide (u < i) then below u (startNode edge)
                                 else copies (u - 1) (startNode edge).

Lemma offsets_ok : returns (offsets n edge) (fun off =>
  alen off = n + 1 /\ forall u, 0 <= u <= n -> off.[u] = below u (startNode edge)).
Proof.
  unfold offsets. pose proof count_ok as Hc. apply returns_elim in Hc as (off & E & Hlen & H0 & Hoff).
  assert (0 <= n + 1) by lia. unfold newArray in *. destruct (Z.ltb_spec (n + 1) 0); [lia |].
  rewrite bind_ok in *. rewrite E, bind_ok. rewrite Hlen.
  eapply returns_mono.
  - apply (forRange_inv summed); [lia | |].
    + split; [done |]. intros u Hu. case_decide.
      * replace u with 0 by lia. rewrite H0, below_0; [done |]. intros x Hx. apply Hstart in Hx. lia.
      * pose proof (Hoff (u - 1) ltac:(lia)) as E1. replace (u - 1 + 1) with u in E1 by lia.
        rewrite E1. unfold edgeSize, alen. rewrite Nat2Z.id. by rewrite firstn_all.
    + intros i a Hi (Hla & Ha). unfold prefixSum.
      rewrite (aget_ok a i), bind_ok by lia. rewrite (aget_ok a (i - 1)), bind_ok by lia. rewrite aset_ok by lia. ret.
      split; [by autorewrite with alen |]. intros u Hu. rewrite at_insert by lia.
      pose proof (Ha i ltac:(lia)) as E1. pose proof (Ha (i - 1) ltac:(lia)) as E2.
      pose proof (Ha u Hu) as E3. repeat case_decide; try lia.
      subst u. rewrite E1, E2.
      assert (below i (startNode edge) = below (i - 1) (startNode edge) + copies (i - 1) (startNode edge))
        as Eb by (rewrite <-below_S; f_equal; lia).
      rewrite iadd_id; [lia |]. pose proof (below_le i (startNode edge)).
      unfold is_int, MIN_VALUE, MAX_VALUE, edgeSize in *. lia.
  - cbv beta. intros a (Hla & Ha). split; [done |]. intros u Hu. rewrite Ha by done.
    by rewrite decide_True by lia.
Qed.
End offsets.

(** ** Reading a well-formed file *)

#[export] Instance TmpEdge_inhabited : Inhabited TmpEdge := populate (mkTmpEdge 0 0 0).
#[export] Instance TmpNode_inhabited {D} `{!JDouble D} : Inhabited (TmpNode D) :=
  populate (mkTmpNode 0 (dofZ 0) (dofZ 0)).
#[export] Instance double_inhabited {D} `{!JDouble D} : Inhabited D := populate (dofZ 0).

Section reading.
Context {D : Type} `{!JDouble D} `{!DoubleText D}.
Context (nodes : list (TmpNode D)) (es : list (Z * Z * Z)).

Definition nodeLine (nd : TmpNode D) : string :=
  (printInt (tId nd) +:+ " " +:+ printDouble (tLat nd) +:+ " " +:+ printDouble (tLong nd))%string.
Definition edgeLine (e : Z * Z * Z) : string :=
  (printInt e.1.1 +:+ " " +:+ printInt e.1.2 +:+ " " +:+ printInt e.2)%string.

(** A file with two header lines, the two counts, the nodes and the edges. *)
Definition fileOf (h1 h2 : string) : list string :=
  h1 :: h2 :: printInt (alen nodes) :: printInt (alen es) :: (nodeLine <$> nodes) ++ (edgeLine <$> es).

(** Ids are distinct, edges join known ids, and every node that an edge leads to has an edge of
    its own (otherwise the import throws). *)
Record file_ok : Prop := {
  fok_ids : NoDup (tId <$> nodes);
  fok_int : forall nd, nd ∈ nodes -> is_int (tId nd);
  fok_ends : forall e, e ∈ es -> e.1.1 ∈ tId <$> nodes /\ e.1.2 ∈ tId <$> nodes /\ is_int e.2;
  fok_leaves : forall e, e ∈ es -> exists e', e' ∈ es /\ e'.1.1 = e.1.2;
  fok_nodes : alen nodes < MAX_VALUE;
  fok_edges : 2 * alen es <= MAX_VALUE;
}.
Context (Hok : file_ok).

(** The map from file ids to indices after the first [k] nodes. *)
Fixpoint idsUpto (k : nat) : gmap Z Z :=
  match k with O => ∅ | S k' => <[tId (nodes !!! k') := Z.of_nat k']> (idsUpto k') end.
Definition ids : gmap Z Z := idsUpto (length nodes).
Definition indexOf (id : Z) : Z := default 0 (ids !! id).

Lemma readTrimmed_line a m b file : word a -> word b ->
  readTrimmed ((a +:+ m +:+ b)%string :: file) = Ok ((a +:+ m +:+ b)%string, file).
Proof. intros Ha Hb. unfold readTrimmed. cbn. by rewrite trim_between. Qed.

Lemma readTrimmed_three a b c file : word a -> word b -> word c ->
  readTrimmed ((a +:+ " " +:+ b +:+ " " +:+ c)%string :: file)
    = Ok ((a +:+ " " +:+ b +:+ " " +:+ c)%string, file).
Proof.
  intros Ha Hb Hc. rewrite !append_assoc. rewrite <-(append_assoc a), <-(append_assoc a).
  rewrite <-(append_assoc a). by apply readTrimmed_line.
Qed.

Lemma readTrimmed_word a file : word a -> readTrimmed (a :: file) = Ok (a, file).
Proof. intros Ha. unfold readTrimmed. cbn. by rewrite trim_word. Qed.

Lemma readNodes_ok rest : forRange 0 (alen nodes) readNode ([], ∅, (nodeLine <$> nodes) ++ rest)
  = Ok (nodes, ids, rest).
Proof.
  pose (f := fun i => (take (Z.to_nat i) nodes, idsUpto (Z.to_nat i),
    (nodeLine <$> drop (Z.to_nat i) nodes) ++ rest)).
  assert (f (alen nodes) = (nodes, ids, rest)) as <-.
  { unfold f, alen, ids. rewrite Nat2Z.id, firstn_all, drop_all. done. }
  change ([], ∅, (nodeLine <$> nodes) ++ rest) with (f 0).
  apply forRange_steps; [apply alen_nonneg |]. intros i Hi. unfold f, readNode.
  rewrite (drop_S nodes nodes.[i]) by (by apply at_lookup). cbn [fmap list_fmap app].
  unfold nodeLine at 1.
  rewrite readTrimmed_three, bind_ok by (apply word_printInt || apply word_printDouble).
  rewrite split_three by (apply word_printInt || apply word_printDouble).
  cbn [aget]. rewrite (aget_ok _ 0) by (autorewrite with alen; cbn; lia). rewrite bind_ok.
  change ([?a; ?b; ?c].[0]) with a. rewrite parse_print, bind_ok by (apply (fok_int Hok), at_In; lia).
  rewrite (aget_ok _ 1) by (autorewrite with alen; cbn; lia). rewrite bind_ok.
  change ([?a; ?b; ?c].[1]) with b. rewrite parse_printDouble, bind_ok.
  rewrite (aget_ok _ 2) by (autorewrite with alen; cbn; lia). rewrite bind_ok.
  change ([?a; ?b; ?c].[2]) with c. rewrite parse_printDouble, bind_ok.
  replace (Z.to_nat (i + 1)) with (S (Z.to_nat i)) by lia.
  rewrite (take_S_r nodes _ nodes.[i]) by (by apply at_lookup). cbn [idsUpto].
  rewrite Z2Nat.id by lia. do 3 f_equal. by destruct (nodes.[i]).
Qed.

Lemma idsUpto_lookup k : (k <= length nodes)%nat -> forall j, (j < k)%nat ->
  idsUpto k !! tId (nodes !!! j) = Some (Z.of_nat j).
Proof.
  induction k as [| k IH]; intros Hk j Hj; [lia |]. cbn.
  destruct (decide (j = k)) as [-> | Hne]; [by rewrite lookup_insert_eq |].
  rewrite lookup_insert_ne; [apply IH; lia |]. intros E. apply Hne.
  pose proof (fok_ids Hok) as Hnd. rewrite NoDup_alt in Hnd.
  apply (Hnd j k (tId (nodes !!! j))); rewrite list_lookup_fmap, list_lookup_lookup_total_lt by lia;
    cbn; congruence.
Qed.

Lemma ids_lookup j : 0 <= j < alen nodes -> ids !! tId nodes.[j] = Some j.
Proof.
  intros Hj. unfold ids. rewrite idsUpto_lookup by (unfold alen in Hj; lia). f_equal. lia.
Qed.

Lemma ids_known id : id ∈ tId <$> nodes -> ids !! id = Some (indexOf id) /\ 0 <= indexOf id < alen nodes
  /\ is_int id.
Proof.
  intros (nd & -> & Hnd)%list_elem_of_fmap. pose proof (fok_int Hok nd Hnd).
  apply In_at in Hnd as (j & Hj & <-). unfold indexOf. rewrite ids_lookup by done. cbn. done.
Qed.

Lemma indexOf_at j : 0 <= j < alen nodes -> indexOf (tId nodes.[j]) = j.
Proof. intros Hj. unfold indexOf. by rewrite ids_lookup. Qed.

Lemma nodes_sorted : sortBy (fun o => default 0 (ids !! tId o)) nodes = nodes.
Proof.
  apply sortBy_id. intros i j x y Hij Hx Hy.
  pose proof (lookup_lt_Some _ _ _ Hx). pose proof (lookup_lt_Some _ _ _ Hy).
  assert (forall k z, nodes !! k = Some z -> ids !! tId z = Some (Z.of_nat k)) as Hk.
  { intros k z Hz. pose proof (lookup_lt_Some _ _ _ Hz).
    pose proof (ids_lookup (Z.of_nat k) ltac:(unfold alen; lia)) as E.
    rewrite Nat2Z.id in E. by rewrite (list_lookup_total_correct _ _ _ Hz) in E. }
  rewrite (Hk i x Hx), (Hk j y Hy). cbn. lia.
Qed.

Definition translate (e : Z * Z * Z) : TmpEdge := mkTmpEdge (indexOf e.1.1) (indexOf e.1.2) e.2.

Lemma readEdges_ok : forRange 0 (alen es) (readEdge ids) ([], edgeLine <$> es)
  = Ok (translate <$> es, []).
Proof.
  pose (f := fun i => (translate <$> take (Z.to_nat i) es, edgeLine <$> drop (Z.to_nat i) es)).
  assert (f (alen es) = (translate <$> es, [])) as <-.
  { unfold f, alen. rewrite Nat2Z.id, firstn_all, drop_all. done. }
  change ([], edgeLine <$> es) with (f 0).
  apply forRange_steps; [apply alen_nonneg |]. intros i Hi. unfold f, readEdge.
  rewrite (drop_S es es.[i]) by (by apply at_lookup). cbn [fmap list_fmap].
  destruct (fok_ends Hok es.[i]) as (Ha & Hb & Hw); [by apply at_In |].
  apply ids_known in Ha as (Ea & _ & Ia), Hb as (Eb & _ & Ib).
  unfold edgeLine at 1.
  rewrite readTrimmed_three, bind_ok by apply word_printInt.
  rewrite split_three by apply word_printInt.
  rewrite (aget_ok _ 0) by (autorewrite with alen; cbn; lia). rewrite bind_ok.
  change ([?a; ?b; ?c].[0]) with a. rewrite parse_print, bind_ok by done.
  unfold getBoxed. rewrite Ea, bind_ok.
  rewrite (aget_ok _ 1) by (autorewrite with alen; cbn; lia). rewrite bind_ok.
  change ([?a; ?b; ?c].[1]) with b. rewrite parse_print, bind_ok by done. rewrite Eb, bind_ok.
  rewrite (aget_ok _ 2) by (autorewrite with alen; cbn; lia). rewrite bind_ok.
  change ([?a; ?b; ?c].[2]) with c. rewrite parse_print, bind_ok by done.
  replace (Z.to_nat (i + 1)) with (S (Z.to_nat i)) by lia.
  rewrite (take_S_r es _ es.[i]) by (by apply at_lookup). by rewrite fmap_app.
Qed.
End reading.

(** ** The adjacency map and the missing reverse edges *)

Section missing.
Context (L : list TmpEdge).

Definition leaving (k : Z) (l : list TmpEdge) : list TmpEdge := List.filter (fun e => tStart e =? k) l.

Lemma elem_of_leaving k l e : e ∈ leaving k l <-> e ∈ l /\ tStart e = k.
Proof. unfold leaving. rewrite !list_elem_of_In, filter_In, Z.eqb_eq. done. Qed.

(** The map sends every start of an edge to its edges, and nothing else. *)
Definition adjacency (l : list TmpEdge) (m : gmap Z (list TmpEdge)) : Prop :=
  forall k, m !! k = if decide (leaving k l = []) then None else Some (leaving k l).

Lemma adjacency_ok : returns (forRange 0 (alen L) (addAdjacent L) ∅) (adjacency L).
Proof.
  eapply returns_mono.
  - apply (forRange_inv (fun i m => adjacency (take (Z.to_nat i) L) m)); [apply alen_nonneg | |].
    + intros k. by rewrite lookup_empty.
    + intros i m Hi Hm. unfold addAdjacent, lget. destruct (Z.ltb_spec i 0); [lia |].
      rewrite at_lookup, bind_ok by done. ret.
      replace (Z.to_nat (i + 1)) with (S (Z.to_nat i)) by lia.
      rewrite (take_S_r L _ L.[i]) by (by apply at_lookup). intros k.
      assert (leaving k (take (Z.to_nat i) L ++ [L.[i]]) =
        leaving k (take (Z.to_nat i) L) ++ if decide (tStart L.[i] = k) then [L.[i]] else []) as ->.
      { unfold leaving. rewrite List.filter_app. cbn.
        destruct (Z.eqb_spec (tStart L.[i]) k); by case_decide. }
      destruct (decide (tStart L.[i] = k)) as [<- | Hne].
      * rewrite lookup_insert_eq, decide_False by (by intros [_ [=]]%app_eq_nil). rewrite Hm.
        case_decide as E; cbn; [by rewrite E | done].
      * rewrite lookup_insert_ne, app_nil_r by done. apply Hm.
  - cbv beta. intros m. unfold alen. by rewrite Nat2Z.id, firstn_all.
Qed.

(** The entries of distinct keys have at most as many edges as there are. *)
Definition entrySizes (ks : list Z) (l : list TmpEdge) : Z :=
  foldr (fun k n => alen (leaving k l) + n) 0 ks.

Lemma entrySizes_cons x ks l : entrySizes ks (x :: l) =
  entrySizes ks l + Z.of_nat (count_occ Z.eq_dec ks (tStart x)).
Proof.
  induction ks as [| k ks IH]; [done |]. unfold entrySizes in *. cbn [foldr count_occ].
  rewrite IH. unfold leaving at 1. cbn [List.filter].
  destruct (Z.eqb_spec (tStart x) k), (Z.eq_dec k (tStart x)); try congruence;
    fold (leaving k l); autorewrite with alen; lia.
Qed.

Lemma entrySizes_le ks l : NoDup ks -> entrySizes ks l <= alen l.
Proof.
  intros Hnd. induction l as [| x l IH].
  - unfold entrySizes. clear Hnd. induction ks; cbn; [done |]. rewrite IHks. done.
  - rewrite entrySizes_cons, alen_cons. apply NoDup_ListNoDup in Hnd.
    pose proof (proj1 (NoDup_count_occ Z.eq_dec ks) Hnd (tStart x)). lia.
Qed.

Definition reverseOf (e : TmpEdge) : TmpEdge := mkTmpEdge (tDest e) (tStart e) (tDist e).
Definition symmetric : Prop := forall e, e ∈ L -> exists e', e' ∈ L /\ opposite e e' = true.

(** Every edge added is the reverse of an edge; of a symmetric list none is missing. *)
Definition noted (n : Z) (st : Z * list TmpEdge) : Prop :=
  st.1 = alen L + alen st.2 /\ alen st.2 <= n /\
  (forall x, x ∈ st.2 -> exists e, e ∈ L /\ x = reverseOf e) /\ (symmetric -> st.2 = []).

Context (m : gmap Z (list TmpEdge)) (Hm : adjacency L m).
Context (Hleave : forall e, e ∈ L -> exists e', e' ∈ L /\ tStart e' = tDest e).
Context (Hsize : 2 * alen L <= MAX_VALUE).

Lemma checkEdge_ok e found n miss : e ∈ L -> n < alen L -> noted n (alen L + alen miss, miss) ->
  returns (checkEdge m e (found, alen L + alen miss, miss))
    (fun st => noted (n + 1) (st.1.2, st.2)).
Proof.
  intros He Hn (_ & Hlen & Hrev & Hsym). cbn in *. unfold checkEdge. rewrite Hm.
  destruct (Hleave e He) as (e' & He' & Hs).
  rewrite decide_False.
  2:{ intros E. assert (e' ∈ leaving (tDest e) L) as Hin by (by apply elem_of_leaving).
      rewrite E in Hin. by apply elem_of_nil in Hin. }
  destruct (found || existsb (opposite e) (leaving (tDest e) L)) eqn:E; cbn [negb]; ret.
  - split; [done |]. split; [cbn; lia |]. done.
  - unfold noted. cbn. autorewrite with alen. split_and!.
    + rewrite iadd_id; [lia |]. pose proof (alen_nonneg miss). pose proof (alen_nonneg L).
      unfold is_int, MIN_VALUE, MAX_VALUE in *. lia.
    + lia.
    + intros x [Hx | ->%list_elem_of_singleton]%elem_of_app; [by apply Hrev |]. by exists e.
    + intros Hs'. destruct (Hs' e He) as (x & Hx & Hopp). apply orb_false_iff in E as [_ E].
      assert (existsb (opposite e) (leaving (tDest e) L) = true) as E'; [| congruence].
      apply existsb_exists. exists x. split; [| done]. apply list_elem_of_In, elem_of_leaving.
      unfold opposite in Hopp. apply andb_true_iff in Hopp as [Hopp _]. split; [done | lia].
Qed.

Lemma checkEntry_ok k v n st : v = leaving k L -> 0 <= n -> n + alen v <= alen L -> noted n st ->
  returns (checkEntry m (k, v) st) (noted (n + alen v)).
Proof.
  intros -> Hn0 Hn Hst. destruct st as [ne miss]. unfold checkEntry. cbn [snd].
  eapply (returns_bind _ _ (fun st => noted (n + alen (leaving k L)) (st.1.2, st.2))).
  2:{ intros [[found ne'] miss'] Hst'. ret. exact Hst'. }
  apply (forEach_inv (fun pre st => noted (n + alen pre) (st.1.2, st.2))).
  - cbn. by rewrite alen_nil, Z.add_0_r.
  - intros pre e todo [[found ne'] miss'] Heq Hst'. cbn in Hst'.
    assert (ne' = alen L + alen miss') as -> by apply Hst'.
    autorewrite with alen. rewrite Z.add_assoc, Z.add_0_r.
    assert (e ∈ leaving k L) as He by (rewrite Heq; set_solver).
    assert (alen (leaving k L) = alen pre + (1 + alen todo)) as El
      by (rewrite Heq; by autorewrite with alen). pose proof (alen_nonneg todo).
    apply checkEdge_ok; [by apply elem_of_leaving in He as [He _] | lia | done].
Qed.

Lemma checkAll_ok entries : entries ≡ₚ map_to_list m ->
  returns (forEach entries (checkEntry m) (alen L, [])) (fun st => noted (alen L) st).
Proof.
  intros Hp. assert (NoDup entries.*1) as Hnd by (rewrite Hp; apply NoDup_fst_map_to_list).
  assert (forall k v, (k, v) ∈ entries -> v = leaving k L) as Hv.
  { intros k v. rewrite Hp, elem_of_map_to_list, Hm. by case_decide; intros [=]. }
  eapply returns_mono.
  - apply (forEach_inv (fun pre st => noted (entrySizes pre.*1 L) st)).
    + unfold noted. cbn. rewrite alen_nil. split_and!; [lia | lia | | done]. intros x Hx.
      by apply elem_of_nil in Hx.
    + intros pre [k v] todo st Heq Hst.
      assert (v = leaving k L) as -> by (apply Hv; rewrite Heq; set_solver).
      assert (entrySizes (pre ++ [(k, leaving k L)]).*1 L = entrySizes pre.*1 L + alen (leaving k L)) as E.
      { rewrite fmap_app. cbn. generalize pre.*1. intros ks. unfold entrySizes.
        induction ks as [| k' ks IH]; cbn; [lia |]. rewrite IH. lia. }
      rewrite E. apply checkEntry_ok; [done | | | done].
      * clear. generalize pre.*1. intros ks. induction ks as [| k' ks IH]; cbn; [done |].
        unfold entrySizes in *. cbn. pose proof (alen_nonneg (leaving k' L)). lia.
      * rewrite <-E. apply entrySizes_le. rewrite Heq in Hnd. rewrite cons_middle, app_assoc in Hnd.
        rewrite fmap_app in Hnd. by apply NoDup_app in Hnd as [Hnd _].
  - cbv beta. intros [ne miss] (? & ? & ? & ?). split_and!; try done.
    pose proof (entrySizes_le entries.*1 L Hnd). cbn in *. lia.
Qed.
(** Which edges are added: at every node those without a reverse that come before the first edge
    with one. *)
Definition unpaired (e : TmpEdge) : bool := negb (existsb (opposite e) (leaving (tDest e) L)).

Fixpoint leading (l : list TmpEdge) : list TmpEdge :=
  match l with [] => [] | e :: l => if unpaired e then e :: leading l else [] end.

Lemma leading_snoc pre e : leading (pre ++ [e]) = leading pre ++ if forallb unpaired pre && unpaired e then [e] else [].
Proof. induction pre as [| x pre IH]; cbn; [by destruct (unpaired e) |]. destruct (unpaired x); cbn; [by rewrite IH | done]. Qed.

Lemma unpaired_spec e : unpaired e = true <-> forall e', e' ∈ L -> opposite e e' = false.
Proof.
  unfold unpaired. rewrite negb_true_iff. split.
  - intros E e' He'. destruct (opposite e e') eqn:Eo; [| done]. rewrite <-E. symmetry. apply existsb_exists. exists e'. split; [| done].
    apply list_elem_of_In, elem_of_leaving. split; [done |]. unfold opposite in Eo. apply andb_true_iff in Eo as [Eo _]. lia.
  - intros H. destruct (existsb _ _) eqn:E; [| done]. apply existsb_exists in E as (e' & He' & Eo).
    apply list_elem_of_In, elem_of_leaving in He' as [He' _]. by rewrite H in Eo.
Qed.

Lemma checkEntry_leading k ne miss : returns (checkEntry m (k, leaving k L) (ne, miss)) (fun st =>
  st.2 = miss ++ (reverseOf <$> leading (leaving k L))).
Proof.
  unfold checkEntry. cbn [snd].
  eapply (returns_bind _ _ (fun st => st.1.1 = negb (forallb unpaired (leaving k L)) /\ st.2 = miss ++ (reverseOf <$> leading (leaving k L)))).
  2:{ intros [[found ne'] miss'] [_ Hst]. ret. exact Hst. }
  apply (forEach_inv (fun pre st => st.1.1 = negb (forallb unpaired pre) /\ st.2 = miss ++ (reverseOf <$> leading pre))).
  - split; [done | by rewrite app_nil_r].
  - intros pre e todo [[found ne'] miss'] Heq [Hf Hmiss]. cbn in Hf, Hmiss. subst found miss'.
    assert (e ∈ L) as He by (assert (e ∈ leaving k L) as H by (rewrite Heq; set_solver); by apply elem_of_leaving in H as [? _]).
    destruct (Hleave e He) as (e' & He' & Hs). unfold checkEdge. rewrite Hm, decide_False.
    2:{ intros E. assert (e' ∈ leaving (tDest e) L) as Hin by (by apply elem_of_leaving). rewrite E in Hin. by apply elem_of_nil in Hin. }
    rewrite leading_snoc, forallb_app. cbn [forallb]. rewrite andb_true_r, fmap_app.
    assert (existsb (opposite e) (leaving (tDest e) L) = negb (unpaired e)) as -> by (unfold unpaired; by rewrite negb_involutive).
    destruct (forallb unpaired pre), (unpaired e); cbn; ret; cbn; rewrite ?app_nil_r, <-?app_assoc; done.
Qed.

(** The edges that are added. *)
Definition repairs (extra : list TmpEdge) : Prop :=
  forall x, x ∈ extra <-> exists e, e ∈ leading (leaving (tStart e) L) /\ x = reverseOf e.

Lemma leading_start k e : e ∈ leading (leaving k L) -> tStart e = k.
Proof.
  intros He. assert (forall l, e ∈ leading l -> e ∈ l) as Hsub.
  { induction l as [| x l IH]; cbn; [done |]. destruct (unpaired x); [| by intros H%elem_of_nil].
    rewrite !elem_of_cons. intros [-> | H]; [by left | right; by apply IH]. }
  by apply Hsub, elem_of_leaving in He as [_ ?].
Qed.

Lemma repairs_leading extra k x : repairs extra -> x ∈ leading (leaving k L) -> reverseOf x ∈ extra.
Proof. intros Ha Hx. apply Ha. exists x. split; [| done]. by rewrite (leading_start k x Hx). Qed.

Lemma checkAll_leading entries : entries ≡ₚ map_to_list m ->
  returns (forEach entries (checkEntry m) (alen L, [])) (fun st => repairs st.2).
Proof.
  intros Hp.
  assert (forall k v, (k, v) ∈ entries <-> v = leaving k L /\ leaving k L <> []) as Hv.
  { intros k v. rewrite Hp, elem_of_map_to_list, Hm. case_decide; split; [done | tauto | by intros [= <-] | by intros [-> _]]. }
  eapply returns_mono.
  - apply (forEach_inv (fun pre st => forall x, x ∈ st.2 <-> exists e, (tStart e, leaving (tStart e) L) ∈ pre /\
      e ∈ leading (leaving (tStart e) L) /\ x = reverseOf e)).
    + intros x. split; [by intros Hx%elem_of_nil | by intros (e & He%elem_of_nil & _)].
    + intros pre [k v] todo [ne miss] Heq Hst.
      assert (v = leaving k L) as -> by (apply (Hv k v); rewrite Heq; set_solver).
      eapply returns_mono; [apply checkEntry_leading |]. cbn. intros st -> x. rewrite elem_of_app, (Hst x). split.
      * intros [(e & Hk & He & ->) | (e & -> & He)%list_elem_of_fmap]; exists e; [split; [by apply elem_of_app; left | done] |].
        pose proof (leading_start k e He) as <-. split; [apply elem_of_app; right; by left | done].
      * intros (e & [Hk | [= -> _]%list_elem_of_singleton]%elem_of_app & He & ->); [left; by exists e | right; by apply list_elem_of_fmap_2].
  - cbv beta. intros st Hst x. rewrite (Hst x). split; [intros (e & _ & ?); by exists e |]. intros (e & He & ->). exists e.
    split; [| done]. apply Hv. split; [done |]. intros E. rewrite E in He. by apply elem_of_nil in He.
Qed.
(** Whether an edge to the destination of [e] is among those that get a reverse. *)
Lemma leading_prefix pre e post : unpaired e = true -> (forall e', e' ∈ pre -> tDest e' <> tDest e) ->
  (exists w, mkTmpEdge (tStart e) (tDest e) w ∈ leading (pre ++ e :: post)) <-> forall e', e' ∈ pre -> unpaired e' = true.
Proof.
  intros Hun. induction pre as [| x pre IH]; intros Hfirst; cbn [app leading].
  - rewrite Hun. split; [intros _ e' He'; by apply elem_of_nil in He' |]. intros _. exists (tDist e). apply elem_of_cons. left. by destruct e.
  - destruct (unpaired x) eqn:Ex.
    + rewrite <-(Forall_forall (fun e' => unpaired e' = true)), Forall_cons, Forall_forall, <-IH by (intros; apply Hfirst; by right).
      split; [| intros [_ [w Hw]]; exists w; by right]. intros [w [<- | Hw]%elem_of_cons]; [| split; [done | by exists w]].
      by destruct (Hfirst (mkTmpEdge (tStart e) (tDest e) w)); [left |].
    + split; [by intros [w Hw%elem_of_nil] |]. intros Hall. specialize (Hall x ltac:(by left)). congruence.
Qed.
End missing.

(** Sorting by start is stable: it keeps the edges of every node in the order of the file. *)
Lemma leaving_insertBy k x l : sortedBy tStart l ->
  leaving k (insertBy tStart x l) = leaving k l ++ if tStart x =? k then [x] else [].
Proof.
  induction l as [| y l IH]; intros Hs; cbn [insertBy]; [done |]. apply sortedBy_cons in Hs as [Hy Hs].
  destruct (Z.ltb_spec (tStart x) (tStart y)) as [Hlt | Hge].
  - unfold leaving. cbn [List.filter]. destruct (Z.eqb_spec (tStart x) k) as [<- | Hne]; [| by rewrite app_nil_r].
    destruct (Z.eqb_spec (tStart y) (tStart x)); [lia |].
    assert (leaving (tStart x) l = []) as E; [| unfold leaving in E; by rewrite E].
    apply elem_of_nil_inv. intros z [Hz Ez]%elem_of_leaving. specialize (Hy z Hz). lia.
  - unfold leaving in *. cbn [List.filter]. rewrite IH by done. by destruct (tStart y =? k).
Qed.

Lemma leaving_sortBy k l : leaving k (sortBy tStart l) = leaving k l.
Proof.
  unfold sortBy. enough (forall acc, sortedBy tStart acc ->
    leaving k (foldl (fun acc x => insertBy tStart x acc) acc l) = leaving k acc ++ leaving k l) as H by (apply (H []), sortedBy_nil).
  induction l as [| x l IH]; intros acc Hacc; cbn [foldl]; [by rewrite app_nil_r |].
  rewrite IH, leaving_insertBy by (done || by apply insertBy_sorted). rewrite <-app_assoc. f_equal.
  unfold leaving at 2. cbn [List.filter]. by destruct (tStart x =? k).
Qed.

Lemma unpaired_sortBy l e : unpaired (sortBy tStart l) e = unpaired l e.
Proof. unfold unpaired. by rewrite leaving_sortBy. Qed.

Lemma leading_sortBy l part : leading (sortBy tStart l) part = leading l part.
Proof. induction part as [| x part IH]; [done |]. cbn. by rewrite unpaired_sortBy, IH. Qed.

Lemma repairs_sortBy l extra : repairs (sortBy tStart l) extra <-> repairs l extra.
Proof.
  unfold repairs. setoid_rewrite leading_sortBy. by setoid_rewrite leaving_sortBy.
Qed.

(** ** The imported graph *)

Section imported.
Context {D : Type} `{!JDouble D} `{!DoubleText D}.
Context (entrySet : gmap Z (list TmpEdge) -> list (Z * list TmpEdge)).
Context (Hentries : forall m, entrySet m ≡ₚ map_to_list m).
Context (nodes : list (TmpNode D)) (es : list (Z * Z * Z)) (Hok : file_ok nodes es).

Notation translated := (translate nodes <$> es).

Lemma fillNodes_ok : forRange 0 (alen nodes) (fun i '(latitude, longitude) =>
    nd ← lget nodes i;
    latitude ← aset latitude i (tLat nd);
    longitude ← aset longitude i (tLong nd);
    Ok (latitude, longitude))
    (replicate (Z.to_nat (alen nodes)) (dofZ 0), replicate (Z.to_nat (alen nodes)) (dofZ 0))
  = Ok (tLat <$> nodes, tLong <$> nodes).
Proof.
  pose (part := fun (proj : TmpNode D -> D) i =>
    take (Z.to_nat i) (proj <$> nodes) ++ replicate (Z.to_nat (alen nodes - i)) (dofZ 0)).
  assert (forall proj, part proj 0 = replicate (Z.to_nat (alen nodes)) (dofZ 0)) as E0.
  { intros proj. unfold part. by rewrite Z.sub_0_r. }
  assert (forall proj, part proj (alen nodes) = proj <$> nodes) as E1.
  { intros proj. unfold part. rewrite Z.sub_diag. cbn. rewrite app_nil_r. apply take_ge.
    rewrite length_fmap. unfold alen. lia. }
  rewrite <-(E0 tLat) at 1. rewrite <-(E0 tLong), <-(E1 tLat), <-(E1 tLong).
  apply (forRange_steps (fun i => (part tLat i, part tLong i))); [apply alen_nonneg |].
  intros i Hi. unfold lget. destruct (Z.ltb_spec i 0); [lia |]. rewrite at_lookup, bind_ok by done.
  assert (forall proj, aset (part proj i) i (proj nodes.[i]) = Ok (part proj (i + 1))) as Hp.
  { intros proj. unfold part.
    assert (proj nodes.[i] = (proj <$> nodes).[i]) as ->.
    { rewrite (list_lookup_total_fmap proj nodes) by (unfold alen in Hi; lia). done. }
    apply fill_next; unfold alen in *; rewrite ?length_fmap; lia. }
  by rewrite (Hp tLat), bind_ok, (Hp tLong).
Qed.

Lemma fillEdges_ok l n : n = alen l -> forRange 0 n (fun i '(startNode, destNode, dist) =>
    e ← lget l i;
    startNode ← aset startNode i (tStart e);
    destNode ← aset destNode i (tDest e);
    dist ← aset dist i (tDist e);
    Ok (startNode, destNode, dist))
    (replicate (Z.to_nat n) 0, replicate (Z.to_nat n) 0, replicate (Z.to_nat n) 0)
  = Ok (tStart <$> l, tDest <$> l, tDist <$> l).
Proof.
  intros ->.
  pose (part := fun (proj : TmpEdge -> Z) i =>
    take (Z.to_nat i) (proj <$> l) ++ replicate (Z.to_nat (alen l - i)) 0).
  assert (forall proj, part proj 0 = replicate (Z.to_nat (alen l)) 0) as E0.
  { intros proj. unfold part. by rewrite Z.sub_0_r. }
  assert (forall proj, part proj (alen l) = proj <$> l) as E1.
  { intros proj. unfold part. rewrite Z.sub_diag. cbn. rewrite app_nil_r. apply take_ge.
    rewrite length_fmap. unfold alen. lia. }
  rewrite <-(E0 tStart) at 1. rewrite <-(E0 tDest) at 1.
  rewrite <-(E0 tDist), <-(E1 tStart), <-(E1 tDest), <-(E1 tDist).
  apply (forRange_steps (fun i => (part tStart i, part tDest i, part tDist i))); [apply alen_nonneg |].
  intros i Hi. unfold lget. destruct (Z.ltb_spec i 0); [lia |]. rewrite at_lookup, bind_ok by done.
  assert (forall proj, aset (part proj i) i (proj l.[i]) = Ok (part proj (i + 1))) as Hp.
  { intros proj. unfold part.
    assert (proj l.[i] = (proj <$> l).[i]) as ->.
    { rewrite (list_lookup_total_fmap proj l) by (unfold alen in Hi; lia). done. }
    apply fill_next; unfold alen in *; rewrite ?length_fmap; lia. }
  by rewrite (Hp tStart), bind_ok, (Hp tDest), bind_ok, (Hp tDist).
Qed.

Lemma alen_fmap {A B} (f : A -> B) (l : list A) : alen (f <$> l) = alen l.
Proof. unfold alen. by rewrite length_fmap. Qed.

Lemma translated_leaves e : e ∈ translated -> exists e', e' ∈ translated /\ tStart e' = tDest e.
Proof.
  intros (x & -> & Hx)%list_elem_of_fmap. destruct (fok_leaves _ _ Hok x Hx) as (y & Hy & E).
  exists (translate nodes y). split; [by apply list_elem_of_fmap_2 |]. cbn. by rewrite E.
Qed.

(** What the import answers: the list [l] of the edges, sorted by start. *)
Definition imported (l : list TmpEdge) : fmi D :=
  mkFmi (tLat <$> nodes) (tLong <$> nodes) (mkEdge (tStart <$> l) (tDest <$> l) (tDist <$> l)).

Lemma readFmi_ok h1 h2 : exists extra,
  readFmi entrySet (fileOf nodes es h1 h2) = Ok (imported (sortBy tStart (sortBy tStart translated ++ extra)))
  /\ alen extra <= alen es
  /\ (forall x, x ∈ extra -> exists e, e ∈ translated /\ x = reverseOf e)
  /\ (symmetric translated -> extra = [])
  /\ repairs translated extra.
Proof.
  unfold readFmi, fileOf. cbn [readLine].
  pose proof (fok_nodes _ _ Hok) as Hn. pose proof (fok_edges _ _ Hok) as He.
  pose proof (alen_nonneg nodes). pose proof (alen_nonneg es).
  assert (is_int (alen nodes) /\ is_int (alen es)) as [In Ie]
    by (unfold is_int, MIN_VALUE, MAX_VALUE in *; lia).
  do 2 (rewrite readTrimmed_word, bind_ok by apply word_printInt; rewrite parse_print, bind_ok by done).
  rewrite readNodes_ok with (es := es), bind_ok by done.
  rewrite (nodes_sorted nodes es) by done.
  rewrite readEdges_ok, bind_ok by done.
  set (L := sortBy tStart translated).
  assert (L ≡ₚ translated) as HL by apply sortBy_perm.
  assert (alen L = alen es) as HlenL by (unfold alen; by rewrite HL, length_fmap).
  rewrite <-HlenL. pose proof (adjacency_ok L) as Ha.
  apply returns_elim in Ha as (m & -> & Hm). rewrite bind_ok.
  assert (forall e, e ∈ L -> exists e', e' ∈ L /\ tStart e' = tDest e) as Hleave.
  { intros e. rewrite HL. intros Hin. apply translated_leaves in Hin as (e' & Hin & E).
    exists e'. by rewrite HL. }
  pose proof (checkAll_ok L m Hm Hleave ltac:(lia) (entrySet m) (Hentries m)) as Hc.
  pose proof (checkAll_leading L m Hm Hleave ltac:(lia) (entrySet m) (Hentries m)) as Hlead.
  apply returns_elim in Hc as ([ne miss] & E & (Hne & Hlen & Hrev & Hsym)). rewrite E in Hlead |- *. cbn in Hne, Hlen, Hrev, Hsym, Hlead.
  rewrite bind_ok. unfold newArray. destruct (Z.ltb_spec (alen nodes) 0); [lia |]. rewrite !bind_ok.
  rewrite alen_replicate, fillNodes_ok, bind_ok by lia.
  destruct (Z.ltb_spec ne 0); [pose proof (alen_nonneg miss); lia |]. rewrite !bind_ok.
  rewrite alen_replicate by lia. rewrite (fillEdges_ok (sortBy tStart (L ++ miss))).
  2:{ unfold alen in *. rewrite sortBy_perm, length_app. lia. }
  exists miss. split; [done |]. split; [lia |]. split.
  - intros x Hx. destruct (Hrev x Hx) as (e & Hin & ->). exists e. by rewrite <-HL.
  - split; [| by apply repairs_sortBy]. intros Hs. apply Hsym. intros e. rewrite HL. intros Hin. destruct (Hs e Hin) as (e' & Hin' & Ho).
    exists e'. by rewrite HL.
Qed.
End imported.

Section offsets_graph.
Context {D : Type} `{!JDouble D} (n : Z) (l : list TmpEdge).
Context (Hn : 0 <= n) (Hsorted : sortedBy tStart l) (Hlen : alen l <= MAX_VALUE).
Context (Hends : forall x, x ∈ l -> 0 <= tStart x < n /\ 0 <= tDest x < n).

Definition edgeOf : Edge := mkEdge (tStart <$> l) (tDest <$> l) (tDist <$> l).

Lemma starts_sorted : sortedBy id (tStart <$> l).
Proof.
  intros i j x y Hij Hx Hy. rewrite list_lookup_fmap in Hx, Hy.
  apply fmap_Some in Hx as (a & Ha & ->), Hy as (b & Hb & ->). cbn. by apply (Hsorted i j).
Qed.

(** The arrays with the computed offsets are an adjacency array of the edges [l]. *)
Lemma offsets_graph : exists off, offsets n edgeOf = Ok off /\ alen off = n + 1 /\
  (forall u, 0 <= u <= n -> off.[u] = below u (tStart <$> l)) /\
  forall u e, 0 <= u < n -> 0 <= e < alen l ->
    (outgoing (mkGraph n off edgeOf) u e <-> (tStart <$> l).[e] = u).
Proof.
  destruct (returns_elim _ _ (offsets_ok n edgeOf Hn ltac:(unfold edgeSize, edgeOf; cbn; by rewrite alen_fmap)
    ltac:(cbn; intros u (x & -> & Hx)%list_elem_of_fmap; by apply Hends))) as (off & E & Hl & Hoff).
  exists off. split_and!; [done | done | done |]. intros u e Hu He. unfold outgoing. cbn.
  cbn in Hoff. rewrite !Hoff by lia.
  pose proof (below_position _ u e starts_sorted ltac:(rewrite alen_fmap; lia)).
  pose proof (below_position _ (u + 1) e starts_sorted ltac:(rewrite alen_fmap; lia)). lia.
Qed.

Lemma offsets_edge off u v w : (forall u e, 0 <= u < n -> 0 <= e < alen l ->
    (outgoing (mkGraph n off edgeOf) u e <-> (tStart <$> l).[e] = u)) ->
  (forall u, 0 <= u <= n -> off.[u] = below u (tStart <$> l)) ->
  (edge (mkGraph n off edgeOf) u v w <-> mkTmpEdge u v w ∈ l).
Proof.
  intros Hout Hoff.
  assert (forall (p : TmpEdge -> Z) e, 0 <= e < alen l -> (p <$> l).[e] = p l.[e]) as Hat.
  { intros p e He. apply (list_lookup_total_fmap p l). unfold alen in He. lia. }
  split.
  - intros (Hu & e & Ho & Hv & Hw). cbn in *.
    assert (0 <= e < alen l) as He.
    { unfold outgoing in Ho. cbn in Ho. rewrite !Hoff in Ho by lia.
      pose proof (below_le u (tStart <$> l)). pose proof (below_le (u + 1) (tStart <$> l)).
      rewrite alen_fmap in *. lia. }
    apply Hout in Ho; [| done | done]. rewrite Hat in Ho, Hv, Hw by done. subst.
    replace (mkTmpEdge _ _ _) with l.[e] by (by destruct (l.[e])). by apply at_In.
  - intros Hin. pose proof (Hends _ Hin) as [Hu _]. cbn in Hu. split; [done |].
    apply In_at in Hin as (e & He & E). exists e.
    rewrite (Hout u e Hu He). cbn. rewrite !Hat by done. by rewrite E.
Qed.

Lemma offsets_graph_ok off W : alen off = n + 1 ->
  (forall u, 0 <= u <= n -> off.[u] = below u (tStart <$> l)) ->
  (forall x, x ∈ l -> 0 <= tDist x <= W) -> graph_ok (mkGraph n off edgeOf) W.
Proof.
  intros Hl Hoff HW.
  assert (forall (p : TmpEdge -> Z) e, 0 <= e < alen (p <$> l) -> (p <$> l).[e] = p l.[e]) as Hat.
  { intros p e He. rewrite alen_fmap in He.
    apply (list_lookup_total_fmap p l). unfold alen in He. lia. }
  split; cbn; try done.
  - by rewrite !alen_fmap.
  - intros u Hu. rewrite !Hoff, alen_fmap by lia. pose proof (below_le (u + 1) (tStart <$> l)) as Hb.
    rewrite alen_fmap in Hb. pose proof (below_le u (tStart <$> l)). split; [| lia].
    rewrite below_S. pose proof (copies_le u (tStart <$> l)). lia.
  - intros e He. rewrite Hat by done. rewrite alen_fmap in He. by apply Hends, at_In.
  - intros e He. rewrite alen_fmap in He. rewrite Hat by (by rewrite alen_fmap). by apply HW, at_In.
Qed.
End offsets_graph.

(** The edges of the answered graph are those of the file, and reverses of some of them. *)
Lemma importFmiFile_ok {D} `{!JDouble D, !DoubleText D} entrySet nodes es h1 h2 W :
  (forall m, entrySet m ≡ₚ map_to_list m) -> file_ok nodes es -> (forall e, e ∈ es -> 0 <= e.2 <= W) ->
  exists g extra, importFmiFile entrySet (fileOf nodes es h1 h2) = Ok (mkNode (tLat <$> nodes) (tLong <$> nodes), g) /\
    size g = alen nodes /\ graph_ok g W /\
    (forall u v w, edge g u v w <-> mkTmpEdge u v w ∈ (translate nodes <$> es) ++ extra) /\
    (forall x, x ∈ extra -> exists e, e ∈ translate nodes <$> es /\ x = reverseOf e) /\
    (symmetric (translate nodes <$> es) -> extra = []) /\
    repairs (translate nodes <$> es) extra.
Proof.
  intros Hentries Hok HW.
  destruct (readFmi_ok entrySet Hentries nodes es Hok h1 h2) as (extra & E & Hlen & Hrev & Hsym & Hlead).
  set (l := sortBy tStart (sortBy tStart (translate nodes <$> es) ++ extra)) in *.
  assert (l ≡ₚ (translate nodes <$> es) ++ extra) as Hl by (unfold l; by rewrite !sortBy_perm).
  assert (forall x, x ∈ translate nodes <$> es ->
    0 <= tStart x < alen nodes /\ 0 <= tDest x < alen nodes /\ 0 <= tDist x <= W) as Htrans.
  { intros x (e & -> & He)%list_elem_of_fmap. destruct (fok_ends _ _ Hok _ He) as (Ha & Hb & _).
    apply (ids_known nodes es Hok) in Ha as (_ & ? & _), Hb as (_ & ? & _). split; [done |]. split; [done | by apply HW]. }
  assert (forall x, x ∈ l -> 0 <= tStart x < alen nodes /\ 0 <= tDest x < alen nodes /\ 0 <= tDist x <= W) as Hin.
  { intros x. rewrite Hl, elem_of_app. intros [Hx | Hx]; [by apply Htrans |].
    destruct (Hrev x Hx) as (e & He & ->). apply Htrans in He as (? & ? & ?). done. }
  assert (forall x, x ∈ l -> 0 <= tStart x < alen nodes /\ 0 <= tDest x < alen nodes) as Hends by (intros; split; by apply Hin).
  assert (alen l <= MAX_VALUE) as Hsize.
  { pose proof (fok_edges _ _ Hok). unfold alen in *. rewrite Hl, length_app, length_fmap. lia. }
  destruct (offsets_graph (alen nodes) l (alen_nonneg nodes) (sortBy_sorted _ _) Hsize Hends)
    as (off & Eo & Hlo & Hoff & Hout).
  exists (mkGraph (alen nodes) off (edgeOf l)), extra. split; [| split; [done |]; split; [| split; [| done]]].
  - unfold importFmiFile. rewrite E, bind_ok. unfold nodeSize. cbn.
    rewrite alen_fmap. fold l. fold (edgeOf l). by rewrite Eo.
  - apply offsets_graph_ok; [apply alen_nonneg | done | done | done |]. intros x Hx. by apply Hin.
  - intros u v w. rewrite <-Hl. by apply offsets_edge.
Qed.

(** Adding the reverse of every edge without one makes a list symmetric. *)
Lemma repaired_symmetric L extra : (forall x, x ∈ extra -> exists e, e ∈ L /\ x = reverseOf e) ->
  (forall e, e ∈ L -> unpaired L e = true -> reverseOf e ∈ extra) -> symmetric (L ++ extra).
Proof.
  assert (forall e, opposite e (reverseOf e) = true /\ opposite (reverseOf e) e = true) as Hopp
    by (intros []; unfold opposite; cbn; by rewrite !Z.eqb_refl).
  intros Hrev Hadd e [He | He]%elem_of_app.
  - destruct (unpaired L e) eqn:Eu.
    + exists (reverseOf e). split; [apply elem_of_app; right; by apply Hadd | apply Hopp].
    + unfold unpaired in Eu. apply negb_false_iff, existsb_exists in Eu as (e' & He' & Eo).
      apply list_elem_of_In, elem_of_leaving in He' as [He' _]. exists e'. split; [apply elem_of_app; by left | done].
  - destruct (Hrev e He) as (e' & He' & ->). exists e'. split; [apply elem_of_app; by left | apply Hopp].
Qed.

(** C23: Importing a well-formed file succeeds.  The answered graph is the one the router's theorems
    ask for; its nodes are those of the file in order, every edge of the file is an edge of it
    under the new ids, and every edge of it is one of the file or the reverse of one. *)
Theorem importFmiFile_graph {D} `{!JDouble D, !DoubleText D} entrySet nodes es h1 h2 W :
  (forall m, entrySet m ≡ₚ map_to_list m) -> file_ok nodes es -> (forall e, e ∈ es -> 0 <= e.2 <= W) ->
  exists g, importFmiFile entrySet (fileOf nodes es h1 h2)
    = Ok (mkNode (tLat <$> nodes) (tLong <$> nodes), g) /\
  size g = alen nodes /\ graph_ok g W /\
  (forall a b w, (a, b, w) ∈ es -> edge g (indexOf nodes a) (indexOf nodes b) w) /\
  (forall u v w, edge g u v w -> exists a b, ((a, b, w) ∈ es \/ (b, a, w) ∈ es) /\
     u = indexOf nodes a /\ v = indexOf nodes b).
Proof.
  intros Hentries Hok HW.
  destruct (importFmiFile_ok entrySet nodes es h1 h2 W Hentries Hok HW) as (g & extra & E & Hn & Hg & Hedge & Hrev & _ & _).
  exists g. split; [done |]. split; [done |]. split; [done |]. split.
  - intros a b w Hes. apply Hedge, elem_of_app. left. by apply (list_elem_of_fmap_2 (translate nodes)) in Hes.
  - intros u v w Huv. apply Hedge, elem_of_app in Huv as [Hin | Hin].
    + apply list_elem_of_fmap in Hin as ([[a b] w'] & [= -> -> ->] & Hin). exists a, b. split; [by left | done].
    + destruct (Hrev _ Hin) as (e & Hin' & Ee).
      apply list_elem_of_fmap in Hin' as ([[a b] w'] & -> & Hin'). injection Ee as -> -> ->. exists b, a. split; [by right | done].
Qed.

(** ** Writing a graph and reading it back *)

Definition unlines (ls : list string) : string :=
  foldr (fun l s => (l +:+ String LF s)%string) ""%string ls.

Lemma lines_unlines ls : Forall printable ls -> lines (unlines ls) = ls.
Proof.
  induction 1 as [| l ls Hl _ IH]; [done |]. cbn [unlines foldr]. rewrite lines_line by done.
  fold (unlines ls). by rewrite IH.
Qed.

Lemma unlines_snoc ls l : (unlines ls +:+ (l +:+ String LF ""))%string = unlines (ls ++ [l]).
Proof.
  induction ls as [| x ls IH]; [done |]. cbn [unlines foldr app]. fold (unlines ls).
  fold (unlines (ls ++ [l])). rewrite <-IH, <-append_assoc. done.
Qed.

Lemma fileOf_printable {D} `{!JDouble D, !DoubleText D} (nodes : list (TmpNode D)) es h1 h2 :
  printable h1 -> printable h2 -> Forall printable (fileOf nodes es h1 h2).
Proof.
  intros H1 H2. assert (forall z, printable (printInt z)) as Hint.
  { intros z. apply word_printable, word_printInt. }
  assert (forall x, printable (printDouble x)) as Hdouble.
  { intros x. apply word_printable, word_printDouble. }
  assert (printable " ") as Hsp by (constructor; [apply Nat.leb_le; reflexivity | constructor]).
  unfold fileOf. do 4 (constructor; [done |]).
  apply Forall_app. split; apply Forall_fmap, Forall_true; intros x; cbn;
    unfold nodeLine, edgeLine; by repeat apply printable_app.
Qed.

Section export.
Context {D : Type} `{!JDouble D} `{!DoubleText D} (node : Node D) (edge : Edge).
Context (Hlong : alen (longitude node) = nodeSize node).
Context (Hdest : alen (destNode edge) = edgeSize edge) (Hdist : alen (dist edge) = edgeSize edge).

Definition nodesOf : list (TmpNode D) :=
  (fun i => mkTmpNode i (latitude node).[i] (longitude node).[i]) <$> seqZ 0 (nodeSize node).
Definition edgesOf : list (Z * Z * Z) :=
  (fun i => ((startNode edge).[i], (destNode edge).[i], (dist edge).[i])) <$> seqZ 0 (edgeSize edge).

Lemma seqZ_at n i : 0 <= i < n -> (seqZ 0 n).[i] = i.
Proof.
  intros Hi. rewrite (list_lookup_total_correct _ _ i); [done |].
  rewrite lookup_seqZ_lt by lia. f_equal. lia.
Qed.

Lemma tabulate_at {A} `{Inhabited A} (f : Z -> A) n i : 0 <= i < n -> (f <$> seqZ 0 n).[i] = f i.
Proof.
  intros Hi. rewrite (list_lookup_total_fmap f) by (rewrite length_seqZ; lia). by rewrite seqZ_at.
Qed.

Lemma alen_tabulate {A} (f : Z -> A) n : 0 <= n -> alen (f <$> seqZ 0 n) = n.
Proof. intros Hn. unfold alen. rewrite length_fmap, length_seqZ. lia. Qed.

Lemma tabulate_self {A} `{Inhabited A} (a : list A) n : n = alen a -> (fun i => a.[i]) <$> seqZ 0 n = a.
Proof.
  intros ->. pose proof (alen_nonneg a). apply arr_ext; rewrite alen_tabulate by done; [done |].
  intros i Hi. by rewrite tabulate_at.
Qed.

Lemma exportToFmiFile_text : exportToFmiFile node edge = Ok (unlines (fileOf nodesOf edgesOf "#" "")).
Proof.
  unfold exportToFmiFile, fileOf.
  pose proof (alen_nonneg (latitude node)) as Hn. fold (nodeSize node) in Hn.
  pose proof (alen_nonneg (startNode edge)) as Hm. fold (edgeSize edge) in Hm.
  assert (alen nodesOf = nodeSize node) as -> by (by apply alen_tabulate).
  assert (alen edgesOf = edgeSize edge) as -> by (by apply alen_tabulate).
  set (head := ["#"%string; ""%string; printInt (nodeSize node); printInt (edgeSize edge)]).
  assert ((((("#" +:+ String LF "" +:+ String LF "") +:+ printInt (nodeSize node) +:+ String LF "")
    +:+ printInt (edgeSize edge) +:+ String LF "")) = unlines (head ++ []))%string as ->.
  { change (head ++ []) with (["#"%string; ""%string; printInt (nodeSize node)] ++ [printInt (edgeSize edge)]).
    rewrite <-unlines_snoc.
    change ["#"%string; ""%string; printInt (nodeSize node)]
      with (["#"%string; ""%string] ++ [printInt (nodeSize node)]).
    by rewrite <-unlines_snoc. }
  pose (g := fun i => unlines (head ++ (nodeLine <$> take (Z.to_nat i) nodesOf))).
  change (unlines (head ++ [])) with (g 0). rewrite (forRange_steps g); [| done |]; unfold g.
  - rewrite bind_ok. rewrite (take_ge nodesOf) by (unfold nodesOf; rewrite length_fmap, length_seqZ; lia).
    pose (f := fun i => unlines (head ++ (nodeLine <$> nodesOf) ++ (edgeLine <$> take (Z.to_nat i) edgesOf))).
    assert (f (edgeSize edge) = unlines ("#"%string :: ""%string :: printInt (nodeSize node)
      :: printInt (edgeSize edge) :: (nodeLine <$> nodesOf) ++ (edgeLine <$> edgesOf))) as <-.
    { unfold f. rewrite (take_ge edgesOf); [done |]. unfold edgesOf. rewrite length_fmap, length_seqZ. lia. }
    assert (unlines (head ++ (nodeLine <$> nodesOf)) = f 0) as ->.
    { unfold f. cbn [Z.to_nat take fmap list_fmap]. by rewrite app_nil_r. }
    apply forRange_steps; [done |]. intros i Hi. unfold getStart, getDest, getDist.
    fold (edgeSize edge) in Hi.
    rewrite (aget_ok (startNode edge)), (aget_ok (destNode edge)), (aget_ok (dist edge))
      by (rewrite ?Hdest, ?Hdist; done). rewrite !bind_ok. f_equal. unfold f.
    replace (Z.to_nat (i + 1)) with (S (Z.to_nat i)) by lia.
    rewrite (take_S_r edgesOf _ edgesOf.[i]) by (apply at_lookup; unfold edgesOf; by rewrite alen_tabulate).
    rewrite fmap_app, !app_assoc. cbn [fmap list_fmap]. rewrite <-unlines_snoc. f_equal.
    unfold edgesOf. rewrite tabulate_at by done. unfold edgeLine. cbn [fst snd].
    by rewrite <-!append_assoc.
  - intros i Hi. unfold getLatitude, getLongitude.
    rewrite (aget_ok (latitude node)), (aget_ok (longitude node)) by (rewrite ?Hlong; done).
    rewrite !bind_ok. f_equal.
    replace (Z.to_nat (i + 1)) with (S (Z.to_nat i)) by lia.
    rewrite (take_S_r nodesOf _ nodesOf.[i]) by (apply at_lookup; unfold nodesOf; by rewrite alen_tabulate).
    rewrite fmap_app, !app_assoc. cbn [fmap list_fmap]. rewrite <-unlines_snoc. f_equal.
    unfold nodesOf. rewrite tabulate_at by done. unfold nodeLine. cbn [tId tLat tLong].
    by rewrite <-!append_assoc.
Qed.
End export.

(** A graph in memory that the file format can hold: sorted by start, symmetric, ids and
    distances in range, and the offsets those of the edges. *)
Record canonical {D} (node : Node D) (g : graph) : Prop := {
  can_size : size g = nodeSize node;
  can_long : alen (longitude node) = nodeSize node;
  can_dest : alen (destNode (edges g)) = edgeSize (edges g);
  can_dist : alen (dist (edges g)) = edgeSize (edges g);
  can_nodes : nodeSize node < MAX_VALUE;
  can_edges : 2 * edgeSize (edges g) <= MAX_VALUE;
  can_sorted : sortedBy id (startNode (edges g));
  can_ends : forall e, 0 <= e < edgeSize (edges g) ->
    0 <= (startNode (edges g)).[e] < size g /\ 0 <= (destNode (edges g)).[e] < size g /\
    is_int (dist (edges g)).[e];
  can_symmetric : forall e, 0 <= e < edgeSize (edges g) -> exists e', 0 <= e' < edgeSize (edges g) /\
    (startNode (edges g)).[e'] = (destNode (edges g)).[e] /\
    (destNode (edges g)).[e'] = (startNode (edges g)).[e];
  can_offset : alen (offset g) = size g + 1;
  can_below : forall u, 0 <= u <= size g -> (offset g).[u] = below u (startNode (edges g));
}.

(** What a file needs to be read: arrays of equal lengths, ids and distances in range, and an edge
    from every node that an edge leads to. *)
Record exportable {D} (node : Node D) (edge : Edge) : Prop := {
  ex_long : alen (longitude node) = nodeSize node;
  ex_dest : alen (destNode edge) = edgeSize edge;
  ex_dist : alen (dist edge) = edgeSize edge;
  ex_nodes : nodeSize node < MAX_VALUE;
  ex_edges : 2 * edgeSize edge <= MAX_VALUE;
  ex_ends : forall e, 0 <= e < edgeSize edge -> 0 <= (startNode edge).[e] < nodeSize node /\
    0 <= (destNode edge).[e] < nodeSize node /\ is_int (dist edge).[e];
  ex_leaves : forall e, 0 <= e < edgeSize edge -> exists e', 0 <= e' < edgeSize edge /\
    (startNode edge).[e'] = (destNode edge).[e];
}.

(** The edges of the arrays. *)
Definition edgeList (edge : Edge) : list TmpEdge :=
  (fun i => mkTmpEdge (startNode edge).[i] (destNode edge).[i] (dist edge).[i]) <$> seqZ 0 (edgeSize edge).

Section roundtrip.
Context {D : Type} `{!JDouble D} `{!DoubleText D} (node : Node D) (edge : Edge) (Hc : exportable node edge).

Lemma exportable_file_ok : file_ok (nodesOf node) (edgesOf edge).
Proof.
  pose proof (alen_nonneg (latitude node)) as Hn. fold (nodeSize node) in Hn.
  pose proof (alen_nonneg (startNode edge)) as Hm. fold (edgeSize edge) in Hm.
  assert (tId <$> nodesOf node = seqZ 0 (nodeSize node)) as Hids.
  { unfold nodesOf. rewrite <-list_fmap_compose. rewrite <-(list_fmap_id (seqZ _ _)) at 2. done. }
  pose proof (ex_nodes _ _ Hc).
  split.
  - rewrite Hids. apply NoDup_seqZ.
  - intros nd Hnd. unfold nodesOf in Hnd. apply list_elem_of_fmap in Hnd as (i & -> & Hi).
    apply elem_of_seqZ in Hi. cbn. unfold is_int, MIN_VALUE, MAX_VALUE in *. lia.
  - intros e He. unfold edgesOf in He. apply list_elem_of_fmap in He as (i & -> & Hi).
    apply elem_of_seqZ in Hi. cbn. rewrite Hids, !elem_of_seqZ.
    destruct (ex_ends _ _ Hc i ltac:(lia)) as (? & ? & ?). split_and!; try done; lia.
  - intros e He. unfold edgesOf in *. apply list_elem_of_fmap in He as (i & -> & Hi).
    apply elem_of_seqZ in Hi. destruct (ex_leaves _ _ Hc i ltac:(lia)) as (j & Hj & Es).
    eexists. split; [apply (list_elem_of_fmap_2 _ _ j), elem_of_seqZ; lia |]. done.
  - unfold nodesOf. by rewrite alen_tabulate.
  - unfold edgesOf. rewrite alen_tabulate by done. apply (ex_edges _ _ Hc).
Qed.

Lemma exportable_index u : 0 <= u < nodeSize node -> indexOf (nodesOf node) u = u.
Proof.
  intros Hu. pose proof (alen_nonneg (latitude node)) as Hn.
  pose proof (indexOf_at (nodesOf node) _ exportable_file_ok u) as E.
  assert (alen (nodesOf node) = nodeSize node) as El by (by apply alen_tabulate).
  assert (tId (nodesOf node).[u] = u) as Eu by (unfold nodesOf; by rewrite tabulate_at).
  rewrite El, Eu in E. by apply E.
Qed.

Lemma exportable_translate : translate (nodesOf node) <$> edgesOf edge = edgeList edge.
Proof.
  unfold edgesOf, edgeList. rewrite <-list_fmap_compose. apply list_fmap_ext. intros k i Hi.
  assert (0 <= i < edgeSize edge) as Hi'.
  { apply list_elem_of_lookup_2, elem_of_seqZ in Hi. lia. }
  destruct (ex_ends _ _ Hc i Hi') as (Hs & Hd & _). unfold translate. cbn.
  by rewrite !exportable_index.
Qed.

Lemma exportable_node : mkNode (tLat <$> nodesOf node) (tLong <$> nodesOf node) = node.
Proof.
  unfold nodesOf. rewrite <-!list_fmap_compose. destruct node as [la lo] eqn:En. cbn. f_equal.
  - by apply tabulate_self.
  - apply tabulate_self. symmetry. apply (ex_long _ _ Hc).
Qed.

Lemma exportable_text : exportToFmiFile node edge = Ok (unlines (fileOf (nodesOf node) (edgesOf edge) "#" "")) /\
  lines (unlines (fileOf (nodesOf node) (edgesOf edge) "#" "")) = fileOf (nodesOf node) (edgesOf edge) "#" "".
Proof.
  split; [apply exportToFmiFile_text; apply Hc |]. apply lines_unlines, fileOf_printable; [| constructor].
  constructor; [apply Nat.leb_le; reflexivity | constructor].
Qed.

(** What an exported grid is imported as. *)
Lemma exportable_imported entrySet W : (forall m, entrySet m ≡ₚ map_to_list m) ->
  (forall x, x ∈ edgeList edge -> 0 <= tDist x <= W) ->
  exists text g extra, exportToFmiFile node edge = Ok text /\ importFmiFile entrySet (lines text) = Ok (node, g) /\
    size g = nodeSize node /\ graph_ok g W /\ (forall u v w, DijkstraGrid.edge g u v w <-> mkTmpEdge u v w ∈ edgeList edge ++ extra) /\
    (forall x, x ∈ extra -> exists e, e ∈ edgeList edge /\ x = reverseOf e) /\
    repairs (edgeList edge) extra.
Proof.
  intros Hentries HW. destruct exportable_text as [Et El].
  destruct (importFmiFile_ok entrySet _ _ "#" "" W Hentries exportable_file_ok) as (g & extra & E & Hsize & Hok & Hedge & Hrev & _ & Hlead).
  { intros e (i & -> & Hi)%list_elem_of_fmap. apply (HW (mkTmpEdge (startNode edge).[i] (destNode edge).[i] (dist edge).[i])).
    apply list_elem_of_fmap. by exists i. }
  rewrite exportable_translate in *. rewrite exportable_node in E.
  exists (unlines (fileOf (nodesOf node) (edgesOf edge) "#" "")), g, extra. rewrite El. split; [done |]. split; [done |].
  rewrite Hsize. split; [unfold nodesOf; apply alen_tabulate, alen_nonneg | done].
Qed.
End roundtrip.

Lemma canonical_exportable {D} (node : Node D) g : canonical node g -> exportable node (edges g).
Proof.
  intros Hc. pose proof (can_size _ _ Hc) as Hs. split; try apply Hc.
  - rewrite <-Hs. apply (can_ends _ _ Hc).
  - intros e He. destruct (can_symmetric _ _ Hc e He) as (e' & ? & ? & _). by exists e'.
Qed.

Lemma canonical_symmetric {D} (node : Node D) g : canonical node g -> symmetric (edgeList (edges g)).
Proof.
  intros Hc e (i & -> & Hi)%list_elem_of_fmap.
  apply elem_of_seqZ in Hi. destruct (can_symmetric _ _ Hc i ltac:(lia)) as (j & Hj & E1 & E2).
  exists (mkTmpEdge (startNode (edges g)).[j] (destNode (edges g)).[j] (dist (edges g)).[j]).
  split; [apply list_elem_of_fmap; exists j; split; [done | apply elem_of_seqZ; lia] |].
  unfold opposite. cbn. by rewrite E1, E2, !Z.eqb_refl.
Qed.

(** Canonical graphs come back. *)
Lemma canonical_back {D} `{!JDouble D, !DoubleText D} entrySet (node : Node D) g :
  (forall m, entrySet m ≡ₚ map_to_list m) -> canonical node g ->
  exists text, exportToFmiFile node (edges g) = Ok text /\
    importFmiFile entrySet (lines text) = Ok (node, g).
Proof.
  intros Hentries Hc.
  pose proof (canonical_exportable node g Hc) as Hexp. pose proof (exportable_file_ok node (edges g) Hexp) as Hok.
  destruct (exportable_text node (edges g) Hexp) as [Et El].
  exists (unlines (fileOf (nodesOf node) (edgesOf (edges g)) "#" "")). split; [done |]. rewrite El.
  destruct (readFmi_ok entrySet Hentries _ _ Hok "#" "") as (extra & E & _ & _ & Hextra & _).
  rewrite (exportable_translate node (edges g) Hexp) in E, Hextra.
  set (l := edgeList (edges g)) in *.
  pose proof (alen_nonneg (latitude node)) as Hn. pose proof (alen_nonneg (startNode (edges g))) as Hm.
  assert (tStart <$> l = startNode (edges g) /\ tDest <$> l = destNode (edges g) /\
    tDist <$> l = dist (edges g)) as (El1 & El2 & El3).
  { unfold l, edgeList. rewrite <-!list_fmap_compose. split_and!; apply tabulate_self;
      [done | symmetry; apply Hc ..]. }
  assert (sortedBy tStart l) as Hs.
  { intros i j x y Hij Hx Hy. apply (can_sorted _ _ Hc i j); rewrite <-?El1, ?list_lookup_fmap;
      [done | by rewrite Hx | by rewrite Hy]. }
  assert (symmetric l) as Hsym. by by apply (canonical_symmetric node).
  rewrite (Hextra Hsym), (sortBy_id tStart l Hs), app_nil_r, (sortBy_id tStart l Hs) in E.
  unfold importFmiFile. rewrite E, bind_ok. unfold imported. cbn [fLat fLong fEdge].
  rewrite El1, El2, El3.
  rewrite (exportable_node node (edges g) Hexp).
  destruct (edges g) as [st de di] eqn:Eg. cbn [startNode destNode dist].
  assert (Hstart : forall u, u ∈ startNode (mkEdge st de di) -> 0 <= u < nodeSize node).
  { cbn. intros u Hu. apply In_at in Hu as (e & He & <-). pose proof (can_ends _ _ Hc e) as He'.
    rewrite Eg, (can_size _ _ Hc) in He'. by apply He'. }
  assert (edgeSize (mkEdge st de di) <= MAX_VALUE) as Hb.
  { pose proof (can_edges _ _ Hc) as Hb. rewrite Eg in Hb.
    pose proof (alen_nonneg st). unfold edgeSize in *. cbn [startNode] in *. lia. }
  pose proof (offsets_ok (nodeSize node) (mkEdge st de di) Hn Hb Hstart) as Ho.
  apply returns_elim in Ho as (off & -> & Hlo & Hoff). rewrite bind_ok. do 2 f_equal.
  destruct g as [sz offg eg]. cbn in Eg. subst eg. pose proof (can_size _ _ Hc) as Hsz. cbn in Hsz. subst sz.
  f_equal. pose proof (can_offset _ _ Hc) as Hlg. pose proof (can_below _ _ Hc) as Hbg. cbn in Hlg, Hbg.
  apply arr_ext; [lia |]. intros u Hu. rewrite Hoff, Hbg by lia. done.
Qed.

(** The import of a file in which every edge has a reverse gives a canonical graph. *)
Lemma imported_canonical {D} `{!JDouble D, !DoubleText D} entrySet (nodes : list (TmpNode D)) es h1 h2 :
  (forall m, entrySet m ≡ₚ map_to_list m) -> file_ok nodes es -> symmetric (translate nodes <$> es) ->
  returns (importFmiFile entrySet (fileOf nodes es h1 h2)) (fun '(node, g) => canonical node g).
Proof.
  intros Hentries Hok Hsym. destruct (readFmi_ok entrySet Hentries nodes es Hok h1 h2) as (extra & E & _ & _ & Hextra & _).
  rewrite (Hextra Hsym), app_nil_r, (sortBy_id tStart (sortBy tStart _)) in E by apply sortBy_sorted.
  set (l := sortBy tStart (translate nodes <$> es)) in *.
  assert (l ≡ₚ translate nodes <$> es) as Hl by apply sortBy_perm.
  assert (alen l = alen es) as Hlen by (unfold alen; by rewrite Hl, length_fmap).
  pose proof (fok_nodes _ _ Hok) as Hnodes. pose proof (fok_edges _ _ Hok) as Hedges. pose proof (alen_nonneg es).
  assert (forall x, x ∈ l -> 0 <= tStart x < alen nodes /\ 0 <= tDest x < alen nodes /\ is_int (tDist x)) as Hin.
  { intros x. rewrite Hl. intros (e & -> & He)%list_elem_of_fmap. destruct (fok_ends _ _ Hok e He) as (Ha & Hb & Hw).
    apply (ids_known nodes es Hok) in Ha as (_ & ? & _), Hb as (_ & ? & _). done. }
  destruct (offsets_graph (alen nodes) l (alen_nonneg nodes) (sortBy_sorted _ _) ltac:(lia)) as (off & Eo & Hlo & Hoff & _).
  { intros x Hx. by destruct (Hin x Hx) as (? & ? & _). }
  unfold importFmiFile. rewrite E, bind_ok. unfold nodeSize. cbn [imported fLat fLong fEdge latitude longitude].
  rewrite alen_fmap. fold (edgeOf l). rewrite Eo. cbn [returns].
  assert (forall (p : TmpEdge -> Z) e, 0 <= e < alen l -> (p <$> l).[e] = p l.[e]) as Hat.
  { intros p e He. apply (list_lookup_total_fmap p l). unfold alen in He. lia. }
  split; unfold nodeSize, edgeSize; cbn [latitude longitude edges edgeOf startNode destNode dist size offset];
    rewrite ?alen_fmap; (done || lia || idtac).
  - apply starts_sorted, sortBy_sorted.
  - intros e He. rewrite !Hat by done. by apply Hin, at_In.
  - intros e He. rewrite !Hat by done. assert (l.[e] ∈ translate nodes <$> es) as He' by (apply (elem_of_Permutation_proper _ _ _ Hl); by apply at_In). destruct (Hsym _ He') as (x & Hx & Ho).
    rewrite <-Hl in Hx. apply In_at in Hx as (e' & He'' & <-). unfold opposite in Ho. exists e'. rewrite !Hat by done. lia.
Qed.

(** C24: Writing a graph and reading it back.  Exporting never throws, when the arrays are of
    matching lengths with ids and distances in range.  If every node that an edge leads to has an
    edge of its own ([exportable]; without that the import throws, see [lonely_column]), the
    text is imported as a graph of the same nodes and edges, to which reverses of edges are
    added ([repairs] tells which).  Of a [canonical] graph, one that is sorted by start, in which
    every edge has a reverse, and whose offsets are those of its edges, the import gives back exactly
    this graph: the same nodes, edges, distances and offsets.  Every import of a well-formed file
    in which each edge has a reverse is canonical. *)
Theorem export_import {D} `{!JDouble D, !DoubleText D} entrySet : (forall m, entrySet m ≡ₚ map_to_list m) ->
  (forall (node : Node D) edge W, exportable node edge -> (forall x, x ∈ edgeList edge -> 0 <= tDist x <= W) ->
    exists text g extra, exportToFmiFile node edge = Ok text /\ importFmiFile entrySet (lines text) = Ok (node, g) /\
      size g = nodeSize node /\ graph_ok g W /\ repairs (edgeList edge) extra /\
      forall u v w, DijkstraGrid.edge g u v w <-> mkTmpEdge u v w ∈ edgeList edge ++ extra) /\
  (forall (node : Node D) g, canonical node g ->
    exists text, exportToFmiFile node (edges g) = Ok text /\ importFmiFile entrySet (lines text) = Ok (node, g)) /\
  (forall (nodes : list (TmpNode D)) es h1 h2, file_ok nodes es -> symmetric (translate nodes <$> es) ->
    returns (importFmiFile entrySet (fileOf nodes es h1 h2)) (fun '(node, g) => canonical node g)).
Proof.
  intros Hentries. split; [| split].
  - intros node edge W Hc HW. destruct (exportable_imported node edge Hc entrySet W Hentries HW)
      as (text & g & extra & Et & Ei & Hn & Hok & Hedge & _ & Hadd). by exists text, g, extra.
  - intros node g. by apply canonical_back.
  - intros nodes es h1 h2. by apply imported_canonical.
Qed.

(** C37: The import means to add every missing reverse edge, but does not.  For every well-formed file,
    and every edge of it that has no reverse (the first from its start to its destination): after
    the import there is an edge back exactly when none of the edges before it at the same
    start has a reverse, because the flag that says that a reverse was found is never reset. *)
Theorem missing_reverse_not_added {D} `{!JDouble D, !DoubleText D} entrySet (nodes : list (TmpNode D)) es h1 h2 W :
  (forall m, entrySet m ≡ₚ map_to_list m) -> file_ok nodes es -> (forall e, e ∈ es -> 0 <= e.2 <= W) ->
  exists g, importFmiFile entrySet (fileOf nodes es h1 h2) = Ok (mkNode (tLat <$> nodes) (tLong <$> nodes), g) /\
  let l := translate nodes <$> es in
  forall e pre post, leaving (tStart e) l = pre ++ e :: post -> unpaired l e = true ->
    (forall e', e' ∈ pre -> tDest e' <> tDest e) ->
    ((exists w, edge g (tDest e) (tStart e) w) <-> forall e', e' ∈ pre -> unpaired l e' = true).
Proof.
  intros Hentries Hok HW.
  destruct (importFmiFile_ok entrySet nodes es h1 h2 W Hentries Hok HW) as (g & extra & E & _ & _ & Hedge & _ & _ & Hadd).
  exists g. split; [done |]. intros l e pre post Hpre Hun Hfirst.
  setoid_rewrite Hedge. rewrite <-(leading_prefix l pre e post Hun Hfirst), <-Hpre. split.
  - intros [w [Hin | (e' & He' & Ew)%Hadd]%elem_of_app].
    + rewrite unpaired_spec in Hun. specialize (Hun _ Hin). unfold opposite in Hun. cbn in Hun. by rewrite !Z.eqb_refl in Hun.
    + destruct e' as [a b w']. unfold reverseOf in Ew. cbn in Ew, He'. injection Ew as <- <- <-. by exists w.
  - intros (w & Hw). exists w. apply elem_of_app. right. apply Hadd. by exists (mkTmpEdge (tStart e) (tDest e) w).
Qed.

(** C36: For a point in range the lookup answers -1 exactly when no node lies in its plane of integer
    degrees; otherwise a node of that plane that no other node of the plane is nearer than (or 0,
    when every distance is at least the largest double). *)
Theorem nearest_node {D} `{!JDouble D, !DoubleOrder D} off (node : Node D) hubl latitude longitude :
  alen (DijkstraGrid.longitude node) = nodeSize node ->
  let f i := (DijkstraGrid.latitude node).[i] in
  let g i := (DijkstraGrid.longitude node).[i] in
  let inPlane := inPlane latitude longitude f g (nodeSize node) in
  let farness := farness latitude longitude f g in
  returns (getNearestGridNodeByCoordinates (Some off) node hubl latitude longitude) (fun r =>
    (r = -1 /\ forall i, ~ inPlane i) \/
    (r = 0 /\ (exists i, inPlane i) /\ forall i, inPlane i -> dlt (farness i) dMAX = false) \/
    (inPlane r /\ dlt (farness r) dMAX = true /\
     forall i, inPlane i -> dlt (farness i) (farness r) = false)).
Proof.
  intros Hlen f g inPlane farness. cbn [getNearestGridNodeByCoordinates].
  apply nearestOf_ok; [apply alen_nonneg | |]; intros i Hi; apply aget_ok; [done | lia].
Qed.

(** ** Witnesses *)

#[local] Existing Instance intDouble.
#[local] Existing Instance intDouble_order.
#[local] Existing Instance intDouble_text.

Definition sampleNodes : Node Z := mkNode [3; 3; 3] [4; 6; 5].
Definition sampleGraph : graph := mkGraph 3 [0; 1; 3; 4] (mkEdge [0; 1; 1; 2] [1; 0; 2; 1] [7; 7; 9; 9]).

Lemma nearest_node_witness :
  getNearestGridNodeByCoordinates (Some []) sampleNodes (HubLNodes.mk 0 [] [] [] [] [] [] [] [] []) 3 4 = Ok 0 /\
  returns (getNearestGridNodeByCoordinates (Some []) sampleNodes (HubLNodes.mk 0 [] [] [] [] [] [] [] [] []) 3 4)
    (fun r => r = 0).
Proof.
  split; [vm_compute; reflexivity |].
  eapply returns_mono; [apply (nearest_node (D := Z) [] sampleNodes); reflexivity |].
  cbv beta. intros r [[_ Hno] | [[-> _] | (Hr & _ & _)]].
  - exfalso. apply (Hno 0). vm_compute. done.
  - done.
  - destruct Hr as (Hr & _ & Hg). change (nodeSize sampleNodes) with 3 in Hr. cbn in Hg.
    assert (r = 0 \/ r = 1 \/ r = 2) as [-> | [-> | ->]] by lia; done.
Defined.

Lemma sample_canonical : canonical sampleNodes sampleGraph.
Proof.
  assert (forall P : Z -> Prop, P 0 -> P 1 -> P 2 -> P 3 -> forall e, 0 <= e < 4 -> P e) as Hall.
  { intros P H0 H1 H2 H3 e He. assert (e = 0 \/ e = 1 \/ e = 2 \/ e = 3) as [-> | [-> | [-> | ->]]] by lia; done. }
  split; [reflexivity | reflexivity | reflexivity | reflexivity | reflexivity | discriminate
    | | | | reflexivity |].
  - intros [| [| [| [| i]]]] [| [| [| [| j]]]] x y Hij; cbn; try lia;
      intros Hx Hy; simplify_eq; cbn; lia.
  - change (edgeSize (edges sampleGraph)) with 4.
    apply Hall; vm_compute; (split; [split; [discriminate | reflexivity] |]);
      (split; [split; [discriminate | reflexivity] |]); split; discriminate.
  - change (edgeSize (edges sampleGraph)) with 4.
    apply Hall; [exists 1 | exists 0 | exists 3 | exists 2]; (split; [lia |]); done.
  - change (size sampleGraph) with 3. intros u Hu.
    apply (Hall (fun u => (offset sampleGraph).[u] = below u (startNode (edges sampleGraph)))); done || lia.
Qed.

(** The path 0 - 1 - 2 with the edges in another order than that of their starts. *)
Definition fileNodes : list (TmpNode Z) := [mkTmpNode 10 3 4; mkTmpNode 20 3 6; mkTmpNode 30 3 5].
Definition backEdges : list (Z * Z * Z) := [(30, 20, 9); (20, 10, 7); (10, 20, 7); (20, 30, 9)].

Lemma backEdges_ok : file_ok fileNodes backEdges /\ symmetric (translate fileNodes <$> backEdges).
Proof.
  split; [split; [| | | | reflexivity | discriminate] |].
  - apply NoDup_ListNoDup. repeat constructor; cbn; lia.
  - apply Forall_forall. repeat (apply Forall_cons; split); try apply Forall_nil_2; done.
  - apply Forall_forall. repeat (apply Forall_cons; split); try apply Forall_nil_2; cbn;
      (split; [set_solver |]); (split; [set_solver |]); done.
  - apply Forall_forall. repeat (apply Forall_cons; split); try apply Forall_nil_2; cbn;
      [exists (20, 10, 7) | exists (10, 20, 7) | exists (20, 10, 7) | exists (30, 20, 9)];
      (split; [set_solver | done]).
  - unfold symmetric. apply Forall_forall. change (translate fileNodes <$> backEdges) with [mkTmpEdge 2 1 9; mkTmpEdge 1 0 7; mkTmpEdge 0 1 7; mkTmpEdge 1 2 9].
    repeat (apply Forall_cons; split); try apply Forall_nil_2;
      [exists (mkTmpEdge 1 2 9) | exists (mkTmpEdge 0 1 7) | exists (mkTmpEdge 1 0 7) | exists (mkTmpEdge 2 1 9)]; (split; [set_solver | done]).
Qed.

Lemma export_import_witness : (exists text, exportToFmiFile sampleNodes (edges sampleGraph) = Ok text /\
    importFmiFile map_to_list (lines text) = Ok (sampleNodes, sampleGraph)) /\
  returns (importFmiFile map_to_list (fileOf fileNodes backEdges "#" "")) (fun '(node, g) => canonical node g).
Proof.
  destruct (export_import (D := Z) map_to_list (fun _ => Permutation_refl _)) as (_ & Hback & Hcanonical).
  split; [apply Hback, sample_canonical |]. apply Hcanonical; apply backEdges_ok.
Defined.

Definition fileEdges : list (Z * Z * Z) := [(10, 20, 7); (20, 10, 7); (10, 30, 8); (30, 20, 9)].

Lemma sample_file_ok : file_ok fileNodes fileEdges.
Proof.
  split; [| | | | reflexivity | discriminate].
  - apply NoDup_ListNoDup. repeat constructor; cbn; lia.
  - apply Forall_forall. repeat (apply Forall_cons; split); try apply Forall_nil_2; done.
  - apply Forall_forall. repeat (apply Forall_cons; split); try apply Forall_nil_2; cbn;
      (split; [set_solver |]); (split; [set_solver |]); done.
  - apply Forall_forall. repeat (apply Forall_cons; split); try apply Forall_nil_2; cbn;
      [exists (20, 10, 7) | exists (10, 20, 7) | exists (30, 20, 9) | exists (20, 10, 7)];
      (split; [set_solver | done]).
Qed.

Lemma importFmiFile_graph_witness : exists g, importFmiFile map_to_list (fileOf fileNodes fileEdges "#" "")
    = Ok (mkNode [3; 3; 3] [4; 6; 5], g) /\ graph_ok g 9.
Proof.
  destruct (importFmiFile_graph (D := Z) map_to_list fileNodes fileEdges "#" "" 9) as (g & E & _ & Hg & _).
  - done.
  - apply sample_file_ok.
  - apply Forall_forall. repeat (apply Forall_cons; split); try apply Forall_nil_2; cbn; lia.
  - exists g. split; [exact E | exact Hg].
Defined.

(** Of the file above the edge from 10 to 30 has no reverse, but that from 10 to 20 before it has. *)
Lemma missing_reverse_not_added_witness : exists g,
  importFmiFile (D := Z) map_to_list (fileOf fileNodes fileEdges "#" "") = Ok (mkNode [3; 3; 3] [4; 6; 5], g) /\
  ~ (exists w, edge g 2 0 w) /\ exists w, edge g 1 2 w.
Proof.
  destruct (missing_reverse_not_added (D := Z) map_to_list fileNodes fileEdges "#" "" 9) as (g & E & Hback).
  - done.
  - apply sample_file_ok.
  - apply Forall_forall. repeat (apply Forall_cons; split); try apply Forall_nil_2; cbn; lia.
  - exists g. split; [exact E |]. split.
    + rewrite (Hback (mkTmpEdge 0 2 8) [mkTmpEdge 0 1 7] []); [| reflexivity | reflexivity | by intros e' ->%list_elem_of_singleton].
      intros H. by specialize (H (mkTmpEdge 0 1 7) ltac:(by left)).
    + apply (Hback (mkTmpEdge 2 1 9) [] []); [reflexivity | reflexivity | by intros e' He'%elem_of_nil | by intros e' He'%elem_of_nil].
Defined.
