(* ===== verification/DynamicGrid.v ===== *)
(** * hublablecreation/Nodes.java and DynamicGrid.java: the graph while labels are computed

    Levels of the nodes, and for every node the ids of its current edges and of all the edges it
    ever had.  Removing a node deletes it from the lists of its neighbours, by swapping with the
    last id. *)

From S2P Require Import Prelude Doubles Edges Grid.

(** ** Nodes.java *)

Record Nodes (D : Type) := mkNodes { nLatitude : list D; nLongitude : list D; nLevels : list Z }.
Arguments mkNodes {D}.
Arguments nLatitude {D}.
Arguments nLongitude {D}.
Arguments nLevels {D}.

Definition getNodeLvl {D} (s : Nodes D) (nodeId : Z) : res Z := aget (nLevels s) nodeId.

Definition setNodeLevel {D} (s : Nodes D) (node lvl : Z) : res (Nodes D) :=
  l ← aset (nLevels s) node lvl; Ok (mkNodes (nLatitude s) (nLongitude s) l).

Definition initializeLvls {D} (s : Nodes D) (nodeNum : Z) : res (Nodes D) :=
  l ← newArray 0 nodeNum; Ok (mkNodes (nLatitude s) (nLongitude s) l).

Definition getNodeCount {D} (s : Nodes D) : Z := alen (nLatitude s).

(** ** DynamicGrid.java *)

(** An [int[][]]: a row is null once its node was removed. *)
Notation table := (list (option (list Z))).

Record t := mk {
  currentEdgeIds : table;
  currentEdgeCount : list Z;
  allEdgeIds : table;
  allEdgeCount : list Z;
}.

Definition row (a : table) (i : Z) : res (list Z) :=
  x ← aget a i;
  match x with Some l => Ok l | None => Err NullPointer end.

Definition cell (a : table) (i j : Z) : res Z := l ← row a i; aget l j.

Definition setCell (a : table) (i j x : Z) : res table :=
  l ← row a i; l ← aset l j x; aset a i (Some l).

Definition incr (a : list Z) (i d : Z) : res (list Z) := x ← aget a i; aset a i (iadd x d).

Definition initializeEdges (edges : table) (edgeCount : list Z) : res t :=
  copies ← forEach edges (fun r acc =>
    match r with Some l => Ok (acc ++ [Some l]) | None => Err NullPointer end) [];
  Ok (mk edges edgeCount copies edgeCount).

Definition getCurrentEdges (s : t) (nodeId : Z) : res (option (list Z)) := aget (currentEdgeIds s) nodeId.
Definition getCurrentEdgeCount (s : t) (nodeId : Z) : res Z := aget (currentEdgeCount s) nodeId.
Definition getAllEdges (s : t) (nodeId : Z) : res (option (list Z)) := aget (allEdgeIds s) nodeId.
Definition getAllEdgeCount (s : t) (nodeId : Z) : res Z := aget (allEdgeCount s) nodeId.

(** [growCurrent] and [growAll], on the table each is about. *)
Definition growRow (a : table) (nodeId : Z) : res table :=
  l ← row a nodeId;
  l' ← copyOf 0 l (wrap32 (alen l * 2));
  aset a nodeId (Some l').

(** The part of [addEdge] that concerns one of the two tables: grow it when it is full... *)
Definition ensureRoom (a : table) (count : list Z) (nodeId : Z) : res table :=
  l ← row a nodeId;
  n ← aget count nodeId;
  if alen l =? n then growRow a nodeId else Ok a.

(** ... and append the id. *)
Definition append (a : table) (count : list Z) (nodeId edgeId : Z) : res (table * list Z) :=
  n ← aget count nodeId;
  a ← setCell a nodeId n edgeId;
  count ← incr count nodeId 1;
  Ok (a, count).

Definition addEdge (s : t) (nodeId edgeId : Z) : res t :=
  cur ← ensureRoom (currentEdgeIds s) (currentEdgeCount s) nodeId;
  all ← ensureRoom (allEdgeIds s) (allEdgeCount s) nodeId;
  '(cur, curCount) ← append cur (currentEdgeCount s) nodeId edgeId;
  '(all, allCount) ← append all (allEdgeCount s) nodeId edgeId;
  Ok (mk cur curCount all allCount).

(** The search loop of [removeBackwardsEdge]; [-1] when nothing is found. *)
Fixpoint findEdge (fuel : nat) (e : Edges.t) (s : t) (startId destId i : Z) : res Z :=
  match fuel with
  | O => Err OutOfFuel
  | S fuel' =>
      n ← aget (currentEdgeCount s) destId;
      if i <? n then
        x ← cell (currentEdgeIds s) destId i;
        d ← Edges.getDest e x;
        if d =? startId then Ok i else findEdge fuel' e s startId destId (i + 1)
      else Ok (-1)
  end.

Definition setCurrent (s : t) (ids : table) (count : list Z) : t :=
  mk ids count (allEdgeIds s) (allEdgeCount s).

Definition removeBackwardsEdge (e : Edges.t) (s : t) (startId destId : Z) : res t :=
  n ← aget (currentEdgeCount s) destId;
  position ← findEdge (S (Z.to_nat n)) e s startId destId 0;
  last ← cell (currentEdgeIds s) destId (n - 1);
  ids ← setCell (currentEdgeIds s) destId position last;
  count ← incr (currentEdgeCount s) destId (-1);
  Ok (setCurrent s ids count).

Fixpoint removeLoop (fuel : nat) (e : Edges.t) (nodeId i : Z) (s : t) : res t :=
  match fuel with
  | O => Err OutOfFuel
  | S fuel' =>
      n ← aget (currentEdgeCount s) nodeId;
      if i <? n then
        x ← cell (currentEdgeIds s) nodeId i;
        d ← Edges.getDest e x;
        s ← removeBackwardsEdge e s nodeId d;
        removeLoop fuel' e nodeId (i + 1) s
      else Ok s
  end.

Definition removeNode (e : Edges.t) (s : t) (nodeId : Z) : res t :=
  n ← aget (currentEdgeCount s) nodeId;
  s ← removeLoop (S (Z.to_nat n)) e nodeId 0 s;
  count ← aset (currentEdgeCount s) nodeId 0;
  ids ← aset (currentEdgeIds s) nodeId None;
  Ok (setCurrent s ids count).

(** ** importFmiFile

    The same reading as in [Grid]; the edges then go to the edge store, and their ids, by start
    node, into rows of four. *)
Definition sortEdge (startNode : list Z) (i : Z) (st : table * list Z) : res (table * list Z) :=
  let '(sortedEdges, edgeCounts) := st in
  u ← aget startNode i;
  k ← aget edgeCounts u;
  sortedEdges ← setCell sortedEdges u k i;
  edgeCounts ← incr edgeCounts u 1;
  Ok (sortedEdges, edgeCounts).

Definition importFmiFile {D} `{!JDouble D}
    (entrySet : gmap Z (list TmpEdge) -> list (Z * list TmpEdge)) (e : Edges.t) (file : list string)
    : res (Nodes D * Edges.t * t) :=
  f ← readFmi entrySet file;
  let startNode := DijkstraGrid.startNode (fEdge f) in
  nodes ← initializeLvls (mkNodes (fLat f) (fLong f) []) (alen (fLat f));
  let e := Edges.mk startNode (DijkstraGrid.destNode (fEdge f)) (DijkstraGrid.dist (fEdge f))
    (numOfOriginalEdges e) (shortcutEdgeStart e) (shortcutEdgeDest e) (shortcutEdgeDist e)
    (shortcutEdgeParts e) (nextShortcutId e) (shortcutEdgeSizeIncrease e) in
  e ← initializeForShortcutEdges e (alen startNode);
  let sortedEdges := replicate (Z.to_nat (alen (fLat f))) (Some (replicate 4 0)) in
  edgeCounts ← newArray 0 (alen (fLat f));
  '(sortedEdges, edgeCounts) ← forRange 0 (alen startNode) (sortEdge startNode)
    (sortedEdges, fill edgeCounts 0);
  s ← initializeEdges sortedEdges edgeCounts;
  Ok (nodes, e, s).

(** ** The lists the tables hold *)

Definition slice (a : table) (count : list Z) (u : Z) : list Z :=
  take (Z.to_nat count.[u]) (default [] a.[u]).

Definition row_ok (a : table) (count : list Z) (u : Z) : Prop :=
  (a.[u] = None /\ count.[u] = 0) \/
  exists l, a.[u] = Some l /\ 0 <= count.[u] <= alen l /\ alen l <= MAX_VALUE.

Record table_ok (a : table) (count : list Z) (n : Z) : Prop := {
  tab_len : alen a = n;
  tab_count : alen count = n;
  tab_rows : forall u, 0 <= u < n -> row_ok a count u;
}.

Lemma row_some a count n u l : table_ok a count n -> 0 <= u < n -> a.[u] = Some l -> row a u = Ok l.
Proof. intros Ht Hu E. unfold row. rewrite aget_ok by (rewrite (tab_len _ _ _ Ht); lia). by rewrite bind_ok, E. Qed.

Lemma alen_slice a count n u : table_ok a count n -> 0 <= u < n -> alen (slice a count u) = count.[u].
Proof.
  intros Ht Hu. unfold slice.
  destruct (tab_rows _ _ _ Ht u Hu) as [[E ->] | (l & -> & Hl & _)]; [by rewrite E |].
  cbn. by apply alen_take.
Qed.

Lemma slice_at a count n u i : table_ok a count n -> 0 <= u < n -> 0 <= i < count.[u] ->
  cell a u i = Ok (slice a count u).[i].
Proof.
  intros Ht Hu Hi. destruct (tab_rows _ _ _ Ht u Hu) as [[E E'] | (l & E & Hl & _)]; [lia |].
  unfold cell. rewrite (row_some a count n u l) by done. rewrite bind_ok, aget_ok by lia.
  unfold slice. rewrite E. cbn. by rewrite at_take.
Qed.

(** Writing the counter and one row changes the list of that node only. *)
Lemma update_ok a count n u l k : table_ok a count n -> 0 <= u < n -> 0 <= k <= alen l -> alen l <= MAX_VALUE ->
  table_ok (<[Z.to_nat u := Some l]> a) (<[Z.to_nat u := k]> count) n /\
  (forall v, 0 <= v < n -> slice (<[Z.to_nat u := Some l]> a) (<[Z.to_nat u := k]> count) v =
     if decide (v = u) then take (Z.to_nat k) l else slice a count v).
Proof.
  intros Ht Hu Hk Hl. pose proof (tab_len _ _ _ Ht). pose proof (tab_count _ _ _ Ht). split.
  - split; autorewrite with alen; [done | done |]. intros v Hv. unfold row_ok.
    rewrite !at_insert by lia. repeat case_decide; try lia.
    + right. exists l. split_and!; done || lia.
    + by apply Ht.
  - intros v Hv. unfold slice. rewrite !at_insert by lia. repeat case_decide; try lia; done.
Qed.

Lemma slice_update_row a count n u l l' : table_ok a count n -> 0 <= u < n -> a.[u] = Some l ->
  alen l <= alen l' <= MAX_VALUE -> take (Z.to_nat count.[u]) l' = take (Z.to_nat count.[u]) l ->
  table_ok (<[Z.to_nat u := Some l']> a) count n /\
  forall v, 0 <= v < n -> slice (<[Z.to_nat u := Some l']> a) count v = slice a count v.
Proof.
  intros Ht Hu E Hl Htake. pose proof (tab_len _ _ _ Ht). pose proof (tab_count _ _ _ Ht).
  destruct (tab_rows _ _ _ Ht u Hu) as [[E' _] | (l0 & E' & Hc & _)]; [congruence |].
  rewrite E in E'. injection E' as <-. split.
  - split; autorewrite with alen; [done | done |]. intros v Hv. unfold row_ok.
    rewrite !at_insert by lia. case_decide.
    + subst. right. exists l'. split_and!; done || lia.
    + by apply Ht.
  - intros v Hv. unfold slice. rewrite !at_insert by lia. case_decide; [| done].
    subst v. by rewrite E.
Qed.

(** ** addEdge *)

(** Node [u] still has a row, with room to double. *)
Definition growable (a : table) (u : Z) : Prop :=
  exists l, a.[u] = Some l /\ 0 < alen l /\ alen l * 2 <= MAX_VALUE.

(** The rows of [a] that have room for up to [B] ids still do in [a']. *)
Definition roomy (B : Z) (a : table) (u : Z) : Prop := exists l, a.[u] = Some l /\ 0 < alen l <= B.
Definition keeps_rows (B : Z) (a a' : table) : Prop := forall v, 0 <= v -> roomy B a v -> roomy B a' v.

Lemma roomy_growable B a u : 2 * B <= MAX_VALUE -> roomy B a u -> growable a u.
Proof. intros HB (l & E & Hl). exists l. split; [done | lia]. Qed.

Lemma keeps_rows_trans B a1 a2 a3 : keeps_rows B a1 a2 -> keeps_rows B a2 a3 -> keeps_rows B a1 a3.
Proof. intros H1 H2 v Hv Hr. by apply H2, H1. Qed.

Lemma keeps_rows_update B a u l : 0 <= u < alen a -> 0 < alen l -> (forall l0, a.[u] = Some l0 -> alen l0 <= B -> alen l <= B) ->
  keeps_rows B a (<[Z.to_nat u := Some l]> a).
Proof.
  intros Hu Hpos Hl v Hv (l0 & E & Hl0). destruct (decide (u = v)) as [<- | Hne].
  - exists l. rewrite at_insert, decide_True by lia. split; [done |]. split; [done |]. apply (Hl l0 E). lia.
  - exists l0. by rewrite at_insert, decide_False by lia.
Qed.

Lemma ensureRoom_ok a count n u : table_ok a count n -> 0 <= u < n -> growable a u ->
  returns (ensureRoom a count u) (fun a' => table_ok a' count n /\
    (forall v, 0 <= v < n -> slice a' count v = slice a count v) /\
    (forall B, 2 * count.[u] <= B -> keeps_rows B a a') /\
    exists l, a'.[u] = Some l /\ count.[u] < alen l).
Proof.
  intros Ht Hu (l & E & Hpos & Hl). pose proof (tab_len _ _ _ Ht). pose proof (tab_count _ _ _ Ht).
  destruct (tab_rows _ _ _ Ht u Hu) as [[E' _] | (l0 & E' & Hc & _)]; [congruence |].
  rewrite E in E'. injection E' as <-.
  unfold ensureRoom. rewrite (row_some a count n u l), bind_ok, aget_ok, bind_ok by done || lia.
  destruct (Z.eqb_spec (alen l) count.[u]) as [Hfull | Hfull].
  - unfold growRow. rewrite (row_some a count n u l), bind_ok by done.
    rewrite wrap32_id by (unfold is_int, MIN_VALUE; lia).
    unfold copyOf. destruct (Z.ltb_spec (alen l * 2) 0); [lia |]. rewrite bind_ok, aset_ok by lia. ret.
    set (l' := take _ l ++ _).
    assert (alen l' = alen l * 2) as Hl'.
    { unfold l'. rewrite alen_app. rewrite (take_ge l) by (unfold alen; lia).
      rewrite alen_replicate by lia. lia. }
    destruct (slice_update_row a count n u l l' Ht Hu E) as [Ht' Hs]; [lia | |].
    { unfold l'. rewrite take_app_le; rewrite (take_ge l (Z.to_nat (alen l * 2))) by (unfold alen; lia);
        [done | unfold alen in *; lia]. }
    split_and!; [done | done | |].
    + intros B HB. apply keeps_rows_update; [lia | lia |]. intros l0 _ _. lia.
    + exists l'. rewrite at_insert, decide_True by lia. split; [done | lia].
  - ret. split_and!; [done | done | by intros B _ v _ |]. exists l. split; [done | lia].
Qed.

Lemma append_ok a count n u l x : table_ok a count n -> 0 <= u < n -> a.[u] = Some l -> count.[u] < alen l ->
  returns (append a count u x) (fun st => table_ok st.1 st.2 n /\ (forall B, keeps_rows B a st.1) /\
    forall v, 0 <= v < n -> slice st.1 st.2 v =
      if decide (v = u) then slice a count u ++ [x] else slice a count v).
Proof.
  intros Ht Hu E Hlt. pose proof (tab_len _ _ _ Ht). pose proof (tab_count _ _ _ Ht).
  destruct (tab_rows _ _ _ Ht u Hu) as [[E' _] | (l0 & E' & Hc & Hmax)]; [congruence |].
  rewrite E in E'. injection E' as <-.
  unfold append. rewrite aget_ok, bind_ok by lia. unfold setCell.
  rewrite (row_some a count n u l), bind_ok by done. rewrite aset_ok, bind_ok by lia.
  rewrite aset_ok, bind_ok by lia. unfold incr. rewrite aget_ok, bind_ok by lia.
  rewrite aset_ok, bind_ok by lia. ret. cbn [fst snd].
  rewrite iadd_id by (unfold is_int, MIN_VALUE; lia).
  destruct (update_ok a count n u (<[Z.to_nat count.[u] := x]> l) (count.[u] + 1) Ht Hu) as [Ht' Hs];
    [autorewrite with alen; lia | by autorewrite with alen |].
  split; [done |]. split.
  { intros B. apply keeps_rows_update; autorewrite with alen; [lia | lia |]. intros l0 E0 ?. by simplify_eq. }
  intros v Hv. rewrite Hs by done. case_decide; [| done]. subst v.
  unfold slice. rewrite E. cbn. replace (Z.to_nat (count.[u] + 1)) with (S (Z.to_nat count.[u])) by lia.
  rewrite (take_S_r _ _ x) by (rewrite list_lookup_insert_eq; [done | unfold alen in *; lia]).
  by rewrite take_insert_ge by lia.
Qed.

(** What a grid holds: the current edges and all edges of each node. *)
Definition current (s : t) (u : Z) : list Z := slice (currentEdgeIds s) (currentEdgeCount s) u.
Definition everEdge (s : t) (u : Z) : list Z := slice (allEdgeIds s) (allEdgeCount s) u.

Definition grid_ok (s : t) (n : Z) : Prop :=
  table_ok (currentEdgeIds s) (currentEdgeCount s) n /\ table_ok (allEdgeIds s) (allEdgeCount s) n.

(** Reading the row that [getCurrentEdges] answers. *)
Lemma edge_at s n v k : grid_ok s n -> 0 <= v < n -> 0 <= k < alen (current s v) ->
  (ids ← deref (currentEdgeIds s).[v]; aget ids k) = Ok (current s v).[k].
Proof.
  intros [Hc _] Hv Hk. pose proof (alen_slice _ _ _ v Hc Hv) as Hcount. fold (current s v) in Hcount.
  pose proof (slice_at _ _ _ v k Hc Hv ltac:(lia)) as E. fold (current s v) in E.
  unfold cell, row in E. rewrite aget_ok, bind_ok in E by (rewrite (tab_len _ _ _ Hc); lia).
  by destruct ((currentEdgeIds s).[v]).
Qed.

Lemma edge_row s n v : grid_ok s n -> 0 <= v < n ->
  getCurrentEdgeCount s v = Ok (alen (current s v)) /\ getCurrentEdges s v = Ok (currentEdgeIds s).[v].
Proof.
  intros [Hc _] Hv. pose proof (alen_slice _ _ _ v Hc Hv) as Hcount. fold (current s v) in Hcount.
  unfold getCurrentEdgeCount, getCurrentEdges. rewrite Hcount.
  by rewrite !aget_ok by (rewrite ?(tab_count _ _ _ Hc), ?(tab_len _ _ _ Hc); lia).
Qed.

Lemma addEdge_ok s n u x : grid_ok s n -> 0 <= u < n ->
  growable (currentEdgeIds s) u -> growable (allEdgeIds s) u ->
  returns (addEdge s u x) (fun s' => grid_ok s' n /\
    (forall v, 0 <= v < n -> current s' v = if decide (v = u) then current s u ++ [x] else current s v) /\
    (forall v, 0 <= v < n -> everEdge s' v = if decide (v = u) then everEdge s u ++ [x] else everEdge s v) /\
    (forall B, 2 * alen (current s u) <= B -> keeps_rows B (currentEdgeIds s) (currentEdgeIds s')) /\
    (forall B, 2 * alen (everEdge s u) <= B -> keeps_rows B (allEdgeIds s) (allEdgeIds s'))).
Proof.
  intros [Hc Ha] Hu Gc Ga. unfold addEdge.
  eapply returns_bind; [by apply (ensureRoom_ok _ _ n) |]. cbv beta. intros cur (Hc1 & Sc1 & Kc1 & lc & Ec & Lc).
  eapply returns_bind; [by apply (ensureRoom_ok _ _ n) |]. cbv beta. intros all (Ha1 & Sa1 & Ka1 & la & Ea & La).
  eapply returns_bind; [by apply (append_ok _ _ n u lc) |]. cbv beta. intros [cur' cc'] (Hc2 & Kc2 & Sc2).
  eapply returns_bind; [by apply (append_ok _ _ n u la) |]. cbv beta. intros [all' ca'] (Ha2 & Ka2 & Sa2).
  ret. cbn [fst snd] in *. split; [by split |].
  pose proof (alen_slice _ _ _ u Hc Hu) as Lcur. pose proof (alen_slice _ _ _ u Ha Hu) as Lall.
  unfold current, everEdge; cbn. rewrite Lcur, Lall. split_and!.
  - intros v Hv. rewrite Sc2 by done. by rewrite !Sc1 by done.
  - intros v Hv. rewrite Sa2 by done. by rewrite !Sa1 by done.
  - intros B HB. eapply keeps_rows_trans; [by apply Kc1 | apply Kc2].
  - intros B HB. eapply keeps_rows_trans; [by apply Ka1 | apply Ka2].
Qed.

(** [addEdge] appends the id to the current edges and to all edges of its node and to no other,
    doubling a full row first; nothing it stored before is lost. *)
Theorem addEdge_appends s n u x : grid_ok s n -> 0 <= u < n ->
  growable (currentEdgeIds s) u -> growable (allEdgeIds s) u ->
  returns (addEdge s u x) (fun s' => grid_ok s' n /\
    (forall v, 0 <= v < n -> current s' v = if decide (v = u) then current s u ++ [x] else current s v) /\
    (forall v, 0 <= v < n -> everEdge s' v = if decide (v = u) then everEdge s u ++ [x] else everEdge s v)).
Proof.
  intros Hs Hu Gc Ga. eapply returns_mono; [by apply (addEdge_ok s n u x) |]. cbv beta.
  intros s' (H1 & H2 & H3 & _). done.
Qed.

(** ** removeNode *)

(** Overwriting a cell with the last one and forgetting the last one deletes the cell, up to
    the order. *)
Lemma swap_with_last (l : list Z) p : 0 <= p < alen l ->
  take (Z.to_nat (alen l - 1)) (<[Z.to_nat p := l.[alen l - 1]]> l) ≡ₚ delete (Z.to_nat p) l.
Proof.
  intros Hp. destruct (exists_last (l := l)) as (r & z & ->).
  { intros ->. unfold alen in Hp. cbn in Hp. lia. }
  autorewrite with alen in *.
  replace (alen r + (1 + 0) - 1) with (alen r) by lia.
  assert ((r ++ [z]).[alen r] = z) as ->.
  { rewrite at_app_r by lia. by rewrite Z.sub_diag. }
  unfold alen in *. rewrite Nat2Z.id.
  destruct (decide (p = Z.of_nat (length r))) as [-> | Hne].
  - rewrite Nat2Z.id, delete_middle, app_nil_r. rewrite insert_app_r_alt, Nat.sub_diag by lia.
    cbn. rewrite take_app_length. done.
  - rewrite insert_app_l by lia. rewrite take_app_le by (rewrite length_insert; lia).
    rewrite take_ge by (rewrite length_insert; lia).
    rewrite (delete_take_drop (r ++ [z])). rewrite take_app_le by lia. rewrite drop_app_le by lia.
    rewrite insert_take_drop by lia.
    rewrite (Permutation_app_comm (drop _ r) [z]). done.
Qed.

Lemma swap_in_row (l : list Z) c p : 0 <= p < c -> c <= alen l ->
  take (Z.to_nat (c + -1)) (<[Z.to_nat p := (take (Z.to_nat c) l).[c - 1]]> l)
    ≡ₚ delete (Z.to_nat p) (take (Z.to_nat c) l).
Proof.
  intros Hp Hc. assert (alen (take (Z.to_nat c) l) = c) as Hlen by (apply alen_take; lia).
  rewrite <-(swap_with_last _ p) by lia. rewrite Hlen.
  rewrite !take_insert, take_take, Nat.min_l by lia. done.
Qed.

Section removal.
Context (e : Edges.t) (n : Z).

(** The node an edge leads to. *)
Definition dst (x : Z) : Z := match Edges.getDest e x with Ok d => d | Err _ => -1 end.

(** Its distance. *)
Definition weight (x : Z) : Z := match Edges.getDist e x with Ok d => d | Err _ => 0 end.

Definition detached (v : Z) (l : list Z) : list Z := List.filter (fun x => negb (dst x =? v)) l.

(** A simple symmetric graph: no loops, no double edges, every edge has one back. *)
Record simple (s : t) : Prop := {
  sim_grid : grid_ok s n;
  sim_dest : forall u x, 0 <= u < n -> x ∈ current s u ->
    Edges.getDest e x = Ok (dst x) /\ 0 <= dst x < n /\ dst x <> u;
  sim_nodup : forall u, 0 <= u < n -> NoDup (dst <$> current s u);
  sim_back : forall u x, 0 <= u < n -> x ∈ current s u -> u ∈ dst <$> current s (dst x);
}.

Lemma detached_none v l : v ∉ dst <$> l -> detached v l = l.
Proof.
  induction l as [| x l IH]; [done |]. cbn [fmap list_fmap]. rewrite not_elem_of_cons.
  intros [Hx Hl]. unfold detached. cbn [List.filter].
  fold (detached v l). destruct (Z.eqb_spec (dst x) v); [congruence |]. cbn. by rewrite IH.
Qed.

Lemma elem_of_detached v l x : x ∈ detached v l <-> x ∈ l /\ dst x <> v.
Proof.
  unfold detached. rewrite !list_elem_of_In, filter_In, negb_true_iff, Z.eqb_neq. done.
Qed.

Lemma delete_detached v l p : NoDup (dst <$> l) -> 0 <= p < alen l -> dst l.[p] = v ->
  delete (Z.to_nat p) l = detached v l.
Proof.
  intros Hnd Hp Hv. pose proof (at_lookup l p Hp) as E.
  pose proof (take_drop_middle l _ _ E) as Hl. rewrite delete_take_drop.
  transitivity (detached v (take (Z.to_nat p) l ++ l.[p] :: drop (S (Z.to_nat p)) l)); [| by rewrite Hl].
  unfold detached. rewrite List.filter_app. cbn. rewrite Hv, Z.eqb_refl. cbn.
  rewrite <-Hl in Hnd. rewrite fmap_app in Hnd. cbn in Hnd. apply NoDup_app in Hnd as (_ & Hd1 & Hd2).
  apply NoDup_cons in Hd2 as [Hd2 _]. rewrite Hv in Hd1, Hd2.
  fold (detached v (take (Z.to_nat p) l)). fold (detached v (drop (S (Z.to_nat p)) l)).
  rewrite !detached_none; [done | done |]. intros Hin. apply (Hd1 v Hin). set_solver.
Qed.

Lemma findEdge_ok s d v fuel i : table_ok (currentEdgeIds s) (currentEdgeCount s) n -> 0 <= d < n ->
  (forall x, x ∈ current s d -> Edges.getDest e x = Ok (dst x)) ->
  0 <= i -> (currentEdgeCount s).[d] - i < Z.of_nat fuel -> v ∈ dst <$> drop (Z.to_nat i) (current s d) ->
  returns (findEdge fuel e s v d i) (fun p => 0 <= p < alen (current s d) /\ dst (current s d).[p] = v).
Proof.
  intros Ht Hd Hdst. pose proof (tab_count _ _ _ Ht) as Hcount.
  pose proof (alen_slice _ _ _ d Ht Hd) as Hlen. fold (current s d) in Hlen.
  revert i. induction fuel as [| fuel IH]; intros i Hi Hfuel Hin.
  { exfalso. apply list_elem_of_fmap in Hin as (x & _ & Hx).
    rewrite drop_ge in Hx by (unfold alen in Hlen; lia). by apply elem_of_nil in Hx. }
  cbn [findEdge]. rewrite aget_ok, bind_ok by lia.
  destruct (Z.ltb_spec i (currentEdgeCount s).[d]) as [Hlt | Hge].
  - rewrite (slice_at _ _ n d i) by (done || lia). fold (current s d). rewrite bind_ok.
    rewrite (Hdst (current s d).[i]), bind_ok by (apply at_In; lia).
    destruct (Z.eqb_spec (dst (current s d).[i]) v) as [Heq | Hne].
    + ret. split; [lia | done].
    + apply IH; [lia | lia |]. rewrite (drop_S _ (current s d).[i]) in Hin by (apply at_lookup; lia).
      cbn in Hin. apply elem_of_cons in Hin as [-> | Hin]; [done |].
      by replace (Z.to_nat (i + 1)) with (S (Z.to_nat i)) by lia.
  - exfalso. apply list_elem_of_fmap in Hin as (x & _ & Hx).
    rewrite drop_ge in Hx by (unfold alen in Hlen; lia). by apply elem_of_nil in Hx.
Qed.

Lemma removeBackwardsEdge_ok s d v : grid_ok s n -> 0 <= d < n ->
  (forall x, x ∈ current s d -> Edges.getDest e x = Ok (dst x)) ->
  NoDup (dst <$> current s d) -> v ∈ dst <$> current s d ->
  returns (removeBackwardsEdge e s v d) (fun s' => grid_ok s' n /\
    allEdgeIds s' = allEdgeIds s /\ allEdgeCount s' = allEdgeCount s /\
    (forall u, 0 <= u < n -> u <> d -> current s' u = current s u) /\
    current s' d ≡ₚ detached v (current s d) /\
    forall B, keeps_rows B (currentEdgeIds s) (currentEdgeIds s')).
Proof.
  intros [Ht Ha] Hd Hdst Hnd Hin. pose proof (tab_count _ _ _ Ht) as Hcount.
  pose proof (tab_len _ _ _ Ht) as Hrows.
  pose proof (alen_slice _ _ _ d Ht Hd) as Hlen. fold (current s d) in Hlen.
  unfold removeBackwardsEdge. rewrite aget_ok, bind_ok by lia.
  eapply returns_bind.
  { apply findEdge_ok; [done | done | done | done | | done].
    pose proof (alen_nonneg (current s d)). lia. }
  cbv beta. intros p (Hp & Hv). rewrite (slice_at _ _ n d) by (done || lia). rewrite bind_ok.
  fold (current s d).
  destruct (tab_rows _ _ _ Ht d Hd) as [[E Hc] | (l & E & Hc & Hmax)]; [lia |].
  unfold setCell. rewrite (row_some _ _ n d l Ht Hd E), bind_ok.
  rewrite aset_ok, bind_ok by lia. rewrite aset_ok, bind_ok by lia.
  unfold incr. rewrite aget_ok, bind_ok by lia. rewrite aset_ok, bind_ok by lia.
  rewrite iadd_id by (unfold is_int, MIN_VALUE; lia). ret.
  destruct (update_ok _ _ n d (<[Z.to_nat p := (current s d).[(currentEdgeCount s).[d] - 1]]> l)
    ((currentEdgeCount s).[d] + -1) Ht Hd) as [Ht' Hs]; [autorewrite with alen; lia | by autorewrite with alen |].
  unfold grid_ok, current in *. cbn in *. split_and!; try done.
  - intros u Hu Hne. rewrite Hs by done. by rewrite decide_False.
  - rewrite Hs by done. rewrite decide_True by done.
    rewrite <-(delete_detached v _ p Hnd Hp Hv).
    unfold slice in *. rewrite E in *. cbn [default from_option id] in *. apply swap_in_row; lia.
  - intros B. apply keeps_rows_update; autorewrite with alen; [lia | lia |]. intros l0 E0 ?. by simplify_eq.
Qed.

#[local] Instance detached_perm v : Proper ((≡ₚ) ==> (≡ₚ)) (detached v).
Proof.
  intros l l' Hl. induction Hl as [| x l l' _ IH | x y l | l1 l2 l3 _ IH1 _ IH2]; cbn; [done | | |].
  - destruct (negb _); [by constructor | done].
  - destruct (negb _), (negb _); done || apply Permutation_swap.
  - by rewrite IH1.
Qed.

Section node.
Context (s0 : t) (v : Z) (Hsim : simple s0) (Hv : 0 <= v < n).

(** After [i] of the edges of [v]: the neighbours they lead to have lost their edge to [v]. *)
Definition removing (i : Z) (s : t) : Prop :=
  grid_ok s n /\ allEdgeIds s = allEdgeIds s0 /\ allEdgeCount s = allEdgeCount s0 /\
  current s v = current s0 v /\ (forall B, keeps_rows B (currentEdgeIds s0) (currentEdgeIds s)) /\
  forall u, 0 <= u < n -> u <> v -> current s u ≡ₚ
    if decide (u ∈ dst <$> take (Z.to_nat i) (current s0 v)) then detached v (current s0 u)
    else current s0 u.

Lemma current_count s u : grid_ok s n -> 0 <= u < n -> alen (current s u) = (currentEdgeCount s).[u].
Proof. intros [Ht _] Hu. by apply (alen_slice _ _ n). Qed.

Lemma remove_step i s : removing i s -> 0 <= i < alen (current s0 v) ->
  returns (x ← cell (currentEdgeIds s) v i; d ← Edges.getDest e x; removeBackwardsEdge e s v d)
    (removing (i + 1)).
Proof.
  intros (Hg & Hall & Hallc & Hcur & Hrows & Hothers) Hi.
  pose proof (current_count s v Hg Hv) as Hc. rewrite Hcur in Hc.
  rewrite (slice_at _ _ n v i) by (try apply Hg; lia). fold (current s v). rewrite Hcur, bind_ok.
  set (x := (current s0 v).[i]).
  assert (x ∈ current s0 v) as Hx by (apply at_In; lia).
  destruct (sim_dest _ Hsim v x Hv Hx) as (Ex & Hd & Hdv). rewrite Ex, bind_ok.
  assert (dst x ∉ dst <$> take (Z.to_nat i) (current s0 v)) as Hnew.
  { pose proof (sim_nodup _ Hsim v Hv) as Hnd.
    rewrite <-(take_drop_middle (current s0 v) (Z.to_nat i) x) in Hnd by (by apply at_lookup).
    rewrite fmap_app in Hnd. apply NoDup_app in Hnd as (_ & Hnd & _). intros Hin.
    apply (Hnd _ Hin). set_solver. }
  pose proof (Hothers (dst x) Hd Hdv) as Hpd. rewrite decide_False in Hpd by done.
  eapply returns_mono.
  - apply removeBackwardsEdge_ok; [done | done | | |].
    + intros y. rewrite Hpd. intros Hy. by apply (sim_dest _ Hsim (dst x) y Hd Hy).
    + rewrite Hpd. by apply (sim_nodup _ Hsim).
    + rewrite Hpd. by apply (sim_back _ Hsim v x).
  - cbv beta. intros s' (Hg' & Hall' & Hallc' & Hsame & Hchanged & Hrows').
    unfold removing. assert (take (Z.to_nat (i + 1)) (current s0 v) = take (Z.to_nat i) (current s0 v) ++ [x]) as ->.
    { replace (Z.to_nat (i + 1)) with (S (Z.to_nat i)) by lia. apply take_S_r. by apply at_lookup. }
    split_and!; [done | congruence | congruence | rewrite Hsame; done | by intros B; eapply keeps_rows_trans |].
    intros u Hu Huv. rewrite fmap_app. cbn.
    destruct (decide (u = dst x)) as [-> | Hne].
    + rewrite decide_True by set_solver. by rewrite Hchanged, Hpd.
    + rewrite Hsame by done. rewrite Hothers by done. repeat case_decide; done || set_solver.
Qed.

Lemma removeLoop_ok fuel : forall i s, removing i s -> 0 <= i <= alen (current s0 v) ->
  alen (current s0 v) - i < Z.of_nat fuel ->
  returns (removeLoop fuel e v i s) (removing (alen (current s0 v))).
Proof.
  induction fuel as [| fuel IH]; intros i s Hs Hi Hfuel; [lia |]. cbn [removeLoop].
  pose proof Hs as (Hg & _ & _ & Hcur & _).
  pose proof (current_count s v Hg Hv) as Hc. rewrite Hcur in Hc.
  rewrite aget_ok, bind_ok by (destruct Hg as [Ht _]; rewrite (tab_count _ _ _ Ht); lia).
  rewrite <-Hc. destruct (Z.ltb_spec i (alen (current s0 v))) as [Hlt | Hge].
  - pose proof (remove_step i s Hs ltac:(lia)) as Hstep.
    rewrite <-!bind_assoc_res. rewrite <-bind_assoc_res in Hstep.
    eapply returns_bind; [exact Hstep |]. intros s' Hs'. apply IH; [done | lia | lia].
  - ret. by replace (alen (current s0 v)) with i by lia.
Qed.
End node.

(** Taking one node out of a simple symmetric graph leaves one. *)
Lemma isolated_simple s s' v : simple s -> grid_ok s' n -> current s' v = [] ->
  (forall u, 0 <= u < n -> u <> v -> current s' u ≡ₚ detached v (current s u)) -> simple s'.
Proof.
  intros Hsim Hg' Hv Hdet.
  assert (forall u x, 0 <= u < n -> x ∈ current s' u -> u <> v /\ x ∈ current s u /\ dst x <> v) as Hin.
  { intros u x Hu Hx. destruct (decide (u = v)) as [-> | Huv].
    - rewrite Hv in Hx. by apply elem_of_nil in Hx.
    - rewrite Hdet in Hx by done. apply elem_of_detached in Hx as [? ?]. done. }
  split; [done | | |].
  - intros u x Hu Hx. apply Hin in Hx as (? & Hx & ?); [| done]. by apply (sim_dest _ Hsim).
  - intros u Hu. destruct (decide (u = v)) as [-> | Huv]; [rewrite Hv; apply NoDup_nil_2 |].
    rewrite Hdet by done. unfold detached. pose proof (sim_nodup _ Hsim u Hu) as Hnd.
    clear -Hnd. induction (current s u) as [| x l IH]; [done |]. cbn in *.
    apply NoDup_cons in Hnd as [Hx Hnd]. destruct (negb _); [| by apply IH]. cbn.
    apply NoDup_cons. split; [| by apply IH]. intros (y & Ey & Hy)%list_elem_of_fmap.
    apply Hx. rewrite Ey. apply list_elem_of_fmap_2. by apply elem_of_detached in Hy as [Hy _].
  - intros u x Hu Hx. apply Hin in Hx as (Huv & Hx & Hxv); [| done].
    destruct (sim_dest _ Hsim u x Hu Hx) as (_ & Hd & _).
    pose proof (sim_back _ Hsim u x Hu Hx) as Hb.
    apply list_elem_of_fmap in Hb as (y & Ey & Hy). apply list_elem_of_fmap. exists y. split; [done |].
    rewrite Hdet by done. apply elem_of_detached. split; [done | congruence].
Qed.

Lemma removeNode_ok s v : simple s -> 0 <= v < n ->
  returns (removeNode e s v) (fun s' => simple s' /\
    allEdgeIds s' = allEdgeIds s /\ allEdgeCount s' = allEdgeCount s /\ current s' v = [] /\
    forall u, 0 <= u < n -> u <> v -> current s' u ≡ₚ detached v (current s u) /\
      forall B, roomy B (currentEdgeIds s) u -> roomy B (currentEdgeIds s') u).
Proof.
  intros Hsim Hv. pose proof (sim_grid _ Hsim) as Hg. pose proof (current_count s v Hg Hv) as Hc.
  pose proof (alen_nonneg (current s v)) as Hnn.
  unfold removeNode. rewrite aget_ok, bind_ok by (destruct Hg as [Ht _]; rewrite (tab_count _ _ _ Ht); lia).
  eapply returns_bind.
  { apply (removeLoop_ok s v Hsim Hv _ 0 s); [| lia | lia].
    split; [done |]. split; [done |]. split; [done |]. split; [done |]. split; [by intros B u |]. intros u Hu Huv.
    rewrite decide_False by (change (Z.to_nat 0) with 0%nat; rewrite take_0; apply not_elem_of_nil). done. }
  cbv beta. intros s1 (Hg1 & Hall & Hallc & Hcur & Hrows & Hothers). destruct Hg1 as [Ht1 Ha1].
  rewrite (aset_ok (currentEdgeCount s1)), bind_ok by (rewrite (tab_count _ _ _ Ht1); lia).
  rewrite (aset_ok (currentEdgeIds s1)), bind_ok by (rewrite (tab_len _ _ _ Ht1); lia). ret.
  set (s' := setCurrent s1 _ _).
  assert (forall u, 0 <= u < n -> current s' u = if decide (u = v) then [] else current s1 u) as Hs'.
  { intros u Hu. unfold s', current, slice. cbn.
    rewrite !at_insert by (rewrite ?(tab_count _ _ _ Ht1), ?(tab_len _ _ _ Ht1); lia).
    repeat case_decide; try lia; done. }
  assert (forall u, 0 <= u < n -> u <> v -> current s' u ≡ₚ detached v (current s u)) as Hdet.
  { intros u Hu Huv. rewrite Hs', decide_False by done. rewrite Hothers by done.
    rewrite take_ge by (unfold alen; lia). case_decide as Hin; [done |].
    rewrite detached_none; [done |]. intros Hvu. apply Hin.
    apply list_elem_of_fmap in Hvu as (x & -> & Hx). by apply (sim_back _ Hsim u x). }
  assert (grid_ok s' n) as Hg'.
  { split; [| done]. unfold s'. cbn. split; autorewrite with alen; [apply Ht1 | apply Ht1 |].
    intros u Hu. unfold row_ok. rewrite !at_insert by (rewrite ?(tab_count _ _ _ Ht1), ?(tab_len _ _ _ Ht1); lia).
    repeat case_decide; try lia; [by left | by apply Ht1]. }
  assert (current s' v = []) as Hnone by (by rewrite Hs', decide_True by done).
  split; [by apply (isolated_simple s s' v) |]. split; [done |]. split; [done |]. split; [done |].
  intros u Hu Huv. split; [by apply Hdet |]. intros B Hr. apply (Hrows B u ltac:(lia)) in Hr as (l & E & Hl).
  exists l. split; [| done]. unfold s'. cbn. rewrite at_insert by (rewrite ?(tab_len _ _ _ Ht1); lia). by rewrite decide_False by done.
Qed.

(** C28: Removing a node of a simple symmetric graph never throws; it takes exactly the edges from
    and to the node out of the current edges, keeps the record of all edges, and leaves a simple
    symmetric graph in which the node is isolated. *)
Theorem removeNode_isolates s v : simple s -> 0 <= v < n ->
  returns (removeNode e s v) (fun s' => simple s' /\
    allEdgeIds s' = allEdgeIds s /\ allEdgeCount s' = allEdgeCount s /\ current s' v = [] /\
    forall u, 0 <= u < n -> u <> v -> current s' u ≡ₚ detached v (current s u)).
Proof.
  intros Hsim Hv. eapply returns_mono; [by apply removeNode_ok |]. cbv beta.
  intros s' (H1 & H2 & H3 & H4 & H5). split_and!; try done. intros u Hu Huv. by apply H5.
Qed.
End removal.

(** ** Witnesses: the path 0 - 1 - 2 *)

Definition pathEdges : Edges.t := Edges.mk [0; 1; 1; 2] [1; 0; 2; 1] [5; 5; 7; 7] 4 [] [] [] [] 4 2.
Definition pathGrid : t :=
  mk [Some [0; 0]; Some [1; 2]; Some [3; 0]] [1; 2; 1] [Some [0; 0]; Some [1; 2]; Some [3; 0]] [1; 2; 1].

Lemma three (P : Z -> Prop) : P 0 -> P 1 -> P 2 -> forall u, 0 <= u < 3 -> P u.
Proof. intros H0 H1 H2 u Hu. assert (u = 0 \/ u = 1 \/ u = 2) as [-> | [-> | ->]] by lia; done. Qed.

Lemma path_grid_ok : grid_ok pathGrid 3.
Proof.
  assert (table_ok [Some [0; 0]; Some [1; 2]; Some [3; 0]] [1; 2; 1] 3); [| by split].
  split; [done | done |]. apply three; right; eexists; (split; [reflexivity |]);
    vm_compute; repeat split; discriminate.
Qed.

Lemma path_simple : simple pathEdges 3 pathGrid.
Proof.
  split; [apply path_grid_ok | | |].
  - intros u x Hu. revert u Hu. refine (three _ _ _ _); intros Hx; apply list_elem_of_In in Hx; cbn in Hx;
      repeat (destruct Hx as [<- | Hx]); try done; (split; [reflexivity |]); vm_compute;
      (split; [split; [discriminate | reflexivity] | discriminate]).
  - refine (three _ _ _ _); apply NoDup_ListNoDup; vm_compute; repeat constructor; cbn; lia.
  - intros u x Hu. revert u Hu. refine (three _ _ _ _);
      intros Hx; apply list_elem_of_In in Hx; cbn in Hx;
      repeat (destruct Hx as [<- | Hx]); try done; apply list_elem_of_In; vm_compute; tauto.
Qed.

Lemma addEdge_appends_witness : growable (currentEdgeIds pathGrid) 1 /\
  returns (addEdge pathGrid 1 9) (fun s' => current s' 1 = [1; 2; 9]).
Proof.
  assert (growable (currentEdgeIds pathGrid) 1) as Hg.
  { exists [1; 2]. split; [reflexivity |]. unfold alen, MAX_VALUE. cbn. lia. }
  split; [exact Hg |].
  eapply returns_mono; [apply (addEdge_appends pathGrid 3 1 9 path_grid_ok); [lia | exact Hg | exact Hg] |].
  cbv beta. intros s' (_ & Hc & _). rewrite Hc by lia. reflexivity.
Defined.

Lemma removeNode_isolates_witness : simple pathEdges 3 pathGrid /\
  returns (removeNode pathEdges pathGrid 2) (fun s' => simple pathEdges 3 s' /\ current s' 1 ≡ₚ [1]).
Proof.
  split; [apply path_simple |].
  eapply returns_mono; [apply (removeNode_isolates pathEdges 3 pathGrid 2 path_simple); lia |].
  cbv beta. intros s' (Hs & _ & _ & _ & Hd). split; [exact Hs |]. rewrite Hd by lia. reflexivity.
Defined.
