(* ===== verification/Labels.v ===== *)
(** * hublablecreation/Labels.java: the labels while they are computed

    Per node an array of label nodes, ascending, and the first edge and the distance of each; the
    rows are null until the node was processed. *)

From Stdlib Require Import Sorting.Sorted.
From S2P Require Import Prelude SortedArray OrderedIntSet.

Record t := mk {
  labelNodes : list (option (list Z));
  labelEdges : list (option (list Z));
  labelDist : list (option (list Z));
}.

Definition initialize (nodeCount : Z) : res t :=
  n ← newArray None nodeCount;
  e ← newArray None nodeCount;
  d ← newArray None nodeCount;
  Ok (mk n e d).

Definition getLabels (s : t) (nodeId : Z) : res (option (list Z)) := aget (labelNodes s) nodeId.
Definition getDist (s : t) (nodeId : Z) : res (option (list Z)) := aget (labelDist s) nodeId.

Definition addLabels (s : t) (nodeId : Z) (labelIds edgeIds dists : list Z) : res t :=
  n ← aset (labelNodes s) nodeId (Some labelIds);
  e ← aset (labelEdges s) nodeId (Some edgeIds);
  d ← aset (labelDist s) nodeId (Some dists);
  Ok (mk n e d).

(** The loop of [isRedundant]: the two ascending lists are walked together. *)
Fixpoint redundantLoop (fuel : nat) (s : t) (toCheck checkDist : Z) (labels checkDists : OrderedIntSet.t)
    (checkLabels : list Z) (checkIdx labelIdx : Z) : res bool :=
  match fuel with
  | O => Err OutOfFuel
  | S fuel' =>
      if (checkIdx <? alen checkLabels) && (labelIdx <? size labels) then
        checkNode ← aget checkLabels checkIdx;
        labelNode ← get labels labelIdx;
        if checkNode =? labelNode then
          d ← get checkDists labelIdx;
          ds ← getDist s toCheck;
          ds ← deref ds;
          d' ← aget ds checkIdx;
          if (iadd d d' <=? checkDist) && negb (checkNode =? toCheck) then Ok true
          else redundantLoop fuel' s toCheck checkDist labels checkDists checkLabels (checkIdx + 1) (labelIdx + 1)
        else if checkNode <? labelNode then
          redundantLoop fuel' s toCheck checkDist labels checkDists checkLabels (checkIdx + 1) labelIdx
        else redundantLoop fuel' s toCheck checkDist labels checkDists checkLabels checkIdx (labelIdx + 1)
      else Ok false
  end.

Definition isRedundant (s : t) (toCheck checkDist : Z) (labels checkDists : OrderedIntSet.t) : res bool :=
  checkLabels ← getLabels s toCheck;
  checkLabels ← deref checkLabels;
  redundantLoop (S (length checkLabels + Z.to_nat (size labels))) s toCheck checkDist labels checkDists
    checkLabels 0 0.

(** ** What the rows hold *)

(** Node [v] was processed and has the labels [cl] at the distances [cd]. *)
Definition has_labels (s : t) (v : Z) (cl cd : list Z) : Prop :=
  aget (labelNodes s) v = Ok (Some cl) /\ aget (labelDist s) v = Ok (Some cd) /\
  alen cd = alen cl /\ StronglySorted Z.lt cl.

Section redundant.
Context (s : t) (toCheck checkDist : Z) (labels checkDists : OrderedIntSet.t).
Context (cl cd ll dl : list Z).
Context (Hlab : has_labels s toCheck cl cd).
Context (Hll : repr labels ll) (Hdl : repr checkDists dl).
Context (Hlen : alen dl = alen ll) (Hsorted : StronglySorted Z.lt ll).
Context (Hint : forall i j, 0 <= i < alen cl -> 0 <= j < alen ll -> is_int (dl.[j] + cd.[i])).

(** Label [i] of the label node and label [j] of the original node make the label redundant. *)
Definition hit (i j : Z) : Prop :=
  0 <= i < alen cl /\ 0 <= j < alen ll /\ cl.[i] = ll.[j] /\ cl.[i] <> toCheck /\
  dl.[j] + cd.[i] <= checkDist.

Lemma redundantLoop_ok fuel : forall i j, 0 <= i <= alen cl -> 0 <= j <= alen ll ->
  (alen cl - i) + (alen ll - j) < Z.of_nat fuel ->
  (forall i' j', hit i' j' -> i <= i' /\ j <= j') ->
  returns (redundantLoop fuel s toCheck checkDist labels checkDists cl i j)
    (fun b => b = true <-> exists i' j', hit i' j').
Proof.
  destruct Hlab as (El & Ed & Hcd & Hcl). assert (size labels = alen ll) as Hsize by apply Hll.
  induction fuel as [| fuel IH]; intros i j Hi Hj Hfuel Hno; [lia |].
  cbn [redundantLoop]. rewrite Hsize.
  destruct (Z.ltb_spec i (alen cl)) as [Hic | Hic]; [destruct (Z.ltb_spec j (alen ll)) as [Hjc | Hjc] |]; cbn [andb].
  2, 3: ret; split; [done |]; intros (i' & j' & Hh); pose proof (Hno i' j' Hh); destruct Hh; lia.
  rewrite aget_ok, bind_ok by lia. rewrite (set_get_repr labels ll), bind_ok by (done || lia).
  destruct (Z.eqb_spec cl.[i] ll.[j]) as [Heq | Hne].
  - rewrite (set_get_repr checkDists dl), bind_ok by (done || lia).
    unfold getDist. rewrite Ed, bind_ok. cbn [deref]. rewrite bind_ok, aget_ok, bind_ok by lia.
    rewrite iadd_id by (apply Hint; lia).
    destruct (Z.leb_spec (dl.[j] + cd.[i]) checkDist) as [Hle | Hgt];
      [destruct (Z.eqb_spec cl.[i] toCheck) as [Hself | Hself] |]; cbn [andb negb].
    2: ret; split; [intros _; exists i, j; unfold hit; split_and!; done || lia | done].
    all: apply IH; [lia | lia | lia |]; intros i' j' Hh; pose proof (Hno i' j' Hh) as [Hi' Hj'];
      destruct Hh as (Hri & Hrj & He & Hns & Hd);
      (destruct (decide (i' = i)) as [-> | Hni];
        [assert (j' = j) as -> by (apply (sorted_at_inj ll); [done | lia | lia | congruence]); lia |]);
      (destruct (decide (j' = j)) as [-> | Hnj];
        [assert (i' = i) by (apply (sorted_at_inj cl); [done | lia | lia | congruence]); lia |]); lia.
  - destruct (Z.ltb_spec cl.[i] ll.[j]) as [Hlt | Hge].
    + apply IH; [lia | lia | lia |]. intros i' j' Hh. pose proof (Hno i' j' Hh) as [Hi' Hj'].
      destruct Hh as (Hri & Hrj & He & _). split; [| lia].
      destruct (decide (i' = i)) as [-> | Hni]; [| lia].
      destruct (decide (j' = j)) as [-> | Hnj]; [lia |].
      pose proof (sorted_at ll j j' Hsorted ltac:(lia) ltac:(lia)). lia.
    + apply IH; [lia | lia | lia |]. intros i' j' Hh. pose proof (Hno i' j' Hh) as [Hi' Hj'].
      destruct Hh as (Hri & Hrj & He & _). split; [lia |].
      destruct (decide (j' = j)) as [-> | Hnj]; [| lia].
      destruct (decide (i' = i)) as [-> | Hni]; [lia |].
      pose proof (sorted_at cl i i' Hcl ltac:(lia) ltac:(lia)). lia.
Qed.

Lemma isRedundant_ok : returns (isRedundant s toCheck checkDist labels checkDists)
  (fun b => b = true <-> exists i j, hit i j).
Proof.
  unfold isRedundant, getLabels. pose proof Hlab as (El & _). rewrite El, bind_ok. cbn [deref].
  rewrite bind_ok. apply redundantLoop_ok; try (pose proof (alen_nonneg cl); pose proof (alen_nonneg ll); lia).
  - assert (size labels = alen ll) as -> by apply Hll. unfold alen. lia.
  - intros i j (? & ? & _). lia.
Qed.
End redundant.

(** [isRedundant] answers true exactly when the label's node and the original node have a label
    in common, other than the label's node itself, through which the label's node is reached at
    most as far as the label says. *)
Theorem isRedundant_spec s toCheck checkDist labels checkDists cl cd ll dl :
  has_labels s toCheck cl cd -> repr labels ll -> repr checkDists dl ->
  alen dl = alen ll -> StronglySorted Z.lt ll ->
  (forall i j, 0 <= i < alen cl -> 0 <= j < alen ll -> is_int (dl.[j] + cd.[i])) ->
  returns (isRedundant s toCheck checkDist labels checkDists) (fun b => b = true <->
    exists i j, 0 <= i < alen cl /\ 0 <= j < alen ll /\ cl.[i] = ll.[j] /\ cl.[i] <> toCheck /\
      dl.[j] + cd.[i] <= checkDist).
Proof. intros. by apply isRedundant_ok. Qed.

Definition sampleLabels : t := mk [Some [0; 2]; None; Some [2; 5]] [Some [-1; 3]; None; Some [-1; 6]]
  [Some [0; 4]; None; Some [0; 3]].

Lemma isRedundant_spec_witness :
  let labels := OrderedIntSet.mk true [0; 2; 5] 3 2 in
  let dists := OrderedIntSet.mk false [0; 4; 7] 3 2 in
  isRedundant sampleLabels 2 8 labels dists = Ok false /\
  returns (isRedundant sampleLabels 2 10 labels dists) (fun b => b = true).
Proof.
  cbv zeta. split; [vm_compute; reflexivity |].
  assert (forall b l, repr (OrderedIntSet.mk b l (alen l) 2) l) as Hr.
  { intros b l. split; [done |]. split; [done |]. exists []. split; [by rewrite app_nil_r |].
    intros _. by exists 0%nat. }
  eapply returns_mono; [apply (isRedundant_spec sampleLabels 2 10 _ _ [2; 5] [0; 3] [0; 2; 5] [0; 4; 7]) |].
  - split_and!; [reflexivity | reflexivity | reflexivity |]. repeat constructor.
  - apply (Hr true [0; 2; 5]).
  - apply (Hr false [0; 4; 7]).
  - reflexivity.
  - repeat constructor.
  - intros i j Hi Hj. change (alen [2; 5]) with 2 in Hi. change (alen [0; 2; 5]) with 3 in Hj.
    assert (i = 0 \/ i = 1) as [-> | ->] by lia; assert (j = 0 \/ j = 1 \/ j = 2) as [-> | [-> | ->]] by lia;
      vm_compute; split; discriminate.
  - cbv beta. intros b Hb. apply Hb. exists 1, 2. vm_compute.
    repeat split; discriminate.
Defined.
