(* ===== verification/HLDijkstra.v ===== *)
(** * hublablecreation/HLDijkstra.java: the labels of a node from those of its upward neighbours

    A thread computes the labels of the nodes [calcOrder[startNodeIdx..endNodeIdx)].  The labels
    found for one node are three parallel [OrderedIntSet]s: ids ascending, distances, first edges.
    The graph, the levels and the rows of [Labels] are shared between the threads; a thread
    writes only the rows of its own nodes. *)

From Stdlib Require Import Sorting.Sorted.
From S2P Require Import Prelude SortedArray OrderedIntSet Edges DynamicGrid Labels.

Record found := mkFound { foundIds : OrderedIntSet.t; distances : OrderedIntSet.t; firstEdgeId : OrderedIntSet.t }.

Record t := mk { calcOrder : list Z; startNodeIdx : Z; endNodeIdx : Z; lists : found }.

Definition new (startNodeIdx endNodeIdx : Z) (calcOrder : list Z) : res t :=
  i ← OrderedIntSet.new true 1000 2000;
  d ← OrderedIntSet.new false 1000 2000;
  f ← OrderedIntSet.new false 1000 2000;
  Ok (mk calcOrder startNodeIdx endNodeIdx (mkFound i d f)).

Definition clearFound (f : found) : found :=
  mkFound (OrderedIntSet.clear (foundIds f)) (OrderedIntSet.clear (distances f)) (OrderedIntSet.clear (firstEdgeId f)).

Definition insertFound (f : found) (id d e idx : Z) : res found :=
  i ← insertAtIdx (foundIds f) id idx;
  ds ← insertAtIdx (distances f) d idx;
  es ← insertAtIdx (firstEdgeId f) e idx;
  Ok (mkFound i ds es).

Definition updateFound (f : found) (d e idx : Z) : res found :=
  ds ← updateValue (distances f) d idx;
  es ← updateValue (firstEdgeId f) e idx;
  Ok (mkFound (foundIds f) ds es).

Definition removeFound (f : found) (idx : Z) : res found :=
  i ← removeAtIdx (foundIds f) idx;
  ds ← removeAtIdx (distances f) idx;
  es ← removeAtIdx (firstEdgeId f) idx;
  Ok (mkFound i ds es).

Section thread.
Context {D : Type} (nodes : Nodes D) (e : Edges.t) (g : DynamicGrid.t).

(** One edge of the node: an edge to a lower level is skipped; a second edge to a node that was
    found already is reported and not used. *)
Definition directEdge (edgeIds : option (list Z)) (nodeLvl i : Z) (st : found * list Z * Z)
    : res (found * list Z * Z) :=
  let '(f, neighbourIds, realNeighbourCount) := st in
  ids ← deref edgeIds;
  edgeId ← aget ids i;
  destNode ← Edges.getDest e edgeId;
  lvl ← getNodeLvl nodes destNode;
  if lvl <? nodeLvl then Ok st else
  edgeDist ← Edges.getDist e edgeId;
  neighbourIds ← aset neighbourIds realNeighbourCount destNode;
  let insertIdx := getIdx (foundIds f) destNode in
  f ← (if insertIdx <? 0 then insertFound f destNode edgeDist edgeId (insertionPoint insertIdx) else Ok f);
  Ok (f, neighbourIds, realNeighbourCount + 1).

(** One label of a neighbour. *)
Definition mergeLabel (labels : list Z) (dist : option (list Z)) (baseDist baseEdge i : Z) (f : found) : res found :=
  currLabelNode ← aget labels i;
  let currLabelIdx := getIdx (foundIds f) currLabelNode in
  dist ← deref dist;
  d ← aget dist i;
  let distance := iadd baseDist d in
  if currLabelIdx <? 0 then insertFound f currLabelNode distance baseEdge (insertionPoint currLabelIdx)
  else
    oldDistance ← get (distances f) currLabelIdx;
    if distance <? oldDistance then updateFound f distance baseEdge currLabelIdx else Ok f.

Definition mergeNeighbour (lab : Labels.t) (neighbourIds : list Z) (j : Z) (f : found) : res found :=
  baseNodeId ← aget neighbourIds j;
  let baseIdx := getIdx (foundIds f) baseNodeId in
  baseDist ← get (distances f) baseIdx;
  baseEdge ← get (firstEdgeId f) baseIdx;
  labels ← getLabels lab baseNodeId;
  labels ← deref labels;
  dist ← Labels.getDist lab baseNodeId;
  forRange 0 (alen labels) (mergeLabel labels dist baseDist baseEdge) f.

(** The loop of [removeRedundancies]. *)
Fixpoint removeLoop (fuel : nat) (lab : Labels.t) (nodeId idx : Z) (f : found) : res found :=
  match fuel with
  | O => Err OutOfFuel
  | S fuel' =>
      if idx <? size (foundIds f) then
        labelNode ← get (foundIds f) idx;
        redundant ← (if negb (labelNode =? nodeId)
                     then d ← get (distances f) idx; isRedundant lab labelNode d (foundIds f) (distances f)
                     else Ok false);
        if (redundant : bool) then f ← removeFound f idx; removeLoop fuel' lab nodeId idx f
        else removeLoop fuel' lab nodeId (idx + 1) f
      else Ok f
  end.

Definition removeRedundancies (lab : Labels.t) (nodeId : Z) (f : found) : res found :=
  removeLoop (S (Z.to_nat (size (foundIds f)))) lab nodeId 0 f.

Definition addLabels (lab : Labels.t) (nodeId : Z) (f : found) : res (Labels.t * found) :=
  f ← removeRedundancies lab nodeId f;
  i ← toArray (foundIds f);
  es ← toArray (firstEdgeId f);
  ds ← toArray (distances f);
  lab ← Labels.addLabels lab nodeId i es ds;
  Ok (lab, f).

(** [calcLabels] up to its last line: the labels before any is removed. *)
Definition findLabels (lab : Labels.t) (nodeId : Z) (f : found) : res found :=
  let f := clearFound f in
  '(_, i) ← insertSorted (foundIds f) nodeId;
  ds ← insertTail (distances f) 0;
  es ← insertTail (firstEdgeId f) (-1);
  edgeCount ← getAllEdgeCount g nodeId;
  edgeIds ← getAllEdges g nodeId;
  nodeLvl ← getNodeLvl nodes nodeId;
  neighbourIds ← newArray 0 edgeCount;
  '(f, neighbourIds, realNeighbourCount) ←
    forRange 0 edgeCount (directEdge edgeIds nodeLvl) (mkFound i ds es, neighbourIds, 0);
  forRange 0 realNeighbourCount (mergeNeighbour lab neighbourIds) f.

Definition calcLabels (lab : Labels.t) (nodeId : Z) (f : found) : res (Labels.t * found) :=
  f ← findLabels lab nodeId f;
  addLabels lab nodeId f.

Definition run (lab : Labels.t) (th : t) : res (Labels.t * t) :=
  '(lab, f) ← forRange (startNodeIdx th) (endNodeIdx th) (fun nodeIdx '(lab, f) =>
    nodeId ← aget (calcOrder th) nodeIdx; calcLabels lab nodeId f) (lab, lists th);
  Ok (lab, mk (calcOrder th) (startNodeIdx th) (endNodeIdx th) f).
End thread.

(** ** The list of the labels found *)

Record entry := mkEntry { eid : Z; edist : Z; efirst : Z }.
#[export] Instance entry_inhabited : Inhabited entry := populate (mkEntry 0 0 0).
#[export] Instance entry_eq_dec : EqDecision entry.
Proof. solve_decision. Defined.

Record stores (f : found) (l : list entry) : Prop := {
  st_ids : repr (foundIds f) (eid <$> l);
  st_ordered : orderedBySorting (foundIds f) = true;
  st_dists : repr (distances f) (edist <$> l);
  st_firsts : repr (firstEdgeId f) (efirst <$> l);
  st_sorted : sorted_ids (eid <$> l);
}.

Lemma alen_map {A B} (p : A -> B) l : alen (p <$> l) = alen l.
Proof. unfold alen. by rewrite length_fmap. Qed.

Lemma at_map {A B} `{Inhabited A, Inhabited B} (p : A -> B) l i : 0 <= i < alen l -> (p <$> l).[i] = p l.[i].
Proof. intros Hi. apply (list_lookup_total_fmap p l). unfold alen in Hi. lia. Qed.

Lemma map_insert_cell {A B} (p : A -> B) i x l : p <$> insert_cell i x l = insert_cell i (p x) (p <$> l).
Proof. unfold insert_cell. by rewrite fmap_app, fmap_cons, fmap_take, fmap_drop. Qed.

Lemma map_remove_cell {A B} (p : A -> B) i l : p <$> remove_cell i l = remove_cell i (p <$> l).
Proof. unfold remove_cell. by rewrite !delete_take_drop, fmap_app, fmap_take, fmap_drop. Qed.

Lemma insertFound_ok f l x d ed p : stores f l -> 0 <= p <= alen l -> sorted_ids (insert_cell p x (eid <$> l)) ->
  returns (insertFound f x d ed p) (fun f' => stores f' (insert_cell p (mkEntry x d ed) l)).
Proof.
  intros [Hi Ho Hd He Hs] Hp Hs'. unfold insertFound.
  eapply returns_bind; [apply (insertAtIdx_repr _ _ _ _ Hi); by rewrite alen_map |]. cbv beta. intros i' [Hi' Ho'].
  eapply returns_bind; [apply (insertAtIdx_repr _ _ _ _ Hd); by rewrite alen_map |]. cbv beta. intros d' [Hd' _].
  eapply returns_bind; [apply (insertAtIdx_repr _ _ _ _ He); by rewrite alen_map |]. cbv beta. intros e' [He' _].
  ret. split; cbn; rewrite ?map_insert_cell; try done. by rewrite Ho'.
Qed.

Lemma updateFound_ok f l d ed i : stores f l -> 0 <= i < alen l ->
  returns (updateFound f d ed i) (fun f' => stores f' (<[Z.to_nat i := mkEntry (eid l.[i]) d ed]> l)).
Proof.
  intros [Hi Ho Hd He Hs] Hin. unfold updateFound.
  eapply returns_bind; [apply (updateValue_repr _ _ _ _ Hd); by rewrite alen_map |]. cbv beta. intros d' [Hd' _].
  eapply returns_bind; [apply (updateValue_repr _ _ _ _ He); by rewrite alen_map |]. cbv beta. intros e' [He' _].
  assert (eid <$> <[Z.to_nat i := mkEntry (eid l.[i]) d ed]> l = eid <$> l) as E.
  { rewrite list_fmap_insert. cbn. rewrite <-(at_map eid l i Hin).
    apply list_insert_id. apply at_lookup. by rewrite alen_map. }
  ret. split; cbn; rewrite ?E, ?list_fmap_insert; done.
Qed.

Lemma removeFound_ok f l i : stores f l -> 0 <= i < alen l ->
  returns (removeFound f i) (fun f' => stores f' (remove_cell i l)).
Proof.
  intros [Hi Ho Hd He Hs] Hin. unfold removeFound.
  eapply returns_bind; [apply (removeAtIdx_repr _ _ _ Hi); by rewrite alen_map |]. cbv beta. intros i' [Hi' Ho'].
  eapply returns_bind; [apply (removeAtIdx_repr _ _ _ Hd); by rewrite alen_map |]. cbv beta. intros d' [Hd' _].
  eapply returns_bind; [apply (removeAtIdx_repr _ _ _ He); by rewrite alen_map |]. cbv beta. intros e' [He' _].
  ret. split; cbn; rewrite ?map_remove_cell; try done; [by rewrite Ho' | by apply sorted_remove].
Qed.

(** ** Finding the labels *)

(** [l] has an entry for [x] that is at most [d] away. *)
Definition reaches (l : list entry) (x d : Z) : Prop := exists d' ed, mkEntry x d' ed ∈ l /\ d' <= d.
Definition improves (l l' : list entry) : Prop := forall x d, reaches l x d -> reaches l' x d.

#[export] Instance improves_preorder : PreOrder improves.
Proof. split; [by intros l x d | intros l1 l2 l3 H1 H2 x d H; by apply H2, H1]. Qed.

Lemma entry_eta en : mkEntry (eid en) (edist en) (efirst en) = en.
Proof. by destruct en. Qed.

Lemma reaches_entry l en d : en ∈ l -> edist en <= d -> reaches l (eid en) d.
Proof. intros Hin Hd. exists (edist en), (efirst en). by rewrite entry_eta. Qed.

Lemma insert_improves l p en : improves l (insert_cell p en l).
Proof. intros x d (d' & ed & Hin & Hd). exists d', ed. rewrite elem_insert_cell. auto. Qed.

Lemma update_improves l i d ed : 0 <= i < alen l -> d <= edist l.[i] ->
  improves l (<[Z.to_nat i := mkEntry (eid l.[i]) d ed]> l).
Proof.
  intros Hi Hd x d0 (d' & ed' & Hin & Hle). apply In_at in Hin as (k & Hk & E).
  destruct (decide (k = i)) as [-> | Hne].
  - rewrite E in *. cbn in Hd. exists d, ed. split; [| cbn in *; lia].
    apply list_elem_of_lookup_2 with (Z.to_nat i). rewrite list_lookup_insert_eq by (unfold alen in Hi; lia).
    by rewrite ?E.
  - exists d', ed'. split; [| done]. apply list_elem_of_lookup_2 with (Z.to_nat k).
    rewrite list_lookup_insert_ne by lia. rewrite at_lookup by done. by rewrite E.
Qed.

(** What looking an id up in the found ids answers. *)
Lemma find_ok f l x : stores f l -> x < MAX_VALUE ->
  (0 <= getIdx (foundIds f) x < alen l /\ eid l.[getIdx (foundIds f) x] = x) \/
  (exists p, getIdx (foundIds f) x = - (p + 1) /\ 0 <= p <= alen l /\ x ∉ eid <$> l /\
     sorted_ids (insert_cell p x (eid <$> l))).
Proof.
  intros Hf Hx. destruct (getIdx_repr _ _ x (st_ids _ _ Hf) (st_ordered _ _ Hf) (st_sorted _ _ Hf) Hx)
    as [[Hi E] | (p & E & Hp & Hn & Hs)].
  - left. rewrite alen_map in Hi. split; [done |]. by rewrite <-(at_map eid l) by done.
  - right. exists p. rewrite alen_map in Hp. done.
Qed.

Section find.
Context {D : Type} (nodes : Nodes D) (e : Edges.t) (g : DynamicGrid.t) (lab : Labels.t).
Context (n W R v : Z).

Definition lvl (u : Z) : Z := (nLevels nodes).[u].
Notation weight := (weight e).
Notation dst := (dst e).

(** The edges of [v] that do not lead to a lower level. *)
Definition upEdges : list Z := List.filter (fun x => negb (lvl (dst x) <? lvl v)) (everEdge g v).

(** Label [x] at distance [dx] in the row of [u]. *)
Definition label (u x dx : Z) : Prop := exists cl cd i, has_labels lab u cl cd /\ 0 <= i < alen cl /\
  cl.[i] = x /\ cd.[i] = dx.

(** [ready processed]: the nodes of [processed] have their rows, whose labels are processed nodes
    too; the upward neighbours of [v] are processed, [v] is not. *)
Record ready (processed : Z -> Prop) : Prop := {
  rd_grid : grid_ok g n;
  rd_v : 0 <= v < n;
  rd_n : n < MAX_VALUE;
  rd_levels : alen (nLevels nodes) = n;
  rd_rows : forall u, processed u -> u <> v /\ 0 <= u < n /\ exists cl cd, has_labels lab u cl cd;
  rd_label : forall u x dx, processed u -> label u x dx -> processed x /\ 0 <= dx <= R;
  rd_edge : forall x, x ∈ everEdge g v -> Edges.getDest e x = Ok (dst x) /\ 0 <= dst x < n;
  rd_up : forall x, x ∈ upEdges -> processed (dst x) /\ Edges.getDist e x = Ok (weight x) /\ 0 <= weight x <= W;
  rd_simple : NoDup (dst <$> upEdges);
  rd_bounds : 0 <= W /\ 0 <= R /\ W + 2 * R <= MAX_VALUE;
}.
Context (processed : Z -> Prop) (Hready : ready processed).

(** The labels that can be derived: the node itself, an upward edge, and a label of an upward
    neighbour behind a way to that neighbour. *)
Inductive derived : Z -> Z -> Z -> Prop :=
| derived_self : derived v 0 (-1)
| derived_edge x : x ∈ upEdges -> derived (dst x) (weight x) x
| derived_label x b bd ed y dy : x ∈ upEdges -> b = dst x -> derived b bd ed -> bd <= W ->
    label b y dy -> derived y (bd + dy) ed.

Definition sound (l : list entry) : Prop := forall en, en ∈ l ->
  derived (eid en) (edist en) (efirst en).

(** A derived label is short enough, and of a processed node unless it is the node's own. *)
Lemma derived_bounds x d ed : derived x d ed -> 0 <= d <= W + R /\ x < MAX_VALUE /\ (x = v \/ processed x).
Proof.
  pose proof (rd_bounds _ Hready). pose proof (rd_v _ Hready). pose proof (rd_n _ Hready).
  assert (forall u, processed u -> u < MAX_VALUE) as Hlt.
  { intros u Hu. apply (rd_rows _ Hready) in Hu. lia. }
  induction 1 as [| y Hy | y b bd ed y' dy Hy -> Hb IH Hbd Hl].
  - split; [lia |]. split; [lia | by left].
  - destruct (rd_up _ Hready y Hy) as (Hp & _ & Hw). split; [lia |]. split; [by apply Hlt | by right].
  - destruct (rd_up _ Hready y Hy) as (Hp & _). destruct (rd_label _ Hready _ _ _ Hp Hl) as [Hp' Hdy].
    split; [lia |]. split; [by apply Hlt | by right].
Qed.

Definition state_ok (f : found) (l : list entry) : Prop := stores f l /\ sound l.

(** A state as good as [l], that also reaches [x] within [d]. *)
Definition better (l : list entry) (x d : Z) (f : found) : Prop :=
  exists l', state_ok f l' /\ improves l l' /\ reaches l' x d.

Lemma insert_better f l x d ed p : state_ok f l -> derived x d ed -> 0 <= p <= alen l ->
  sorted_ids (insert_cell p x (eid <$> l)) -> returns (insertFound f x d ed p) (better l x d).
Proof.
  intros [Hf Hs] Hx Hp Hsorted.
  eapply returns_mono; [by apply (insertFound_ok _ _ _ _ _ _ Hf) |]. cbv beta. intros f' Hf'.
  eexists. split; [split; [exact Hf' |] |].
  - intros en [-> | Hin]%elem_insert_cell; [done | by apply Hs].
  - split; [apply insert_improves |]. exists d, ed. split; [| lia]. apply elem_insert_cell. by left.
Qed.

Lemma mergeLabel_ok f l x b cl cd bd ed i : state_ok f l -> x ∈ upEdges -> b = dst x ->
  derived b bd ed -> bd <= W -> has_labels lab b cl cd -> 0 <= i < alen cl ->
  returns (mergeLabel cl (Some cd) bd ed i f) (better l cl.[i] (bd + cd.[i])).
Proof.
  intros Hst Hx Hb Hbd HW Hlab Hi. pose proof Hst as [Hf Hs].
  assert (label b cl.[i] cd.[i]) as Hl by (exists cl, cd, i; done).
  pose proof Hlab as (_ & _ & Hlen & _).
  assert (derived cl.[i] (bd + cd.[i]) ed) as Hder by (by apply (derived_label x b)).
  destruct (derived_bounds _ _ _ Hder) as (Hd & Hmax & _). pose proof (rd_bounds _ Hready).
  unfold mergeLabel. rewrite aget_ok, bind_ok by done. cbn [deref]. rewrite bind_ok.
  rewrite aget_ok, bind_ok by lia. rewrite iadd_id by (unfold is_int, MIN_VALUE; lia).
  destruct (find_ok f l cl.[i] Hf Hmax) as [[Hj E] | (p & E & Hp & _ & Hsorted)].
  - set (j := getIdx (foundIds f) cl.[i]) in *. destruct (Z.ltb_spec j 0); [lia |].
    rewrite (set_get_repr _ _ _ (st_dists _ _ Hf)), bind_ok by (by rewrite alen_map).
    rewrite at_map by done.
    destruct (Z.ltb_spec (bd + cd.[i]) (edist l.[j])) as [Hlt | Hge].
    + eapply returns_mono; [by apply (updateFound_ok _ _ _ _ _ Hf) |]. cbv beta. intros f' Hf'.
      eexists. split; [split; [exact Hf' |] |].
      * intros en [k Hk]%list_elem_of_lookup. destruct (decide (k = Z.to_nat j)) as [-> | Hne].
        -- rewrite list_lookup_insert_eq in Hk by (unfold alen in Hj; lia). injection Hk as <-. cbn [eid edist efirst].
           by rewrite E.
        -- rewrite list_lookup_insert_ne in Hk by done. by eapply Hs, list_elem_of_lookup_2.
      * split; [apply update_improves; [done | lia] |]. exists (bd + cd.[i]), ed. split; [| lia].
        apply list_elem_of_lookup_2 with (Z.to_nat j).
        rewrite list_lookup_insert_eq by (unfold alen in Hj; lia). by rewrite E.
    + ret. exists l. split; [done |]. split; [done |]. rewrite <-E. apply reaches_entry; [by apply at_In | lia].
  - rewrite E. destruct (Z.ltb_spec (- (p + 1)) 0); [| lia].
    replace (insertionPoint (- (p + 1))) with p by (unfold insertionPoint; lia).
    by apply insert_better.
Qed.

(** ** The direct edges *)

Definition upTo (i : Z) : list Z := List.filter (fun x => negb (lvl (dst x) <? lvl v)) (take (Z.to_nat i) (everEdge g v)).

Definition direct (i : Z) (st : found * list Z * Z) : Prop :=
  let '(f, neighbours, k) := st in
  exists l, state_ok f l /\ (forall x, x ∈ upTo i -> reaches l (dst x) (weight x)) /\ reaches l v 0 /\
  alen neighbours = alen (everEdge g v) /\ k = alen (upTo i) /\ take (Z.to_nat k) neighbours = dst <$> upTo i /\
  (forall en, en ∈ l -> eid en = v \/ eid en ∈ dst <$> upTo i).

Lemma upTo_S i : 0 <= i < alen (everEdge g v) -> let x := (everEdge g v).[i] in
  upTo (i + 1) = upTo i ++ if lvl (dst x) <? lvl v then [] else [x].
Proof.
  intros Hi x. unfold upTo. replace (Z.to_nat (i + 1)) with (S (Z.to_nat i)) by lia.
  rewrite (take_S_r _ _ x) by (by apply at_lookup). rewrite List.filter_app. cbn.
  by destruct (lvl (dst x) <? lvl v).
Qed.

Lemma upTo_all : upTo (alen (everEdge g v)) = upEdges.
Proof. unfold upTo, upEdges, alen. by rewrite Nat2Z.id, firstn_all. Qed.

Lemma upTo_count i : 0 <= i -> 0 <= alen (upTo i) <= i.
Proof.
  intros Hi. split; [apply alen_nonneg |]. unfold upTo.
  pose proof (filter_length_le (fun x => negb (lvl (dst x) <? lvl v)) (take (Z.to_nat i) (everEdge g v))) as Hl.
  rewrite length_take in Hl. unfold alen. lia.
Qed.

(** No two upward edges lead to the same node. *)
Lemma upTo_new i : 0 <= i < alen (everEdge g v) -> let x := (everEdge g v).[i] in
  (lvl (dst x) <? lvl v) = false -> x ∈ upEdges /\ dst x ∉ dst <$> upTo i.
Proof.
  intros Hi x Elvl. assert (x ∈ everEdge g v) as Hx by (by apply at_In). split.
  { unfold upEdges. rewrite list_elem_of_In, filter_In, Elvl. split; [by apply list_elem_of_In | done]. }
  pose proof (rd_simple _ Hready) as Hnd. pose proof (upTo_S i Hi) as Eup. cbv zeta in Eup. fold x in Eup. rewrite Elvl in Eup.
  assert (exists rest, upEdges = upTo (i + 1) ++ rest) as [rest Er].
  { eexists. unfold upEdges, upTo. rewrite <-List.filter_app, take_drop. done. }
  rewrite Er, Eup in Hnd. rewrite !fmap_app in Hnd. apply NoDup_app in Hnd as (Hnd & _).
  apply NoDup_app in Hnd as (_ & Hnd & _). intros Hin. apply (Hnd _ Hin). set_solver.
Qed.

Lemma directEdge_ok arr i st : direct i st -> 0 <= i < alen (everEdge g v) ->
  (forall k, 0 <= k < alen (everEdge g v) -> aget arr k = Ok (everEdge g v).[k]) ->
  returns (directEdge nodes e (Some arr) (lvl v) i st) (direct (i + 1)).
Proof.
  destruct st as [[f neighbours] k]. intros (l & Hst & Hdone & Hself & Hlen & -> & Htake & Hfrom) Hi Harr.
  pose proof (upTo_S i Hi) as Eup. pose proof (upTo_new i Hi) as Hup. cbv zeta in Eup, Hup.
  unfold directEdge. cbn [deref]. rewrite bind_ok, Harr, bind_ok by done.
  set (x := (everEdge g v).[i]) in *. destruct (rd_edge _ Hready x ltac:(by apply at_In)) as [-> Hd]. rewrite bind_ok.
  unfold getNodeLvl. rewrite aget_ok, bind_ok by (rewrite (rd_levels _ Hready); done). fold (lvl (dst x)).
  destruct (lvl (dst x) <? lvl v) eqn:Elvl.
  { rewrite app_nil_r in Eup. ret. exists l. by rewrite Eup. }
  destruct (Hup eq_refl) as [Hupx Hnew]. destruct (rd_up _ Hready x Hupx) as (Hproc & -> & Hw). rewrite bind_ok.
  pose proof (upTo_count i ltac:(lia)). rewrite aset_ok, bind_ok by lia.
  pose proof Hst as [Hf Hs].
  assert (dst x < MAX_VALUE) as Hmax by (pose proof (rd_n _ Hready); lia).
  destruct (find_ok f l (dst x) Hf Hmax) as [[Hj E] | (p & E & Hp & _ & Hsorted)].
  { exfalso. destruct (Hfrom l.[getIdx (foundIds f) (dst x)]) as [Ev | Hin]; [by apply at_In | |].
    - apply (rd_rows _ Hready) in Hproc. rewrite E in Ev. destruct Hproc. congruence.
    - rewrite E in Hin. done. }
  rewrite E. destruct (Z.ltb_spec (- (p + 1)) 0); [| lia].
  replace (insertionPoint (- (p + 1))) with p by (unfold insertionPoint; lia).
  eapply returns_bind.
  { apply (insertFound_ok _ _ (dst x) (weight x) x p Hf Hp Hsorted). }
  cbv beta. intros f' Hf'. ret. eexists. rewrite Eup. split_and!.
  - split; [exact Hf' |]. intros en [-> | Hin]%elem_insert_cell; [by apply derived_edge | by apply Hs].
  - intros y [Hy | ->%list_elem_of_singleton]%elem_of_app.
    + by apply insert_improves, Hdone.
    + exists (weight x), x. split; [| lia]. apply elem_insert_cell. by left.
  - by apply insert_improves.
  - by autorewrite with alen.
  - autorewrite with alen. lia.
  - replace (Z.to_nat (alen (upTo i) + 1)) with (S (Z.to_nat (alen (upTo i)))) by lia.
    rewrite (take_S_r _ _ (dst x)) by (rewrite list_lookup_insert_eq; [done | unfold alen in *; lia]).
    rewrite take_insert_ge by lia. by rewrite Htake, fmap_app.
  - intros en [-> | Hin]%elem_insert_cell; [right; rewrite fmap_app; set_solver |].
    destruct (Hfrom en Hin); [by left | right]. rewrite fmap_app. set_solver.
Qed.

(** ** The labels of the neighbours *)

(** The neighbours [0..j) are merged: what their labels reach is reached. *)
Definition merged (j : Z) (f : found) : Prop :=
  exists l, state_ok f l /\ reaches l v 0 /\
  (forall x, x ∈ upEdges -> reaches l (dst x) (weight x)) /\
  (forall x y dy, x ∈ take (Z.to_nat j) upEdges -> label (dst x) y dy -> reaches l y (weight x + dy)).

Lemma stores_unique f l x d ed d' ed' : stores f l -> mkEntry x d ed ∈ l -> mkEntry x d' ed' ∈ l -> d = d' /\ ed = ed'.
Proof.
  intros Hf Hin Hin'. apply In_at in Hin as (i & Hi & E), Hin' as (j & Hj & E').
  assert (i = j) as ->; [| split; congruence].
  apply (sorted_at_inj (eid <$> l)); rewrite ?alen_map; [apply Hf | done | done |].
  rewrite !at_map by done. by rewrite E, E'.
Qed.

Lemma mergeNeighbour_ok neighbours j f : merged j f -> 0 <= j < alen upEdges ->
  take (Z.to_nat (alen upEdges)) neighbours = dst <$> upEdges ->
  returns (mergeNeighbour lab neighbours j f) (merged (j + 1)).
Proof.
  intros (l & Hst & Hself & Hdirect & Hdone) Hj Htake. set (x := upEdges.[j]).
  assert (x ∈ upEdges) as Hx by (by apply at_In).
  destruct (rd_up _ Hready x Hx) as (Hproc & _ & Hw). destruct (rd_rows _ Hready _ Hproc) as (_ & Hn & cl & cd & Hlab).
  pose proof (rd_n _ Hready). pose proof Hst as [Hf Hs].
  assert (neighbours !! Z.to_nat j = Some (dst x)) as En.
  { rewrite <-(lookup_take_lt _ (Z.to_nat (alen upEdges))) by lia. rewrite Htake, list_lookup_fmap.
    by rewrite at_lookup. }
  unfold mergeNeighbour. unfold aget at 1. destruct (Z.ltb_spec j 0); [lia |]. rewrite En, bind_ok.
  destruct (Hdirect x Hx) as (bd & ed & Hin & Hbd).
  destruct (find_ok f l (dst x) Hf ltac:(lia)) as [[Hi E] | (p & _ & _ & Hno & _)].
  2:{ exfalso. apply Hno. by apply (list_elem_of_fmap_2 eid) in Hin. }
  set (i := getIdx (foundIds f) (dst x)) in *. clearbody i.
  assert (mkEntry (dst x) (edist l.[i]) (efirst l.[i]) ∈ l) as Hin'.
  { rewrite <-E, entry_eta. by apply at_In. }
  destruct (stores_unique _ _ _ _ _ _ _ Hf Hin' Hin) as [Ed Ee].
  rewrite (set_get_repr _ _ _ (st_dists _ _ Hf)), bind_ok by (by rewrite alen_map).
  rewrite (set_get_repr _ _ _ (st_firsts _ _ Hf)), bind_ok by (by rewrite alen_map).
  rewrite !at_map, Ed, Ee by done. unfold getLabels, Labels.getDist.
  pose proof Hlab as (-> & -> & Hlen & _). rewrite bind_ok. cbn [deref]. rewrite !bind_ok.
  pose proof (Hs _ Hin) as Hder. cbn in Hder.
  eapply returns_mono.
  - apply (forRange_inv (fun k f' => exists l', state_ok f' l' /\ improves l l' /\
      forall q, 0 <= q < k -> reaches l' cl.[q] (bd + cd.[q]))); [apply alen_nonneg | |].
    + exists l. split; [done |]. split; [done |]. intros; lia.
    + intros k f' Hk (l' & Hst' & Himp & Hq).
      eapply returns_mono; [by apply (mergeLabel_ok f' l' x (dst x) cl cd bd ed k); try done; lia |].
      cbv beta. intros f2 (l2 & Hst2 & Himp2 & Hr). exists l2. split; [done |].
      split; [by transitivity l' |]. intros q Hq'. destruct (decide (q = k)) as [-> | Hne]; [done |].
      apply Himp2, Hq. lia.
  - cbv beta. intros f' (l' & Hst' & Himp & Hq). exists l'. split_and!; [done | by apply Himp | |].
    + intros y Hy. by apply Himp, Hdirect.
    + intros y z dz Hy Hl. replace (Z.to_nat (j + 1)) with (S (Z.to_nat j)) in Hy by lia.
      rewrite (take_S_r _ _ x) in Hy by (by apply at_lookup).
      apply elem_of_app in Hy as [Hy | ->%list_elem_of_singleton]; [by apply Himp, (Hdone y) |].
      destruct Hl as (cl' & cd' & q & Hlab' & Hqr & <- & <-).
      destruct Hlab as (E1 & E2 & _), Hlab' as (E1' & E2' & _). rewrite E1 in E1'. rewrite E2 in E2'.
      injection E1' as <-. injection E2' as <-.
      destruct (Hq q Hqr) as (d0 & e0 & Hin0 & Hd0). exists d0, e0. split; [done | lia].
Qed.

Lemma insertSorted_empty s l x : repr s l -> orderedBySorting s = true -> x < MAX_VALUE ->
  returns (insertSorted (clear s) x) (fun st => repr st.2 [x] /\ orderedBySorting st.2 = true).
Proof.
  intros Hs Ho Hx. assert (repr (clear s) []) as Hc by (by eapply set_repr_clear).
  unfold insertSorted. eapply returns_bind; [apply (set_repr_grow _ _ Hc) |]. cbv beta. intros s1 [Hr Hb].
  assert (orderedBySorting s1 = true) as Hso by (rewrite Hb; done).
  destruct (getIdx_repr s1 [] x (proj1 Hr) Hso sorted_ids_nil Hx) as [[Hbad _] | (p & E & Hp & _)].
  { change (alen []) with 0 in Hbad. lia. }
  change (alen []) with 0 in Hp. assert (p = 0) as -> by lia. unfold getIdx in E. rewrite E.
  change (0 <=? - (0 + 1)) with false. cbv iota zeta. change (insertionPoint (- (0 + 1))) with 0.
  pose proof (insert_free s1 [] x 0 Hr ltac:(change (alen []) with 0; lia)) as Hins.
  unfold mbind, res_bind in Hins |- *.
  destruct (arraycopy (elements s1) 0 (elements s1) (0 + 1) (elementCount s1 - 0)) as [a1 |]; [| done].
  destruct (aset a1 0 x) as [a2 |]; [| done].
  destruct Hins as [Hr' Hb']. split; [exact Hr' | cbn in *; congruence].
Qed.

(** [findLabels] finds exactly what can be derived from the edges and the neighbours' rows: every
    label found is derived, and no way over one upward edge is shorter. *)
Definition candidates (f : found) (l : list entry) : Prop :=
  state_ok f l /\ reaches l v 0 /\ (forall x, x ∈ upEdges -> reaches l (dst x) (weight x)) /\
  forall x y dy, x ∈ upEdges -> label (dst x) y dy -> reaches l y (weight x + dy).

Definition lists_ok (f : found) : Prop :=
  (exists l, repr (foundIds f) l) /\ orderedBySorting (foundIds f) = true /\
  (exists l, repr (distances f) l) /\ (exists l, repr (firstEdgeId f) l).

Lemma findLabels_ok f : lists_ok f -> returns (findLabels nodes e g lab v f) (fun f' => exists l, candidates f' l).
Proof.
  intros ((li & Hi) & Ho & (ld & Hd) & (le & He)). pose proof (rd_v _ Hready) as Hv. pose proof (rd_n _ Hready) as Hn.
  unfold findLabels. cbn [clearFound foundIds distances firstEdgeId].
  eapply returns_bind; [eapply insertSorted_empty; [exact Hi | done | lia] |].
  cbv beta. intros [q i] [Hi' Ho'].
  eapply returns_bind; [apply (insertTail_repr (clear (distances f)) []); by eapply set_repr_clear |].
  cbv beta. intros ds [Hd' _].
  eapply returns_bind; [apply (insertTail_repr (clear (firstEdgeId f)) []); by eapply set_repr_clear |].
  cbv beta. intros es [He' _].
  destruct (rd_grid _ Hready) as [_ Hall]. unfold getAllEdgeCount, getAllEdges, getNodeLvl.
  rewrite (aget_ok (allEdgeCount g)), bind_ok by (rewrite (tab_count _ _ _ Hall); lia).
  rewrite (aget_ok (allEdgeIds g)), bind_ok by (rewrite (tab_len _ _ _ Hall); lia).
  rewrite (aget_ok (nLevels nodes)), bind_ok by (rewrite (rd_levels _ Hready); lia). fold (lvl v).
  pose proof (alen_slice _ _ _ v Hall Hv) as Hcount. fold (everEdge g v) in Hcount.
  assert (Hc0 : 0 <= (allEdgeCount g).[v]) by (rewrite <-Hcount; apply alen_nonneg).
  unfold newArray. destruct (Z.ltb_spec (allEdgeCount g).[v] 0); [lia |]. rewrite bind_ok. rewrite <-Hcount.
  set (st0 := (_, _, 0)).
  assert (direct 0 st0) as Hst0.
  { exists [mkEntry v 0 (-1)]. split_and!.
    - split; [split; cbn; try done; repeat constructor; lia |].
      intros en ->%list_elem_of_singleton. apply derived_self.
    - intros x Hx. by apply elem_of_nil in Hx.
    - exists 0, (-1). split; [set_solver | lia].
    - rewrite Hcount. by apply alen_replicate.
    - done.
    - done.
    - intros en ->%list_elem_of_singleton. by left. }
  eapply returns_bind.
  { apply (forRange_inv direct); [apply alen_nonneg | exact Hst0 |].
    intros k st Hk Hst. destruct (tab_rows _ _ _ Hall v Hv) as [[Ea Ec] | (arr & Ea & Hc & _)]; [lia |].
    rewrite Ea. apply directEdge_ok; [done | done |]. intros m Hm. rewrite aget_ok by lia.
    f_equal. unfold everEdge, slice. rewrite Ea. cbn. symmetry. apply at_take. lia. }
  cbv beta. intros [[f1 neighbours] k] (l & Hst & Hdirect & Hself & Hlen & -> & Htake & _).
  rewrite upTo_all in *.
  eapply returns_mono.
  - apply (forRange_inv merged); [apply alen_nonneg | |].
    + exists l. split_and!; try done. intros x y dy Hx. by apply elem_of_nil in Hx.
    + intros j f2 Hj Hm. by apply mergeNeighbour_ok.
  - cbv beta. intros f2 (l2 & Hst2 & Hself2 & Hdir2 & Hlab2). exists l2. split_and!; try done.
    intros x y dy Hx. apply Hlab2. by rewrite take_ge by (unfold alen; lia).
Qed.

(** ** Removing redundant labels *)

(** Another label [h] of the list makes [en] redundant: [en]'s node is reached at most as far
    over [h]. *)
Definition redundant (l : list entry) (en : entry) : Prop :=
  exists h dh eh dx, mkEntry h dh eh ∈ l /\ label (eid en) h dx /\ h <> eid en /\ dh + dx <= edist en.

Lemma redundant_mono l l' en : (forall x, x ∈ l -> x ∈ l') -> redundant l en -> redundant l' en.
Proof. intros Hsub (h & dh & eh & dx & Hin & Hrest). exists h, dh, eh, dx. split; [by apply Hsub | done]. Qed.

Lemma check_ok f l en : stores f l -> sound l -> en ∈ l -> eid en <> v ->
  returns (isRedundant lab (eid en) (edist en) (foundIds f) (distances f)) (fun b => b = true <-> redundant l en).
Proof.
  intros Hf Hs Hen Hne. destruct (derived_bounds _ _ _ (Hs en Hen)) as (_ & _ & [? | Hproc]); [done |].
  destruct (rd_rows _ Hready _ Hproc) as (_ & _ & cl & cd & Hlab).
  assert (forall i, 0 <= i < alen cl -> label (eid en) cl.[i] cd.[i]) as Hrow by (intros i Hi; exists cl, cd, i; done).
  pose proof (rd_bounds _ Hready) as Hb.
  eapply returns_mono.
  - apply (isRedundant_ok lab (eid en) (edist en) _ _ cl cd (eid <$> l) (edist <$> l)); try done.
    + apply (st_ids _ _ Hf).
    + apply (st_dists _ _ Hf).
    + by rewrite !alen_map.
    + apply (st_sorted _ _ Hf).
    + intros i j Hi Hj. rewrite alen_map in Hj. rewrite at_map by done.
      destruct (rd_label _ Hready _ _ _ Hproc (Hrow i Hi)) as [_ Hd].
      destruct (derived_bounds _ _ _ (Hs l.[j] (at_In _ _ Hj))) as (Hd' & _ & _).
      unfold is_int, MIN_VALUE. lia.
  - cbv beta. intros b Hbt. rewrite Hbt. unfold hit. split.
    + intros (i & j & Hi & Hj & Heq & Hns & Hle). rewrite alen_map in Hj. rewrite !at_map in * by done.
      exists (eid l.[j]), (edist l.[j]), (efirst l.[j]), cd.[i]. rewrite entry_eta.
      split; [by apply at_In |]. rewrite <-Heq. split; [by apply Hrow | done].
    + intros (h & dh & eh & dx & Hin & (cl' & cd' & i & Hlab' & Hi & Eh & Ed) & Hns & Hle).
      destruct Hlab as (E1 & E2 & _), Hlab' as (E1' & E2' & _). rewrite E1 in E1'. rewrite E2 in E2'.
      injection E1' as <-. injection E2' as <-. subst h dx.
      apply In_at in Hin as (j & Hj & E). exists i, j. rewrite alen_map, !at_map, E by done. done.
Qed.

(** What [removeRedundancies] makes of the list [l0]. *)
Record pruned (l0 l : list entry) : Prop := {
  pr_sub : forall en, en ∈ l -> en ∈ l0;
  pr_removed : forall en, en ∈ l0 -> en ∉ l -> redundant l0 en;
  pr_own : forall en, en ∈ l0 -> eid en = v -> en ∈ l;
}.

Lemma hl_removeLoop_ok l0 fuel : sound l0 -> forall idx f l, stores f l -> pruned l0 l -> 0 <= idx <= alen l ->
  alen l - idx < Z.of_nat fuel ->
  (forall k, 0 <= k < idx -> eid l.[k] <> v -> ~ redundant l l.[k]) ->
  returns (removeLoop fuel lab v idx f) (fun f' => exists l', stores f' l' /\ pruned l0 l' /\
    forall en, en ∈ l' -> eid en <> v -> ~ redundant l' en).
Proof.
  intros Hs0. induction fuel as [| fuel IH]; intros idx f l Hf Hpr Hidx Hfuel Hkept; [lia |].
  assert (sound l) as Hs by (intros en Hen; by apply Hs0, (pr_sub _ _ Hpr)).
  assert (size (foundIds f) = alen l) as Hsize by (destruct (st_ids _ _ Hf) as (_ & E & _); by rewrite alen_map in E).
  cbn [removeLoop]. rewrite Hsize. destruct (Z.ltb_spec idx (alen l)) as [Hlt | Hge].
  2:{ ret. exists l. split_and!; [done | done |]. intros en (k & Hk & <-)%In_at. apply Hkept. lia. }
  rewrite (set_get_repr _ _ _ (st_ids _ _ Hf)), bind_ok by (rewrite alen_map; lia).
  rewrite at_map by lia. assert (l.[idx] ∈ l) as Hen by (apply at_In; lia).
  eapply (returns_bind _ _ (fun b => b = true <-> eid l.[idx] <> v /\ redundant l l.[idx])).
  - destruct (Z.eqb_spec (eid l.[idx]) v) as [Ev | Hne]; cbn [negb].
    + ret. split; [done | intros [? _]; done].
    + rewrite (set_get_repr _ _ _ (st_dists _ _ Hf)), bind_ok by (rewrite alen_map; lia).
      rewrite at_map by lia. eapply returns_mono; [by apply check_ok |]. cbv beta. intros b ->.
      split; [done | by intros [_ ?]].
  - cbv beta. intros [|] Hb.
    + destruct Hb as [Hb _]. destruct (Hb eq_refl) as [Hne Hred].
      eapply returns_bind; [apply (removeFound_ok _ _ _ Hf); lia |]. cbv beta. intros f' Hf'.
      assert (forall en, en ∈ remove_cell idx l -> en ∈ l) as Hsub by (intros en; apply remove_subseteq).
      assert (forall en, en ∈ l -> en ∈ remove_cell idx l \/ en = l.[idx]) as Hsplit.
      { intros en Hin. apply In_at in Hin as (k & Hk & <-). destruct (decide (k = idx)) as [-> | Hki]; [by right |].
        left. destruct (decide (k < idx)).
        - assert (l.[k] = (remove_cell idx l).[k]) as -> by (rewrite at_remove_cell, decide_True by lia; done).
          apply at_In. rewrite alen_remove_cell; lia.
        - assert (l.[k] = (remove_cell idx l).[k - 1]) as ->.
          { rewrite at_remove_cell by lia. rewrite decide_False by lia. f_equal. lia. }
          apply at_In. rewrite alen_remove_cell; lia. }
      apply (IH idx f' (remove_cell idx l)); [done | | rewrite alen_remove_cell; lia | rewrite alen_remove_cell; lia |].
      * split.
        -- intros en Hin. by apply (pr_sub _ _ Hpr), Hsub.
        -- intros en Hin Hno. destruct (decide (en ∈ l)) as [Hinl | Hnl]; [| by apply (pr_removed _ _ Hpr)].
           destruct (Hsplit en Hinl) as [? | ->]; [done |].
           eapply redundant_mono; [apply (pr_sub _ _ Hpr) | done].
        -- intros en Hin Ev. pose proof (pr_own _ _ Hpr en Hin Ev) as Hinl.
           destruct (Hsplit en Hinl) as [? | ->]; done.
      * intros k Hk. rewrite at_remove_cell, decide_True by lia. intros Hkv Hr.
        apply (Hkept k Hk Hkv). by eapply redundant_mono.
    + apply (IH (idx + 1) f l); [done | done | lia | lia |]. intros k Hk Hkv.
      destruct (decide (k = idx)) as [-> | Hki]; [| apply Hkept; [lia | done]].
      intros Hr. destruct Hb as [_ Hb]. by specialize (Hb (conj Hkv Hr)).
Qed.
End find.

(** ** The whole computation for one node *)

(** The row that [calcLabels] stores for [v]: [l] are the labels found, [l'] those kept. *)
Record row_for {D} (nodes : Nodes D) (e : Edges.t) (g : DynamicGrid.t) (lab : Labels.t) (W v : Z)
    (lab' : Labels.t) (l l' : list entry) : Prop := {
  row_nodes : labelNodes lab' = <[Z.to_nat v := Some (eid <$> l')]> (labelNodes lab);
  row_edges : labelEdges lab' = <[Z.to_nat v := Some (efirst <$> l')]> (labelEdges lab);
  row_dists : labelDist lab' = <[Z.to_nat v := Some (edist <$> l')]> (labelDist lab);
  row_sorted : sorted_ids (eid <$> l');
  row_unique : forall x d ed d' ed', mkEntry x d ed ∈ l -> mkEntry x d' ed' ∈ l -> d = d' /\ ed = ed';
  row_sound : forall en, en ∈ l -> derived nodes e g lab W v (eid en) (edist en) (efirst en);
  row_own : exists d ed, mkEntry v d ed ∈ l' /\ d <= 0;
  row_direct : forall x, x ∈ upEdges nodes e g v -> reaches l (dst e x) (weight e x);
  row_over : forall x y dy, x ∈ upEdges nodes e g v -> label lab (dst e x) y dy -> reaches l y (weight e x + dy);
  row_sub : forall en, en ∈ l' -> en ∈ l;
  row_removed : forall en, en ∈ l -> en ∉ l' -> redundant lab l en;
  row_kept : forall en, en ∈ l' -> eid en <> v -> ~ redundant lab l' en;
}.

Lemma calcLabels_ok {D} (nodes : Nodes D) e g lab n W R v processed f :
  ready nodes e g lab n W R v processed -> lists_ok f ->
  alen (labelNodes lab) = n -> alen (labelEdges lab) = n -> alen (labelDist lab) = n ->
  returns (calcLabels nodes e g lab v f) (fun '(lab', f') => lists_ok f' /\
    exists l l', row_for nodes e g lab W v lab' l l').
Proof.
  intros Hready Hf L1 L2 L3. pose proof (rd_v _ _ _ _ _ _ _ _ _ Hready) as Hv. unfold calcLabels.
  eapply returns_bind; [by apply (findLabels_ok _ _ _ _ _ _ _ _ _ Hready) |].
  cbv beta. intros f1 (l & [Hst Hs] & Hown & Hdirect & Hover). unfold addLabels, removeRedundancies.
  assert (size (foundIds f1) = alen l) as Hsize by (destruct (st_ids _ _ Hst) as (_ & E & _); by rewrite alen_map in E).
  eapply returns_bind.
  { apply (hl_removeLoop_ok _ _ _ _ _ _ _ _ _ Hready l _ Hs 0 f1 l Hst);
      [split; [done | done | done] | pose proof (alen_nonneg l); lia | lia | intros; lia]. }
  cbv beta. intros f2 (l' & Hst' & Hpr & Hkept).
  rewrite (toArray_repr _ _ (st_ids _ _ Hst')), bind_ok, (toArray_repr _ _ (st_firsts _ _ Hst')), bind_ok.
  rewrite (toArray_repr _ _ (st_dists _ _ Hst')), bind_ok. unfold Labels.addLabels.
  rewrite (aset_ok (labelNodes lab)), bind_ok by lia. rewrite (aset_ok (labelEdges lab)), bind_ok by lia.
  rewrite (aset_ok (labelDist lab)), bind_ok by lia. rewrite bind_ok. ret.
  split.
  { split_and!; [by eexists; apply (st_ids _ _ Hst') | apply (st_ordered _ _ Hst')
      | by eexists; apply (st_dists _ _ Hst') | by eexists; apply (st_firsts _ _ Hst')]. }
  exists l, l'. split; try done.
  - apply (st_sorted _ _ Hst').
  - intros x d ed d' ed'. by apply (stores_unique f1 l).
  - destruct Hown as (d & ed & Hin & Hd). exists d, ed. split; [| done]. by apply (pr_own _ _ _ _ Hpr _ Hin).
  - apply (pr_sub _ _ _ _ Hpr).
  - apply (pr_removed _ _ _ _ Hpr).
Qed.

(** C29: When the upward neighbours of a node have their labels, [calcLabels] never throws and stores
    one row: sorted labels that are each derived from an upward edge and a label of that
    neighbour, none longer than the best such way, the node itself at distance 0, and from the
    labels so found exactly those removed that another label makes redundant. *)
Theorem calcLabels_row {D} (nodes : Nodes D) e g lab n W R v processed f :
  ready nodes e g lab n W R v processed -> lists_ok f ->
  alen (labelNodes lab) = n -> alen (labelEdges lab) = n -> alen (labelDist lab) = n ->
  returns (calcLabels nodes e g lab v f) (fun '(lab', f') => lists_ok f' /\
    exists l l', row_for nodes e g lab W v lab' l l').
Proof. apply calcLabels_ok. Qed.

(** ** Witness: an edge 0 - 1, node 1 on the higher level and already labelled *)

Definition pairNodes : Nodes Z := mkNodes [0; 0] [0; 0] [0; 1].
Definition pairEdges : Edges.t := Edges.mk [0; 1] [1; 0] [5; 5] 2 [] [] [] [] 2 1.
Definition pairGrid : DynamicGrid.t := DynamicGrid.mk [None; None] [0; 0] [Some [0]; Some [1]] [1; 1].
Definition pairLabels : Labels.t := Labels.mk [None; Some [1]] [None; Some [-1]] [None; Some [0]].
Definition emptyLists : found :=
  mkFound (OrderedIntSet.mk true [] 0 4) (OrderedIntSet.mk false [] 0 4) (OrderedIntSet.mk false [] 0 4).

Lemma pair_ready : ready pairNodes pairEdges pairGrid pairLabels 2 5 0 0 (fun u => u = 1).
Proof.
  assert (everEdge pairGrid 0 = [0]) as Eall by reflexivity.
  assert (upEdges pairNodes pairEdges pairGrid 0 = [0]) as Eup by reflexivity.
  assert (forall u, 0 <= u < 2 -> u = 0 \/ u = 1) as Htwo by (intros; lia).
  split; rewrite ?Eall, ?Eup; try done; try lia.
  - split; (split; [reflexivity | reflexivity |]); intros u Hu; apply Htwo in Hu as [-> | ->].
    1, 2: by left.
    all: right; eexists; (split; [reflexivity |]); vm_compute; repeat split; discriminate.
  - intros u ->. split; [lia |]. split; [lia |]. exists [1], [0]. split_and!; try reflexivity. repeat constructor.
  - intros u x dx -> (cl & cd & i & (E1 & E2 & _) & Hi & <- & <-). injection E1 as <-. injection E2 as <-.
    change (alen [1]) with 1 in Hi. assert (i = 0) as -> by lia. split; [reflexivity | vm_compute; split; discriminate].
  - intros x ->%list_elem_of_singleton. split; [reflexivity |]. vm_compute. repeat split; discriminate.
  - intros x ->%list_elem_of_singleton. split; [reflexivity |]. split; [reflexivity |]. vm_compute.
    repeat split; discriminate.
  - apply NoDup_singleton.
Qed.

Lemma empty_lists_ok : lists_ok emptyLists.
Proof.
  assert (forall b, repr (OrderedIntSet.mk b [] 0 4) []) as Hr.
  { intros b. split; [done |]. split; [done |]. exists []. split; [done |]. intros _. by exists 0%nat. }
  split; [exists []; apply (Hr true) |]. split; [done |].
  split; exists []; apply (Hr false).
Qed.

Lemma calcLabels_row_witness :
  match calcLabels pairNodes pairEdges pairGrid pairLabels 0 emptyLists with
  | Ok (lab', _) => lab' = Labels.mk [Some [0; 1]; Some [1]] [Some [-1; 0]; Some [-1]] [Some [0; 5]; Some [0]]
  | Err _ => False
  end /\
  returns (calcLabels pairNodes pairEdges pairGrid pairLabels 0 emptyLists) (fun '(lab', f') => lists_ok f' /\
    exists l l', row_for pairNodes pairEdges pairGrid pairLabels 5 0 lab' l l').
Proof.
  split; [vm_compute; reflexivity |].
  apply (calcLabels_row pairNodes pairEdges pairGrid pairLabels 2 5 0 0 (fun u => u = 1));
    [apply pair_ready | apply empty_lists_ok | reflexivity | reflexivity | reflexivity].
Defined.
