(* ===== verification/TempLabels.v ===== *)
(** * The temporary labels of the hub label router

    About [HubLRouter.calcTempLabels], which computes the labels of a node that has none: a search
    over the edges to higher nodes, as far as the nodes that have labels, and then the stored
    labels of these.  It ends, and the distances it finds are those of ways of that shape, and
    the least of them. *)

From S2P Require Import Prelude SortedArray OrderedIntSet HubLEdges HubLNodes RoutingResult HubLRouter HubLRoute HubLSamples.
From S2P Require DistanceHeap HLDijkstra IntStack DijkstraGrid.

(** ** The four arrays of a side *)

Record entry := mkEntry { eNode : Z; eDist : Z; eEdge : Z; eInfo : Z }.
#[export] Instance temp_entry_inhabited : Inhabited entry := populate (mkEntry 0 0 0 0).

Record arrays_hold (s : side) (l : list entry) : Prop := {
  ah_label : repr (label s) (eNode <$> l);
  ah_ordered : orderedBySorting (label s) = true;
  ah_dist : repr (distTo s) (eDist <$> l);
  ah_edge : repr (edgeTo s) (eEdge <$> l);
  ah_info : repr (addInfo s) (eInfo <$> l);
  ah_sorted : sorted_ids (eNode <$> l);
}.

(** The labels of a side, sorted by their nodes, have the distances of [T]. *)
Definition holds (s : side) (T : gmap Z Z) : Prop := exists l, arrays_hold s l /\
  forall x d, T !! x = Some d <-> exists e i, mkEntry x d e i ∈ l.

Lemma entry_node (l : list entry) en : en ∈ l -> eNode en ∈ eNode <$> l.
Proof. intros H. apply list_elem_of_fmap. by exists en. Qed.

Lemma same_entry (l : list entry) i j : sorted_ids (eNode <$> l) -> 0 <= i < alen l -> 0 <= j < alen l -> eNode l.[i] = eNode l.[j] -> i = j.
Proof.
  intros [Hs _] Hi Hj E. apply (sorted_at_inj (eNode <$> l)); rewrite ?HLDijkstra.alen_map; try done.
  by rewrite !(HLDijkstra.at_map eNode).
Qed.

Lemma insertLabel_ok s l x d e a p : arrays_hold s l -> 0 <= p <= alen l -> sorted_ids (insert_cell p x (eNode <$> l)) ->
  returns (insertLabel s x d e a p) (fun s' => arrays_hold s' (insert_cell p (mkEntry x d e a) l)).
Proof.
  intros [Hl Ho Hd He Ha Hs] Hp Hs'. unfold insertLabel.
  eapply returns_bind; [apply (insertAtIdx_repr _ _ _ _ Hl); by rewrite HLDijkstra.alen_map |]. cbv beta. intros l' [Hl' Ho'].
  eapply returns_bind; [apply (insertAtIdx_repr _ _ _ _ Hd); by rewrite HLDijkstra.alen_map |]. cbv beta. intros d' [Hd' _].
  eapply returns_bind; [apply (insertAtIdx_repr _ _ _ _ He); by rewrite HLDijkstra.alen_map |]. cbv beta. intros e' [He' _].
  eapply returns_bind; [apply (insertAtIdx_repr _ _ _ _ Ha); by rewrite HLDijkstra.alen_map |]. cbv beta. intros a' [Ha' _].
  ret. split; cbn; rewrite ?HLDijkstra.map_insert_cell; try done. by rewrite Ho'.
Qed.

Lemma updateLabel_ok s l d e a i : arrays_hold s l -> 0 <= i < alen l ->
  returns (updateLabel s d e a i) (fun s' => arrays_hold s' (<[Z.to_nat i := mkEntry (eNode l.[i]) d e a]> l)).
Proof.
  intros [Hl Ho Hd He Ha Hs] Hi. unfold updateLabel.
  eapply returns_bind; [apply (updateValue_repr _ _ _ _ Hd); by rewrite HLDijkstra.alen_map |]. cbv beta. intros d' [Hd' _].
  eapply returns_bind; [apply (updateValue_repr _ _ _ _ He); by rewrite HLDijkstra.alen_map |]. cbv beta. intros e' [He' _].
  eapply returns_bind; [apply (updateValue_repr _ _ _ _ Ha); by rewrite HLDijkstra.alen_map |]. cbv beta. intros a' [Ha' _].
  assert (eNode <$> <[Z.to_nat i := mkEntry (eNode l.[i]) d e a]> l = eNode <$> l) as E.
  { rewrite list_fmap_insert. cbn. rewrite <-(HLDijkstra.at_map eNode l i Hi).
    apply list_insert_id. apply at_lookup. by rewrite HLDijkstra.alen_map. }
  ret. split; cbn; rewrite ?E, ?list_fmap_insert; done.
Qed.

(** Everything the router does with a label: it is looked up; if it is there, its distance is read
    and it can be updated, otherwise it can be inserted. *)
Lemma find_label_ok s T x : holds s T -> x < MAX_VALUE -> let i := getIdx (label s) x in
  (exists d, T !! x = Some d /\ 0 <= i /\ OrderedIntSet.get (distTo s) i = Ok d /\
     forall d' e a, returns (updateLabel s d' e a i) (fun s' => holds s' (<[x := d']> T))) \/
  (T !! x = None /\ i < 0 /\ forall d e a, returns (insertLabel s x d e a (insertionPoint i)) (fun s' => holds s' (<[x := d]> T))).
Proof.
  intros (l & Hs & HT) Hx i. pose proof Hs as [Hl Ho Hd _ _ Hsorted].
  destruct (getIdx_repr _ _ x Hl Ho Hsorted Hx) as [[Hi E] | (p & E & Hp & Hn & Hs')]; fold i in E |- *.
  - left. fold i in Hi. rewrite HLDijkstra.alen_map in Hi. rewrite (HLDijkstra.at_map eNode) in E by done.
    exists (eDist l.[i]). split; [| split; [lia |]].
    + apply HT. exists (eEdge l.[i]), (eInfo l.[i]). rewrite <-E. pose proof (at_In l i Hi) as H. by destruct l.[i].
    + split; [rewrite (set_get_repr _ _ _ Hd) by (by rewrite HLDijkstra.alen_map); by rewrite (HLDijkstra.at_map eDist) |].
      intros d' e a. eapply returns_mono; [by apply updateLabel_ok |]. cbv beta. intros s' Hs'. rewrite E in Hs'.
      eexists. split; [exact Hs' |]. intros y d. rewrite lookup_insert.
      assert (forall e' a', mkEntry y d e' a' ∈ <[Z.to_nat i := mkEntry x d' e a]> l <->
        (y = x /\ mkEntry y d e' a' = mkEntry x d' e a) \/ (y <> x /\ mkEntry y d e' a' ∈ l)) as Hin.
      { intros e' a'. split.
        - intros (k & Hk & Ek)%In_at. rewrite alen_insert in Hk. rewrite at_insert in Ek by lia. case_decide as Hki.
          + left. split; [by injection Ek | by symmetry].
          + right. rewrite <-Ek. split; [| by apply at_In]. intros ->. apply Hki, (same_entry l); [done | lia | lia |]. by rewrite Ek, E.
        - intros [[-> ->] | [Hne Hy]].
          + apply (list_elem_of_lookup_2 _ (Z.to_nat i)). apply list_lookup_insert_eq. unfold alen in Hi. lia.
          + apply In_at in Hy as (k & Hk & Ek). pose proof (at_insert l i k (mkEntry x d' e a) ltac:(lia) ltac:(lia)) as Ei.
            rewrite decide_False in Ei by (intros ->; rewrite Ek in E; by cbn in E). rewrite <-Ek, <-Ei.
            apply at_In. by rewrite alen_insert. }
      setoid_rewrite Hin. case_decide as Ey.
      * subst y. split; [intros [= <-]; exists e, a; by left | intros (e' & a' & [[_ [= -> _ _]] | [? _]]); done].
      * rewrite HT. split; intros (e' & a' & H); exists e', a'; [by right | by destruct H as [[-> _] | [_ H]]].
  - right. rewrite HLDijkstra.alen_map in Hp. split.
    + apply eq_None_not_Some. intros [d (e & a & H)%HT]. by apply Hn, (entry_node l (mkEntry x d e a)).
    + split; [lia |]. intros d e a. replace (insertionPoint i) with p by (unfold insertionPoint; lia).
      eapply returns_mono; [by apply insertLabel_ok |]. cbv beta. intros s' H. eexists. split; [exact H |].
      intros y d'. rewrite lookup_insert. setoid_rewrite elem_insert_cell. case_decide as Ey.
      * subst y. split; [intros [= <-]; exists e, a; by left |]. intros (e' & a' & [[= -> _ _] | H']); [done |].
        by destruct Hn; apply (entry_node l (mkEntry x d' e' a')).
      * rewrite HT. split; intros (e' & a' & H'); exists e', a'; [by right | by destruct H' as [[= -> _ _ _] |]].
Qed.

(** ** Ways from a node without labels *)

Section search.
Context {D : Type} (nodes : HubLNodes.t D) (es : HubLEdges.t).
Notation n := (alen (levels nodes)).

Definition labelled (v : Z) : bool := hlLevel nodes <=? (levels nodes).[v].

(** The places of the edges of [v]; where the edge at a place leads, and its length. *)
Definition outgoing (v i : Z) : Prop := (edgesOffset nodes).[v] <= i < (edgesOffset nodes).[v + 1].
Definition target (i : Z) : Z := (dest es).[(HubLNodes.edges nodes).[i]].
Definition weight (i : Z) : Z := (dist es).[(HubLNodes.edges nodes).[i]].

(** The arrays are consistent; [K] bounds the number of labels of a node.  The last label belongs to
    no node. *)
Record search_data (K : Z) : Prop := {
  sd_count : n < MAX_VALUE;
  sd_edges : alen (edgesOffset nodes) = n + 1 /\ alen (dist es) = alen (dest es);
  sd_labels : alen (labelOffset nodes) = n + 1 /\ alen (labelDist nodes) = alen (labelNode nodes) /\
    alen (labelEdge nodes) = alen (labelNode nodes);
  sd_out v : 0 <= v < n -> 0 <= (edgesOffset nodes).[v] <= (edgesOffset nodes).[v + 1] /\
    (edgesOffset nodes).[v + 1] <= alen (HubLNodes.edges nodes);
  sd_edge i : 0 <= i < alen (HubLNodes.edges nodes) -> edge_id es (HubLNodes.edges nodes).[i] /\ 0 <= target i < n /\ 0 <= weight i;
  sd_row v : 0 <= v < n -> 0 <= (labelOffset nodes).[v] <= (labelOffset nodes).[v + 1] /\
    (labelOffset nodes).[v + 1] < alen (labelNode nodes) /\ (labelOffset nodes).[v + 1] - (labelOffset nodes).[v] <= K;
  sd_label i : 0 <= i < alen (labelNode nodes) - 1 -> 0 <= (labelNode nodes).[i] < n /\ 0 <= (labelDist nodes).[i];
  sd_room : 0 <= K /\ K * n <= MAX_VALUE;
}.

Context (start : Z).

(** Along edges of nodes without labels. *)
Inductive climb : Z -> Z -> Prop :=
| climb_start : climb start 0
| climb_edge u d i : climb u d -> labelled u = false -> outgoing u i -> climb (target i) (d + weight i).

(** Such a way, and then stored labels. *)
Inductive temp : Z -> Z -> Prop :=
| temp_climb x d : climb x d -> temp x d
| temp_label u d i h : temp u d -> labelled u = true -> labelAt nodes u i h -> temp h (d + (labelDist nodes).[i]).

Context (K : Z) (Hdata : search_data K) (Hstart : 0 <= start < n).
Context (Hshort : forall x d, temp x d -> d <= MAX_VALUE).

Lemma climb_bounds x d : climb x d -> 0 <= x < n /\ 0 <= d <= MAX_VALUE.
Proof.
  intros H. assert (0 <= x < n /\ 0 <= d) as [Hx Hd]; [| by apply temp_climb, Hshort in H].
  induction H as [| u d i H [Hu Hd] Hl Hi]; [done |]. destruct (sd_out K Hdata u Hu) as [[? ?] ?].
  destruct (sd_edge K Hdata i) as (_ & ? & ?); [unfold outgoing in Hi; lia | lia].
Qed.

Lemma row_label u i h : 0 <= u < n -> labelAt nodes u i h -> 0 <= i < alen (labelNode nodes) /\ 0 <= h < n /\ 0 <= (labelDist nodes).[i].
Proof.
  intros Hu [Hi <-]. destruct (sd_row K Hdata u Hu) as ([? ?] & ? & ?).
  destruct (sd_label K Hdata i) as [? ?]; lia.
Qed.

Lemma temp_bounds x d : temp x d -> 0 <= x < n /\ 0 <= d <= MAX_VALUE.
Proof.
  intros H. assert (0 <= x < n /\ 0 <= d) as [Hx Hd]; [| by apply Hshort in H].
  induction H as [x d H | u d i h H [Hu Hd] Hl Hi]; [apply climb_bounds in H; lia |].
  destruct (row_label u i h Hu Hi) as (? & ? & ?). lia.
Qed.

Lemma nodeHasLabels_ok v : 0 <= v < n -> nodeHasLabels nodes v = Ok (labelled v).
Proof. intros Hv. unfold nodeHasLabels. by rewrite aget_ok, bind_ok. Qed.

(** ** The search *)

(** The distances got better. *)
Definition improved (T T' : gmap Z Z) : Prop := forall x d, T !! x = Some d -> exists d', T' !! x = Some d' /\ d' <= d.

#[local] Instance improved_preorder : PreOrder improved.
Proof.
  split; [intros T x d Hx; exists d; by split |]. intros T1 T2 T3 H1 H2 x d Hx.
  apply H1 in Hx as (d' & Hx & ?). apply H2 in Hx as (d2 & Hx & ?). exists d2. split; [done | lia].
Qed.

Lemma insert_improved T x d : (forall d', T !! x = Some d' -> d <= d') -> improved T (<[x := d]> T).
Proof.
  intros Hle y d' Hy. destruct (decide (x = y)) as [<- | Hne].
  - exists d. rewrite lookup_insert_eq. split; [done | by apply Hle].
  - exists d'. by rewrite lookup_insert_ne.
Qed.

(** The edges of [u] before place [i] lead to nodes that have at most the distance over [u]. *)
Definition relaxed (T : gmap Z Z) (u i : Z) : Prop := forall j d, outgoing u j -> j < i -> T !! u = Some d ->
  exists d', T !! target j = Some d' /\ d' <= d + weight j.

(** The distances [T], the nodes [M] in the queue, the nodes [ML] whose labels are to be merged, and
    [m], the number of these labels, when the nodes of [popped] have been taken from the queue.
    [upto] says how far the edges of each of these have been looked at; they are not farther than
    [lo], the nodes in the queue not nearer. *)
Record searching (popped : gset Z) (lo : Z) (upto : Z -> Z) (T M ML : gmap Z Z) (m : Z) : Prop := {
  se_climb x d : T !! x = Some d -> climb x d;
  se_start : T !! start = Some 0;
  se_heap x d : M !! x = Some d -> T !! x = Some d /\ labelled x = false /\ lo <= d /\ x ∉ popped;
  se_label x d : ML !! x = Some d -> T !! x = Some d /\ labelled x = true;
  se_known x d : T !! x = Some d -> if labelled x then ML !! x = Some d else M !! x = Some d \/ x ∈ popped;
  se_popped x : x ∈ popped -> labelled x = false /\ exists d, T !! x = Some d /\ d <= lo;
  se_relaxed x : x ∈ popped -> relaxed T x (upto x);
  se_room : 0 <= m <= K * Z.of_nat (base.size ML);
}.

Lemma known_nodes (T : gmap Z Z) : (forall x d, T !! x = Some d -> 0 <= x < n) -> Z.of_nat (base.size T) <= n.
Proof.
  intros H. rewrite <-(size_dom (D := gset Z) T). change (Z.of_nat (length (base.elements (dom (D := gset Z) T))) <= n).
  apply (DijkstraGrid.nodup_length (base.elements (dom (D := gset Z) T))); [apply alen_nonneg | apply NoDup_elements |].
  apply Forall_forall. intros x Hx%elem_of_elements%elem_of_dom. destruct Hx as [d Hx]. by apply (H x d).
Qed.

(** The edges of [u] before place [i] have been looked at, and those of the nodes before it. *)
Definition lookedAt (u i x : Z) : Z := if decide (x = u) then i else (edgesOffset nodes).[x + 1].

Section edge.
Context (popped : gset Z) (u d i : Z) (T M ML : gmap Z Z) (m : Z).
Context (Hu : T !! u = Some d) (Hpop : u ∈ popped) (Hi : outgoing u i).
Context (Hse : searching popped d (lookedAt u i) T M ML m).

Lemma step_climb : climb (target i) (d + weight i).
Proof. apply (climb_edge u d i); [by apply Hse | by apply Hse | done]. Qed.

Lemma step_bounds : 0 <= target i < n /\ 0 <= d + weight i <= MAX_VALUE /\ 0 <= weight i.
Proof.
  destruct (climb_bounds _ _ step_climb) as [? ?]. destruct (climb_bounds u d) as [Hun ?]; [by apply Hse |].
  destruct (sd_out K Hdata u Hun) as [[? ?] ?]. unfold outgoing in Hi.
  destruct (sd_edge K Hdata i) as (_ & _ & ?); [lia | done].
Qed.

(** The distances after the edge at [i] was looked at. *)
Lemma relaxed_step T' : improved T T' -> (forall x, x ∈ popped -> T' !! x = T !! x) ->
  (exists d', T' !! target i = Some d' /\ d' <= d + weight i) ->
  forall x, x ∈ popped -> relaxed T' x (lookedAt u (i + 1) x).
Proof.
  intros Himp Hsame Hnew x Hx j dx Hj Hlt Hdx. rewrite Hsame in Hdx by done. pose proof (se_relaxed _ _ _ _ _ _ _ Hse x Hx) as Hr.
  unfold lookedAt in *. case_decide as Exu.
  - subst x. rewrite Hu in Hdx. injection Hdx as <-. destruct (decide (j = i)) as [-> | Hne]; [done |].
    destruct (Hr j d Hj ltac:(lia) Hu) as (d' & Hd' & ?). apply Himp in Hd' as (d2 & ? & ?). exists d2. split; [done | lia].
  - destruct (Hr j dx Hj Hlt Hdx) as (d' & Hd' & ?). apply Himp in Hd' as (d2 & ? & ?). exists d2. split; [done | lia].
Qed.

(** The node is known, and as near. *)
Lemma searching_keep prev : T !! target i = Some prev -> prev <= d + weight i ->
  searching popped d (lookedAt u (i + 1)) T M ML m.
Proof.
  intros Hy Hle. split; try apply Hse. apply relaxed_step; [done | done |]. by exists prev.
Qed.

(** Nothing that was taken from the queue gets nearer. *)
Lemma better_new : (forall prev, T !! target i = Some prev -> d + weight i < prev) -> target i ∉ popped.
Proof.
  intros Hbetter Hy. destruct step_bounds as (_ & _ & Hw).
  destruct (se_popped _ _ _ _ _ _ _ Hse _ Hy) as (_ & dy & Ey & ?). specialize (Hbetter dy Ey). lia.
Qed.

(** The node is new or farther, and goes to one of the queues. *)
Lemma searching_better m' M' ML' : (forall prev, T !! target i = Some prev -> d + weight i < prev) ->
  (if labelled (target i) then M' = M /\ ML' = <[target i := d + weight i]> ML
   else M' = <[target i := d + weight i]> M /\ ML' = ML) ->
  0 <= m' <= K * Z.of_nat (base.size ML') ->
  searching popped d (lookedAt u (i + 1)) (<[target i := d + weight i]> T) M' ML' m'.
Proof.
  intros Hbetter Hq Hm. destruct step_bounds as (Hy & Hd & Hw). pose proof step_climb as Hclimb.
  pose proof (better_new Hbetter) as Hnew. set (y := target i) in *. set (nd := d + weight i) in *.
  assert (forall x, x ∈ popped -> <[y := nd]> T !! x = T !! x) as Hsame by (intros x Hx; rewrite lookup_insert_ne; [done | by intros <-]).
  assert (improved T (<[y := nd]> T)) as Himp by (apply insert_improved; intros d' Hd'; specialize (Hbetter d' Hd'); lia).
  split.
  - intros x dx. rewrite lookup_insert. case_decide; [by intros [= <-]; subst x | apply Hse].
  - rewrite lookup_insert_ne; [apply Hse |]. intros E. pose proof (se_start _ _ _ _ _ _ _ Hse) as H0. rewrite <-E in H0.
    specialize (Hbetter 0 H0). lia.
  - intros x dx Hx. assert (x <> y -> M !! x = Some dx -> <[y := nd]> T !! x = Some dx /\ labelled x = false /\ d <= dx /\ x ∉ popped) as Hold.
    { intros Hne Hx'. rewrite lookup_insert_ne by done. by apply Hse. }
    destruct (decide (x = y)) as [-> | Hne].
    + destruct (labelled y) eqn:El; destruct Hq as [-> ->].
      * apply (se_heap _ _ _ _ _ _ _ Hse) in Hx as (_ & ? & _). congruence.
      * rewrite lookup_insert_eq in Hx |- *. injection Hx as <-. split; [done |]. split; [done |]. split; [lia | done].
    + destruct (labelled y); destruct Hq as [-> ->]; [by apply Hold | rewrite lookup_insert_ne in Hx by done; by apply Hold].
  - intros x dx Hx. destruct (decide (x = y)) as [-> | Hne].
    + destruct (labelled y) eqn:El; destruct Hq as [-> ->]; [by rewrite lookup_insert_eq in Hx |- * |].
      apply (se_label _ _ _ _ _ _ _ Hse) in Hx as [_ ?]. congruence.
    + rewrite lookup_insert_ne by done. apply (se_label _ _ _ _ _ _ _ Hse).
      destruct (labelled y); destruct Hq as [-> ->]; [by rewrite lookup_insert_ne in Hx | done].
  - intros x dx. rewrite lookup_insert. case_decide as E.
    + subst x. intros [= <-]. destruct (labelled y); destruct Hq as [-> ->]; [by rewrite lookup_insert_eq | left; by rewrite lookup_insert_eq].
    + intros Hx. pose proof (se_known _ _ _ _ _ _ _ Hse x dx Hx) as Hk.
      destruct (labelled x), (labelled y); destruct Hq as [-> ->]; rewrite ?lookup_insert_ne by done; done.
  - intros x Hx. rewrite Hsame by done. by apply Hse.
  - apply relaxed_step; [done | done |]. exists nd. by rewrite lookup_insert_eq.
  - done.
Qed.
End edge.

(** The state of the search has the distances [T]. *)
Definition search_state (popped : gset Z) (lo : Z) (upto : Z -> Z) (T : gmap Z Z) (st : search) : Prop := exists M ML,
  DistanceHeap.models (sHeap st) M /\ DistanceHeap.models (sLabelHeap st) ML /\ holds (sSide st) T /\
  searching popped lo upto T M ML (sMax st).

Lemma label_nodes popped lo upto T M ML m : searching popped lo upto T M ML m -> Z.of_nat (base.size ML) <= n.
Proof.
  intros H. apply known_nodes. intros x d [Hx _]%(se_label _ _ _ _ _ _ _ H).
  by apply (se_climb _ _ _ _ _ _ _ H), climb_bounds in Hx as [? _].
Qed.

(** A better distance goes to the queue for its node; a new node with labels is counted. *)
Lemma enqueue_ok popped u d i st T m' : search_state popped d (lookedAt u i) T st -> T !! u = Some d -> u ∈ popped -> outgoing u i ->
  (forall prev, T !! target i = Some prev -> d + weight i < prev) ->
  (m' = sMax st \/ T !! target i = None /\ labelled (target i) = true /\ sMax st <= m' <= sMax st + K) ->
  (if labelled (target i) then
     returns (DistanceHeap.add (sLabelHeap st) (target i) (d + weight i)) (fun lh => forall s, holds s (<[target i := d + weight i]> T) ->
       search_state popped d (lookedAt u (i + 1)) (<[target i := d + weight i]> T) (mkSearch (sHeap st) lh s m'))
   else returns (DistanceHeap.add (sHeap st) (target i) (d + weight i)) (fun h => forall s, holds s (<[target i := d + weight i]> T) ->
       search_state popped d (lookedAt u (i + 1)) (<[target i := d + weight i]> T) (mkSearch h (sLabelHeap st) s m'))).
Proof.
  intros (M & ML & HM & HML & _ & Hse) Hu Hpop Hi Hbetter Hm.
  destruct (step_bounds popped u d i T M ML _ Hu Hpop Hi Hse) as (Hy & _ & _). pose proof (sd_count K Hdata) as Hn.
  pose proof (se_room _ _ _ _ _ _ _ Hse) as Hroom. pose proof (sd_room K Hdata) as [HK _].
  pose proof (fun M' ML' => searching_better popped u d i T M ML _ Hu Hpop Hi Hse m' M' ML' Hbetter) as Hstep.
  destruct (labelled (target i)) eqn:El.
  - eapply returns_mono; [apply (DistanceHeap.queue_add_spec _ ML); [done | lia |] |].
    { intros d0 [H0 _]%(se_label _ _ _ _ _ _ _ Hse). specialize (Hbetter d0 H0). lia. }
    cbv beta. intros lh Hlh s Hs. exists M, (<[target i := d + weight i]> ML). split; [done |]. split; [done |]. split; [done |].
    apply Hstep; [done |]. destruct Hm as [-> | (Hnone & _ & Hm)]; cbn [sMax].
    + destruct (ML !! target i) as [x |] eqn:E.
      * rewrite map_size_insert_Some by done. lia.
      * rewrite map_size_insert_None by done. nia.
    + rewrite map_size_insert_None; [nia |]. apply eq_None_not_Some. intros [x [Hx _]%(se_label _ _ _ _ _ _ _ Hse)]. congruence.
  - destruct Hm as [-> | (_ & ? & _)]; [| done].
    eapply returns_mono; [apply (DistanceHeap.queue_add_spec _ M); [done | lia |] |].
    { intros d0 [H0 _]%(se_heap _ _ _ _ _ _ _ Hse). specialize (Hbetter d0 H0). lia. }
    cbv beta. intros h Hh s Hs. exists (<[target i := d + weight i]> M), ML. split; [done |]. split; [done |]. split; [done |].
    by apply Hstep.
Qed.

Lemma searchEdge_ok popped u d i st T : search_state popped d (lookedAt u i) T st -> T !! u = Some d -> u ∈ popped -> outgoing u i ->
  returns (searchEdge nodes es u d i st) (fun st' => exists T', search_state popped d (lookedAt u (i + 1)) T' st' /\ T' !! u = Some d).
Proof.
  intros Hst Hu Hpop Hi. pose proof Hst as (M & ML & HM & HML & HT & Hse).
  destruct (step_bounds popped u d i T M ML _ Hu Hpop Hi Hse) as (Hy & Hd & Hw).
  destruct (climb_bounds u d) as [Hun _]; [by apply Hse |]. destruct (sd_out K Hdata u Hun) as [[? ?] ?].
  pose proof Hi as Hi'. unfold outgoing in Hi'. destruct (sd_edge K Hdata i ltac:(lia)) as (He & _ & _).
  destruct (sd_edges K Hdata) as [_ Hdl]. pose proof (sd_count K Hdata) as Hn. pose proof (sd_room K Hdata) as [HK HKn].
  pose proof (better_new popped u d i T M ML _ Hu Hpop Hi Hse) as Hnew.
  unfold searchEdge, getEdge, HubLEdges.getDest, HubLEdges.getDist. unfold edge_id in He.
  rewrite (aget_ok (HubLNodes.edges nodes)), bind_ok by lia. rewrite !aget_ok, !bind_ok by lia.
  fold (target i) (weight i). cbv zeta. rewrite iadd_id by (unfold is_int, MIN_VALUE; lia).
  rewrite (nodeHasLabels_ok _ Hy).
  destruct (find_label_ok (sSide st) T (target i) HT ltac:(lia)) as [(prev & Eprev & Hidx & Eget & Hupdate) | (Enone & Hidx & Hinsert)].
  - rewrite (proj2 (Z.ltb_ge _ _)), Eget, bind_ok by done. destruct (Z.ltb_spec (d + weight i) prev) as [Hlt | Hge].
    + assert (forall p, T !! target i = Some p -> d + weight i < p) as Hbetter by (intros p Ep; congruence).
      pose proof (enqueue_ok popped u d i st T (sMax st) Hst Hu Hpop Hi Hbetter (or_introl eq_refl)) as Hq. rewrite bind_ok.
      specialize (Hnew Hbetter).
      destruct (labelled (target i)); (rewrite bind_assoc_res || idtac); (eapply returns_bind; [exact Hq |]); cbv beta; intros q Hq';
        rewrite ?bind_ok; cbn [sSide sHeap sLabelHeap sMax]; (eapply returns_bind; [apply Hupdate |]); cbv beta; intros s Hs; ret;
        eexists; (split; [by apply Hq' |]); rewrite lookup_insert_ne; [done | by intros <- | done | by intros <-].
    + ret. exists T. split; [| done]. exists M, ML. split; [done |]. split; [done |]. split; [done |]. apply (searching_keep popped u d i T M ML _ Hu Hse prev); done.
  - rewrite (proj2 (Z.ltb_lt _ _)) by done. rewrite bind_ok.
    assert (forall p, T !! target i = Some p -> d + weight i < p) as Hbetter by (intros p Ep; congruence). specialize (Hnew Hbetter).
    destruct (sd_row K Hdata _ Hy) as ([? ?] & ? & ?). destruct (sd_labels K Hdata) as (Hlo & _ & _).
    pose proof (se_room _ _ _ _ _ _ _ Hse) as Hroom. pose proof (label_nodes _ _ _ _ _ _ _ Hse) as Hsize.
    set (cnt := (labelOffset nodes).[target i + 1] - (labelOffset nodes).[target i]) in *.
    destruct (labelled (target i)) eqn:El.
    + pose proof (enqueue_ok popped u d i st T (sMax st + cnt) Hst Hu Hpop Hi Hbetter) as Hq. rewrite El in Hq.
      rewrite bind_assoc_res. eapply returns_bind; [apply Hq; right; split; [done |]; split; [done | lia] |]. cbv beta. intros lh Hq'.
      unfold getLabelOffset. rewrite !aget_ok, !bind_ok by lia. cbn [sSide sHeap sLabelHeap sMax].
      eapply returns_bind; [apply Hinsert |]. cbv beta. intros s Hs. ret. eexists. split.
      * fold cnt. assert (iadd (sMax st) cnt = sMax st + cnt) as ->; [| by apply Hq'].
        apply iadd_id. destruct (Hq' s Hs) as (M' & ML' & _ & _ & _ & Hse'). pose proof (label_nodes _ _ _ _ _ _ _ Hse').
        pose proof (se_room _ _ _ _ _ _ _ Hse') as Hr. cbn [sMax] in Hr. unfold is_int, MIN_VALUE. nia.
      * rewrite lookup_insert_ne; [done | by intros <-].
    + pose proof (enqueue_ok popped u d i st T (sMax st) Hst Hu Hpop Hi Hbetter (or_introl eq_refl)) as Hq. rewrite El in Hq.
      rewrite bind_assoc_res. eapply returns_bind; [exact Hq |]. cbv beta. intros h Hq'. rewrite bind_ok. cbn [sSide sHeap sLabelHeap sMax].
      eapply returns_bind; [apply Hinsert |]. cbv beta. intros s Hs. ret. eexists. split; [by apply Hq' |].
      rewrite lookup_insert_ne; [done | by intros <-].
Qed.

(** The edges of the node that was taken from the queue. *)
Lemma searchEdges_ok popped u d st T : search_state popped d (lookedAt u (edgesOffset nodes).[u]) T st -> T !! u = Some d -> u ∈ popped ->
  0 <= u < n ->
  returns (forRange (edgesOffset nodes).[u] (edgesOffset nodes).[u + 1] (searchEdge nodes es u d) st) (fun st' => exists T',
    search_state popped d (lookedAt u (edgesOffset nodes).[u + 1]) T' st').
Proof.
  intros Hst Hu Hpop Hun. destruct (sd_out K Hdata u Hun) as [[? ?] ?]. eapply returns_mono.
  - apply (forRange_inv (fun i st' => exists T', search_state popped d (lookedAt u i) T' st' /\ T' !! u = Some d)); [done | by exists T |].
    intros i s Hi (T' & Hs & Hu'). by apply (searchEdge_ok popped u d i s T').
  - cbv beta. intros st' (T' & Hs & _). by exists T'.
Qed.

Definition allEdges (x : Z) : Z := (edgesOffset nodes).[x + 1].

Lemma searching_next popped lo T M ML m u d : searching popped lo allEdges T M ML m -> M !! u = Some d ->
  (forall y d', M !! y = Some d' -> d <= d') ->
  searching ({[u]} ∪ popped) d (lookedAt u (edgesOffset nodes).[u]) T (delete u M) ML m.
Proof.
  intros Hse Hu Hmin. destruct (se_heap _ _ _ _ _ _ _ Hse u d Hu) as (HTu & Hlu & Hlo & Hnew). split; try apply Hse.
  - intros x dx Hx. apply lookup_delete_Some in Hx as [Hne Hx]. pose proof (Hmin x dx Hx).
    destruct (se_heap _ _ _ _ _ _ _ Hse x dx Hx) as (? & ? & _ & ?). split; [done |]. split; [done |]. split; [done | set_solver].
  - intros x dx Hx. pose proof (se_known _ _ _ _ _ _ _ Hse x dx Hx) as Hk. destruct (labelled x); [done |].
    destruct (decide (x = u)) as [-> | Hne]; [right; set_solver |]. rewrite lookup_delete_ne by done. set_solver.
  - intros x [->%elem_of_singleton | Hx]%elem_of_union; [split; [done |]; by exists d |].
    destruct (se_popped _ _ _ _ _ _ _ Hse x Hx) as (? & dx & ? & ?). split; [done |]. exists dx. split; [done | lia].
  - intros x Hx j dx Hj Hlt Hdx. unfold lookedAt in Hlt. case_decide as Exu; [subst x; unfold outgoing in Hj; lia |].
    apply (se_relaxed _ _ _ _ _ _ _ Hse x ltac:(set_solver) j dx); done.
Qed.

(** Every node is taken from the queue at most once, so that the search ends; then all edges of the
    nodes without labels have been looked at. *)
Lemma tempSearch_ok fuel : forall popped lo T st, search_state popped lo allEdges T st ->
  (forall x, x ∈ popped -> 0 <= x < n) -> n - Z.of_nat (base.size popped) < Z.of_nat fuel ->
  returns (searchLoop nodes es fuel st) (fun st' => exists popped' lo' T' ML, DistanceHeap.models (sHeap st') ∅ /\
    DistanceHeap.models (sLabelHeap st') ML /\ holds (sSide st') T' /\ searching popped' lo' allEdges T' ∅ ML (sMax st')).
Proof.
  induction fuel as [| fuel IH]; intros popped lo T st (M & ML & HM & HML & HT & Hse) Hpop Hfuel.
  { assert (Z.of_nat (base.size popped) <= n); [| lia].
    apply (DijkstraGrid.nodup_length (base.elements popped)); [apply alen_nonneg | apply NoDup_elements |].
    apply Forall_forall. intros x Hx%elem_of_elements. by apply Hpop. }
  cbn [searchLoop]. rewrite (DistanceHeap.queue_isEmpty_spec _ M HM). case_bool_decide as Hempty.
  { ret. subst M. by exists popped, lo, T, ML. }
  eapply returns_bind; [by apply (DistanceHeap.queue_getNext_spec _ M) |]. cbv beta. intros [u h] (d & Hu & Hmin & Hh). cbv beta iota zeta.
  destruct (se_heap _ _ _ _ _ _ _ Hse u d Hu) as (HTu & Hlu & _ & Hnew).
  destruct (climb_bounds u d) as [Hun _]; [by apply Hse |]. pose proof (sd_count K Hdata).
  destruct (find_label_ok (sSide st) T u HT ltac:(lia)) as [(d' & Ed & _ & Eget & _) | (? & _)]; [| congruence].
  rewrite HTu in Ed. injection Ed as <-. rewrite Eget, bind_ok. destruct (sd_edges K Hdata) as [Hoff _].
  unfold getEdgeOffset. rewrite !aget_ok, !bind_ok by lia.
  eapply returns_bind.
  { apply (searchEdges_ok ({[u]} ∪ popped) u d _ T); [| done | set_solver | done].
    exists (delete u M), ML. split; [done |]. split; [done |]. split; [done |]. by apply (searching_next popped lo). }
  cbv beta. intros st' (T' & Hst').
  apply (IH ({[u]} ∪ popped) d T').
  - destruct Hst' as (M' & ML' & ? & ? & ? & Hse'). exists M', ML'. split; [done |]. split; [done |]. split; [done |].
    split; try apply Hse'. intros x Hx j dx Hj Hlt. apply (se_relaxed _ _ _ _ _ _ _ Hse' x Hx j dx Hj).
    unfold lookedAt. case_decide; [subst x | done]. unfold allEdges in Hlt. lia.
  - intros x [->%elem_of_singleton | Hx]%elem_of_union; [done | by apply Hpop].
  - rewrite size_union by set_solver. rewrite size_singleton. lia.
Qed.

(** What the search found: the least distances of the climbs. *)
Lemma searched_least popped lo T ML m : searching popped lo allEdges T ∅ ML m ->
  forall x a, climb x a -> exists d, T !! x = Some d /\ d <= a.
Proof.
  intros Hse x a. induction 1 as [| u a i Hc (d & Hd & Hle) Hl Hi]; [exists 0; split; [apply Hse | done] |].
  pose proof (se_known _ _ _ _ _ _ _ Hse u d Hd) as Hk. rewrite Hl in Hk. destruct Hk as [Hk | Hu]; [by rewrite lookup_empty in Hk |].
  destruct (se_relaxed _ _ _ _ _ _ _ Hse u Hu i d Hi) as (d' & ? & ?); [apply Hi | done |]. exists d'. split; [done | lia].
Qed.

(** ** The stored labels *)

(** The distances [T] are those of ways. *)
Definition ways (T : gmap Z Z) : Prop := forall x d, T !! x = Some d -> temp x d.

Lemma ways_insert T x d : ways T -> temp x d -> ways (<[x := d]> T).
Proof. intros HT Hx y d'. rewrite lookup_insert. case_decide; [intros [= <-]; by subst y | apply HT]. Qed.

Lemma mergeStored_ok s T h d i : holds s T -> ways T -> temp h d -> labelled h = true ->
  (labelOffset nodes).[h] <= i < (labelOffset nodes).[h + 1] ->
  returns (mergeStored nodes h d i s) (fun s' => exists T', holds s' T' /\ ways T' /\ improved T T' /\
    exists d', T' !! (labelNode nodes).[i] = Some d' /\ d' <= d + (labelDist nodes).[i]).
Proof.
  intros HT Hw Hd Hl Hi. destruct (temp_bounds h d Hd) as [Hh _].
  assert (labelAt nodes h i (labelNode nodes).[i]) as Hat by done. destruct (row_label h i _ Hh Hat) as (Hil & Hx & _).
  pose proof (temp_label h d i _ Hd Hl Hat) as Hnew. destruct (temp_bounds _ _ Hnew) as [_ Hb].
  destruct (sd_labels K Hdata) as (_ & Hld & Hle). pose proof (sd_count K Hdata).
  unfold mergeStored, getLabelNode, getLabelDist, getLabelEdge. rewrite (aget_ok (labelNode nodes)), bind_ok by done.
  rewrite (aget_ok (labelDist nodes)), !bind_ok by lia. cbv zeta. rewrite iadd_id by (unfold is_int, MIN_VALUE; lia).
  set (x := (labelNode nodes).[i]) in *. set (nd := d + (labelDist nodes).[i]) in *.
  destruct (find_label_ok s T x HT ltac:(lia)) as [(old & Eold & Hidx & Eget & Hupdate) | (Enone & Hidx & Hinsert)].
  - rewrite (proj2 (Z.ltb_ge _ _)), Eget, bind_ok by done. destruct (Z.ltb_spec nd old).
    + rewrite (aget_ok (labelEdge nodes)), bind_ok by lia. eapply returns_mono; [apply Hupdate |]. cbv beta. intros s' Hs'.
      exists (<[x := nd]> T). split; [done |]. split; [by apply ways_insert |].
      split; [apply insert_improved; intros d' Hd'; rewrite Hd' in Eold; injection Eold; lia |].
      exists nd. by rewrite lookup_insert_eq.
    + ret. exists T. split; [done |]. split; [done |]. split; [done |]. by exists old.
  - rewrite (proj2 (Z.ltb_lt _ _)) by done. rewrite (aget_ok (labelEdge nodes)), bind_ok by lia.
    eapply returns_mono; [apply Hinsert |]. cbv beta. intros s' Hs'.
    exists (<[x := nd]> T). split; [done |]. split; [by apply ways_insert |].
    split; [apply insert_improved; congruence |]. exists nd. by rewrite lookup_insert_eq.
Qed.

(** All labels of a node. *)
Lemma mergeRow_ok s T h d : holds s T -> ways T -> temp h d -> labelled h = true -> 0 <= h < n ->
  returns (forRange (labelOffset nodes).[h] (labelOffset nodes).[h + 1] (mergeStored nodes h d) s) (fun s' => exists T',
    holds s' T' /\ ways T' /\ improved T T' /\
    forall i x, labelAt nodes h i x -> exists d', T' !! x = Some d' /\ d' <= d + (labelDist nodes).[i]).
Proof.
  intros HT Hw Hd Hl Hh. destruct (sd_row K Hdata h Hh) as ([? ?] & _ & _). eapply returns_mono.
  - apply (forRange_inv (fun j s' => exists T', holds s' T' /\ ways T' /\ improved T T' /\
      forall i, (labelOffset nodes).[h] <= i < j -> exists d', T' !! (labelNode nodes).[i] = Some d' /\ d' <= d + (labelDist nodes).[i]));
      [done | exists T; split; [done |]; split; [done |]; split; [done | lia] |].
    intros j s' Hj (T' & HT' & Hw' & Himp & Hdone). eapply returns_mono; [by apply (mergeStored_ok s' T' h d j) |]. cbv beta.
    intros s2 (T2 & HT2 & Hw2 & Himp2 & Hnew). exists T2. split; [done |]. split; [done |]. split; [by etrans |].
    intros i Hi. destruct (decide (i = j)) as [-> | Hne]; [done |].
    destruct (Hdone i ltac:(lia)) as (d' & Hd' & ?). apply Himp2 in Hd' as (d2 & ? & ?). exists d2. split; [done | lia].
  - cbv beta. intros s' (T' & ? & ? & ? & Hdone). exists T'. split; [done |]. split; [done |]. split; [done |].
    intros i x [Hi <-]. by apply Hdone.
Qed.

(** [T0] has the distances of the search; the labels of its nodes that are not in [ML] are merged. *)
Record merging (T0 T ML : gmap Z Z) : Prop := {
  mg_ways : ways T;
  mg_improved : improved T0 T;
  mg_label x : is_Some (ML !! x) -> is_Some (T0 !! x) /\ labelled x = true;
  mg_done h a i x : T0 !! h = Some a -> labelled h = true -> ML !! h = None -> labelAt nodes h i x ->
    exists d, T !! x = Some d /\ d <= a + (labelDist nodes).[i];
}.

Lemma labelLoop_ok fuel T0 : forall lh s T ML, DistanceHeap.models lh ML -> holds s T -> merging T0 T ML ->
  Z.of_nat (base.size ML) < Z.of_nat fuel ->
  returns (labelLoop nodes fuel lh s) (fun '(lh', s') => exists T', DistanceHeap.models lh' ∅ /\ holds s' T' /\ merging T0 T' ∅).
Proof.
  induction fuel as [| fuel IH]; intros lh s T ML Hlh HT Hmg Hfuel; [lia |]. cbn [labelLoop].
  rewrite (DistanceHeap.queue_isEmpty_spec _ ML Hlh). case_bool_decide as Hempty; [ret; subst ML; by exists T |].
  eapply returns_bind; [by apply (DistanceHeap.queue_getNext_spec _ ML) |]. cbv beta. intros [h lh'] (p & Hp & _ & Hlh'). cbv beta iota.
  destruct (mg_label _ _ _ Hmg h ltac:(by eexists)) as [[a Ha] Hl]. destruct (mg_improved _ _ _ Hmg h a Ha) as (d & Hd & Hda).
  pose proof (mg_ways _ _ _ Hmg h d Hd) as Hway. destruct (temp_bounds h d Hway) as [Hh _]. pose proof (sd_count K Hdata).
  destruct (find_label_ok s T h HT ltac:(lia)) as [(d' & Ed & _ & Eget & _) | (? & _)]; [| congruence].
  rewrite Hd in Ed. injection Ed as <-. rewrite Eget, bind_ok. destruct (sd_labels K Hdata) as (Hoff & _).
  unfold getLabelOffset. rewrite !aget_ok, !bind_ok by lia.
  eapply returns_bind; [by apply (mergeRow_ok s T h d); [| apply Hmg | | |] |]. cbv beta. intros s' (T' & HT' & Hw' & Himp & Hrow).
  assert (base.size (delete h ML) < base.size ML)%nat as Hsmaller.
  { rewrite map_size_delete_Some by (by eexists). assert (base.size ML <> 0%nat); [| lia]. by apply map_size_non_empty_iff. }
  apply (IH lh' s' T' (delete h ML)); [done | done | | lia]. split; [done | by etrans; [apply Hmg |] | |].
  - intros x [px Hx%lookup_delete_Some]. apply Hmg. exists px. apply Hx.
  - intros k b i x Hk Hlk Hdel Hat. apply lookup_delete_None in Hdel as [<- | Hnone].
    + rewrite Ha in Hk. injection Hk as <-. destruct (Hrow i x Hat) as (d' & ? & ?). exists d'. split; [done | lia].
    + destruct (mg_done _ _ _ Hmg k b i x Hk Hlk Hnone Hat) as (d' & Hd' & ?). apply Himp in Hd' as (d2 & ? & ?).
      exists d2. split; [done | lia].
Qed.

Lemma makeSpaceSide_ok s T m : holds s T -> 0 <= m -> returns (makeSpaceSide s m) (fun s' => holds s' T).
Proof.
  intros (l & [Hl Ho Hd He Ha Hs] & HT) Hm. unfold makeSpaceSide.
  eapply returns_bind; [by apply (makeSpace_repr _ _ m Hl) |]. cbv beta. intros l' (Hl' & Ho' & _).
  eapply returns_bind; [by apply (makeSpace_repr _ _ m Hd) |]. cbv beta. intros d' (Hd' & _).
  eapply returns_bind; [by apply (makeSpace_repr _ _ m He) |]. cbv beta. intros e' (He' & _).
  eapply returns_bind; [by apply (makeSpace_repr _ _ m Ha) |]. cbv beta. intros a' (Ha' & _).
  ret. exists l. split; [| done]. split; cbn; try done. by rewrite Ho'.
Qed.

(** ** A request *)

(** Arrays and heaps as any earlier request may have left them. *)
Record side_usable (s : side) : Prop := {
  su_label : exists l, repr (label s) l;
  su_ordered : orderedBySorting (label s) = true;
  su_dist : exists l, repr (distTo s) l;
  su_edge : exists l, repr (edgeTo s) l;
  su_info : exists l, repr (addInfo s) l;
}.

Record usable (r : t) : Prop := {
  us_left : side_usable (left r);
  us_right : side_usable (right r);
  us_heap : exists M, DistanceHeap.models (heap r) M;
  us_labelHeap : exists M, DistanceHeap.models (labelHeap r) M;
}.

Lemma clear_holds s : side_usable s -> arrays_hold (clearSide s) [].
Proof.
  intros [[l Hl] Ho [d Hd] [e He] [a Ha]].
  split; [by apply (set_repr_clear _ l) | done | by apply (set_repr_clear _ d) | by apply (set_repr_clear _ e) |
    by apply (set_repr_clear _ a) | apply sorted_ids_nil].
Qed.

Lemma holds_usable s T : holds s T -> side_usable s.
Proof. intros (l & [? ? ? ? ? ?] & _). split; [by eexists | done | by eexists ..]. Qed.

Lemma first_label_ok s : arrays_hold s [] ->
  returns (l ← insertTail (label s) start; d ← insertTail (distTo s) 0; e ← insertTail (edgeTo s) (-1); a ← insertTail (addInfo s) (-1);
           Ok (mkSide l d e a)) (fun s' => holds s' {[start := 0]}).
Proof.
  intros [Hl Ho Hd He Ha _]. pose proof (sd_count K Hdata).
  eapply returns_bind; [by apply (insertTail_repr _ _ start Hl) |]. cbv beta. intros l' (Hl' & Ho').
  eapply returns_bind; [by apply (insertTail_repr _ _ 0 Hd) |]. cbv beta. intros d' (Hd' & _).
  eapply returns_bind; [by apply (insertTail_repr _ _ (-1) He) |]. cbv beta. intros e' (He' & _).
  eapply returns_bind; [by apply (insertTail_repr _ _ (-1) Ha) |]. cbv beta. intros a' (Ha' & _).
  ret. exists [mkEntry start 0 (-1) (-1)]. split.
  - split; cbn in *; try done; [by rewrite Ho' |]. split; [repeat constructor | constructor; [lia | constructor]].
  - intros x d. setoid_rewrite list_elem_of_singleton. rewrite lookup_singleton_Some. split.
    + intros [<- <-]. by exists (-1), (-1).
    + by intros (e & a & [= -> -> _ _]).
Qed.

Lemma searching_start : labelled start = false -> searching ∅ 0 allEdges {[start := 0]} {[start := 0]} ∅ 0.
Proof.
  intros Hl. pose proof (sd_room K Hdata) as [HK _]. split.
  - intros x d [<- <-]%lookup_singleton_Some. constructor.
  - apply lookup_singleton_Some. done.
  - intros x d [<- <-]%lookup_singleton_Some. split; [by apply lookup_singleton_Some |]. split; [done |]. split; [done | set_solver].
  - intros x d Hx. by rewrite lookup_empty in Hx.
  - intros x d [<- <-]%lookup_singleton_Some. rewrite Hl. left. by apply lookup_singleton_Some.
  - intros x Hx. set_solver.
  - intros x Hx. set_solver.
  - rewrite map_size_empty. lia.
Qed.

(** What the labels of the side are worth. *)
Record exact_labels (T : gmap Z Z) : Prop := {
  el_ways x d : T !! x = Some d -> temp x d;
  el_climb x a : climb x a -> exists d, T !! x = Some d /\ d <= a;
  el_label h a i x : climb h a -> labelled h = true -> labelAt nodes h i x -> exists d, T !! x = Some d /\ d <= a + (labelDist nodes).[i];
}.

Lemma calcTempLabels_ok fuel isLeft r : usable r -> labelled start = false -> n < Z.of_nat fuel ->
  returns (calcTempLabels nodes es fuel start isLeft (reset r)) (fun r' => usable r' /\
    sideOf (negb isLeft) r' = sideOf (negb isLeft) (reset r) /\ exists T, holds (sideOf isLeft r') T /\ exact_labels T).
Proof.
  intros [Hleft Hright [M0 HM0] [ML0 HML0]] Hl Hfuel. pose proof (sd_count K Hdata).
  assert (side_usable (sideOf (negb isLeft) r)) as Hother by by destruct isLeft.
  assert (arrays_hold (sideOf isLeft (reset r)) []) as Hclear by (destruct isLeft; by apply clear_holds).
  pose proof (first_label_ok _ Hclear) as Hfirst. unfold calcTempLabels. cbv zeta.
  set (s0 := sideOf isLeft (reset r)) in *.
  destruct (insertTail (label s0) start) as [l1 |]; [| done]. rewrite bind_ok in Hfirst; rewrite bind_ok.
  destruct (insertTail (distTo s0) 0) as [d1 |]; [| done]. rewrite bind_ok in Hfirst; rewrite bind_ok.
  destruct (insertTail (edgeTo s0) (-1)) as [e1 |]; [| done]. rewrite bind_ok in Hfirst; rewrite bind_ok.
  destruct (insertTail (addInfo s0) (-1)) as [a1 |]; [| done]. rewrite bind_ok in Hfirst; rewrite bind_ok. cbn [returns] in Hfirst.
  eapply returns_bind.
  { apply (DistanceHeap.queue_add_spec _ ∅ start 0); [| lia | intros d0 Hd0; by rewrite lookup_empty in Hd0].
    apply (DistanceHeap.reset_spec _ ∅), (DistanceHeap.reset_spec _ M0 HM0). }
  cbv beta. intros h1 Hh1. rewrite insert_empty in Hh1.
  eapply returns_bind.
  { apply (tempSearch_ok fuel ∅ 0 {[start := 0]}); [| set_solver | rewrite size_empty; lia].
    exists {[start := 0]}, ∅. split; [done |]. split; [by apply (DistanceHeap.reset_spec _ ML0) |]. split; [done |].
    by apply searching_start. }
  cbv beta. intros st (popped & lo & T0 & ML & HM & HML & HT0 & Hse).
  eapply returns_bind; [apply (makeSpaceSide_ok _ T0 _ HT0), (se_room _ _ _ _ _ _ _ Hse) |]. cbv beta. intros s1 Hs1.
  eapply returns_bind.
  { apply (labelLoop_ok fuel T0 _ s1 T0 ML); [done | done | | pose proof (label_nodes _ _ _ _ _ _ _ Hse); lia]. split.
    - intros x d Hx. by apply temp_climb, (se_climb _ _ _ _ _ _ _ Hse).
    - done.
    - intros x [d Hx]. apply (se_label _ _ _ _ _ _ _ Hse) in Hx as [? ?]. split; [by exists d | done].
    - intros k a i x Hk Hlk Hnone. pose proof (se_known _ _ _ _ _ _ _ Hse k a Hk) as H0. rewrite Hlk in H0. congruence. }
  cbv beta. intros [lh s2] (T & Hlh & HT & Hmg). cbv beta iota. ret.
  pose proof (holds_usable _ _ HT) as Hus.
  assert (side_usable (sideOf (negb isLeft) (reset r))) as Hother'.
  { destruct isLeft; cbn; by apply (holds_usable _ ∅); exists []; (split; [by apply clear_holds |]); intros x d; rewrite lookup_empty;
      (split; [done |]); intros (e & a & Hin); apply elem_of_nil in Hin. }
  split; [destruct isLeft; split; try done; by eexists |]. split; [by destruct isLeft |].
  exists T. split; [by destruct isLeft |]. split.
  - apply Hmg.
  - intros x a Hx. destruct (searched_least _ _ _ _ _ Hse x a Hx) as (d & Hd & ?).
    destruct (mg_improved _ _ _ Hmg x d Hd) as (d' & ? & ?). exists d'. split; [done | lia].
  - intros k a i x Hk Hlk Hat. destruct (searched_least _ _ _ _ _ Hse k a Hk) as (d & Hd & ?).
    destruct (mg_done _ _ _ Hmg k d i x Hd Hlk (lookup_empty _) Hat) as (d' & ? & ?). exists d'. split; [done | lia].
Qed.
End search.

(** A new router is ready for a request. *)
Lemma new_usable : returns HubLRouter.new usable.
Proof.
  assert (forall b, returns (OrderedIntSet.new b 1000 1000) (fun s => repr s [] /\ orderedBySorting s = b)) as Hset.
  { intros b. pose proof (set_repr_new b 1000 1000 ltac:(lia) ltac:(lia)) as H. unfold OrderedIntSet.new in *.
    by destruct (newArray _ _); [| done]. }
  assert (returns newSide side_usable) as Hside.
  { unfold newSide. eapply returns_bind; [apply Hset |]. cbv beta. intros l [Hl Ho].
    do 3 (eapply returns_bind; [apply Hset |]; cbv beta; intros ? [? _]). ret. split; (done || by eexists). }
  unfold HubLRouter.new. do 2 (eapply returns_bind; [by apply DistanceHeap.queue_new_spec |]; cbv beta; intros ? ?).
  do 4 (eapply returns_bind; [by apply IntStack.stack_repr_new |]; cbv beta; intros ? _).
  do 2 (eapply returns_bind; [apply Hside |]; cbv beta; intros ? ?). ret. split; (done || by eexists).
Qed.

(** C12: The temporary labels of a node without labels are computed, whatever the router computed
    before: the search ends, as no node is taken from the queue twice, and nothing is thrown.
    The labels, sorted by their nodes, have the lengths of ways over edges from nodes without
    labels and then stored labels, and they are the least: for every such way without labels
    there is one that is not longer, and for every stored label at its end, too. *)
Theorem calcTempLabels_exact {D} (nodes : HubLNodes.t D) es start K fuel isLeft r :
  search_data nodes es K -> 0 <= start < alen (levels nodes) -> labelled nodes start = false ->
  (forall x d, temp nodes es start x d -> d <= MAX_VALUE) -> usable r -> alen (levels nodes) < Z.of_nat fuel ->
  returns (calcTempLabels nodes es fuel start isLeft (reset r)) (fun r' => usable r' /\
    sideOf (negb isLeft) r' = sideOf (negb isLeft) (reset r) /\ exists T, holds (sideOf isLeft r') T /\
    (forall x d, T !! x = Some d -> temp nodes es start x d) /\
    (forall x a, climb nodes es start x a -> exists d, T !! x = Some d /\ d <= a) /\
    (forall h a i x, climb nodes es start h a -> labelled nodes h = true -> labelAt nodes h i x ->
      exists d, T !! x = Some d /\ d <= a + (labelDist nodes).[i])).
Proof.
  intros Hdata Hstart Hl Hshort Hr Hfuel.
  eapply returns_mono; [by apply (calcTempLabels_ok nodes es start K) |]. cbv beta.
  intros r' (Hus & Hside & T & HT & [Hways Hclimb Hlabel]). split; [done |]. split; [done |]. by exists T.
Qed.

(** ** The predecessor of a node is overwritten

    Nodes 0 and 5 have no labels.  The search reaches node 2 from 5 over a way of length 9; by a
    stored label of node 1 it is only 8 away, so that label replaces what was recorded for 2.  Node
    3 is then reached by a stored label of node 2: to collect its edges, the router follows the
    predecessors from 2 back to 0. *)
Definition bendEdges : HubLEdges.t :=
  HubLEdges.mk [1; 5; 2; 2; 4; 3; 4; 0; 0; 5; 1; 1; 2; 3] [3; 6; 3; 5; 5; 4; 4; 3; 6; 3; 5; 5; 4; 4] 14 [].
Definition bendNodes : HubLNodes.t Z :=
  HubLNodes.mk 2 [0; 2; 3; 4; 5; 1] [] [] [0; 2; 2; 2; 2; 2; 3] [0; 1; 2]
    [0; 0; 3; 6; 8; 9; 9] [1; 2; 4; 2; 3; 4; 3; 4; 4; -1] [-1; 3; 4; -1; 5; 5; -1; 6; -1; -1] [0; 5; 5; 0; 4; 8; 0; 4; 0; -1].

(** The labels are right, and yet the router throws. *)
Example overwritten_info :
  (r ← new; r ← calcTempLabels bendNodes bendEdges 50 0 true (reset r);
   labels ← toArray (label (left r)); dists ← toArray (distTo (left r)); Ok (labels, dists))
    = Ok ([0; 1; 2; 3; 4; 5], [0; 3; 8; 12; 8; 6]) /\
  (r ← new; fst <$> route 0 (-1) lineCoordinates bendNodes bendEdges 50 7 0 3 r) = Err ArrayIndexOutOfBounds.
Proof. split; vm_compute; reflexivity. Qed.

(** ** The edges that are collected for a temporary label *)

Section collect.
Context (l : list entry) (stop : Z).

(** From the node [x] the recorded additional infos lead over the edges [up] to [y], and not over [stop]. *)
Inductive follows : Z -> list Z -> Z -> Prop :=
| follows_here x : follows x [] x
| follows_next en up y : eNode en <> stop -> en ∈ l -> follows (eInfo en) up y -> follows (eNode en) (eEdge en :: up) y.

(** The node at which a label's additional info says that the way to its node goes on. *)
Definition origin (info : Z) : Z := if info <? -1 then - (info + 2) else info.

(** What is read of a side, also when the dummy has been added. *)
Record readable (s : side) : Prop := {
  rs_label : filled (eNode <$> l) (elements (label s));
  rs_sorted : sorted_ids (eNode <$> l);
  rs_edge : repr (edgeTo s) (eEdge <$> l);
  rs_info : repr (addInfo s) (eInfo <$> l);
}.

Lemma readable_dummy isLeft r r1 : arrays_hold (sideOf isLeft r) l -> addDummy isLeft r = Ok r1 ->
  readable (sideOf isLeft r1) /\ edgesOf isLeft r1 = edgesOf isLeft r.
Proof.
  intros [Hl Ho _ He Hi Hs] H. unfold addDummy in H. apply bind_inv in H as (lb & El & [= <-]).
  pose proof (insertTail_repr _ _ MAX_VALUE Hl) as Hins. rewrite El in Hins. destruct Hins as [(_ & _ & rest & Eb & Hspare) Hob].
  rewrite Hob, Ho in Hspare. destruct (Hspare eq_refl) as [k ->]. split; [| by destruct isLeft].
  split; destruct isLeft; cbn in *; try done; exists (S k); rewrite Eb, <-app_assoc; done.
Qed.

Lemma get_negative s i : repr s [] \/ 0 <= elementCount s -> i < 0 -> OrderedIntSet.get s i = Err ArrayIndexOutOfBounds.
Proof.
  intros H Hi. assert (0 <= elementCount s) by (destruct H as [(_ & -> & _) |]; done). unfold OrderedIntSet.get.
  rewrite (proj2 (Z.leb_gt _ _)) by lia. by rewrite aget_oob by lia.
Qed.

(** One step of the loop: the entry of a node is found, or the index is negative. *)
Lemma entry_found s en : readable s -> en ∈ l -> let i := getIdx (label s) (eNode en) in
  OrderedIntSet.get (edgeTo s) i = Ok (eEdge en) /\ OrderedIntSet.get (addInfo s) i = Ok (eInfo en).
Proof.
  intros [Hl Hs He Hi] Hen. cbv zeta. unfold getIdx.
  destruct (search_member _ _ (eNode en) Hs Hl (entry_node l en Hen)) as [Hr E]. set (i := binarySearch _ _) in *.
  rewrite HLDijkstra.alen_map in Hr. rewrite (HLDijkstra.at_map eNode) in E by done.
  apply In_at in Hen as (j & Hj & <-). assert (i = j) as -> by (by apply (same_entry l)).
  rewrite (set_get_repr _ _ _ He), (set_get_repr _ _ _ Hi) by (by rewrite HLDijkstra.alen_map).
  by rewrite (HLDijkstra.at_map eEdge), (HLDijkstra.at_map eInfo).
Qed.

Lemma entry_missing s y : readable s -> y ∉ eNode <$> l -> y < MAX_VALUE -> OrderedIntSet.get (edgeTo s) (getIdx (label s) y) = Err ArrayIndexOutOfBounds.
Proof.
  intros [Hl Hs (_ & Hc & _) _] Hy Hmax. unfold getIdx. destruct (search_filled _ _ y Hs Hl Hmax) as [[Hr E] | (p & E & Hp & _)].
  - destruct Hy. rewrite <-E. by apply at_In.
  - apply get_negative; [right; rewrite Hc; apply alen_nonneg | lia].
Qed.

Lemma predecessorEdges_ok s x up y : readable s -> follows x up y -> forall fuel tmp old, IntStack.repr tmp old -> (length up < fuel)%nat ->
  if decide (y = stop) then returns (predecessorEdges fuel s x stop tmp) (fun st => IntStack.repr st (old ++ up))
  else y ∉ eNode <$> l -> y < MAX_VALUE -> predecessorEdges fuel s x stop tmp = Err ArrayIndexOutOfBounds.
Proof.
  intros Hs. induction 1 as [x | en up y Hne Hen Hf IH]; intros [| fuel] tmp old Htmp Hfuel; try (cbn in Hfuel; lia); cbn [predecessorEdges].
  - case_decide as E.
    + subst x. rewrite Z.eqb_refl. ret. by rewrite app_nil_r.
    + intros Hy Hmax. rewrite (proj2 (Z.eqb_neq _ _)) by done. by rewrite entry_missing.
  - rewrite (proj2 (Z.eqb_neq _ _)) by done. destruct (entry_found s en Hs Hen) as [-> ->]. rewrite bind_ok.
    pose proof (IntStack.push_repr tmp old (eEdge en) Htmp) as Hpush. apply returns_elim in Hpush as (tmp' & -> & Htmp'). rewrite !bind_ok.
    specialize (IH fuel tmp' _ Htmp' ltac:(cbn in Hfuel; lia)). case_decide; [by rewrite <-app_assoc in IH | done].
Qed.

Lemma moveAll_ok xs : forall fuel from to old, IntStack.repr from xs -> IntStack.repr to old -> (length xs < fuel)%nat ->
  returns (moveAll fuel from to) (fun st => IntStack.repr st (old ++ xs)).
Proof.
  induction xs as [| x xs IH]; intros [| fuel] from to old Hfrom Hto Hfuel; try (cbn in Hfuel; lia); cbn [moveAll];
    rewrite (IntStack.isEmpty_repr _ _ Hfrom).
  - rewrite bool_decide_true by done. ret. by rewrite app_nil_r.
  - rewrite bool_decide_false by done. eapply returns_bind; [by apply IntStack.popFifo_repr |]. cbv beta. intros [y from'] [-> Hfrom'].
    eapply returns_bind; [by apply IntStack.push_repr |]. cbv beta. intros to' Hto'.
    eapply returns_mono; [apply (IH fuel from' to' _ Hfrom' Hto'); cbn in Hfuel; lia |]. cbv beta. intros st Hst. by rewrite <-app_assoc in Hst.
Qed.

Lemma addEdges_ok isLeft r x up y fuel old : readable (sideOf isLeft r) -> follows x up y -> IntStack.repr (edgesOf isLeft r) old -> (length up < fuel)%nat ->
  if decide (y = stop) then exists st, addEdges fuel isLeft x stop r = Ok (setEdges isLeft r st) /\ IntStack.repr st (old ++ up)
  else y ∉ eNode <$> l -> y < MAX_VALUE -> addEdges fuel isLeft x stop r = Err ArrayIndexOutOfBounds.
Proof.
  intros Hs Hf Hold Hfuel. unfold addEdges. destruct (returns_elim _ _ (IntStack.stack_repr_new 20 ltac:(lia))) as (tmp & -> & Htmp). rewrite bind_ok.
  pose proof (predecessorEdges_ok _ _ _ _ Hs Hf fuel tmp [] Htmp Hfuel) as H. case_decide; [| intros Hy Hmax; by rewrite (H Hy Hmax)].
  apply returns_elim in H as (tmp' & -> & Htmp'). rewrite bind_ok. cbn [app] in Htmp'.
  pose proof (moveAll_ok up (S (Z.to_nat (IntStack.nextIdx tmp'))) tmp' (edgesOf isLeft r) old Htmp' Hold) as Hmove.
  apply returns_elim in Hmove as (st & -> & Hst); [rewrite bind_ok; by exists st |].
  destruct Htmp' as (_ & pre & post & _ & _ & ->). pose proof (alen_nonneg pre). unfold alen in *. lia.
Qed.
End collect.

Lemma sideOf_setEdges isLeft r st : sideOf isLeft (setEdges isLeft r st) = sideOf isLeft r.
Proof. by destruct isLeft, r. Qed.

Lemma edgesOf_setEdges isLeft r st : edgesOf isLeft (setEdges isLeft r st) = st.
Proof. by destruct isLeft, r. Qed.

Lemma setEdges_setEdges isLeft r st st' : setEdges isLeft (setEdges isLeft r st) st' = setEdges isLeft r st'.
Proof. by destruct isLeft, r. Qed.

(** C30: Which edges the router collects on the side of a node [stop] without labels, for the temporary
    label at [idx], in any state of its arrays.  A label without a predecessor gives no edge.
    Otherwise the recorded additional infos are followed from its predecessor down to [stop], over
    the edges [up]; these are appended in this order, from the upper end to [stop], although they are
    meant to be turned around.  Behind them comes the label's own edge, with the edges
    from there to the hub, only if the label was merged from the stored labels of another node
    (info below -1); for a label that the search reached itself the edge to the hub is
    missing.  When the infos lead to something that is not a node of the arrays, like the info of a
    label that was overwritten by a better stored label, the router throws. *)
Theorem tempEdges_collects {D} (nodes : HubLNodes.t D) es fuel isLeft stop idx hub r r1 l old :
  arrays_hold (sideOf isLeft r) l -> IntStack.repr (edgesOf isLeft r) old -> addDummy isLeft r = Ok r1 -> 0 <= idx < alen l ->
  let en := l.[idx] in
  (eInfo en = -1 -> tempEdges nodes es fuel isLeft stop idx hub r1 = Ok r1) /\
  forall up y, eInfo en <> -1 -> follows l stop (origin (eInfo en)) up y -> (length up < fuel)%nat ->
    (y = stop -> exists st,
      if eInfo en <? -1 then
        IntStack.repr st (old ++ up ++ [eEdge en]) /\ tempEdges nodes es fuel isLeft stop idx hub r1 =
          (d ← HubLEdges.getDest es (eEdge en); st ← getEdges nodes es (upFuel nodes) d hub st; Ok (setEdges isLeft r1 st))
      else IntStack.repr st (old ++ up) /\ tempEdges nodes es fuel isLeft stop idx hub r1 = Ok (setEdges isLeft r1 st)) /\
    (y <> stop -> y ∉ eNode <$> l -> y < MAX_VALUE -> tempEdges nodes es fuel isLeft stop idx hub r1 = Err ArrayIndexOutOfBounds).
Proof.
  intros Hl Hold Hdummy Hidx en. destruct (readable_dummy l isLeft r r1 Hl Hdummy) as [Hs Ee]. rewrite <-Ee in Hold.
  assert (OrderedIntSet.get (addInfo (sideOf isLeft r1)) idx = Ok (eInfo en) /\ OrderedIntSet.get (edgeTo (sideOf isLeft r1)) idx = Ok (eEdge en)) as [Ei Eg].
  { rewrite (set_get_repr _ _ _ (rs_info _ _ Hs)), (set_get_repr _ _ _ (rs_edge _ _ Hs)) by (by rewrite HLDijkstra.alen_map).
    by rewrite (HLDijkstra.at_map eInfo), (HLDijkstra.at_map eEdge). }
  unfold tempEdges. rewrite Ei, bind_ok. split; [by intros -> |]. intros up y Hinfo Hf Hfuel. unfold origin in Hf.
  pose proof (addEdges_ok l stop isLeft r1 _ up y fuel old Hs Hf Hold Hfuel) as Hadd. rewrite (proj2 (Z.eqb_neq _ _) Hinfo). cbn [negb].
  replace ((eInfo en + 2) * -1) with (- (eInfo en + 2)) by lia.
  destruct (eInfo en <? -1) eqn:Eneg; (split; [intros -> | intros Hy Hnot Hmax]).
  - rewrite decide_True in Hadd by done. destruct Hadd as (st & -> & Hst). rewrite bind_ok, sideOf_setEdges, edgesOf_setEdges, Eg, bind_ok.
    pose proof (IntStack.push_repr st _ (eEdge en) Hst) as Hpush. apply returns_elim in Hpush as (st' & -> & Hst'). exists st'.
    split; [by rewrite app_assoc |]. rewrite bind_ok.
    destruct (HubLEdges.getDest es (eEdge en)) as [d |]; [| done]. rewrite !bind_ok.
    destruct (getEdges _ _ _ _ _ _) as [st2 |]; [| done]. by rewrite !bind_ok, setEdges_setEdges.
  - rewrite decide_False in Hadd by done. by rewrite Hadd.
  - rewrite decide_True in Hadd by done. destruct Hadd as (st & -> & Hst). by exists st.
  - rewrite decide_False in Hadd by done. by rewrite Hadd.
Qed.

(** ** Witness *)

Lemma pair_data : search_data pairNodes pairEdges 1.
Proof.
  split; [done | done | done | | | | | by vm_compute].
  - apply (all_range_dec (fun v => (0 <= (edgesOffset pairNodes).[v] <= (edgesOffset pairNodes).[v + 1]) /\
      (edgesOffset pairNodes).[v + 1] <= alen (HubLNodes.edges pairNodes)) 0 2). by vm_compute.
  - apply (all_range_dec (fun i => (0 <= (HubLNodes.edges pairNodes).[i] < alen (dest pairEdges)) /\
      (0 <= target pairNodes pairEdges i < 2) /\ 0 <= weight pairNodes pairEdges i) 0 1). by vm_compute.
  - apply (all_range_dec (fun v => (0 <= (labelOffset pairNodes).[v] <= (labelOffset pairNodes).[v + 1]) /\
      (labelOffset pairNodes).[v + 1] < alen (labelNode pairNodes) /\ (labelOffset pairNodes).[v + 1] - (labelOffset pairNodes).[v] <= 1) 0 2).
    by vm_compute.
  - apply (all_range_dec (fun i => (0 <= (labelNode pairNodes).[i] < 2) /\ 0 <= (labelDist pairNodes).[i]) 0 1). by vm_compute.
Qed.

Lemma pair_ways x d : temp pairNodes pairEdges 0 x d -> x = 0 /\ d = 0 \/ x = 1 /\ d = 5.
Proof.
  induction 1 as [x d H | u d i h _ IH Hl [Hi <-]].
  - induction H as [| u d i _ [[-> ->] | [-> ->]] Hl Hi]; [by left | right | done].
    unfold outgoing in Hi. change (0 <= i < 1) in Hi. by replace i with 0 by lia.
  - destruct IH as [[-> ->] | [-> ->]]; [done | right].
    change (0 <= i < 1) in Hi. by replace i with 0 by lia.
Qed.

Lemma calcTempLabels_exact_witness : exists r, HubLRouter.new = Ok r /\
  returns (calcTempLabels pairNodes pairEdges 3 0 true (reset r)) (fun r' => exists T, holds (left r') T /\ T !! 1 = Some 5).
Proof.
  destruct (returns_elim _ _ new_usable) as (r & E & Hr). exists r. split; [exact E |].
  pose proof (calcTempLabels_exact pairNodes pairEdges 0 1 3 true r pair_data ltac:(done) ltac:(reflexivity)
    ltac:(intros x d [[_ ->] | [_ ->]]%pair_ways; done) Hr ltac:(reflexivity)) as H.
  eapply returns_mono; [exact H |]. intros r' (_ & _ & T & HT & Hways & Hclimb & _). exists T. split; [exact HT |].
  destruct (Hclimb 1 5) as (d & Hd & _).
  - apply (climb_edge pairNodes pairEdges 0 0 0 0); [constructor | reflexivity | done].
  - destruct (pair_ways 1 d (Hways 1 d Hd)) as [[? _] | [_ ->]]; [discriminate | exact Hd].
Defined.

(** The nodes 0 - 1 - 2 - 3 have rising levels, and only 3 has a label. *)
Definition climbEdges : HubLEdges.t := HubLEdges.mk [1; 0; 2; 1; 3; 2] [3; 3; 4; 4; 5; 5] 6 [].
Definition climbNodes : HubLNodes.t Z :=
  HubLNodes.mk 3 [0; 1; 2; 3] [] [] [0; 1; 2; 3; 3] [0; 2; 4] [0; 0; 0; 0; 1] [3; -1] [-1; -1] [0; -1].

(** The router after the temporary labels of node 0, and with the dummy. *)
Definition labelsOf (nodes : HubLNodes.t Z) (es : HubLEdges.t) : res t := r ← new; calcTempLabels nodes es 50 0 true (reset r).

(** Whether a set holds a list. *)
Definition stored_as (s : OrderedIntSet.t) (l : list Z) : bool :=
  (0 <? sizeIncrease s) && (elementCount s =? alen l) && bool_decide (take (length l) (elements s) = l) &&
  (negb (orderedBySorting s) || forallb (fun x => x =? MAX_VALUE) (drop (length l) (elements s))).

Lemma stored_repr s l : stored_as s l = true -> repr s l.
Proof.
  intros [[[Hi%Z.ltb_lt Hc%Z.eqb_eq]%andb_prop Ht%(proj1 (bool_decide_eq_true _))]%andb_prop Hspare]%andb_prop.
  split; [done |]. split; [done |]. exists (drop (length l) (elements s)).
  split; [by rewrite <-Ht at 1; rewrite take_drop |]. intros Ho. rewrite Ho in Hspare. cbn [negb orb] in Hspare.
  exists (length (drop (length l) (elements s))). symmetry. apply replicate_as_elem_of. split; [done |].
  intros y Hy%list_elem_of_In. rewrite forallb_forall in Hspare. by apply Z.eqb_eq, Hspare.
Qed.

Definition arrays_as (s : side) (l : list entry) : bool := orderedBySorting (label s) && strictly (eNode <$> l) &&
  (stored_as (label s) (eNode <$> l) && stored_as (distTo s) (eDist <$> l) && stored_as (edgeTo s) (eEdge <$> l) && stored_as (addInfo s) (eInfo <$> l)).

Lemma arrays_as_hold s l : arrays_as s l = true -> arrays_hold s l.
Proof.
  intros [[Ho Hs]%andb_prop [[[H1 H2]%andb_prop H3]%andb_prop H4]%andb_prop]%andb_prop.
  split; try done; try (by apply stored_repr). by apply strictly_sorted.
Qed.

Definition climbEntries : list entry := [mkEntry 0 0 (-1) (-1); mkEntry 1 3 0 0; mkEntry 2 7 2 1; mkEntry 3 12 4 2].
Definition bendEntries : list entry :=
  [mkEntry 0 0 (-1) (-1); mkEntry 1 3 0 0; mkEntry 2 8 3 (-3); mkEntry 3 12 5 (-4); mkEntry 4 8 4 (-3); mkEntry 5 6 1 0].

(** The router when the temporary labels of node 0 are there; nothing has been collected. *)
Definition routerOf (nodes : HubLNodes.t Z) (es : HubLEdges.t) : t := match labelsOf nodes es with Ok r => r | Err _ => lineRouter end.
Definition dummied (nodes : HubLNodes.t Z) (es : HubLEdges.t) : t := match addDummy true (routerOf nodes es) with Ok r => r | Err _ => lineRouter end.

Lemma nothing_collected st : bool_decide (0 < IntStack.sizeIncrease st /\ IntStack.fifoIdx st = 0 /\ IntStack.nextIdx st = 0) = true -> IntStack.repr st [].
Proof.
  intros (Hi & Hf & Hn)%(proj1 (bool_decide_eq_true _)). split; [done |]. exists [], (IntStack.elements st). rewrite Hf, Hn. done.
Qed.

Lemma climb_arrays : arrays_hold (left (routerOf climbNodes climbEdges)) climbEntries /\ IntStack.repr (edgesLeft (routerOf climbNodes climbEdges)) [].
Proof. split; [apply arrays_as_hold | apply nothing_collected]; vm_compute; reflexivity. Qed.

Lemma bend_arrays : arrays_hold (left (routerOf bendNodes bendEdges)) bendEntries /\ IntStack.repr (edgesLeft (routerOf bendNodes bendEdges)) [].
Proof. split; [apply arrays_as_hold | apply nothing_collected]; vm_compute; reflexivity. Qed.

(** From 0 to the hub 3: the edges 2 and 0, in this order, without the last one, 4.  In the other network the label
    of 3 goes on at node 2, whose info was overwritten. *)
Lemma tempEdges_collects_witness :
  (exists st, tempEdges climbNodes climbEdges 50 true 0 3 3 (dummied climbNodes climbEdges) = Ok (setEdges true (dummied climbNodes climbEdges) st) /\
    IntStack.repr st [2; 0]) /\
  tempEdges bendNodes bendEdges 50 true 0 3 3 (dummied bendNodes bendEdges) = Err ArrayIndexOutOfBounds.
Proof.
  split.
  - destruct climb_arrays as [Hl Hold].
    destruct (tempEdges_collects climbNodes climbEdges 50 true 0 3 3 (routerOf climbNodes climbEdges) (dummied climbNodes climbEdges)
      climbEntries [] Hl Hold ltac:(vm_compute; reflexivity) ltac:(vm_compute; split; [discriminate | reflexivity])) as [_ H].
    destruct (H [2; 0] 0) as [Hok _].
    + discriminate.
    + apply (follows_next climbEntries 0 (mkEntry 2 7 2 1)); [discriminate | right; right; left |].
      apply (follows_next climbEntries 0 (mkEntry 1 3 0 0)); [discriminate | right; left |]. constructor.
    + cbn. lia.
    + destruct (Hok eq_refl) as (st & Hst & E). exists st. split; [exact E | exact Hst].
  - destruct bend_arrays as [Hl Hold].
    destruct (tempEdges_collects bendNodes bendEdges 50 true 0 3 3 (routerOf bendNodes bendEdges) (dummied bendNodes bendEdges)
      bendEntries [] Hl Hold ltac:(vm_compute; reflexivity) ltac:(vm_compute; split; [discriminate | reflexivity])) as [_ H].
    destruct (H [3] (-3)) as [_ Hthrows].
    + discriminate.
    + apply (follows_next bendEntries 0 (mkEntry 2 8 3 (-3))); [discriminate | right; right; left |]. constructor.
    + cbn. lia.
    + apply Hthrows; [discriminate | apply (bool_decide_unpack _); vm_compute; exact I | reflexivity].
Defined.
