(* ===== verification/CHDijkstra.v ===== *)
(** * hublablecreation/CHDijkstra.java: the shortcuts of a node that is contracted

    A thread contracts the nodes it was given: from every neighbour of the node it searches the
    current graph until all neighbours are final, and records a shortcut to each neighbour whose
    shortest way goes over the node.  The nodes found are five parallel arrays, sorted by id and
    padded; entries keep what an earlier search left in the cells that are not written.  The
    graph and the edges are only read while the threads run. *)

From Stdlib Require Import Sorting.Sorted.
From S2P Require Import Prelude SortedArray IntArrayList DistanceHeap Edges DynamicGrid.

Definition INITIAL_ARRAY_SIZE : Z := 10.
Definition SIZE_INCREASE : Z := 5.
Definition MULTIPLE_STEP_NUMBER : Z := 10.

Record t := mk {
  foundIds : list Z;
  foundIdCount : Z;
  previousNodes : list Z;
  previousEdges : list Z;
  distances : list Z;
  finalDistance : list bool;
  neighbours : list Z;
  initialNode : Z;
  shortcuts : IntArrayList.t;
  heap : DistanceHeap.t;
  nodeIdsToCalc : IntArrayList.t;
}.

Definition new : res t :=
  f ← newArray 0 INITIAL_ARRAY_SIZE;
  d ← newArray 0 INITIAL_ARRAY_SIZE;
  fd ← newArray false INITIAL_ARRAY_SIZE;
  pn ← newArray 0 INITIAL_ARRAY_SIZE;
  pe ← newArray 0 INITIAL_ARRAY_SIZE;
  sc ← IntArrayList.new (INITIAL_ARRAY_SIZE * 4);
  h ← DistanceHeap.newDefault;
  ids ← IntArrayList.new 5000;
  Ok (mk f 0 pn pe d fd [] 0 sc h ids).

Definition setArrays (s : t) (f : list Z) (n : Z) (pn pe d : list Z) (fd : list bool) : t :=
  mk f n pn pe d fd (neighbours s) (initialNode s) (shortcuts s) (heap s) (nodeIdsToCalc s).
Definition setHeap (s : t) (h : DistanceHeap.t) : t :=
  mk (foundIds s) (foundIdCount s) (previousNodes s) (previousEdges s) (distances s) (finalDistance s)
     (neighbours s) (initialNode s) (shortcuts s) h (nodeIdsToCalc s).
Definition setShortcuts (s : t) (l : IntArrayList.t) : t :=
  mk (foundIds s) (foundIdCount s) (previousNodes s) (previousEdges s) (distances s) (finalDistance s)
     (neighbours s) (initialNode s) l (heap s) (nodeIdsToCalc s).
Definition setNodeIds (s : t) (l : IntArrayList.t) : t :=
  mk (foundIds s) (foundIdCount s) (previousNodes s) (previousEdges s) (distances s) (finalDistance s)
     (neighbours s) (initialNode s) (shortcuts s) (heap s) l.

Definition addNodeId (s : t) (id : Z) : res t :=
  l ← IntArrayList.add (nodeIdsToCalc s) id; Ok (setNodeIds s l).

Definition grow (s : t) : res t :=
  let oldLen := alen (foundIds s) in
  f ← copyOf 0 (foundIds s) (oldLen + SIZE_INCREASE);
  f ← fillRange f oldLen (alen f) MAX_VALUE;
  d ← copyOf 0 (distances s) (oldLen + SIZE_INCREASE);
  fd ← copyOf false (finalDistance s) (oldLen + SIZE_INCREASE);
  pn ← copyOf 0 (previousNodes s) (oldLen + SIZE_INCREASE);
  pe ← copyOf 0 (previousEdges s) (oldLen + SIZE_INCREASE);
  Ok (setArrays s f (foundIdCount s) pn pe d fd).

Definition addNodeIfNecessary (s : t) (nodeId : Z) : res (Z * t) :=
  let nodeIdx := binarySearch (foundIds s) nodeId in
  if nodeIdx <? 0 then
    s ← (if alen (foundIds s) =? foundIdCount s then grow s else Ok s);
    let nodeIdx := insertionPoint nodeIdx in
    let n := foundIdCount s in
    f ← arraycopy (foundIds s) nodeIdx (foundIds s) (nodeIdx + 1) (n - nodeIdx);
    f ← aset f nodeIdx nodeId;
    d ← arraycopy (distances s) nodeIdx (distances s) (nodeIdx + 1) (n - nodeIdx);
    fd ← arraycopy (finalDistance s) nodeIdx (finalDistance s) (nodeIdx + 1) (n - nodeIdx);
    fd ← aset fd nodeIdx false;
    d ← aset d nodeIdx (-1);
    pn ← arraycopy (previousNodes s) nodeIdx (previousNodes s) (nodeIdx + 1) (n - nodeIdx);
    pe ← arraycopy (previousEdges s) nodeIdx (previousEdges s) (nodeIdx + 1) (n - nodeIdx);
    Ok (nodeIdx, setArrays s f (n + 1) pn pe d fd)
  else Ok (nodeIdx, s).

(** [allNodesFound]: the loop returns at the first node that is not found or not final. *)
Fixpoint allNodesFound (s : t) (nodes : list Z) : res bool :=
  match nodes with
  | [] => Ok true
  | id :: nodes =>
      let idx := binarySearch (foundIds s) id in
      if idx <? 0 then Ok false else
      fin ← aget (finalDistance s) idx;
      if negb fin then Ok false else allNodesFound s nodes
  end.

Section search.
Context (e : Edges.t) (g : DynamicGrid.t).

(** The distance, the previous node and edge of the node at [destNodeIdx] are set. *)
Definition setDistance (s : t) (destNodeIdx destNode dist nodeId edgeId : Z) : res t :=
  d ← aset (distances s) destNodeIdx dist;
  pn ← aset (previousNodes s) destNodeIdx nodeId;
  pe ← aset (previousEdges s) destNodeIdx edgeId;
  h ← DistanceHeap.add (heap s) destNode dist;
  Ok (setHeap (setArrays s (foundIds s) (foundIdCount s) pn pe d (finalDistance s)) h).

(** One edge of the node that is expanded. *)
Definition expandEdge (preferredNode nodeId : Z) (edgeIds : option (list Z)) (i : Z) (s : t) : res t :=
  ids ← deref edgeIds;
  edgeId ← aget ids i;
  destNode ← Edges.getDest e edgeId;
  '(destNodeIdx, s) ← addNodeIfNecessary s destNode;
  let nodeIdx := binarySearch (foundIds s) nodeId in
  fd ← aset (finalDistance s) nodeIdx true;
  let s := setArrays s (foundIds s) (foundIdCount s) (previousNodes s) (previousEdges s) (distances s) fd in
  d ← aget (distances s) nodeIdx;
  w ← Edges.getDist e edgeId;
  let newDistance := iadd d w in
  old ← aget (distances s) destNodeIdx;
  if (old =? -1) || (newDistance <? old) then setDistance s destNodeIdx destNode newDistance nodeId edgeId
  else if (nodeId =? preferredNode) && (newDistance =? old)
  then setDistance s destNodeIdx destNode newDistance nodeId edgeId
  else Ok s.

Definition nextStep (preferredNode : Z) (s : t) : res (bool * t) :=
  if DistanceHeap.isEmpty (heap s) then Ok (false, s) else
  '(nodeId, h) ← DistanceHeap.getNext (heap s);
  let s := setHeap s h in
  edgeCount ← getCurrentEdgeCount g nodeId;
  edgeIds ← getCurrentEdges g nodeId;
  s ← forRange 0 edgeCount (expandEdge preferredNode nodeId edgeIds) s;
  Ok (true, s).

(** The loop of [multipleNextSteps], which [break]s when the heap is empty. *)
Fixpoint nextSteps (n : nat) (preferredNode : Z) (s : t) : res t :=
  match n with
  | O => Ok s
  | S n' =>
      '(more, s) ← nextStep preferredNode s;
      if (more : bool) then nextSteps n' preferredNode s else Ok s
  end.

Definition multipleNextSteps (preferredNode : Z) (s : t) : res t :=
  nextSteps (Z.to_nat MULTIPLE_STEP_NUMBER) preferredNode s.

(** The loop of [nextCalc]. *)
Fixpoint searchLoop (fuel : nat) (nodes : list Z) (preferredNode : Z) (s : t) : res t :=
  match fuel with
  | O => Err OutOfFuel
  | S fuel' =>
      found ← allNodesFound s nodes;
      if negb found && negb (DistanceHeap.isEmpty (heap s)) then
        s ← multipleNextSteps preferredNode s;
        searchLoop fuel' nodes preferredNode s
      else Ok s
  end.

(** Every iteration expands a node, so the number of nodes bounds the iterations. *)
Definition nextCalc (initial : Z) (nodes : list Z) (preferredNode : Z) (s : t) : res t :=
  let f := fill (foundIds s) MAX_VALUE in
  let d := fill (distances s) 0 in
  let h := DistanceHeap.reset (heap s) in
  f ← aset f 0 initial;
  d ← aset d 0 0;
  h ← DistanceHeap.add h initial 0;
  searchLoop (S (length (currentEdgeCount g))) nodes preferredNode
    (mk f 1 (previousNodes s) (previousEdges s) d (finalDistance s) nodes initial (shortcuts s) h (nodeIdsToCalc s)).

(** One neighbour in the loop of [addShortcuts]. *)
Definition addShortcut (nodeId nodeIdx : Z) (neighbourId : Z) (s : t) : res t :=
  let neighbourIdx := binarySearch (foundIds s) neighbourId in
  if neighbourId =? initialNode s then Ok s else
  prev ← aget (previousNodes s) neighbourIdx;
  if prev =? nodeId then
    l ← IntArrayList.add (shortcuts s) (initialNode s);
    l ← IntArrayList.add l neighbourId;
    d ← aget (distances s) neighbourIdx;
    l ← IntArrayList.add l d;
    e1 ← aget (previousEdges s) neighbourIdx;
    l ← IntArrayList.add l e1;
    e2 ← aget (previousEdges s) nodeIdx;
    l ← IntArrayList.add l e2;
    Ok (setShortcuts s l)
  else Ok s.

Definition addShortcuts (nodeId : Z) (s : t) : res t :=
  let nodeIdx := binarySearch (foundIds s) nodeId in
  if nodeIdx <? 0 then Ok s else
  prev ← aget (previousNodes s) nodeIdx;
  if negb (prev =? initialNode s) then Ok s else
  forEach (neighbours s) (addShortcut nodeId nodeIdx) s.

(** One node in the loop of [run]. *)
Definition contract (currentNode : Z) (s : t) : res t :=
  edgeCount ← getCurrentEdgeCount g currentNode;
  if edgeCount <? 2 then Ok s else
  edges ← getCurrentEdges g currentNode;
  nodes ← newArray 0 edgeCount;
  nodes ← forRange 0 edgeCount (fun i nodes =>
    ids ← deref edges; x ← aget ids i; d ← Edges.getDest e x; aset nodes i d) nodes;
  forEach nodes (fun neighbourId s =>
    s ← nextCalc neighbourId nodes currentNode s; addShortcuts currentNode s) s.

Definition run (s : t) : res t :=
  let s := setShortcuts s (IntArrayList.clear (shortcuts s)) in
  s ← forRange 0 (IntArrayList.getLen (nodeIdsToCalc s)) (fun nodeIdx s =>
    currentNode ← IntArrayList.get (nodeIdsToCalc s) nodeIdx; contract currentNode s) s;
  Ok (setNodeIds s (IntArrayList.clear (nodeIdsToCalc s))).
End search.

(** ** The parallel arrays as a finite map *)

Record info := mkInfo { idist : Z; ifin : bool; iprev : Z; iedge : Z }.

(** Cell [k] of the four arrays holds [i]. *)
Definition holdsAt (s : t) (k : Z) (i : info) : Prop :=
  (distances s).[k] = idist i /\ (finalDistance s).[k] = ifin i /\
  (previousNodes s).[k] = iprev i /\ (previousEdges s).[k] = iedge i.

(** All arrays have the length of [foundIds]. *)
Definition same_lengths (s : t) : Prop :=
  alen (distances s) = alen (foundIds s) /\ alen (finalDistance s) = alen (foundIds s) /\
  alen (previousNodes s) = alen (foundIds s) /\ alen (previousEdges s) = alen (foundIds s).

Record arrays (s : t) (ids : list Z) (N : gmap Z info) : Prop := {
  ar_lengths : same_lengths s;
  ar_sorted : sorted_ids ids;
  ar_filled : filled ids (foundIds s);
  ar_count : foundIdCount s = alen ids;
  ar_map : forall x i, N !! x = Some i <-> exists k, 0 <= k < alen ids /\ ids.[k] = x /\ holdsAt s k i;
}.

Lemma filled_le l a : filled l a -> alen l <= alen a.
Proof. intros [k ->]. rewrite alen_app. pose proof (alen_nonneg (replicate k MAX_VALUE)). lia. Qed.

Lemma arrays_room s ids N : arrays s ids N -> alen ids <= alen (foundIds s).
Proof. intros H. apply filled_le, (ar_filled _ _ _ H). Qed.

(** Searching an id finds its cell, or the cell where it belongs. *)
Lemma arrays_find s ids N x : arrays s ids N -> x < MAX_VALUE ->
  (exists i, N !! x = Some i /\ 0 <= binarySearch (foundIds s) x < alen ids /\
     ids.[binarySearch (foundIds s) x] = x /\ holdsAt s (binarySearch (foundIds s) x) i) \/
  (exists p, N !! x = None /\ binarySearch (foundIds s) x = - (p + 1) /\ 0 <= p <= alen ids /\
     sorted_ids (insert_cell p x ids) /\ x ∉ ids).
Proof.
  intros Ha Hx. destruct (search_filled ids (foundIds s) x (ar_sorted _ _ _ Ha) (ar_filled _ _ _ Ha) Hx)
    as [[Hk E] | (p & E & Hp & Hlt & Hgt)].
  - left. set (k := binarySearch (foundIds s) x) in *.
    exists (mkInfo (distances s).[k] (finalDistance s).[k] (previousNodes s).[k] (previousEdges s).[k]).
    split; [| done]. apply (ar_map _ _ _ Ha). exists k. done.
  - right. exists p. assert (x ∉ ids) as Hno by (by eapply split_not_elem).
    split; [| split; [done | split; [done | split; [| done]]]].
    + destruct (N !! x) as [i |] eqn:En; [| done]. exfalso. apply (ar_map _ _ _ Ha) in En as (k & Hk & <- & _).
      apply Hno. by apply at_In.
    + by apply sorted_insert; [apply (ar_sorted _ _ _ Ha) | ..].
Qed.

(** Writing all four cells of a known id. *)
Lemma arrays_update s ids N x k i' s' : arrays s ids N -> 0 <= k < alen ids -> ids.[k] = x ->
  foundIds s' = foundIds s -> foundIdCount s' = foundIdCount s -> same_lengths s' ->
  holdsAt s' k i' -> (forall j i, 0 <= j < alen ids -> j <> k -> holdsAt s' j i <-> holdsAt s j i) ->
  arrays s' ids (<[x := i']> N).
Proof.
  intros Ha Hk Ex Ef Ec Hl Hi Hother.
  assert (forall i j, holdsAt s' k i -> holdsAt s' k j -> i = j) as Hfun.
  { intros [] [] (? & ? & ? & ?) (? & ? & ? & ?). cbn in *. congruence. }
  split.
  - done.
  - apply (ar_sorted _ _ _ Ha).
  - rewrite Ef. apply (ar_filled _ _ _ Ha).
  - rewrite Ec. apply (ar_count _ _ _ Ha).
  - intros y i. destruct (decide (y = x)) as [-> | Hne].
    + rewrite lookup_insert_eq. split.
      * intros [= ->]. by exists k.
      * intros (j & Hj & Ey & Hh). assert (j = k) as ->.
        { apply (sorted_at_inj ids); [apply (ar_sorted _ _ _ Ha) | done | done | congruence]. }
        f_equal. by eapply Hfun.
    + rewrite lookup_insert_ne by done. rewrite (ar_map _ _ _ Ha).
      split; intros (j & Hj & Ey & Hh); exists j; (split; [done |]; split; [done |]);
        apply Hother in Hh; try done; congruence.
Qed.

(** ** Inserting a cell *)

Definition shifted {A} `{Inhabited A} (a b : list A) (m p : Z) : Prop :=
  alen b = alen a /\ forall k, 0 <= k <= m -> k <> p -> b.[k] = if decide (k < p) then a.[k] else a.[k - 1].

Lemma arraycopy_shift {A} `{Inhabited A} (a : list A) m p : 0 <= p <= m -> m < alen a ->
  returns (arraycopy a p a (p + 1) (m - p)) (fun b => shifted a b m p).
Proof.
  intros Hp Hm. rewrite arraycopy_ok by lia. ret. split; [lens |]. intros k Hk Hkp.
  case_decide as Hlt.
  - rewrite at_app_l by lens. by rewrite at_take by lia.
  - rewrite at_app_r by (rewrite alen_take; lia). rewrite alen_take by lia.
    rewrite at_app_l by lens. rewrite at_take by lia. rewrite at_drop by lia. f_equal. lia.
Qed.

Lemma shifted_set {A} `{Inhabited A} (a b : list A) m p x : shifted a b m p -> 0 <= p <= m -> m < alen a ->
  returns (aset b p x) (fun c => shifted a c m p /\ c.[p] = x).
Proof.
  intros [Hl Hb] Hp Hm. rewrite aset_ok by lia. ret. split; [split |].
  - by autorewrite with alen.
  - intros k Hk Hkp. rewrite at_insert, decide_False by lia. by apply Hb.
  - by rewrite at_insert, decide_True by lia.
Qed.

Lemma grow_arrays s ids N : arrays s ids N -> returns (grow s) (fun s' => arrays s' ids N /\
  alen ids < alen (foundIds s') /\ neighbours s' = neighbours s /\ initialNode s' = initialNode s /\
  shortcuts s' = shortcuts s /\ heap s' = heap s /\ nodeIdsToCalc s' = nodeIdsToCalc s).
Proof.
  intros Ha. pose proof (ar_lengths _ _ _ Ha) as (Ld & Lf & Lp & Le). pose proof (arrays_room _ _ _ Ha) as Hroom.
  pose proof (alen_nonneg (foundIds s)) as H0. unfold grow.
  pose proof (filled_grow ids (foundIds s) SIZE_INCREASE (ar_filled _ _ _ Ha) ltac:(unfold SIZE_INCREASE; lia)) as Hg.
  assert (forall {A} `{Inhabited A} (dflt : A) (a : list A), alen a = alen (foundIds s) ->
    returns (copyOf dflt a (alen (foundIds s) + SIZE_INCREASE)) (fun b =>
      alen b = alen (foundIds s) + SIZE_INCREASE /\ forall k, 0 <= k < alen a -> b.[k] = a.[k])) as Hcopy.
  { intros A HA dflt a Hla. unfold copyOf, SIZE_INCREASE. destruct (Z.ltb_spec (alen (foundIds s) + 5) 0); [lia |]. ret.
    rewrite take_ge by lens. split; [lens |]. intros k Hk. by rewrite at_app_l. }
  destruct (copyOf 0 (foundIds s) _) as [f |] eqn:Ef; [| done]. cbn in Hg. rewrite bind_ok.
  eapply returns_bind; [exact Hg |]. cbv beta. intros f' [Hf' Lf'].
  eapply returns_bind; [apply (Hcopy Z _ 0 (distances s) Ld) |]. cbv beta. intros d [Hd Ed].
  eapply returns_bind; [apply (Hcopy bool _ false (finalDistance s) Lf) |]. cbv beta. intros fd [Hfd Efd].
  eapply returns_bind; [apply (Hcopy Z _ 0 (previousNodes s) Lp) |]. cbv beta. intros pn [Hpn Epn].
  eapply returns_bind; [apply (Hcopy Z _ 0 (previousEdges s) Le) |]. cbv beta. intros pe [Hpe Epe]. ret.
  split; [split |].
  - unfold same_lengths. cbn. lia.
  - apply (ar_sorted _ _ _ Ha).
  - done.
  - apply (ar_count _ _ _ Ha).
  - intros x i. rewrite (ar_map _ _ _ Ha). unfold holdsAt. cbn.
    split; intros (k & Hk & Ex & H1 & H2 & H3 & H4); exists k; (split; [done |]; split; [done |]);
      rewrite ?Ed, ?Efd, ?Epn, ?Epe in * by lia; done.
  - split; [cbn; unfold SIZE_INCREASE in *; lia | done].
Qed.

(** The fields beside the arrays. *)
Definition frame (s s' : t) : Prop :=
  neighbours s' = neighbours s /\ initialNode s' = initialNode s /\ shortcuts s' = shortcuts s /\
  nodeIdsToCalc s' = nodeIdsToCalc s.

#[export] Instance frame_preorder : PreOrder frame.
Proof.
  split; [done |]. intros s1 s2 s3 (A1 & A2 & A3 & A4) (B1 & B2 & B3 & B4).
  split; [congruence |]. split; [congruence |]. split; congruence.
Qed.

Lemma at_inserted {A} `{Inhabited A} p (x : A) l : 0 <= p <= alen l -> (insert_cell p x l).[p] = x.
Proof. intros Hp. rewrite at_insert_cell by lia. by rewrite decide_False, decide_True by lia. Qed.

Lemma insert_info s s' ids N p x : arrays s ids N -> 0 <= p <= alen ids -> N !! x = None ->
  (forall k, 0 <= k <= alen ids -> k <> p -> forall i,
     holdsAt s' k i <-> holdsAt s (if decide (k < p) then k else k - 1) i) ->
  forall i0, holdsAt s' p i0 -> forall y i, <[x := i0]> N !! y = Some i <->
    exists k, 0 <= k < alen (insert_cell p x ids) /\ (insert_cell p x ids).[k] = y /\ holdsAt s' k i.
Proof.
  intros Ha Hp Hno Hother i0 Hi0 y i. rewrite alen_insert_cell. split.
  - intros Hy. destruct (decide (y = x)) as [-> | Hne].
    + rewrite lookup_insert_eq in Hy. injection Hy as <-. exists p. split; [lia |]. split; [| done].
      by rewrite at_inserted.
    + rewrite lookup_insert_ne in Hy by done. apply (ar_map _ _ _ Ha) in Hy as (k & Hk & <- & Hh).
      destruct (decide (k < p)) as [Hlt | Hge].
      * exists k. split; [lia |]. split; [by rewrite at_insert_cell, decide_True by lia |].
        apply Hother; [lia | lia |]. by rewrite decide_True.
      * exists (k + 1). split; [lia |]. split.
        -- rewrite at_insert_cell by lia. rewrite !decide_False by lia. f_equal. lia.
        -- apply Hother; [lia | lia |]. rewrite decide_False by lia. by replace (k + 1 - 1) with k by lia.
  - intros (k & Hk & Ey & Hh). destruct (decide (k = p)) as [-> | Hkp].
    + rewrite at_inserted in Ey by done. subst y. rewrite lookup_insert_eq. f_equal.
      destruct i, i0, Hi0 as (? & ? & ? & ?), Hh as (? & ? & ? & ?). cbn in *. congruence.
    + apply Hother in Hh; [| lia | done].
      assert (N !! y = Some i) as Hy.
      { apply (ar_map _ _ _ Ha). exists (if decide (k < p) then k else k - 1). split; [case_decide; lia |].
        split; [| done]. rewrite <-Ey, at_insert_cell by lia. case_decide; [done |]. by rewrite decide_False by lia. }
      rewrite lookup_insert_ne; [done |]. intros ->. congruence.
Qed.

Lemma addNode_ok s ids N x : arrays s ids N -> x < MAX_VALUE ->
  returns (addNodeIfNecessary s x) (fun '(idx, s') => exists ids' N', arrays s' ids' N' /\
    0 <= idx < alen ids' /\ ids'.[idx] = x /\ frame s s' /\ heap s' = heap s /\
    ((exists i, N !! x = Some i /\ N' = N) \/
     (N !! x = None /\ exists pn pe, N' = <[x := mkInfo (-1) false pn pe]> N))).
Proof.
  intros Ha Hx. unfold addNodeIfNecessary.
  destruct (arrays_find s ids N x Ha Hx) as [(i & Hi & Hk & Ex & Hh) | (p & Hno & E & Hp & Hsort & Hnot)].
  { destruct (Z.ltb_spec (binarySearch (foundIds s) x) 0); [lia |]. ret. exists ids, N.
    split; [done |]. split; [done |]. split; [done |]. split; [done |]. split; [done |]. left. by exists i. }
  rewrite E. destruct (Z.ltb_spec (- (p + 1)) 0); [| lia].
  replace (insertionPoint (- (p + 1))) with p by (unfold insertionPoint; lia). clear E.
  eapply (returns_bind _ _ (fun s' => arrays s' ids N /\ alen ids < alen (foundIds s') /\ frame s s' /\ heap s' = heap s)).
  { destruct (Z.eqb_spec (alen (foundIds s)) (foundIdCount s)) as [Efull | Efull].
    - eapply returns_mono; [by apply grow_arrays |]. cbv beta. intros s' (Ha' & Hlt & F1 & F2 & F3 & F4 & F5). done.
    - ret. pose proof (arrays_room _ _ _ Ha). pose proof (ar_count _ _ _ Ha). split; [done |]. split; [lia | done]. }
  cbv beta. intros s1 (Ha1 & Hlt & Hframe & Hheap). pose proof (ar_lengths _ _ _ Ha1) as (Ld & Lf & Lp & Le).
  rewrite (ar_count _ _ _ Ha1). cbv zeta. pose proof (filled_insert ids (foundIds s1) p x (ar_filled _ _ _ Ha1) Hlt Hp) as Hins.
  destruct (arraycopy (foundIds s1) p (foundIds s1) (p + 1) (alen ids - p)) as [f |]; [| done]. rewrite bind_ok in *.
  eapply returns_bind; [exact Hins |]. cbv beta. intros f' [Hf' Lf'].
  eapply returns_bind; [apply (arraycopy_shift (distances s1) (alen ids) p Hp); lia |]. cbv beta. intros d Hd.
  eapply returns_bind; [apply (arraycopy_shift (finalDistance s1) (alen ids) p Hp); lia |]. cbv beta. intros fd Hfd.
  eapply returns_bind; [apply (shifted_set _ _ _ _ false Hfd Hp); lia |]. cbv beta. intros fd' [Hfd' Efd].
  eapply returns_bind; [apply (shifted_set _ _ _ _ (-1) Hd Hp); lia |]. cbv beta. intros d' [Hd' Ed].
  eapply returns_bind; [apply (arraycopy_shift (previousNodes s1) (alen ids) p Hp); lia |]. cbv beta. intros pn Hpn.
  eapply returns_bind; [apply (arraycopy_shift (previousEdges s1) (alen ids) p Hp); lia |]. cbv beta. intros pe Hpe.
  ret. exists (insert_cell p x ids), (<[x := mkInfo (-1) false pn.[p] pe.[p]]> N).
  split; [| split; [rewrite alen_insert_cell; lia | split; [| split; [| split]]]].
  - split.
    + unfold same_lengths. cbn. destruct Hd' as [-> _], Hfd' as [-> _], Hpn as [-> _], Hpe as [-> _]. lia.
    + done.
    + done.
    + cbn. by rewrite alen_insert_cell.
    + apply (insert_info s1 _ ids N p x Ha1 Hp Hno); [| done].
      intros k Hk Hkp i. unfold holdsAt. cbn.
      destruct Hd' as [_ Hd'], Hfd' as [_ Hfd'], Hpn as [_ Hpn], Hpe as [_ Hpe].
      rewrite Hd', Hfd', Hpn, Hpe by done. by destruct (decide (k < p)).
  - by rewrite at_inserted.
  - by destruct Hframe as (? & ? & ? & ?).
  - done.
  - right. split; [done |]. by eexists _, _.
Qed.

(** What cell [k] of the arrays belongs to. *)
Lemma arrays_at s ids N k : arrays s ids N -> 0 <= k < alen ids ->
  exists i, N !! ids.[k] = Some i /\ holdsAt s k i.
Proof.
  intros Ha Hk. exists (mkInfo (distances s).[k] (finalDistance s).[k] (previousNodes s).[k] (previousEdges s).[k]).
  split; [| done]. apply (ar_map _ _ _ Ha). by exists k.
Qed.

Definition final (i : info) : info := mkInfo (idist i) true (iprev i) (iedge i).

Lemma setFinal_ok s ids N k x i : arrays s ids N -> 0 <= k < alen ids -> ids.[k] = x -> holdsAt s k i ->
  returns (aset (finalDistance s) k true) (fun fd =>
    arrays (setArrays s (foundIds s) (foundIdCount s) (previousNodes s) (previousEdges s) (distances s) fd)
      ids (<[x := final i]> N)).
Proof.
  intros Ha Hk Ex (E1 & E2 & E3 & E4). pose proof (ar_lengths _ _ _ Ha) as (Ld & Lf & Lp & Le).
  pose proof (arrays_room _ _ _ Ha). rewrite aset_ok by lia. ret.
  apply (arrays_update s ids N x k); try done.
  - unfold same_lengths. cbn. by autorewrite with alen.
  - unfold holdsAt. cbn. rewrite at_insert, decide_True by lia. done.
  - intros j i' Hj Hne. unfold holdsAt. cbn. by rewrite at_insert, decide_False by lia.
Qed.

Lemma setDistance_ok s ids N M k y j d v x : arrays s ids N -> 0 <= k < alen ids -> ids.[k] = y -> holdsAt s k j ->
  DistanceHeap.models (heap s) M -> (forall d0, M !! y = Some d0 -> d <= d0) -> y < MAX_VALUE ->
  returns (setDistance s k y d v x) (fun s' => arrays s' ids (<[y := mkInfo d (ifin j) v x]> N) /\
    DistanceHeap.models (heap s') (<[y := d]> M) /\ frame s s').
Proof.
  intros Ha Hk Ey (E1 & E2 & E3 & E4) Hm Hle Hy. pose proof (ar_lengths _ _ _ Ha) as (Ld & Lf & Lp & Le).
  pose proof (arrays_room _ _ _ Ha). unfold setDistance.
  rewrite (aset_ok (distances s)), bind_ok by lia. rewrite (aset_ok (previousNodes s)), bind_ok by lia.
  rewrite (aset_ok (previousEdges s)), bind_ok by lia.
  eapply returns_bind; [by apply (DistanceHeap.queue_add_spec _ M)|]. cbv beta. intros h Hh. ret.
  split; [| done]. apply (arrays_update s ids N y k); try done.
  - unfold same_lengths. cbn. by autorewrite with alen.
  - unfold holdsAt. cbn. rewrite !at_insert, !decide_True by lia. done.
  - intros j' i' Hj Hne. unfold holdsAt. cbn. by rewrite !at_insert, !decide_False by lia.
Qed.
