(* ===== verification/CHSearch.v ===== *)
(** * What a thread that contracts nodes computes

    The search of [CHDijkstra.nextCalc] is Dijkstra's algorithm, stopped when the neighbours of
    the contracted node are final: the nodes closed so far are known with their distances, ties
    go to the way over the preferred node.  A shortcut is recorded exactly when no walk is
    shorter than the two edges over the node. *)

From Stdlib Require Import Sorting.Sorted.
From S2P Require Import Prelude SortedArray IntArrayList DistanceHeap Edges DynamicGrid CHDijkstra.

(** ** Walks and the invariant of the search *)

Section proofs.
Context (e : Edges.t) (g : DynamicGrid.t) (n W Emax : Z).
Notation dst := (dst e).
Notation weight := (weight e).

(** A walk over current edges, with its length. *)
Inductive cwalk (a : Z) : Z -> Z -> Prop :=
| cw_here : cwalk a a 0
| cw_step u d x : cwalk a u d -> x ∈ current g u -> cwalk a (dst x) (d + weight x).

(** A simple symmetric graph with positive distances, whose shortest ways fit into an int. *)
Record searchable : Prop := {
  sb_grid : grid_ok g n;
  sb_count : n < MAX_VALUE;
  sb_edge : forall u x, 0 <= u < n -> x ∈ current g u ->
    Edges.getDest e x = Ok (dst x) /\ Edges.getDist e x = Ok (weight x) /\
    0 <= dst x < n /\ dst x <> u /\ 0 < weight x <= W;
  sb_simple : forall u, 0 <= u < n -> NoDup (dst <$> current g u);
  sb_back : forall u x, 0 <= u < n -> x ∈ current g u ->
    exists y, y ∈ current g (dst x) /\ dst y = u /\ weight y = weight x;
  sb_bound : forall a u d, 0 <= a < n -> cwalk a u d -> exists d', cwalk a u d' /\ d' <= Emax;
  sb_room : 0 <= W /\ Emax + W < MAX_VALUE;
}.
Context (Hg : searchable).

Lemma cwalk_node a u d : 0 <= a < n -> cwalk a u d -> 0 <= u < n /\ 0 <= d.
Proof.
  intros Ha. induction 1 as [| u d x Hw IH Hx]; [lia |].
  destruct IH as [Hu Hd]. pose proof (sb_edge Hg u x Hu Hx). lia.
Qed.

Lemma cwalk_trans a u v d d' : cwalk a u d -> cwalk u v d' -> cwalk a v (d + d').
Proof.
  intros H. induction 1 as [| w d' x Hw IH Hx]; [by rewrite Z.add_0_r |].
  rewrite Z.add_assoc. by apply (cw_step _ w).
Qed.

Lemma cwalk_edge u x : x ∈ current g u -> cwalk u (dst x) (weight x).
Proof. intros Hx. apply (cw_step u u 0 x (cw_here u) Hx). Qed.

Section from.
Context (a p : Z) (Ha : 0 <= a < n).

(** The expanded node [u] with the information [i] has offered its edge [x]: the node behind it
    is known and not further than over [x]; when it is exactly as far, its predecessor is the
    preferred node if that is [u], and otherwise the start if that is [u]. *)
Definition relaxed (N : gmap Z info) (u : Z) (i : info) (x : Z) : Prop :=
  exists j, N !! dst x = Some j /\ idist j <= idist i + weight x /\
    (u = p -> idist j = idist i + weight x -> iprev j = p) /\
    (u = a -> idist j = idist i + weight x -> iprev j = a \/ iprev j = p).

(** [N] are the nodes found, [M] the heap, [C] the nodes expanded; [R] says which edges have been
    offered and [F] whose final flags are up to date. *)
Record inv (s : t) (N : gmap Z info) (M : gmap Z Z) (C : gset Z) (R : Z -> Z -> Prop) (F : Z -> Prop) : Prop := {
  iv_arrays : exists ids, arrays s ids N;
  iv_heap : DistanceHeap.models (heap s) M;
  iv_open : forall x d, M !! x = Some d <-> exists i, N !! x = Some i /\ idist i = d /\ x ∉ C;
  iv_closed : forall x, x ∈ C -> is_Some (N !! x);
  iv_final : forall x i, N !! x = Some i -> x <> a -> F x -> ifin i = bool_decide (x ∈ C);
  iv_sound : forall x i, N !! x = Some i -> cwalk a x (idist i);
  iv_short : forall x i d, N !! x = Some i -> x ∈ C -> cwalk a x d -> idist i <= d;
  iv_start : exists i, N !! a = Some i /\ idist i = 0;
  iv_first : a ∈ C \/ (C = ∅ /\ forall x, is_Some (N !! x) -> x = a);
  iv_prev : forall x i, N !! x = Some i -> x <> a -> iprev i ∈ C /\ iedge i ∈ current g (iprev i) /\
    dst (iedge i) = x /\ exists j, N !! iprev i = Some j /\ idist i = idist j + weight (iedge i);
  iv_mono : forall u v i j, u ∈ C -> v ∉ C -> N !! u = Some i -> N !! v = Some j -> idist i <= idist j;
  iv_relax : forall u i x, u ∈ C -> N !! u = Some i -> x ∈ current g u -> R u x -> relaxed N u i x;
}.

Definition settled (s : t) (N : gmap Z info) (M : gmap Z Z) (C : gset Z) : Prop :=
  inv s N M C (fun _ _ => True) (fun _ => True).

Lemma inv_range s N M C R F x i : inv s N M C R F -> N !! x = Some i -> 0 <= x < n /\ 0 <= idist i.
Proof. intros Hi Hx. apply (cwalk_node a); [done |]. by apply (iv_sound _ _ _ _ _ _ Hi). Qed.

(** A walk leads to an expanded node, or has passed a node that is still open. *)
Lemma walk_reaches s N M C x d : settled s N M C -> cwalk a x d ->
  (x ∈ C /\ exists i, N !! x = Some i /\ idist i <= d) \/
  (exists y j, N !! y = Some j /\ y ∉ C /\ idist j <= d).
Proof.
  intros Hi Hw. pose proof (fun u d H => cwalk_node a u d Ha H) as Hnode.
  induction Hw as [| u d x Hw IH Hx].
  - destruct (iv_start _ _ _ _ _ _ Hi) as (i & Hia & Hd).
    destruct (decide (a ∈ C)); [left | right; exists a]; eauto with lia.
  - destruct (Hnode _ _ Hw) as [Hu Hd]. pose proof (sb_edge Hg u x Hu Hx) as (_ & _ & _ & _ & Hpos).
    destruct IH as [(HuC & i & Hui & Hle) | (y & j & Hy & HyC & Hle)].
    + destruct (iv_relax _ _ _ _ _ _ Hi u i x HuC Hui Hx I) as (j & Hj & Hjd & _).
      destruct (decide (dst x ∈ C)); [left; split; [done |] | right; exists (dst x)]; exists j;
        (split; [done |]); [lia |]. split; [done | lia].
    + right. exists y, j. split; [done |]. split; [done | lia].
Qed.

Lemma open_is_shortest s N M C v i : settled s N M C -> N !! v = Some i -> v ∉ C ->
  (forall y j, N !! y = Some j -> y ∉ C -> idist i <= idist j) -> forall d, cwalk a v d -> idist i <= d.
Proof.
  intros Hi Hv HvC Hmin d Hw.
  destruct (walk_reaches _ _ _ _ _ _ Hi Hw) as [[? _] | (y & j & Hy & HyC & Hle)]; [done |].
  specialize (Hmin y j Hy HyC). lia.
Qed.

(** When nothing is open, everything that can be reached is expanded. *)
Lemma exhausted s N C x d : settled s N ∅ C -> cwalk a x d -> x ∈ C.
Proof.
  intros Hi Hw. destruct (walk_reaches _ _ _ _ _ _ Hi Hw) as [[? _] | (y & j & Hy & HyC & _)]; [done |].
  exfalso. assert ((∅ : gmap Z Z) !! y = Some (idist j)) as Hbad.
  { apply (iv_open _ _ _ _ _ _ Hi). by exists j. }
  by rewrite lookup_empty in Hbad.
Qed.

(** ** One step *)

(** What offering edge [x] of [v] does: the distance [d] over it is written, or what was known
    is kept. *)
Definition improves (N : gmap Z info) (v d y : Z) : Prop :=
  match N !! y with Some j => d < idist j \/ (v = p /\ d = idist j) | None => True end.

#[local] Instance improves_dec N v d y : Decision (improves N v d y).
Proof. unfold improves. destruct (N !! y); apply _. Defined.

Definition offered (N N' : gmap Z info) (M M' : gmap Z Z) (v x : Z) (iv : info) : Prop :=
  let d := idist iv + weight x in
  (improves N v d (dst x) /\ M' = <[dst x := d]> M /\
     N' = <[dst x := mkInfo d (from_option ifin false (N !! dst x)) v x]> (<[v := final iv]> N)) \/
  (~ improves N v d (dst x) /\ M' = M /\ N' = <[v := final iv]> N).

Lemma offer_ok s ids N M v x iv edgeIds k : arrays s ids N -> DistanceHeap.models (heap s) M ->
  (forall y d, M !! y = Some d -> exists i, N !! y = Some i /\ idist i = d) ->
  (forall y i, N !! y = Some i -> 0 <= idist i) ->
  N !! v = Some iv -> 0 <= v < n -> x ∈ current g v ->
  (ids ← deref edgeIds; aget ids k) = Ok x -> idist iv <= Emax ->
  returns (expandEdge e p v edgeIds k s) (fun s' => frame s s' /\ exists ids' N' M',
    arrays s' ids' N' /\ DistanceHeap.models (heap s') M' /\ offered N N' M M' v x iv).
Proof.
  intros Hs Hm HM Hnn Hv Hvn Hx Hedge Hmax. pose proof (sb_edge Hg v x Hvn Hx) as (Ed & Ew & Hy & Hyv & Hw).
  pose proof (sb_room Hg) as [HW HE]. pose proof (sb_count Hg) as Hn. pose proof (Hnn v iv Hv) as Hiv.
  unfold expandEdge. destruct edgeIds as [l |]; [| done]. cbn [deref] in *. rewrite bind_ok in Hedge.
  rewrite bind_ok, Hedge, bind_ok, Ed, bind_ok. set (y := dst x) in *. set (d := idist iv + weight x).
  eapply returns_bind; [by apply (addNode_ok s ids N y Hs); lia |]. cbv beta.
  intros [idx s1] (ids' & N1 & Hs1 & Hidx & Eidx & Hfr & Hheap & HN1).
  assert (N1 !! v = Some iv) as Hv1.
  { destruct HN1 as [(i & _ & ->) | (_ & pn & pe & ->)]; [done |]. by rewrite lookup_insert_ne. }
  destruct (arrays_find s1 ids' N1 v Hs1 ltac:(lia)) as [(i & Hi & Hk & Ek & Hh) | (q & Hno & _)]; [| congruence].
  assert (i = iv) as -> by congruence. cbv zeta. set (nodeIdx := binarySearch (foundIds s1) v) in *.
  eapply returns_bind; [by apply (setFinal_ok s1 ids' N1 nodeIdx v iv) |]. cbv beta. intros fd Hs2.
  set (s2 := setArrays s1 _ _ _ _ _ fd) in *. change (distances s2) with (distances s1).
  pose proof (ar_lengths _ _ _ Hs1) as (Ld & _). pose proof (arrays_room _ _ _ Hs1).
  rewrite (aget_ok (distances s1) nodeIdx), bind_ok by lia. rewrite Ew, bind_ok.
  rewrite (aget_ok (distances s1) idx), bind_ok by lia. destruct Hh as [-> _].
  rewrite iadd_id by (unfold is_int, MIN_VALUE; lia). fold d.
  destruct (arrays_at _ _ _ idx Hs2 Hidx) as (j & Hj & Hjh). rewrite Eidx in Hj.
  rewrite lookup_insert_ne in Hj by done. pose proof Hjh as [Ejd _]. cbn in Ejd. rewrite Ejd.
  assert (Hfr2 : frame s s2) by (destruct Hfr as (? & ? & ? & ?); done).
  assert (Hset : improves N v d y -> ifin j = from_option ifin false (N !! y) ->
    <[y := mkInfo d (ifin j) v x]> (<[v := final iv]> N1) =
      <[y := mkInfo d (from_option ifin false (N !! y)) v x]> (<[v := final iv]> N)).
  { intros _ ->. destruct HN1 as [(i & _ & ->) | (_ & pn & pe & ->)]; [done |].
    rewrite (insert_insert_ne _ v y) by done. by rewrite insert_insert_eq. }
  assert (Hdone : improves N v d y -> ifin j = from_option ifin false (N !! y) ->
    returns (setDistance s2 idx y d v x) (fun s' => frame s s' /\ exists ids' N' M',
      arrays s' ids' N' /\ DistanceHeap.models (heap s') M' /\ offered N N' M M' v x iv)).
  { intros Himp Hfin. eapply returns_mono.
    - apply (setDistance_ok s2 ids' _ M idx y j d v x Hs2 Hidx Eidx Hjh); [cbn; by rewrite Hheap | | lia].
      intros d0 Hd0. apply HM in Hd0 as (j0 & Hj0 & <-). unfold improves in Himp. rewrite Hj0 in Himp. lia.
    - cbv beta. intros s' (Hs' & Hm' & Hfr'). split; [by etrans |]. eexists ids', _, _.
      split; [exact Hs' |]. split; [exact Hm' |]. left. split; [done |]. split; [done |]. by apply Hset. }
  destruct HN1 as [(i & Hi1 & ->) | (Hno & pn & pe & ->)].
  - assert (i = j) as -> by congruence. pose proof (Hnn y j Hi1) as Hj0.
    unfold improves in Hdone. rewrite Hi1 in Hdone. cbn in Hdone.
    destruct (Z.eqb_spec (idist j) (-1)); [lia |]. destruct (Z.ltb_spec d (idist j)); cbn; [by apply Hdone; [left |] |].
    destruct (Z.eqb_spec v p); cbn; [destruct (Z.eqb_spec d (idist j)); cbn; [by apply Hdone; [right |] |] |].
    all: ret; (split; [done |]); eexists ids', _, M; (split; [exact Hs2 |]);
      (split; [cbn; by rewrite Hheap |]); right; (split; [| done]); unfold improves; fold y; rewrite Hi1; fold d; lia.
  - rewrite lookup_insert_eq in Hj. injection Hj as <-. cbn. apply Hdone; [unfold improves; by rewrite Hno | by rewrite Hno].
Qed.

(** Offering an edge turns the final flag of [v] on and leaves everything else of a node that is
    not improved. *)
Definition mark (v z : Z) (i : info) : info := if decide (z = v) then final i else i.

Lemma mark_same v z i : idist (mark v z i) = idist i /\ iprev (mark v z i) = iprev i /\ iedge (mark v z i) = iedge i.
Proof. unfold mark. by case_decide. Qed.

(** Between the edges of [v]: the first [k] have been offered. *)
Record stepping (k : Z) (s : t) (N : gmap Z info) (M : gmap Z Z) (C : gset Z) (v : Z) : Prop := {
  sp_inv : inv s N M ({[v]} ∪ C) (fun u x => u <> v \/ x ∈ take (Z.to_nat k) (current g v)) (fun z => z <> v \/ 0 < k);
  sp_found : is_Some (N !! v);
  sp_last : forall u i iv, u ∈ {[v]} ∪ C -> N !! u = Some i -> N !! v = Some iv -> idist i <= idist iv;
  sp_root : v = a -> forall z, is_Some (N !! z) -> z = a \/ z ∈ dst <$> take (Z.to_nat k) (current g v);
  sp_start : a ∈ {[v]} ∪ C;
}.

Section offering.
Context (s : t) (N N' : gmap Z info) (M M' : gmap Z Z) (C : gset Z) (v x k : Z) (iv : info).
Notation C' := ({[v]} ∪ C).
Notation d := (idist iv + weight x).
Context (Hs : stepping k s N M C v) (Hiv : N !! v = Some iv) (Hk : 0 <= k < alen (current g v)).
Context (Ex : (current g v).[k] = x) (Hoff : offered N N' M M' v x iv).

Lemma offered_edge : 0 <= v < n /\ x ∈ current g v /\ 0 < weight x /\ dst x <> v /\ 0 <= dst x < n.
Proof.
  destruct (inv_range _ _ _ _ _ _ _ _ (sp_inv _ _ _ _ _ _ Hs) Hiv) as [Hv _].
  assert (x ∈ current g v) as Hx by (rewrite <-Ex; by apply at_In).
  pose proof (sb_edge Hg v x Hv Hx) as (_ & _ & ? & ? & ?). split; [done |]. split; [done |]. lia.
Qed.

(** A closed node is not improved. *)
Lemma closed_kept z : z ∈ C' -> dst x = z -> ~ improves N v d z.
Proof.
  intros Hz Ez. pose proof offered_edge as (_ & _ & Hw & _).
  destruct (iv_closed _ _ _ _ _ _ (sp_inv _ _ _ _ _ _ Hs) z Hz) as [j Hj].
  pose proof (sp_last _ _ _ _ _ _ Hs z j iv Hz Hj Hiv). unfold improves. rewrite Hj. lia.
Qed.

Notation new := (mkInfo d (from_option ifin false (N !! dst x)) v x).

(** The information of a node after the offer. *)
Lemma offered_old z i : N !! z = Some i -> ~ (dst x = z /\ improves N v d z) -> N' !! z = Some (mark v z i).
Proof.
  intros Hz Hno. pose proof offered_edge as (_ & _ & _ & Hne & _).
  assert (<[v := final iv]> N !! z = Some (mark v z i)) as Hv.
  { unfold mark. destruct (decide (z = v)) as [-> | Hzv]; [rewrite lookup_insert_eq; congruence |].
    by rewrite lookup_insert_ne. }
  destruct Hoff as [(Hi & _ & ->) | (_ & _ & ->)]; [| done].
  rewrite lookup_insert_ne; [done |]. intros <-. by apply Hno.
Qed.

Lemma offered_cases z i' : N' !! z = Some i' ->
  (dst x = z /\ improves N v d z /\ i' = new) \/
  (~ (dst x = z /\ improves N v d z) /\ exists i, N !! z = Some i /\ i' = mark v z i).
Proof.
  intros Hz. pose proof offered_edge as (_ & _ & _ & Hne & _).
  assert (forall j, <[v := final iv]> N !! z = Some j -> exists i, N !! z = Some i /\ j = mark v z i) as Hv.
  { intros j. unfold mark. destruct (decide (z = v)) as [-> | Hzv].
    - rewrite lookup_insert_eq. intros [= <-]. by exists iv.
    - rewrite lookup_insert_ne by done. intros E. by exists j. }
  destruct Hoff as [(Hi & _ & E) | (Hno & _ & E)]; rewrite E in Hz.
  - destruct (decide (dst x = z)) as [<- | Hzy].
    + rewrite lookup_insert_eq in Hz. left. split; [done |]. split; [done | congruence].
    + rewrite lookup_insert_ne in Hz by done. right. split; [by intros [? _] | by apply Hv].
  - right. split; [by intros [<- ?] | by apply Hv].
Qed.

Lemma offered_new : improves N v d (dst x) -> N' !! dst x = Some new.
Proof. intros Hi. destruct Hoff as [(_ & _ & ->) | (Hno & _)]; [by rewrite lookup_insert_eq | done]. Qed.

(** Closed nodes keep what is known of them. *)
Lemma offered_closed z i : z ∈ C' -> N !! z = Some i -> N' !! z = Some (mark v z i).
Proof. intros Hz Hi. apply offered_old; [done |]. intros [E Hb]. by apply (closed_kept z Hz E). Qed.

Lemma offered_closed_inv z i' : z ∈ C' -> N' !! z = Some i' -> exists i, N !! z = Some i /\ i' = mark v z i.
Proof.
  intros Hz Hi. apply offered_cases in Hi as [(E & Hb & _) | (_ & ?)]; [| done].
  exfalso. by apply (closed_kept z Hz E).
Qed.

Lemma offered_open z e0 : M' !! z = Some e0 <-> exists i, N' !! z = Some i /\ idist i = e0 /\ z ∉ C'.
Proof.
  pose proof (iv_open _ _ _ _ _ _ (sp_inv _ _ _ _ _ _ Hs) z e0) as Hopen.
  destruct (decide (dst x = z /\ improves N v d z)) as [[<- Hb] | Hno].
  - rewrite (offered_new Hb). destruct Hoff as [(_ & -> & _) | (Hno & _)]; [| done].
    rewrite lookup_insert_eq. split.
    + intros [= <-]. eexists. split; [done |]. split; [done |]. intros Hc. by apply (closed_kept _ Hc eq_refl).
    + intros (i & [= <-] & <- & _). done.
  - assert (M' !! z = M !! z) as ->.
    { destruct Hoff as [(Hb & -> & _) | (_ & -> & _)]; [| done]. apply lookup_insert_ne. intros <-. by apply Hno. }
    rewrite Hopen. split.
    + intros (i & Hi & Hd & Hc). exists (mark v z i). destruct (mark_same v z i) as (-> & _).
      split; [by apply offered_old | done].
    + intros (i' & Hi' & Hd & Hc). apply offered_cases in Hi' as [(? & ? & _) | (_ & i & Hi & ->)]; [by destruct Hno |].
      exists i. destruct (mark_same v z i) as (E & _). rewrite E in Hd. done.
Qed.

Lemma offered_final z i' : N' !! z = Some i' -> z <> a -> ifin i' = bool_decide (z ∈ C').
Proof.
  intros Hz Hza. pose proof (iv_final _ _ _ _ _ _ (sp_inv _ _ _ _ _ _ Hs)) as Hf.
  pose proof offered_edge as (_ & _ & _ & Hyv & _).
  apply offered_cases in Hz as [(<- & Hb & ->) | (_ & i & Hi & ->)].
  - cbn. rewrite bool_decide_false by (intros Hc; by apply (closed_kept _ Hc eq_refl)).
    destruct (N !! dst x) as [j |] eqn:Ej; [| done]. cbn. rewrite (Hf _ j Ej Hza) by (by left).
    apply bool_decide_false. intros Hc. by apply (closed_kept _ Hc eq_refl).
  - unfold mark. case_decide as Hzv; [subst; cbn; rewrite bool_decide_true by set_solver; done |].
    apply Hf; [done | done | by left].
Qed.

Lemma offered_prev z i' : N' !! z = Some i' -> z <> a -> iprev i' ∈ C' /\ iedge i' ∈ current g (iprev i') /\
  dst (iedge i') = z /\ exists j, N' !! iprev i' = Some j /\ idist i' = idist j + weight (iedge i').
Proof.
  intros Hz Hza. pose proof offered_edge as (_ & Hx & _).
  apply offered_cases in Hz as [(<- & Hb & ->) | (_ & i & Hi & ->)].
  - cbn. split; [set_solver |]. split; [done |]. split; [done |]. exists (mark v v iv).
    split; [apply offered_closed; [set_solver | done] |]. by destruct (mark_same v v iv) as (-> & _).
  - destruct (mark_same v z i) as (-> & -> & ->).
    destruct (iv_prev _ _ _ _ _ _ (sp_inv _ _ _ _ _ _ Hs) z i Hi Hza) as (Hc & He & Hd & j & Hj & E).
    split; [done |]. split; [done |]. split; [done |]. exists (mark v (iprev i) j).
    split; [by apply offered_closed |]. by destruct (mark_same v (iprev i) j) as (-> & _).
Qed.

Lemma take_next : take (Z.to_nat (k + 1)) (current g v) = take (Z.to_nat k) (current g v) ++ [x].
Proof.
  replace (Z.to_nat (k + 1)) with (S (Z.to_nat k)) by lia. apply take_S_r. rewrite <-Ex. by apply at_lookup.
Qed.

Lemma root_new : v = a -> N !! dst x = None.
Proof.
  intros Eva. destruct (N !! dst x) as [j |] eqn:Ej; [| done]. exfalso.
  pose proof offered_edge as (Hv & _ & _ & Hyv & _).
  destruct (sp_root _ _ _ _ _ _ Hs Eva (dst x)) as [E | Hin]; [by rewrite Ej | congruence |].
  pose proof (sb_simple Hg v Hv) as Hnd.
  rewrite <-(take_drop_middle (current g v) (Z.to_nat k) x) in Hnd by (rewrite <-Ex; by apply at_lookup).
  rewrite fmap_app in Hnd. apply NoDup_app in Hnd as (_ & Hnd & _). apply (Hnd _ Hin). cbn. set_solver.
Qed.

Lemma relaxed_mark u i y : relaxed N' u (mark v u i) y <-> relaxed N' u i y.
Proof. unfold relaxed. by destruct (mark_same v u i) as (-> & _). Qed.

Lemma offered_relax u i' y : u ∈ C' -> N' !! u = Some i' -> y ∈ current g u ->
  u <> v \/ y ∈ take (Z.to_nat (k + 1)) (current g v) -> relaxed N' u i' y.
Proof.
  intros Hu Hi' Hy HR. destruct (offered_closed_inv u i' Hu Hi') as (i & Hi & ->). apply relaxed_mark.
  rewrite take_next in HR. destruct (decide (u <> v \/ y ∈ take (Z.to_nat k) (current g v))) as [Hold | Hnew].
  - destruct (iv_relax _ _ _ _ _ _ (sp_inv _ _ _ _ _ _ Hs) u i y Hu Hi Hy Hold) as (j & Hj & Hle & Hp & Hr).
    destruct (decide (dst x = dst y /\ improves N v d (dst y))) as [[E Hb] | Hno].
    + assert (improves N v d (dst x)) as Hb' by (by rewrite E). exists new. rewrite <-E.
      split; [by apply offered_new |]. unfold improves in Hb. rewrite Hj in Hb. cbn [idist iprev].
      split; [lia |]. destruct Hb as [Hlt | [-> Heq]]; [split; intros; lia | auto].
    + exists (mark v (dst y) j). destruct (mark_same v (dst y) j) as (-> & -> & _).
      split; [by apply offered_old | done].
  - assert (u = v /\ y = x) as [-> ->].
    { rewrite elem_of_app, list_elem_of_singleton in HR. destruct (decide (u = v)); [| tauto].
      split; [done |]. tauto. }
    assert (i = iv) as -> by congruence. destruct (decide (improves N v d (dst x))) as [Hb | Hno].
    + exists new. split; [by apply offered_new |]. cbn. split; [lia |]. split; [by intros <- | by left].
    + destruct (N !! dst x) as [j |] eqn:Ej; [| exfalso; apply Hno; unfold improves; by rewrite Ej].
      exists (mark v (dst x) j). destruct (mark_same v (dst x) j) as (-> & -> & _).
      split; [by apply offered_old; [| intros [_ ?]] |]. unfold improves in Hno. rewrite Ej in Hno.
      split; [lia |]. split; [intros -> ?; exfalso; apply Hno; lia |].
      intros Eva. rewrite root_new in Ej by done. done.
Qed.

Lemma offered_inv s' : (exists ids, arrays s' ids N') -> DistanceHeap.models (heap s') M' ->
  inv s' N' M' C' (fun u y => u <> v \/ y ∈ take (Z.to_nat (k + 1)) (current g v)) (fun z => z <> v \/ 0 < k + 1).
Proof.
  intros Hs' Hm'. pose proof (sp_inv _ _ _ _ _ _ Hs) as Hi. pose proof offered_edge as (Hv & Hx & Hw & _).
  split; try done.
  - apply offered_open.
  - intros z Hz. destruct (iv_closed _ _ _ _ _ _ Hi z Hz) as [i E]. exists (mark v z i). by apply offered_closed.
  - intros z i' Hz Hza _. by apply offered_final.
  - intros z i' Hz. apply offered_cases in Hz as [(<- & _ & ->) | (_ & i & Hz & ->)].
    + cbn. apply (cw_step a v); [| done]. by apply (iv_sound _ _ _ _ _ _ Hi).
    + destruct (mark_same v z i) as (-> & _). by apply (iv_sound _ _ _ _ _ _ Hi).
  - intros z i' d0 Hz Hc Hw0. apply offered_closed_inv in Hz as (i & Hz & ->); [| done].
    destruct (mark_same v z i) as (-> & _). by apply (iv_short _ _ _ _ _ _ Hi z).
  - destruct (iv_start _ _ _ _ _ _ Hi) as (i & Hz & E). exists (mark v a i).
    destruct (mark_same v a i) as (-> & _). split; [| done]. apply offered_closed; [apply (sp_start _ _ _ _ _ _ Hs) | done].
  - left. apply (sp_start _ _ _ _ _ _ Hs).
  - apply offered_prev.
  - intros u z i' j' Hu Hz Hui Hzj. apply offered_closed_inv in Hui as (i & Hui & ->); [| done].
    destruct (mark_same v u i) as (-> & _). pose proof (sp_last _ _ _ _ _ _ Hs u i iv Hu Hui Hiv).
    apply offered_cases in Hzj as [(<- & _ & ->) | (_ & j & Hzj & ->)]; [cbn; lia |].
    destruct (mark_same v z j) as (-> & _). by apply (iv_mono _ _ _ _ _ _ Hi u z).
  - apply offered_relax.
Qed.

Lemma offered_stepping s' : (exists ids, arrays s' ids N') -> DistanceHeap.models (heap s') M' ->
  stepping (k + 1) s' N' M' C v.
Proof.
  intros Hs' Hm'. assert (v ∈ C') as Hv by set_solver. split.
  - by apply offered_inv.
  - exists (mark v v iv). by apply offered_closed.
  - intros u i' iv' Hu Hui Hvi. apply offered_closed_inv in Hui as (i & Hui & ->); [| done].
    apply offered_closed_inv in Hvi as (i1 & Hvi & ->); [| done].
    destruct (mark_same v u i) as (-> & _), (mark_same v v i1) as (-> & _).
    by apply (sp_last _ _ _ _ _ _ Hs u).
  - intros Eva z [i' Hz]. rewrite take_next, fmap_app, elem_of_app. cbn.
    apply offered_cases in Hz as [(<- & _) | (_ & i & Hz & _)]; [right; right; set_solver |].
    destruct (sp_root _ _ _ _ _ _ Hs Eva z) as [? | ?]; [done | by left | right; by left].
  - apply (sp_start _ _ _ _ _ _ Hs).
Qed.
End offering.

Lemma step_starts s N M C v h dv : settled s N M C -> M !! v = Some dv ->
  (forall y d', M !! y = Some d' -> dv <= d') -> DistanceHeap.models h (delete v M) ->
  stepping 0 (setHeap s h) N (delete v M) C v /\ v ∉ C.
Proof.
  intros Hi HMv Hmin Hh. pose proof (proj1 (iv_open _ _ _ _ _ _ Hi v dv) HMv) as (iv & Hv & Hdv & HvC).
  assert (forall y j, N !! y = Some j -> y ∉ C -> idist iv <= idist j) as Hleast.
  { intros y j Hy HyC. rewrite Hdv. apply (Hmin y). apply (iv_open _ _ _ _ _ _ Hi). by exists j. }
  assert (a ∈ {[v]} ∪ C) as Hstart.
  { destruct (iv_first _ _ _ _ _ _ Hi) as [? | [_ Hall]]; [set_solver |]. rewrite (Hall v) by done. set_solver. }
  split; [| done]. split; [| done | | |].
  - split; try done.
    + destruct (iv_arrays _ _ _ _ _ _ Hi) as (ids & []). by exists ids.
    + intros z d. rewrite lookup_delete_Some. rewrite (iv_open _ _ _ _ _ _ Hi). split.
      * intros (Hne & i & Hz & Hd & Hc). exists i. split; [done |]. split; [done | set_solver].
      * intros (i & Hz & Hd & Hc). split; [set_solver |]. exists i. split; [done |]. split; [done | set_solver].
    + intros z. rewrite elem_of_union, elem_of_singleton. intros [-> | Hz]; [done | by apply (iv_closed _ _ _ _ _ _ Hi)].
    + intros z i Hz Hza [Hzv | ?]; [| lia]. rewrite (iv_final _ _ _ _ _ _ Hi z i Hz Hza I).
      apply bool_decide_ext. set_solver.
    + apply (iv_sound _ _ _ _ _ _ Hi).
    + intros z i d Hz. rewrite elem_of_union, elem_of_singleton. intros [-> | Hc].
      * assert (i = iv) as -> by congruence. by apply (open_is_shortest s N M C v).
      * by apply (iv_short _ _ _ _ _ _ Hi z).
    + apply (iv_start _ _ _ _ _ _ Hi).
    + by left.
    + intros z i Hz Hza. destruct (iv_prev _ _ _ _ _ _ Hi z i Hz Hza) as (Hc & Hrest). split; [set_solver | done].
    + intros u z i j. rewrite elem_of_union, elem_of_singleton. intros [-> | Hu] Hz Hui Hzj.
      * assert (i = iv) as -> by congruence. apply (Hleast z); [done | set_solver].
      * apply (iv_mono _ _ _ _ _ _ Hi u z); [done | set_solver | done | done].
    + intros u i x. rewrite elem_of_union, elem_of_singleton. intros Hu Hui Hx [Huv | Hx0].
      * apply (iv_relax _ _ _ _ _ _ Hi u i x); [by destruct Hu | done | done | done].
      * change (Z.to_nat 0) with 0%nat in Hx0. rewrite take_0 in Hx0. by apply elem_of_nil in Hx0.
  - intros u i iv0. rewrite elem_of_union, elem_of_singleton. intros [-> | Hu] Hui Hvi.
    + assert (i = iv0) as -> by congruence. done.
    + by apply (iv_mono _ _ _ _ _ _ Hi u v).
  - intros -> z Hz. left. destruct (iv_first _ _ _ _ _ _ Hi) as [? | [_ Hall]]; [done | by apply Hall].
  - done.
Qed.

Lemma step_ends s N M C v : stepping (alen (current g v)) s N M C v -> settled s N M ({[v]} ∪ C).
Proof.
  intros Hs. pose proof (sp_inv _ _ _ _ _ _ Hs) as Hi. destruct (sp_found _ _ _ _ _ _ Hs) as [iv Hiv].
  assert (v = a \/ 0 < alen (current g v)) as Hedges.
  { destruct (decide (v = a)); [by left | right].
    destruct (iv_prev _ _ _ _ _ _ Hi v iv Hiv n0) as (Hc & Hx & Hd & j & Hj & _).
    destruct (inv_range _ _ _ _ _ _ _ _ Hi Hj) as [Hu _].
    destruct (sb_back Hg _ _ Hu Hx) as (y & Hy & _). rewrite Hd in Hy. apply In_at in Hy as (q & Hq & _). lia. }
  destruct Hi. split; try done.
  - intros z i Hz Hza _. apply iv_final0; [done | done |]. destruct (decide (z = v)); [right | by left].
    destruct Hedges as [-> | ?]; [done | lia].
  - intros u i x Hu Hui Hx _. apply (iv_relax0 u i x Hu Hui Hx).
    destruct (decide (u = v)) as [-> | ?]; [right | by left]. by rewrite take_ge by (unfold alen; lia).
Qed.

Lemma step_edge N M C v edgeIds k s : stepping k s N M C v -> 0 <= k < alen (current g v) ->
  (ids ← deref edgeIds; aget ids k) = Ok (current g v).[k] ->
  returns (expandEdge e p v edgeIds k s) (fun s' => frame s s' /\ exists N' M', stepping (k + 1) s' N' M' C v).
Proof.
  intros Hs Hk He. pose proof (sp_inv _ _ _ _ _ _ Hs) as Hi. destruct (sp_found _ _ _ _ _ _ Hs) as [iv Hiv].
  destruct (iv_arrays _ _ _ _ _ _ Hi) as [ids Hids]. destruct (inv_range _ _ _ _ _ _ _ _ Hi Hiv) as [Hv _].
  eapply returns_mono.
  - apply (offer_ok s ids N M v (current g v).[k] iv edgeIds k Hids (iv_heap _ _ _ _ _ _ Hi)); try done.
    + intros y d Hd. apply (iv_open _ _ _ _ _ _ Hi) in Hd as (i & ? & ? & _). by exists i.
    + intros y i Hy. by apply (inv_range _ _ _ _ _ _ _ _ Hi Hy).
    + by apply at_In.
    + destruct (sb_bound Hg a v (idist iv) Ha) as (d' & Hw & Hd'); [by apply (iv_sound _ _ _ _ _ _ Hi) |].
      pose proof (iv_short _ _ _ _ _ _ Hi v iv d' Hiv). specialize (H ltac:(set_solver) Hw). lia.
  - cbv beta. intros s' (Hfr & ids' & N' & M' & Ha' & Hm' & Hoff). split; [done |]. exists N', M'.
    apply (offered_stepping s N N' M M' C v (current g v).[k] k iv); try done. by exists ids'.
Qed.

(** Expanding the nearest open node. *)
Definition stepped (s : t) (N : gmap Z info) (C : gset Z) (s' : t) : Prop :=
  frame s s' /\ exists v N' M', v ∉ C /\ 0 <= v < n /\ settled s' N' M' ({[v]} ∪ C).

Lemma nextStep_ok s N M C : settled s N M C -> M <> ∅ ->
  returns (nextStep e g p s) (fun '(more, s') => more = true /\ stepped s N C s').
Proof.
  intros Hi Hne. pose proof (iv_heap _ _ _ _ _ _ Hi) as Hm. unfold nextStep.
  rewrite (DistanceHeap.queue_isEmpty_spec _ _ Hm), bool_decide_false by done.
  eapply returns_bind; [by apply (DistanceHeap.queue_getNext_spec _ _ Hm) |]. cbv beta.
  intros [v h] (dv & HMv & Hmin & Hh). destruct (step_starts s N M C v h dv Hi HMv Hmin Hh) as [Hs HvC].
  destruct (sp_found _ _ _ _ _ _ Hs) as [iv Hiv].
  destruct (inv_range _ _ _ _ _ _ _ _ (sp_inv _ _ _ _ _ _ Hs) Hiv) as [Hv _].
  destruct (edge_row g n v (sb_grid Hg) Hv) as [-> ->]. rewrite !bind_ok.
  eapply returns_bind.
  - apply (forRange_inv (fun k s' => frame s s' /\ exists N' M', stepping k s' N' M' C v)); [apply alen_nonneg | |].
    + split; [done |]. by exists N, (delete v M).
    + intros k s1 Hk (Hfr & N1 & M1 & Hs1). eapply returns_mono.
      * apply (step_edge N1 M1 C v _ k s1 Hs1 Hk). by apply (edge_at g n v k (sb_grid Hg)).
      * cbv beta. intros s2 (Hfr2 & Hs2). split; [by etrans | done].
  - cbv beta. intros s' (Hfr & N' & M' & Hs'). ret. split; [done |]. split; [done |]. exists v, N', M'.
    split; [done |]. split; [done |]. by apply step_ends.
Qed.

(** ** The whole search *)

(** The closed nodes are nodes of the graph, so there are at most [n]. *)
Lemma closed_bound s N M C : settled s N M C -> Z.of_nat (size C) <= n.
Proof.
  intros Hi. assert (C ⊆ list_to_set (seqZ 0 n)) as Hsub.
  { intros z Hz. apply elem_of_list_to_set, elem_of_seqZ.
    destruct (iv_closed _ _ _ _ _ _ Hi z Hz) as [i Hzi].
    pose proof (inv_range _ _ _ _ _ _ _ _ Hi Hzi). lia. }
  apply subseteq_size in Hsub. rewrite size_list_to_set in Hsub by apply NoDup_seqZ.
  rewrite length_seqZ in Hsub. lia.
Qed.

Lemma nextSteps_ok k : forall s N M C, settled s N M C ->
  returns (nextSteps e g k p s) (fun s' => frame s s' /\ exists N' M' C', settled s' N' M' C' /\ C ⊆ C' /\
    (M <> ∅ -> (0 < k)%nat -> (size C < size C')%nat)).
Proof.
  induction k as [| k IH]; intros s N M C Hi; cbn [nextSteps].
  { ret. split; [done |]. exists N, M, C. split; [done |]. split; [done | lia]. }
  destruct (decide (M = ∅)) as [-> | Hne].
  - unfold nextStep. rewrite (DistanceHeap.queue_isEmpty_spec _ _ (iv_heap _ _ _ _ _ _ Hi)), bool_decide_true by done.
    rewrite bind_ok. ret. split; [done |]. by exists N, ∅, C.
  - eapply returns_bind; [by apply (nextStep_ok s N M C) |]. cbv beta.
    intros [more s1] [-> (Hfr & v & N1 & M1 & HvC & _ & Hi1)]. eapply returns_mono; [by apply (IH s1 N1 M1) |].
    cbv beta. intros s2 (Hfr2 & N2 & M2 & C2 & Hi2 & Hsub & _). split; [by etrans |].
    exists N2, M2, C2. split; [done |]. split; [set_solver |]. intros _ _.
    apply subseteq_size in Hsub. rewrite size_union in Hsub by set_solver. rewrite size_singleton in Hsub. lia.
Qed.

(** [true] only when every node but the start is closed; the flag of the start may be one that an
    earlier search left. *)
Lemma allNodesFound_ok s N M C nodes : settled s N M C -> (forall x, x ∈ nodes -> x < MAX_VALUE) ->
  returns (allNodesFound s nodes) (fun b => b = true -> forall x, x ∈ nodes -> x <> a -> x ∈ C).
Proof.
  intros Hi. destruct (iv_arrays _ _ _ _ _ _ Hi) as [ids Hids]. pose proof (arrays_room _ _ _ Hids) as Hroom.
  pose proof (ar_lengths _ _ _ Hids) as (_ & Lf & _).
  induction nodes as [| x nodes IH]; intros Hlt; cbn [allNodesFound].
  { ret. intros _ x Hx. by apply elem_of_nil in Hx. }
  destruct (arrays_find s ids N x Hids) as [(i & Hx & Hk & _ & Hh) | (q & _ & E & Hq & _)];
    [apply Hlt; by left | |].
  - destruct (Z.ltb_spec (binarySearch (foundIds s) x) 0); [lia |].
    rewrite aget_ok, bind_ok by lia. destruct Hh as (_ & -> & _). destruct (ifin i) eqn:Ef; cbn [negb]; [| by ret].
    eapply returns_mono; [apply IH; intros z Hz; apply Hlt; by right |]. cbv beta. intros b Hb Et z Hz Hza.
    apply elem_of_cons in Hz as [-> | Hz]; [| by apply Hb].
    rewrite (iv_final _ _ _ _ _ _ Hi x i Hx Hza I) in Ef. by apply bool_decide_eq_true in Ef.
  - rewrite E. destruct (Z.ltb_spec (- (q + 1)) 0); [by ret | lia].
Qed.

Lemma searchLoop_ok nodes : (forall x, x ∈ nodes -> 0 <= x < n /\ exists d, cwalk a x d) ->
  forall fuel s N M C, settled s N M C -> n < Z.of_nat (size C) + Z.of_nat fuel ->
  returns (searchLoop e g fuel nodes p s) (fun s' => frame s s' /\ exists N' M' C', settled s' N' M' C' /\
    forall x, x ∈ nodes -> x <> a -> x ∈ C').
Proof.
  intros Hnodes. pose proof (sb_count Hg) as Hn.
  induction fuel as [| fuel IH]; intros s N M C Hi Hfuel; [pose proof (closed_bound _ _ _ _ Hi); lia |].
  cbn [searchLoop]. eapply returns_bind.
  { apply (allNodesFound_ok s N M C nodes Hi). intros x Hx. apply Hnodes in Hx as [? _]. lia. }
  cbv beta. intros found Hfound.
  rewrite (DistanceHeap.queue_isEmpty_spec _ _ (iv_heap _ _ _ _ _ _ Hi)).
  destruct found; cbn; [ret; split; [done |]; exists N, M, C; split; [done | by apply Hfound] |].
  destruct (decide (M = ∅)) as [-> | Hne].
  - rewrite bool_decide_true by done. cbn. ret. split; [done |]. exists N, ∅, C. split; [done |].
    intros x Hx _. apply Hnodes in Hx as [_ [d Hd]]. by apply (exhausted s N C x d).
  - rewrite bool_decide_false by done. cbn [negb]. unfold multipleNextSteps.
    eapply returns_bind; [by apply (nextSteps_ok _ s N M C) |]. cbv beta.
    intros s1 (Hfr & N1 & M1 & C1 & Hi1 & _ & Hgrow).
    assert (size C < size C1)%nat by (apply Hgrow; [done | vm_compute; lia]).
    eapply returns_mono; [apply (IH s1 N1 M1 C1 Hi1); lia |]. cbv beta.
    intros s2 (Hfr2 & Hrest). split; [by etrans | done].
Qed.

(** Between two searches: the lengths of the arrays, and a heap in any state. *)
Definition idle (s : t) : Prop :=
  same_lengths s /\ 0 < alen (foundIds s) /\ exists M, DistanceHeap.models (heap s) M.

Lemma settled_idle s N M C : settled s N M C -> idle s.
Proof.
  intros Hi. destruct (iv_arrays _ _ _ _ _ _ Hi) as [ids Hids]. pose proof (arrays_room _ _ _ Hids).
  split; [apply (ar_lengths _ _ _ Hids) |]. split; [| exists M; apply (iv_heap _ _ _ _ _ _ Hi)].
  destruct (iv_start _ _ _ _ _ _ Hi) as (i & Hia & _). apply (ar_map _ _ _ Hids) in Hia as (k & Hk & _). lia.
Qed.

(** The state in which the loop of [nextCalc] starts. *)
Lemma first_settled s h nodes : idle s -> DistanceHeap.models h {[a := 0]} ->
  settled (mk (<[0%nat := a]> (fill (foundIds s) MAX_VALUE)) 1 (previousNodes s) (previousEdges s)
    (<[0%nat := 0]> (fill (distances s) 0)) (finalDistance s) nodes a (shortcuts s) h (nodeIdsToCalc s))
    {[a := mkInfo 0 (finalDistance s).[0] (previousNodes s).[0] (previousEdges s).[0]]} {[a := 0]} ∅.
Proof.
  intros ((Ld & Lf & Lp & Le) & Hpos & _) Hh. pose proof (sb_count Hg) as Hn. set (i0 := mkInfo _ _ _ _).
  assert (forall z i, ({[a := i0]} : gmap Z info) !! z = Some i -> z = a /\ i = i0) as Hone.
  { intros z i [-> ->]%lookup_singleton_Some. done. }
  assert (Ha0 : ({[a := i0]} : gmap Z info) !! a = Some i0) by apply lookup_singleton_eq.
  split; try done.
  - exists [a]. destruct (foundIds s) as [| x f] eqn:Ef; [unfold alen in Hpos; cbn in Hpos; lia |]. split.
    + unfold same_lengths. cbn. autorewrite with alen. unfold alen in *. cbn in *. rewrite length_replicate. lia.
    + split; [repeat constructor | by constructor; [lia |]].
    + cbn. by exists (length f).
    + done.
    + intros z i. split.
      * intros [-> ->]%Hone. exists 0. split; [done |]. split; [done |]. unfold holdsAt. cbn.
        destruct (distances s) as [| y dl]; [unfold alen in *; cbn in *; lia |]. done.
      * intros (k & Hk & <- & Hhold). change (alen [a]) with 1 in Hk. assert (k = 0) as -> by lia.
        change ([a].[0]) with a. rewrite Ha0. f_equal. destruct i, Hhold as (E1 & E2 & E3 & E4). cbn in *.
        destruct (distances s) as [| y dl]; [unfold alen in *; cbn in *; lia |]. unfold i0. by rewrite <-E1, <-E2, <-E3, <-E4.
  - intros z d. rewrite lookup_singleton_Some. split.
    + intros [<- <-]. exists i0. split; [done |]. split; [done | set_solver].
    + intros (i & [-> ->]%Hone & <- & _). done.
  - intros z i [-> ->]%Hone ?. done.
  - intros z i [-> ->]%Hone. apply cw_here.
  - by exists i0.
  - right. split; [done |]. intros z [i [-> _]%Hone]. done.
  - intros z i [-> ->]%Hone ?. done.
Qed.

(** What the search of [nextCalc] has found out about its [nodes]. *)
Definition searched (s : t) (nodes : list Z) : Prop := exists N M C, settled s N M C /\
  forall x, x ∈ nodes -> x <> a -> x ∈ C.

Lemma nextCalc_ok s nodes : idle s -> (forall x, x ∈ nodes -> 0 <= x < n /\ exists d, cwalk a x d) ->
  returns (nextCalc e g a nodes p s) (fun s' => searched s' nodes /\ neighbours s' = nodes /\ initialNode s' = a /\
    shortcuts s' = shortcuts s /\ nodeIdsToCalc s' = nodeIdsToCalc s).
Proof.
  intros Hs Hnodes. pose proof Hs as (_ & Hpos & M & Hm). pose proof Hs as ((Ld & _) & _). pose proof (sb_count Hg) as Hn.
  unfold nextCalc. cbv zeta. rewrite (aset_ok (fill (foundIds s) MAX_VALUE)), bind_ok by (rewrite alen_fill; lia).
  rewrite (aset_ok (fill (distances s) 0)), bind_ok by (rewrite alen_fill; lia).
  eapply returns_bind.
  { apply (DistanceHeap.queue_add_spec _ ∅ a 0); [by eapply DistanceHeap.reset_spec | lia | done]. }
  cbv beta. intros h Hh. destruct (sb_grid Hg) as [Hcur _]. pose proof (tab_count _ _ _ Hcur) as Hcnt.
  eapply returns_mono.
  - apply (searchLoop_ok nodes Hnodes _ _ _ _ ∅ (first_settled s h nodes Hs Hh)).
    unfold alen in Hcnt. rewrite size_empty. lia.
  - cbv beta. intros s' ((E1 & E2 & E3 & E4) & N' & M' & C' & Hi & Hall). cbn in *.
    split; [by exists N', M', C' | done].
Qed.

(** ** The shortcuts over the preferred node *)

(** [sc] consists of an edge to [v] and one from there, and no walk is shorter. *)
Record needed (v : Z) (sc : shortcut) : Prop := {
  nd_start : 0 <= scStart sc < n;
  nd_ends : scStart sc <> scDest sc;
  nd_second : scSecond sc ∈ current g (scStart sc) /\ dst (scSecond sc) = v;
  nd_first : scFirst sc ∈ current g v /\ dst (scFirst sc) = scDest sc;
  nd_dist : scDist sc = weight (scSecond sc) + weight (scFirst sc);
  nd_least : forall d, cwalk (scStart sc) (scDest sc) d -> scDist sc <= d;
}.

(** Edge [x] of [u] leads to [v], and edge [y] from there on to another node. *)
Definition over (v u x y : Z) : Prop := x ∈ current g u /\ dst x = v /\ y ∈ current g v /\ dst y <> u.

(** One of the shortcuts [new] has the ends of that way, unless there is a shorter walk. *)
Definition covered (new : list shortcut) (u x y : Z) : Prop :=
  (exists sc, sc ∈ new /\ scStart sc = u /\ scDest sc = dst y) \/
  (exists d, cwalk u (dst y) d /\ d < weight x + weight y).

Lemma covered_mono new new' u x y : (forall sc, sc ∈ new -> sc ∈ new') -> covered new u x y -> covered new' u x y.
Proof. intros Hsub [(sc & Hsc & Hrest) | Hd]; [left; exists sc; by split; [apply Hsub |] | by right]. Qed.

Lemma found_needed s N M C b i iv : settled s N M C -> a <> b -> p <> a -> b ∈ C ->
  N !! b = Some i -> N !! p = Some iv -> iprev iv = a -> iprev i = p ->
  needed p (mkShortcut a b (idist i) (iedge i) (iedge iv)).
Proof.
  intros Hi Hab Hpa HbC Hb Hp Eiv Ei.
  destruct (iv_prev _ _ _ _ _ _ Hi b i Hb ltac:(done)) as (_ & He & Hd & j & Hj & Hdist).
  destruct (iv_prev _ _ _ _ _ _ Hi p iv Hp ltac:(done)) as (_ & He2 & Hd2 & j2 & Hj2 & Hdist2).
  destruct (iv_start _ _ _ _ _ _ Hi) as (i0 & Hia & E0). rewrite Ei in *. rewrite Eiv in *.
  assert (j = iv) as -> by congruence. assert (j2 = i0) as -> by congruence.
  split; cbn; try done; [lia |]. intros d. by apply (iv_short _ _ _ _ _ _ Hi).
Qed.

Lemma over_found s N M C x y i : settled s N M C -> a ∈ C -> dst y ∈ C -> over p a x y ->
  N !! dst y = Some i -> weight x + weight y <= idist i ->
  exists iv, N !! p = Some iv /\ iprev iv = a /\ iprev i = p.
Proof.
  intros Hi HaC HbC (Hx & Ex & Hy & Hne) Hb Hbd. destruct (sb_edge Hg a x Ha Hx) as (_ & _ & Hp & Hpa & Hw).
  rewrite Ex in Hp, Hpa. destruct (sb_edge Hg p y Hp Hy) as (_ & _ & _ & Hyp & Hwy).
  destruct (iv_start _ _ _ _ _ _ Hi) as (i0 & Hia & E0).
  destruct (iv_relax _ _ _ _ _ _ Hi a i0 x HaC Hia Hx I) as (iv & Hv & Hvd & _ & Hroot).
  rewrite Ex in Hv. assert (idist iv = weight x) as Ev.
  { pose proof (iv_short _ _ _ _ _ _ Hi _ i _ Hb HbC (cw_step a p _ y (iv_sound _ _ _ _ _ _ Hi _ _ Hv) Hy)). lia. }
  exists iv. split; [done |].
  assert (p ∈ C) as HpC.
  { destruct (decide (p ∈ C)) as [? | HpC]; [done |].
    pose proof (iv_mono _ _ _ _ _ _ Hi _ _ i iv HbC HpC Hb Hv). lia. }
  split.
  - destruct (Hroot eq_refl ltac:(lia)) as [? | Ep]; [done |].
    destruct (iv_prev _ _ _ _ _ _ Hi p iv Hv Hpa) as (_ & He & Hd & _). rewrite Ep in He.
    by destruct (sb_edge Hg p (iedge iv) Hp He) as (_ & _ & _ & ? & _).
  - destruct (iv_relax _ _ _ _ _ _ Hi p iv y HpC Hv Hy I) as (i' & Hb' & Hbd' & Hpref & _).
    assert (i' = i) as -> by congruence. apply Hpref; [done | lia].
Qed.

Definition fields (sc : shortcut) : list Z := [scStart sc; scDest sc; scDist sc; scFirst sc; scSecond sc].
Definition flat (scs : list shortcut) : list Z := flat_map fields scs.

(** What the shortcuts [new] mean when the neighbours [nodes] have been handled. *)
Definition complete_for (nodes : list Z) (new : list shortcut) : Prop :=
  (forall sc, sc ∈ new -> needed p sc /\ scStart sc = a /\ scDest sc ∈ nodes) /\
  (forall x y, dst y ∈ nodes -> over p a x y -> covered new a x y).

Section adding.
Context (s : t) (N : gmap Z info) (M : gmap Z Z) (C : gset Z) (Hi : settled s N M C).
Context (Hstart : initialNode s = a) (nodeIdx : Z) (Hidx : binarySearch (foundIds s) p = nodeIdx).
Context (iv : info) (Hv : N !! p = Some iv) (Hprev : iprev iv = a) (Hpa : p <> a) (HaC : a ∈ C).

Context (base : list shortcut).

Lemma found_cell b : b < MAX_VALUE -> is_Some (N !! b) -> exists i, N !! b = Some i /\
  aget (distances s) (binarySearch (foundIds s) b) = Ok (idist i) /\
  aget (previousNodes s) (binarySearch (foundIds s) b) = Ok (iprev i) /\
  aget (previousEdges s) (binarySearch (foundIds s) b) = Ok (iedge i).
Proof.
  intros Hb [i0 Hi0]. destruct (iv_arrays _ _ _ _ _ _ Hi) as [ids Hids]. pose proof (arrays_room _ _ _ Hids).
  pose proof (ar_lengths _ _ _ Hids) as (Ld & _ & Lp & Le).
  destruct (arrays_find s ids N b Hids Hb) as [(i & Hbi & Hk & _ & (E1 & _ & E2 & E3)) | (q & Hno & _)]; [| congruence].
  exists i. rewrite !aget_ok by lia. by rewrite E1, E2, E3.
Qed.

Lemma complete_skip nodes scs b : complete_for nodes scs ->
  (forall x y, dst y = b -> over p a x y -> exists d, cwalk a b d /\ d < weight x + weight y) ->
  complete_for (nodes ++ [b]) scs.
Proof.
  intros [Hs Hc] Hno. split.
  - intros sc Hsc. destruct (Hs sc Hsc) as (? & ? & ?). set_solver.
  - intros x y. rewrite elem_of_app, list_elem_of_singleton. intros [Hy | Hy] Hr; [by apply (Hc x) |].
    right. rewrite Hy. by apply (Hno x y).
Qed.

Lemma complete_snoc nodes scs sc : complete_for nodes scs -> needed p sc -> scStart sc = a ->
  complete_for (nodes ++ [scDest sc]) (scs ++ [sc]).
Proof.
  intros [Hs Hc] Hn Ha0. split.
  - intros sc'. rewrite !elem_of_app, !list_elem_of_singleton.
    intros [Hin | ->]; [destruct (Hs sc' Hin) as (? & ? & ?); set_solver | auto].
  - intros x y. rewrite elem_of_app, list_elem_of_singleton. intros [Hy | Hy] Hr.
    + apply (covered_mono scs); [set_solver | by apply Hc].
    + left. exists sc. set_solver.
Qed.

Lemma addShortcut_ok b l scs nodes : IntArrayList.repr l (flat (base ++ scs)) -> (b <> a -> b ∈ C) ->
  complete_for nodes scs ->
  returns (addShortcut p nodeIdx b (setShortcuts s l)) (fun s' => exists l' scs', s' = setShortcuts s l' /\
    IntArrayList.repr l' (flat (base ++ scs')) /\ complete_for (nodes ++ [b]) scs').
Proof.
  intros Hl Hb Hc. pose proof (sb_count Hg) as Hn. unfold addShortcut.
  cbn [setShortcuts initialNode foundIds previousNodes previousEdges distances shortcuts]. rewrite Hstart.
  destruct (Z.eqb_spec b a) as [-> | Hba].
  { ret. exists l, scs. split; [done |]. split; [done |]. apply complete_skip; [done |].
    intros x y E (_ & _ & _ & Hne). done. }
  specialize (Hb Hba). destruct (iv_closed _ _ _ _ _ _ Hi b Hb) as [i Hbi].
  pose proof (inv_range _ _ _ _ _ _ _ _ Hi Hbi) as [Hbn _]. pose proof (inv_range _ _ _ _ _ _ _ _ Hi Hv) as [Hpn _].
  destruct (found_cell b ltac:(lia) ltac:(done)) as (i' & Hbi' & Ed & Ep & Ee). assert (i' = i) as -> by congruence.
  destruct (found_cell p ltac:(lia) ltac:(done)) as (iv' & Hv' & _ & _ & Eve). assert (iv' = iv) as -> by congruence.
  rewrite Hidx in Eve. rewrite Ep, bind_ok. destruct (Z.eqb_spec (iprev i) p) as [Hpi | Hpi].
  - rewrite Ed, Ee, Eve.
    eapply returns_bind; [apply (IntArrayList.add_repr _ _ a Hl) |]. cbv beta. intros l1 H1.
    eapply returns_bind; [apply (IntArrayList.add_repr _ _ b H1) |]. cbv beta. intros l2 H2. rewrite bind_ok.
    eapply returns_bind; [apply (IntArrayList.add_repr _ _ (idist i) H2) |]. cbv beta. intros l3 H3. rewrite bind_ok.
    eapply returns_bind; [apply (IntArrayList.add_repr _ _ (iedge i) H3) |]. cbv beta. intros l4 H4. rewrite bind_ok.
    eapply returns_bind; [apply (IntArrayList.add_repr _ _ (iedge iv) H4) |]. cbv beta. intros l5 H5. ret.
    set (sc := mkShortcut a b (idist i) (iedge i) (iedge iv)). exists l5, (scs ++ [sc]). split; [done |]. split.
    + unfold flat. rewrite app_assoc, flat_map_app. cbn. by rewrite <-!app_assoc in H5.
    + apply (complete_snoc nodes scs sc Hc); [| done]. by apply (found_needed s N M C).
  - ret. exists l, scs. split; [done |]. split; [done |]. apply complete_skip; [done |]. intros x y <- Hr.
    exists (idist i). split; [by apply (iv_sound _ _ _ _ _ _ Hi) |].
    destruct (Z.lt_ge_cases (idist i) (weight x + weight y)) as [? | Hge]; [done |].
    by destruct (over_found s N M C x y i Hi HaC Hb Hr Hbi Hge) as (jv & _ & _ & ?).
Qed.
End adding.

(** [addShortcuts] after the search from [a], a neighbour of the preferred node. *)
Lemma addShortcuts_ok s nodes base : searched s nodes -> neighbours s = nodes -> initialNode s = a ->
  IntArrayList.repr (shortcuts s) (flat base) -> (exists x, x ∈ current g a /\ dst x = p) ->
  (exists b, b ∈ nodes /\ b <> a) ->
  returns (addShortcuts p s) (fun s' => exists l new, s' = setShortcuts s l /\
    IntArrayList.repr l (flat (base ++ new)) /\ complete_for nodes new).
Proof.
  intros (N & M & C & Hi & Hall) En Ei Hl (x & Hx & Ex) (b & Hb & Hba).
  pose proof (sb_edge Hg a x Ha Hx) as (_ & _ & Hp & Hpa & _). rewrite Ex in Hp, Hpa. pose proof (sb_count Hg).
  assert (a ∈ C) as HaC.
  { destruct (iv_first _ _ _ _ _ _ Hi) as [? | [HC _]]; [done |]. specialize (Hall b Hb Hba). set_solver. }
  destruct (iv_start _ _ _ _ _ _ Hi) as (i0 & Hia & _).
  destruct (iv_relax _ _ _ _ _ _ Hi a i0 x HaC Hia Hx I) as (iv & Hv & _). rewrite Ex in Hv.
  destruct (iv_arrays _ _ _ _ _ _ Hi) as [ids Hids].
  destruct (arrays_find s ids N p Hids ltac:(lia)) as [(iv' & Hv' & Hk & _) | (q & Hno & _)]; [| congruence].
  destruct (found_cell s N M C Hi p ltac:(lia) ltac:(done)) as (iv2 & Hv2 & _ & Epv & _).
  assert (iv2 = iv) as -> by congruence. clear iv' Hv'. unfold addShortcuts.
  set (nodeIdx := binarySearch (foundIds s) p) in *. destruct (Z.ltb_spec nodeIdx 0); [lia |].
  rewrite Epv, bind_ok, Ei. assert (setShortcuts s (shortcuts s) = s) as Eself by (by destruct s).
  destruct (Z.eqb_spec (iprev iv) a) as [Hprev | Hprev]; cbn [negb].
  - rewrite En. rewrite <-Eself at 1.
    apply (forEach_inv (fun done st => exists l new, st = setShortcuts s l /\
      IntArrayList.repr l (flat (base ++ new)) /\ complete_for done new)).
    + exists (shortcuts s), []. split; [done |]. split; [by rewrite app_nil_r |]. split.
      * intros sc Hsc. by apply elem_of_nil in Hsc.
      * intros y z Hz. by apply elem_of_nil in Hz.
    + intros pre c todo st -> (l & new & -> & Hl' & Hc). apply (addShortcut_ok s N M C Hi Ei nodeIdx eq_refl iv Hv Hprev ltac:(done) HaC base c l new pre); try done.
      intros Hca. apply Hall; [set_solver | done].
  - ret. exists (shortcuts s), []. split; [done |]. split; [by rewrite app_nil_r |]. split.
    + intros sc Hsc. by apply elem_of_nil in Hsc.
    + intros y z Hz Hr. right. assert (dst z ∈ C) as HzC by (apply Hall; [done |]; by destruct Hr as (_ & _ & _ & ?)).
      destruct (iv_closed _ _ _ _ _ _ Hi _ HzC) as [i Hzi]. exists (idist i). split; [by apply (iv_sound _ _ _ _ _ _ Hi) |].
      destruct (Z.lt_ge_cases (idist i) (weight y + weight z)) as [? | Hge]; [done |].
      destruct (over_found s N M C y z i Hi HaC HzC Hr Hzi Hge) as (jv & Hjv & ? & _). congruence.
Qed.
End from.

(** ** Contracting the nodes of a thread *)

Definition shortcuts_over (v : Z) (new : list shortcut) : Prop :=
  (forall sc, sc ∈ new -> needed v sc) /\
  (forall u x y, 0 <= u < n -> over v u x y -> covered new u x y).

Lemma neighbour_back v y : 0 <= v < n -> y ∈ current g v ->
  exists x, x ∈ current g (dst y) /\ dst x = v /\ weight x = weight y.
Proof. apply (sb_back Hg). Qed.

Lemma over_back v u x y : 0 <= u < n -> over v u x y -> exists z, z ∈ current g v /\ dst z = u.
Proof.
  intros Hu (Hx & <- & _). destruct (sb_back Hg u x Hu Hx) as (z & Hz & Ez & _). by exists z.
Qed.

Lemma no_pairs v : 0 <= v < n -> alen (current g v) < 2 -> shortcuts_over v [].
Proof.
  intros Hv Hlen. split; [intros sc Hsc; by apply elem_of_nil in Hsc |].
  intros u x y Hu Hr. destruct (over_back v u x y Hu Hr) as (z & Hz & Ez).
  destruct Hr as (_ & _ & Hy & Hne). apply In_at in Hz as (i & Hi & Ei), Hy as (j & Hj & Ej).
  assert (i = 0) as -> by lia. assert (j = 0) as -> by lia. congruence.
Qed.

(** The loop that collects the neighbours. *)
Lemma neighbours_ok v : 0 <= v < n -> forall edges, edges = (currentEdgeIds g).[v] ->
  forRange 0 (alen (current g v)) (fun i nodes =>
    ids ← deref edges; x ← aget ids i; d ← Edges.getDest e x; aset nodes i d)
    (replicate (Z.to_nat (alen (current g v))) 0) = Ok (dst <$> current g v).
Proof.
  intros Hv edges ->. set (m := alen (current g v)) in *. pose proof (alen_nonneg (current g v)).
  assert (alen (dst <$> current g v) = m) as Hm by (unfold m, alen; by rewrite length_fmap).
  pose (f := fun i => take (Z.to_nat i) (dst <$> current g v) ++ replicate (Z.to_nat (m - i)) 0).
  replace (replicate (Z.to_nat m) 0) with (f 0) by (unfold f; by rewrite Z.sub_0_r).
  rewrite (forRange_steps f); [| done |].
  - unfold f. rewrite Z.sub_diag, take_ge by (unfold alen in *; lia). by rewrite app_nil_r.
  - intros i Hi. pose proof (edge_at g n v i (sb_grid Hg) Hv Hi) as Hc.
    destruct ((currentEdgeIds g).[v]) as [l |]; [| done]. cbn [deref] in *. rewrite bind_ok in Hc. rewrite bind_ok, Hc, bind_ok.
    assert ((current g v).[i] ∈ current g v) as Hin by (by apply at_In).
    destruct (sb_edge Hg v _ Hv Hin) as (-> & _). rewrite bind_ok. unfold f.
    replace (dst (current g v).[i]) with ((dst <$> current g v).[i]) by (apply list_lookup_total_fmap; unfold m, alen in Hi; lia).
    apply fill_next; lia.
Qed.

(** Searches from some of the neighbours have been done. *)
Definition contracting (s0 : t) (v : Z) (base : list shortcut) (pre : list Z) (s : t) : Prop :=
  idle s /\ nodeIdsToCalc s = nodeIdsToCalc s0 /\ exists new, IntArrayList.repr (shortcuts s) (flat (base ++ new)) /\
    (forall sc, sc ∈ new -> needed v sc) /\
    (forall u x y, u ∈ pre -> over v u x y -> covered new u x y).

Lemma neighbour_step s0 v base pre a s : 0 <= v < n -> 2 <= alen (current g v) -> contracting s0 v base pre s ->
  a ∈ dst <$> current g v ->
  returns (s ← nextCalc e g a (dst <$> current g v) v s; addShortcuts v s) (contracting s0 v base (pre ++ [a])).
Proof.
  intros Hv Hlen (Hidle & Hids & new & Hl & Hneed & Hall) Hin.
  apply list_elem_of_fmap in Hin as (y & Ey & Hy). destruct (sb_edge Hg v y Hv Hy) as (_ & _ & Ha & Hav & _).
  rewrite <-Ey in Ha, Hav. destruct (neighbour_back v y Hv Hy) as (x & Hx & Ex & _). rewrite <-Ey in Hx.
  eapply returns_bind.
  { apply (nextCalc_ok a v Ha s (dst <$> current g v) Hidle).
    intros b (z & -> & Hz)%list_elem_of_fmap. destruct (sb_edge Hg v z Hv Hz) as (_ & _ & Hb & _). split; [done |].
    eexists. eapply cwalk_trans; [by apply cwalk_edge |]. rewrite Ex. by apply cwalk_edge. }
  cbv beta. intros s1 (Hs & En & Ei & Esc & Eids). rewrite <-Esc in Hl.
  assert (idle s1) as Hidle1 by (destruct Hs as (N & M & C & Hi & _); by eapply settled_idle).
  eapply returns_mono.
  - apply (addShortcuts_ok a v Ha s1 (dst <$> current g v) (base ++ new) Hs En Ei Hl); [by exists x |].
    pose proof (sb_simple Hg v Hv) as Hnd.
    destruct (current g v) as [| y0 [| y1 l]]; [unfold alen in Hlen; cbn in Hlen; lia .. |]. cbn in *.
    apply NoDup_cons in Hnd as [Hnd _]. destruct (decide (dst y0 = a)); [exists (dst y1) | exists (dst y0)]; set_solver.
  - cbv beta. intros s2 (l & more & -> & Hl2 & Hs2 & Hc2). split; [done |]. split; [cbn; congruence |].
    exists (new ++ more). cbn [setShortcuts shortcuts]. rewrite app_assoc. split; [done |]. split.
    + intros sc [Hsc | Hsc]%elem_of_app; [by apply Hneed | by apply Hs2].
    + intros u x0 y0 [Hu | ->%list_elem_of_singleton]%elem_of_app Hr.
      * apply (covered_mono new); [set_solver | by apply Hall].
      * apply (covered_mono more); [set_solver |]. apply Hc2; [| done].
        apply list_elem_of_fmap. exists y0. split; [done |]. by destruct Hr as (_ & _ & ? & _).
Qed.

Definition ready (s : t) (base : list shortcut) : Prop := idle s /\ IntArrayList.repr (shortcuts s) (flat base).

Lemma contract_ok v s base : 0 <= v < n -> ready s base ->
  returns (contract e g v s) (fun s' => nodeIdsToCalc s' = nodeIdsToCalc s /\
    exists new, ready s' (base ++ new) /\ shortcuts_over v new).
Proof.
  intros Hv [Hidle Hl]. pose proof (alen_nonneg (current g v)). unfold contract.
  destruct (edge_row g n v (sb_grid Hg) Hv) as [-> ->]. rewrite !bind_ok.
  destruct (Z.ltb_spec (alen (current g v)) 2) as [Hlt | Hge].
  { ret. split; [done |]. exists []. rewrite app_nil_r. split; [done | by apply no_pairs]. }
  unfold newArray. destruct (Z.ltb_spec (alen (current g v)) 0); [lia |]. rewrite bind_ok.
  rewrite (neighbours_ok v Hv _ eq_refl), bind_ok. eapply returns_mono.
  - apply (forEach_inv (contracting s v base)).
    + split; [done |]. split; [done |]. exists []. rewrite app_nil_r. split; [done |].
      split; [intros sc Hsc; by apply elem_of_nil in Hsc | intros u x y Hu; by apply elem_of_nil in Hu].
    + intros pre a todo st E Hst. apply neighbour_step; [done | lia | done |]. rewrite E. set_solver.
  - cbv beta. intros s' (Hi & Hids & new & Hl' & Hneed & Hall). split; [done |]. exists new. split; [done |].
    split; [done |]. intros u x y Hu Hr. apply (Hall u x y); [| done].
    destruct (over_back v u x y Hu Hr) as (z & Hz & <-). by apply list_elem_of_fmap_2.
Qed.

(** All shortcuts over the nodes of [vs]. *)
Definition shortcuts_over_all (vs : list Z) (new : list shortcut) : Prop :=
  (forall sc, sc ∈ new -> exists v, v ∈ vs /\ needed v sc) /\
  (forall v u x y, v ∈ vs -> 0 <= u < n -> over v u x y -> covered new u x y).

Lemma over_snoc vs l v new : shortcuts_over_all vs l -> shortcuts_over v new -> shortcuts_over_all (vs ++ [v]) (l ++ new).
Proof.
  intros [H1 H2] [H3 H4]. split.
  - intros sc [Hsc | Hsc]%elem_of_app.
    + destruct (H1 sc Hsc) as (w & ? & ?). exists w. set_solver.
    + exists v. split; [set_solver | by apply H3].
  - intros w u x y [Hw | ->%list_elem_of_singleton]%elem_of_app Hu Hr.
    + apply (covered_mono l); [set_solver | by apply (H2 w)].
    + apply (covered_mono new); [set_solver | by apply H4].
Qed.

Lemma run_covers vs s base : (forall v, v ∈ vs -> 0 <= v < n) -> idle s -> IntArrayList.repr (shortcuts s) base ->
  IntArrayList.repr (nodeIdsToCalc s) vs ->
  returns (run e g s) (fun s' => idle s' /\ IntArrayList.repr (nodeIdsToCalc s') [] /\
    exists new, IntArrayList.repr (shortcuts s') (flat new) /\ shortcuts_over_all vs new).
Proof.
  intros Hvs Hidle Hl Hids. unfold run. rewrite (IntArrayList.getLen_repr _ vs) by done.
  set (s0 := setShortcuts s _). change (nodeIdsToCalc s) with (nodeIdsToCalc s0). eapply returns_bind.
  - apply (forRange_inv (fun i st => nodeIdsToCalc st = nodeIdsToCalc s0 /\ exists new, ready st new /\
      shortcuts_over_all (take (Z.to_nat i) vs) new)); [apply alen_nonneg | |].
    + split; [done |]. exists []. split; [split; [done | by eapply IntArrayList.clear_repr] |].
      split; [intros sc Hsc; by apply elem_of_nil in Hsc | intros v u x y Hv; by apply elem_of_nil in Hv].
    + intros i st Hi (Est & new & Hst & Hall). rewrite Est. rewrite (IntArrayList.get_repr _ vs i) by done.
      rewrite bind_ok. eapply returns_mono; [apply (contract_ok vs.[i] st new); [apply Hvs, at_In; lia | done] |].
      cbv beta. intros st' (Eids & more & Hst' & Hmore). split; [congruence |]. exists (new ++ more). split; [done |].
      replace (Z.to_nat (i + 1)) with (S (Z.to_nat i)) by lia.
      rewrite (take_S_r vs _ vs.[i]) by (by apply at_lookup). by apply over_snoc.
  - cbv beta. intros s' (Eids & new & [Hi' Hl'] & Hall). rewrite take_ge in Hall by (unfold alen; lia). ret.
    split; [done |]. split; [cbn; rewrite Eids; by eapply IntArrayList.clear_repr |]. by exists new.
Qed.

(** A thread as it is constructed, with the nodes it was given. *)
Lemma new_ok : returns new (fun s => idle s /\ IntArrayList.repr (shortcuts s) [] /\ IntArrayList.repr (nodeIdsToCalc s) []).
Proof.
  unfold new, newArray, INITIAL_ARRAY_SIZE. cbn [Z.ltb Z.compare]. rewrite !bind_ok.
  eapply returns_bind; [by apply IntArrayList.repr_new |]. cbv beta. intros sc Hsc.
  eapply returns_bind; [by apply DistanceHeap.queue_new_spec |]. cbv beta. intros h Hh.
  eapply returns_bind; [by apply IntArrayList.repr_new |]. cbv beta. intros ids Hids. ret.
  split; [| done]. split; [done |]. split; [done | by exists ∅].
Qed.

Lemma addNodeId_ok s vs v : IntArrayList.repr (nodeIdsToCalc s) vs ->
  returns (addNodeId s v) (fun s' => IntArrayList.repr (nodeIdsToCalc s') (vs ++ [v]) /\
    idle s' = idle s /\ shortcuts s' = shortcuts s).
Proof.
  intros Hs. unfold addNodeId. eapply returns_bind; [by apply IntArrayList.add_repr |]. cbv beta. intros l Hl. by ret.
Qed.
End proofs.

(** C9: A thread that is given nodes and run never throws and records the shortcuts over them
    exactly: each consists of an edge to such a node and one from there, is as long as the two
    together, and no walk is shorter; and for every two such edges there is one between their
    ends, unless a shorter walk exists. *)
Theorem run_shortcuts e g n W Emax vs : searchable e g n W Emax -> (forall v, v ∈ vs -> 0 <= v < n) ->
  returns (th ← CHDijkstra.new; th ← forEach vs (fun v th => addNodeId th v) th; run e g th) (fun th =>
    exists new, IntArrayList.repr (shortcuts th) (flat new) /\ shortcuts_over_all e g n vs new).
Proof.
  intros Hg Hvs. eapply returns_bind; [apply new_ok |]. cbv beta. intros th (H1 & H2 & H3).
  eapply (returns_bind _ _ (fun th => idle th /\ IntArrayList.repr (shortcuts th) [] /\ IntArrayList.repr (nodeIdsToCalc th) vs)).
  - apply (forEach_inv (fun done th => idle th /\ IntArrayList.repr (shortcuts th) [] /\ IntArrayList.repr (nodeIdsToCalc th) done));
      [done |]. intros pre v todo th1 _ (I1 & I2 & I3).
    eapply returns_mono; [by apply (addNodeId_ok th1 pre v) |]. cbv beta. intros th2 (J1 & J2 & J3). by rewrite J2, J3.
  - cbv beta. intros th1 (I1 & I2 & I3). eapply returns_mono; [by apply (run_covers e g n W Emax Hg vs th1 []) |].
    cbv beta. intros th2 (_ & _ & Hnew). done.
Qed.
