(* ===== verification/LabelCreator.v ===== *)
(** * hublablecreation/LabelCreator.java: labels level by level

    The nodes are ordered by descending level, the order is cut where the level changes, and the
    nodes of one level are shared out to at most sixteen threads.  A list of picks is the order in
    which the threads of one level take effect: the theorems hold for every such order, because a
    thread reads only rows of higher levels and writes only the rows of its own nodes. *)

From Stdlib Require Import Sorting.Sorted.
From S2P Require Import Prelude SortedArray OrderedIntSet Edges DynamicGrid Labels HLDijkstra.

Definition NUM_OF_THREADS : Z := 16.
Definition NUM_OF_NO_LABEL_LVLS : Z := 0.

Section creator.
Context {D : Type} (nodes : Nodes D).

(** One comparison of the bubble sort. *)
Definition bubble (j : Z) (calcOrder : list Z) : res (list Z) :=
  a ← aget calcOrder (j - 1);
  la ← getNodeLvl nodes a;
  b ← aget calcOrder j;
  lb ← getNodeLvl nodes b;
  if la <? lb then
    temp ← aget calcOrder (j - 1);
    calcOrder' ← aset calcOrder (j - 1) b;
    aset calcOrder' j temp
  else Ok calcOrder.

(** One index of the loop that finds the level changes. *)
Definition findChange (calcOrder : list Z) (i : Z) (st : OrderedIntSet.t * Z) : res (OrderedIntSet.t * Z) :=
  let '(changeIndices, prevLvl) := st in
  u ← aget calcOrder i;
  currLvl ← getNodeLvl nodes u;
  changeIndices ← (if currLvl <? prevLvl then insertTail changeIndices i else Ok changeIndices);
  Ok (changeIndices, currLvl).

Definition createHLCalcOrder : res (list Z * OrderedIntSet.t) :=
  calcOrder ← newArray 0 (getNodeCount nodes);
  let n := alen calcOrder in
  calcOrder ← forRange 0 n (fun i a => aset a i i) calcOrder;
  calcOrder ← forRange 0 n (fun i => forRange 1 (n - i) bubble) calcOrder;
  changeIndices ← OrderedIntSet.new false 650 10;
  changeIndices ← insertTail changeIndices 0;
  '(changeIndices, _) ← forRange 0 n (findChange calcOrder) (changeIndices, 0);
  changeIndices ← insertTail changeIndices n;
  Ok (calcOrder, changeIndices).

(** The threads for the indices [startIdx..endIdx). *)
Definition threadsFor (calcOrder : list Z) (startIdx endIdx : Z) : res (list HLDijkstra.t) :=
  let minThreadNum := endIdx - startIdx in
  if NUM_OF_THREADS <? minThreadNum then
    let numOfNodes := Z.quot minThreadNum NUM_OF_THREADS in
    '(threadList, threadStartIdx) ← forRange 1 NUM_OF_THREADS (fun j '(threadList, threadStartIdx) =>
      let threadEndIdx := threadStartIdx + numOfNodes in
      th ← HLDijkstra.new threadStartIdx threadEndIdx calcOrder;
      Ok (threadList ++ [th], threadEndIdx)) ([], startIdx);
    th ← HLDijkstra.new threadStartIdx endIdx calcOrder;
    Ok (threadList ++ [th])
  else
    forRange startIdx endIdx (fun j threadList =>
      th ← HLDijkstra.new j (j + 1) calcOrder; Ok (threadList ++ [th])) [].

Section labels.
Context (e : Edges.t) (g : DynamicGrid.t).

(** The threads of a level run interleaved: when thread [k] is picked, it computes the labels of
    its next node.  A pick of a thread that has ended has no effect. *)
Definition stepThread (k : nat) (st : Labels.t * list HLDijkstra.t) : res (Labels.t * list HLDijkstra.t) :=
  let '(lab, threadList) := st in
  match threadList !! k with
  | Some th =>
      if startNodeIdx th <? endNodeIdx th then
        nodeId ← aget (HLDijkstra.calcOrder th) (startNodeIdx th);
        '(lab, f) ← HLDijkstra.calcLabels nodes e g lab nodeId (lists th);
        Ok (lab, <[k := HLDijkstra.mk (HLDijkstra.calcOrder th) (startNodeIdx th + 1) (endNodeIdx th) f]> threadList)
      else Ok st
  | None => Ok st
  end.

(** [picks i] is the order in which the threads of the [i]-th level make progress until the first
    [join]; [join] waits until the thread has computed its remaining nodes. *)
Context (picks : Z -> list nat).

Definition calcLevel (calcOrder : list Z) (changeIndices : OrderedIntSet.t) (i : Z) (lab : Labels.t) : res Labels.t :=
  startIdx ← get changeIndices i;
  endIdx ← get changeIndices (i + 1);
  threadList ← threadsFor calcOrder startIdx endIdx;
  '(lab, threadList) ← forEach (picks i) stepThread (lab, threadList);
  forEach threadList (fun th lab => '(lab, _) ← HLDijkstra.run nodes e g lab th; Ok lab) lab.

Definition calcLabels (lab : Labels.t) : res Labels.t :=
  '(calcOrder, changeIndices) ← createHLCalcOrder;
  let maxCalcIdx := size changeIndices - (NUM_OF_NO_LABEL_LVLS + 1) in
  forRange 0 maxCalcIdx (calcLevel calcOrder changeIndices) lab.
End labels.
End creator.

(** ** The calculation order *)

Section order.
Context {D : Type} (nodes : Nodes D).
Notation n := (getNodeCount nodes).
Notation lvl := (lvl nodes).
Context (Hlevels : alen (nLevels nodes) = n) (Hnonneg : forall u, 0 <= u < n -> 0 <= lvl u).

Lemma n_nonneg : 0 <= n.
Proof. apply alen_nonneg. Qed.

(** An arrangement of the node ids. *)
Definition arranged (o : list Z) : Prop := o ≡ₚ seqZ 0 n.

Lemma arranged_len o : arranged o -> alen o = n.
Proof.
  intros Ho. unfold alen. rewrite (Permutation_length Ho), length_seqZ. pose proof n_nonneg. lia.
Qed.

Lemma arranged_at o i : arranged o -> 0 <= i < n -> 0 <= o.[i] < n.
Proof.
  intros Ho Hi. assert (o.[i] ∈ o) as Hin by (apply at_In; by rewrite (arranged_len o Ho)).
  apply (elem_of_Permutation_proper _ _ _ Ho), elem_of_seqZ in Hin. lia.
Qed.

Lemma getNodeLvl_ok u : 0 <= u < n -> getNodeLvl nodes u = Ok (lvl u).
Proof. intros Hu. unfold getNodeLvl. rewrite aget_ok by lia. done. Qed.

(** The positions from [i] on hold the lowest levels, in descending order. *)
Definition settled (i : Z) (o : list Z) : Prop :=
  arranged o /\ forall p q, 0 <= p < q -> q < n -> i <= q -> lvl o.[q] <= lvl o.[p].

Definition lowest (j : Z) (o : list Z) : Prop := forall p, 0 <= p < j -> lvl o.[j - 1] <= lvl o.[p].

Lemma bubble_ok i j o : settled i o -> lowest j o -> 1 <= j < i -> i <= n ->
  returns (bubble nodes j o) (fun o' => settled i o' /\ lowest (j + 1) o').
Proof.
  intros [Ha Hs] Hl Hj Hi. pose proof (arranged_len o Ha) as Hlen. unfold bubble.
  rewrite aget_ok, bind_ok by lia. rewrite getNodeLvl_ok, bind_ok by (apply arranged_at; [done | lia]).
  rewrite aget_ok, bind_ok by lia. rewrite getNodeLvl_ok, bind_ok by (apply arranged_at; [done | lia]).
  destruct (Z.ltb_spec (lvl o.[j - 1]) (lvl o.[j])) as [Hlt | Hge].
  - rewrite bind_ok, aset_ok, bind_ok by lia. rewrite aset_ok by (autorewrite with alen; lia). ret.
    assert (forall q, 0 <= q < n -> (<[Z.to_nat j:=o.[j - 1]]> (<[Z.to_nat (j - 1):=o.[j]]> o)).[q]
      = if decide (q = j) then o.[j - 1] else if decide (q = j - 1) then o.[j] else o.[q]) as Hat.
    { intros q Hq. rewrite !at_insert by (autorewrite with alen; lia).
      repeat case_decide; try done; lia. }
    split; [split |].
    + refine (Permutation_trans _ Ha). apply Permutation_insert_swap; apply at_lookup; lia.
    + intros p q Hp Hq Hiq. rewrite (Hat q), (Hat p) by lia.
      rewrite (decide_False (P := q = j)), (decide_False (P := q = j - 1)) by lia.
      repeat case_decide; apply Hs; lia.
    + intros p Hp. rewrite (Hat (j + 1 - 1)), (Hat p) by lia. rewrite decide_True by lia.
      repeat case_decide; [lia | lia |]. apply Hl. lia.
  - ret. split; [done |]. intros p Hp. replace (j + 1 - 1) with j by lia.
    destruct (decide (p = j)) as [-> | Hne]; [lia |]. specialize (Hl p ltac:(lia)). lia.
Qed.

Definition descending (o : list Z) : Prop := forall p q, 0 <= p <= q -> q < n -> lvl o.[q] <= lvl o.[p].

Lemma bubbleSort_ok o : arranged o ->
  returns (forRange 0 n (fun i => forRange 1 (n - i) (bubble nodes)) o) (fun o' => arranged o' /\ descending o').
Proof.
  intros Ho. pose proof n_nonneg. eapply returns_mono.
  - apply (forRange_inv (fun i => settled (n - i))); [lia | |].
    + split; [done |]. intros; lia.
    + intros i o' Hi Hs. eapply returns_mono.
      * apply (forRange_inv (fun j o => settled (n - i) o /\ lowest j o)); [lia | |].
        -- split; [done |]. intros p Hp. replace p with (1 - 1) by lia. lia.
        -- intros j o1 Hj [Hs1 Hl1]. apply bubble_ok; [done | done | lia | lia].
      * cbv beta. intros o1 [[Ha1 Hs1] Hl1]. split; [done |]. intros p q Hp Hq Hiq.
        destruct (decide (n - i <= q)) as [? | Hlow]; [by apply Hs1 |].
        replace q with (n - i - 1) by lia. apply Hl1. lia.
  - cbv beta. intros o' [Ha Hs]. split; [done |]. intros p q Hp Hq.
    destruct (decide (p = q)) as [-> | Hne]; [lia |]. apply Hs; lia.
Qed.

(** ** The level changes *)

(** [c] lists, in order, the positions below [i] at which a level begins; 0 is one of them. *)
Definition changes (o : list Z) (i : Z) (c : list Z) : Prop :=
  StronglySorted Z.lt c /\
  forall p, p ∈ c <-> p = 0 \/ (0 < p < i /\ lvl o.[p] < lvl o.[p - 1]).

Lemma sorted_snoc (l : list Z) x : StronglySorted Z.lt l -> (forall y, y ∈ l -> y < x) ->
  StronglySorted Z.lt (l ++ [x]).
Proof.
  induction 1 as [| y l Hs IH Hy]; intros Hx; cbn; [repeat constructor |].
  constructor; [apply IH; intros z Hz; apply Hx; set_solver |].
  apply Forall_app. split; [done |]. constructor; [apply Hx; set_solver | done].
Qed.

Lemma findChange_ok o i c s prev : arranged o -> 0 <= i < n -> repr s c -> changes o i c ->
  (i = 0 -> prev = 0) -> (0 < i -> prev = lvl o.[i - 1]) ->
  returns (findChange nodes o i (s, prev)) (fun '(s', prev') => prev' = lvl o.[i] /\
    exists c', repr s' c' /\ changes o (i + 1) c').
Proof.
  intros Ha Hi Hs [Hc Hin] H0 Hprev. unfold findChange.
  rewrite aget_ok, bind_ok by (rewrite (arranged_len o Ha); lia).
  pose proof (arranged_at o i Ha Hi) as Hu. rewrite getNodeLvl_ok, bind_ok by done.
  destruct (Z.ltb_spec (lvl o.[i]) prev) as [Hlt | Hge].
  - eapply returns_bind; [apply (insertTail_repr _ _ _ Hs) |]. cbv beta. intros s' [Hs' _]. ret.
    split; [done |]. exists (c ++ [i]). split; [done |].
    assert (0 < i) as Hpos.
    { destruct (decide (i = 0)) as [E | ?]; [| lia]. specialize (Hnonneg _ Hu). rewrite (H0 E) in Hlt. lia. }
    split.
    + apply sorted_snoc; [done |]. intros y Hy. apply Hin in Hy. lia.
    + intros p. rewrite elem_of_app, list_elem_of_singleton, Hin.
      rewrite (Hprev Hpos) in Hlt. split.
      * intros [[-> | Hp] | ->]; [by left | right; lia | right; lia].
      * intros [-> | Hp]; [left; by left |]. destruct (decide (p = i)); [by right |]. left. right. lia.
  - rewrite bind_ok. ret. split; [done |]. exists c. split; [done |]. split; [done |].
    intros p. rewrite Hin. split; [intros [-> | Hp]; [by left | right; lia] |].
    intros [-> | [Hp Hl]]; [by left |]. destruct (decide (p = i)) as [-> | Hne]; [| right; lia].
    rewrite (Hprev ltac:(lia)) in Hge. lia.
Qed.

(** The [k]-th entry of the positions at which the levels begin, closed by [n]. *)
Definition cut (c : list Z) (k : Z) : Z := (c ++ [n]).[k].

Lemma cut_at c k : 0 <= k < alen c -> cut c k = c.[k].
Proof. intros. by apply at_app_l. Qed.

Lemma cut_last c : cut c (alen c) = n.
Proof. unfold cut. by rewrite at_app_r, Z.sub_diag by lia. Qed.

Lemma cut_first o c : changes o n c -> 0 < alen c /\ cut c 0 = 0.
Proof.
  intros [Hs Hin]. assert (0 ∈ c) as H0 by (apply Hin; by left).
  apply In_at in H0 as (i & Hi & E). split; [lia |]. rewrite cut_at by lia.
  destruct (decide (i = 0)) as [-> | Hne]; [done |].
  pose proof (sorted_at c 0 i Hs ltac:(lia) ltac:(lia)).
  assert (c.[0] ∈ c) as H0%Hin by (apply at_In; lia). lia.
Qed.

(** Between two cuts all nodes are on one level. *)
Lemma cut_level o c k : descending o -> changes o n c -> 0 <= k < alen c ->
  0 <= cut c k <= cut c (k + 1) /\ cut c (k + 1) <= n /\
  forall p, cut c k <= p < cut c (k + 1) -> lvl o.[p] = lvl o.[cut c k].
Proof.
  intros Hd [Hs Hin] Hk. pose proof n_nonneg.
  assert (forall j, 0 <= j < alen c -> 0 <= c.[j] <= n) as Hc.
  { intros j Hj. assert (c.[j] ∈ c) as [-> | ?]%Hin by (by apply at_In); lia. }
  assert (c.[k] <= cut c (k + 1) <= n) as Hnext.
  { destruct (decide (k + 1 < alen c)) as [Hlt | Hge].
    - rewrite cut_at by lia. pose proof (sorted_at c k (k + 1) Hs). pose proof (Hc (k + 1)). lia.
    - replace (k + 1) with (alen c) by lia. rewrite cut_last. pose proof (Hc k Hk). lia. }
  rewrite (cut_at c k) by done. pose proof (Hc k Hk) as Hck. split; [lia |]. split; [lia |]. intros p.
  replace p with (c.[k] + (p - c.[k])) by lia. intros Hp. assert (0 <= p - c.[k]) as Hm by lia. revert Hm Hp.
  generalize (p - c.[k]) as m. clear p. apply (natlike_ind (fun m => c.[k] <= c.[k] + m < cut c (k + 1) -> _)).
  { intros _. by rewrite Z.add_0_r. }
  intros m Hm IH Hp. rewrite <-IH by lia.
  replace (c.[k] + Z.succ m) with (c.[k] + m + 1) in * by lia. set (q := c.[k] + m) in *.
  assert (q + 1 ∉ c) as Hno.
  { intros (j & Hj & E)%In_at. destruct (decide (j <= k)) as [Hjk | Hjk].
    - destruct (decide (j = k)) as [-> | ?]; [lia |]. pose proof (sorted_at c j k Hs). lia.
    - rewrite cut_at in Hp by lia. destruct (decide (j = k + 1)) as [-> | ?]; [lia |].
      pose proof (sorted_at c (k + 1) j Hs). lia. }
  rewrite Hin in Hno. pose proof (Hd q (q + 1) ltac:(lia) ltac:(lia)).
  destruct (decide (lvl o.[q + 1] < lvl o.[q])) as [Hl | Hl]; [| lia].
  exfalso. apply Hno. right. replace (q + 1 - 1) with q by lia. lia.
Qed.

(** What [createHLCalcOrder] computes: all nodes by descending level, and the positions where the
    levels begin, closed by the number of nodes. *)
Definition level_order (o : list Z) (s : OrderedIntSet.t) : Prop :=
  arranged o /\ descending o /\ exists c, repr s (c ++ [n]) /\ changes o n c.

Lemma createHLCalcOrder_ok : returns (createHLCalcOrder nodes) (fun '(o, s) => level_order o s).
Proof.
  pose proof n_nonneg as Hn. unfold createHLCalcOrder. unfold newArray at 1.
  destruct (Z.ltb_spec n 0); [lia |]. rewrite bind_ok, alen_replicate by done.
  eapply returns_bind.
  { apply (forRange_inv (fun i a => alen a = n /\ forall p, 0 <= p < i -> a.[p] = p)); [done | |].
    - split; [by apply alen_replicate | intros; lia].
    - intros i a Hi [Hlen Hat]. rewrite aset_ok by lia. ret. autorewrite with alen. split; [done |].
      intros p Hp. rewrite at_insert by lia. case_decide; [done |]. apply Hat. lia. }
  cbv beta. intros o0 [Hlen Hat].
  assert (arranged o0) as Ha0.
  { unfold arranged. replace o0 with (seqZ 0 n); [done |]. apply arr_ext.
    - unfold alen in *. rewrite length_seqZ. lia.
    - unfold alen at 1. rewrite length_seqZ. intros p Hp. rewrite Hat by lia.
      apply list_lookup_total_correct, lookup_seqZ. lia. }
  eapply returns_bind; [by apply bubbleSort_ok |]. cbv beta. intros o [Ha Hd].
  eapply returns_bind; [by apply set_repr_new |]. cbv beta. intros s0 Hs0.
  eapply returns_bind; [apply (insertTail_repr _ _ _ Hs0) |]. cbv beta. intros s1 [Hs1 _].
  eapply returns_bind.
  { apply (forRange_inv (fun i '(s, prev) => (i = 0 -> prev = 0) /\ (0 < i -> prev = lvl o.[i - 1]) /\
      exists c, repr s c /\ changes o i c)); [done | |].
    - split; [done |]. split; [lia |]. exists [0]. split; [done |]. split; [repeat constructor |].
      intros p. rewrite list_elem_of_singleton. lia.
    - intros i [s prev] Hi (H0 & Hprev & c & Hs & Hc).
      eapply returns_mono; [by apply (findChange_ok o i c) |]. cbv beta.
      intros [s' prev'] (-> & Hc'). split; [lia |]. replace (i + 1 - 1) with i by lia. done. }
  cbv beta. intros [s2 prev] (_ & _ & c & Hs2 & Hc).
  eapply returns_bind; [apply (insertTail_repr _ _ _ Hs2) |]. cbv beta. intros s3 [Hs3 _]. ret.
  split; [done |]. split; [done |]. by exists c.
Qed.
End order.

(** ** The threads of a level *)

(** The positions a thread works on. *)
Definition share (th : HLDijkstra.t) : list Z := seqZ (startNodeIdx th) (endNodeIdx th - startNodeIdx th).

(** A thread that works on positions of [[a..b)]. *)
Record worker (o : list Z) (a b : Z) (th : HLDijkstra.t) : Prop := {
  wk_order : HLDijkstra.calcOrder th = o;
  wk_range : a <= startNodeIdx th <= endNodeIdx th /\ endNodeIdx th <= b;
  wk_lists : lists_ok (lists th);
}.

(** The threads work on the positions [[a..b)], each position by one thread. *)
Definition crew (o : list Z) (a b : Z) (threadList : list HLDijkstra.t) : Prop :=
  Forall (worker o a b) threadList /\ concat (share <$> threadList) = seqZ a (b - a).

Lemma create_new_ok o s e : returns (HLDijkstra.new s e o) (fun th => HLDijkstra.calcOrder th = o /\
  startNodeIdx th = s /\ endNodeIdx th = e /\ lists_ok (lists th)).
Proof.
  assert (forall b, returns (OrderedIntSet.new b 1000 2000) (fun s => repr s [] /\ orderedBySorting s = b)) as Hnew.
  { intros b. pose proof (set_repr_new b 1000 2000 ltac:(lia) ltac:(lia)) as H. unfold OrderedIntSet.new in *.
    destruct (newArray _ _); [done | done]. }
  unfold HLDijkstra.new.
  eapply returns_bind; [apply Hnew |]. cbv beta. intros i [Hi Ho].
  eapply returns_bind; [apply Hnew |]. cbv beta. intros d [Hd _].
  eapply returns_bind; [apply Hnew |]. cbv beta. intros f [Hf _].
  ret. split; [done |]. split; [done |]. split; [done |]. unfold lists_ok. cbn. eauto 10.
Qed.

Lemma worker_mono o a b b' th : worker o a b th -> b <= b' -> worker o a b' th.
Proof. intros [Ho Hr Hl] Hb. split; [done | lia | done]. Qed.

(** One more thread, for the positions that follow. *)
Lemma crew_snoc o a b c threadList th : crew o a b threadList -> a <= b <= c ->
  HLDijkstra.calcOrder th = o -> startNodeIdx th = b -> endNodeIdx th = c -> lists_ok (lists th) ->
  crew o a c (threadList ++ [th]).
Proof.
  intros [Hw Hs] Hb Ho Es Ee Hl. split.
  - apply Forall_app. split; [| constructor; [split; [done | lia | done] | done]].
    eapply Forall_impl; [exact Hw |]. intros th' H. apply (worker_mono _ _ _ _ _ H). lia.
  - rewrite fmap_app, concat_app, Hs. cbn. rewrite app_nil_r. unfold share. rewrite Es, Ee.
    replace (c - a) with ((b - a) + (c - b)) by lia. rewrite seqZ_app by lia. do 2 f_equal; lia.
Qed.

Lemma crew_nil o a : crew o a a [].
Proof. split; [done |]. by replace (a - a) with 0 by lia. Qed.

Lemma alen_snoc {A} (l : list A) x : alen (l ++ [x]) = alen l + 1.
Proof. unfold alen. rewrite length_app. cbn. lia. Qed.

Lemma threadsFor_ok o a b : a <= b ->
  returns (threadsFor o a b) (fun threadList => crew o a b threadList /\ alen threadList <= NUM_OF_THREADS).
Proof.
  intros Hab. unfold threadsFor. destruct (Z.ltb_spec NUM_OF_THREADS (b - a)) as [Hlt | Hge].
  - set (k := Z.quot (b - a) NUM_OF_THREADS).
    assert (0 <= k /\ NUM_OF_THREADS * k <= b - a) as [Hk0 Hk].
    { unfold k, NUM_OF_THREADS in *. rewrite Z.quot_div_nonneg by lia.
      pose proof (Z.mul_div_le (b - a) 16). split; [apply Z.div_pos; lia | lia]. }
    eapply returns_bind.
    + apply (forRange_inv (fun j '(threadList, s) => s = a + (j - 1) * k /\ crew o a s threadList /\
        alen threadList = j - 1)); [unfold NUM_OF_THREADS; lia | |].
      * split; [lia |]. split; [apply crew_nil | done].
      * intros j [threadList s] Hj (Es & Hc & Hlen).
        eapply returns_bind; [apply (create_new_ok o s (s + k)) |]. cbv beta. intros th (Eo & Est & Een & Hl). ret.
        split; [lia |]. split; [| rewrite alen_snoc; lia].
        apply (crew_snoc _ _ s); try done. nia.
    + cbv beta. intros [threadList s] (Es & Hc & Hlen).
      eapply returns_bind; [apply (create_new_ok o s b) |]. cbv beta. intros th (Eo & Est & Een & Hl). ret.
      split; [| rewrite alen_snoc; lia]. apply (crew_snoc _ _ s); try done. unfold NUM_OF_THREADS in *. lia.
  - eapply returns_mono.
    + apply (forRange_inv (fun j threadList => crew o a j threadList /\ alen threadList = j - a)); [done | |].
      * split; [apply crew_nil | unfold alen; simpl; lia].
      * intros j threadList Hj [Hc Hlen].
        eapply returns_bind; [apply (create_new_ok o j (j + 1)) |]. cbv beta. intros th (Eo & Est & Een & Hl). ret.
        split; [| rewrite alen_snoc; lia]. apply (crew_snoc _ _ j); try done. lia.
    + cbv beta. intros threadList [Hc Hlen]. split; [done | lia].
Qed.

(** ** Upward ways *)

Section hierarchy.
Context {D : Type} (nodes : Nodes D) (e : Edges.t) (g : DynamicGrid.t).
Notation n := (getNodeCount nodes).
Notation lvl := (lvl nodes).
Notation dst := (dst e).
Notation weight := (weight e).
Notation upEdges := (upEdges nodes e g).

(** A way over edges that do not lead to a lower level. *)
Inductive way : Z -> Z -> Z -> Prop :=
| way_here u : way u u 0
| way_up u x y d : 0 <= u < n -> x ∈ upEdges u -> way (dst x) y d -> way u y (weight x + d).

Lemma way_trans u v d w d' : way u v d -> way v w d' -> way u w (d + d').
Proof.
  induction 1 as [| u x v d Hu Hx Hw IH]; intros H; [done |].
  replace (weight x + d + d') with (weight x + (d + d')) by lia. constructor; auto.
Qed.

Lemma way_cases u h a : way u h a -> (h = u /\ a = 0) \/
  exists x d, x ∈ upEdges u /\ way (dst x) h d /\ a = weight x + d.
Proof. intros H. inversion H; subst; [by left | right]. by eexists _, _. Qed.

Lemma way_edge u x : 0 <= u < n -> x ∈ upEdges u -> way u (dst x) (weight x).
Proof. intros. replace (weight x) with (weight x + 0) by lia. constructor; [done | done | constructor]. Qed.

(** What the contraction leaves: a graph whose neighbours are on different levels, with at most
    one edge from a node to another one, and no upward way longer than [R]. *)
Record hierarchy (R : Z) : Prop := {
  hi_grid : grid_ok g n;
  hi_count : n < MAX_VALUE;
  hi_levels : alen (nLevels nodes) = n;
  hi_nonneg : forall u, 0 <= u < n -> 0 <= lvl u;
  hi_edge : forall u x, 0 <= u < n -> x ∈ everEdge g u ->
    Edges.getDest e x = Ok (dst x) /\ 0 <= dst x < n /\ lvl (dst x) <> lvl u;
  hi_up : forall u x, 0 <= u < n -> x ∈ upEdges u -> Edges.getDist e x = Ok (weight x) /\ 0 <= weight x;
  hi_simple : forall u, 0 <= u < n -> NoDup (dst <$> upEdges u);
  hi_short : forall u v d, 0 <= u < n -> way u v d -> d <= R;
  hi_room : 0 <= R /\ 3 * R <= MAX_VALUE;
}.
Context (R : Z) (Hh : hierarchy R).

Lemma up_edge u x : 0 <= u < n -> x ∈ upEdges u -> 0 <= dst x < n /\ lvl u < lvl (dst x).
Proof.
  intros Hu [Hin Hlvl]%list_elem_of_In%filter_In. apply list_elem_of_In in Hin.
  destruct (hi_edge _ Hh u x Hu Hin) as (_ & Hd & Hne).
  destruct (Z.ltb_spec (lvl (dst x)) (lvl u)); [done | lia].
Qed.

Lemma way_bounds u v d : 0 <= u < n -> way u v d ->
  0 <= v < n /\ 0 <= d <= R /\ (u = v \/ lvl u < lvl v).
Proof.
  intros Hu Hw. assert (d <= R) as HR by (by eapply hi_short).
  cut (0 <= v < n /\ 0 <= d /\ (u = v \/ lvl u < lvl v)); [lia |]. clear HR. revert Hu.
  induction Hw as [u | u x v d Hu Hx Hw IH]; intros Hu0; [lia |].
  destruct (up_edge u x Hu Hx) as [Hd Hl]. destruct (hi_up _ Hh u x Hu Hx) as [_ Hw0].
  destruct (IH Hd) as (Hv & Hd0 & Hcase). split; [done |]. split; [lia |]. right. destruct Hcase as [<- | Hlt]; lia.
Qed.

(** A higher node [h'] on which a way from [u] over [h] can be replaced. *)
Definition dominated (u h a : Z) : Prop := exists h' a' c,
  h' <> h /\ way u h' a' /\ way h h' c /\ a' + c <= a.

(** ** Rows *)

(** The row of [v] is complete: three arrays of one length. *)
Definition full_row (lab : Labels.t) (v : Z) (cl cd ce : list Z) : Prop :=
  has_labels lab v cl cd /\ aget (labelEdges lab) v = Ok (Some ce) /\ alen ce = alen cl.

(** Label [x] at distance [dx] in the row of [v], with the first edge [ed]. *)
Definition first_edge (lab : Labels.t) (v x dx ed : Z) : Prop := exists cl cd ce i,
  full_row lab v cl cd ce /\ 0 <= i < alen cl /\ cl.[i] = x /\ cd.[i] = dx /\ ce.[i] = ed.

(** The top of every upward way has a label that is not longer, or is dominated. *)
Definition tops (lab : Labels.t) (v : Z) : Prop := forall h a, way v h a ->
  (exists a', a' <= a /\ label lab v h a') \/ dominated v h a.

(** The row of [v]: every label is the length of a least upward way, which starts with the stored
    edge and is not dominated. *)
Record row_good (lab : Labels.t) (v : Z) : Prop := {
  rg_labels : exists cl cd ce, full_row lab v cl cd ce;
  rg_sound : forall x dx, label lab v x dx -> way v x dx;
  rg_self : label lab v v 0;
  rg_top : tops lab v;
  rg_first : forall x dx ed, first_edge lab v x dx ed ->
    (x = v /\ ed = -1) \/ (ed ∈ upEdges v /\ way (dst ed) x (dx - weight ed));
  rg_free : forall x dx, label lab v x dx -> x <> v -> ~ dominated v x dx;
  rg_least : forall x dx a, label lab v x dx -> way v x a -> dx <= a;
}.

Definition same_row (lab lab' : Labels.t) (u : Z) : Prop :=
  aget (labelNodes lab') u = aget (labelNodes lab) u /\ aget (labelDist lab') u = aget (labelDist lab) u /\
  aget (labelEdges lab') u = aget (labelEdges lab) u.

Lemma same_row_sym lab lab' u : same_row lab lab' u -> same_row lab' lab u.
Proof. intros (? & ? & ?). split_and!; congruence. Qed.

Lemma same_label lab lab' u x dx : same_row lab lab' u -> label lab u x dx -> label lab' u x dx.
Proof. intros (E1 & E2 & _) (cl & cd & i & (L1 & L2 & Hl) & Hi). exists cl, cd, i. unfold has_labels. by rewrite E1, E2. Qed.

Lemma same_full lab lab' u cl cd ce : same_row lab lab' u -> full_row lab u cl cd ce -> full_row lab' u cl cd ce.
Proof. intros (E1 & E2 & E3) ((L1 & L2 & Hl) & L3 & He). unfold full_row, has_labels. by rewrite E1, E2, E3. Qed.

Lemma same_tops lab lab' u : same_row lab lab' u -> tops lab u -> tops lab' u.
Proof.
  intros Hs Ht h a Hw. destruct (Ht h a Hw) as [(a' & ? & ?) | ?]; [left | by right].
  exists a'. split; [done | by apply (same_label lab)].
Qed.

Lemma row_good_same lab lab' u : same_row lab lab' u -> row_good lab u -> row_good lab' u.
Proof.
  intros Hs [(cl & cd & ce & Hl) Hw Hself Htop Hf Hfree Hleast]. pose proof (same_row_sym _ _ _ Hs) as Hs'. split.
  - exists cl, cd, ce. by apply (same_full lab).
  - intros x dx Hx. by apply Hw, (same_label lab').
  - by apply (same_label lab).
  - by apply (same_tops lab).
  - intros x dx ed (cl' & cd' & ce' & i & Hr & Hi). apply Hf. exists cl', cd', ce', i. split; [by apply (same_full lab') | done].
  - intros x dx Hx. by apply Hfree, (same_label lab').
  - intros x dx a Hx. by apply Hleast, (same_label lab').
Qed.

Definition sized (lab : Labels.t) : Prop :=
  alen (labelNodes lab) = n /\ alen (labelEdges lab) = n /\ alen (labelDist lab) = n.

(** Other rows are left alone when the row of [v] is written. *)
Lemma row_for_other lab v lab' l l' u : sized lab -> 0 <= v < n ->
  row_for nodes e g lab R v lab' l l' -> u <> v -> same_row lab lab' u.
Proof.
  intros (L1 & L2 & L3) Hv Hrow Hu. unfold same_row.
  rewrite (row_nodes _ _ _ _ _ _ _ _ _ Hrow), (row_dists _ _ _ _ _ _ _ _ _ Hrow), (row_edges _ _ _ _ _ _ _ _ _ Hrow).
  split; [| split].
  all: destruct (decide (0 <= u < n)) as [Hun | Hun];
    [rewrite !aget_ok by (autorewrite with alen; lia); by rewrite at_insert, decide_False by lia
    | by rewrite !aget_oob by (autorewrite with alen; lia)].
Qed.

(** The row that was written holds the kept labels. *)
Lemma row_for_label lab v lab' l l' : sized lab -> 0 <= v < n -> row_for nodes e g lab R v lab' l l' ->
  has_labels lab' v (eid <$> l') (edist <$> l') /\
  forall x dx, label lab' v x dx <-> exists ed, mkEntry x dx ed ∈ l'.
Proof.
  intros (L1 & L2 & L3) Hv Hrow.
  assert (has_labels lab' v (eid <$> l') (edist <$> l')) as Hlab.
  { split; [| split; [| split]].
    - rewrite (row_nodes _ _ _ _ _ _ _ _ _ Hrow), aget_ok by (autorewrite with alen; lia).
      by rewrite at_insert, decide_True by lia.
    - rewrite (row_dists _ _ _ _ _ _ _ _ _ Hrow), aget_ok by (autorewrite with alen; lia).
      by rewrite at_insert, decide_True by lia.
    - by rewrite !alen_map.
    - apply (row_sorted _ _ _ _ _ _ _ _ _ Hrow). }
  split; [done |]. intros x dx. split.
  - intros (cl & cd & i & (E1 & E2 & _) & Hi & <- & <-). destruct Hlab as (E1' & E2' & _).
    rewrite E1' in E1. rewrite E2' in E2. injection E1 as <-. injection E2 as <-. rewrite alen_map in Hi.
    exists (efirst l'.[i]). rewrite !at_map, entry_eta by done. by apply at_In.
  - intros [ed (i & Hi & E)%In_at]. exists (eid <$> l'), (edist <$> l'), i.
    split; [done |]. rewrite alen_map, !at_map, E by done. done.
Qed.

(** The levels are bounded. *)
Lemma level_bound : exists m, forall x, 0 <= x < n -> lvl x < m.
Proof.
  exists (foldr Z.max 0 (nLevels nodes) + 1). intros x Hx.
  assert (forall l (y : Z), y ∈ l -> y <= foldr Z.max 0 l) as Hmax.
  { induction l as [| z l IH]; intros y Hy; [by apply elem_of_nil in Hy |].
    apply elem_of_cons in Hy as [-> | Hy]; cbn; [lia |]. specialize (IH y Hy). lia. }
  assert (lvl x <= foldr Z.max 0 (nLevels nodes)); [| lia].
  apply Hmax, at_In. rewrite (hi_levels _ Hh). done.
Qed.

(** The labels of two nodes meet on every pair of upward ways: at a higher node if the top of the
    ways is dominated from one of them. *)
Lemma meet_ok lab u v : tops lab u -> tops lab v -> 0 <= u < n -> 0 <= v < n ->
  forall h a b, way u h a -> way v h b ->
  exists h' a' b', label lab u h' a' /\ label lab v h' b' /\ a' + b' <= a + b /\ lvl h <= lvl h'.
Proof.
  intros Htu Htv Hu Hv. destruct level_bound as [m Hm].
  assert (forall k h a b, m - lvl h < Z.of_nat k -> way u h a -> way v h b ->
    exists h' a' b', label lab u h' a' /\ label lab v h' b' /\ a' + b' <= a + b /\ lvl h <= lvl h') as Hgen.
  { induction k as [| k IH]; intros h a b Hk Hwu Hwv; destruct (way_bounds _ _ _ Hu Hwu) as (Hn & _).
    { specialize (Hm h Hn). lia. }
    assert (forall h' c, way h h' c -> h' <> h -> lvl h < lvl h') as Hup.
    { intros h' c Hw Hne. destruct (way_bounds _ _ _ Hn Hw) as (_ & _ & [-> | Hl]); [done | lia]. }
    destruct (Htu h a Hwu) as [(a' & Ha' & Hlu) | (h' & a' & c & Hne & H1 & H2 & Hle)].
    2:{ pose proof (Hup _ _ H2 Hne).
        destruct (IH h' a' (b + c)) as (x & a1 & b1 & ? & ? & ? & ?); [lia | done | by eapply way_trans |].
        exists x, a1, b1. split_and!; done || lia. }
    destruct (Htv h b Hwv) as [(b' & Hb' & Hlv) | (h' & b' & c & Hne & H1 & H2 & Hle)].
    2:{ pose proof (Hup _ _ H2 Hne).
        destruct (IH h' (a + c) b') as (x & a1 & b1 & ? & ? & ? & ?); [lia | by eapply way_trans | done |].
        exists x, a1, b1. split_and!; done || lia. }
    exists h, a', b'. split_and!; done || lia. }
  intros h a b. destruct (Z.le_exists_sub 0 (Z.max 0 (m - lvl h) + 1)) as (k & E & Hk); [lia |].
  apply (Hgen (Z.to_nat k)). lia.
Qed.

(** *** The row of one node *)

Section new_row.
Context (lab lab' : Labels.t) (v : Z) (l l' : list entry).
Context (Hsize : sized lab) (Hv : 0 <= v < n) (Hrow : row_for nodes e g lab R v lab' l l').
Context (Hup : forall y, y ∈ upEdges v -> row_good lab (dst y)).
Context (Hin : forall en, en ∈ l -> eid en = v \/ (eid en <> v /\ row_good lab (eid en))).

(** A label that is derived is the length of a way. *)
Lemma derived_way x d ed : derived nodes e g lab R v x d ed -> way v x d.
Proof.
  induction 1 as [| y Hy | y b' bd ed y' dy Hy -> Hb IH Hbd Hl].
  - constructor.
  - by apply way_edge.
  - eapply way_trans; [exact IH |]. by apply (rg_sound _ _ (Hup y Hy)).
Qed.

(** The way starts with the edge that is stored. *)
Lemma derived_first x d ed : derived nodes e g lab R v x d ed ->
  (x = v /\ ed = -1) \/ (ed ∈ upEdges v /\ way (dst ed) x (d - weight ed)).
Proof.
  induction 1 as [| y Hy | y b' bd ed y' dy Hy -> Hb IH Hbd Hl]; [by left | right |].
  - split; [done |]. rewrite Z.sub_diag. constructor.
  - destruct (up_edge v y Hv Hy) as [_ Hlt]. destruct IH as [[E _] | [He Hw]]; [rewrite E in Hlt; lia | right].
    split; [done |]. replace (bd + dy - weight ed) with (bd - weight ed + dy) by lia.
    eapply way_trans; [exact Hw |]. by apply (rg_sound _ _ (Hup y Hy)).
Qed.

Lemma kept_derived en : en ∈ l' -> derived nodes e g lab R v (eid en) (edist en) (efirst en).
Proof. intros H. by apply (row_sound _ _ _ _ _ _ _ _ _ Hrow), (row_sub _ _ _ _ _ _ _ _ _ Hrow). Qed.

Lemma kept_label x dx : label lab' v x dx <-> exists ed, mkEntry x dx ed ∈ l'.
Proof. by apply (row_for_label lab v lab' l l' Hsize Hv Hrow). Qed.

Lemma kept_way x dx : label lab' v x dx -> way v x dx.
Proof. intros [ed H]%kept_label. by apply kept_derived, derived_way in H. Qed.

(** The top of a way has a label among those found, which is kept, or the top is dominated. *)
Lemma top_kept : tops lab' v.
Proof.
  intros h a0 Hway. destruct (way_cases _ _ _ Hway) as [[-> ->] | (x & d & Hx & Hw & ->)].
  { destruct (row_own _ _ _ _ _ _ _ _ _ Hrow) as (d & ed & ? & ?). left. exists d. split; [done |].
    apply kept_label. by exists ed. }
  destruct (up_edge v x Hv Hx) as [Hdn Hlt].
  destruct (rg_top _ _ (Hup x Hx) h d Hw) as [(a' & Ha' & Hl) | (h' & a' & c & Hne & H1 & H2 & Hle)].
  2:{ right. exists h', (weight x + a'), c. split; [done |]. split; [by constructor |]. split; [done | lia]. }
  destruct (row_over _ _ _ _ _ _ _ _ _ Hrow x h a' Hx Hl) as (a1 & ed & Hen & Ha1).
  destruct (decide (mkEntry h a1 ed ∈ l')) as [? | Hno].
  { left. exists a1. split; [lia |]. apply kept_label. by exists ed. }
  right. destruct (row_removed _ _ _ _ _ _ _ _ _ Hrow _ Hen Hno) as (h' & dh & eh & dx & Hin' & Hlh & Hne & Hle).
  cbn [eid edist] in *. exists h', dh, dx. split; [done |].
  split; [apply (derived_way _ _ eh), (row_sound _ _ _ _ _ _ _ _ _ Hrow _ Hin') |].
  split; [| lia]. destruct (Hin _ Hen) as [Ev | [_ Hr]]; [| by apply (rg_sound _ _ Hr)].
  cbn in Ev. rewrite Ev in *. destruct (way_bounds _ _ _ Hdn Hw) as (_ & _ & [E | ?]); [rewrite E in Hlt |]; lia.
Qed.

(** No label that was kept can be replaced over a higher node. *)
Lemma kept_free x dx : label lab' v x dx -> x <> v -> ~ dominated v x dx.
Proof.
  intros Hl Hne (h & a & c & Hhx & Hwv & Hwx & Hle). pose proof (kept_way x dx Hl) as Hway.
  apply kept_label in Hl as [ed Hen]. destruct (way_bounds _ _ _ Hv Hway) as (Hxn & _).
  destruct (Hin _ (row_sub _ _ _ _ _ _ _ _ _ Hrow _ Hen)) as [? | [_ Hgood]]; [done |]. cbn in Hgood.
  pose proof (row_for_other lab v lab' l l' x Hsize Hv Hrow Hne) as Hsame.
  destruct (meet_ok lab' v x top_kept (same_tops lab lab' x Hsame (rg_top _ _ Hgood)) Hv Hxn h a c Hwv Hwx)
    as (h' & a' & c' & Hlv & Hlx & Hle' & Hlvl).
  apply kept_label in Hlv as [eh Hh']. apply (row_kept _ _ _ _ _ _ _ _ _ Hrow _ Hen Hne).
  exists h', a', eh, c'. split; [done |]. split; [by apply (same_label lab'), Hlx; apply same_row_sym |]. cbn.
  split; [| lia]. intros ->. destruct (way_bounds _ _ _ Hxn Hwx) as (_ & _ & [? | ?]); [congruence | lia].
Qed.

Lemma kept_least x dx a : label lab' v x dx -> way v x a -> dx <= a.
Proof.
  intros Hl Hway. destruct (way_bounds _ _ _ Hv Hway) as (_ & Ha & _).
  pose proof Hl as [ed Hen]%kept_label. pose proof (row_sub _ _ _ _ _ _ _ _ _ Hrow _ Hen) as Hen'.
  destruct (decide (x = v)) as [-> | Hne].
  { destruct (row_own _ _ _ _ _ _ _ _ _ Hrow) as (d & ed' & Hown & Hd). apply (row_sub _ _ _ _ _ _ _ _ _ Hrow) in Hown.
    destruct (row_unique _ _ _ _ _ _ _ _ _ Hrow _ _ _ _ _ Hen' Hown). lia. }
  destruct (decide (dx <= a)) as [| Hgt]; [done | exfalso].
  destruct (way_cases _ _ _ Hway) as [[? _] | (y & d & Hy & Hw & ->)]; [done |].
  destruct (rg_top _ _ (Hup y Hy) x d Hw) as [(a' & Ha' & Hly) | (h' & a' & c & Hne' & H1 & H2 & Hle)].
  - destruct (row_over _ _ _ _ _ _ _ _ _ Hrow y x a' Hy Hly) as (a1 & ed' & Hen2 & Ha1).
    destruct (row_unique _ _ _ _ _ _ _ _ _ Hrow _ _ _ _ _ Hen' Hen2). lia.
  - apply (kept_free x dx Hl Hne). exists h', (weight y + a'), c. split; [done |]. split; [by constructor |]. split; [done | lia].
Qed.

Lemma new_row : row_good lab' v.
Proof.
  destruct (row_for_label lab v lab' l l' Hsize Hv Hrow) as [Hlab _]. pose proof Hsize as (_ & L2 & _).
  assert (full_row lab' v (eid <$> l') (edist <$> l') (efirst <$> l')) as Hfull.
  { split; [done |]. split; [| by rewrite !alen_map].
    rewrite (row_edges _ _ _ _ _ _ _ _ _ Hrow), aget_ok by (autorewrite with alen; lia).
    by rewrite at_insert, decide_True by lia. }
  split.
  - by eexists _, _, _.
  - apply kept_way.
  - destruct (row_own _ _ _ _ _ _ _ _ _ Hrow) as (d & ed & Hen & Hd0). apply kept_label. exists ed.
    destruct (way_bounds v v d Hv) as (_ & ? & _); [by apply kept_way, kept_label; exists ed | by replace 0 with d by lia].
  - apply top_kept.
  - intros x dx ed (cl & cd & ce & i & ((E1 & E2 & _) & E3 & _) & Hi & <- & <- & <-).
    destruct Hfull as ((F1 & F2 & _) & F3 & _). rewrite F1 in E1. rewrite F2 in E2. rewrite F3 in E3.
    injection E1 as <-. injection E2 as <-. injection E3 as <-. rewrite alen_map in Hi. rewrite !at_map by done.
    by apply derived_first, kept_derived, at_In.
  - apply kept_free.
  - apply kept_least.
Qed.
End new_row.

(** ** The nodes of one level *)

Section level.
Context (o : list Z) (a b : Z) (Ha : arranged nodes o) (Hd : descending nodes o).
Context (Hab : 0 <= a /\ b <= n) (Hlevel : forall p, a <= p < b -> lvl o.[p] = lvl o.[a]).

(** [u] is on a higher level, and was processed before this level. *)
Definition before (u : Z) : Prop := exists q, 0 <= q < a /\ o.[q] = u.

Lemma arranged_pos u : 0 <= u < n -> exists q, 0 <= q < n /\ o.[q] = u.
Proof.
  intros Hu. assert (u ∈ o) as Hin.
  { apply (elem_of_Permutation_proper _ _ _ Ha), elem_of_seqZ. lia. }
  apply In_at in Hin. by rewrite (arranged_len nodes o Ha) in Hin.
Qed.

Lemma arranged_inj p q : 0 <= p < n -> 0 <= q < n -> o.[p] = o.[q] -> p = q.
Proof.
  intros Hp Hq E. assert (NoDup o) as Hnd.
  { apply (NoDup_Permutation_proper _ _ Ha), NoDup_seqZ. }
  pose proof (arranged_len nodes o Ha) as Hlen.
  assert (Z.to_nat p = Z.to_nat q); [| lia]. eapply (NoDup_lookup o); [done | apply at_lookup; lia |].
  rewrite E. apply at_lookup. lia.
Qed.

Lemma higher_before u : 0 <= u < n -> lvl o.[a] < lvl u -> before u.
Proof.
  intros Hu Hl. destruct (arranged_pos u Hu) as (q & Hq & <-). exists q. split; [| done].
  destruct (decide (q < a)); [lia |]. specialize (Hd a q ltac:(lia) ltac:(lia)). lia.
Qed.

Definition all_good (lab : Labels.t) : Prop := sized lab /\ forall u, before u -> row_good lab u.

Lemma level_ready lab p : all_good lab -> a <= p < b -> ready nodes e g lab n R R o.[p] before.
Proof.
  intros [Hsize Hgood] Hp. pose proof (Hlevel p Hp) as Hl.
  assert (0 <= o.[p] < n) as Hv by (apply arranged_at; [done | lia]).
  assert (forall u, before u -> 0 <= u < n) as Hrange.
  { intros u (q & Hq & <-). apply arranged_at; [done | lia]. }
  split.
  - apply (hi_grid _ Hh).
  - done.
  - apply (hi_count _ Hh).
  - apply (hi_levels _ Hh).
  - intros u Hu. split; [| split; [by apply Hrange | destruct (rg_labels _ _ (Hgood u Hu)) as (cl & cd & ce & ? & _); by exists cl, cd]].
    destruct Hu as (q & Hq & <-). intros E. apply arranged_inj in E; lia.
  - intros u x dx Hu Hx. pose proof (Hrange u Hu) as Hun.
    pose proof (rg_sound _ _ (Hgood u Hu) x dx Hx) as Hway.
    destruct (way_bounds u x dx Hun Hway) as (Hxn & Hdx & Hcase). split; [| done].
    destruct Hcase as [<- | Hlt]; [done |]. apply higher_before; [done |].
    destruct Hu as (q & Hq & <-). specialize (Hd q a ltac:(lia) ltac:(lia)). lia.
  - intros x Hx. destruct (hi_edge _ Hh _ x Hv Hx) as (? & ? & _). done.
  - intros x Hx. destruct (up_edge _ x Hv Hx) as [Hdx Hlt]. destruct (hi_up _ Hh _ x Hv Hx) as [? ?].
    split; [apply higher_before; [done | lia] |]. split; [done |]. split; [done |].
    apply (hi_short _ Hh o.[p] (dst x) _ Hv). by apply way_edge.
  - by apply (hi_simple _ Hh).
  - pose proof (hi_room _ Hh). lia.
Qed.

(** Good rows stay good. *)
Definition grows (lab lab' : Labels.t) : Prop := sized lab' /\ forall u, row_good lab u -> row_good lab' u.

Lemma grows_trans lab1 lab2 lab3 : grows lab1 lab2 -> grows lab2 lab3 -> grows lab1 lab3.
Proof. intros [_ H1] [H2 H3]. split; [done | auto]. Qed.

Lemma grows_good lab lab' : all_good lab -> grows lab lab' -> all_good lab'.
Proof. intros [_ H1] [H2 H3]. split; [done | auto]. Qed.

Lemma node_ok lab p f : all_good lab -> a <= p < b -> lists_ok f ->
  returns (HLDijkstra.calcLabels nodes e g lab o.[p] f) (fun '(lab', f') =>
    lists_ok f' /\ grows lab lab' /\ row_good lab' o.[p]).
Proof.
  intros Hall Hp Hf. pose proof (level_ready lab p Hall Hp) as Hready. destruct Hall as [Hsize Hgood].
  pose proof Hsize as (L1 & L2 & L3). assert (0 <= o.[p] < n) as Hv by (apply (rd_v _ _ _ _ _ _ _ _ _ Hready)).
  eapply returns_mono; [by eapply calcLabels_ok |]. cbv beta. intros [lab' f'] (Hf' & l & l' & Hrow).
  split; [done |]. set (v := o.[p]) in *.
  assert (row_good lab' v) as Hnew.
  { apply (new_row lab lab' v l l'); [done | done | done | |].
    - intros y Hy. by apply Hgood, (rd_up _ _ _ _ _ _ _ _ _ Hready).
    - intros en Hen. apply (row_sound _ _ _ _ _ _ _ _ _ Hrow) in Hen.
      destruct (derived_bounds _ _ _ _ _ _ _ _ _ Hready _ _ _ Hen) as (_ & _ & [? | Hb]); [by left | right].
      split; [by apply (rd_rows _ _ _ _ _ _ _ _ _ Hready) | auto]. }
  split; [| done]. split.
  - unfold sized. rewrite (row_nodes _ _ _ _ _ _ _ _ _ Hrow), (row_edges _ _ _ _ _ _ _ _ _ Hrow),
      (row_dists _ _ _ _ _ _ _ _ _ Hrow), !alen_insert. done.
  - intros u Hu. destruct (decide (u = v)) as [-> | Hne]; [done |].
    apply (row_good_same lab); [| done]. by eapply row_for_other.
Qed.

(** The positions a thread has left are those whose rows may be missing. *)
Definition working (st : Labels.t * list HLDijkstra.t) : Prop :=
  all_good st.1 /\ Forall (worker o a b) st.2 /\
  forall p, a <= p < b -> row_good st.1 o.[p] \/ exists th, th ∈ st.2 /\ p ∈ share th.

Lemma elem_share th p : p ∈ share th <-> startNodeIdx th <= p < endNodeIdx th.
Proof. unfold share. rewrite elem_of_seqZ. lia. Qed.

Lemma stepThread_ok k st : working st -> returns (stepThread nodes e g k st) working.
Proof.
  destruct st as [lab ths]. intros (Hall & Hw & Hleft). cbn [fst snd] in *. unfold stepThread.
  destruct (ths !! k) as [th |] eqn:Ek; [| by ret].
  pose proof (Forall_lookup_1 _ _ _ _ Hw Ek) as [Eo Hr Hl].
  destruct (Z.ltb_spec (startNodeIdx th) (endNodeIdx th)) as [Hlt | Hge]; [| by ret].
  rewrite Eo, aget_ok, bind_ok by (rewrite (arranged_len nodes o Ha); lia).
  eapply returns_bind; [apply node_ok; [done | lia | done] |]. cbv beta. intros [lab' f'] (Hf' & Hgr & Hrow). ret.
  split; [by eapply grows_good |]. cbn [fst snd]. split.
  - apply Forall_insert; [done |]. split; cbn; [done | lia | done].
  - intros p Hp. destruct (decide (p = startNodeIdx th)) as [-> | Hne]; [by left |].
    destruct (Hleft p Hp) as [Hg | (th' & Hin & Hs)]; [left; by apply Hgr |]. right.
    apply list_elem_of_lookup in Hin as [j Ej]. destruct (decide (j = k)) as [-> | Hjk].
    + assert (th' = th) as -> by congruence. eexists. split; [apply list_elem_of_lookup; exists k;
        apply list_lookup_insert_eq; by eapply lookup_lt_Some |].
      rewrite elem_share in *. cbn. lia.
    + exists th'. split; [| done]. apply list_elem_of_lookup. exists j. by rewrite list_lookup_insert_ne.
Qed.

Lemma create_run_ok lab th : all_good lab -> worker o a b th ->
  returns (HLDijkstra.run nodes e g lab th) (fun '(lab', _) => grows lab lab' /\
    forall p, p ∈ share th -> row_good lab' o.[p]).
Proof.
  intros Hall [Eo Hr Hl]. unfold HLDijkstra.run.
  eapply returns_bind.
  - apply (forRange_inv (fun i '(lab', f) => lists_ok f /\ grows lab lab' /\
      forall p, startNodeIdx th <= p < i -> row_good lab' o.[p])); [lia | |].
    + split; [done |]. split; [split; [apply Hall | done] |]. intros; lia.
    + intros i [lab1 f1] Hi (Hf1 & Hg1 & Hrows). rewrite Eo, aget_ok, bind_ok by (rewrite (arranged_len nodes o Ha); lia).
      eapply returns_mono; [apply (node_ok lab1); [by eapply grows_good | lia | done] |].
      cbv beta. intros [lab2 f2] (Hf2 & Hg2 & Hrow). split; [done |]. split; [by eapply grows_trans |].
      intros p Hp. destruct (decide (p = i)) as [-> | Hne]; [done |]. apply Hg2, Hrows. lia.
  - cbv beta. intros [lab' f'] (_ & Hg & Hrows). ret. split; [done |].
    intros p Hp%elem_share. by apply Hrows.
Qed.

Lemma join_ok lab ths : working (lab, ths) ->
  returns (forEach ths (fun th lab => '(lab, _) ← HLDijkstra.run nodes e g lab th; Ok lab) lab)
    (fun lab' => grows lab lab' /\ forall p, a <= p < b -> row_good lab' o.[p]).
Proof.
  intros (Hall & Hw & Hleft). cbn [fst snd] in *. eapply returns_mono.
  - apply (forEach_inv (fun pre lab' => grows lab lab' /\
      forall th p, th ∈ pre -> p ∈ share th -> row_good lab' o.[p])).
    + split; [split; [apply Hall | done] |]. intros th p Hin. by apply elem_of_nil in Hin.
    + intros pre th todo lab1 E [Hg1 Hrows].
      assert (worker o a b th) as Hth by (rewrite Forall_forall in Hw; apply Hw; set_solver).
      eapply returns_bind; [apply (create_run_ok lab1 th); [by eapply grows_good | done] |].
      cbv beta. intros [lab2 f2] (Hg2 & Hrow). ret. split; [by eapply grows_trans |].
      intros th' p [Hin | ->%list_elem_of_singleton]%elem_of_app Hp; [by eapply Hg2, Hrows | by apply Hrow].
  - cbv beta. intros lab' [Hg Hrows]. split; [done |]. intros p Hp.
    destruct (Hleft p Hp) as [? | (th & Hin & Hs)]; [by apply Hg | by eapply Hrows].
Qed.

(** One level: whatever the order in which its threads make progress, its rows are good. *)
Lemma level_ok picks threadList lab : all_good lab -> crew o a b threadList ->
  returns ('(lab, threadList) ← forEach picks (stepThread nodes e g) (lab, threadList);
    forEach threadList (fun th lab => '(lab, _) ← HLDijkstra.run nodes e g lab th; Ok lab) lab)
    (fun lab' => all_good lab' /\ forall p, a <= p < b -> row_good lab' o.[p]).
Proof.
  intros Hall [Hw Hs].
  assert (working (lab, threadList)) as Hst.
  { split; [done |]. split; [done |]. intros p Hp. right.
    assert (p ∈ seqZ a (b - a)) as Hin by (apply elem_of_seqZ; lia).
    rewrite <-Hs in Hin. apply list_elem_of_In, in_concat in Hin as (l & Hl & Hin).
    apply list_elem_of_In, list_elem_of_fmap in Hl as (th & -> & Hth). exists th.
    split; [done |]. by apply list_elem_of_In. }
  eapply returns_bind.
  - apply (forEach_inv (fun _ => working)); [done |]. intros pre k todo st _ Hst'. by apply stepThread_ok.
  - cbv beta. intros [lab1 ths] Hst1. eapply returns_mono; [by apply join_ok |]. cbv beta.
    intros lab2 [Hg Hrows]. split; [| done]. eapply grows_good; [apply Hst1 | done].
Qed.
End level.

(** ** All levels *)

Lemma calcLabels_good picks lab : sized lab ->
  returns (calcLabels nodes e g picks lab) (fun lab' => sized lab' /\
    forall u, 0 <= u < n -> row_good lab' u).
Proof.
  intros Hsize. pose proof (hi_levels _ Hh) as Hlen. pose proof (hi_nonneg _ Hh) as Hnn. unfold calcLabels.
  eapply returns_bind; [apply (createHLCalcOrder_ok nodes Hlen Hnn) |].
  cbv beta. intros [o s] (Ha & Hd & c & Hs & [Hsort Hin]).
  assert (size s = alen c + 1) as Esize by (destruct Hs as (_ & E & _); by rewrite alen_snoc in E).
  cbv zeta. rewrite Esize.
  replace (alen c + 1 - (NUM_OF_NO_LABEL_LVLS + 1)) with (alen c) by (unfold NUM_OF_NO_LABEL_LVLS; lia).
  assert (changes nodes o n c) as Hc by done. clear Hsort Hin.
  destruct (cut_first nodes o c Hc) as [Hpos Hfirst].
  eapply returns_mono.
  - apply (forRange_inv (fun k => all_good o (cut nodes c k))); [lia | |].
    + split; [done |]. rewrite Hfirst. intros u (q & Hq & _). lia.
    + intros k lab1 Hk Hgood. destruct (cut_level nodes o c k Hd Hc Hk) as (Hcut & Hn & Hlevel).
      unfold calcLevel. rewrite (set_get_repr s _ k Hs), bind_ok by (rewrite alen_snoc; lia).
      rewrite (set_get_repr s _ (k + 1) Hs), bind_ok by (rewrite alen_snoc; lia).
      fold (cut nodes c k). fold (cut nodes c (k + 1)).
      eapply returns_bind; [apply threadsFor_ok; lia |]. cbv beta. intros ths [Hcrew _].
      eapply returns_mono; [apply (level_ok o (cut nodes c k) (cut nodes c (k + 1)) Ha Hd ltac:(lia) Hlevel); done |].
      cbv beta. intros lab2 [[Hs2 Hg2] Hrows]. split; [done |]. intros u (q & Hq & <-).
      destruct (decide (q < cut nodes c k)); [| apply Hrows; lia]. apply Hg2. exists q. split; [lia | done].
  - cbv beta. intros lab' [Hs' Hg]. split; [done |]. intros u Hu. apply Hg. rewrite cut_last. by apply arranged_pos.
Qed.

Lemma cover_ok lab u v : (forall u, 0 <= u < n -> row_good lab u) -> 0 <= u < n -> 0 <= v < n ->
  forall h a b, way u h a -> way v h b ->
  exists h' a' b', label lab u h' a' /\ label lab v h' b' /\ a' + b' <= a + b.
Proof.
  intros Hgood Hu Hv h a b Hwu Hwv.
  destruct (meet_ok lab u v (rg_top _ _ (Hgood u Hu)) (rg_top _ _ (Hgood v Hv)) Hu Hv h a b Hwu Hwv)
    as (h' & a' & b' & ? & ? & ? & _). by exists h', a', b'.
Qed.

(** The first edge of a label leads to a node with a label for the same hub, shorter by the edge. *)
Lemma first_edge_ok lab v x dx ed : (forall u, 0 <= u < n -> row_good lab u) -> 0 <= v < n ->
  first_edge lab v x dx ed -> (x = v /\ dx = 0 /\ ed = -1) \/ (x <> v /\ ed ∈ upEdges v /\ label lab (dst ed) x (dx - weight ed)).
Proof.
  intros Hgood Hv Hf. pose proof Hf as (cl & cd & ce & i & [Hlab _] & Hi & Ex & Ed & _).
  assert (label lab v x dx) as Hl by (by exists cl, cd, i).
  pose proof (rg_sound _ _ (Hgood v Hv) x dx Hl) as Hway. destruct (decide (x = v)) as [-> | Hne].
  { destruct (rg_first _ _ (Hgood v Hv) v dx ed Hf) as [[_ Ee] | [Hed Hw]].
    2:{ destruct (up_edge v ed Hv Hed) as [Hdn Hlt]. destruct (way_bounds _ _ _ Hdn Hw) as (_ & _ & [E | ?]); [rewrite E in Hlt |]; lia. }
    left. split; [done |]. split; [| done]. pose proof (rg_least _ _ (Hgood v Hv) v dx 0 Hl (way_here v)).
    destruct (way_bounds _ _ _ Hv Hway) as (_ & ? & _). lia. }
  right. destruct (rg_first _ _ (Hgood v Hv) x dx ed Hf) as [[? _] | [Hed Hw]]; [done |]. split; [done |]. split; [done |].
  destruct (up_edge v ed Hv Hed) as [Hdn _].
  destruct (rg_top _ _ (Hgood _ Hdn) x _ Hw) as [(a' & Ha' & Hl') | (h' & a' & c & Hne' & H1 & H2 & Hle)].
  - assert (way v x (weight ed + a')) as Hshort by (constructor; [done | done | by apply (rg_sound _ _ (Hgood _ Hdn))]).
    pose proof (rg_least _ _ (Hgood v Hv) x dx _ Hl Hshort). by replace (dx - weight ed) with a' by lia.
  - exfalso. apply (rg_free _ _ (Hgood v Hv) x dx Hl Hne). exists h', (weight ed + a'), c.
    split; [done |]. split; [by constructor |]. split; [done | lia].
Qed.
End hierarchy.

(** ** Who writes which row

    These lemmas are about every step that returns, whatever the graph and the rows are. *)

Lemma forEach_app {A St} (l1 l2 : list A) (body : A -> St -> res St) s :
  forEach (l1 ++ l2) body s = forEach l1 body s ≫= forEach l2 body.
Proof. revert s. induction l1 as [| x l1 IH]; intros s; cbn [forEach app]; [done |]. destruct (body x s); [apply IH | done]. Qed.

Lemma aset_other {A} (a a' : list A) i j x : aset a i x = Ok a' -> j <> i -> aget a' j = aget a j.
Proof.
  unfold aset, aget. intros E Hne. destruct (Z.leb_spec 0 i), (Z.ltb_spec i (alen a)); cbn in E; [| done ..]. injection E as <-.
  destruct (Z.ltb_spec j 0); [done |]. by rewrite list_lookup_insert_ne by lia.
Qed.

Section writes.
Context {D : Type} (nodes : Nodes D) (e : Edges.t) (g : DynamicGrid.t).
Notation stepThread := (stepThread nodes e g).

(** The computation for one node writes the row of that node only. *)
Lemma calcLabels_writes lab v f lab' f' u : HLDijkstra.calcLabels nodes e g lab v f = Ok (lab', f') -> u <> v -> same_row lab lab' u.
Proof.
  intros H Hu. apply bind_inv in H as (f1 & _ & H). unfold HLDijkstra.addLabels in H.
  repeat (apply bind_inv in H as (? & ? & H)). injection H as -> ->.
  match goal with H : Labels.addLabels _ _ _ _ _ = Ok _ |- _ => unfold Labels.addLabels in H; rename H into Hadd end.
  apply bind_inv in Hadd as (n1 & E1 & Hadd). apply bind_inv in Hadd as (n2 & E2 & Hadd). apply bind_inv in Hadd as (n3 & E3 & Hadd).
  injection Hadd as <-. unfold same_row. cbn. split; [| split]; by eapply aset_other.
Qed.

(** How far the threads have got: their order and end stay, their next position only grows. *)
Definition further (th th' : HLDijkstra.t) : Prop := HLDijkstra.calcOrder th' = HLDijkstra.calcOrder th /\
  endNodeIdx th' = endNodeIdx th /\ startNodeIdx th <= startNodeIdx th'.

Lemma further_trans th1 th2 th3 : further th1 th2 -> further th2 th3 -> further th1 th3.
Proof. unfold further. intros (E1 & E2 & ?) (E3 & E4 & ?). rewrite E3, E4. split; [done |]. split; [done | lia]. Qed.

Lemma further_refl ths : Forall2 further ths ths.
Proof. apply Forall2_same_length_lookup. split; [done |]. intros i th th' E E'. rewrite E in E'. injection E' as ->. split; [done |]. split; [done | lia]. Qed.

Lemma furthers_trans ths1 ths2 ths3 : Forall2 further ths1 ths2 -> Forall2 further ths2 ths3 -> Forall2 further ths1 ths3.
Proof.
  intros H1. revert ths3. induction H1 as [| th1 th2 ths1 ths2 H1 _ IH]; intros ths3 H3; inversion H3; subst; constructor; [by eapply further_trans | by apply IH].
Qed.

(** A step that changes a row: thread [k] has this node next, and has moved on. *)
Definition took (k : nat) (ths ths' : list HLDijkstra.t) (u : Z) : Prop := exists th th', ths !! k = Some th /\ ths' !! k = Some th' /\
  startNodeIdx th < endNodeIdx th /\ aget (HLDijkstra.calcOrder th) (startNodeIdx th) = Ok u /\ startNodeIdx th' = startNodeIdx th + 1.

Lemma stepThread_writes k lab ths lab' ths' : stepThread k (lab, ths) = Ok (lab', ths') ->
  Forall2 further ths ths' /\ forall u, same_row lab lab' u \/ took k ths ths' u.
Proof.
  unfold LabelCreator.stepThread. intros H.
  destruct (ths !! k) as [th |] eqn:Ek; [| injection H as <- <-; split; [apply further_refl | by left]].
  destruct (Z.ltb_spec (startNodeIdx th) (endNodeIdx th)) as [Hlt | Hge];
    [| injection H as <- <-; split; [apply further_refl | by left]].
  apply bind_inv in H as (v & Ev & H). apply bind_inv in H as ([lab1 f1] & Ec & H). injection H as <- <-.
  pose proof (lookup_lt_Some _ _ _ Ek) as Hk. split.
  - apply Forall2_same_length_lookup. split; [by rewrite length_insert |]. intros i th1 th2 E1 E2.
    destruct (decide (i = k)) as [-> | Hne].
    + rewrite list_lookup_insert_eq in E2 by done. rewrite Ek in E1. injection E1 as <-. injection E2 as <-. split; [done |]. split; [done | cbn; lia].
    + rewrite list_lookup_insert_ne in E2 by done. rewrite E1 in E2. injection E2 as <-. split; [done |]. split; [done | lia].
  - intros u. destruct (decide (u = v)) as [-> | Hne]; [right | left; by apply (calcLabels_writes lab v (lists th) lab1 f1)].
    eexists _, _. split; [exact Ek |]. split; [by apply list_lookup_insert_eq |]. split; [done |]. split; [exact Ev | done].
Qed.

Lemma steps_further picks : forall lab ths lab' ths', forEach picks stepThread (lab, ths) = Ok (lab', ths') -> Forall2 further ths ths'.
Proof.
  induction picks as [| k picks IH]; intros lab ths lab' ths' H; cbn [forEach] in H; [injection H as -> ->; apply further_refl |].
  apply bind_inv in H as ([lab1 ths1] & E & H). apply stepThread_writes in E as [E _]. by eapply furthers_trans, IH.
Qed.

(** *** Joining a thread is picking it until it has ended *)

Lemma stepThread_next k th lab ths : ths !! k = Some th -> startNodeIdx th < endNodeIdx th -> stepThread k (lab, ths) =
  (nodeId ← aget (HLDijkstra.calcOrder th) (startNodeIdx th);
   '(lab, f) ← HLDijkstra.calcLabels nodes e g lab nodeId (lists th);
   Ok (lab, <[k := HLDijkstra.mk (HLDijkstra.calcOrder th) (startNodeIdx th + 1) (endNodeIdx th) f]> ths)).
Proof. intros Ek Hlt%Z.ltb_lt. unfold LabelCreator.stepThread. by rewrite Ek, Hlt. Qed.

Lemma run_picks k : forall m th lab ths, ths !! k = Some th -> m = Z.to_nat (endNodeIdx th - startNodeIdx th) ->
  forEach (replicate m k) stepThread (lab, ths) =
    ('(lab', f) ← forRange (startNodeIdx th) (endNodeIdx th) (fun nodeIdx '(lab, f) =>
       nodeId ← aget (HLDijkstra.calcOrder th) nodeIdx; HLDijkstra.calcLabels nodes e g lab nodeId f) (lab, lists th);
     Ok (lab', <[k := HLDijkstra.mk (HLDijkstra.calcOrder th) (startNodeIdx th + Z.of_nat m) (endNodeIdx th) f]> ths)).
Proof.
  induction m as [| m IH]; intros th lab ths Ek Hm; unfold forRange; rewrite <-Hm; cbn [replicate forEach forLoop].
  - rewrite bind_ok. replace (HLDijkstra.mk _ _ _ _) with th by (destruct th; cbn; f_equal; lia). by rewrite list_insert_id.
  - rewrite (stepThread_next k th) by (done || lia).
    destruct (aget (HLDijkstra.calcOrder th) (startNodeIdx th)) as [v |]; [| done]. rewrite !bind_ok.
    destruct (HLDijkstra.calcLabels nodes e g lab v (lists th)) as [[lab1 f1] |]; [| done]. rewrite !bind_ok.
    pose proof (lookup_lt_Some _ _ _ Ek) as Hk.
    rewrite (IH (HLDijkstra.mk (HLDijkstra.calcOrder th) (startNodeIdx th + 1) (endNodeIdx th) f1) lab1);
      [| by apply list_lookup_insert_eq | cbn; lia].
    cbn [HLDijkstra.calcOrder startNodeIdx endNodeIdx lists]. unfold forRange. replace (Z.to_nat (endNodeIdx th - (startNodeIdx th + 1))) with m by lia.
    destruct (forLoop m _ _ _) as [[lab2 f2] |]; [| done]. rewrite !bind_ok, list_insert_insert_eq.
    by replace (startNodeIdx th + 1 + Z.of_nat m) with (startNodeIdx th + Z.of_nat (S m)) by lia.
Qed.

(** What is left for the threads from the [j]-th on. *)
Fixpoint remaining (j : nat) (ths : list HLDijkstra.t) : list nat :=
  match ths with [] => [] | th :: ths => replicate (Z.to_nat (endNodeIdx th - startNodeIdx th)) j ++ remaining (S j) ths end.

Lemma join_picks todo : forall j ths lab, drop j ths = todo ->
  forEach todo (fun th lab => '(lab, _) ← HLDijkstra.run nodes e g lab th; Ok lab) lab =
    fst <$> forEach (remaining j todo) stepThread (lab, ths).
Proof.
  induction todo as [| th todo IH]; intros j ths lab E; [done |]. cbn [forEach remaining]. rewrite forEach_app.
  assert (ths !! j = Some th) as Ej by (rewrite <-(Nat.add_0_r j), <-lookup_drop; by rewrite E).
  rewrite (run_picks j _ th lab ths Ej eq_refl). unfold HLDijkstra.run.
  destruct (forRange (startNodeIdx th) (endNodeIdx th) _ _) as [[lab1 f1] |]; [| done]. rewrite !bind_ok. apply IH.
  rewrite drop_insert_lt by lia. rewrite <-(drop_drop ths j 1) || rewrite <-Nat.add_1_r, <-drop_drop. by rewrite E.
Qed.

(** *** No row is written twice *)

Lemma concat_disjoint {A} (ls : list (list A)) k k' l l' x : NoDup (concat ls) -> ls !! k = Some l -> ls !! k' = Some l' ->
  x ∈ l -> x ∈ l' -> k = k'.
Proof.
  revert k k'. induction ls as [| l0 ls IH]; intros k k' Hnd Ek Ek' Hx Hx'; [done |]. cbn [concat] in Hnd. apply NoDup_app in Hnd as (_ & Hdis & Hnd).
  assert (forall i l, ls !! i = Some l -> x ∈ l -> x ∈ concat ls) as Hin.
  { intros i l1 Ei Hl1. apply list_elem_of_In, in_concat. exists l1. split; [apply list_elem_of_In; by eapply list_elem_of_lookup_2 | by apply list_elem_of_In]. }
  destruct k as [| k], k' as [| k']; cbn in Ek, Ek'; [done | injection Ek as -> | injection Ek' as -> | f_equal; by eapply IH].
  - by destruct (Hdis x Hx); eapply Hin.
  - by destruct (Hdis x Hx'); eapply Hin.
Qed.

Context (o : list Z) (a b : Z) (Ho : NoDup o) (threadList : list HLDijkstra.t) (Hcrew : crew o a b threadList).

(** The row that thread [k] writes is that of a node in its share. *)
Lemma took_share k ths ths' u : Forall2 further threadList ths -> took k ths ths' u -> exists th0 p, threadList !! k = Some th0 /\
  p ∈ share th0 /\ 0 <= p < alen o /\ o.[p] = u /\ exists th th', ths !! k = Some th /\ ths' !! k = Some th' /\ startNodeIdx th = p /\ startNodeIdx th' = p + 1.
Proof.
  intros Hf (th & th' & Ek & Ek' & Hlt & Eu & Enext). destruct (Forall2_lookup_r _ _ _ _ _ Hf Ek) as (th0 & E0 & Eo & Ee & Hle).
  pose proof (Forall_lookup_1 _ _ _ _ (proj1 Hcrew) E0) as [Eo0 _ _]. rewrite Eo, Eo0 in Eu.
  assert (0 <= startNodeIdx th < alen o) as Hp.
  { destruct (decide (0 <= startNodeIdx th < alen o)) as [| Hout]; [done |]. rewrite aget_oob in Eu by lia. done. }
  rewrite aget_ok in Eu by done. injection Eu as Eu.
  exists th0, (startNodeIdx th). split; [done |]. split; [apply elem_of_seqZ; lia |]. split; [done |]. split; [done |]. by exists th, th'.
Qed.

Lemma written_once k k' ths1 ths2 ths3 ths4 u : Forall2 further threadList ths1 -> Forall2 further threadList ths3 -> took k ths1 ths2 u ->
  Forall2 further ths2 ths3 -> took k' ths3 ths4 u -> False.
Proof.
  intros Hf1 Hf3 H1 H23 H3. destruct (took_share _ _ _ _ Hf1 H1) as (th0 & p & E0 & Hp & Hpo & Eu & th1 & th2 & _ & E2 & _ & Es2).
  destruct (took_share _ _ _ _ Hf3 H3) as (th0' & p' & E0' & Hp' & Hpo' & Eu' & th3 & _ & E3 & _ & Es3 & _).
  assert (p = p') as <-.
  { assert (Z.to_nat p = Z.to_nat p'); [| lia]. eapply (NoDup_lookup o); [done | apply at_lookup; lia |]. rewrite Eu, <-Eu'. apply at_lookup. lia. }
  assert (k = k') as <-.
  { apply (concat_disjoint (share <$> threadList) k k' (share th0) (share th0') p); [| by rewrite list_lookup_fmap, E0 | by rewrite list_lookup_fmap, E0' | done | done].
    rewrite (proj2 Hcrew). apply NoDup_seqZ. }
  destruct (Forall2_lookup_lr _ _ _ _ _ _ H23 E2 E3) as (_ & _ & Hle). lia.
Qed.
End writes.

(** ** Properties *)

(** C32: [createHLCalcOrder] arranges all nodes by descending level, and lists in ascending order
    exactly the positions at which the level drops, with 0 before them and the number of nodes
    behind them. *)
Theorem createHLCalcOrder_levels {D} (nodes : Nodes D) : alen (nLevels nodes) = getNodeCount nodes ->
  (forall u, 0 <= u < getNodeCount nodes -> 0 <= lvl nodes u) ->
  returns (createHLCalcOrder nodes) (fun '(o, s) =>
    o ≡ₚ seqZ 0 (getNodeCount nodes) /\
    (forall p q, 0 <= p <= q -> q < getNodeCount nodes -> lvl nodes o.[q] <= lvl nodes o.[p]) /\
    exists c, repr s (c ++ [getNodeCount nodes]) /\ StronglySorted Z.lt c /\
      forall p, p ∈ c <-> p = 0 \/ (0 < p < getNodeCount nodes /\ lvl nodes o.[p] < lvl nodes o.[p - 1])).
Proof. intros. by apply createHLCalcOrder_ok. Qed.

(** C17: No two threads of a level write the row of the same node, and none is written twice, however
    the threads interleave.  The threads that are created for the positions [[a..b)] of an order
    without repetitions are at most sixteen, and their shares, in order, are these positions, each
    once.  The rest of the level, the joins included, is a sequence of picks.  Whenever a step
    changes a row, it is that of a node in the share of the picked thread, and no later step, of
    this or another thread, changes the row again. *)
Theorem threads_disjoint {D} (nodes : Nodes D) e g o a b : NoDup o -> a <= b ->
  returns (threadsFor o a b) (fun threadList =>
    alen threadList <= NUM_OF_THREADS /\ concat (share <$> threadList) = seqZ a (b - a) /\
    (forall picks lab lab1 ths1, forEach picks (stepThread nodes e g) (lab, threadList) = Ok (lab1, ths1) ->
      forEach ths1 (fun th lab => '(lab, _) ← HLDijkstra.run nodes e g lab th; Ok lab) lab1 =
        fst <$> forEach (picks ++ remaining 0 ths1) (stepThread nodes e g) (lab, threadList)) /\
    forall picks lab lab1 ths1 k lab2 ths2 u, forEach picks (stepThread nodes e g) (lab, threadList) = Ok (lab1, ths1) ->
      stepThread nodes e g k (lab1, ths1) = Ok (lab2, ths2) -> ~ same_row lab1 lab2 u ->
      (exists th p, threadList !! k = Some th /\ p ∈ share th /\ o.[p] = u) /\
      forall picks' lab3 ths3 k' lab4 ths4, forEach picks' (stepThread nodes e g) (lab2, ths2) = Ok (lab3, ths3) ->
        stepThread nodes e g k' (lab3, ths3) = Ok (lab4, ths4) -> same_row lab3 lab4 u).
Proof.
  intros Ho Hab. eapply returns_mono; [by apply threadsFor_ok |]. cbv beta. intros ths0 [Hcrew Hlen].
  split; [done |]. split; [apply Hcrew |]. split.
  - intros picks lab lab1 ths1 E. rewrite forEach_app, E. by apply join_picks.
  - intros picks lab lab1 ths1 k lab2 ths2 u E1 E2 Hu. pose proof (steps_further _ _ _ _ _ _ _ _ E1) as Hf1.
    destruct (stepThread_writes _ _ _ _ _ _ _ _ E2) as [Hf12 Htook]. destruct (Htook u) as [| Htook1]; [done |]. split.
    + destruct (took_share o a b ths0 Hcrew k ths1 ths2 u Hf1 Htook1) as (th & p & E & Hp & _ & Eu & _). by exists th, p.
    + intros picks' lab3 ths3 k' lab4 ths4 E3 E4. pose proof (steps_further _ _ _ _ _ _ _ _ E3) as Hf23.
      destruct (stepThread_writes _ _ _ _ _ _ _ _ E4) as [_ Htook']. destruct (Htook' u) as [| Htook3]; [done | exfalso].
      apply (written_once o a b Ho ths0 Hcrew k k' ths1 ths2 ths3 ths4 u Hf1); [| done ..].
      by eapply furthers_trans, furthers_trans.
Qed.

(** C16: [calcLabels] ends without an exception, however the threads of each level interleave; then
    every node has a row with itself at distance 0, every label is the length of an upward way, and
    its first edge leads to a node that has a label for the same hub, shorter by that edge. *)
Theorem calcLabels_ends {D} (nodes : Nodes D) e g picks lab R : hierarchy nodes e g R -> sized nodes lab ->
  returns (calcLabels nodes e g picks lab) (fun lab' => forall u, 0 <= u < getNodeCount nodes ->
    (exists cl cd ce, full_row lab' u cl cd ce) /\ label lab' u u 0 /\
    (forall x dx, label lab' u x dx -> way nodes e g u x dx) /\
    forall x dx ed, first_edge lab' u x dx ed -> (x = u /\ dx = 0 /\ ed = -1) \/
      (x <> u /\ ed ∈ upEdges nodes e g u /\ label lab' (dst e ed) x (dx - weight e ed))).
Proof.
  intros Hh Hs. eapply returns_mono; [by apply (calcLabels_good nodes e g R) |]. cbv beta.
  intros lab' [_ Hg] u Hu. destruct (Hg u Hu). do 3 (split; [done |]). intros x dx ed. by apply (first_edge_ok nodes e g R Hh).
Qed.

(** C10: The labels that [calcLabels] computes are hub labels, however the threads of each level
    interleave: when upward ways from two nodes meet, the two nodes have a label in common whose
    distances add up to no more than the two ways. *)
Theorem calcLabels_cover {D} (nodes : Nodes D) e g picks lab R u v h a b :
  hierarchy nodes e g R -> sized nodes lab -> 0 <= u < getNodeCount nodes -> 0 <= v < getNodeCount nodes ->
  way nodes e g u h a -> way nodes e g v h b ->
  returns (calcLabels nodes e g picks lab) (fun lab' => exists h' a' b',
    label lab' u h' a' /\ label lab' v h' b' /\ a' + b' <= a + b).
Proof.
  intros Hh Hs Hu Hv Hwu Hwv. eapply returns_mono; [by apply (calcLabels_good nodes e g R) |]. cbv beta.
  intros lab' [_ Hg]. by apply (cover_ok nodes e g R Hh _ _ _ Hg Hu Hv h).
Qed.

(** ** Witness: two nodes on level 0, node 2 above them *)

Definition starNodes : Nodes Z := mkNodes [0; 0; 0] [0; 0; 0] [0; 0; 1].
Definition starEdges : Edges.t := Edges.mk [0; 1; 2; 2] [2; 2; 0; 1] [5; 7; 5; 7] 4 [] [] [] [] 4 2.
Definition starGrid : DynamicGrid.t :=
  DynamicGrid.mk [None; None; None] [0; 0; 0] [Some [0]; Some [1]; Some [2; 3]] [1; 1; 2].
Definition noLabels : Labels.t := Labels.mk [None; None; None] [None; None; None] [None; None; None].

Lemma star_three u : 0 <= u < getNodeCount starNodes -> u = 0 \/ u = 1 \/ u = 2.
Proof. change (getNodeCount starNodes) with 3. lia. Qed.

Lemma star_up u x : 0 <= u < getNodeCount starNodes -> x ∈ upEdges starNodes starEdges starGrid u ->
  dst starEdges x = 2 /\ 0 <= weight starEdges x <= 7 /\ Edges.getDist starEdges x = Ok (weight starEdges x).
Proof.
  intros [-> | [-> | ->]]%star_three.
  - change (upEdges starNodes starEdges starGrid 0) with [0]. intros ->%list_elem_of_singleton. vm_compute. split_and!; done.
  - change (upEdges starNodes starEdges starGrid 1) with [1]. intros ->%list_elem_of_singleton. vm_compute. split_and!; done.
  - change (upEdges starNodes starEdges starGrid 2) with (@nil Z). by intros ?%elem_of_nil.
Qed.

Lemma star_hierarchy : hierarchy starNodes starEdges starGrid 7.
Proof.
  split.
  - split; (split; [reflexivity | reflexivity |]); intros u [-> | [-> | ->]]%star_three.
    1, 2, 3: by left.
    all: right; eexists; (split; [reflexivity |]); vm_compute; repeat split; discriminate.
  - reflexivity.
  - reflexivity.
  - intros u [-> | [-> | ->]]%star_three; discriminate.
  - intros u x Hu. destruct (star_three u Hu) as [-> | [-> | ->]].
    + change (everEdge starGrid 0) with [0]. intros ->%list_elem_of_singleton. by vm_compute.
    + change (everEdge starGrid 1) with [1]. intros ->%list_elem_of_singleton. by vm_compute.
    + change (everEdge starGrid 2) with [2; 3].
      intros [-> | ->%list_elem_of_singleton]%elem_of_cons; by vm_compute.
  - intros u x Hu Hx. destruct (star_up u x Hu Hx) as (_ & ? & ?). split; [done | lia].
  - intros u [-> | [-> | ->]]%star_three; apply (bool_decide_unpack _); by vm_compute.
  - intros u v d Hu Hw. destruct Hw as [u | u x y d _ Hx Hw]; [done |].
    destruct (star_up u x Hu Hx) as (E & Hd & _). rewrite E in Hw. clear E.
    remember 2 as two eqn:E2. destruct Hw as [u' | u' x' y d Hu' Hx' Hw]; [lia |]. subst u'.
    change (upEdges starNodes starEdges starGrid 2) with (@nil Z) in Hx'. by apply elem_of_nil in Hx'.
  - done.
Qed.

Lemma createHLCalcOrder_levels_witness :
  (exists s, createHLCalcOrder starNodes = Ok ([2; 0; 1], s) /\ elements s = [0; 1; 3] ++ drop 3 (elements s)) /\
  returns (createHLCalcOrder starNodes) (fun '(o, _) => o ≡ₚ [0; 1; 2]).
Proof.
  split; [eexists; split; vm_compute; reflexivity |].
  eapply returns_mono; [apply (createHLCalcOrder_levels starNodes); [reflexivity |] |].
  - intros u [-> | [-> | ->]]%star_three; discriminate.
  - cbv beta. intros [o s] [Ho _]. exact Ho.
Defined.

(** The rows after the first level, node 2, and the threads of the second one. *)
Definition topLabels : Labels.t :=
  match HLDijkstra.new 0 1 [2; 0; 1] ≫= HLDijkstra.run starNodes starEdges starGrid noLabels with Ok (lab, _) => lab | Err _ => noLabels end.
Definition starThreads : list HLDijkstra.t := match threadsFor [2; 0; 1] 1 3 with Ok ths => ths | Err _ => [] end.
Definition firstPick : Labels.t * list HLDijkstra.t :=
  match stepThread starNodes starEdges starGrid 0 (topLabels, starThreads) with Ok st => st | Err _ => (noLabels, []) end.

(** The first thread writes the row of node 0; whatever is picked then, it stays. *)
Lemma threads_disjoint_witness : share <$> starThreads = [[1]; [2]] /\ ~ same_row topLabels firstPick.1 0 /\
  forall picks lab ths k lab' ths', forEach picks (stepThread starNodes starEdges starGrid) firstPick = Ok (lab, ths) ->
    stepThread starNodes starEdges starGrid k (lab, ths) = Ok (lab', ths') -> same_row lab lab' 0.
Proof.
  split; [vm_compute; reflexivity |]. assert (~ same_row topLabels firstPick.1 0) as Hfirst by (intros [H _]; vm_compute in H; discriminate).
  split; [exact Hfirst |].
  pose proof (threads_disjoint starNodes starEdges starGrid [2; 0; 1] 1 3 ltac:(apply NoDup_ListNoDup; repeat constructor; cbn; lia) ltac:(lia)) as H.
  assert (threadsFor [2; 0; 1] 1 3 = Ok starThreads) as E by (vm_compute; reflexivity). rewrite E in H.
  destruct H as (_ & _ & _ & H). destruct firstPick as [lab1 ths1] eqn:Ef.
  assert (stepThread starNodes starEdges starGrid 0 (topLabels, starThreads) = Ok (lab1, ths1)) as Estep by (rewrite <-Ef; vm_compute; reflexivity).
  destruct (H [] topLabels topLabels starThreads 0%nat lab1 ths1 0 eq_refl Estep Hfirst) as [_ Hlater].
  intros picks lab ths k lab' ths' Ep Es. exact (Hlater picks lab ths k lab' ths' Ep Es).
Defined.

Lemma calcLabels_ends_witness :
  returns (calcLabels starNodes starEdges starGrid (fun _ => [1%nat; 0%nat]) noLabels) (fun lab' => label lab' 0 0 0).
Proof.
  eapply returns_mono; [apply (calcLabels_ends starNodes starEdges starGrid _ noLabels 7 star_hierarchy); done |].
  cbv beta. intros lab' H. apply (H 0). by vm_compute.
Defined.

Lemma calcLabels_cover_witness :
  returns (calcLabels starNodes starEdges starGrid (fun _ => []) noLabels) (fun lab' => exists h' a' b',
    label lab' 0 h' a' /\ label lab' 1 h' b' /\ a' + b' <= 12).
Proof.
  apply (calcLabels_cover starNodes starEdges starGrid _ noLabels 7 0 1 2 5 7 star_hierarchy); try done.
  - apply (way_edge starNodes starEdges starGrid 0 0); [done |]. apply (bool_decide_unpack _); by vm_compute.
  - apply (way_edge starNodes starEdges starGrid 1 1); [done |]. apply (bool_decide_unpack _); by vm_compute.
Defined.
