(* ===== verification/Contraction.v ===== *)
(** * hublablecreation/LabelCreator.java: the contraction hierarchy

    [calculateCH] contracts the nodes level by level.  A level is a set of nodes none of which
    are neighbours, taken greedily along a shuffled order; sixteen threads compute their
    shortcuts on the graph as it is at the start of the level, then the shortcuts are inserted
    and the nodes removed.

    The threads of a level only read the graph and the edges and write objects of their own, so
    running one after the other gives what every interleaving gives.  The answers of
    [Random.nextInt] are a sequence [rnd]. *)

From S2P Require Import Prelude LabelCreator SortedArray IntArrayList IntArraySet Edges DynamicGrid CHDijkstra CHSearch.

Section contraction.
Context {D : Type}.

(** The static fields, with those of the classes they are about. *)
Record t := mk {
  contracted : list bool;
  isNeighbour : list bool;
  alreadyShortcut : list (option IntArraySet.t);
  calcOrder : list Z;
  nodesToCalc : IntArrayList.t;
  nonContractedNum : Z;
  nodes : Nodes D;
  edges : Edges.t;
  grid : DynamicGrid.t;
}.

(** The loop of [calcNextLvl] that marks the neighbours of a node it has taken. *)
Definition markNeighbours (e : Edges.t) (edgeIds : option (list Z)) (edgeCount : Z) (isNeighbour : list bool)
    : res (list bool) :=
  forRange 0 edgeCount (fun j nb =>
    ids ← deref edgeIds; x ← aget ids j; d ← Edges.getDest e x; aset nb d true) isNeighbour.

Definition selectNode (lvl i : Z) (s : t) : res t :=
  nodeId ← aget (calcOrder s) i;
  done ← aget (contracted s) nodeId;
  if (done : bool) then Ok s else
  near ← aget (isNeighbour s) nodeId;
  if (near : bool) then Ok s else
  c ← aset (contracted s) nodeId true;
  nb ← aset (isNeighbour s) nodeId true;
  edgeCount ← getCurrentEdgeCount (grid s) nodeId;
  edgeIds ← getCurrentEdges (grid s) nodeId;
  nb ← markNeighbours (edges s) edgeIds edgeCount nb;
  ids ← IntArrayList.add (nodesToCalc s) nodeId;
  nodes ← setNodeLevel (nodes s) nodeId lvl;
  Ok (mk c nb (alreadyShortcut s) (calcOrder s) ids (iadd (nonContractedNum s) (-1)) nodes (edges s) (grid s)).

(** Sixteen threads, and the nodes dealt out to them in turn. *)
Definition newThreads : res (list CHDijkstra.t) :=
  forRange 0 NUM_OF_THREADS (fun _ threads => th ← CHDijkstra.new; Ok (threads ++ [th])) [].

Definition distribute (ids : IntArrayList.t) (threads : list CHDijkstra.t) : res (list CHDijkstra.t) :=
  forRange 0 (IntArrayList.getLen ids) (fun i threads =>
    let k := Z.rem i NUM_OF_THREADS in
    th ← aget threads k;
    id ← IntArrayList.get ids i;
    th ← CHDijkstra.addNodeId th id;
    aset threads k th) threads.

(** [start] and [join] of all threads. *)
Definition runThreads (e : Edges.t) (g : DynamicGrid.t) (threads : list CHDijkstra.t) : res (list CHDijkstra.t) :=
  forEach threads (fun th acc => th ← CHDijkstra.run e g th; Ok (acc ++ [th])) [].

(** The shortcut at [j] of a thread's list goes into the graph unless there is one already. *)
Definition insertShortcut (sc : IntArrayList.t) (j : Z)
    (st : list (option IntArraySet.t) * Edges.t * DynamicGrid.t)
    : res (list (option IntArraySet.t) * Edges.t * DynamicGrid.t) :=
  let '(already, e, g) := st in
  let idx := j * 5 in
  startIdx ← IntArrayList.get sc idx;
  destIdx ← IntArrayList.get sc (idx + 1);
  set ← aget already startIdx;
  set ← deref set;
  if IntArraySet.contains set destIdx then Ok st else
  d ← IntArrayList.get sc (idx + 2);
  e1 ← IntArrayList.get sc (idx + 3);
  e2 ← IntArrayList.get sc (idx + 4);
  '(firstEdgeId, e) ← Edges.addShortcutEdge e startIdx destIdx d e1 e2;
  g ← DynamicGrid.addEdge g startIdx firstEdgeId;
  set ← IntArraySet.add set destIdx;
  already ← aset already startIdx (Some set);
  Ok (already, e, g).

Definition insertAll (th : CHDijkstra.t) (st : list (option IntArraySet.t) * Edges.t * DynamicGrid.t)
    : res (list (option IntArraySet.t) * Edges.t * DynamicGrid.t) :=
  forRange 0 (Z.quot (IntArrayList.getLen (shortcuts th)) 5) (insertShortcut (shortcuts th)) st.

(** The nodes are removed from the last one taken to the first. *)
Definition removeAll (ids : IntArrayList.t) (e : Edges.t) (g : DynamicGrid.t) : res DynamicGrid.t :=
  forRange 0 (IntArrayList.getLen ids) (fun k g =>
    id ← IntArrayList.get ids (IntArrayList.getLen ids - 1 - k); DynamicGrid.removeNode e g id) g.

Definition calcNextLvl (lvl : Z) (s : t) : res t :=
  let s := mk (contracted s) (fill (isNeighbour s) false) (alreadyShortcut s) (calcOrder s)
    (IntArrayList.clear (nodesToCalc s)) (nonContractedNum s) (nodes s) (edges s) (grid s) in
  s ← forRange 0 (getNodeCount (nodes s)) (selectNode lvl) s;
  threads ← newThreads;
  threads ← distribute (nodesToCalc s) threads;
  threads ← runThreads (edges s) (grid s) threads;
  '(already, e, g) ← forEach threads insertAll (alreadyShortcut s, edges s, grid s);
  g ← removeAll (nodesToCalc s) e g;
  Ok (mk (contracted s) (isNeighbour s) already (calcOrder s) (nodesToCalc s) (nonContractedNum s) (nodes s) e g).

(** [Random.nextInt(bound)]: a number below [bound], which has to be positive. *)
Definition nextInt (rnd : Z -> Z) (i bound : Z) : res Z := if bound <=? 0 then Err IllegalArgument else Ok (rnd i).

Definition swap (rnd : Z -> Z) (nodeCount i : Z) (calcOrder : list Z) : res (list Z) :=
  index ← nextInt rnd i (iadd nodeCount (-1));
  tmp ← aget calcOrder index;
  x ← aget calcOrder i;
  calcOrder ← aset calcOrder index x;
  aset calcOrder i tmp.

(** The loop of [calculateCH]: every level contracts a node. *)
Fixpoint levels (fuel : nat) (lvl : Z) (s : t) : res t :=
  match fuel with
  | O => Err OutOfFuel
  | S fuel' =>
      if 0 <? nonContractedNum s then s ← calcNextLvl lvl s; levels fuel' (iadd lvl 1) s else Ok s
  end.

Definition calculateCH (rnd : Z -> Z) (ids : IntArrayList.t) (nodes : Nodes D) (e : Edges.t) (g : DynamicGrid.t)
    : res t :=
  let nodeCount := getNodeCount nodes in
  already ← newArray None nodeCount;
  order ← newArray 0 nodeCount;
  '(already, order) ← forRange 0 nodeCount (fun i '(already, order) =>
    set ← IntArraySet.new 1 20;
    already ← aset already i (Some set);
    order ← aset order i i;
    Ok (already, order)) (already, order);
  order ← forRange 0 nodeCount (swap rnd nodeCount) order;
  contracted ← newArray false nodeCount;
  isNeighbour ← newArray false nodeCount;
  levels (S (Z.to_nat nodeCount)) 0
    (mk (fill contracted false) isNeighbour already order ids nodeCount nodes e g).
End contraction.
Arguments t : clear implicits.

(** ** Selecting the nodes of a level *)

Section selection.
Context {D : Type} (e : Edges.t) (g : DynamicGrid.t) (n W Emax L : Z).
Context (Hg : searchable e g n W Emax).
Notation dst := (dst e).
Notation lvlOf s u := (nLevels (nodes s)).[u].

Definition adjacent (u v : Z) : Prop := v ∈ dst <$> current g u.

Lemma adjacent_sym u v : 0 <= u < n -> adjacent u v -> 0 <= v < n /\ v <> u /\ adjacent v u.
Proof.
  intros Hu (x & -> & Hx)%list_elem_of_fmap. destruct (sb_edge _ _ _ _ _ Hg u x Hu Hx) as (_ & _ & Hd & Hne & _).
  split; [done |]. split; [done |]. destruct (sb_back _ _ _ _ _ Hg u x Hu Hx) as (y & Hy & <- & _).
  by apply list_elem_of_fmap_2.
Qed.

Lemma markNeighbours_ok v nb : 0 <= v < n -> alen nb = n ->
  returns (markNeighbours e (currentEdgeIds g).[v] (alen (current g v)) nb) (fun nb' => alen nb' = n /\
    forall u, 0 <= u < n -> nb'.[u] = true <-> nb.[u] = true \/ adjacent v u).
Proof.
  intros Hv Hlen. unfold markNeighbours. eapply returns_mono.
  - apply (forRange_inv (fun k nb' => alen nb' = n /\ forall u, 0 <= u < n ->
      nb'.[u] = true <-> nb.[u] = true \/ u ∈ dst <$> take (Z.to_nat k) (current g v))); [apply alen_nonneg | |].
    + split; [done |]. intros u Hu. change (Z.to_nat 0) with 0%nat. rewrite take_0. cbn. set_solver.
    + intros k nb' Hk [Hl Hnb]. pose proof (edge_at g n v k (sb_grid _ _ _ _ _ Hg) Hv Hk) as Hc.
      destruct ((currentEdgeIds g).[v]) as [ids |]; [| done]. cbn [deref] in *. rewrite bind_ok in Hc.
      rewrite bind_ok, Hc, bind_ok. set (x := (current g v).[k]).
      assert (x ∈ current g v) as Hx by (by apply at_In).
      destruct (sb_edge _ _ _ _ _ Hg v x Hv Hx) as (-> & _ & Hd & _). rewrite bind_ok, aset_ok by lia. ret.
      split; [by autorewrite with alen |]. intros u Hu. replace (Z.to_nat (k + 1)) with (S (Z.to_nat k)) by lia.
      rewrite (take_S_r _ _ x) by (by apply at_lookup). rewrite fmap_app, elem_of_app, at_insert by lia.
      cbn. rewrite list_elem_of_singleton. specialize (Hnb u Hu).
      case_decide as E; [rewrite <-E; tauto |]. rewrite Hnb. set_solver.
  - cbv beta. intros nb' [Hl Hnb]. split; [done |]. intros u Hu. rewrite (Hnb u Hu).
    by rewrite take_ge by (unfold alen; lia).
Qed.

(** After [i] positions of the order: [S] are the nodes taken. *)
Record selecting (s0 : t D) (S : list Z) (i : Z) (s : t D) : Prop := {
  se_order : calcOrder s = calcOrder s0;
  se_already : alreadyShortcut s = alreadyShortcut s0;
  se_edges : edges s = e;
  se_grid : grid s = g;
  se_ids : IntArrayList.repr (nodesToCalc s) S;
  se_nodup : NoDup S;
  se_lengths : alen (contracted s) = n /\ alen (isNeighbour s) = n;
  se_taken : forall v, v ∈ S -> 0 <= v < n /\ (contracted s0).[v] = false;
  se_apart : forall v w, v ∈ S -> w ∈ S -> ~ adjacent v w;
  se_contracted : forall u, 0 <= u < n -> (contracted s).[u] = true <-> (contracted s0).[u] = true \/ u ∈ S;
  se_near : forall u, 0 <= u < n -> (isNeighbour s).[u] = true <-> u ∈ S \/ exists v, v ∈ S /\ adjacent v u;
  se_seen : forall k, 0 <= k < i -> 0 <= (calcOrder s0).[k] < n ->
    (contracted s).[(calcOrder s0).[k]] = true \/ (isNeighbour s).[(calcOrder s0).[k]] = true;
  se_count : nonContractedNum s = nonContractedNum s0 - alen S;
  se_nodes : nLatitude (nodes s) = nLatitude (nodes s0) /\ nLongitude (nodes s) = nLongitude (nodes s0) /\
    alen (nLevels (nodes s)) = n;
  se_levels : forall u, 0 <= u < n -> lvlOf s u = if decide (u ∈ S) then L else lvlOf s0 u;
}.

Lemma skip_node s0 S i s : selecting s0 S i s ->
  (contracted s).[(calcOrder s0).[i]] = true \/ (isNeighbour s).[(calcOrder s0).[i]] = true -> selecting s0 S (i + 1) s.
Proof.
  intros [] Hi. split; try done. intros k Hk Hr. destruct (decide (k = i)) as [-> | ?]; [done | apply se_seen0; [lia | done]].
Qed.

(** Taking [v], the node at position [i] of the order. *)
Lemma take_node s0 S i s v c nb nb' ids ns : selecting s0 S i s -> (calcOrder s0).[i] = v -> 0 <= v < n ->
  (contracted s).[v] = false -> (isNeighbour s).[v] = false ->
  c = <[Z.to_nat v := true]> (contracted s) -> nb = <[Z.to_nat v := true]> (isNeighbour s) ->
  alen nb' = n -> (forall u, 0 <= u < n -> nb'.[u] = true <-> nb.[u] = true \/ adjacent v u) ->
  IntArrayList.repr ids (S ++ [v]) -> ns = mkNodes (nLatitude (nodes s)) (nLongitude (nodes s)) (<[Z.to_nat v := L]> (nLevels (nodes s))) ->
  selecting s0 (S ++ [v]) (i + 1)
    (mk c nb' (alreadyShortcut s) (calcOrder s) ids (nonContractedNum s + -1) ns (edges s) (grid s)).
Proof.
  intros Hs Ev Hv Hc Hn -> -> Hnb' Hnear Hids ->. pose proof (se_lengths _ _ _ _ Hs) as [L1 L2].
  pose proof (se_nodes _ _ _ _ Hs) as (_ & _ & L3).
  assert (v ∉ S) as HvS by (intros Hin; rewrite (proj2 (se_contracted _ _ _ _ Hs v Hv)) in Hc; [done | by right]).
  assert (forall w, w ∈ S -> ~ adjacent w v) as Hfar.
  { intros w Hw Ha. rewrite (proj2 (se_near _ _ _ _ Hs v Hv)) in Hn; [done | right; by exists w]. }
  assert (forall u, 0 <= u < n -> (<[Z.to_nat v := true]> (contracted s)).[u] = true <-> (contracted s).[u] = true \/ u = v) as Hcon.
  { intros u Hu. rewrite at_insert by lia. case_decide as E; [subst; tauto |]. split; [by left | by intros [? | ->]]. }
  split; cbn; try apply Hs.
  - done.
  - apply NoDup_app. split; [apply Hs |]. split; [| apply NoDup_singleton]. intros w Hw ->%list_elem_of_singleton. done.
  - split; [by autorewrite with alen | done].
  - intros w [Hw | ->%list_elem_of_singleton]%elem_of_app; [by apply (se_taken _ _ _ _ Hs) | split; [done |]].
    destruct ((contracted s0).[v]) eqn:E; [| done]. rewrite (proj2 (se_contracted _ _ _ _ Hs v Hv)) in Hc; [done | by left].
  - intros w z [Hw | ->%list_elem_of_singleton]%elem_of_app [Hz | ->%list_elem_of_singleton]%elem_of_app Ha.
    + by apply (se_apart _ _ _ _ Hs w z).
    + by apply (Hfar w).
    + apply (Hfar z Hz). by apply (adjacent_sym v z Hv).
    + by apply (adjacent_sym v v Hv) in Ha as (_ & ? & _).
  - intros u Hu. rewrite (Hcon u Hu), (se_contracted _ _ _ _ Hs u Hu), elem_of_app, list_elem_of_singleton. tauto.
  - intros u Hu. rewrite (Hnear u Hu), at_insert by lia. pose proof (se_near _ _ _ _ Hs u Hu) as Hold.
    setoid_rewrite elem_of_app. setoid_rewrite list_elem_of_singleton.
    split.
    + intros [E | Ha]; [case_decide as Evu; [left; by right |]; apply Hold in E as [? | (w & ? & ?)] |]; [by left; left | | ].
      * right. exists w. split; [by left | done].
      * right. exists v. split; [by right | done].
    + intros [[Hin | ->] | (w & [Hw | ->] & Ha)]; [left | left | left | by right].
      * case_decide; [done |]. apply Hold. by left.
      * by rewrite decide_True.
      * case_decide; [done |]. apply Hold. right. by exists w.
  - intros k Hk Hr. destruct (decide (k = i)) as [-> | Hki].
    + left. rewrite Ev. apply Hcon; [done | by right].
    + destruct (se_seen _ _ _ _ Hs k ltac:(lia) Hr) as [E | E]; [left; apply Hcon; tauto | right].
      apply Hnear; [done |]. left. rewrite at_insert by lia. by case_decide.
  - rewrite (se_count _ _ _ _ Hs), alen_app. unfold alen at 3. cbn. lia.
  - destruct (se_nodes _ _ _ _ Hs) as (? & ? & ?). split; [done |]. split; [done | by autorewrite with alen].
  - intros u Hu. rewrite at_insert by lia. rewrite (se_levels _ _ _ _ Hs u Hu).
    destruct (decide (v = u)) as [<- | Hne]; [by rewrite decide_True by set_solver |].
    apply decide_ext. set_solver.
Qed.
Lemma in_range_len (l : list Z) m : NoDup l -> (forall x, x ∈ l -> 0 <= x < m) -> alen l <= Z.max 0 m.
Proof.
  intros Hnd Hin. assert (length l <= length (seqZ 0 m))%nat as Hle.
  { apply submseteq_length, NoDup_submseteq; [done |]. intros x Hx. apply elem_of_seqZ. specialize (Hin x Hx). lia. }
  rewrite length_seqZ in Hle. unfold alen. lia.
Qed.

Lemma selecting_small s0 S i s : selecting s0 S i s -> 0 <= n -> alen S <= n.
Proof.
  intros Hs Hn. pose proof (in_range_len S n (se_nodup _ _ _ _ Hs)) as H.
  rewrite Z.max_r in H by done. apply H. intros x Hx. by apply (se_taken _ _ _ _ Hs).
Qed.

Lemma selectNode_ok s0 S i s : selecting s0 S i s -> 0 <= i < alen (calcOrder s0) -> 0 <= (calcOrder s0).[i] < n ->
  0 <= nonContractedNum s0 < MAX_VALUE -> returns (selectNode L i s) (fun s' => exists S', selecting s0 S' (i + 1) s').
Proof.
  intros Hs Hi Hv Hnum. pose proof (se_lengths _ _ _ _ Hs) as [L1 L2]. pose proof (se_nodes _ _ _ _ Hs) as (_ & _ & L3).
  pose proof (selecting_small _ _ _ _ Hs ltac:(lia)) as Hsmall. pose proof (alen_nonneg S).
  pose proof (sb_count _ _ _ _ _ Hg) as Hn.
  unfold selectNode. rewrite (se_order _ _ _ _ Hs), aget_ok, bind_ok by done. set (v := (calcOrder s0).[i]) in *.
  rewrite (aget_ok (contracted s)), bind_ok by lia. destruct ((contracted s).[v]) eqn:Hc.
  { ret. exists S. apply skip_node; [done |]. fold v. by left. }
  rewrite (aget_ok (isNeighbour s)), bind_ok by lia. destruct ((isNeighbour s).[v]) eqn:Hnear.
  { ret. exists S. apply skip_node; [done |]. fold v. by right. }
  rewrite (aset_ok (contracted s)), bind_ok by lia. rewrite (aset_ok (isNeighbour s)), bind_ok by lia.
  rewrite (se_grid _ _ _ _ Hs), (se_edges _ _ _ _ Hs). destruct (edge_row g n v (sb_grid _ _ _ _ _ Hg) Hv) as [-> ->].
  rewrite !bind_ok. eapply returns_bind; [apply (markNeighbours_ok v _ Hv); by autorewrite with alen |].
  cbv beta. intros nb' [Hlen Hnb]. eapply returns_bind; [apply (IntArrayList.add_repr _ _ v (se_ids _ _ _ _ Hs)) |].
  cbv beta. intros ids Hids. unfold setNodeLevel. rewrite (aset_ok (nLevels (nodes s))), !bind_ok by lia.
  ret. exists (S ++ [v]). rewrite iadd_id by (rewrite (se_count _ _ _ _ Hs); unfold is_int, MIN_VALUE, MAX_VALUE in *; lia).
  pose proof (take_node s0 S i s v _ _ nb' ids _ Hs eq_refl Hv Hc Hnear eq_refl eq_refl Hlen Hnb Hids eq_refl) as Htake.
  by rewrite (se_order _ _ _ _ Hs), (se_edges _ _ _ _ Hs), (se_grid _ _ _ _ Hs) in Htake.
Qed.

(** The state in which the nodes of a level are selected. *)
Record startable (s : t D) : Prop := {
  sl_edges : edges s = e;
  sl_grid : grid s = g;
  sl_ids : IntArrayList.repr (nodesToCalc s) [];
  sl_lengths : alen (contracted s) = n /\ alen (isNeighbour s) = n /\ alen (nLevels (nodes s)) = n;
  sl_near : forall u, 0 <= u < n -> (isNeighbour s).[u] = false;
  sl_order : calcOrder s ≡ₚ seqZ 0 n;
  sl_count : 0 <= nonContractedNum s < MAX_VALUE;
}.

(** The nodes [S] of a level: remaining ones, not adjacent, and every other remaining node is a
    neighbour of one of them. *)
Definition maximal (s0 : t D) (S : list Z) : Prop := forall u, 0 <= u < n -> (contracted s0).[u] = false ->
  u ∈ S \/ exists v, v ∈ S /\ adjacent v u.

Lemma startable_order s : startable s -> 0 <= n -> alen (calcOrder s) = n /\
  forall u, 0 <= u < n <-> exists k, 0 <= k < n /\ (calcOrder s).[k] = u.
Proof.
  intros Hs Hn. pose proof (sl_order _ Hs) as Hp.
  assert (alen (calcOrder s) = n) as Hlen.
  { unfold alen. rewrite (Permutation_length Hp), length_seqZ. lia. }
  split; [done |]. intros u. split.
  - intros Hu. destruct (In_at (calcOrder s) u) as (k & Hk & E); [| exists k; by rewrite <-Hlen].
    rewrite (elem_of_Permutation_proper u _ _ Hp). apply elem_of_seqZ. lia.
  - intros (k & Hk & <-). rewrite <-Hlen in Hk. pose proof (at_In _ _ Hk) as Hin.
    rewrite (elem_of_Permutation_proper _ _ _ Hp) in Hin. apply elem_of_seqZ in Hin. lia.
Qed.

Lemma select_ok s0 : startable s0 -> 0 <= n ->
  returns (forRange 0 n (selectNode L) s0) (fun s => exists S, selecting s0 S n s /\ maximal s0 S).
Proof.
  intros Hs Hn. destruct (startable_order s0 Hs Hn) as [Hlen Hord]. eapply returns_mono.
  - apply (forRange_inv (fun i s => exists S, selecting s0 S i s)); [done | |].
    + exists []. destruct (sl_lengths _ Hs) as (L1 & L2 & L3). split; try done; try apply Hs.
      * apply NoDup_nil_2.
      * intros v Hv. by apply elem_of_nil in Hv.
      * intros v w Hv. by apply elem_of_nil in Hv.
      * intros u Hu. rewrite elem_of_nil. tauto.
      * intros u Hu. rewrite (sl_near _ Hs u Hu). split; [done |]. rewrite elem_of_nil.
        intros [? | (v & Hv & _)]; [done | by apply elem_of_nil in Hv].
      * intros k Hk. lia.
      * change (alen ([] : list Z)) with 0. lia.
    + intros i s Hi [S HS]. apply (selectNode_ok s0 S i s HS); [lia | apply Hord; by exists i | apply Hs].
  - cbv beta. intros s [S HS]. exists S. split; [done |]. intros u Hu Hopen.
    apply Hord in Hu as Hk. destruct Hk as (k & Hk & Ek).
    destruct (se_seen _ _ _ _ HS k ltac:(lia)) as [E | E]; rewrite Ek in *; [done | |].
    + apply (se_contracted _ _ _ _ HS u Hu) in E as [? | ?]; [congruence | by left].
    + by apply (se_near _ _ _ _ HS u Hu) in E.
Qed.
End selection.

(** ** The threads of a level *)

Section threads.
Context (e : Edges.t) (g : DynamicGrid.t) (n W Emax : Z) (Hg : searchable e g n W Emax).

(** A thread that has not run, with the nodes [vs]. *)
Definition waiting (th : CHDijkstra.t) (vs : list Z) : Prop :=
  idle th /\ IntArrayList.repr (shortcuts th) [] /\ IntArrayList.repr (nodeIdsToCalc th) vs.

Lemma newThreads_ok : returns newThreads (fun ths => Forall2 waiting ths (replicate (Z.to_nat NUM_OF_THREADS) [])).
Proof.
  unfold newThreads.
  apply (forRange_inv (fun i ths => Forall2 waiting ths (replicate (Z.to_nat i) []))); [done | constructor |].
  intros i ths Hi Hths. eapply returns_bind; [apply new_ok |]. cbv beta. intros th Hth. ret.
  replace (Z.to_nat (i + 1)) with (S (Z.to_nat i)) by lia. rewrite replicate_S_end.
  apply Forall2_app; [done |]. by constructor.
Qed.

(** The nodes that some share has. *)
Definition dealt (shares : list (list Z)) (x : Z) : Prop := exists vs, vs ∈ shares /\ x ∈ vs.

Lemma dealt_insert shares k vs y x : shares !! k = Some vs ->
  dealt (<[k := vs ++ [y]]> shares) x <-> x = y \/ dealt shares x.
Proof.
  intros Hk. pose proof (lookup_lt_Some _ _ _ Hk) as Hlt. split.
  - intros (ws & [j Hj]%list_elem_of_lookup & Hx). rewrite list_lookup_insert in Hj. case_decide as E.
    + destruct E as [-> _]. injection Hj as <-. apply elem_of_app in Hx as [Hx | ->%list_elem_of_singleton]; [right | by left].
      exists vs. split; [by eapply list_elem_of_lookup_2 | done].
    + right. exists ws. split; [by eapply list_elem_of_lookup_2 | done].
  - assert (vs ++ [y] ∈ <[k := vs ++ [y]]> shares) as Hin.
    { apply (list_elem_of_lookup_2 _ k). by apply list_lookup_insert_eq. }
    intros [-> | (ws & [j Hj]%list_elem_of_lookup & Hx)]; [exists (vs ++ [y]); split; [done | set_solver] |].
    destruct (decide (j = k)) as [-> | Hne].
    + assert (ws = vs) as -> by congruence. exists (vs ++ [y]). split; [done | set_solver].
    + exists ws. split; [| done]. apply (list_elem_of_lookup_2 _ j). by rewrite list_lookup_insert_ne.
Qed.

Lemma aget_some {A} (l : list A) k x : 0 <= k -> l !! Z.to_nat k = Some x -> aget l k = Ok x.
Proof. intros Hk E. unfold aget. destruct (Z.ltb_spec k 0); [lia |]. by rewrite E. Qed.

Lemma distribute_ok ids S ths : IntArrayList.repr ids S ->
  Forall2 waiting ths (replicate (Z.to_nat NUM_OF_THREADS) []) ->
  returns (distribute ids ths) (fun ths' => exists shares, Forall2 waiting ths' shares /\ forall x, dealt shares x <-> x ∈ S).
Proof.
  intros Hids Hths. unfold distribute. rewrite (IntArrayList.getLen_repr _ S Hids). eapply returns_mono.
  - apply (forRange_inv (fun i ths' => exists shares, Forall2 waiting ths' shares /\
      length shares = Z.to_nat NUM_OF_THREADS /\ forall x, dealt shares x <-> x ∈ take (Z.to_nat i) S)); [apply alen_nonneg | |].
    + eexists. split; [exact Hths |]. split; [by rewrite length_replicate |]. intros x. change (Z.to_nat 0) with 0%nat.
      rewrite take_0, elem_of_nil. split; [| done]. intros (vs & [-> _]%elem_of_replicate & Hx). by apply elem_of_nil in Hx.
    + intros i ths1 Hi (shares & Hw & Hlen & Hx). cbv zeta. rewrite Z.rem_mod_nonneg by (unfold NUM_OF_THREADS; lia).
      pose proof (Z.mod_pos_bound i NUM_OF_THREADS ltac:(done)) as Hk. set (k := i mod NUM_OF_THREADS) in *.
      pose proof (Forall2_length _ _ _ Hw) as Hlen'. unfold NUM_OF_THREADS in Hk, Hlen.
      destruct (lookup_lt_is_Some_2 ths1 (Z.to_nat k)) as [th Hth]; [lia |].
      destruct (Forall2_lookup_l _ _ _ _ _ Hw Hth) as (vs & Hvs & Hi1 & Hi2 & Hi3).
      rewrite (aget_some ths1 k th), bind_ok by (done || lia).
      rewrite (IntArrayList.get_repr _ S i Hids Hi), bind_ok.
      eapply returns_bind; [apply (addNodeId_ok th vs S.[i] Hi3) |]. cbv beta. intros th' (H1 & H2 & H3).
      unfold aset. destruct (Z.leb_spec 0 k); [| lia]. destruct (Z.ltb_spec k (alen ths1)); [| unfold alen in *; lia]. ret.
      exists (<[Z.to_nat k := vs ++ [S.[i]]]> shares). split_and!.
      * apply Forall2_insert; [done |]. unfold waiting. rewrite H2, H3. done.
      * by rewrite length_insert.
      * intros x. rewrite (dealt_insert _ _ _ _ _ Hvs), Hx. replace (Z.to_nat (i + 1)) with (Datatypes.S (Z.to_nat i)) by lia.
        rewrite (take_S_r S _ S.[i]) by (by apply at_lookup). rewrite elem_of_app, list_elem_of_singleton. tauto.
  - cbv beta. intros ths' (shares & Hw & _ & Hx). exists shares. split; [done |]. intros x.
    rewrite Hx, take_ge by (unfold alen; lia). done.
Qed.

(** The threads' lists of shortcuts. *)
Definition holding (th : CHDijkstra.t) (new : list shortcut) : Prop := IntArrayList.repr (shortcuts th) (flat new).

Lemma over_app vs ws l l' : shortcuts_over_all e g n vs l -> shortcuts_over_all e g n ws l' ->
  shortcuts_over_all e g n (vs ++ ws) (l ++ l').
Proof.
  intros [H1 H2] [H3 H4]. split.
  - intros sc [Hsc | Hsc]%elem_of_app; [destruct (H1 sc Hsc) as (v & ? & ?) | destruct (H3 sc Hsc) as (v & ? & ?)];
      exists v; set_solver.
  - intros v u x y [Hv | Hv]%elem_of_app Hu Hr.
    + apply (covered_mono e g l); [set_solver | by apply (H2 v)].
    + apply (covered_mono e g l'); [set_solver | by apply (H4 v)].
Qed.

Lemma runThreads_ok ths shares : Forall2 waiting ths shares -> (forall x, dealt shares x -> 0 <= x < n) ->
  returns (runThreads e g ths) (fun ths' => exists news, Forall2 holding ths' news /\
    shortcuts_over_all e g n (concat shares) (concat news)).
Proof.
  intros Hw Hin. unfold runThreads.
  assert (forall acc old, Forall2 holding acc old ->
    returns (forEach ths (fun th acc => th ← CHDijkstra.run e g th; Ok (acc ++ [th])) acc) (fun ths' => exists news,
      Forall2 holding ths' (old ++ news) /\ shortcuts_over_all e g n (concat shares) (concat news))) as Hgen.
  { induction Hw as [| th vs ths shares (Hidle & Hsc & Hids) Hw IH]; intros acc old Hacc; cbn [forEach].
    - ret. exists []. rewrite app_nil_r. split; [done |].
      split; [intros sc Hsc; by apply elem_of_nil in Hsc | intros v u x y Hv; by apply elem_of_nil in Hv].
    - assert (forall x, dealt shares x -> 0 <= x < n) as Hin'.
      { intros x (ws & Hws & Hx). apply Hin. exists ws. split; [by right | done]. }
      rewrite bind_assoc_res. eapply returns_bind.
      { apply (run_covers e g n W Emax Hg vs th []); [| done | done | done]. intros v Hv. apply Hin. exists vs. split; [by left | done]. }
      cbv beta. intros th' (_ & _ & new & Hnew & Hover). rewrite bind_ok. eapply returns_mono.
      + apply (IH Hin' _ (old ++ [new])). apply Forall2_app; [done |]. by constructor.
      + cbv beta. intros ths' (news & Hh & Hall). exists (new :: news). rewrite <-app_assoc in Hh.
        split; [done |]. cbn. by apply over_app. }
  apply (Hgen [] []). constructor.
Qed.

Lemma elem_dealt shares x : x ∈ concat shares <-> dealt shares x.
Proof. rewrite list_elem_of_In, in_concat. setoid_rewrite <-list_elem_of_In. done. Qed.

(** What the threads of a level compute together: the shortcuts over its nodes [S]. *)
Lemma level_threads {A} ids S (k : list CHDijkstra.t -> res A) (Q : A -> Prop) :
  IntArrayList.repr ids S -> (forall v, v ∈ S -> 0 <= v < n) ->
  (forall ths news, Forall2 holding ths news -> shortcuts_over_all e g n S (concat news) -> returns (k ths) Q) ->
  returns (ths ← newThreads; ths ← distribute ids ths; ths ← runThreads e g ths; k ths) Q.
Proof.
  intros Hids HS Hk. eapply returns_bind; [apply newThreads_ok |]. cbv beta. intros ths Hths.
  eapply returns_bind; [by apply (distribute_ok ids S) |]. cbv beta. intros ths' (shares & Hw & Hd).
  eapply returns_bind; [apply (runThreads_ok ths' shares Hw); intros x Hx; by apply HS, Hd |]. cbv beta.
  intros ths2 (news & Hh & H1 & H2). apply (Hk ths2 news Hh). split.
  - intros sc Hsc. destruct (H1 sc Hsc) as (v & Hv & ?). exists v. split; [by apply Hd, elem_dealt | done].
  - intros v u x y Hv. apply H2. by apply elem_dealt, Hd.
Qed.
End threads.

(** ** Properties *)

(** C21: The nodes of a level are an independent set: they had not been contracted, no two of them
    are neighbours, none is taken twice, and every other node that remains is a neighbour of one of
    them; exactly they are marked as contracted, get the level and are counted. *)
Theorem selectNode_independent {D} e g n W Emax L (s0 : t D) : searchable e g n W Emax -> startable e g n s0 -> 0 <= n ->
  returns (forRange 0 n (selectNode L) s0) (fun s => exists S, IntArrayList.repr (nodesToCalc s) S /\ NoDup S /\
    (forall v, v ∈ S -> 0 <= v < n /\ (contracted s0).[v] = false) /\
    (forall v w, v ∈ S -> w ∈ S -> ~ adjacent e g v w) /\ maximal e g n s0 S /\
    nonContractedNum s = nonContractedNum s0 - alen S /\
    forall u, 0 <= u < n -> ((contracted s).[u] = true <-> (contracted s0).[u] = true \/ u ∈ S) /\
      (nLevels (nodes s)).[u] = if decide (u ∈ S) then L else (nLevels (nodes s0)).[u]).
Proof.
  intros Hg Hs Hn. eapply returns_mono; [by apply (select_ok e g n W Emax L Hg s0) |]. cbv beta.
  intros s (S & [] & Hmax). exists S. split_and!; try done. intros u Hu. split; [by apply se_contracted0 | by apply se_levels0].
Qed.
