(* ===== verification/LevelGraph.v ===== *)
(** * The graph after a level of the contraction

    What inserting the shortcuts of a level and removing its nodes does to the graph: every row
    gets the new shortcuts of its node, each to a node it had no edge to, and loses the edges to
    the removed nodes. *)

From S2P Require Import Prelude SortedArray IntArrayList IntArraySet Edges DynamicGrid CHDijkstra CHSearch Contraction.

(** ** Reading a thread's list *)

Lemma alen_flat scs : alen (flat scs) = 5 * alen scs.
Proof.
  induction scs as [| sc scs IH]; [done |]. unfold flat in *. cbn [flat_map]. rewrite alen_app, alen_cons, IH.
  change (alen (fields sc)) with 5. lia.
Qed.

Lemma flat_at scs j k : 0 <= j < alen scs -> 0 <= k < 5 -> (flat scs).[j * 5 + k] = (fields scs.[j]).[k].
Proof.
  revert j. induction scs as [| sc scs IH]; intros j Hj Hk; [unfold alen in Hj; cbn in Hj; lia |].
  unfold flat in *. cbn [flat_map]. rewrite alen_cons in Hj. destruct (decide (j = 0)) as [-> | Hne].
  - rewrite at_app_l by (change (alen (fields sc)) with 5; lia). done.
  - rewrite at_app_r by (change (alen (fields sc)) with 5; lia). change (alen (fields sc)) with 5.
    replace (j * 5 + k - 5) with ((j - 1) * 5 + k) by lia. rewrite IH by lia. by rewrite at_cons_pos by lia.
Qed.

Lemma flat_get l scs j k : IntArrayList.repr l (flat scs) -> 0 <= j < alen scs -> 0 <= k < 5 ->
  IntArrayList.get l (j * 5 + k) = Ok (fields scs.[j]).[k].
Proof.
  intros Hl Hj Hk. rewrite (IntArrayList.get_repr l _ _ Hl) by (rewrite alen_flat; lia). by rewrite flat_at.
Qed.

(** The values that the iteration for the shortcut [sc] works with. *)
Definition insertFields (sc : shortcut) (st : list (option IntArraySet.t) * Edges.t * DynamicGrid.t)
    : res (list (option IntArraySet.t) * Edges.t * DynamicGrid.t) :=
  let '(already, e, g) := st in
  set ← aget already (scStart sc);
  set ← deref set;
  if IntArraySet.contains set (scDest sc) then Ok st else
  '(firstEdgeId, e) ← Edges.addShortcutEdge e (scStart sc) (scDest sc) (scDist sc) (scFirst sc) (scSecond sc);
  g ← DynamicGrid.addEdge g (scStart sc) firstEdgeId;
  set ← IntArraySet.add set (scDest sc);
  already ← aset already (scStart sc) (Some set);
  Ok (already, e, g).

Lemma insertShortcut_fields l scs j st : IntArrayList.repr l (flat scs) -> 0 <= j < alen scs ->
  insertShortcut l j st = insertFields scs.[j] st.
Proof.
  intros Hl Hj. destruct st as [[already e] g]. unfold insertShortcut, insertFields. cbv zeta.
  replace (j * 5) with (j * 5 + 0) at 1 by lia. rewrite !(flat_get l scs j) by (done || lia).
  destruct (scs.[j]) as [a b d f s]. by rewrite !bind_ok.
Qed.

(** Inserting the lists of all threads is inserting their shortcuts one by one. *)
Lemma insertAll_inv (I : list shortcut -> list (option IntArraySet.t) * Edges.t * DynamicGrid.t -> Prop) ths news :
  Forall2 holding ths news ->
  (forall done sc st, sc ∈ concat news -> I done st -> returns (insertFields sc st) (I (done ++ [sc]))) ->
  forall done0 st, I done0 st -> returns (forEach ths insertAll st) (I (done0 ++ concat news)).
Proof.
  intros Hh. induction Hh as [| th new ths news Hth Hh IH]; intros Hstep done0 st Hst; cbn [forEach concat].
  { ret. by rewrite app_nil_r. }
  eapply (returns_bind _ _ (I (done0 ++ new))).
  - unfold insertAll. rewrite (IntArrayList.getLen_repr _ _ Hth), alen_flat.
    rewrite (Z.mul_comm 5), Z.quot_mul by lia.
    replace (done0 ++ new) with (done0 ++ take (Z.to_nat (alen new)) new) by (by rewrite take_ge by (unfold alen; lia)).
    apply (forRange_inv (fun j st => I (done0 ++ take (Z.to_nat j) new) st)); [apply alen_nonneg | by rewrite app_nil_r |].
    intros j st' Hj Hst'. rewrite (insertShortcut_fields _ new) by done.
    replace (Z.to_nat (j + 1)) with (S (Z.to_nat j)) by lia. rewrite (take_S_r new _ new.[j]) by (by apply at_lookup).
    rewrite app_assoc. apply Hstep; [| done]. cbn. apply elem_of_app. left. by apply at_In.
  - cbv beta. intros st' Hst'. rewrite app_assoc. apply IH; [| done]. intros done1 sc st1 Hsc. apply Hstep.
    cbn. apply elem_of_app. by right.
Qed.

(** ** Inserting shortcuts *)

(** Pairs of numbers below [n] are at most [n * n]. *)
Lemma pairs_len (l : list (Z * Z)) n : NoDup l -> (forall p, p ∈ l -> 0 <= p.1 < n /\ 0 <= p.2 < n) -> alen l <= n * n.
Proof.
  intros Hnd Hin. destruct l as [| p l]; [unfold alen; cbn; nia |].
  assert (0 <= n) as Hn by (destruct (Hin p ltac:(by left)); lia). set (q := p :: l) in *.
  assert (alen q = alen ((fun p => p.1 * n + p.2) <$> q)) as -> by (unfold alen; by rewrite length_fmap).
  rewrite (in_range_len _ (n * n)); [nia | |].
  - apply NoDup_fmap_2_strong; [| done]. intros [a b] [c d] H1 H2 E. cbn in E.
    destruct (Hin _ H1), (Hin _ H2). cbn in *. assert (a = c) by nia. subst. f_equal. lia.
  - intros x ([a b] & -> & Hp)%list_elem_of_fmap. destruct (Hin _ Hp). cbn in *. nia.
Qed.

Lemma NoDup_last {A} (l : list A) x : NoDup l -> x ∉ l -> NoDup (l ++ [x]).
Proof.
  intros Hl Hx. apply NoDup_app. split; [done |]. split; [| apply NoDup_singleton].
  intros y Hy ->%list_elem_of_singleton. done.
Qed.

Definition ends (sc : shortcut) : Z * Z := (scStart sc, scDest sc).

(** Shortcut [sc], with the id [x], is made of two earlier edges that meet. *)
Definition made_of (e : Edges.t) (x : Z) (sc : shortcut) : Prop :=
  0 <= scFirst sc < x /\ 0 <= scSecond sc < x /\ Edges.src e (scSecond sc) = scStart sc /\
  dst e (scSecond sc) = Edges.src e (scFirst sc) /\ dst e (scFirst sc) = scDest sc /\
  scDist sc = weight e (scSecond sc) + weight e (scFirst sc).

(** The edge store: shortcuts between different pairs of nodes below [n]. *)
Record store_ok (n : Z) (e : Edges.t) (l : list shortcut) : Prop := {
  so_models : Edges.models e l;
  so_increase : 0 < shortcutEdgeSizeIncrease e;
  so_pairs : NoDup (ends <$> l);
  so_range : forall sc, sc ∈ l -> 0 <= scStart sc < n /\ 0 <= scDest sc < n;
  so_parts : forall k, 0 <= k < alen l -> made_of e (numOfOriginalEdges e + k) l.[k];
  so_room : numOfOriginalEdges e + n * n < MAX_VALUE;
}.

(** [e'] has the edges of [e], and possibly more. *)
Definition extends (e e' : Edges.t) : Prop := nextShortcutId e <= nextShortcutId e' /\
  (forall x, x < nextShortcutId e -> Edges.getDest e' x = Edges.getDest e x /\ Edges.getDist e' x = Edges.getDist e x) /\
  (forall x, x < nextShortcutId e -> Edges.src e' x = Edges.src e x) /\ numOfOriginalEdges e' = numOfOriginalEdges e.

#[export] Instance extends_preorder : PreOrder extends.
Proof.
  split; [by split | intros e1 e2 e3 (L1 & H1 & S1 & N1) (L2 & H2 & S2 & N2)]. split; [lia |]. split; [| split; [| congruence]].
  - intros x Hx. destruct (H1 x Hx) as [<- <-]. apply H2. lia.
  - intros x Hx. rewrite <-(S1 x Hx). apply S2. lia.
Qed.

Lemma extends_dst e e' x : extends e e' -> x < nextShortcutId e -> dst e' x = dst e x /\ weight e' x = weight e x.
Proof. intros (_ & H & _) Hx. unfold dst, weight. by destruct (H x Hx) as [-> ->]. Qed.

Lemma made_of_mono e e' x x' sc : extends e e' -> x <= nextShortcutId e -> x <= x' -> made_of e x sc -> made_of e' x' sc.
Proof.
  intros He Hx Hx' (H1 & H2 & H3). pose proof He as (_ & _ & Hs & _). split; [lia |]. split; [lia |].
  rewrite !Hs by lia. destruct (extends_dst e e' (scSecond sc) He ltac:(lia)) as [-> ->].
  by destruct (extends_dst e e' (scFirst sc) He ltac:(lia)) as [-> ->].
Qed.

(** Adding a shortcut between a new pair of nodes. *)
Lemma store_add n e l sc : store_ok n e l -> ends sc ∉ ends <$> l -> 0 <= scStart sc < n -> 0 <= scDest sc < n ->
  made_of e (nextShortcutId e) sc ->
  returns (Edges.addShortcutEdge e (scStart sc) (scDest sc) (scDist sc) (scFirst sc) (scSecond sc))
    (fun '(id, e') => id = nextShortcutId e /\ nextShortcutId e' = nextShortcutId e + 1 /\ store_ok n e' (l ++ [sc]) /\
      extends e e' /\ Edges.getDest e' id = Ok (scDest sc) /\ Edges.getDist e' id = Ok (scDist sc) /\
      Edges.src e' id = scStart sc).
Proof.
  intros [] Hnew H1 H2 Hmade.
  assert (NoDup (ends <$> (l ++ [sc]))) as Hnd by (rewrite fmap_app; by apply NoDup_last).
  assert (forall sc', sc' ∈ l ++ [sc] -> 0 <= scStart sc' < n /\ 0 <= scDest sc' < n) as Hrange.
  { intros sc' [Hsc | ->%list_elem_of_singleton]%elem_of_app; [by apply so_range0 | done]. }
  assert (alen (ends <$> (l ++ [sc])) <= n * n) as Hlen.
  { apply pairs_len; [done |]. intros p (sc' & -> & Hsc)%list_elem_of_fmap. by apply Hrange. }
  assert (alen (ends <$> (l ++ [sc])) = alen l + 1) as Hl by (unfold alen; rewrite length_fmap, length_app; cbn; lia).
  pose proof so_models0 as (_ & En & _).
  eapply returns_mono; [apply (addShortcutEdge_ok e l sc so_models0 so_increase0); lia |].
  intros [id e'] (-> & Hm & Hd & Hw & Hold & Ho). pose proof (alen_nonneg l).
  pose proof (fun i => src_added e e' l sc i so_models0 Hm Ho) as Hsrc. destruct Ho as (_ & _ & _ & Ho4 & Ho5).
  pose proof Hm as (_ & En' & _). rewrite alen_app in En'. change (alen [sc]) with 1 in En'.
  assert (extends e e') as Hext.
  { split; [lia |]. split; [intros x Hx; apply Hold; lia |]. split; [| done].
    intros x Hx. rewrite (Hsrc x), decide_False by lia. done. }
  split; [done |]. split; [lia |]. split; [split; try done; try lia |]. 2: split; [done |]. 2: split; [done |]. 2: split; [done |].
  - rewrite alen_app, Ho4. change (alen [sc]) with 1. intros k Hk. destruct (decide (k < alen l)) as [Hlt | Hge].
    + rewrite at_app_l by lia. apply (made_of_mono e e' (numOfOriginalEdges e + k)); [done | lia | lia | by apply so_parts0; lia].
    + replace k with (alen l) by lia. rewrite at_app_r, Z.sub_diag by lia.
      apply (made_of_mono e e' (nextShortcutId e)); [done | lia | lia | done].
  - rewrite (Hsrc _), decide_True by lia. done.
Qed.

Section insertion.
Context (n B : Z) (e0 : Edges.t) (g0 : DynamicGrid.t) (X0 : Z -> Z -> Prop).
Context (Hroom : 2 * n <= B /\ 2 * B <= MAX_VALUE).
Notation dst0 := (dst e0).

(** The rows to start with: known edges to different nodes; the current edges among them. *)
Record rows_ok : Prop := {
  ro_known : forall u x, 0 <= u < n -> x ∈ everEdge g0 u -> x < nextShortcutId e0 /\ 0 <= dst0 x < n;
  ro_simple : forall u, 0 <= u < n -> NoDup (dst0 <$> everEdge g0 u);
  ro_current : forall u x, 0 <= u < n -> x ∈ current g0 u -> x ∈ everEdge g0 u;
  ro_current_simple : forall u, 0 <= u < n -> NoDup (dst0 <$> current g0 u);
}.
Context (Hrows : rows_ok).

(** A shortcut that may be inserted. *)
Record insertable (sc : shortcut) : Prop := {
  it_range : 0 <= scStart sc < n /\ 0 <= scDest sc < n;
  it_rooms : roomy B (currentEdgeIds g0) (scStart sc) /\ roomy B (allEdgeIds g0) (scStart sc);
  it_made : made_of e0 (nextShortcutId e0) sc;
  it_new : ~ X0 (scStart sc) (scDest sc) -> scDest sc ∉ dst0 <$> everEdge g0 (scStart sc);
}.

(** After the shortcuts [done]: node [u] has got the edges [extra u]. *)
Record inserted (extra : Z -> list Z) (done : list shortcut)
    (already : list (option IntArraySet.t)) (e : Edges.t) (g : DynamicGrid.t) : Prop := {
  in_store : exists l, store_ok n e l /\ forall sc, sc ∈ l -> X0 (scStart sc) (scDest sc) \/ scDest sc ∈ dst e <$> extra (scStart sc);
  in_extends : extends e0 e;
  in_grid : grid_ok g n;
  in_rows : forall u, 0 <= u < n -> current g u = current g0 u ++ extra u /\ everEdge g u = everEdge g0 u ++ extra u;
  in_extra : forall u x, 0 <= u < n -> x ∈ extra u -> x < nextShortcutId e /\
    exists sc, sc ∈ done /\ scStart sc = u /\ Edges.getDest e x = Ok (scDest sc) /\ Edges.getDist e x = Ok (scDist sc) /\
      ~ X0 u (scDest sc);
  in_source : forall u x, 0 <= u < n -> x ∈ extra u -> 0 <= x /\ Edges.src e x = u;
  in_simple : forall u, 0 <= u < n -> NoDup (dst e <$> everEdge g u);
  in_size : alen already = n;
  in_sets : forall u, 0 <= u < n -> exists s l, already.[u] = Some s /\ IntArraySet.wf s l /\
    forall w, w ∈ l <-> X0 u w \/ w ∈ dst e <$> extra u;
  in_done : forall sc, sc ∈ done -> 0 <= scStart sc < n -> X0 (scStart sc) (scDest sc) \/ scDest sc ∈ dst e <$> extra (scStart sc);
  in_room : forall u, 0 <= u < n -> (roomy B (currentEdgeIds g0) u -> roomy B (currentEdgeIds g) u) /\
    (roomy B (allEdgeIds g0) u -> roomy B (allEdgeIds g) u);
}.

Definition insert_state (done : list shortcut) (st : list (option IntArraySet.t) * Edges.t * DynamicGrid.t) : Prop :=
  exists extra, inserted extra done st.1.1 st.1.2 st.2.

Lemma extra_dst extra done al e g e' : inserted extra done al e g -> extends e e' -> forall u, 0 <= u < n ->
  dst e' <$> extra u = dst e <$> extra u.
Proof.
  intros Hi He u Hu. apply list_fmap_ext. intros _ x Hx%list_elem_of_lookup_2.
  apply extends_dst; [done |]. by apply (in_extra _ _ _ _ _ Hi u).
Qed.

Lemma ever_dst extra done al e g e' : inserted extra done al e g -> extends e e' -> forall u, 0 <= u < n ->
  dst e' <$> everEdge g u = dst e <$> everEdge g u.
Proof.
  intros Hi He u Hu. destruct (in_rows _ _ _ _ _ Hi u Hu) as [_ ->]. rewrite !fmap_app.
  rewrite (extra_dst _ _ _ _ _ _ Hi He u Hu). f_equal. apply list_fmap_ext. intros _ x Hx%list_elem_of_lookup_2.
  destruct (ro_known Hrows u x Hu Hx) as [Hlt _]. pose proof (in_extends _ _ _ _ _ Hi) as [Hle _].
  apply extends_dst; [done | lia].
Qed.

(** Every row is small enough to be doubled. *)
Lemma rows_small extra done al e g u : inserted extra done al e g -> 0 <= u < n ->
  (forall sc, sc ∈ done -> 0 <= scDest sc < n) -> alen (everEdge g u) <= n /\ alen (current g u) <= n.
Proof.
  intros Hi Hu Hd.
  assert (forall x, x ∈ everEdge g u -> 0 <= dst e x < n) as Hr.
  { intros x Hx. destruct (in_rows _ _ _ _ _ Hi u Hu) as [_ E]. rewrite E in Hx. apply elem_of_app in Hx as [Hx | Hx].
    - destruct (ro_known Hrows u x Hu Hx) as [Hlt Hb]. by destruct (extends_dst _ _ x (in_extends _ _ _ _ _ Hi) Hlt) as [-> _].
    - destruct (in_extra _ _ _ _ _ Hi u x Hu Hx) as (_ & sc & Hsc & _ & Ed & _). unfold dst. rewrite Ed. by apply Hd. }
  assert (alen (everEdge g u) <= n) as H1.
  { pose proof (in_range_len (dst e <$> everEdge g u) n (in_simple _ _ _ _ _ Hi u Hu)) as H.
    unfold alen in *. rewrite length_fmap in H. rewrite Z.max_r in H by lia. apply H.
    intros y (x & -> & Hx)%list_elem_of_fmap. by apply Hr. }
  split; [done |]. destruct (in_rows _ _ _ _ _ Hi u Hu) as [E1 E2]. rewrite E1, E2 in *.
  assert (length (current g0 u) <= length (everEdge g0 u))%nat.
  { apply submseteq_length, NoDup_submseteq; [by apply (NoDup_fmap_1 dst0), (ro_current_simple Hrows) |].
    intros x. by apply (ro_current Hrows). }
  unfold alen in *. rewrite length_app in *. lia.
Qed.

(** An insertion that adds the edge [id]. *)
Section adding.
Context (extra : Z -> list Z) (done0 : list shortcut) (al : list (option IntArraySet.t)) (e : Edges.t) (g : DynamicGrid.t).
Context (Hi : inserted extra done0 al e g) (sc : shortcut) (Hsc : insertable sc).
Context (HnX : ~ X0 (scStart sc) (scDest sc)) (Hnew : scDest sc ∉ dst e <$> extra (scStart sc)).
Context (e' : Edges.t) (id : Z) (Hext : extends e e') (Hid : id = nextShortcutId e /\ nextShortcutId e' = nextShortcutId e + 1).
Context (Hid0 : 0 <= id) (Hsrc : Edges.src e' id = scStart sc).
Context (Hdest : Edges.getDest e' id = Ok (scDest sc)) (Hdist : Edges.getDist e' id = Ok (scDist sc)).
Notation u := (scStart sc).

Definition added (v : Z) : list Z := if decide (v = u) then extra v ++ [id] else extra v.

Lemma added_dst v : 0 <= v < n -> dst e' <$> added v = (dst e <$> extra v) ++ (if decide (v = u) then [scDest sc] else []).
Proof.
  intros Hv. pose proof (extra_dst _ _ _ _ _ _ Hi Hext v Hv) as E. unfold added. case_decide.
  - rewrite fmap_app, E. cbn. unfold dst at 2. by rewrite Hdest.
  - by rewrite E, app_nil_r.
Qed.

Lemma added_mono v w : 0 <= v < n -> w ∈ dst e <$> extra v -> w ∈ dst e' <$> added v.
Proof. intros Hv Hw. rewrite added_dst by done. apply elem_of_app. by left. Qed.

Lemma added_here : scDest sc ∈ dst e' <$> added u.
Proof. rewrite added_dst by apply Hsc. rewrite decide_True by done. apply elem_of_app. right. set_solver. Qed.

Lemma added_extra v x : 0 <= v < n -> x ∈ added v -> x < nextShortcutId e' /\
  exists sc', sc' ∈ done0 ++ [sc] /\ scStart sc' = v /\ Edges.getDest e' x = Ok (scDest sc') /\
    Edges.getDist e' x = Ok (scDist sc') /\ ~ X0 v (scDest sc').
Proof.
  intros Hv Hx. assert (x ∈ extra v \/ (v = u /\ x = id)) as [Hold | [-> ->]].
  { unfold added in Hx. case_decide; [| by left]. apply elem_of_app in Hx as [? | ->%list_elem_of_singleton]; [by left | by right]. }
  - destruct (in_extra _ _ _ _ _ Hi v x Hv Hold) as (Hlt & sc' & H1 & H2 & H3 & H4 & H5). destruct Hext as (Hle & He & _).
    split; [lia |]. exists sc'. destruct (He x Hlt) as [-> ->]. split; [apply elem_of_app; by left | done].
  - split; [lia |]. exists sc. split; [apply elem_of_app; right; set_solver | done].
Qed.

Lemma added_source v x : 0 <= v < n -> x ∈ added v -> 0 <= x /\ Edges.src e' x = v.
Proof.
  intros Hv Hx. assert (x ∈ extra v \/ (v = u /\ x = id)) as [Hold | [-> ->]]; [| | done].
  { unfold added in Hx. case_decide; [| by left]. apply elem_of_app in Hx as [? | ->%list_elem_of_singleton]; [by left | by right]. }
  destruct (in_source _ _ _ _ _ Hi v x Hv Hold) as [? Es]. split; [done |]. rewrite <-Es. apply Hext.
  by apply (in_extra _ _ _ _ _ Hi v x Hv Hold).
Qed.

Lemma added_simple g' v : 0 <= v < n ->
  everEdge g' v = (if decide (v = u) then everEdge g u ++ [id] else everEdge g v) -> NoDup (dst e' <$> everEdge g' v).
Proof.
  intros Hv E. pose proof (ever_dst _ _ _ _ _ _ Hi Hext v Hv) as Ee. pose proof (in_simple _ _ _ _ _ Hi v Hv) as Hnd.
  rewrite E. case_decide as Evu; [| by rewrite Ee]. subst v. rewrite fmap_app, Ee. cbn. unfold dst at 2. rewrite Hdest.
  apply NoDup_last; [done |]. destruct (in_rows _ _ _ _ _ Hi u Hv) as [_ ->]. rewrite fmap_app, elem_of_app.
  intros [Hin | Hin]; [| done]. apply (it_new _ Hsc HnX). apply list_elem_of_fmap in Hin as (x & -> & Hx).
  apply list_elem_of_fmap. exists x. split; [| done]. destruct (ro_known Hrows u x Hv Hx) as [Hlt _].
  by destruct (extends_dst _ _ x (in_extends _ _ _ _ _ Hi) Hlt) as [-> _].
Qed.

Lemma added_inserted l g' set' Xl s0 : store_ok n e' (l ++ [sc]) ->
  (forall sc', sc' ∈ l -> X0 (scStart sc') (scDest sc') \/ scDest sc' ∈ dst e <$> extra (scStart sc')) ->
  al.[u] = Some s0 -> (forall w, w ∈ Xl <-> w = scDest sc \/ X0 u w \/ w ∈ dst e <$> extra u) -> IntArraySet.wf set' Xl ->
  grid_ok g' n ->
  (forall v, 0 <= v < n -> current g' v = if decide (v = u) then current g u ++ [id] else current g v) ->
  (forall v, 0 <= v < n -> everEdge g' v = if decide (v = u) then everEdge g u ++ [id] else everEdge g v) ->
  keeps_rows B (currentEdgeIds g) (currentEdgeIds g') -> keeps_rows B (allEdgeIds g) (allEdgeIds g') ->
  inserted added (done0 ++ [sc]) (<[Z.to_nat u := Some set']> al) e' g'.
Proof.
  intros Hst Hl Hal HXl Hset Hg' Hcur Hever Kc Ka. destruct (it_range _ Hsc) as [Hu Hd].
  pose proof (in_size _ _ _ _ _ Hi) as Hsize. split.
  - exists (l ++ [sc]). split; [done |]. intros sc' [Hin | ->%list_elem_of_singleton]%elem_of_app; [| right; apply added_here].
    destruct (so_range _ _ _ Hst sc') as [Hs' _]; [apply elem_of_app; by left |].
    destruct (Hl sc' Hin) as [? | ?]; [by left | right; by apply added_mono].
  - etrans; [apply Hi | done].
  - done.
  - intros v Hv. rewrite (Hcur v Hv), (Hever v Hv). destruct (in_rows _ _ _ _ _ Hi v Hv) as [E1 E2]. unfold added.
    case_decide as E; [subst v; by rewrite E1, E2, <-!app_assoc | done].
  - intros v x. apply added_extra.
  - intros v x. apply added_source.
  - intros v Hv. by apply added_simple; [| apply Hever].
  - by autorewrite with alen.
  - intros v Hv. rewrite at_insert by lia. case_decide as E.
    + subst v. exists set', Xl. split; [done |]. split; [done |]. intros w. rewrite HXl, added_dst, decide_True by done.
      rewrite elem_of_app, list_elem_of_singleton. tauto.
    + destruct (in_sets _ _ _ _ _ Hi v Hv) as (s & X & H1 & H2 & H3). exists s, X. split; [done |]. split; [done |].
      intros w. rewrite H3, added_dst by done. rewrite decide_False, app_nil_r by congruence. done.
  - intros sc' [Hin | ->%list_elem_of_singleton]%elem_of_app Hs'; [| right; apply added_here].
    destruct (in_done _ _ _ _ _ Hi sc' Hin Hs') as [? | ?]; [by left | right; by apply added_mono].
  - intros v Hv. destruct (in_room _ _ _ _ _ Hi v Hv) as [H1 H2]. split; intros H; [apply Kc | apply Ka]; [lia | auto | lia | auto].
Qed.
End adding.

Lemma insert_step extra done0 al e g sc : inserted extra done0 al e g -> insertable sc ->
  (forall sc', sc' ∈ done0 -> 0 <= scDest sc' < n) ->
  returns (insertFields sc (al, e, g)) (insert_state (done0 ++ [sc])).
Proof.
  intros Hi Hsc Hd. destruct (it_range _ Hsc) as [Hu Hdest]. set (u := scStart sc) in *.
  destruct (in_store _ _ _ _ _ Hi) as (l & Hst & Hl). pose proof (so_room _ _ _ Hst) as Hnn.
  pose proof (so_models _ _ _ Hst) as (Hnum & Hnext & _). pose proof (alen_nonneg l) as Hl0.
  pose proof (in_extends _ _ _ _ _ Hi) as Hext0. pose proof Hext0 as (Hle0 & _).
  destruct (in_sets _ _ _ _ _ Hi u Hu) as (s0 & X & Hal & Hwf & HX). unfold insertFields. fold u.
  rewrite aget_ok, bind_ok by (rewrite (in_size _ _ _ _ _ Hi); lia). rewrite Hal. cbn [deref]. rewrite bind_ok.
  rewrite (IntArraySet.wf_contains s0 X _ Hwf) by nia. case_bool_decide as Hin.
  { ret. exists extra. cbn. destruct Hi. split; try done.
    - intros v x Hv Hx. destruct (in_extra0 v x Hv Hx) as (? & sc' & ? & ?). split; [done |]. exists sc'.
      split; [apply elem_of_app; by left | done].
    - intros sc' [Hin' | ->%list_elem_of_singleton]%elem_of_app Hs'; [by apply in_done0 | by apply HX]. }
  assert (~ X0 u (scDest sc) /\ scDest sc ∉ dst e <$> extra u) as [HnX Hnew] by (split; intros ?; apply Hin, HX; tauto).
  eapply returns_bind.
  { apply (store_add n e l sc Hst); [| done | done | by apply (made_of_mono e0 e _ _ sc Hext0 (Z.le_refl _) Hle0), (it_made _ Hsc)]. intros (sc' & E & Hsc')%list_elem_of_fmap. injection E as E1 E2.
    destruct (Hl sc' Hsc') as [H | H]; rewrite <-E1, <-E2 in H; done. }
  cbv beta. intros [id e'] (Eid & Enext & Hst' & Hext & Hgd & Hgw & Hgs).
  destruct (rows_small extra done0 al e g u Hi Hu Hd) as [Sa Sc].
  destruct (it_rooms _ Hsc) as [Rc Ra]. destruct (in_room _ _ _ _ _ Hi u Hu) as [Kc0 Ka0].
  eapply returns_bind.
  { apply (addEdge_ok g n u id (in_grid _ _ _ _ _ Hi) Hu); eapply (roomy_growable B); [lia | by auto | lia | by auto]. }
  cbv beta. intros g' (Hg' & Hcur & Hever & Kc & Ka).
  eapply returns_bind; [apply (IntArraySet.wf_add s0 X (scDest sc) Hwf); nia |]. cbv beta. intros set' (Xl & Hwf' & HXl).
  rewrite aset_ok, bind_ok by (rewrite (in_size _ _ _ _ _ Hi); lia). ret. exists (added extra sc id). cbn.
  apply (added_inserted extra done0 al e g Hi sc Hsc HnX Hnew e' id Hext (conj Eid Enext) ltac:(lia) Hgs Hgd Hgw l g' set' Xl s0); try done.
  - intros w. rewrite HXl, HX. done.
  - apply Kc. lia.
  - apply Ka. lia.
Qed.

(** The whole insertion. *)
Lemma insert_ok ths news al : Forall2 holding ths news -> (forall sc, sc ∈ concat news -> insertable sc) ->
  inserted (fun _ => []) [] al e0 g0 ->
  returns (forEach ths insertAll (al, e0, g0)) (insert_state (concat news)).
Proof.
  intros Hh Hall H0. eapply returns_mono.
  - apply (insertAll_inv (fun done st => (forall sc, sc ∈ done -> insertable sc) /\ insert_state done st) ths news Hh) with (done0 := []).
    + intros done0 sc [[al1 e1] g1] Hsc [Hdone [extra Hi]]. eapply returns_mono.
      * apply (insert_step extra done0 al1 e1 g1 sc Hi); [by apply Hall |].
        intros sc' Hsc'. by apply (it_range _ (Hdone sc' Hsc')).
      * cbv beta. intros st Hst. split; [| done].
        intros sc' [Hin | ->%list_elem_of_singleton]%elem_of_app; [by apply Hdone | by apply Hall].
    + split; [intros sc Hsc; by apply elem_of_nil in Hsc |]. by exists (fun _ => []).
  - cbv beta. intros st [_ Hst]. done.
Qed.
End insertion.

(** ** Removing the nodes *)

Section removing.
Context (e : Edges.t) (n : Z) (g1 : DynamicGrid.t).

(** [g] is [g1] without the nodes [T]. *)
Record without (T : list Z) (g : DynamicGrid.t) : Prop := {
  wo_simple : simple e n g;
  wo_all : allEdgeIds g = allEdgeIds g1 /\ allEdgeCount g = allEdgeCount g1;
  wo_edges : forall u x, 0 <= u < n -> x ∈ current g u <-> u ∉ T /\ x ∈ current g1 u /\ dst e x ∉ T;
  wo_room : forall B u, 0 <= u < n -> u ∉ T -> roomy B (currentEdgeIds g1) u -> roomy B (currentEdgeIds g) u;
}.

Lemma without_one T g v : without T g -> 0 <= v < n ->
  returns (DynamicGrid.removeNode e g v) (without (v :: T)).
Proof.
  intros Hw Hv. eapply returns_mono; [by apply (removeNode_ok e n g v (wo_simple _ _ Hw)) |]. cbv beta.
  intros g' (Hs & Ha & Hc & Hnone & Hothers). destruct (wo_all _ _ Hw) as [Ea Ec].
  split; [done | split; congruence | |].
  - intros u x Hu. rewrite !not_elem_of_cons. destruct (decide (u = v)) as [-> | Huv].
    + rewrite Hnone, elem_of_nil. tauto.
    + destruct (Hothers u Hu Huv) as [Hp _]. rewrite (elem_of_Permutation_proper x _ _ Hp), elem_of_detached.
      rewrite (wo_edges _ _ Hw u x Hu). tauto.
  - intros B u Hu [Huv HuT]%not_elem_of_cons Hr. destruct (Hothers u Hu Huv) as [_ Hk]. apply Hk.
    by apply (wo_room _ _ Hw).
Qed.

Lemma without_mono T T' g : (forall x, x ∈ T <-> x ∈ T') -> without T g -> without T' g.
Proof.
  intros HT []. split; [done | done | |].
  - intros u x Hu. rewrite (wo_edges0 u x Hu). by rewrite !HT.
  - intros B u Hu HuT. apply wo_room0; [done |]. by rewrite HT.
Qed.

Lemma removeAll_ok ids S : IntArrayList.repr ids S -> simple e n g1 -> (forall v, v ∈ S -> 0 <= v < n) ->
  returns (removeAll ids e g1) (without S).
Proof.
  intros Hids Hs HS. unfold removeAll. rewrite (IntArrayList.getLen_repr _ S Hids). pose proof (alen_nonneg S).
  eapply returns_mono.
  - apply (forRange_inv (fun k => without (drop (Z.to_nat (alen S - k)) S))); [done | |].
    + rewrite drop_ge by (unfold alen; lia). split; [done | done | |].
      * intros u x Hu. rewrite !elem_of_nil. tauto.
      * by intros.
    + intros k g Hk Hw. rewrite (IntArrayList.get_repr _ S _ Hids), bind_ok by lia.
      set (i := alen S - 1 - k). eapply returns_mono; [apply (without_one _ g S.[i] Hw), HS, at_In; lia |].
      intros g'. apply without_mono. intros x.
      replace (Z.to_nat (alen S - (k + 1))) with (Z.to_nat i) by lia.
      rewrite (drop_S S S.[i] (Z.to_nat i)) by (apply at_lookup; lia).
      by replace (Datatypes.S (Z.to_nat i)) with (Z.to_nat (alen S - k)) by lia.
  - intros g. apply without_mono. intros x. by rewrite Z.sub_diag.
Qed.
End removing.
