(* ===== verification/LevelCorrect.v ===== *)
(** * A level of the contraction keeps the distances

    The graph before a level and the graph after it: the remaining nodes are as far from each
    other as before, the new graph is as searchable as the old one, and every edge is still a
    shortest way. *)

From S2P Require Import Prelude SortedArray IntArrayList IntArraySet Edges DynamicGrid CHDijkstra CHSearch Contraction LevelGraph.

(** ** Walks *)

Section walks.
Context (e : Edges.t) (g : DynamicGrid.t) (n W Emax : Z) (Hg : searchable e g n W Emax).

Lemma cwalk_rev u v d : 0 <= u < n -> cwalk e g u v d -> cwalk e g v u d.
Proof.
  intros Hu Hw. induction Hw as [| w d x Hw IH Hx]; [constructor |].
  destruct (cwalk_node e g n W Emax Hg u w d Hu Hw) as [Hwn _].
  destruct (sb_back _ _ _ _ _ Hg w x Hwn Hx) as (y & Hy & Ey & Ew). rewrite Z.add_comm, <-Ew.
  eapply cwalk_trans; [by apply (cwalk_edge e g (dst e x) y) |]. by rewrite Ey.
Qed.

Lemma cwalk_first u v d : cwalk e g u v d ->
  (u = v /\ d = 0) \/ exists x, x ∈ current g u /\ cwalk e g (dst e x) v (d - weight e x).
Proof.
  induction 1 as [| w d y Hw IH Hy]; [by left |]. right. destruct IH as [[-> ->] | (x & Hx & IH)].
  - exists y. split; [done |]. replace (0 + weight e y - weight e y) with 0 by lia. constructor.
  - exists x. split; [done |]. replace (d + weight e y - weight e x) with (d - weight e x + weight e y) by lia.
    by apply (cw_step e g _ w).
Qed.

(** Edge [x] of [u] is shorter than every walk over a third node. *)
Definition strict (u x : Z) : Prop := forall c d1 d2, c <> u -> c <> dst e x ->
  cwalk e g u c d1 -> cwalk e g c (dst e x) d2 -> weight e x < d1 + d2.

Definition shortest (u x : Z) : Prop := forall d, cwalk e g u (dst e x) d -> weight e x <= d.

Lemma strict_shortest u x : 0 <= u < n -> x ∈ current g u -> strict u x -> shortest u x.
Proof.
  intros Hu Hx Hs d Hw. destruct (sb_edge _ _ _ _ _ Hg u x Hu Hx) as (_ & _ & Hd & Hne & _).
  inversion Hw as [E | c d' y Hc Hy E]; [congruence |]. subst. destruct (cwalk_node e g n W Emax Hg u c d' Hu Hc) as [Hcn Hd'].
  destruct (sb_edge _ _ _ _ _ Hg c y Hcn Hy) as (_ & _ & _ & Hyc & Hwy).
  destruct (decide (c = u)) as [-> | Hcu].
  - assert (y = x) as ->; [| lia]. pose proof (sb_simple _ _ _ _ _ Hg u Hu) as Hnd.
    apply In_at in Hx as (i & Hi & Ei), Hy as (j & Hj & Ej).
    assert (Z.to_nat i = Z.to_nat j) as Eij.
    { eapply (NoDup_lookup _ _ _ (dst e x) Hnd); rewrite list_lookup_fmap.
      - rewrite (at_lookup _ i Hi), Ei. done.
      - rewrite (at_lookup _ j Hj), Ej. cbn. by f_equal. }
    congruence.
  - assert (weight e x < d' + weight e y); [| lia]. apply (Hs c); [done | congruence | done |].
    rewrite <-E. by apply (cwalk_edge e g c y).
Qed.
End walks.

(** ** Before the insertion *)

Section before.
Context (e : Edges.t) (g : DynamicGrid.t) (n Emax B : Z) (Hg : searchable e g n Emax Emax).
Context (X : Z -> Z -> Prop) (S : list Z).

(** Every edge is a shortest way: an original edge the only one, a shortcut recorded in [X]. *)
Definition tight (u x : Z) : Prop := strict e g u x \/ (X u (dst e x) /\ shortest e g u x).

(** The graph of the remaining nodes [Open]. *)
Record level_graph (Open : Z -> Prop) : Prop := {
  lg_tight : forall u x, 0 <= u < n -> x ∈ current g u -> tight u x;
  lg_open : forall u x, 0 <= u < n -> x ∈ current g u -> Open u /\ Open (dst e x);
  lg_X : forall u w, 0 <= u < n -> 0 <= w < n -> Open u -> Open w -> X u w -> adjacent e g u w;
  lg_known : forall u x, 0 <= u < n -> x ∈ everEdge g u -> x < nextShortcutId e /\ 0 <= dst e x < n;
  lg_source : forall u x, 0 <= u < n -> x ∈ everEdge g u -> 0 <= x /\ Edges.src e x = u;
  lg_simple : forall u, 0 <= u < n -> NoDup (dst e <$> everEdge g u);
  lg_current : forall u x, 0 <= u < n -> x ∈ current g u -> x ∈ everEdge g u;
  lg_still : forall u x, 0 <= u < n -> x ∈ everEdge g u -> Open u -> Open (dst e x) -> x ∈ current g u;
  lg_room : forall u, 0 <= u < n -> roomy B (allEdgeIds g) u /\ (Open u -> roomy B (currentEdgeIds g) u);
}.
Context (Open : Z -> Prop) (Hl : level_graph Open) (HS : forall v, v ∈ S -> 0 <= v < n).

Lemma edge_shortest u x : 0 <= u < n -> x ∈ current g u -> shortest e g u x.
Proof.
  intros Hu Hx. destruct (lg_tight _ Hl u x Hu Hx) as [Hs | [_ ?]]; [| done]. by apply (strict_shortest e g n Emax Emax Hg).
Qed.

Lemma level_rows : rows_ok n e g.
Proof.
  split; try apply Hl. apply (sb_simple _ _ _ _ _ Hg).
Qed.

(** A shortcut that is needed connects two remaining nodes that differ from [v]. *)
Lemma needed_ends v sc : 0 <= v < n -> needed e g n v sc -> 0 <= scDest sc < n /\ scStart sc <> v /\ scDest sc <> v /\
  Open (scStart sc) /\ Open (scDest sc) /\ 0 < scDist sc /\ cwalk e g (scStart sc) (scDest sc) (scDist sc) /\
  adjacent e g v (scStart sc) /\ adjacent e g v (scDest sc).
Proof.
  intros Hv [Hs Hne [Hx2 E2] [Hx1 E1] Ed _].
  destruct (sb_edge _ _ _ _ _ Hg _ _ Hs Hx2) as (_ & _ & _ & Hn2 & Hw2).
  destruct (sb_edge _ _ _ _ _ Hg _ _ Hv Hx1) as (_ & _ & Hr1 & Hn1 & Hw1).
  destruct (lg_open _ Hl _ _ Hs Hx2) as [HO1 _]. destruct (lg_open _ Hl _ _ Hv Hx1) as [_ HO2]. rewrite E1 in *. rewrite E2 in *.
  split; [done |]. split; [done |]. split; [done |]. split; [done |]. split; [done |]. split; [lia |]. split.
  - rewrite Ed, <-E1. apply (cw_step e g _ v); [| done]. rewrite <-E2. by apply cwalk_edge.
  - split.
    + destruct (sb_back _ _ _ _ _ Hg _ _ Hs Hx2) as (y & Hy & Ey & _). rewrite E2 in Hy. rewrite <-Ey. by apply list_elem_of_fmap_2.
    + rewrite <-E1. by apply list_elem_of_fmap_2.
Qed.

Lemma needed_insertable v sc : 0 <= v < n -> needed e g n v sc -> insertable n B e g X sc.
Proof.
  intros Hv Hn. destruct (needed_ends v sc Hv Hn) as (Hd & Hsv & Hdv & HOs & HOd & Hpos & _).
  pose proof (nd_start _ _ _ _ _ Hn) as Hs. split; [done | | |].
  - destruct (lg_room _ Hl _ Hs) as [? Hc]. split; [by apply Hc | done].
  - destruct Hn as [_ _ [Hx2 E2] [Hx1 E1] Ed _]. apply (lg_current _ Hl _ _ Hs) in Hx2. apply (lg_current _ Hl _ _ Hv) in Hx1.
    destruct (lg_source _ Hl _ _ Hs Hx2), (lg_source _ Hl _ _ Hv Hx1), (lg_known _ Hl _ _ Hs Hx2), (lg_known _ Hl _ _ Hv Hx1).
    split_and!; done || lia || congruence.
  - intros HX (x & Ex & Hx)%list_elem_of_fmap.
    assert (x ∈ current g (scStart sc)) as Hxc by (apply (lg_still _ Hl); [done | done | done | congruence]).
    destruct (lg_tight _ Hl _ x Hs Hxc) as [Hst | [HX' _]]; [| by rewrite <-Ex in HX'].
    destruct Hn as [_ _ [Hx2 E2] [Hx1 E1] Ed Hleast].
    assert (weight e x < weight e (scSecond sc) + weight e (scFirst sc)) as Hlt.
    { apply (Hst v); [done | congruence | rewrite <-E2; by apply cwalk_edge |]. rewrite <-Ex, <-E1. by apply cwalk_edge. }
    assert (scDist sc <= weight e x); [| lia]. apply Hleast. rewrite Ex. by apply cwalk_edge.
Qed.
End before.

Lemma level_graph_iff e g n B X (Open Open' : Z -> Prop) : (forall u, 0 <= u < n -> Open u <-> Open' u) ->
  (forall u x, 0 <= u < n -> x ∈ everEdge g u -> 0 <= dst e x < n) ->
  level_graph e g n B X Open -> level_graph e g n B X Open'.
Proof.
  intros HO Hd []. split; try done.
  - intros u x Hu Hx. destruct (lg_open0 u x Hu Hx). rewrite <-!HO by (try done; by apply (Hd u), lg_current0). done.
  - intros u w Hu Hw Hu' Hw'. apply lg_X0; [done | done | by apply HO | by apply HO].
  - intros u x Hu Hx Hu' Hx'. apply lg_still0; [done | done | by apply HO |]. apply HO; [by apply (Hd u) | done].
  - intros u Hu. destruct (lg_room0 u Hu) as [? Hc]. split; [done |]. intros Hu'. by apply Hc, HO.
Qed.

(** ** After the level *)

Section level.
Context (e e' : Edges.t) (g g1 g' : DynamicGrid.t) (n Emax B : Z) (Hg : searchable e g n Emax Emax).
Context (X : Z -> Z -> Prop) (Open : Z -> Prop) (Hl : level_graph e g n B X Open).
Context (S : list Z) (HS : forall v, v ∈ S -> 0 <= v < n).
Context (Hapart : forall v w, v ∈ S -> w ∈ S -> ~ adjacent e g v w).
Context (all : list shortcut) (Hall : shortcuts_over_all e g n S all).
Context (extra : Z -> list Z) (al : list (option IntArraySet.t)).
Context (Hins : inserted n B e g X extra all al e' g1).
Notation weight := (weight e).
Notation dst := (dst e).

Lemma old_known u x : 0 <= u < n -> x ∈ everEdge g u -> DynamicGrid.dst e' x = dst x /\ DynamicGrid.weight e' x = weight x.
Proof.
  intros Hu Hx. destruct (lg_known _ _ _ _ _ _ Hl u x Hu Hx) as [Hlt _].
  by apply extends_dst; [apply (in_extends _ _ _ _ _ _ _ _ _ _ Hins) |].
Qed.

Lemma old_edge u x : 0 <= u < n -> x ∈ current g u -> DynamicGrid.dst e' x = dst x /\ DynamicGrid.weight e' x = weight x.
Proof. intros Hu Hx. apply (old_known u x Hu). by apply (lg_current _ _ _ _ _ _ Hl). Qed.

(** A new edge is one of the shortcuts. *)
Lemma new_edge u x : 0 <= u < n -> x ∈ extra u -> exists v sc, v ∈ S /\ needed e g n v sc /\ scStart sc = u /\
  Edges.getDest e' x = Ok (scDest sc) /\ Edges.getDist e' x = Ok (scDist sc) /\
  DynamicGrid.dst e' x = scDest sc /\ DynamicGrid.weight e' x = scDist sc /\ ~ X u (scDest sc).
Proof.
  intros Hu Hx. destruct (in_extra _ _ _ _ _ _ _ _ _ _ Hins u x Hu Hx) as (_ & sc & Hsc & Es & Ed & Ew & HX).
  destruct (proj1 Hall sc Hsc) as (v & Hv & Hn). exists v, sc. unfold DynamicGrid.dst, DynamicGrid.weight.
  by rewrite Ed, Ew.
Qed.

Lemma rows_after u : 0 <= u < n -> current g1 u = current g u ++ extra u /\ everEdge g1 u = everEdge g u ++ extra u.
Proof. apply (in_rows _ _ _ _ _ _ _ _ _ _ Hins). Qed.

Lemma inserted_simple u : 0 <= u < n -> NoDup (DynamicGrid.dst e' <$> current g1 u).
Proof.
  intros Hu. pose proof (in_simple _ _ _ _ _ _ _ _ _ _ Hins u Hu) as Hnd. destruct (rows_after u Hu) as [-> E].
  rewrite E, fmap_app in Hnd. apply NoDup_app in Hnd as (_ & Hdis & Hex). rewrite fmap_app. apply NoDup_app.
  split; [| split; [| done]].
  - assert (DynamicGrid.dst e' <$> current g u = dst <$> current g u) as ->; [| apply (sb_simple _ _ _ _ _ Hg u Hu)].
    apply list_fmap_ext. intros _ x Hx%list_elem_of_lookup_2. by apply (old_edge u).
  - intros w (x & -> & Hx)%list_elem_of_fmap. apply Hdis, list_elem_of_fmap_2. by apply (lg_current _ _ _ _ _ _ Hl).
Qed.

Lemma new_edge_walks u x : 0 <= u < n -> x ∈ extra u -> 0 <= DynamicGrid.dst e' x < n /\ DynamicGrid.dst e' x <> u /\
  Open u /\ Open (DynamicGrid.dst e' x) /\ 0 < DynamicGrid.weight e' x /\
  cwalk e g u (DynamicGrid.dst e' x) (DynamicGrid.weight e' x) /\
  forall d, cwalk e g u (DynamicGrid.dst e' x) d -> DynamicGrid.weight e' x <= d.
Proof.
  intros Hu Hx. destruct (new_edge u x Hu Hx) as (v & sc & Hv & Hn & <- & _ & _ & -> & -> & _).
  destruct (needed_ends e g n Emax B Hg X Open Hl v sc (HS v Hv) Hn) as (Hd & _ & _ & HO1 & HO2 & Hp & Hw & _).
  destruct Hn. done.
Qed.

(** A node has no old edge to a node to which it gets a new one. *)
Lemma new_not_old u x y : 0 <= u < n -> x ∈ extra u -> y ∈ current g u -> dst y <> DynamicGrid.dst e' x.
Proof.
  intros Hu Hx Hy E. pose proof (inserted_simple _ Hu) as Hnd. destruct (rows_after _ Hu) as [Ec _].
  rewrite Ec, fmap_app in Hnd. apply NoDup_app in Hnd as (_ & Hdis & _). apply (Hdis (DynamicGrid.dst e' x)).
  - rewrite <-E. destruct (old_edge _ y Hu Hy) as [<- _]. by apply list_elem_of_fmap_2.
  - by apply list_elem_of_fmap_2.
Qed.

(** The two edges of a shortcut, backwards, are covered by a shortcut as well. *)
Lemma new_edge_back u x : 0 <= u < n -> x ∈ extra u ->
  exists y, y ∈ extra (DynamicGrid.dst e' x) /\ DynamicGrid.dst e' y = u.
Proof.
  intros Hu Hx. pose proof (fun y => new_not_old u x y Hu Hx) as Hold.
  destruct (new_edge u x Hu Hx) as (v & sc & Hv & Hn & Es & _ & _ & Ed & Ew & _). rewrite Ed in *. subst u.
  destruct (needed_ends e g n Emax B Hg X Open Hl v sc (HS v Hv) Hn) as (Hd & _ & _ & HOs & HOd & _).
  pose proof Hn as [Hs Hne [Hx2 E2] [Hx1 E1] Edist Hleast].
  destruct (sb_back _ _ _ _ _ Hg _ _ (HS v Hv) Hx1) as (y1 & Hy1 & Ey1 & Ew1).
  destruct (sb_back _ _ _ _ _ Hg _ _ Hs Hx2) as (y2 & Hy2 & Ey2 & Ew2). rewrite E1 in Hy1. rewrite E2 in Hy2.
  assert (over e g v (scDest sc) y1 y2) as Hover by (split; [done |]; split; [done |]; split; [done | congruence]).
  destruct (proj2 Hall v (scDest sc) y1 y2 Hv Hd Hover) as [(sc' & Hsc' & Es' & Ed') | (d & Hw & Hlt)]; rewrite Ey2 in *.
  - destruct (in_done _ _ _ _ _ _ _ _ _ _ Hins sc' Hsc' ltac:(by rewrite Es')) as [HX' | Hin]; rewrite Es', Ed' in *.
    + exfalso. pose proof (lg_X _ _ _ _ _ _ Hl _ _ Hd Hs HOd HOs HX') as Ha.
      apply (adjacent_sym e g n Emax Emax Hg) in Ha as (_ & _ & Ha); [| done].
      apply list_elem_of_fmap in Ha as (y & Ey & Hy). by apply (Hold y Hy).
    + apply list_elem_of_fmap in Hin as (y & Ey & Hy). by exists y.
  - apply (cwalk_rev e g n Emax Emax Hg) in Hw; [| done]. pose proof (Hleast d Hw). lia.
Qed.

(** Every edge has one back, of the same distance. *)
Lemma inserted_back u x : 0 <= u < n -> x ∈ current g1 u -> exists y, y ∈ current g1 (DynamicGrid.dst e' x) /\
  DynamicGrid.dst e' y = u /\ DynamicGrid.weight e' y = DynamicGrid.weight e' x.
Proof.
  intros Hu Hx. destruct (rows_after u Hu) as [E _]. rewrite E in Hx. apply elem_of_app in Hx as [Hx | Hx].
  - destruct (old_edge u x Hu Hx) as [-> ->]. destruct (sb_edge _ _ _ _ _ Hg u x Hu Hx) as (_ & _ & Hd & _).
    destruct (sb_back _ _ _ _ _ Hg u x Hu Hx) as (y & Hy & Ey & Ew). exists y. destruct (rows_after _ Hd) as [-> _].
    destruct (old_edge _ y Hd Hy) as [-> ->]. split; [apply elem_of_app; by left | done].
  - destruct (new_edge_walks u x Hu Hx) as (Hd & _ & _ & _ & _ & Hw & Hleast).
    destruct (new_edge_back u x Hu Hx) as (y & Hy & Ey). exists y. destruct (rows_after _ Hd) as [-> _].
    split; [apply elem_of_app; by right |]. split; [done |].
    destruct (new_edge_walks _ y Hd Hy) as (_ & _ & _ & _ & _ & Hw' & Hleast'). rewrite Ey in *.
    apply (cwalk_rev e g n Emax Emax Hg) in Hw, Hw'; try done. pose proof (Hleast _ Hw'). pose proof (Hleast' _ Hw). lia.
Qed.

(** The graph with the shortcuts, from which the nodes are removed. *)
Lemma inserted_edge u x : 0 <= u < n -> x ∈ current g1 u -> Edges.getDest e' x = Ok (DynamicGrid.dst e' x) /\
  Edges.getDist e' x = Ok (DynamicGrid.weight e' x) /\ 0 <= DynamicGrid.dst e' x < n /\ DynamicGrid.dst e' x <> u /\
  0 < DynamicGrid.weight e' x <= Emax.
Proof.
  intros Hu Hx. destruct (rows_after u Hu) as [E _]. rewrite E in Hx. apply elem_of_app in Hx as [Hx | Hx].
  - destruct (old_edge u x Hu Hx) as [-> ->]. destruct (sb_edge _ _ _ _ _ Hg u x Hu Hx) as (Ed & Ew & Hrest).
    destruct (lg_known _ _ _ _ _ _ Hl u x Hu (lg_current _ _ _ _ _ _ Hl u x Hu Hx)) as [Hlt _].
    destruct (in_extends _ _ _ _ _ _ _ _ _ _ Hins) as (_ & Hext & _). by destruct (Hext x Hlt) as [-> ->].
  - destruct (new_edge_walks u x Hu Hx) as (Hd & Hne & _ & _ & Hp & Hw & Hleast).
    destruct (new_edge u x Hu Hx) as (v & sc & _ & _ & _ & Ed & Ew & Ed' & Ew' & _). rewrite Ed', Ew' in *.
    destruct (sb_bound _ _ _ _ _ Hg u _ _ Hu Hw) as (d' & Hw' & Hle). pose proof (Hleast d' Hw').
    split; [done |]. split; [done |]. split; [done |]. split; [done |]. lia.
Qed.

Lemma inserted_graph : simple e' n g1.
Proof.
  split; [apply (in_grid _ _ _ _ _ _ _ _ _ _ Hins) | | apply inserted_simple |].
  - intros u x Hu Hx. destruct (inserted_edge u x Hu Hx) as (? & _ & ? & ? & _). done.
  - intros u x Hu Hx. destruct (inserted_back u x Hu Hx) as (y & Hy & <- & _). by apply list_elem_of_fmap_2.
Qed.

(** *** The remaining graph *)

Context (Hwo : without e' n g1 S g').

Lemma edges_after u x : 0 <= u < n ->
  x ∈ current g' u <-> u ∉ S /\ (x ∈ current g u \/ x ∈ extra u) /\ DynamicGrid.dst e' x ∉ S.
Proof.
  intros Hu. rewrite (wo_edges _ _ _ _ _ Hwo u x Hu). destruct (rows_after u Hu) as [-> _]. by rewrite elem_of_app.
Qed.

Lemma edge_after u x : 0 <= u < n -> x ∈ current g' u -> x ∈ current g1 u.
Proof. intros Hu Hx. by apply (wo_edges _ _ _ _ _ Hwo u x Hu) in Hx as (_ & ? & _). Qed.

(** No walk of the new graph is shorter than one of the old graph... *)
Lemma cwalk_down a b d : 0 <= a < n -> cwalk e' g' a b d -> cwalk e g a b d.
Proof.
  intros Ha. induction 1 as [| u d x Hw IH Hx]; [constructor |].
  destruct (cwalk_node e g n Emax Emax Hg a u d Ha IH) as [Hu _].
  apply edges_after in Hx as (_ & [Hx | Hx] & _); [| | done].
  - destruct (old_edge u x Hu Hx) as [-> ->]. by apply (cw_step e g a u).
  - eapply cwalk_trans; [exact IH |]. by apply new_edge_walks.
Qed.

(** ... and the ways over a removed node are replaced. *)
Lemma bypass v w x y : v ∈ S -> 0 <= w < n -> w ∉ S -> dst x ∉ S -> y ∈ current g w -> dst y = v -> x ∈ current g v -> dst x <> w ->
  (exists z, z ∈ current g' w /\ DynamicGrid.dst e' z = dst x /\ DynamicGrid.weight e' z <= weight y + weight x) \/
  (exists d, cwalk e g w (dst x) d /\ d < weight y + weight x).
Proof.
  intros Hv Hw HwS HxS Hy Ey Hx Hne.
  assert (cwalk e g w (dst x) (weight y + weight x)) as Hway.
  { apply (cw_step e g w v); [| done]. rewrite <-Ey. by apply cwalk_edge. }
  destruct (proj2 Hall v w y x Hv Hw) as [(sc & Hsc & Es & Ed) | ?]; [done | | by right]. left.
  destruct (in_done _ _ _ _ _ _ _ _ _ _ Hins sc Hsc ltac:(by rewrite Es)) as [HX | Hin]; rewrite Es, Ed in *.
  - destruct (lg_open _ _ _ _ _ _ Hl w y Hw Hy) as [HO1 _].
    destruct (lg_open _ _ _ _ _ _ Hl v x (HS v Hv) Hx) as [_ HO2].
    destruct (sb_edge _ _ _ _ _ Hg v x (HS v Hv) Hx) as (_ & _ & Hd & _).
    pose proof (lg_X _ _ _ _ _ _ Hl _ _ Hw Hd HO1 HO2 HX) as Ha. apply list_elem_of_fmap in Ha as (z & Ez & Hz).
    destruct (old_edge w z Hw Hz) as [E1 E2]. exists z. rewrite E1, E2.
    split; [apply edges_after; [done |]; rewrite E1, <-Ez; auto |]. split; [done |].
    apply (edge_shortest e g n Emax B Hg X Open Hl w z Hw Hz). by rewrite <-Ez.
  - apply list_elem_of_fmap in Hin as (z & Ez & Hz). exists z.
    split; [apply edges_after; [done |]; rewrite <-Ez; auto |]. split; [done |].
    apply (new_edge_walks w z Hw Hz). by rewrite <-Ez.
Qed.

Lemma cwalk_up a : 0 <= a < n -> a ∉ S -> forall (k : nat) b d, d < Z.of_nat k -> b ∉ S -> cwalk e g a b d ->
  exists d', cwalk e' g' a b d' /\ d' <= d.
Proof.
  intros Ha HaS. induction k as [| k IH]; intros b d Hk Hb Hw.
  { destruct (cwalk_node e g n Emax Emax Hg a b d Ha Hw). lia. }
  inversion Hw as [E1 E2 | u d0 x Hu Hx E1 E2]; subst; [exists 0; split; [constructor | done] |].
  destruct (cwalk_node e g n Emax Emax Hg a u d0 Ha Hu) as [Hun Hd0].
  destruct (sb_edge _ _ _ _ _ Hg u x Hun Hx) as (_ & _ & _ & _ & Hwx).
  assert (forall w dw z, cwalk e g a w dw -> w ∉ S -> 0 <= w < n -> z ∈ current g' w -> DynamicGrid.dst e' z = dst x ->
    dw + DynamicGrid.weight e' z <= d0 + weight x -> exists d', cwalk e' g' a (dst x) d' /\ d' <= d0 + weight x) as Hlast.
  { intros w dw z Haw HwS Hwn Hz Ez Hle. destruct (inserted_edge w z Hwn (edge_after w z Hwn Hz)) as (_ & _ & _ & _ & Hpos).
    destruct (IH w dw ltac:(lia) HwS Haw) as (d' & Hd' & Hle'). exists (d' + DynamicGrid.weight e' z).
    split; [| lia]. rewrite <-Ez. by apply (cw_step e' g' a w). }
  destruct (decide (u ∈ S)) as [HuS | HuS].
  2:{ destruct (old_edge u x Hun Hx) as [E1 E2]. apply (Hlast u d0 x); try done; [| by rewrite E2].
      apply edges_after; [done |]. rewrite E1. auto. }
  inversion Hu as [E1 E2 | w dw y Haw Hy E1 E2]; subst; [done |].
  destruct (cwalk_node e g n Emax Emax Hg a w dw Ha Haw) as [Hwn Hdw].
  destruct (sb_edge _ _ _ _ _ Hg w y Hwn Hy) as (_ & _ & _ & _ & Hwy).
  assert (w ∉ S) as HwS by (intros HwS; apply (Hapart w (dst y) HwS HuS); by apply list_elem_of_fmap_2).
  destruct (decide (dst x = w)) as [E | Hne].
  { rewrite E in *. destruct (IH w dw ltac:(lia) HwS Haw) as (d' & Hd' & Hle). exists d'. split; [done | lia]. }
  destruct (bypass (dst y) w x y HuS Hwn HwS Hb Hy eq_refl Hx Hne) as [(z & Hz & Ez & Hle) | (d1 & Hd1 & Hlt)].
  - apply (Hlast w dw z); try done. lia.
  - destruct (IH (dst x) (dw + d1) ltac:(lia) Hb (cwalk_trans _ _ _ _ _ _ _ Haw Hd1)) as (d' & Hd' & Hle).
    exists d'. split; [done | lia].
Qed.

Lemma cwalk_kept a b d : 0 <= a < n -> a ∉ S -> b ∉ S -> cwalk e g a b d -> exists d', cwalk e' g' a b d' /\ d' <= d.
Proof.
  intros Ha HaS HbS Hw. destruct (cwalk_node e g n Emax Emax Hg a b d Ha Hw).
  apply (cwalk_up a Ha HaS (Z.to_nat (d + 1))); [lia | done | done].
Qed.

(** ** The new graph is as good as the old one *)

Lemma searchable_after : searchable e' g' n Emax Emax.
Proof.
  pose proof (wo_simple _ _ _ _ _ Hwo) as Hsim. split.
  - apply Hsim.
  - apply (sb_count _ _ _ _ _ Hg).
  - intros u x Hu Hx. by apply inserted_edge, edge_after.
  - apply Hsim.
  - intros u x Hu Hx. destruct (inserted_back u x Hu (edge_after u x Hu Hx)) as (y & Hy & Ey & Ew). exists y.
    split; [| done]. apply (wo_edges _ _ _ _ _ Hwo u x Hu) in Hx as (HuS & Hx & HxS).
    destruct (inserted_edge u x Hu Hx) as (_ & _ & Hd & _). apply (wo_edges _ _ _ _ _ Hwo _ y Hd). by rewrite Ey.
  - intros a u d Ha Hw. assert (a = u \/ (a ∉ S /\ u ∉ S)) as [<- | [HaS HuS]].
    { clear -Hw Ha Hg Hins Hwo Hl HS Hall. destruct (cwalk_first e' g' a u d Hw) as [[? _] | (x & Hx & _)]; [by left |]. right.
      apply (wo_edges _ _ _ _ _ Hwo a x Ha) in Hx as (HaS & _). split; [done |].
      inversion Hw as [E | w dw z Haw Hz E]; [congruence |]. subst.
      apply cwalk_down in Haw; [| done]. destruct (cwalk_node e g n Emax Emax Hg a w dw Ha Haw) as [Hwn _].
      by apply (wo_edges _ _ _ _ _ Hwo w z Hwn) in Hz as (_ & _ & ?). }
    + destruct (sb_bound _ _ _ _ _ Hg a a 0 Ha (cw_here _ _ a)) as (d' & Hd' & Hle).
      destruct (cwalk_node e g n Emax Emax Hg a a d' Ha Hd'). exists 0. split; [constructor | lia].
    + destruct (sb_bound _ _ _ _ _ Hg a u d Ha (cwalk_down a u d Ha Hw)) as (d1 & Hd1 & Hle).
      destruct (cwalk_kept a u d1 Ha HaS HuS Hd1) as (d' & Hd' & Hle'). exists d'. split; [done | lia].
  - apply (sb_room _ _ _ _ _ Hg).
Qed.

Definition X' (u w : Z) : Prop := X u w \/ w ∈ DynamicGrid.dst e' <$> extra u.

Lemma tight_after u x : 0 <= u < n -> x ∈ current g' u -> tight e' g' X' u x.
Proof.
  intros Hu Hx. apply edges_after in Hx as (_ & [Hx | Hx] & _); [| | done].
  - destruct (old_edge u x Hu Hx) as [E1 E2]. destruct (sb_edge _ _ _ _ _ Hg u x Hu Hx) as (_ & _ & Hd & _).
    destruct (lg_tight _ _ _ _ _ _ Hl u x Hu Hx) as [Hs | [HX Hs]]; [left | right].
    + intros c d1 d2 Hcu Hcx H1 H2. rewrite E1 in *. rewrite E2. apply cwalk_down in H1; [| done].
      destruct (cwalk_node e g n Emax Emax Hg u c d1 Hu H1) as [Hc _]. apply cwalk_down in H2; [| done]. by apply (Hs c).
    + unfold X'. rewrite E1. split; [by left |]. intros d Hw. rewrite E1 in Hw. rewrite E2. apply Hs. by apply cwalk_down.
  - right. split; [right; by apply list_elem_of_fmap_2 |]. intros d Hw. apply cwalk_down in Hw; [| done].
    by apply (new_edge_walks u x Hu Hx).
Qed.

Lemma level_after : level_graph e' g' n B X' (fun u => Open u /\ u ∉ S).
Proof.
  assert (forall u, everEdge g' u = everEdge g1 u) as Hever.
  { intros u. unfold everEdge. by destruct (wo_all _ _ _ _ _ Hwo) as [-> ->]. }
  split.
  - apply tight_after.
  - intros u x Hu Hx. apply edges_after in Hx as (HuS & Hx & HxS); [| done].
    assert (Open u /\ Open (DynamicGrid.dst e' x)) as [? ?]; [| done]. destruct Hx as [Hx | Hx].
    + destruct (old_edge u x Hu Hx) as [-> _]. by apply (lg_open _ _ _ _ _ _ Hl).
    + by destruct (new_edge_walks u x Hu Hx) as (_ & _ & ? & ? & _).
  - intros u w Hu Hwn [HOu HuS] [HOw HwS] [HX | (x & -> & Hx)%list_elem_of_fmap].
    + pose proof (lg_X _ _ _ _ _ _ Hl u w Hu Hwn HOu HOw HX) as (x & -> & Hx)%list_elem_of_fmap.
      destruct (old_edge u x Hu Hx) as [E _]. apply list_elem_of_fmap. exists x. split; [done |].
      apply edges_after; [done |]. rewrite E. auto.
    + apply list_elem_of_fmap_2. apply edges_after; auto.
  - intros u x Hu Hx. rewrite Hever in Hx. destruct (rows_after u Hu) as [_ E]. rewrite E in Hx.
    apply elem_of_app in Hx as [Hx | Hx].
    + destruct (old_known u x Hu Hx) as [-> _]. destruct (lg_known _ _ _ _ _ _ Hl u x Hu Hx) as [? ?].
      destruct (in_extends _ _ _ _ _ _ _ _ _ _ Hins) as [? _]. split; [lia | done].
    + split; [by apply (in_extra _ _ _ _ _ _ _ _ _ _ Hins u x Hu Hx) | by apply (new_edge_walks u x Hu Hx)].
  - intros u x Hu Hx. rewrite Hever in Hx. destruct (rows_after u Hu) as [_ E]. rewrite E in Hx.
    apply elem_of_app in Hx as [Hx | Hx]; [| by apply (in_source _ _ _ _ _ _ _ _ _ _ Hins)].
    destruct (lg_source _ _ _ _ _ _ Hl u x Hu Hx) as [? Es]. split; [done |]. rewrite <-Es.
    apply (in_extends _ _ _ _ _ _ _ _ _ _ Hins). by apply (lg_known _ _ _ _ _ _ Hl u).
  - intros u Hu. rewrite Hever. by apply (in_simple _ _ _ _ _ _ _ _ _ _ Hins).
  - intros u x Hu Hx. rewrite Hever. destruct (rows_after u Hu) as [_ ->]. apply elem_of_app.
    apply edges_after in Hx as (_ & [Hx | Hx] & _); [left | by right | done]. by apply (lg_current _ _ _ _ _ _ Hl).
  - intros u x Hu Hx [HOu HuS] [HOx HxS]. rewrite Hever in Hx. destruct (rows_after u Hu) as [_ E]. rewrite E in Hx.
    apply edges_after; [done |]. split; [done |]. split; [| done].
    apply elem_of_app in Hx as [Hx | Hx]; [left | by right]. destruct (old_known u x Hu Hx) as [Ed _]. rewrite Ed in HOx.
    by apply (lg_still _ _ _ _ _ _ Hl).
  - intros u Hu. destruct (lg_room _ _ _ _ _ _ Hl u Hu) as [Ha Hc]. destruct (in_room _ _ _ _ _ _ _ _ _ _ Hins u Hu) as [Kc Ka].
    split.
    + destruct (wo_all _ _ _ _ _ Hwo) as [-> _]. by apply Ka.
    + intros [HOu HuS]. apply (wo_room _ _ _ _ _ Hwo); [done | done |]. by apply Kc, Hc.
Qed.
End level.
