(* ===== verification/Hierarchy.v ===== *)
(** * The contraction hierarchy is correct

    The invariant of [LabelCreator.calculateCH] at the start of a level, and what follows when no
    node is left: two nodes are joined by two upward ways that meet and are together no longer
    than any walk between them. *)

From S2P Require Import Prelude SortedArray IntArrayList IntArraySet OrderedIntSet Edges DynamicGrid Labels HLDijkstra.
From S2P Require Import CHDijkstra CHSearch LabelCreator Contraction LevelGraph LevelCorrect.

Section contracting.
Context {D : Type} (e0 : Edges.t) (g0 : DynamicGrid.t) (n Emax B : Z).
Context (Hroom : 2 * n <= B /\ 2 * B <= MAX_VALUE).

(** The walks of the graph that the contraction started with. *)
Notation orig := (cwalk e0 g0).
Notation lvlOf s u := (nLevels (nodes s)).[u].
Notation remains s u := ((contracted s).[u] = false).
Notation gone s u := ((contracted s).[u] = true).

(** An edge of a contracted node to one that remains or is on a higher level. *)
Definition upEdge (s : Contraction.t D) (u x : Z) : Prop := 0 <= u < n /\ x ∈ everEdge (grid s) u /\ gone s u /\
  (remains s (dst (edges s) x) \/ lvlOf s u < lvlOf s (dst (edges s) x)).

Inductive upward (s : Contraction.t D) : Z -> Z -> Z -> Prop :=
| up_here u : upward s u u 0
| up_step u x y d : upEdge s u x -> upward s (dst (edges s) x) y d -> upward s u y (weight (edges s) x + d).

(** Upward ways from [u] and from [v] that meet, or end at nodes that remain and are still
    connected; together they are at most [d] long. *)
Definition joined (s : Contraction.t D) (u v d : Z) : Prop :=
  (exists h a b, upward s u h a /\ upward s v h b /\ a + b <= d) \/
  (exists u' v' a b c, upward s u u' a /\ upward s v v' b /\ 0 <= u' < n /\ 0 <= v' < n /\ remains s u' /\ remains s v' /\
     cwalk (edges s) (grid s) u' v' c /\ a + c + b <= d).

Record level_inv (L : Z) (X : Z -> Z -> Prop) (s : Contraction.t D) : Prop := {
  lv_search : searchable (edges s) (grid s) n Emax Emax;
  lv_graph : level_graph (edges s) (grid s) n B X (fun u => remains s u);
  lv_store : exists l, store_ok n (edges s) l /\ forall sc, sc ∈ l -> X (scStart sc) (scDest sc);
  lv_extends : extends e0 (edges s);
  lv_sets : alen (alreadyShortcut s) = n /\ forall u, 0 <= u < n -> exists set l,
    (alreadyShortcut s).[u] = Some set /\ IntArraySet.wf set l /\ forall w, w ∈ l <-> X u w;
  lv_lengths : alen (contracted s) = n /\ alen (isNeighbour s) = n /\ alen (nLevels (nodes s)) = n;
  lv_nodes : getNodeCount (nodes s) = n;
  lv_ids : exists l, IntArrayList.repr (nodesToCalc s) l;
  lv_order : Contraction.calcOrder s ≡ₚ seqZ 0 n;
  lv_count : nonContractedNum s = alen (filter (fun u => remains s u) (seqZ 0 n));
  lv_levels : forall u, 0 <= u < n -> gone s u -> 0 <= lvlOf s u < L;
  lv_edge : forall u x, 0 <= u < n -> x ∈ everEdge (grid s) u ->
    Edges.getDest (edges s) x = Ok (dst (edges s) x) /\ Edges.getDist (edges s) x = Ok (weight (edges s) x) /\
    0 < weight (edges s) x <= Emax /\ orig u (dst (edges s) x) (weight (edges s) x);
  lv_differ : forall u x, 0 <= u < n -> x ∈ everEdge (grid s) u -> gone s u -> gone s (dst (edges s) x) ->
    lvlOf s u <> lvlOf s (dst (edges s) x);
  lv_joined : forall u v d, 0 <= u < n -> 0 <= v < n -> orig u v d -> joined s u v d;
}.

(** *** One level: the graph *)

Section step.
Context (L : Z) (X : Z -> Z -> Prop) (s s1 s' : Contraction.t D) (S : list Z) (all : list shortcut).
Context (Hi : level_inv L X s) (Hsel : selecting (edges s) (grid s) n L s S n s1).
Context (Hall : shortcuts_over_all (edges s) (grid s) n S all).
Context (extra : Z -> list Z) (al : list (option IntArraySet.t)) (g1 : DynamicGrid.t).
Context (Hins : inserted n B (edges s) (grid s) X extra all al (edges s') g1).
Context (Hwo : without (edges s') n g1 S (grid s')).
Context (Hs' : contracted s' = contracted s1 /\ nodes s' = nodes s1).
Notation e := (edges s).
Notation g := (grid s).
Notation e' := (edges s').
Notation g' := (grid s').

Lemma taken_range v : v ∈ S -> 0 <= v < n.
Proof. apply (se_taken _ _ _ _ _ _ _ _ Hsel). Qed.

Lemma taken_apart v w : v ∈ S -> w ∈ S -> ~ adjacent e g v w.
Proof. apply (se_apart _ _ _ _ _ _ _ _ Hsel). Qed.

Lemma remains_after u : 0 <= u < n -> remains s' u <-> remains s u /\ u ∉ S.
Proof.
  intros Hu. destruct Hs' as [-> _]. pose proof (se_contracted _ _ _ _ _ _ _ _ Hsel u Hu) as H.
  rewrite <-!not_true_iff_false, H. tauto.
Qed.

Lemma gone_after u : 0 <= u < n -> gone s' u <-> gone s u \/ u ∈ S.
Proof. destruct Hs' as [-> _]. apply (se_contracted _ _ _ _ _ _ _ _ Hsel). Qed.

Lemma level_after_at u : 0 <= u < n -> lvlOf s' u = if decide (u ∈ S) then L else lvlOf s u.
Proof. destruct Hs' as [_ ->]. apply (se_levels _ _ _ _ _ _ _ _ Hsel). Qed.

Lemma taken_remains v : v ∈ S -> remains s v.
Proof. apply (se_taken _ _ _ _ _ _ _ _ Hsel). Qed.

Lemma gone_not_taken u : gone s u -> u ∉ S.
Proof. intros Hg Hin. apply taken_remains in Hin. congruence. Qed.

Lemma after_search : searchable e' g' n Emax Emax.
Proof.
  apply (searchable_after e e' g g1 g' n Emax B (lv_search _ _ _ Hi) X _ (lv_graph _ _ _ Hi) S taken_range taken_apart all Hall extra al Hins Hwo).
Qed.

Lemma after_graph : level_graph e' g' n B (X' e' X extra) (fun u => remains s' u).
Proof.
  pose proof (level_after e e' g g1 g' n Emax B (lv_search _ _ _ Hi) X _ (lv_graph _ _ _ Hi) S taken_range all Hall extra al Hins Hwo) as H.
  apply (level_graph_iff _ _ _ _ _ _ _ (fun u Hu => iff_sym (remains_after u Hu))); [| done].
  intros u x Hu Hx. by apply (lg_known _ _ _ _ _ _ H u x Hu).
Qed.

Lemma ever_after u : 0 <= u < n -> everEdge g' u = everEdge g u ++ extra u.
Proof.
  intros Hu. destruct (in_rows _ _ _ _ _ _ _ _ _ _ Hins u Hu) as [_ <-].
  unfold everEdge. by destruct (wo_all _ _ _ _ _ Hwo) as [-> ->].
Qed.

Lemma known_after u x : 0 <= u < n -> x ∈ everEdge g u -> dst e' x = dst e x /\ weight e' x = weight e x.
Proof. apply (old_known e e' g g1 n B X _ (lv_graph _ _ _ Hi) all extra al Hins). Qed.

Lemma ever_range u x : 0 <= u < n -> x ∈ everEdge g u -> 0 <= dst e x < n.
Proof. intros Hu Hx. by apply (lg_known _ _ _ _ _ _ (lv_graph _ _ _ Hi) u x Hu). Qed.

(** The new edges connect nodes that still remain. *)
Lemma new_edge_remains u x : 0 <= u < n -> x ∈ extra u -> remains s' u /\ remains s' (dst e' x) /\ 0 <= dst e' x < n.
Proof.
  intros Hu Hx. pose proof (new_edge e e' g g1 n B X S all Hall extra al Hins u x Hu Hx) as (v & sc & Hv & Hn & Es & _ & _ & Ed & _).
  destruct (needed_ends e g n Emax B (lv_search _ _ _ Hi) X _ (lv_graph _ _ _ Hi) v sc (taken_range v Hv) Hn)
    as (Hd & _ & _ & H1 & H2 & _ & _ & Ha1 & Ha2). rewrite Ed, <-Es in *.
  rewrite !remains_after by done. split_and!; try done || lia; intros Hin; by apply (taken_apart v _ Hv Hin).
Qed.

Lemma orig_walk u v d : 0 <= u < n -> cwalk e g u v d -> orig u v d.
Proof.
  intros Hu. induction 1 as [| v d x Hw IH Hx]; [constructor |].
  destruct (cwalk_node e g n Emax Emax (lv_search _ _ _ Hi) u v d Hu Hw) as [Hv _].
  eapply cwalk_trans; [exact IH |]. by apply (lv_edge _ _ _ Hi v x Hv), (lg_current _ _ _ _ _ _ (lv_graph _ _ _ Hi)).
Qed.

Lemma after_edge u x : 0 <= u < n -> x ∈ everEdge g' u ->
  Edges.getDest e' x = Ok (dst e' x) /\ Edges.getDist e' x = Ok (weight e' x) /\
  0 < weight e' x <= Emax /\ orig u (dst e' x) (weight e' x).
Proof.
  intros Hu Hx. rewrite (ever_after u Hu) in Hx. apply elem_of_app in Hx as [Hx | Hx].
  - destruct (known_after u x Hu Hx) as [-> ->]. destruct (lg_known _ _ _ _ _ _ (lv_graph _ _ _ Hi) u x Hu Hx) as [Hlt _].
    destruct (in_extends _ _ _ _ _ _ _ _ _ _ Hins) as (_ & Hext & _). destruct (Hext x Hlt) as [-> ->]. by apply (lv_edge _ _ _ Hi).
  - destruct (rows_after e e' g g1 n B X all extra al Hins u Hu) as [Ec _].
    assert (x ∈ current g1 u) as Hc by (rewrite Ec; apply elem_of_app; by right).
    pose proof (inserted_edge e e' g g1 n Emax B (lv_search _ _ _ Hi) X _ (lv_graph _ _ _ Hi) S taken_range all Hall extra al Hins u x Hu Hc)
      as (H1 & H2 & _ & _ & H3). split; [done |]. split; [done |]. split; [done |]. apply orig_walk; [done |].
    by apply (new_edge_walks e e' g g1 n Emax B (lv_search _ _ _ Hi) X _ (lv_graph _ _ _ Hi) S taken_range all Hall extra al Hins u x Hu).
Qed.

Lemma after_differ u x : 0 <= u < n -> x ∈ everEdge g' u -> gone s' u -> gone s' (dst e' x) -> lvlOf s' u <> lvlOf s' (dst e' x).
Proof.
  intros Hu Hx Hgu Hgd. rewrite (ever_after u Hu) in Hx. apply elem_of_app in Hx as [Hx | Hx].
  2:{ destruct (new_edge_remains u x Hu Hx) as [? _]. congruence. }
  destruct (known_after u x Hu Hx) as [E _]. rewrite E in *. pose proof (ever_range u x Hu Hx) as Hd.
  apply (gone_after u Hu) in Hgu. apply (gone_after _ Hd) in Hgd. rewrite (level_after_at u Hu), (level_after_at _ Hd).
  pose proof (lv_levels _ _ _ Hi) as Hlv. destruct (decide (u ∈ S)) as [HuS | HuS], (decide (dst e x ∈ S)) as [HdS | HdS].
  - exfalso. apply (taken_apart u _ HuS HdS). apply list_elem_of_fmap_2.
    apply (lg_still _ _ _ _ _ _ (lv_graph _ _ _ Hi)); [done | done | by apply taken_remains | by apply taken_remains].
  - destruct Hgd as [Hgd | ?]; [| done]. specialize (Hlv _ Hd Hgd). lia.
  - destruct Hgu as [Hgu | ?]; [| done]. specialize (Hlv _ Hu Hgu). lia.
  - destruct Hgu as [Hgu | ?], Hgd as [Hgd | ?]; try done. by apply (lv_differ _ _ _ Hi).
Qed.

(** *** One level: the ways *)

Lemma upward_after u h d : upward s u h d -> upward s' u h d.
Proof.
  induction 1 as [| u x h d (Hu & Hx & Hgu & Hup) Hw IH]; [constructor |].
  destruct (known_after u x Hu Hx) as [Ed Ew]. rewrite <-Ew. rewrite <-Ed in IH. apply up_step; [| done].
  split; [done |]. split; [rewrite (ever_after u Hu); apply elem_of_app; by left |].
  split; [apply (gone_after u Hu); by left |]. rewrite Ed. pose proof (ever_range u x Hu Hx) as Hd.
  rewrite (remains_after _ Hd), (level_after_at u Hu), (level_after_at _ Hd).
  rewrite (decide_False (P := u ∈ S)) by (by apply gone_not_taken).
  pose proof (lv_levels _ _ _ Hi u Hu Hgu). destruct (decide (dst e x ∈ S)) as [HdS | HdS]; [right; lia |].
  destruct Hup; [left | right]; done.
Qed.

(** A contracted node has its edges to the nodes that remain as upward edges. *)
Lemma taken_up v x : v ∈ S -> x ∈ current g v -> upward s' v (dst e x) (weight e x) /\ dst e x ∉ S /\
  0 <= dst e x < n /\ remains s (dst e x).
Proof.
  intros Hv Hx. pose proof (taken_range v Hv) as Hvn. pose proof (lg_current _ _ _ _ _ _ (lv_graph _ _ _ Hi) v x Hvn Hx) as Hever.
  destruct (known_after v x Hvn Hever) as [Ed Ew]. pose proof (ever_range v x Hvn Hever) as Hd.
  assert (dst e x ∉ S) as HdS by (intros HdS; apply (taken_apart v _ Hv HdS); by apply list_elem_of_fmap_2).
  destruct (lg_open _ _ _ _ _ _ (lv_graph _ _ _ Hi) v x Hvn Hx) as [_ Hr]. split; [| done].
  rewrite <-Ed, <-Ew. rewrite <-(Z.add_0_r (weight e' x)). apply up_step; [| constructor].
  split; [done |]. split; [rewrite (ever_after v Hvn); apply elem_of_app; by left |].
  split; [apply (gone_after v Hvn); by right |]. left. rewrite Ed. by apply remains_after.
Qed.

(** An end of a walk that is contracted moves along the first edge of the walk. *)
Lemma leave_taken u v c : 0 <= u < n -> remains s u -> cwalk e g u v c -> u <> v -> exists u' a, 0 <= u' < n /\
  u' ∉ S /\ remains s u' /\ upward s' u u' a /\ cwalk e g u' v (c - a).
Proof.
  intros Hu Hr Hw Hne. destruct (decide (u ∈ S)) as [HuS | HuS].
  - destruct (cwalk_first e g u v c Hw) as [[? _] | (x & Hx & Hrest)]; [done |].
    destruct (taken_up u x HuS Hx) as (H1 & H2 & H3 & H4). exists (dst e x), (weight e x). split_and!; done || lia.
  - exists u, 0. rewrite Z.sub_0_r. split_and!; try done || lia. constructor.
Qed.

Lemma upward_trans t u v d w d' : upward t u v d -> upward t v w d' -> upward t u w (d + d').
Proof.
  induction 1 as [| u x v d Hx Hw IH]; intros H; [done |]. rewrite <-Z.add_assoc. constructor; auto.
Qed.

Lemma connected_after u v c : 0 <= u < n -> 0 <= v < n -> remains s u -> remains s v -> cwalk e g u v c -> joined s' u v c.
Proof.
  intros Hu Hv Hru Hrv Hw. pose proof (lv_search _ _ _ Hi) as Hg. destruct (cwalk_node e g n Emax Emax Hg u v c Hu Hw) as [_ Hc].
  destruct (decide (u = v)) as [<- | Hne].
  { left. exists u, 0, 0. split; [constructor |]. split; [constructor | lia]. }
  destruct (leave_taken u v c Hu Hru Hw Hne) as (u' & a & Hu' & HuS & Hru' & Hua & Hw1).
  destruct (decide (u' = v)) as [-> | Hne'].
  { left. exists v, a, 0. destruct (cwalk_node e g n Emax Emax Hg v v _ Hu' Hw1). split; [done |]. split; [constructor | lia]. }
  apply (cwalk_rev e g n Emax Emax Hg) in Hw1; [| done].
  destruct (leave_taken v u' (c - a) Hv Hrv Hw1 ltac:(congruence)) as (v' & b & Hv' & HvS & Hrv' & Hvb & Hw2).
  apply (cwalk_rev e g n Emax Emax Hg) in Hw2; [| done].
  destruct (cwalk_kept e e' g g1 g' n Emax B Hg X _ (lv_graph _ _ _ Hi) S taken_range taken_apart all Hall extra al Hins Hwo
    u' v' _ Hu' HuS HvS Hw2) as (c' & Hc' & Hle).
  right. exists u', v', a, b, c'. rewrite !remains_after by done. split_and!; try done || lia.
Qed.

Lemma joined_after u v d : 0 <= u < n -> 0 <= v < n -> orig u v d -> joined s' u v d.
Proof.
  intros Hu Hv Hw. destruct (lv_joined _ _ _ Hi u v d Hu Hv Hw) as [(h & a & b & H1 & H2 & Hle) | (u' & v' & a & b & c & H1 & H2 & Hu' & Hv' & Hru & Hrv & Hc & Hle)].
  - left. exists h, a, b. split; [by apply upward_after |]. split; [by apply upward_after | done].
  - apply upward_after in H1, H2.
    destruct (connected_after u' v' c Hu' Hv' Hru Hrv Hc) as [(h & a' & b' & H3 & H4 & Hle') | (u2 & v2 & a' & b' & c' & H3 & H4 & Hrest & Hrest2 & Hr1 & Hr2 & Hc' & Hle')].
    + left. exists h, (a + a'), (b + b'). split; [by eapply upward_trans |]. split; [by eapply upward_trans | lia].
    + right. exists u2, v2, (a + a'), (b + b'), c'. split_and!; try done || lia; by eapply upward_trans.
Qed.

(** *** One level: the invariant *)

Lemma count_after : alen (filter (fun u => remains s' u) (seqZ 0 n)) = alen (filter (fun u => remains s u) (seqZ 0 n)) - alen S.
Proof.
  assert (filter (fun u => remains s u) (seqZ 0 n) ≡ₚ S ++ filter (fun u => remains s' u) (seqZ 0 n)) as Hp.
  { apply NoDup_Permutation.
    - apply NoDup_filter, NoDup_seqZ.
    - apply NoDup_app. split; [apply (se_nodup _ _ _ _ _ _ _ _ Hsel) |]. split; [| apply NoDup_filter, NoDup_seqZ].
      intros u HuS [Hr Hu]%list_elem_of_filter. apply elem_of_seqZ in Hu. by apply (remains_after u ltac:(lia)) in Hr as [_ ?].
    - intros u. rewrite elem_of_app, !list_elem_of_filter, elem_of_seqZ. split.
      + intros [Hr Hu]. destruct (decide (u ∈ S)); [by left | right]. split; [| done]. by apply (remains_after u ltac:(lia)).
      + intros [HuS | [Hr Hu]].
        * split; [by apply taken_remains |]. pose proof (taken_range u HuS). lia.
        * split; [| done]. by apply (remains_after u ltac:(lia)). }
  unfold alen. rewrite (Permutation_length Hp), length_app. lia.
Qed.

Lemma step_inv ids : alreadyShortcut s' = al -> alen (isNeighbour s') = n -> nodesToCalc s' = ids -> IntArrayList.repr ids S ->
  Contraction.calcOrder s' = Contraction.calcOrder s -> nonContractedNum s' = nonContractedNum s - alen S -> 0 <= L ->
  level_inv (L + 1) (X' e' X extra) s'.
Proof.
  intros Eal Hnb Eids Hids Eord Ecount HL. destruct Hs' as [Ec En].
  pose proof (se_lengths _ _ _ _ _ _ _ _ Hsel) as [L1 _]. pose proof (se_nodes _ _ _ _ _ _ _ _ Hsel) as (N1 & N2 & N3).
  split.
  - apply after_search.
  - apply after_graph.
  - destruct (in_store _ _ _ _ _ _ _ _ _ _ Hins) as (l & Hst & Hl). exists l. split; [done |]. intros sc Hsc. by apply Hl.
  - etrans; [apply (lv_extends _ _ _ Hi) | apply (in_extends _ _ _ _ _ _ _ _ _ _ Hins)].
  - rewrite Eal. split; [apply (in_size _ _ _ _ _ _ _ _ _ _ Hins) | apply (in_sets _ _ _ _ _ _ _ _ _ _ Hins)].
  - rewrite Ec, En. done.
  - rewrite En. unfold getNodeCount. rewrite N1. apply (lv_nodes _ _ _ Hi).
  - exists S. by rewrite Eids.
  - rewrite Eord. apply (lv_order _ _ _ Hi).
  - rewrite Ecount, count_after. by rewrite (lv_count _ _ _ Hi).
  - intros u Hu Hgu. rewrite (level_after_at u Hu). apply (gone_after u Hu) in Hgu.
    destruct (decide (u ∈ S)) as [HuS | HuS]; [lia |]. destruct Hgu as [Hgu | ?]; [| done].
    pose proof (lv_levels _ _ _ Hi u Hu Hgu). lia.
  - apply after_edge.
  - apply after_differ.
  - apply joined_after.
Qed.
End step.

(** *** One level: the program *)

Lemma level_start L X s : level_inv L X s -> startable (edges s) (grid s) n
  (mk (contracted s) (fill (isNeighbour s) false) (alreadyShortcut s) (Contraction.calcOrder s)
    (IntArrayList.clear (nodesToCalc s)) (nonContractedNum s) (nodes s) (edges s) (grid s)).
Proof.
  intros Hi. pose proof (sb_count _ _ _ _ _ (lv_search _ _ _ Hi)) as Hn. destruct (lv_lengths _ _ _ Hi) as (L1 & L2 & L3).
  pose proof (alen_nonneg (contracted s)). split; try done; cbn.
  - destruct (lv_ids _ _ _ Hi) as [l Hl]. by eapply IntArrayList.clear_repr.
  - by rewrite alen_fill.
  - intros u Hu. apply at_fill. lia.
  - apply (lv_order _ _ _ Hi).
  - rewrite (lv_count _ _ _ Hi). pose proof (length_filter (fun u => remains s u) (seqZ 0 n)) as Hf.
    rewrite length_seqZ in Hf. unfold alen in *. lia.
Qed.

(** The nodes that remain are as far from each other as before. *)
Definition keeps_distances (s s' : Contraction.t D) : Prop := forall a b, 0 <= a < n -> 0 <= b < n -> remains s' a -> remains s' b ->
  remains s a /\ remains s b /\ (forall d, cwalk (edges s') (grid s') a b d -> cwalk (edges s) (grid s) a b d) /\
  forall d, cwalk (edges s) (grid s) a b d -> exists d', cwalk (edges s') (grid s') a b d' /\ d' <= d.

Lemma nothing_inserted L X s : level_inv L X s -> inserted n B (edges s) (grid s) X (fun _ => []) [] (alreadyShortcut s) (edges s) (grid s).
Proof.
  intros Hi. destruct (lv_sets _ _ _ Hi) as [Hsize Hsets]. split; try done.
  - destruct (lv_store _ _ _ Hi) as (l & Hst & Hl). exists l. split; [done |]. intros sc Hsc. left. by apply Hl.
  - apply (sb_grid _ _ _ _ _ (lv_search _ _ _ Hi)).
  - intros u Hu. by rewrite !app_nil_r.
  - intros u x Hu Hx. by apply elem_of_nil in Hx.
  - intros u x Hu Hx. by apply elem_of_nil in Hx.
  - apply (lg_simple _ _ _ _ _ _ (lv_graph _ _ _ Hi)).
  - intros u Hu. destruct (Hsets u Hu) as (set & l & H1 & H2 & H3). exists set, l. split; [done |]. split; [done |].
    intros w. rewrite H3. cbn. rewrite elem_of_nil. tauto.
  - intros sc Hsc. by apply elem_of_nil in Hsc.
Qed.

(** The contraction sets the levels of the nodes only. *)
Definition same_coords (ns ns' : Nodes D) : Prop := nLatitude ns' = nLatitude ns /\ nLongitude ns' = nLongitude ns.

Lemma calcNextLvl_ok L X s : level_inv L X s -> 0 <= L ->
  returns (calcNextLvl L s) (fun s' => (exists X', level_inv (L + 1) X' s') /\ keeps_distances s s' /\
    same_coords (nodes s) (nodes s') /\ exists S : list Z, nonContractedNum s' = nonContractedNum s - alen S /\
      ((exists u, 0 <= u < n /\ remains s u) -> 0 < alen S)).
Proof.
  intros Hi HL. pose proof (lv_search _ _ _ Hi) as Hg. pose proof (level_start L X s Hi) as Hstart.
  assert (0 <= n) as Hn0 by (destruct (lv_lengths _ _ _ Hi) as (<- & _); apply alen_nonneg).
  unfold calcNextLvl. set (s0 := mk _ _ _ _ _ _ _ _ _) in *. cbv zeta. change (nodes s0) with (nodes s). rewrite (lv_nodes _ _ _ Hi).
  eapply returns_bind; [by apply (select_ok (edges s) (grid s) n Emax Emax L Hg s0 Hstart) |]. cbv beta.
  intros s1 (S & Hsel0 & Hmax).
  assert (selecting (edges s) (grid s) n L s S n s1) as Hsel by (destruct Hsel0; by split).
  rewrite (se_edges _ _ _ _ _ _ _ _ Hsel), (se_grid _ _ _ _ _ _ _ _ Hsel), (se_already _ _ _ _ _ _ _ _ Hsel).
  apply (level_threads (edges s) (grid s) n Emax Emax Hg _ S _ _ (se_ids _ _ _ _ _ _ _ _ Hsel)).
  { apply (se_taken _ _ _ _ _ _ _ _ Hsel). }
  intros ths news Hh Hall.
  assert (forall v, v ∈ S -> 0 <= v < n) as HS by apply (se_taken _ _ _ _ _ _ _ _ Hsel).
  eapply returns_bind.
  { apply (insert_ok n B (edges s) (grid s) X Hroom (level_rows _ _ _ _ _ Hg _ _ (lv_graph _ _ _ Hi)) ths news _ Hh).
    - intros sc Hsc. destruct (proj1 Hall sc Hsc) as (v & Hv & Hneed).
      by apply (needed_insertable _ _ _ _ _ Hg X _ (lv_graph _ _ _ Hi) v sc (HS v Hv)).
    - by apply (nothing_inserted L X). }
  cbv beta. intros [[al e'] g1] [extra Hins]. cbn [fst snd] in Hins.
  eapply returns_bind.
  { apply (removeAll_ok e' n g1 _ S (se_ids _ _ _ _ _ _ _ _ Hsel)); [| done].
    by apply (inserted_graph (edges s) e' (grid s) g1 n Emax B Hg X _ (lv_graph _ _ _ Hi) S HS (concat news) Hall extra al). }
  cbv beta. intros g' Hwo. ret.
  set (s2 := mk _ _ _ _ _ _ _ e' g'). split; [| split].
  - exists (X' e' X extra).
    apply (step_inv L X s s1 s2 S (concat news) Hi Hsel Hall extra al g1 Hins Hwo (conj eq_refl eq_refl) (nodesToCalc s1)); try done.
    + apply (se_lengths _ _ _ _ _ _ _ _ Hsel).
    + apply (se_ids _ _ _ _ _ _ _ _ Hsel).
    + apply (se_order _ _ _ _ _ _ _ _ Hsel).
    + apply (se_count _ _ _ _ _ _ _ _ Hsel).
  - intros a b Ha Hb Hra Hrb. pose proof (fun u Hu => proj1 (remains_after L s s1 s2 S Hsel (conj eq_refl eq_refl) u Hu)) as Hr.
    destruct (Hr a Ha Hra) as [? HaS], (Hr b Hb Hrb) as [? HbS]. split; [done |]. split; [done |]. split; intros d.
    + by apply (cwalk_down (edges s) e' (grid s) g1 g' n Emax B Hg X _ (lv_graph _ _ _ Hi) S HS (concat news) Hall extra al Hins Hwo).
    + by apply (cwalk_kept (edges s) e' (grid s) g1 g' n Emax B Hg X _ (lv_graph _ _ _ Hi) S HS
        (se_apart _ _ _ _ _ _ _ _ Hsel) (concat news) Hall extra al Hins Hwo).
  - destruct (se_nodes _ _ _ _ _ _ _ _ Hsel) as (? & ? & _). split; [done |].
    exists S. split; [apply (se_count _ _ _ _ _ _ _ _ Hsel) |]. intros (u & Hu & Hr).
    destruct (Hmax u Hu Hr) as [Hin | (v & Hin & _)]; apply In_at in Hin as (k & Hk & _); lia.
Qed.

(** *** All levels *)

Lemma levels_ok fuel : forall L X s, level_inv L X s -> 0 <= L -> L + nonContractedNum s <= n ->
  nonContractedNum s < Z.of_nat fuel ->
  returns (levels fuel L s) (fun s' => same_coords (nodes s) (nodes s') /\
    exists L' X', L' <= n /\ level_inv L' X' s' /\ forall u, 0 <= u < n -> gone s' u).
Proof.
  induction fuel as [| fuel IH]; intros L X s Hi HL Hle Hfuel.
  { rewrite (lv_count _ _ _ Hi) in Hfuel. pose proof (alen_nonneg (filter (fun u => remains s u) (seqZ 0 n))). lia. }
  pose proof (sb_count _ _ _ _ _ (lv_search _ _ _ Hi)) as Hn. cbn [levels].
  destruct (Z.ltb_spec 0 (nonContractedNum s)) as [Hpos | Hnone]; rewrite (lv_count _ _ _ Hi) in *.
  - eapply returns_bind; [by apply (calcNextLvl_ok L X) |]. cbv beta. intros s' ([X' Hi'] & _ & [Ela Elo] & S & Ecount & HS).
    rewrite (lv_count _ _ _ Hi) in Ecount. assert (0 < alen S) as HSpos.
    { apply HS. set (l := filter _ _) in *. destruct l as [| u l'] eqn:El; [unfold alen in Hpos; cbn in Hpos; lia |].
      assert (u ∈ filter (fun u => remains s u) (seqZ 0 n)) as [Hr Hu]%list_elem_of_filter by (fold l; rewrite El; by left).
      apply elem_of_seqZ in Hu. exists u. split; [lia | done]. }
    rewrite iadd_id by (unfold is_int, MIN_VALUE; lia).
    eapply returns_mono; [apply (IH _ X'); [done | lia | lia | lia] |]. cbv beta. intros s2 [[E1 E2] Hrest].
    split; [split; congruence | done].
  - ret. split; [done |]. exists L, X. pose proof (alen_nonneg (filter (fun u => remains s u) (seqZ 0 n))).
    split; [lia |]. split; [done |]. intros u Hu. apply not_false_iff_true. intros Hr.
    assert (u ∈ filter (fun u => remains s u) (seqZ 0 n)) as Hin by (apply list_elem_of_filter; split; [done |]; apply elem_of_seqZ; lia).
    apply In_at in Hin as (k & Hk & _). lia.
Qed.

(** ** The input *)

(** A graph that can be contracted: simple and symmetric, with distances that fit, every edge
    strictly shorter than any walk over a third node, rows with room, and an edge store without
    shortcuts. *)
Record contractible (ns : Nodes D) : Prop := {
  co_search : searchable e0 g0 n Emax Emax;
  co_strict : forall u x, 0 <= u < n -> x ∈ current g0 u -> strict e0 g0 u x;
  co_ever : forall u, 0 <= u < n -> everEdge g0 u = current g0 u;
  co_known : forall u x, 0 <= u < n -> x ∈ current g0 u -> x < nextShortcutId e0;
  co_room : forall u, 0 <= u < n -> roomy B (allEdgeIds g0) u /\ roomy B (currentEdgeIds g0) u;
  co_source : forall u x, 0 <= u < n -> x ∈ current g0 u -> 0 <= x /\ Edges.src e0 x = u;
  co_store : store_ok n e0 [];
  co_nodes : getNodeCount ns = n /\ alen (nLevels ns) = n;
}.

Section start.
Context (ns : Nodes D) (Hco : contractible ns) (Hn0 : 0 <= n).

Lemma start_graph (c : list bool) : (forall u, 0 <= u < n -> c.[u] = false) ->
  level_graph e0 g0 n B (fun _ _ => False) (fun u => c.[u] = false).
Proof.
  intros Hc. pose proof (sb_edge _ _ _ _ _ (co_search _ Hco)) as Hedge. split.
  - intros u x Hu Hx. left. by apply (co_strict _ Hco).
  - intros u x Hu Hx. destruct (Hedge u x Hu Hx) as (_ & _ & Hd & _). auto.
  - done.
  - intros u x Hu Hx. rewrite (co_ever _ Hco) in Hx by done. split; [by apply (co_known _ Hco u) | by apply (Hedge u)].
  - intros u x Hu Hx. rewrite (co_ever _ Hco) in Hx by done. by apply (co_source _ Hco).
  - intros u Hu. rewrite (co_ever _ Hco) by done. by apply (sb_simple _ _ _ _ _ (co_search _ Hco)).
  - intros u x Hu Hx. by rewrite (co_ever _ Hco).
  - intros u x Hu Hx _ _. by rewrite (co_ever _ Hco) in Hx.
  - intros u Hu. by destruct (co_room _ Hco u Hu).
Qed.

Lemma start_inv c nb al order ids : alen c = n -> (forall u, 0 <= u < n -> c.[u] = false) -> alen nb = n ->
  alen al = n -> (forall u, 0 <= u < n -> exists set, al.[u] = Some set /\ IntArraySet.wf set []) ->
  order ≡ₚ seqZ 0 n -> (exists l, IntArrayList.repr ids l) ->
  level_inv 0 (fun _ _ => False) (mk c nb al order ids n ns e0 g0).
Proof.
  intros Lc Hc Lnb Lal Hal Hord Hids. pose proof (sb_edge _ _ _ _ _ (co_search _ Hco)) as Hedge.
  destruct (co_nodes _ Hco) as [Hcount Hlev]. split; cbn; try done.
  - apply (co_search _ Hco).
  - by apply start_graph.
  - exists []. split; [apply (co_store _ Hco) |]. intros sc Hsc. by apply elem_of_nil in Hsc.
  - split; [done |]. intros u Hu. destruct (Hal u Hu) as (set & E & Hwf). exists set, [].
    split; [done |]. split; [done |]. intros w. by rewrite elem_of_nil.
  - assert (filter (fun u => c.[u] = false) (seqZ 0 n) = seqZ 0 n) as ->.
    { assert (forall l : list Z, (forall u : Z, u ∈ l -> c.[u] = false) -> filter (fun u : Z => c.[u] = false) l = l) as Hall.
      { induction l as [| u l IH]; intros Hl; [done |]. rewrite filter_cons_True by (apply Hl; by left).
        rewrite IH; [done |]. intros v Hv. apply Hl. by right. }
      apply Hall. intros u Hu%elem_of_seqZ. apply Hc. lia. }
    unfold alen. rewrite length_seqZ. lia.
  - intros u Hu Hg. by rewrite Hc in Hg.
  - intros u x Hu Hx. rewrite (co_ever _ Hco) in Hx by done. destruct (Hedge u x Hu Hx) as (H1 & H2 & _ & _ & H3).
    split; [done |]. split; [done |]. split; [done |]. by apply cwalk_edge.
  - intros u x Hu Hx Hg. by rewrite Hc in Hg.
  - intros u v d Hu Hv Hw. right. exists u, v, 0, 0, d. split_and!; try done || lia; try constructor; cbn; auto.
Qed.

(** The two loops before the first level. *)
Definition prepared (i : Z) (st : list (option IntArraySet.t) * list Z) : Prop :=
  alen st.1 = n /\ alen st.2 = n /\
  forall u, 0 <= u < i -> (exists set, st.1.[u] = Some set /\ IntArraySet.wf set []) /\ st.2.[u] = u.

Lemma prepare_ok st : prepared 0 st ->
  returns (forRange 0 n (fun i '(already, order) =>
    set ← IntArraySet.new 1 20; already ← aset already i (Some set); order ← aset order i i; Ok (already, order)) st)
    (prepared n).
Proof.
  intros Hst. apply (forRange_inv prepared); [done | done |]. intros i [al o] Hi (La & Lo & Hp). cbn in La, Lo, Hp.
  eapply (returns_bind _ _ (fun set => IntArraySet.models set ∅)); [by apply IntArraySet.models_new |].
  cbv beta. intros set (l & Hwf & El).
  assert (l = []) as ->.
  { destruct l as [| x l]; [done |]. exfalso. assert (x ∈ (list_to_set (x :: l) : gset Z)) as Hx by set_solver.
    rewrite <-El in Hx. set_solver. }
  rewrite (aset_ok al), bind_ok by lia. rewrite (aset_ok o), bind_ok by lia. ret.
  split; [cbn; by autorewrite with alen |]. split; [cbn; by autorewrite with alen |]. cbn. intros u Hu.
  rewrite !at_insert by lia. case_decide as E; [subst; split; [by exists set | done] | apply Hp; lia].
Qed.

Lemma order_at k : 0 <= k < n -> (seqZ 0 n).[k] = k.
Proof. intros Hk. apply list_lookup_total_correct. rewrite lookup_seqZ. lia. Qed.

Lemma shuffle_ok rnd o : (forall i, 0 <= i < n -> 0 <= rnd i < n - 1) -> n < MAX_VALUE -> n <> 1 -> o ≡ₚ seqZ 0 n ->
  returns (forRange 0 n (swap rnd n) o) (fun o' => o' ≡ₚ seqZ 0 n).
Proof.
  intros Hrnd Hmax H1 Ho. apply (forRange_inv (fun _ o => o ≡ₚ seqZ 0 n)); [done | done |].
  intros i o1 Hi Ho1. assert (alen o1 = n) as Hlen by (unfold alen; rewrite (Permutation_length Ho1), length_seqZ; lia).
  unfold swap, nextInt. rewrite iadd_id by (unfold is_int, MIN_VALUE; lia).
  destruct (Z.leb_spec (n + -1) 0); [lia |]. rewrite bind_ok. pose proof (Hrnd i Hi).
  rewrite (aget_ok o1 (rnd i)), bind_ok by lia. rewrite (aget_ok o1 i), bind_ok by lia.
  rewrite (aset_ok o1), bind_ok by lia. rewrite aset_ok by (autorewrite with alen; lia). ret.
  refine (Permutation_trans _ Ho1). apply Permutation_insert_swap; apply at_lookup; lia.
Qed.

(** The contraction ends: all nodes are contracted, and the invariant of the last level holds. *)
Lemma calculateCH_ok rnd ids : (exists l, IntArrayList.repr ids l) -> n <> 1 ->
  (forall i, 0 <= i < n -> 0 <= rnd i < n - 1) ->
  returns (calculateCH rnd ids ns e0 g0) (fun s => same_coords ns (nodes s) /\
    exists L X, L <= n /\ level_inv L X s /\ forall u, 0 <= u < n -> gone s u).
Proof.
  intros Hids H1 Hrnd. pose proof (sb_count _ _ _ _ _ (co_search _ Hco)) as Hmax. destruct (co_nodes _ Hco) as [Hcount _].
  unfold calculateCH. cbv zeta. rewrite Hcount. unfold newArray. destruct (Z.ltb_spec n 0); [lia |]. rewrite !bind_ok.
  eapply returns_bind; [apply prepare_ok |].
  { split; [by apply alen_replicate |]. split; [by apply alen_replicate | intros; lia]. }
  cbv beta. intros [al o] (La & Lo & Hp). cbn in La, Lo, Hp.
  assert (o ≡ₚ seqZ 0 n) as Ho.
  { assert (o = seqZ 0 n) as ->; [| done]. apply arr_ext; [unfold alen in *; rewrite length_seqZ; lia |].
    intros k Hk. rewrite Lo in Hk. rewrite order_at by done. by apply Hp. }
  eapply returns_bind; [by apply (shuffle_ok rnd o) |].
  cbv beta. intros o' Ho'. rewrite !bind_ok.
  assert (alen (replicate (Z.to_nat n) false) = n) as Lrep by (by apply alen_replicate).
  apply (levels_ok _ 0 (fun _ _ => False) (mk _ _ _ _ _ _ ns _ _)); [| done | |].
  - apply start_inv; try done.
    + by rewrite alen_fill.
    + intros u Hu. apply at_fill. by rewrite Lrep.
    + intros u Hu. by apply Hp.
  - cbn. lia.
  - cbn. lia.
Qed.
End start.

(** ** When all nodes are contracted *)

Section finished.
Context (L : Z) (X : Z -> Z -> Prop) (s : Contraction.t D) (Hi : level_inv L X s).
Context (Hgone : forall u, 0 <= u < n -> gone s u) (HL : L <= n).
Notation way := (way (nodes s) (edges s) (grid s)).
Notation ups u := (upEdges (nodes s) (edges s) (grid s) u).

Lemma ever_in u x : 0 <= u < n -> x ∈ everEdge (grid s) u -> 0 <= dst (edges s) x < n.
Proof. intros Hu Hx. by apply (lg_known _ _ _ _ _ _ (lv_graph _ _ _ Hi) u x Hu). Qed.

Lemma elem_of_ups u x : 0 <= u < n -> x ∈ ups u <-> x ∈ everEdge (grid s) u /\ lvlOf s u < lvlOf s (dst (edges s) x).
Proof.
  intros Hu. unfold upEdges. rewrite list_elem_of_In, filter_In, <-list_elem_of_In, negb_true_iff, Z.ltb_ge. unfold lvl.
  split; intros [Hx Hle]; (split; [done |]); [| lia].
  pose proof (ever_in u x Hu Hx) as Hd. pose proof (lv_differ _ _ _ Hi u x Hu Hx (Hgone u Hu) (Hgone _ Hd)). lia.
Qed.

Lemma upward_way u h d : upward s u h d -> way u h d.
Proof.
  induction 1 as [| u x h d (Hu & Hx & _ & Hup) Hw IH]; [constructor |].
  assert (lvlOf s u < lvlOf s (dst (edges s) x)) as Hlt.
  { destruct Hup as [Hr | ?]; [| done]. pose proof (Hgone _ (ever_in u x Hu Hx)). congruence. }
  apply way_up; [by rewrite (lv_nodes _ _ _ Hi) | by apply elem_of_ups | done].
Qed.

(** An upward way is a walk of the original graph, and no longer than the levels it climbs. *)
Lemma way_walk u h d : 0 <= u < n -> way u h d -> 0 <= h < n /\ orig u h d /\ 0 <= d <= Emax * (lvlOf s h - lvlOf s u).
Proof.
  intros Hu Hw. revert Hu. induction Hw as [u | u x h d Hu0 Hx Hw IH]; intros Hu.
  { split; [done |]. split; [constructor | lia]. }
  apply (elem_of_ups u x Hu) in Hx as [Hx Hlt]. pose proof (ever_in u x Hu Hx) as Hd.
  destruct (lv_edge _ _ _ Hi u x Hu Hx) as (_ & _ & Hwx & Ho). destruct (IH Hd) as (Hh & Hw' & Hd').
  split; [done |]. split; [by eapply cwalk_trans |]. nia.
Qed.

Lemma way_short u h d : 0 <= u < n -> way u h d -> d <= Emax * n.
Proof.
  intros Hu Hw. destruct (way_walk u h d Hu Hw) as (Hh & _ & Hd).
  pose proof (lv_levels _ _ _ Hi u Hu (Hgone u Hu)). pose proof (lv_levels _ _ _ Hi h Hh (Hgone h Hh)).
  pose proof (sb_room _ _ _ _ _ (lv_search _ _ _ Hi)) as [HE _].
  assert (Emax * (lvlOf s h - lvlOf s u) <= Emax * n) by (apply Z.mul_le_mono_nonneg_l; lia). lia.
Qed.

Lemma ups_simple u : 0 <= u < n -> NoDup (dst (edges s) <$> ups u).
Proof.
  intros Hu. pose proof (lg_simple _ _ _ _ _ _ (lv_graph _ _ _ Hi) u Hu) as Hnd. unfold upEdges.
  induction (everEdge (grid s) u) as [| x l IH]; [constructor |]. cbn in *. apply NoDup_cons in Hnd as [Hx Hnd].
  destruct (negb _); [| by apply IH]. cbn. apply NoDup_cons. split; [| by apply IH].
  intros (y & Ey & Hy)%list_elem_of_fmap. apply Hx. rewrite Ey. apply list_elem_of_fmap_2.
  by apply list_elem_of_In, filter_In in Hy as [Hy%list_elem_of_In _].
Qed.

(** What the labels are computed from. *)
Lemma finished_hierarchy R : (forall u h d, 0 <= u < n -> way u h d -> d <= R) -> 0 <= R -> 3 * R <= MAX_VALUE ->
  hierarchy (nodes s) (edges s) (grid s) R.
Proof.
  intros HR H0 H3. pose proof (lv_search _ _ _ Hi) as Hg. destruct (lv_lengths _ _ _ Hi) as (_ & _ & L3).
  split; rewrite ?(lv_nodes _ _ _ Hi).
  - apply (sb_grid _ _ _ _ _ Hg).
  - apply (sb_count _ _ _ _ _ Hg).
  - done.
  - intros u Hu. by apply (lv_levels _ _ _ Hi u Hu (Hgone u Hu)).
  - intros u x Hu Hx. destruct (lv_edge _ _ _ Hi u x Hu Hx) as (Hd & _). pose proof (ever_in u x Hu Hx) as Hr.
    split; [done |]. split; [done |]. intros E. by apply (lv_differ _ _ _ Hi u x Hu Hx (Hgone u Hu) (Hgone _ Hr)).
  - intros u x Hu Hx. apply (elem_of_ups u x Hu) in Hx as [Hx _]. destruct (lv_edge _ _ _ Hi u x Hu Hx) as (_ & Hw & Hp & _).
    split; [done | lia].
  - apply ups_simple.
  - done.
  - done.
Qed.

(** Two nodes are joined by upward ways that meet. *)
Lemma finished_joined u v d : 0 <= u < n -> 0 <= v < n -> orig u v d ->
  exists h a b, way u h a /\ way v h b /\ a + b <= d.
Proof.
  intros Hu Hv Hw. destruct (lv_joined _ _ _ Hi u v d Hu Hv Hw) as [(h & a & b & H1 & H2 & Hle) | (u' & _ & _ & _ & _ & _ & _ & Hu' & _ & Hr & _)].
  - exists h, a, b. split; [by apply upward_way |]. split; [by apply upward_way | done].
  - pose proof (Hgone u' Hu'). congruence.
Qed.
End finished.
End contracting.

(** C8: Contracting a level keeps the invariant of the contraction, the distances between the nodes
    that remain included, and contracts a node when one remains. *)
Theorem calcNextLvl_keeps {D} e0 g0 n Emax B L X (s : Contraction.t D) :
  2 * n <= B -> 2 * B <= MAX_VALUE -> level_inv e0 g0 n Emax B L X s -> 0 <= L ->
  returns (calcNextLvl L s) (fun s' => (exists X', level_inv e0 g0 n Emax B (L + 1) X' s') /\ keeps_distances n s s' /\
    (0 < nonContractedNum s -> nonContractedNum s' < nonContractedNum s)).
Proof.
  intros HB1 HB2 Hi HL. eapply returns_mono; [by apply (calcNextLvl_ok e0 g0 n Emax B (conj HB1 HB2) L X) |]. cbv beta.
  intros s' (Hi' & Hk & _ & S & E & HS). split; [done |]. split; [done |]. intros Hpos. rewrite E.
  rewrite (lv_count _ _ _ _ _ _ _ _ Hi) in Hpos. assert (0 < alen S); [| lia]. apply HS.
  set (l := filter _ _) in Hpos. destruct l as [| u l'] eqn:El; [unfold alen in Hpos; cbn in Hpos; lia |].
  assert (u ∈ l) as [Hr Hu]%list_elem_of_filter by (rewrite El; by left). apply elem_of_seqZ in Hu.
  exists u. split; [lia | done].
Qed.
