(* ===== verification/Preprocessing.v ===== *)
(** * hublablecreation/LabelCreator.java: from a graph to its hub labels

    [main], when no intermediate data was stored by an earlier run: the contraction hierarchy,
    then the labels.  The labels answer shortest distances exactly. *)

From S2P Require Import Prelude SortedArray IntArrayList IntArraySet OrderedIntSet Edges DynamicGrid Labels HLDijkstra.
From S2P Require Import CHDijkstra CHSearch LabelCreator Contraction LevelGraph LevelCorrect Hierarchy.

(** The answers [rnd] of the random generator, the progress [picks] of the label threads, and the
    list [ids] that [calcNextLvl] uses again on every level are arguments. *)
Definition createLabels {D} (rnd : Z -> Z) (picks : Z -> list nat) (ids : IntArrayList.t) (ns : Nodes D)
    (e : Edges.t) (g : DynamicGrid.t) : res (Labels.t * Contraction.t D) :=
  s ← calculateCH rnd ids ns e g;
  lab ← Labels.initialize (getNodeCount (nodes s));
  lab ← calcLabels (nodes s) (edges s) (grid s) picks lab;
  Ok (lab, s).

(** [d] is the distance between [u] and [v]. *)
Definition distance (e : Edges.t) (g : DynamicGrid.t) (u v d : Z) : Prop :=
  cwalk e g u v d /\ forall d', cwalk e g u v d' -> d <= d'.

Section labels.
Context {D : Type} (e : Edges.t) (g : DynamicGrid.t) (n Emax B : Z) (ns : Nodes D).
Context (Hroom : 2 * n <= B /\ 2 * B <= MAX_VALUE) (Hco : contractible e g n Emax B ns) (Hn : 0 <= n /\ n <> 1).
Context (rnd : Z -> Z) (Hrnd : forall i, 0 <= i < n -> 0 <= rnd i < n - 1).
Context (ids : IntArrayList.t) (Hids : exists l, IntArrayList.repr ids l).

(** The contraction joins all nodes that a walk connects. *)
Definition joins (s : Contraction.t D) : Prop :=
  getNodeCount (nodes s) = n /\ (forall u, 0 <= u < n -> (contracted s).[u] = true) /\
  (forall u h d, 0 <= u < n -> way (nodes s) (edges s) (grid s) u h d -> cwalk e g u h d /\ 0 <= h < n /\ d <= Emax * n) /\
  (forall u v d, 0 <= u < n -> 0 <= v < n -> cwalk e g u v d -> exists h a b,
     way (nodes s) (edges s) (grid s) u h a /\ way (nodes s) (edges s) (grid s) v h b /\ a + b <= d) /\
  (forall R, (forall u h d, 0 <= u < n -> way (nodes s) (edges s) (grid s) u h d -> d <= R) -> 0 <= R -> 3 * R <= MAX_VALUE ->
     hierarchy (nodes s) (edges s) (grid s) R).

Lemma contraction_joins : returns (calculateCH rnd ids ns e g) joins.
Proof.
  destruct Hn as [Hn0 Hn1].
  eapply returns_mono; [by apply (calculateCH_ok e g n Emax B Hroom ns Hco Hn0 rnd ids) |]. cbv beta.
  intros s (_ & L & X & HL & Hi & Hgone). split; [apply (lv_nodes _ _ _ _ _ _ _ _ Hi) |]. split; [done |]. split; [| split].
  - intros u h d Hu Hw. destruct (way_walk e g n Emax B L X s Hi Hgone u h d Hu Hw) as (Hh & Hwalk & _).
    split; [done |]. split; [done |]. by apply (way_short e g n Emax B L X s Hi Hgone HL u h).
  - intros u v d. by apply (finished_joined e g n Emax B L X s Hi Hgone).
  - intros R. by apply (finished_hierarchy e g n Emax B L X s Hi Hgone).
Qed.

Lemma fresh_labels : 0 <= n -> returns (Labels.initialize n) (fun lab => alen (labelNodes lab) = n /\
  alen (labelEdges lab) = n /\ alen (labelDist lab) = n).
Proof.
  intros H. unfold Labels.initialize, newArray. destruct (Z.ltb_spec n 0); [lia |]. rewrite !bind_ok. ret. cbn.
  by rewrite !alen_replicate.
Qed.

(** What the contraction leaves: its invariant, with no node left. *)
Definition finished (s : Contraction.t D) : Prop :=
  same_coords ns (nodes s) /\
  (exists L X, L <= n /\ level_inv e g n Emax B L X s /\ forall u, 0 <= u < n -> (contracted s).[u] = true) /\
  hierarchy (nodes s) (edges s) (grid s) (Emax * n).

(** What the two steps leave. *)
Definition created (lab : Labels.t) (s : Contraction.t D) : Prop :=
  same_coords ns (nodes s) /\ sized (nodes s) lab /\
  (exists L X, L <= n /\ level_inv e g n Emax B L X s /\ forall u, 0 <= u < n -> (contracted s).[u] = true) /\
  hierarchy (nodes s) (edges s) (grid s) (Emax * n) /\
  forall u, 0 <= u < n -> row_good (nodes s) (edges s) (grid s) lab u.

Lemma calculateCH_finished : 3 * (Emax * n) <= MAX_VALUE -> returns (calculateCH rnd ids ns e g) finished.
Proof.
  intros Hbig. destruct Hn as [Hn0 Hn1]. pose proof (sb_room _ _ _ _ _ (co_search _ _ _ _ _ _ Hco)) as [HE _].
  eapply returns_mono; [by apply (calculateCH_ok e g n Emax B Hroom ns Hco Hn0 rnd ids) |]. cbv beta.
  intros s (Hsame & L & X & HL & Hi & Hgone). split; [done |]. split; [by exists L, X |].
  apply (finished_hierarchy e g n Emax B L X s Hi Hgone); [| lia | done]. by apply (way_short e g n Emax B L X s Hi Hgone).
Qed.

(** The label creation only needs what the contraction leaves, and may be another run of the program. *)
Lemma labelling_ok picks s : finished s ->
  returns (lab ← Labels.initialize (getNodeCount (nodes s)); calcLabels (nodes s) (edges s) (grid s) picks lab)
    (fun lab => created lab s).
Proof.
  intros (Hsame & (L & X & HL & Hi & Hgone) & Hh). destruct Hn as [Hn0 _]. pose proof (lv_nodes _ _ _ _ _ _ _ _ Hi) as En.
  eapply returns_bind; [rewrite En; by apply fresh_labels |]. cbv beta. intros lab Hsize.
  eapply returns_mono.
  { apply (calcLabels_good (nodes s) (edges s) (grid s) (Emax * n) Hh picks lab). unfold sized. by rewrite En. }
  cbv beta. intros lab' [Hsize' Hgood]. rewrite En in Hgood. split; [done |]. split; [done |].
  split; [by exists L, X | done].
Qed.

Lemma createLabels_ok picks : 3 * (Emax * n) <= MAX_VALUE ->
  returns (createLabels rnd picks ids ns e g) (fun '(lab, s) => created lab s).
Proof.
  intros Hbig. unfold createLabels. eapply returns_bind; [by apply calculateCH_finished |]. cbv beta. intros s Hs.
  destruct (returns_elim _ _ (labelling_ok picks s Hs)) as (lab & E & Hlab).
  destruct (Labels.initialize _) as [lab0 |]; [| done].
  rewrite bind_ok in E. rewrite bind_ok, E, bind_ok. by ret.
Qed.

Lemma label_walk lab s u h a : created lab s -> 0 <= u < n -> label lab u h a ->
  way (nodes s) (edges s) (grid s) u h a /\ cwalk e g u h a /\ 0 <= h < n.
Proof.
  intros (_ & _ & (L & X & HL & Hi & Hgone) & _ & Hgood) Hu Hlab. pose proof (rg_sound _ _ _ _ _ (Hgood u Hu) _ _ Hlab) as Hw.
  destruct (way_walk e g n Emax B L X s Hi Hgone u h a Hu Hw) as (? & ? & _). done.
Qed.

Lemma labels_meet lab s u v d : created lab s -> 0 <= u < n -> 0 <= v < n -> cwalk e g u v d -> exists h a b,
  label lab u h a /\ label lab v h b /\ a + b <= d.
Proof.
  intros (_ & _ & (L & X & HL & Hi & Hgone) & Hh & Hgood) Hu Hv Hw. pose proof (lv_nodes _ _ _ _ _ _ _ _ Hi) as En.
  destruct (finished_joined e g n Emax B L X s Hi Hgone u v d Hu Hv Hw) as (h & a & b & Hwu & Hwv & Hle).
  destruct (cover_ok (nodes s) (edges s) (grid s) (Emax * n) Hh lab u v) with (h := h) (a := a) (b := b)
    as (h' & a' & b' & ? & ? & ?); rewrite ?En; try done.
  exists h', a', b'. split; [done |]. split; [done | lia].
Qed.
End labels.

(** ** Properties *)

(** C3: The preprocessing is exact: from a simple symmetric graph, whatever order the nodes are
    shuffled into and however the label threads interleave, contraction and label creation end
    without an exception, and for any two nodes that a walk connects, the least sum of the
    distances of two labels with the same hub is their distance. *)
Theorem createLabels_exact {D} e g n Emax B (ns : Nodes D) rnd picks ids l u v d :
  contractible e g n Emax B ns -> 2 * n <= B -> 2 * B <= MAX_VALUE -> 3 * (Emax * n) <= MAX_VALUE ->
  0 <= n -> n <> 1 -> (forall i, 0 <= i < n -> 0 <= rnd i < n - 1) -> IntArrayList.repr ids l ->
  0 <= u < n -> 0 <= v < n -> distance e g u v d ->
  returns (createLabels rnd picks ids ns e g) (fun '(lab, _) =>
    (exists h a b, label lab u h a /\ label lab v h b /\ a + b = d) /\
    (forall h a b, label lab u h a -> label lab v h b -> d <= a + b)).
Proof.
  intros Hco HB1 HB2 Hbig Hn Hn1 Hrnd Hids Hu Hv [Hw Hleast].
  eapply returns_mono; [by apply (createLabels_ok e g n Emax B ns (conj HB1 HB2) Hco (conj Hn Hn1) rnd Hrnd ids (ex_intro _ l Hids) picks) |].
  cbv beta. intros [lab s] Hc.
  assert (forall h a b, label lab u h a -> label lab v h b -> d <= a + b) as Hge.
  { intros h a b Ha Hb. destruct (label_walk e g n Emax B ns lab s u h a Hc Hu Ha) as (_ & Hwa & _).
    destruct (label_walk e g n Emax B ns lab s v h b Hc Hv Hb) as (_ & Hwb & _).
    apply Hleast. eapply cwalk_trans; [exact Hwa |]. by apply (cwalk_rev e g n Emax Emax (co_search _ _ _ _ _ _ Hco)). }
  split; [| done]. destruct (labels_meet e g n Emax B ns (conj Hn Hn1) lab s u v d Hc Hu Hv Hw) as (h & a & b & Ha & Hb & Hle).
  exists h, a, b. split; [done |]. split; [done |]. specialize (Hge h a b Ha Hb). lia.
Qed.

(** C7: The contraction ends, with every node contracted, whatever order the nodes are shuffled
    into; upward ways are walks of the original graph, and two nodes that a walk connects have
    upward ways to a common node that are together no longer than the walk. *)
Theorem calculateCH_joins {D} e g n Emax B (ns : Nodes D) rnd ids l :
  contractible e g n Emax B ns -> 2 * n <= B -> 2 * B <= MAX_VALUE ->
  0 <= n -> n <> 1 -> (forall i, 0 <= i < n -> 0 <= rnd i < n - 1) -> IntArrayList.repr ids l ->
  returns (calculateCH rnd ids ns e g) (joins e g n Emax).
Proof.
  intros Hco HB1 HB2 Hn Hn1 Hrnd Hids.
  apply (contraction_joins e g n Emax B ns (conj HB1 HB2) Hco (conj Hn Hn1) rnd Hrnd ids (ex_intro _ l Hids)).
Qed.

(** With a single node the shuffle asks for a random number below 0. *)
Lemma calculateCH_single {D} (ns : Nodes D) rnd ids e g : getNodeCount ns = 1 ->
  calculateCH rnd ids ns e g = Err IllegalArgument.
Proof. intros E. unfold calculateCH. by rewrite E. Qed.

(** ** Witness: the path 1 - 0 - 2, node 0 contracted first *)

Definition pathNodes : Nodes Z := mkNodes [0; 0; 0] [0; 0; 0] [0; 0; 0].
Definition pathStore : Edges.t := Edges.mk [1; 0; 0; 2] [0; 1; 2; 0] [5; 5; 7; 7] 4 [0; 0] [0; 0] [0; 0] [0; 0; 0; 0] 4 2.
Definition pathRows : DynamicGrid.t := DynamicGrid.mk
  [Some [1; 2; 0; 0]; Some [0; 0; 0; 0]; Some [3; 0; 0; 0]] [2; 1; 1]
  [Some [1; 2; 0; 0]; Some [0; 0; 0; 0]; Some [3; 0; 0; 0]] [2; 1; 1].
Definition pathIds : IntArrayList.t := IntArrayList.mk [0; 0] 0 2.
Definition centreFirst (i : Z) : Z := if i =? 0 then 0 else 1.

(** Where the nodes lie on a line. *)
Definition place (u : Z) : Z := if u =? 0 then 5 else if u =? 1 then 0 else 12.

(** The edges of a node, with where they lead and their distance. *)
Lemma path_rows u x : 0 <= u < 3 -> x ∈ current pathRows u -> exists v w, dst pathStore x = v /\ weight pathStore x = w /\
  ((u = 0 /\ x = 1 /\ v = 1 /\ w = 5) \/ (u = 0 /\ x = 2 /\ v = 2 /\ w = 7) \/ (u = 1 /\ x = 0 /\ v = 0 /\ w = 5) \/
   (u = 2 /\ x = 3 /\ v = 0 /\ w = 7)).
Proof.
  intros Hu Hx. eexists _, _. split; [reflexivity |]. split; [reflexivity |].
  assert (u = 0 \/ u = 1 \/ u = 2) as [-> | [-> | ->]] by lia; apply list_elem_of_In in Hx; vm_compute in Hx;
    repeat (destruct Hx as [<- | Hx]); try done; tauto.
Qed.

(** No walk is shorter than the line. *)
Lemma path_walk u v d : 0 <= u < 3 -> cwalk pathStore pathRows u v d -> 0 <= v < 3 /\ Z.abs (place v - place u) <= d.
Proof.
  intros Hu. induction 1 as [| w d x Hw [Hwn IH] Hx]; [split; [done | lia] |].
  destruct (path_rows w x Hwn Hx) as (v & c & -> & -> & Hcase).
  destruct Hcase as [(-> & _ & -> & ->) | [(-> & _ & -> & ->) | [(-> & _ & -> & ->) | (-> & _ & -> & ->)]]];
    (split; [lia |]); unfold place in *; cbn in *; lia.
Qed.

Lemma path_reached u v : 0 <= u < 3 -> 0 <= v < 3 -> cwalk pathStore pathRows u v (Z.abs (place v - place u)).
Proof.
  assert (forall u v d x y, x ∈ current pathRows u -> dst pathStore x = v -> weight pathStore x = y -> d = y ->
    cwalk pathStore pathRows u v d) as Hone.
  { intros u0 v0 d x y Hx <- <- ->. by apply cwalk_edge. }
  assert (H10 : cwalk pathStore pathRows 1 0 5) by (apply (Hone _ _ _ 0 5); [apply list_elem_of_In; vm_compute; tauto | done ..]).
  assert (H01 : cwalk pathStore pathRows 0 1 5) by (apply (Hone _ _ _ 1 5); [apply list_elem_of_In; vm_compute; tauto | done ..]).
  assert (H02 : cwalk pathStore pathRows 0 2 7) by (apply (Hone _ _ _ 2 7); [apply list_elem_of_In; vm_compute; tauto | done ..]).
  assert (H20 : cwalk pathStore pathRows 2 0 7) by (apply (Hone _ _ _ 3 7); [apply list_elem_of_In; vm_compute; tauto | done ..]).
  intros Hu Hv. assert (u = 0 \/ u = 1 \/ u = 2) as [-> | [-> | ->]] by lia; assert (v = 0 \/ v = 1 \/ v = 2) as [-> | [-> | ->]] by lia;
    first [exact (cw_here _ _ _) | assumption
      | exact (cwalk_trans _ _ _ _ _ _ _ H10 H02) | exact (cwalk_trans _ _ _ _ _ _ _ H20 H01)].
Qed.

Lemma path_grid : grid_ok pathRows 3.
Proof.
  assert (table_ok [Some [1; 2; 0; 0]; Some [0; 0; 0; 0]; Some [3; 0; 0; 0]] [2; 1; 1] 3); [| by split].
  split; [done | done |]. apply three; right; eexists; (split; [reflexivity |]); vm_compute; repeat split; discriminate.
Qed.

Lemma path_searchable : searchable pathStore pathRows 3 12 12.
Proof.
  split.
  - apply path_grid.
  - done.
  - intros u x Hu Hx. destruct (path_rows u x Hu Hx) as (v & c & -> & -> & Hcase).
    destruct Hcase as [(-> & -> & -> & ->) | [(-> & -> & -> & ->) | [(-> & -> & -> & ->) | (-> & -> & -> & ->)]]];
      (split; [reflexivity |]); (split; [reflexivity |]); lia.
  - refine (three _ _ _ _); apply NoDup_ListNoDup; vm_compute; repeat constructor; cbn; lia.
  - intros u x Hu Hx. destruct (path_rows u x Hu Hx) as (v & c & -> & -> & Hcase).
    destruct Hcase as [(-> & -> & -> & ->) | [(-> & -> & -> & ->) | [(-> & -> & -> & ->) | (-> & -> & -> & ->)]]];
      [exists 0 | exists 3 | exists 1 | exists 2]; (split; [apply list_elem_of_In; vm_compute; tauto | done]).
  - intros a u d Ha Hw. destruct (path_walk a u d Ha Hw) as [Hu _]. exists (Z.abs (place u - place a)).
    split; [by apply path_reached |]. unfold place. repeat case_match; lia.
  - done.
Qed.

Lemma path_graph {D} (ns : Nodes D) : getNodeCount ns = 3 -> alen (nLevels ns) = 3 -> contractible pathStore pathRows 3 12 8 ns.
Proof.
  intros Hcount Hlev. split.
  - apply path_searchable.
  - intros u x Hu Hx c d1 d2 Hcu Hcx H1 H2. destruct (path_walk u c d1 Hu H1) as [Hc Hd1].
    destruct (path_walk c _ d2 Hc H2) as [_ Hd2]. destruct (path_rows u x Hu Hx) as (v & w & Ev & Ew & Hcase). rewrite Ev, Ew in *.
    assert (c = 0 \/ c = 1 \/ c = 2) as Hcc by lia.
    destruct Hcase as [(-> & _ & -> & ->) | [(-> & _ & -> & ->) | [(-> & _ & -> & ->) | (-> & _ & -> & ->)]]];
      destruct Hcc as [-> | [-> | ->]]; unfold place in *; cbn in *; lia.
  - refine (three _ _ _ _); reflexivity.
  - intros u x Hu Hx. destruct (path_rows u x Hu Hx) as (v & w & _ & _ & Hcase). cbn. lia.
  - refine (three _ _ _ _); split; eexists; (split; [reflexivity |]); vm_compute; repeat split; discriminate.
  - intros u x Hu Hx. destruct (path_rows u x Hu Hx) as (v & w & _ & _ & Hcase).
    destruct Hcase as [(-> & -> & _) | [(-> & -> & _) | [(-> & -> & _) | (-> & -> & _)]]]; done.
  - split; [| done | constructor | intros sc Hsc; by apply elem_of_nil in Hsc
      | intros k Hk; unfold alen in Hk; cbn in Hk; lia | done].
    unfold Edges.models. split_and!; try done. intros k Hk. unfold alen in Hk. cbn in Hk. lia.
  - done.
Qed.

Lemma path_contractible : contractible pathStore pathRows 3 12 8 pathNodes.
Proof. by apply path_graph. Qed.

Lemma path_distance : distance pathStore pathRows 1 2 12.
Proof.
  split; [by apply (path_reached 1 2) |]. intros d Hw. destruct (path_walk 1 2 d ltac:(lia) Hw) as [_ H].
  unfold place in H. cbn in H. lia.
Qed.

Lemma centreFirst_ok i : 0 <= i < 3 -> 0 <= centreFirst i < 3 - 1.
Proof. intros Hi. unfold centreFirst. case_match; lia. Qed.

Lemma pathIds_ok : IntArrayList.repr pathIds [].
Proof. split; [done |]. split; [by eexists | done]. Qed.

(** The centre gets level 0 and the shortcut 1 - 2 of length 12 is added; then every label is exact. *)
Lemma createLabels_exact_witness :
  match createLabels centreFirst (fun _ => []) pathIds pathNodes pathStore pathRows with
  | Ok (lab, s) => nLevels (nodes s) = [0; 2; 1] /\ everEdge (grid s) 1 = [0; 4] /\ dst (edges s) 4 = 2 /\
      labelNodes lab = [Some [0; 1; 2]; Some [1]; Some [1; 2]] /\ labelDist lab = [Some [0; 5; 7]; Some [0]; Some [12; 0]]
  | Err _ => False
  end /\
  returns (createLabels centreFirst (fun _ => []) pathIds pathNodes pathStore pathRows) (fun '(lab, _) =>
    (exists h a b, label lab 1 h a /\ label lab 2 h b /\ a + b = 12) /\
    (forall h a b, label lab 1 h a -> label lab 2 h b -> 12 <= a + b)).
Proof.
  split; [vm_compute; repeat split; reflexivity |].
  apply (createLabels_exact pathStore pathRows 3 12 8 pathNodes centreFirst (fun _ => []) pathIds [] 1 2 12);
    [apply path_contractible | lia | done | done | lia | lia | apply centreFirst_ok | apply pathIds_ok | lia | lia | apply path_distance].
Defined.

Lemma calculateCH_joins_witness : contractible pathStore pathRows 3 12 8 pathNodes /\
  returns (calculateCH centreFirst pathIds pathNodes pathStore pathRows) (joins pathStore pathRows 3 12).
Proof.
  split; [apply path_contractible |].
  apply (calculateCH_joins pathStore pathRows 3 12 8 pathNodes centreFirst pathIds []);
    [apply path_contractible | lia | done | lia | lia | apply centreFirst_ok | apply pathIds_ok].
Defined.

Lemma path_startable : startable pathStore pathRows 3
  (mk [false; false; false] [false; false; false] [None; None; None] [0; 2; 1] pathIds 3 pathNodes pathStore pathRows).
Proof.
  split; try done; cbn.
  - apply pathIds_ok.
  - refine (three _ _ _ _); reflexivity.
  - change (seqZ 0 3) with [0; 1; 2]. apply Permutation_skip, Permutation_swap.
Qed.

Lemma selectNode_independent_witness :
  let s0 := mk [false; false; false] [false; false; false] [None; None; None] [0; 2; 1] pathIds 3 pathNodes pathStore pathRows in
  match forRange 0 3 (selectNode 7) s0 with
  | Ok s => contracted s = [true; false; false] /\ isNeighbour s = [true; true; true] /\ nLevels (nodes s) = [7; 0; 0]
  | Err _ => False
  end /\
  returns (forRange 0 3 (selectNode 7) s0) (fun s => exists S, IntArrayList.repr (nodesToCalc s) S /\ NoDup S /\
    (forall v, v ∈ S -> 0 <= v < 3 /\ (contracted s0).[v] = false) /\
    (forall v w, v ∈ S -> w ∈ S -> ~ adjacent pathStore pathRows v w) /\ maximal pathStore pathRows 3 s0 S /\
    nonContractedNum s = nonContractedNum s0 - alen S /\
    forall u, 0 <= u < 3 -> ((contracted s).[u] = true <-> (contracted s0).[u] = true \/ u ∈ S) /\
      (nLevels (nodes s)).[u] = if decide (u ∈ S) then 7 else (nLevels (nodes s0)).[u]).
Proof.
  split; [vm_compute; repeat split; reflexivity |].
  apply (selectNode_independent pathStore pathRows 3 12 12 7); [apply path_searchable | apply path_startable | lia].
Defined.

Lemma run_shortcuts_witness :
  match (th ← CHDijkstra.new; th ← forEach [0] (fun v th => addNodeId th v) th; run pathStore pathRows th) with
  | Ok th => take 10 (IntArrayList.elements (shortcuts th)) = [1; 2; 12; 2; 0; 2; 1; 12; 1; 3]
  | Err _ => False
  end /\
  returns (th ← CHDijkstra.new; th ← forEach [0] (fun v th => addNodeId th v) th; run pathStore pathRows th) (fun th =>
    exists new, IntArrayList.repr (shortcuts th) (flat new) /\ shortcuts_over_all pathStore pathRows 3 [0] new).
Proof.
  split; [vm_compute; reflexivity |].
  apply (run_shortcuts pathStore pathRows 3 12 12 [0]); [apply path_searchable |].
  intros v ->%list_elem_of_singleton. lia.
Defined.

Definition pathSet : option IntArraySet.t := Some (IntArraySet.mk [MAX_VALUE] 0 20).
Definition pathState : Contraction.t Z := mk [false; false; false] [false; false; false]
  [pathSet; pathSet; pathSet] [0; 2; 1] pathIds 3 pathNodes pathStore pathRows.

Lemma path_level : level_inv pathStore pathRows 3 12 8 0 (fun _ _ => False) pathState.
Proof.
  apply (start_inv pathStore pathRows 3 12 8 pathNodes path_contractible); try done.
  - refine (three _ _ _ _); reflexivity.
  - assert (IntArraySet.wf (IntArraySet.mk [MAX_VALUE] 0 20) []) as Hwf.
    { split; [done |]. split; [apply sorted_ids_nil |]. split; [by exists 1%nat | done]. }
    refine (three _ _ _ _); by eexists.
  - change (seqZ 0 3) with [0; 1; 2]. apply Permutation_skip, Permutation_swap.
  - exists []. apply pathIds_ok.
Qed.

(** Contracting the centre leaves the nodes 1 and 2, with the shortcuts between them. *)
Lemma calcNextLvl_keeps_witness :
  match calcNextLvl 0 pathState with
  | Ok s => contracted s = [true; false; false] /\ current (grid s) 1 = [4] /\ current (grid s) 2 = [5]
  | Err _ => False
  end /\
  returns (calcNextLvl 0 pathState) (fun s' => (exists X', level_inv pathStore pathRows 3 12 8 (0 + 1) X' s') /\
    keeps_distances 3 pathState s' /\ (0 < nonContractedNum pathState -> nonContractedNum s' < nonContractedNum pathState)).
Proof.
  split; [vm_compute; repeat split; reflexivity |].
  apply (calcNextLvl_keeps pathStore pathRows 3 12 8 0 (fun _ _ => False)); [lia | done | apply path_level | lia].
Defined.
