(* ===== verification/Controller.v ===== *)
(** * rest/RoutingController.java, router/Router.java, RoutingRequest.java and LatLong.java

    The request handler of the server.  [Router] is the interface that the handler calls; its
    contract is [RouterLaws], the handler is proved against it, and both routers meet it.  The
    static fields that the handler and the routers read are a [world].

    A call that throws leaves no state behind here; the Java handler keeps a router that was
    created before the exception, which the next request would create in the same way. *)

From S2P Require Import Prelude Doubles RoutingResult DijkstraGrid DijkstraHeap.
From S2P Require Import DijkstraRouter HubLEdges HubLNodes HubLRouter HubLRoute Grid.

(** ** Requests, responses and the interface [Router] *)

Section data.
Context {D : Type}.

Record LatLong := mkLatLong { latitude : D; longitude : D }.
Record RoutingRequest := mkRequest { startPoint : option LatLong; endPoint : option LatLong }.

Inductive response :=
| BadRequest (body : string)
| OK (body : RoutingResult.t D).
End data.
Arguments LatLong : clear implicits.
Arguments RoutingRequest : clear implicits.
Arguments response : clear implicits.

Class Router (D R : Type) := {
  newRouter : res R;
  route : nat -> D -> Z -> Z -> R -> res (RoutingResult.t D * R);
}.

Definition noStart : string := "Start position is not on the ocean!".
Definition noDestination : string := "Destination position is not on the ocean!".
Definition samePosition : string := "Destination position is equal to start position!".

(** ** The handlers *)

Section controller.
Context {D R : Type} `{!JDouble D} `{!Router D R} (nearest : D -> D -> res Z).

(** The field [router] is filled by the first request. *)
Definition ensureRouter (router : option R) : res R :=
  match router with Some r => Ok r | None => newRouter end.

Definition lookup (p : option (LatLong D)) : res Z :=
  p ← deref p; nearest (latitude p) (longitude p).

Definition getRoutingResult (fuel : nat) (time : D) (rq : RoutingRequest D) (router : option R)
    : res (option (RoutingResult.t D) * R) :=
  r ← ensureRouter router;
  startNodeId ← lookup (startPoint rq);
  destNodeId ← lookup (endPoint rq);
  if startNodeId <? 0 then Ok (None, r) else
  if destNodeId <? 0 then Ok (None, r) else
  if startNodeId =? destNodeId then Ok (Some (newEmpty (dofZ (-1))), r) else
  '(result, r) ← route fuel time startNodeId destNodeId r;
  Ok (Some result, r).

Definition getRoute (fuel : nat) (time : D) (rq : RoutingRequest D) (router : option R)
    : res (response D * R) :=
  r ← ensureRouter router;
  startNodeId ← lookup (startPoint rq);
  destNodeId ← lookup (endPoint rq);
  if startNodeId <? 0 then Ok (BadRequest noStart, r) else
  if destNodeId <? 0 then Ok (BadRequest noDestination, r) else
  if startNodeId =? destNodeId then Ok (BadRequest samePosition, r) else
  '(result, r) ← route fuel time startNodeId destNodeId r;
  Ok (OK result, r).
End controller.

(** ** The static state, and the routers as implementations of [Router] *)

Section world.
Context {D : Type} `{!JDouble D}.

(** [offset] is null until a grid file was imported; so are the arrays of [Node] and [Edge]. *)
Record world := mkWorld {
  useHLRouter : bool;
  offset : option (list Z);
  node : Node D;
  edge : Edge;
  hublNodes : HubLNodes.t D;
  hublEdges : HubLEdges.t;
}.

Context (w : world).

Definition gridOf (off : list Z) : graph := mkGraph (nodeSize (node w)) off (edge w).

(** [SearouterApplication.main] sets the flag of the results to the flag of the controller. *)
Definition coordinatesOf : coordinates D := {|
  useHubLabelRouter := useHLRouter w;
  nodeCoord i := la ← getLatitude (node w) i; lo ← getLongitude (node w) i; Ok (la, lo);
  hubLNodesCoord i := la ← getLat (hublNodes w) i; lo ← getLong (hublNodes w) i; Ok (la, lo);
|}.

Inductive router := HubL (r : HubLRouter.t) | Dijkstra (r : DijkstraRouter.t).

(** [new HubLRouter()] or [new DijkstraRouter()], and the virtual call of [route]. *)
#[export] Instance theRouter : Router D router := {|
  newRouter :=
    if useHLRouter w then r ← HubLRouter.new; Ok (HubL r)
    else _ ← deref (offset w); r ← DijkstraRouter.new (nodeSize (node w)); Ok (Dijkstra r);
  route fuel time s d r :=
    match r with
    | HubL r =>
        '(result, r) ← HubLRouter.route (dofZ 0) (dofZ (-1)) coordinatesOf (hublNodes w) (hublEdges w)
                         fuel time s d r;
        Ok (result, HubL r)
    | Dijkstra r =>
        off ← deref (offset w);
        '(result, r) ← DijkstraRouter.route coordinatesOf time (gridOf off) r s d;
        Ok (result, Dijkstra r)
    end;
|}.

Definition nearestNode (lat lon : D) : res Z :=
  getNearestGridNodeByCoordinates (offset w) (node w) (hublNodes w) lat lon.

(** One request to the server. *)
Definition serve (fuel : nat) (time : D) (rq : RoutingRequest D) (router : option router) :=
  getRoute nearestNode fuel time rq router.
End world.
Arguments world : clear implicits.

(** ** The contract of a router *)

(** The nodes a router serves, their coordinates, and the routes between them. *)
Record contract (D : Type) := mkContract {
  isNode : Z -> Prop;
  coordOf : Z -> list D;
  isRoute : Z -> Z -> list Z -> Z -> Prop;
}.
Arguments mkContract {D}.
Arguments isNode {D}.
Arguments coordOf {D}.
Arguments isRoute {D}.

(** [res] answers a request from [s] to [d]: a shortest route with its coordinates, or that there
    is no route. *)
Definition answered {D} (k : contract D) (s d : Z) (res : RoutingResult.t D) : Prop :=
  if routeFound res then
    exists p, path res = Some p /\ pathCoordinates res = Some (coordOf k <$> p) /\
      isRoute k s d p (overallDistance res) /\
      forall p' w, isRoute k s d p' w -> overallDistance res <= w
  else forall p w, ~ isRoute k s d p w.

Class RouterLaws {D R} `{!Router D R} (ready : R -> Prop) (k : contract D) : Prop := {
  new_ready : returns newRouter ready;
  route_ready time s d r : ready r -> isNode k s -> isNode k d -> exists N, forall fuel, (N <= fuel)%nat ->
    returns (route fuel time s d r) (fun '(res, r') => ready r' /\
      calculationTimeInMs res = time /\ answered k s d res);
}.

(** ** The handler against the contract *)

Section handler.
Context {D R : Type} `{!JDouble D} `{!Router D R} (nearest : D -> D -> res Z).
Context (ready : R -> Prop) (k : contract D) `{!RouterLaws ready k}.

Definition router_ready (router : option R) : Prop := forall r, router = Some r -> ready r.

Lemma ensureRouter_ok router : router_ready router -> returns (ensureRouter (D := D) router) ready.
Proof. destruct router as [r |]; intros H; [ret; by apply H | apply new_ready]. Qed.

(** What the handler answers to a request whose points have the nearest nodes [s] and [d]. *)
Definition responds (s d : Z) (resp : response D) : Prop :=
  match resp with
  | BadRequest body =>
      (body = noStart /\ s < 0) \/ (body = noDestination /\ 0 <= s /\ d < 0) \/
      (body = samePosition /\ 0 <= s /\ s = d)
  | OK result => 0 <= s /\ 0 <= d /\ s <> d /\ answered k s d result
  end.

Lemma getRoute_ok time p q s d router : router_ready router ->
  nearest (latitude p) (longitude p) = Ok s -> nearest (latitude q) (longitude q) = Ok d ->
  (0 <= s -> isNode k s) -> (0 <= d -> isNode k d) ->
  exists N, forall fuel, (N <= fuel)%nat ->
  returns (getRoute nearest fuel time (mkRequest (Some p) (Some q)) router) (fun '(resp, r') =>
    ready r' /\ responds s d resp).
Proof.
  intros Hr Es Ed Hs Hd. destruct (returns_elim _ _ (ensureRouter_ok router Hr)) as (r & Er & Hr').
  assert (exists N, forall fuel, (N <= fuel)%nat -> 0 <= s -> 0 <= d ->
    returns (route fuel time s d r) (fun '(res, r') => ready r' /\ calculationTimeInMs res = time /\ answered k s d res))
    as [N HN].
  { destruct (decide (0 <= s /\ 0 <= d)) as [[Hs0 Hd0] | Hno]; [| exists 0%nat; intros; lia].
    destruct (route_ready time s d r Hr' (Hs Hs0) (Hd Hd0)) as [N HN]. exists N. intros. by apply HN. }
  exists N. intros fuel Hfuel. unfold getRoute, lookup. rewrite Er, bind_ok. cbn [deref startPoint endPoint].
  rewrite !bind_ok, Es, bind_ok, Ed, bind_ok.
  destruct (Z.ltb_spec s 0); [ret; split; [done |]; by left |].
  destruct (Z.ltb_spec d 0); [ret; split; [done |]; right; by left |].
  destruct (Z.eqb_spec s d); [ret; split; [done |]; right; by right |].
  eapply returns_bind; [by apply HN |]. cbv beta. intros [res r'] (Hready & _ & Ha). ret. done.
Qed.
End handler.

(** ** The two routers meet the contract *)

Section laws.
Context {D : Type} `{!JDouble D} (w : world D).

Definition dijkstraContract : contract D :=
  let off := default [] (offset w) in
  mkContract (fun v => 0 <= v < nodeSize (node w))
    (fun v => [(DijkstraGrid.latitude (node w)).[v]; (DijkstraGrid.longitude (node w)).[v]])
    (fun s d p x => walk (gridOf w off) s p d x).

(** A grid was imported, and no route overflows. *)
Record dijkstra_world (W Emax : Z) : Prop := {
  dw_flag : useHLRouter w = false;
  dw_coord : alen (DijkstraGrid.longitude (node w)) = nodeSize (node w);
  dw_grid : exists off, offset w = Some off /\ graph_ok (gridOf w off) W /\
    (forall s, 0 <= s < nodeSize (node w) -> eccentricity_le (gridOf w off) s Emax);
  dw_room : Emax + W < MAX_VALUE;
}.

Definition dijkstra_ready (r : router) : Prop :=
  exists r', r = Dijkstra r' /\ router_ok (gridOf w (default [] (offset w))) r'.

Lemma dijkstra_new_ok g n : size g = n -> 0 <= n -> returns (DijkstraRouter.new n) (router_ok g).
Proof.
  intros En Hn. unfold DijkstraRouter.new, newArray. destruct (Z.ltb_spec n 0); [lia |]. rewrite !bind_ok.
  eapply returns_bind; [by apply DijkstraHeap.new_spec |]. cbv beta. intros h Hh. ret. rewrite <-En in *.
  unfold router_ok. cbn. rewrite !alen_fill, !alen_replicate by done. done.
Qed.

Lemma dijkstra_laws W Emax : dijkstra_world W Emax ->
  @RouterLaws D router (theRouter w) dijkstra_ready dijkstraContract.
Proof.
  intros [Hflag Hcoord (off & Eoff & Hg & Hecc) Hroom].
  assert (dijkstra_ready = fun r => exists r', r = Dijkstra r' /\ router_ok (gridOf w off) r') as Er.
  { unfold dijkstra_ready. by rewrite Eoff. }
  unfold dijkstraContract. rewrite Er, Eoff. cbn [default]. split.
  - cbn [newRouter theRouter]. rewrite Hflag, Eoff. cbn [deref]. rewrite bind_ok.
    eapply returns_bind; [by apply (dijkstra_new_ok (gridOf w off)); [| apply alen_nonneg] |].
    cbv beta. intros r Hr. ret. by exists r.
  - intros time s d r (r' & -> & Hr) Hs Hd. exists 0%nat. intros fuel _. cbn [route theRouter].
    rewrite Eoff. cbn [deref]. rewrite bind_ok.
    eapply returns_bind; [apply (route_correct (gridOf w off) W Emax Hg Hroom s Hs (Hecc s Hs) (coordinatesOf w)
        (fun v => [(DijkstraGrid.latitude (node w)).[v]; (DijkstraGrid.longitude (node w)).[v]])); [done | done |] |].
    + intros x Hx. change (size (gridOf w off)) with (nodeSize (node w)) in Hx.
      unfold RoutingResult.coordOf. cbn [coordinatesOf useHubLabelRouter nodeCoord]. rewrite Hflag. cbn [negb].
      unfold getLatitude, getLongitude, nodeSize in *. rewrite (aget_ok (DijkstraGrid.latitude _)) by lia.
      by rewrite (aget_ok (DijkstraGrid.longitude _)) by lia.
    + cbv beta. intros [res r1] (Hr1 & Ht & Hres). ret. split; [by exists r1 |]. split; [done |].
      unfold answered. destruct (routeFound res).
      * destruct Hres as (p & Hp & Hpc & _ & Hw & Hmin). by exists p.
      * destruct Hres as [_ Hno]. intros p x Hx. apply Hno. by exists p, x.
Qed.

Definition hubContract (src : Z -> Z) : contract D :=
  mkContract (HubLRoute.node_id (hublNodes w))
    (fun v => [(latitudes (hublNodes w)).[v]; (longitudes (hublNodes w)).[v]])
    (fun s d p x => linked (original (hublEdges w) src) p x /\ head p = Some s /\ last p = Some d).

(** The precomputed data was read: all nodes have labels, which cover the routes. *)
Record hub_world (src rank : Z -> Z) (Dmax : Z) : Prop := {
  hw_flag : useHLRouter w = true;
  hw_offset : offset w = None;
  hw_count : alen (labelOffset (hublNodes w)) = getNumOfNodes (hublNodes w) + 1;
  hw_coord : alen (latitudes (hublNodes w)) = getNumOfNodes (hublNodes w);
  hw_edges : edges_ok (hublEdges w) src;
  hw_sound : labels_sound (hublNodes w) (hublEdges w) src rank Dmax;
  hw_room : 2 * Dmax < MAX_VALUE;
  hw_dest : forall e, edge_id (hublEdges w) e -> HubLRoute.node_id (hublNodes w) (dest (hublEdges w)).[e];
  hw_labels : forall v, HubLRoute.node_id (hublNodes w) v -> nodeHasLabels (hublNodes w) v = Ok true;
  hw_cover : forall s d p x, HubLRoute.node_id (hublNodes w) s -> HubLRoute.node_id (hublNodes w) d ->
    isRoute (hubContract src) s d p x ->
    exists i j h, labelAt (hublNodes w) s i h /\ labelAt (hublNodes w) d j h /\
      (labelDist (hublNodes w)).[i] + (labelDist (hublNodes w)).[j] <= x;
}.

Definition hub_ready (r : router) : Prop := exists r', r = HubL r' /\ stacks_ok r'.

Lemma hub_new_ok : returns HubLRouter.new stacks_ok.
Proof.
  assert (returns newSide (fun _ => True)) as Hside by (by vm_compute). unfold HubLRouter.new.
  eapply returns_bind; [apply (DistanceHeap.queue_new_spec 1000 1000); lia |]. cbv beta. intros h _.
  eapply returns_bind; [apply (DistanceHeap.queue_new_spec 1000 1000); lia |]. cbv beta. intros lh _.
  eapply returns_bind; [apply (IntStack.stack_repr_new 5000); lia |]. cbv beta. intros rn Hrn.
  eapply returns_bind; [apply (IntStack.stack_repr_new 500); lia |]. cbv beta. intros er Her.
  eapply returns_bind; [apply (IntStack.stack_repr_new 500); lia |]. cbv beta. intros el Hel.
  eapply returns_bind; [apply (IntStack.stack_repr_new 10); lia |]. cbv beta. intros ec Hec.
  eapply returns_bind; [exact Hside |]. cbv beta. intros l _.
  eapply returns_bind; [exact Hside |]. cbv beta. intros r _. ret. unfold stacks_ok. eauto 10.
Qed.

Lemma hub_data_of src rank Dmax : hub_world src rank Dmax ->
  hub_data (coordinatesOf w) (coordOf (hubContract src)) (hublNodes w) (hublEdges w) src rank Dmax.
Proof.
  intros []. split; try done. intros x Hx. unfold RoutingResult.coordOf.
  cbn [coordinatesOf useHubLabelRouter hubLNodesCoord]. rewrite hw_flag0. cbn [negb].
  unfold HubLRoute.node_id, getLat, getLong, getNumOfNodes in *.
  rewrite (aget_ok (latitudes _)) by lia. by rewrite (aget_ok (longitudes _)) by lia.
Qed.

Lemma hub_laws src rank Dmax : hub_world src rank Dmax ->
  @RouterLaws D router (theRouter w) hub_ready (hubContract src).
Proof.
  intros Hw. pose proof (hub_data_of _ _ _ Hw) as Hdata. split.
  - cbn [newRouter theRouter]. rewrite (hw_flag _ _ _ Hw). eapply returns_bind; [apply hub_new_ok |]. cbv beta. intros r Hr. ret. by exists r.
  - intros time s d r (r' & -> & Hr) Hs Hd. cbn [isNode hubContract] in Hs, Hd.
    destruct (route_labels_ok (dofZ 0) (dofZ (-1)) _ _ _ _ _ _ _ time s d r' Hdata Hr Hs Hd
      (hw_labels _ _ _ Hw s Hs) (hw_labels _ _ _ Hw d Hd)) as [N HN].
    exists N. intros fuel Hfuel. cbn [route theRouter].
    eapply returns_bind; [by apply HN |]. cbv beta. intros [res r1] ((H1 & H2 & H3 & H4) & Ht & Hres). ret.
    split; [exists r1; split; [done | unfold stacks_ok; eauto 10] |]. split; [done |].
    unfold answered. destruct (routeFound res).
    + destruct Hres as (i & j & h & p & Hi & Hj & _ & Hmin & Hp & Hpc & Hlink & Hhead & Hlast).
      exists p. split; [done |]. split; [done |]. split; [done |]. intros p' x Hx.
      destruct (hw_cover _ _ _ Hw _ _ _ _ Hs Hd Hx) as (i' & j' & h' & Hi' & Hj' & Hle).
      specialize (Hmin i' j' h' Hi' Hj'). lia.
    + intros p x Hx. destruct (hw_cover _ _ _ Hw _ _ _ _ Hs Hd Hx) as (i & j & h & Hi & Hj & _). by destruct (Hres i j h Hi).
Qed.
End laws.

(** ** The server *)

Section server.
Context {D : Type} `{!JDouble D} `{!DoubleOrder D} (w : world D).
Context (src rank : Z -> Z) (Dmax W Emax : Z).

Definition nodesOf : Z := if useHLRouter w then getNumOfNodes (hublNodes w) else nodeSize (node w).
Definition latOf (i : Z) : D := if useHLRouter w then (latitudes (hublNodes w)).[i] else (DijkstraGrid.latitude (node w)).[i].
Definition longOf (i : Z) : D := if useHLRouter w then (longitudes (hublNodes w)).[i] else (DijkstraGrid.longitude (node w)).[i].

(** Node [i] lies in the plane of integer degrees of the point [p]. *)
Definition near (p : LatLong D) (i : Z) : Prop := inPlane (latitude p) (longitude p) latOf longOf nodesOf i.
Definition far (p : LatLong D) (i : Z) : D := farness (latitude p) (longitude p) latOf longOf i.

(** [v] is a nearest node of the plane; when all are further than the largest double, node 0. *)
Definition closest (p : LatLong D) (v : Z) : Prop :=
  (near p v /\ forall i, near p i -> dlt (far p i) (far p v) = false) \/
  (v = 0 /\ (exists i, near p i) /\ forall i, near p i -> dlt (far p i) dMAX = false).

(** The response to a request from [p] to [q], where a result for the nearest nodes [s] and [d]
    has to be [good]. *)
Definition replied (good : Z -> Z -> RoutingResult.t D -> Prop) (p q : LatLong D) (resp : response D) : Prop :=
  match resp with
  | BadRequest body =>
      (body = noStart /\ forall i, ~ near p i) \/
      (body = noDestination /\ (exists i, near p i) /\ forall i, ~ near q i) \/
      (body = samePosition /\ exists v, closest p v /\ closest q v)
  | OK result => exists s d, closest p s /\ closest q d /\ s <> d /\ good s d result
  end.

Lemma closest_range p v : closest p v -> 0 <= v < nodesOf.
Proof. intros [[[Hv _] _] | (-> & (i & Hi & _) & _)]; [done | lia]. Qed.

Lemma replied_mono (good good' : Z -> Z -> RoutingResult.t D -> Prop) p q resp :
  (forall s d r, 0 <= s < nodesOf -> 0 <= d < nodesOf -> good s d r -> good' s d r) ->
  replied good p q resp -> replied good' p q resp.
Proof.
  intros H. destruct resp as [body | r]; [done |]. intros (s & d & Hs & Hd & Hne & Hr). exists s, d.
  split_and!; try done. by apply H; [eapply closest_range | eapply closest_range |].
Qed.

Definition world_ok : Prop :=
  if useHLRouter w then hub_world w src rank Dmax else dijkstra_world w W Emax.
Definition theContract : contract D := if useHLRouter w then hubContract w src else dijkstraContract w.
Definition server_ready (r : option router) : Prop :=
  forall r', r = Some r' -> if useHLRouter w then hub_ready r' else dijkstra_ready w r'.

Lemma nearestNode_ok p : world_ok -> returns (nearestNode w (latitude p) (longitude p)) (fun v =>
  (v = -1 /\ forall i, ~ near p i) \/ (closest p v /\ 0 <= v < nodesOf)).
Proof.
  unfold world_ok, nearestNode, closest, far, near, latOf, longOf, nodesOf. intros Hw.
  assert (forall lat lon (f g : Z -> D) la lo n, 0 <= n -> (forall i, 0 <= i < n -> la i = Ok (f i)) ->
    (forall i, 0 <= i < n -> lo i = Ok (g i)) -> returns (nearestOf lat lon la lo n) (fun v =>
      (v = -1 /\ forall i, ~ inPlane lat lon f g n i) \/
      (((inPlane lat lon f g n v /\ forall i, inPlane lat lon f g n i ->
           dlt (farness lat lon f g i) (farness lat lon f g v) = false) \/
        (v = 0 /\ (exists i, inPlane lat lon f g n i) /\
           forall i, inPlane lat lon f g n i -> dlt (farness lat lon f g i) dMAX = false)) /\ 0 <= v < n))) as Hgen.
  { intros lat lon f g la lo n Hn Hla Hlo. eapply returns_mono; [by apply (nearestOf_ok lat lon f g)|].
    cbv beta. intros v [? | [(-> & [i Hi] & Hall) | (Hin & _ & Hmin)]]; [by left | right.. ].
    - split; [right; split; [done |]; split; [by exists i | done] |]. destruct Hi. lia.
    - split; [by left | apply Hin]. }
  destruct (useHLRouter w).
  - rewrite (hw_offset _ _ _ _ Hw). cbn [getNearestGridNodeByCoordinates]. pose proof (hw_coord _ _ _ _ Hw).
    unfold getNumOfNodes in *. apply Hgen; [apply alen_nonneg | |]; intros i Hi; apply aget_ok; lia.
  - destruct (dw_grid _ _ _ Hw) as (off & -> & _). cbn [getNearestGridNodeByCoordinates].
    pose proof (dw_coord _ _ _ Hw). unfold nodeSize in *.
    apply Hgen; [apply alen_nonneg | |]; intros i Hi; apply aget_ok; lia.
Qed.

Lemma node_in_contract v : world_ok -> 0 <= v < nodesOf -> isNode theContract v.
Proof.
  unfold world_ok, theContract, nodesOf. destruct (useHLRouter w); intros Hw Hv; [| done].
  cbn. unfold HubLRoute.node_id. rewrite (hw_count _ _ _ _ Hw). lia.
Qed.

Lemma server_laws : world_ok ->
  @RouterLaws D router (theRouter w) (fun r => if useHLRouter w then hub_ready r else dijkstra_ready w r) theContract.
Proof.
  unfold world_ok, theContract. destruct (useHLRouter w); intros Hw; [by eapply hub_laws | by eapply dijkstra_laws].
Qed.
End server.

(** The response in terms of the nearest nodes that the server finds. *)
Lemma serve_responds {D} `{!JDouble D, !DoubleOrder D} (w : world D) src rank Dmax W Emax time p q router :
  world_ok w src rank Dmax W Emax -> server_ready w router ->
  exists s d, nearestNode w (latitude p) (longitude p) = Ok s /\ nearestNode w (latitude q) (longitude q) = Ok d /\
  ((s = -1 /\ forall i, ~ near w p i) \/ (closest w p s /\ 0 <= s < nodesOf w)) /\
  ((d = -1 /\ forall i, ~ near w q i) \/ (closest w q d /\ 0 <= d < nodesOf w)) /\
  exists N, forall fuel, (N <= fuel)%nat ->
  returns (serve w fuel time (mkRequest (Some p) (Some q)) router) (fun '(resp, r') =>
    server_ready w (Some r') /\ responds (theContract w src) s d resp).
Proof.
  intros Hw Hr. pose proof (server_laws w src rank Dmax W Emax Hw) as Hlaws.
  destruct (returns_elim _ _ (nearestNode_ok w src rank Dmax W Emax p Hw)) as (s & Es & Hs).
  destruct (returns_elim _ _ (nearestNode_ok w src rank Dmax W Emax q Hw)) as (d & Ed & Hd).
  exists s, d. split; [done |]. split; [done |]. split; [done |]. split; [done |].
  destruct (@getRoute_ok D Controller.router (theRouter w) (nearestNode w) _ (theContract w src) Hlaws
    time p q s d router) as [N HN]; [done | done | done | | |].
  1, 2: intros Hpos; eapply node_in_contract; [exact Hw |]; destruct Hs as [[? _] | [_ ?]], Hd as [[? _] | [_ ?]]; lia.
  exists N. intros fuel Hfuel. eapply returns_mono; [by apply HN |]. cbv beta.
  intros [resp r'] [Hr' Hresp]. split; [by intros ? [= <-] | done].
Qed.

(** One request, with either router. *)
Lemma serve_ok {D} `{!JDouble D, !DoubleOrder D} (w : world D) src rank Dmax W Emax time p q router :
  world_ok w src rank Dmax W Emax -> server_ready w router ->
  exists N, forall fuel, (N <= fuel)%nat ->
  returns (serve w fuel time (mkRequest (Some p) (Some q)) router) (fun '(resp, r') =>
    server_ready w (Some r') /\ replied w (answered (theContract w src)) p q resp).
Proof.
  intros Hw Hr. destruct (serve_responds w src rank Dmax W Emax time p q router Hw Hr) as (s & d & _ & _ & Hs & Hd & N & HN).
  exists N. intros fuel Hfuel. eapply returns_mono; [by apply HN |]. cbv beta. intros [resp r'] [Hr' Hresp]. split; [done |].
  assert (forall x v, (closest w x v /\ 0 <= v < nodesOf w) -> exists i, near w x i) as Hnear.
  { intros x v [[[Hv _] | (_ & Hv & _)] _]; [by exists v | done]. }
  destruct resp as [body | result]; cbn [responds] in Hresp.
  - destruct Hresp as [[-> Hneg] | [(-> & Hpos & Hneg) | (-> & Hpos & <-)]].
    + left. split; [done |]. destruct Hs as [[_ ?] | [_ ?]]; [done | lia].
    + right; left. split; [done |]. destruct Hs as [[? _] | Hs]; [lia |]. split; [by eapply Hnear |].
      destruct Hd as [[_ ?] | [_ ?]]; [done | lia].
    + right; right. split; [done |]. exists s. destruct Hs as [[? _] | [? _]]; [lia |].
      destruct Hd as [[? _] | [? _]]; [lia | done].
  - destruct Hresp as (Hs0 & Hd0 & Hne & Ha). exists s, d.
    destruct Hs as [[? _] | [? _]]; [lia |]. destruct Hd as [[? _] | [? _]]; [lia | done].
Qed.

(** C4: The server, with either router: to a request with both points it answers "bad request" only
    when a point has no node in its plane of integer degrees, or when both have the same nearest
    node; otherwise the route between the nearest nodes of the two points with its coordinates,
    than which no route is shorter, or, only when there is none, that there is no route.  The
    router is then ready for the next request. *)
Theorem server_answers {D} `{!JDouble D, !DoubleOrder D} (w : world D) src rank Dmax W Emax time p q router :
  world_ok w src rank Dmax W Emax -> server_ready w router ->
  exists N, forall fuel, (N <= fuel)%nat ->
  returns (serve w fuel time (mkRequest (Some p) (Some q)) router) (fun '(resp, r') =>
    server_ready w (Some r') /\ replied w (answered (theContract w src)) p q resp).
Proof. apply serve_ok. Qed.

(** The entry point of the performance test and that of the REST interface agree on every
    request, exceptions included: [getRoutingResult] answers null exactly where [getRoute] answers
    that a position is not on the ocean, the result "no route" exactly where it answers that the
    positions are equal, and otherwise the same result; both leave the same router behind. *)
Theorem getRoute_agrees {D R} `{!JDouble D, !Router D R} nearest fuel time rq (router : option R) :
  match getRoute nearest fuel time rq router, getRoutingResult nearest fuel time rq router with
  | Ok (OK res, r), Ok (Some res', r') => res = res' /\ r = r'
  | Ok (BadRequest body, r), Ok (None, r') => (body = noStart \/ body = noDestination) /\ r = r'
  | Ok (BadRequest body, r), Ok (Some res, r') =>
      body = samePosition /\ RoutingResult.routeFound res = false /\ r = r'
  | Err e, Err e' => e = e'
  | _, _ => False
  end.
Proof.
  unfold getRoute, getRoutingResult.
  destruct (ensureRouter router) as [r |]; [rewrite !bind_ok | done].
  destruct (lookup nearest (startPoint rq)) as [s |]; [rewrite !bind_ok | done].
  destruct (lookup nearest (endPoint rq)) as [d |]; [rewrite !bind_ok | done].
  destruct (s <? 0); [by split; [left |] |]. destruct (d <? 0); [by split; [right |] |].
  destruct (s =? d); [done |]. by destruct (route fuel time s d r) as [[res r'] |].
Qed.
