(* ===== verification/ControllerSamples.v ===== *)
(** * Two small servers

    One with a grid and the Dijkstra router, one with the hub labels of [HubLSamples]; the
    properties of the request handler are instantiated on both. *)

From S2P Require Import Prelude Doubles RoutingResult DijkstraGrid DijkstraRouter HubLEdges.
From S2P Require Import HubLNodes HubLRouter HubLRoute HubLSamples Grid Controller.

#[local] Existing Instance intDouble.
#[local] Existing Instance intDouble_order.

(** The line 0 - 1 - 2 with distances 7 and 9. *)
Definition gridWorld : world Z :=
  mkWorld false (Some [0; 1; 3; 4]) (mkNode [3; 3; 3] [4; 6; 5])
    (mkEdge [0; 1; 1; 2] [1; 0; 2; 1] [7; 7; 9; 9])
    (HubLNodes.mk 0 [] [] [] [] [] [] [] [] []) (HubLEdges.mk [] [] 0 []).

Definition lineWorld : world Z := mkWorld true None (mkNode [] []) (mkEdge [] [] []) lineNodes lineEdges.

(** The Dijkstra server: from the point of node 0 to the point of node 2, and to open sea. *)
Example grid_responses :
  fst <$> serve gridWorld 1 50 (mkRequest (Some (mkLatLong 3 4)) (Some (mkLatLong 3 5))) None
    = Ok (OK (RoutingResult.mk (Some [0; 1; 2]) (Some [[3; 4]; [3; 6]; [3; 5]]) 16 50 true)) /\
  fst <$> serve gridWorld 1 50 (mkRequest (Some (mkLatLong 3 4)) (Some (mkLatLong 9 9))) None
    = Ok (BadRequest noDestination) /\
  fst <$> serve gridWorld 1 50 (mkRequest (Some (mkLatLong 3 4)) None) None = Err NullPointer.
Proof. split; [| split]; vm_compute; reflexivity. Qed.

Example line_responses :
  fst <$> serve lineWorld 20 50 (mkRequest (Some (mkLatLong 2 102)) (Some (mkLatLong 0 100))) None
    = Ok (OK (RoutingResult.mk (Some [2; 1; 0]) (Some [[2; 102]; [1; 101]; [0; 100]]) 12 50 true)).
Proof. vm_compute. reflexivity. Qed.

Definition lineGrid : graph := gridOf gridWorld [0; 1; 3; 4].

Lemma line_three (P : Z -> Prop) : P 0 -> P 1 -> P 2 -> forall u, 0 <= u < 3 -> P u.
Proof. intros H0 H1 H2 u Hu. assert (u = 0 \/ u = 1 \/ u = 2) as [-> | [-> | ->]] by lia; done. Qed.

Lemma lineGrid_ok : graph_ok lineGrid 9.
Proof.
  split; [done | done | done | | |].
  - by apply line_three; vm_compute; split_and!.
  - apply (all_range_dec (fun e => 0 <= (destNode (DijkstraGrid.edges lineGrid)).[e] < size lineGrid) 0 4). by vm_compute.
  - apply (all_range_dec (fun e => 0 <= (DijkstraGrid.dist (DijkstraGrid.edges lineGrid)).[e] <= 9) 0 4). by vm_compute.
Qed.

Lemma lineGrid_step s l u d v w e : walk lineGrid s l u d -> 0 <= u < 3 -> outgoing lineGrid u e ->
  (destNode (DijkstraGrid.edges lineGrid)).[e] = v -> (DijkstraGrid.dist (DijkstraGrid.edges lineGrid)).[e] = w -> walk lineGrid s (l ++ [v]) v (d + w).
Proof. intros Hw Hu Ho Hv Hd. econstructor; [done |]. split; [exact Hu |]. by exists e. Qed.

Lemma lineGrid_eccentricity s : 0 <= s < 3 -> eccentricity_le lineGrid s 16.
Proof.
  assert (forall s, 0 <= s < 3 -> forall v, 0 <= v < 3 -> exists l d, walk lineGrid s l v d /\ d <= 16) as H.
  { assert (walk lineGrid 0 [0; 1] 1 7) as H01 by (by apply (lineGrid_step 0 [0] 0 0 1 7 0); [constructor | ..]).
    assert (walk lineGrid 2 [2; 1] 1 9) as H21 by (by apply (lineGrid_step 2 [2] 2 0 1 9 3); [constructor | ..]).
    intros s0 Hs0 v Hv. revert v Hv. revert s0 Hs0.
    apply (line_three (fun s => forall v, 0 <= v < 3 -> exists l d, walk lineGrid s l v d /\ d <= 16));
      apply (line_three (fun v => exists l d, walk lineGrid _ l v d /\ d <= 16)).
    - exists [0], 0. split; [constructor | lia].
    - by exists [0; 1], 7.
    - exists [0; 1; 2], 16. split; [| done]. by apply (lineGrid_step 0 [0; 1] 1 7 2 9 2).
    - exists [1; 0], 7. split; [| done]. by apply (lineGrid_step 1 [1] 1 0 0 7 1); [constructor | ..].
    - exists [1], 0. split; [constructor | lia].
    - exists [1; 2], 9. split; [| done]. by apply (lineGrid_step 1 [1] 1 0 2 9 2); [constructor | ..].
    - exists [2; 1; 0], 16. split; [| done]. by apply (lineGrid_step 2 [2; 1] 1 9 0 7 1).
    - by exists [2; 1], 9.
    - exists [2], 0. split; [constructor | lia]. }
  intros Hs l v d Hw. apply H; [done |].
  pose proof (walk_nodes lineGrid 9 lineGrid_ok s l v d Hw Hs) as Hall.
  rewrite Forall_forall in Hall. apply Hall. apply (walk_end_in _ _ lineGrid_ok _ _ _ _ Hw).
Qed.

Lemma gridWorld_ok src rank Dmax : world_ok gridWorld src rank Dmax 9 16.
Proof.
  unfold world_ok. cbn [gridWorld useHLRouter]. split; [done | done | | done].
  exists [0; 1; 3; 4]. split; [done |]. split; [apply lineGrid_ok |]. apply lineGrid_eccentricity.
Qed.

(** The hub labels of the line cover its walks. *)
Definition covers (s d : Z) : Prop :=
  Exists (fun i => Exists (fun j =>
    ((labelOffset lineNodes).[s] <= i < (labelOffset lineNodes).[s + 1]) /\
    ((labelOffset lineNodes).[d] <= j < (labelOffset lineNodes).[d + 1]) /\
    (labelNode lineNodes).[i] = (labelNode lineNodes).[j] /\
    (labelDist lineNodes).[i] + (labelDist lineNodes).[j] <= Z.abs ([0; 5; 12].[d] - [0; 5; 12].[s]))
    (seqZ 0 7)) (seqZ 0 7).

Lemma line_covers s d : 0 <= s < 3 -> 0 <= d < 3 -> covers s d.
Proof.
  intros Hs Hd. revert s Hs. apply (line_three (fun s => covers s d)); revert d Hd; apply line_three;
    apply (bool_decide_unpack _); by vm_compute.
Qed.

Lemma last_hd (p : list Z) s d : head p = Some s -> last p = Some d -> List.hd 0 p = s /\ List.last p 0 = d.
Proof.
  intros Hs Hd. destruct p as [| x p]; [done |]. split; [by injection Hs |].
  apply last_Some in Hd as [l ->]. apply List.last_last.
Qed.

Lemma lineWorld_ok W Emax : world_ok lineWorld lineSrc lineRank 12 W Emax.
Proof.
  unfold world_ok. cbn [lineWorld useHLRouter]. split; try done.
  - apply line_edges_ok.
  - apply line_labels_sound.
  - apply (hd_dest _ _ _ _ _ _ _ line_hub_data).
  - by apply line_three.
  - intros s d p x Hs Hd (Hl & Hh & Hlast). cbn in Hs, Hd.
    pose proof (line_covers s d Hs Hd) as Hcov. unfold covers in Hcov.
    apply Exists_exists in Hcov as (i & _ & Hij). apply Exists_exists in Hij as (j & _ & Hi & Hj & E & Hsum).
    exists i, j, (labelNode lineNodes).[i]. split; [done |]. split; [done |]. etransitivity; [exact Hsum |].
    pose proof (line_potential _ _ Hl) as H1.
    pose proof (line_potential _ _ (linked_rev _ (original_sym lineEdges lineSrc) _ _ Hl)) as H2.
    destruct (last_hd p s d Hh Hlast) as [E1 E2].
    destruct (last_hd (rev p) d s) as [E3 E4].
    { rewrite rev_alt. change (head (reverse p) = Some d). by rewrite head_reverse. }
    { rewrite rev_alt. change (last (reverse p) = Some s). by rewrite last_reverse. }
    rewrite E1, E2 in H1. rewrite E3, E4 in H2. lia.
Qed.

Lemma server_answers_witness :
  (exists N, forall fuel, (N <= fuel)%nat ->
    returns (serve gridWorld fuel 50 (mkRequest (Some (mkLatLong 3 4)) (Some (mkLatLong 3 5))) None)
      (fun '(_, r') => server_ready gridWorld (Some r'))) /\
  (exists N, forall fuel, (N <= fuel)%nat ->
    returns (serve lineWorld fuel 50 (mkRequest (Some (mkLatLong 2 102)) (Some (mkLatLong 0 100))) None)
      (fun '(_, r') => server_ready lineWorld (Some r'))).
Proof.
  split.
  - destruct (server_answers gridWorld lineSrc lineRank 12 9 16 50 (mkLatLong 3 4) (mkLatLong 3 5) None) as [N HN];
      [apply gridWorld_ok | done |].
    exists N. intros fuel Hfuel. eapply returns_mono; [by apply HN |]. cbv beta. by intros [resp r'] [Hr _].
  - destruct (server_answers lineWorld lineSrc lineRank 12 9 16 50 (mkLatLong 2 102) (mkLatLong 0 100) None) as [N HN];
      [apply lineWorld_ok | done |].
    exists N. intros fuel Hfuel. eapply returns_mono; [by apply HN |]. cbv beta. by intros [resp r'] [Hr _].
Defined.
