(* ===== verification/Serving.v ===== *)
(** * From a graph to its routes

    [LabelCreator.main] writes the arrays the hub label router reads ([serializeHubLData]).  The
    router that runs on what was computed from a graph answers exactly its shortest distances.
    All levels get labels, so the router is the one for two nodes with labels.  Writing the arrays
    to a file and reading them back ([HubLStore]) is Java serialization and left out. *)

From S2P Require Import Prelude IntStack IntArrayList RoutingResult HubLEdges HubLNodes HubLRouter HubLRoute.
From S2P Require Import Edges DynamicGrid Labels HLDijkstra CHSearch LabelCreator Contraction LevelGraph LevelCorrect Hierarchy.
From S2P Require Import Preprocessing Doubles DijkstraGrid Controller.

(** [serializeHubLData] up to [HubLStore.storeData]: the static fields of [HubLNodes] and [HubLEdges]. *)
Definition serializeHubLData {D} (ns : Nodes D) (e : Edges.t) (g : DynamicGrid.t) (lab : Labels.t)
    : res (HubLNodes.t D * HubLEdges.t) :=
  he ← HubLEdges.initialize e;
  let hlLevel := NUM_OF_NO_LABEL_LVLS in
  '(edgesOffset, es) ← initEdgeInfo e (nLevels ns) hlLevel (allEdgeIds g) (allEdgeCount g);
  '(labelOffset, labelNode, labelEdge, labelDist) ←
    initLabelInfo (labelNodes lab) (labelEdges lab) (Labels.labelDist lab);
  Ok (HubLNodes.mk hlLevel (nLevels ns) (nLongitude ns) (nLatitude ns) edgesOffset es
        labelOffset labelNode labelEdge labelDist, he).

(** [main], from the imported graph to the routing data. *)
Definition prepare {D} (rnd : Z -> Z) (picks : Z -> list nat) (ids : IntArrayList.t) (ns : Nodes D)
    (e : Edges.t) (g : DynamicGrid.t) : res (HubLNodes.t D * HubLEdges.t) :=
  '(lab, s) ← createLabels rnd picks ids ns e g;
  serializeHubLData (Contraction.nodes s) (Contraction.edges s) (Contraction.grid s) lab.

(** ** The original graph *)

(** Every original edge is in the row of a node. *)
Definition all_edges (e : Edges.t) (g : DynamicGrid.t) (n : Z) : Prop := forall x, 0 <= x < numOfOriginalEdges e ->
  exists u, 0 <= u < n /\ x ∈ current g u.

Definition edge_of (e : Edges.t) (g : DynamicGrid.t) (u v w : Z) : Prop :=
  exists x, x ∈ current g u /\ dst e x = v /\ weight e x = w.

(** A path along edges is a walk. *)
Lemma linked_walk e g p w : linked (edge_of e g) p w -> forall s d, head p = Some s -> last p = Some d -> cwalk e g s d w.
Proof.
  induction 1 as [x | x y l w d (z & Hz & <- & <-) Hl IH]; intros s t Hs Ht.
  - cbn in Hs, Ht. injection Hs as <-. injection Ht as <-. constructor.
  - cbn in Hs. injection Hs as <-. eapply cwalk_trans; [by apply cwalk_edge |]. by apply IH.
Qed.

Section served.
Context {D : Type} (e0 : Edges.t) (g0 : DynamicGrid.t) (n Emax B : Z) (ns : Nodes D).
Context (Hco : contractible e0 g0 n Emax B ns) (Hall : all_edges e0 g0 n).
Notation Hg := (co_search _ _ _ _ _ _ Hco).

(** ** The edges *)

Section edges.
Context (e : Edges.t) (l : list shortcut) (Hst : store_ok n e l) (Hext : extends e0 e).
Notation num := (numOfOriginalEdges e).

Lemma original_edge x : 0 <= x < num -> 0 <= Edges.src e x < n /\ x ∈ current g0 (Edges.src e x) /\
  dst e x = dst e0 x /\ weight e x = weight e0 x /\ 0 <= dst e0 x < n /\ 0 < weight e0 x.
Proof.
  intros Hx. pose proof Hext as (_ & _ & Hsrc & Hnum). rewrite Hnum in Hx. destruct (Hall x Hx) as (u & Hu & Hin).
  pose proof (co_known _ _ _ _ _ _ Hco u x Hu Hin) as Hlt. destruct (co_source _ _ _ _ _ _ Hco u x Hu Hin) as [_ Es].
  rewrite (Hsrc x Hlt), Es. destruct (extends_dst _ _ x Hext Hlt) as [-> ->].
  destruct (sb_edge _ _ _ _ _ Hg u x Hu Hin) as (_ & _ & ? & _ & ? & _). done.
Qed.

(** The shortcut with the id [num + k]. *)
Lemma shortcut_edge k : 0 <= k < alen l -> Edges.src e (num + k) = scStart l.[k] /\ dst e (num + k) = scDest l.[k] /\
  weight e (num + k) = scDist l.[k] /\ 0 <= scDest l.[k] < n.
Proof.
  intros Hk. pose proof (so_models _ _ _ Hst) as Hm. split; [by apply (src_shortcut e l) |].
  unfold dst, weight. rewrite (getDest_shortcut e l), (getDist_shortcut e l) by done.
  split; [done |]. split; [done |]. by apply (so_range _ _ _ Hst), at_In.
Qed.

Lemma edge_cases x : 0 <= x < nextShortcutId e -> 0 <= x < num \/ exists k, 0 <= k < alen l /\ x = num + k.
Proof.
  destruct (so_models _ _ _ Hst) as (_ & En & _). intros Hx. destruct (decide (x < num)); [left; lia | right].
  exists (x - num). lia.
Qed.

(** No edge is shorter than 0: a shortcut is as long as its two parts. *)
Lemma weight_nonneg x : 0 <= x < nextShortcutId e -> 0 <= weight e x.
Proof.
  pose proof (so_models _ _ _ Hst) as (_ & Hnext & _).
  induction x as [x IH] using (well_founded_induction (Z.lt_wf 0)). intros Hx.
  destruct (edge_cases x Hx) as [Ho | (k & Hk & ->)]; [destruct (original_edge x Ho) as (_ & _ & _ & -> & _ & ?); lia |].
  destruct (shortcut_edge k Hk) as (_ & _ & -> & _). destruct (so_parts _ _ _ Hst k Hk) as (H1 & H2 & _ & _ & _ & ->).
  apply Z.add_nonneg_nonneg; apply IH; lia.
Qed.

(** What [HubLEdges] holds then. *)
Record edges_served (he : HubLEdges.t) : Prop := {
  es_ok : edges_ok he (Edges.src e);
  es_count : alen (HubLEdges.dest he) = nextShortcutId e;
  es_data : forall x, 0 <= x < nextShortcutId e ->
    (HubLEdges.dest he).[x] = dst e x /\ (HubLEdges.dist he).[x] = weight e x /\ 0 <= dst e x < n;
  es_original : forall u v w, original he (Edges.src e) u v w -> edge_of e0 g0 u v w;
  es_back : forall u v w, 0 <= u < n -> edge_of e0 g0 u v w -> original he (Edges.src e) u v w;
}.

Lemma edges_served_ok : returns (HubLEdges.initialize e) edges_served.
Proof.
  pose proof (so_models _ _ _ Hst) as Hm. pose proof Hm as (Hn0 & Hnext & _). pose proof (alen_nonneg l).
  eapply returns_mono; [by apply (initialize_ok e l) |]. cbv beta.
  intros he (L1 & L2 & Efirst & L3 & Hdata & Hparts).
  assert (forall x, 0 <= x < nextShortcutId e -> (HubLEdges.dest he).[x] = dst e x /\ (HubLEdges.dist he).[x] = weight e x /\ 0 <= dst e x < n) as Hd.
  { intros x Hx. destruct (Hdata x Hx) as [E1 E2]. split; [unfold dst; by rewrite E1 |]. split; [unfold weight; by rewrite E2 |].
    destruct (edge_cases x Hx) as [Ho | (k & Hk & ->)]; [destruct (original_edge x Ho) as (_ & _ & -> & _ & ? & _); done |].
    by destruct (shortcut_edge k Hk) as (_ & -> & _ & ?). }
  split; try done.
  - split; rewrite ?L1, ?L2, ?L3, ?Efirst; try lia.
    + intros x Hx. unfold edge_id in Hx. destruct (Hd x) as (_ & -> & _); [lia |]. apply weight_nonneg. lia.
    + intros x Hx Hs. unfold edge_id, isShortcut in *. rewrite Efirst in Hs. apply Z.leb_le in Hs.
      destruct (edge_cases x ltac:(lia)) as [? | (k & Hk & ->)]; [lia |]. destruct (Hparts k Hk) as [-> ->].
      destruct (so_parts _ _ _ Hst k Hk) as (H1 & H2 & H3 & H4 & H5 & H6). destruct (shortcut_edge k Hk) as (Es & Ed & Ew & _).
      destruct (Hd (num + k)) as (-> & -> & _); [lia |]. destruct (Hd (scFirst l.[k])) as (-> & -> & _); [lia |].
      destruct (Hd (scSecond l.[k])) as (-> & -> & _); [lia |]. rewrite Es, Ed, Ew. split_and!; done || lia || congruence.
  - intros u v w (x & Hx & Hs & Hends & Ew). unfold edge_id, isShortcut in *. rewrite Efirst in Hs. apply Z.leb_gt in Hs.
    destruct (Hd x) as (Ed & Ew' & _); [lia |]. destruct (original_edge x ltac:(lia)) as (Hu & Hin & E1 & E2 & _).
    rewrite Ed, E1 in Hends. rewrite Ew', E2 in Ew. destruct Hends as [[<- <-] | [<- <-]]; [by exists x |].
    destruct (sb_back _ _ _ _ _ Hg _ x Hu Hin) as (y & Hy & Ey & Ewy). exists y. split; [done |]. split; [done | congruence].
  - intros u v w Hu (x & Hx & <- & <-). pose proof Hext as (_ & _ & Hsrc & Hnum).
    pose proof (co_known _ _ _ _ _ _ Hco u x Hu Hx) as Hlt. destruct (co_source _ _ _ _ _ _ Hco u x Hu Hx) as [Hx0 Es].
    pose proof (so_models _ _ _ (co_store _ _ _ _ _ _ Hco)) as (_ & Hnext0 & _). change (alen []) with 0 in Hnext0.
    destruct (Hd x) as (Ed & Ew & _); [lia |]. destruct (extends_dst _ _ x Hext Hlt) as [E1 E2].
    exists x. unfold edge_id, isShortcut. rewrite L1, Efirst, Ed, Ew, E1, E2, (Hsrc x Hlt). split; [lia |].
    split; [apply Z.leb_gt; lia |]. split; [by left | done].
Qed.
End edges.

(** ** The labels *)

Section labels.
Context (Hn0 : 0 <= n) (Hbig : 3 * (Emax * n) <= MAX_VALUE).
Context (lab : Labels.t) (s : Contraction.t D) (Hc : created e0 g0 n Emax B ns lab s).
Notation e := (Contraction.edges s).
Notation g := (Contraction.grid s).
Notation nodes := (Contraction.nodes s).
Notation lvlOf u := ((nLevels nodes).[u]).

(** What the contraction leaves in the edge store. *)
Lemma store_left : exists l, store_ok n e l /\ extends e0 e.
Proof.
  destruct Hc as (_ & _ & (L & X & _ & Hi & _) & _). destruct (lv_store _ _ _ _ _ _ _ _ Hi) as (l & Hst & _).
  exists l. split; [done | apply (lv_extends _ _ _ _ _ _ _ _ Hi)].
Qed.

Lemma level_range u : 0 <= u < n -> 0 <= lvlOf u < n.
Proof.
  intros Hu. destruct Hc as (_ & _ & (L & X & HL & Hi & Hgone) & _).
  pose proof (lv_levels _ _ _ _ _ _ _ _ Hi u Hu (Hgone u Hu)). lia.
Qed.

Lemma up_edge_of u x : 0 <= u < n -> x ∈ upEdges nodes e g u -> 0 <= x < nextShortcutId e /\ Edges.src e x = u /\
  0 <= dst e x < n /\ lvlOf u < lvlOf (dst e x).
Proof.
  intros Hu Hx. destruct Hc as (_ & _ & (L & X & HL & Hi & Hgone) & Hh & _). pose proof (lv_nodes _ _ _ _ _ _ _ _ Hi) as En.
  destruct (up_edge nodes e g (Emax * n) Hh u x) as [_ Hlt]; [by rewrite En | done |].
  apply list_elem_of_In, filter_In in Hx as [Hx%list_elem_of_In _]. pose proof (lv_graph _ _ _ _ _ _ _ _ Hi) as Hl.
  destruct (lg_known _ _ _ _ _ _ Hl u x Hu Hx) as [? ?]. destruct (lg_source _ _ _ _ _ _ Hl u x Hu Hx) as [? ?]. done.
Qed.

(** A label of [u] with its first edge: its own, or one more edge in front of a label. *)
Definition cell_ok (u h d x : Z) : Prop := (h = u /\ d = 0 /\ x = -1) \/
  (h <> u /\ 0 <= x < nextShortcutId e /\ Edges.src e x = u /\ 0 <= dst e x < n /\ lvlOf u < lvlOf (dst e x) /\
   label lab (dst e x) h (d - weight e x)).

Lemma row_at u cl cd ce k : 0 <= u < n -> full_row lab u cl cd ce -> 0 <= k < alen cl ->
  0 <= cl.[k] < n /\ 0 <= cd.[k] <= Emax * n /\ cell_ok u cl.[k] cd.[k] ce.[k].
Proof.
  intros Hu Hrow Hk. pose proof Hc as (_ & _ & (L & X & HL & Hi & Hgone) & Hh & Hgood). pose proof (lv_nodes _ _ _ _ _ _ _ _ Hi) as En.
  assert (label lab u cl.[k] cd.[k]) as Hlab by (exists cl, cd, k; split; [apply Hrow | done]).
  destruct (label_walk e0 g0 n Emax B ns lab s u _ _ Hc Hu Hlab) as (Hway & _ & Hh').
  split; [done |]. split; [apply (way_bounds nodes e g (Emax * n) Hh u cl.[k]); [by rewrite En | done] |].
  destruct (first_edge_ok nodes e g (Emax * n) Hh lab u cl.[k] cd.[k] ce.[k]) as [? | (Hne & Hup & Hl)]; rewrite ?En; try done.
  - by exists cl, cd, ce, k.
  - by left.
  - right. destruct (up_edge_of u _ Hu Hup) as (? & ? & ? & ?). done.
Qed.

Lemma lab_sizes : alen (labelNodes lab) = n /\ alen (labelEdges lab) = n /\ alen (Labels.labelDist lab) = n.
Proof.
  destruct Hc as (_ & Hsize & (L & X & _ & Hi & _) & _). unfold sized in Hsize. by rewrite (lv_nodes _ _ _ _ _ _ _ _ Hi) in Hsize.
Qed.

(** The cells of a row. *)
Lemma full_cells u cl cd ce : 0 <= u < n -> full_row lab u cl cd ce <->
  (labelNodes lab).[u] = Some cl /\ (Labels.labelDist lab).[u] = Some cd /\ (labelEdges lab).[u] = Some ce /\
  alen cd = alen cl /\ alen ce = alen cl /\ Sorting.Sorted.StronglySorted Z.lt cl.
Proof.
  intros Hu. destruct lab_sizes as (L1 & L2 & L3). unfold full_row, has_labels. rewrite !aget_ok by lia.
  split; [intros (([= ->] & [= ->] & ? & ?) & [= ->] & ?); done | intros (-> & -> & -> & ? & ? & ?); done].
Qed.

Lemma row_exists u : 0 <= u < n -> exists cl cd ce, full_row lab u cl cd ce.
Proof. intros Hu. destruct Hc as (_ & _ & _ & _ & Hgood). apply (rg_labels _ _ _ _ _ (Hgood u Hu)). Qed.

Lemma row_length u cl cd ce : 0 <= u < n -> full_row lab u cl cd ce -> alen cl <= n.
Proof.
  intros Hu Hrow. pose proof (proj1 (full_cells u cl cd ce Hu) Hrow) as (_ & _ & _ & _ & _ & Hs).
  pose proof (in_range_len cl n (SortedArray.sorted_NoDup _ Hs)) as H. rewrite Z.max_r in H by done. apply H.
  intros x (k & Hk & <-)%In_at. by apply (row_at u cl cd ce k).
Qed.

(** Everything that is written to the label file is an int. *)
Lemma labels_ready : labels_ok (labelNodes lab) (labelEdges lab) (Labels.labelDist lab).
Proof.
  destruct lab_sizes as (L1 & L2 & L3). destruct store_left as (l & Hst & _). pose proof (so_room _ _ _ Hst) as Hroom.
  pose proof (so_models _ _ _ Hst) as (Hnum & Hnext & _). pose proof (sb_count _ _ _ _ _ Hg) as Hmax. pose proof (alen_nonneg l).
  assert (nextShortcutId e <= MAX_VALUE) as Hid.
  { assert (alen (ends <$> l) <= n * n) as Hlen; [| unfold alen in *; rewrite length_fmap in Hlen; lia].
    apply pairs_len; [apply (so_pairs _ _ _ Hst) |]. intros q (sc & -> & Hsc)%list_elem_of_fmap. by apply (so_range _ _ _ Hst). }
  split; rewrite ?L1, ?L2, ?L3; try done.
  - intros u cl Hu E. destruct (row_exists u Hu) as (cl' & cd & ce & Hrow).
    apply (full_cells u cl' cd ce Hu) in Hrow as (E1 & E2 & E3 & H1 & H2 & _). exists ce, cd.
    assert (cl' = cl) as -> by congruence. done.
  - intros u Hu E. destruct (row_exists u Hu) as (cl' & cd & ce & Hrow). apply (full_cells u cl' cd ce Hu) in Hrow as (E1 & _). congruence.
  - assert (forall u r k, 0 <= u < n -> (labelNodes lab).[u] = Some r \/ (labelEdges lab).[u] = Some r \/ (Labels.labelDist lab).[u] = Some r ->
      0 <= k < alen r -> is_int r.[k]) as Hint.
    { intros u r k Hu Hr Hk. destruct (row_exists u Hu) as (cl & cd & ce & Hrow).
      pose proof (proj1 (full_cells u cl cd ce Hu) Hrow) as (E1 & E2 & E3 & H1 & H2 & _).
      assert (r = cl \/ r = ce \/ r = cd) as Hcase by (destruct Hr as [Hr | [Hr | Hr]]; [left | right; left | right; right]; congruence).
      destruct (row_at u cl cd ce k Hu Hrow) as (? & ? & Hcell); [destruct Hcase as [-> | [-> | ->]]; lia |].
      assert (-1 <= ce.[k] < nextShortcutId e) as He by (destruct Hcell as [(_ & _ & ->) | (_ & ? & _)]; lia).
      unfold is_int, MIN_VALUE in *. destruct Hcase as [-> | [-> | ->]]; lia. }
    intros z Hz. rewrite !elem_of_app in Hz.
    destruct Hz as [Hz | [Hz | Hz]]; [rewrite <-L1 in Hz | rewrite <-L2 in Hz | rewrite <-L3 in Hz];
      apply upto_elem in Hz as (u & r & k & Hu & E & Hk & <-); apply (Hint u r k); auto; lia.
  - assert (alen (upto (labelNodes lab) n) <= n * n); [| lia]. apply upto_bound; [| done | lia]. rewrite L1. intros u cl Hu E.
    destruct (row_exists u Hu) as (cl' & cd & ce & Hrow). pose proof (proj1 (full_cells u cl' cd ce Hu) Hrow) as (E1 & _).
    assert (cl' = cl) as -> by congruence. by apply (row_length u cl cd ce).
Qed.

(** ** The arrays of the labels *)

Section arrays.
Context (hn : HubLNodes.t D) (Hoff : offsets_of (labelNodes lab) (labelOffset hn)).
Context (Hnode : labelNode hn = upto (labelNodes lab) n ++ [-1]) (Hedge : labelEdge hn = upto (labelEdges lab) n ++ [-1]).
Context (Hdist : HubLNodes.labelDist hn = upto (Labels.labelDist lab) n ++ [-1]).
Notation off v := ((labelOffset hn).[v]).

Lemma offset_at v : 0 <= v <= n -> off v = alen (upto (labelNodes lab) v) /\
  alen (upto (labelEdges lab) v) = off v /\ alen (upto (Labels.labelDist lab) v) = off v.
Proof.
  intros Hv. destruct lab_sizes as (L1 & _). destruct Hoff as [_ Ho]. rewrite (Ho v) by lia.
  destruct (upto_same _ _ _ labels_ready v) as [-> ->]; [lia | done].
Qed.

Lemma array_at (a : list (option (list Z))) b v l k : alen a = n -> b = upto a n ++ [-1] -> alen (upto a v) = off v ->
  0 <= v < n -> a.[v] = Some l -> 0 <= k < alen l -> b.[off v + k] = l.[k].
Proof.
  intros Ha -> <- Hv El Hk. rewrite <-Ha in *. destruct (upto_range a v l k Hv El Hk) as [[? ?] ?].
  pose proof (alen_nonneg (upto a v)). rewrite at_app_l by lia. by apply upto_at.
Qed.

Lemma label_cells v cl cd ce k : 0 <= v < n -> full_row lab v cl cd ce -> 0 <= k < alen cl ->
  (labelNode hn).[off v + k] = cl.[k] /\ (labelEdge hn).[off v + k] = ce.[k] /\ (HubLNodes.labelDist hn).[off v + k] = cd.[k].
Proof.
  intros Hv Hrow Hk. destruct lab_sizes as (L1 & L2 & L3). destruct (offset_at v) as (O1 & O2 & O3); [lia |].
  apply (full_cells v cl cd ce Hv) in Hrow as (E1 & E2 & E3 & H1 & H2 & _).
  split; [by apply (array_at (labelNodes lab)) |]. split; [apply (array_at (labelEdges lab)) | apply (array_at (Labels.labelDist lab))]; done || lia.
Qed.

Lemma offset_next v cl cd ce : 0 <= v < n -> full_row lab v cl cd ce -> off (v + 1) = off v + alen cl.
Proof.
  intros Hv Hrow. destruct lab_sizes as (L1 & _). apply (full_cells v cl cd ce Hv) in Hrow as (E1 & _).
  destruct (offset_at v) as (-> & _); [lia |]. destruct (offset_at (v + 1)) as (-> & _); [lia |].
  rewrite upto_S, E1 by lia. by rewrite alen_app.
Qed.

Lemma label_index v i : 0 <= v < n -> off v <= i < off (v + 1) -> exists cl cd ce k, full_row lab v cl cd ce /\
  0 <= k < alen cl /\ i = off v + k /\ (labelNode hn).[i] = cl.[k] /\ (labelEdge hn).[i] = ce.[k] /\ (HubLNodes.labelDist hn).[i] = cd.[k].
Proof.
  intros Hv Hi. destruct (row_exists v Hv) as (cl & cd & ce & Hrow). rewrite (offset_next v cl cd ce Hv Hrow) in Hi.
  exists cl, cd, ce, (i - off v). split; [done |]. split; [lia |]. split; [lia |].
  replace i with (off v + (i - off v)) at 1 3 5 by lia. apply label_cells; [done | done | lia].
Qed.

Lemma label_labelAt v h d : 0 <= v < n -> label lab v h d <-> exists i, labelAt hn v i h /\ (HubLNodes.labelDist hn).[i] = d.
Proof.
  intros Hv. split.
  - intros (cl & cd & k & Hl & Hk & <- & <-). destruct (row_exists v Hv) as (cl' & cd' & ce & Hrow).
    pose proof Hrow as ((E1 & E2 & _) & _). destruct Hl as (F1 & F2 & _). rewrite E1 in F1. rewrite E2 in F2.
    injection F1 as ->. injection F2 as ->. destruct (label_cells v cl cd ce k Hv Hrow Hk) as (H1 & _ & H3).
    exists (off v + k). split; [| done]. split; [rewrite (offset_next v cl cd ce Hv Hrow); lia | done].
  - intros (i & [Hi <-] & <-). destruct (label_index v i Hv Hi) as (cl & cd & ce & k & Hrow & Hk & _ & -> & _ & ->).
    exists cl, cd, k. split; [apply Hrow | done].
Qed.

Lemma total_index i : 0 <= i < alen (labelNode hn) - 1 -> exists v, 0 <= v < n /\ off v <= i < off (v + 1).
Proof.
  destruct lab_sizes as (L1 & _). rewrite Hnode, alen_app. change (alen [-1]) with 1. intros Hi.
  destruct (upto_find (labelNodes lab) n i ltac:(lia) ltac:(lia)) as (v & l & k & Hv & E & Hk & ->). exists v. split; [done |].
  destruct (offset_at v) as (-> & _); [lia |]. destruct (offset_at (v + 1)) as (-> & _); [lia |].
  rewrite upto_S, E, alen_app by lia. cbn. lia.
Qed.

(** The labels of the router are consistent. *)
Lemma labels_sound_ok he : edges_served e he ->
  labels_sound hn he (Edges.src e) (fun u => lvlOf u) (Emax * n).
Proof.
  intros [Hok Hcount Hdata _ _]. destruct lab_sizes as (L1 & L2 & L3). destruct Hoff as [Hlo _]. rewrite L1 in Hlo.
  assert (alen (labelNode hn) = off n + 1 /\ alen (labelEdge hn) = off n + 1 /\ alen (HubLNodes.labelDist hn) = off n + 1) as (A1 & A2 & A3).
  { destruct (offset_at n) as (O1 & O2 & O3); [lia |]. rewrite Hnode, Hedge, Hdist, !alen_app, O2, O3, <-O1. done. }
  assert (forall v, 0 <= v < n -> 0 <= off v <= off (v + 1) /\ off (v + 1) <= off n) as Hmono.
  { intros v Hv. destruct (offset_at v) as (-> & _); [lia |]. destruct (offset_at (v + 1)) as (-> & _); [lia |].
    destruct (offset_at n) as (-> & _); [lia |]. pose proof (alen_nonneg (upto (labelNodes lab) v)).
    pose proof (upto_le (labelNodes lab) v (v + 1)). pose proof (upto_le (labelNodes lab) (v + 1) n). lia. }
  split; rewrite ?Hlo, ?A1, ?A2, ?A3; replace (n + 1 - 1) with n by lia.
  - lia.
  - done.
  - intros v Hv. specialize (Hmono v Hv). lia.
  - intros v i j Hv Hi Hj. destruct (label_index v i Hv ltac:(lia)) as (cl & cd & ce & k & Hrow & Hk & Ek & -> & _).
    pose proof (offset_next v cl cd ce Hv Hrow) as Enext.
    replace j with (off v + (j - off v)) by lia. destruct (label_cells v cl cd ce (j - off v) Hv Hrow) as (-> & _); [lia |].
    pose proof (proj1 (full_cells v cl cd ce Hv) Hrow) as (_ & _ & _ & _ & _ & Hsort). apply SortedArray.sorted_at; [done | lia | lia].
  - intros i Hi. destruct (total_index i) as (v & Hv & Hiv); [rewrite A1; lia |].
    destruct (label_index v i Hv Hiv) as (cl & cd & ce & k & Hrow & Hk & _ & -> & _ & ->).
    by destruct (row_at v cl cd ce k Hv Hrow Hk) as (? & ? & _).
  - intros v Hv. pose proof (level_range v Hv). lia.
  - intros v i Hv Hi. destruct (label_index v i Hv Hi) as (cl & cd & ce & k & Hrow & Hk & _ & -> & _ & ->). intros E.
    destruct (row_at v cl cd ce k Hv Hrow Hk) as (_ & _ & [(_ & ? & _) | (? & _)]); done.
  - intros v i Hv Hi. destruct (label_index v i Hv Hi) as (cl & cd & ce & k & Hrow & Hk & _ & -> & -> & ->). intros E. cbv zeta.
    destruct (row_at v cl cd ce k Hv Hrow Hk) as (_ & _ & [(? & _) | (_ & Hx & Hsrc & Hd & Hlt & Hl)]); [done |].
    destruct (Hdata ce.[k] Hx) as (-> & -> & _). unfold edge_id. rewrite Hcount. split_and!; try done || lia.
    apply (label_labelAt _ _ _ Hd) in Hl as (j & [Hj Ej] & Edj). exists j. split_and!; done || lia.
Qed.
End arrays.
End labels.

(** ** The data of the router *)

(** Consistent data whose labels cover the walks of the original graph. *)
Record exact_data (hn : HubLNodes.t D) (he : HubLEdges.t) (src rank : Z -> Z) : Prop := {
  ed_edges : edges_ok he src;
  ed_sound : labels_sound hn he src rank (Emax * n);
  ed_dest : forall x, edge_id he x -> 0 <= (HubLEdges.dest he).[x] < n;
  ed_count : alen (labelOffset hn) = n + 1;
  ed_coords : latitudes hn = nLatitude ns /\ longitudes hn = nLongitude ns;
  ed_levels : forall v, 0 <= v < n -> nodeHasLabels hn v = Ok true;
  ed_original : forall u v w, original he src u v w -> edge_of e0 g0 u v w;
  ed_back : forall u v w, 0 <= u < n -> edge_of e0 g0 u v w -> original he src u v w;
  ed_cover : forall u v d, 0 <= u < n -> 0 <= v < n -> cwalk e0 g0 u v d -> exists i j h,
    labelAt hn u i h /\ labelAt hn v j h /\ (HubLNodes.labelDist hn).[i] + (HubLNodes.labelDist hn).[j] <= d;
}.

Lemma serialize_ok lab s : 0 <= n /\ n <> 1 -> 3 * (Emax * n) <= MAX_VALUE -> created e0 g0 n Emax B ns lab s ->
  returns (serializeHubLData (Contraction.nodes s) (Contraction.edges s) (Contraction.grid s) lab)
    (fun '(hn, he) => exists src rank, exact_data hn he src rank).
Proof.
  intros Hn Hbig Hc. pose proof Hn as [Hn0 _]. destruct (store_left lab s Hc) as (l & Hst & Hext).
  pose proof Hc as ([Ela Elo] & _ & (L & X & _ & Hi & _) & _). destruct (lab_sizes lab s Hc) as (L1 & L2 & L3).
  destruct (lv_lengths _ _ _ _ _ _ _ _ Hi) as (_ & _ & Llev). destruct (sb_grid _ _ _ _ _ (lv_search _ _ _ _ _ _ _ _ Hi)) as [_ [T1 T2 _]].
  unfold serializeHubLData. eapply returns_bind; [by apply (edges_served_ok _ l Hst Hext) |]. cbv beta zeta. intros he Hhe.
  eapply returns_bind.
  { apply initEdgeInfo_none; [congruence | congruence |]. rewrite T2. intros i Hir. by apply (level_range lab s Hc). }
  cbv beta. intros ? ->. cbv beta iota.
  eapply returns_bind; [apply (initLabelInfo_ok _ _ _ (labels_ready Hn0 Hbig lab s Hc)) |].
  intros [[[off ln] le] ld] (Hoff & -> & -> & ->). ret. rewrite L1. set (hn := HubLNodes.mk _ _ _ _ _ _ _ _ _ _).
  pose proof (label_labelAt Hn0 Hbig lab s Hc hn Hoff eq_refl eq_refl eq_refl) as Hlabel.
  exists (Edges.src (Contraction.edges s)), (fun u => (nLevels (Contraction.nodes s)).[u]). split.
  - apply (es_ok _ _ Hhe).
  - by apply (labels_sound_ok Hn0 Hbig lab s Hc hn Hoff eq_refl eq_refl eq_refl).
  - intros x Hx. unfold edge_id in Hx. rewrite (es_count _ _ Hhe) in Hx. by destruct (es_data _ _ Hhe x Hx) as (-> & _ & ?).
  - change (alen off = n + 1). destruct Hoff as [-> _]. by rewrite L1.
  - done.
  - intros v Hv. unfold nodeHasLabels. change (HubLNodes.levels hn) with (nLevels (Contraction.nodes s)). rewrite aget_ok, bind_ok by lia.
    f_equal. apply Z.leb_le. by apply (level_range lab s Hc).
  - apply (es_original _ _ Hhe).
  - apply (es_back _ _ Hhe).
  - intros u v d Hu Hv Hw. destruct (labels_meet e0 g0 n Emax B ns Hn lab s u v d Hc Hu Hv Hw) as (h & a & b & Ha & Hb & Hle).
    apply (Hlabel u h a Hu) in Ha as (i & ? & ?). apply (Hlabel v h b Hv) in Hb as (j & ? & ?). exists i, j, h.
    split; [done |]. split; [done | lia].
Qed.

Lemma prepared_data rnd picks ids : 0 <= n /\ n <> 1 -> 2 * n <= B /\ 2 * B <= MAX_VALUE -> 3 * (Emax * n) <= MAX_VALUE ->
  (forall i, 0 <= i < n -> 0 <= rnd i < n - 1) -> (exists l, IntArrayList.repr ids l) ->
  returns (prepare rnd picks ids ns e0 g0) (fun '(hn, he) => exists src rank, exact_data hn he src rank).
Proof.
  intros Hn HB Hbig Hrnd Hids. unfold prepare.
  eapply returns_bind; [by apply (createLabels_ok e0 g0 n Emax B ns HB Hco Hn rnd Hrnd ids Hids picks) |].
  intros [lab s] Hc. cbv beta iota. by apply serialize_ok.
Qed.

(** ** The routes *)

Section routes.
Context (hn : HubLNodes.t D) (he : HubLEdges.t) (src rank : Z -> Z) (Hd : exact_data hn he src rank).

Definition is_path (s d : Z) (p : list Z) (x : Z) : Prop :=
  linked (original he src) p x /\ head p = Some s /\ last p = Some d.

Lemma path_walk_original s d p x : is_path s d p x -> cwalk e0 g0 s d x /\ linked (edge_of e0 g0) p x.
Proof.
  intros (Hl & Hs & Ht). assert (linked (edge_of e0 g0) p x) as Hl' by
    (clear - Hl Hd; induction Hl; constructor; [by apply (ed_original _ _ _ _ Hd) | done]).
  split; [by apply (linked_walk e0 g0 p x Hl') | done].
Qed.

Lemma walk_path s d x : 0 <= s < n -> cwalk e0 g0 s d x -> exists p, is_path s d p x.
Proof.
  intros Hs. induction 1 as [| u d y Hw [p (Hl & Hh & Hlast)] Hy].
  { exists [s]. split; [constructor | done]. }
  destruct (cwalk_node e0 g0 n Emax Emax Hg s u d Hs Hw) as [Hu _]. apply last_Some in Hlast as [p' ->].
  exists (p' ++ [u; dst e0 y]). split; [| split].
  - apply linked_join; [done |]. rewrite <-(Z.add_0_r (weight e0 y)). constructor; [| constructor].
    apply (ed_back _ _ _ _ Hd); [done | by exists y].
  - destruct p'; [done |]. exact Hh.
  - by rewrite last_app_cons.
Qed.
End routes.
End served.

(** [res] is a shortest way of the original graph, or says that there is none. *)
Definition exact_answer {D} (e : Edges.t) (g : DynamicGrid.t) (s d : Z) (res : RoutingResult.t D) : Prop :=
  if routeFound res then distance e g s d (overallDistance res) /\
    exists p, path res = Some p /\ linked (edge_of e g) p (overallDistance res) /\ head p = Some s /\ last p = Some d
  else forall x, ~ cwalk e g s d x.

(** The server that has read the data; the grid file is not read then. *)
Definition servedWorld {D} (nd : Node D) (ed : Edge) (hn : HubLNodes.t D) (he : HubLEdges.t) : world D :=
  mkWorld true None nd ed hn he.

Section server.
Context {D : Type} `{!JDouble D} (e : Edges.t) (g : DynamicGrid.t) (n Emax B : Z) (ns : Nodes D).
Context (Hco : contractible e g n Emax B ns) (Hcoord : alen (nLongitude ns) = n) (Hbig : 3 * (Emax * n) <= MAX_VALUE).
Context (nd : Node D) (ed : Edge) (hn : HubLNodes.t D) (he : HubLEdges.t) (src rank : Z -> Z).
Context (Hd : exact_data e g n Emax ns hn he src rank).

Lemma served_node v : HubLRoute.node_id hn v <-> 0 <= v < n.
Proof. unfold HubLRoute.node_id. rewrite (ed_count _ _ _ _ _ _ _ _ _ Hd). lia. Qed.

Lemma served_world : hub_world (servedWorld nd ed hn he) src rank (Emax * n).
Proof.
  destruct (ed_coords _ _ _ _ _ _ _ _ _ Hd) as [E1 E2]. destruct (co_nodes _ _ _ _ _ _ Hco) as [Hcount _].
  pose proof (sb_room _ _ _ _ _ (co_search _ _ _ _ _ _ Hco)) as [HE _].
  split; cbn; unfold getNumOfNodes; rewrite ?E1, ?E2; try done.
  - rewrite Hcoord. apply (ed_count _ _ _ _ _ _ _ _ _ Hd).
  - rewrite Hcoord. exact Hcount.
  - apply (ed_edges _ _ _ _ _ _ _ _ _ Hd).
  - apply (ed_sound _ _ _ _ _ _ _ _ _ Hd).
  - unfold MAX_VALUE in *. lia.
  - intros x Hx. apply served_node. by apply (ed_dest _ _ _ _ _ _ _ _ _ Hd).
  - intros v Hv%served_node. by apply (ed_levels _ _ _ _ _ _ _ _ _ Hd).
  - intros s d p x Hs%served_node Ht%served_node Hp. apply (ed_cover _ _ _ _ _ _ _ _ _ Hd); [done | done |].
    by apply (path_walk_original e g n Emax ns hn he src rank Hd s d p x).
Qed.

Lemma answered_exactly s d res : 0 <= s < n -> answered (hubContract (servedWorld nd ed hn he) src) s d res ->
  exact_answer e g s d res.
Proof.
  intros Hs. unfold answered, exact_answer. cbn [isRoute hubContract servedWorld hublEdges].
  destruct (routeFound res).
  - intros (p & Hp & _ & Hroute & Hmin). destruct (path_walk_original e g n Emax ns hn he src rank Hd s d p _ Hroute) as [Hw Hl].
    split; [split; [done |] |].
    + intros x Hx. destruct (walk_path e g n Emax B ns Hco hn he src rank Hd s d x Hs Hx) as [p' Hp']. by apply (Hmin p' x).
    + exists p. destruct Hroute as (_ & ? & ?). done.
  - intros Hno x Hx. destruct (walk_path e g n Emax B ns Hco hn he src rank Hd s d x Hs Hx) as [p' Hp']. by apply (Hno p' x).
Qed.
(** The server on such data. *)
Lemma exact_served `{!DoubleOrder D} time p q router : server_ready (servedWorld nd ed hn he) router ->
  exists N, forall fuel, (N <= fuel)%nat ->
  returns (serve (servedWorld nd ed hn he) fuel time (mkRequest (Some p) (Some q)) router) (fun '(resp, r') =>
    server_ready (servedWorld nd ed hn he) (Some r') /\
    replied (servedWorld nd ed hn he) (fun s d res => 0 <= s < n /\ exact_answer e g s d res) p q resp).
Proof.
  intros Hr. destruct (serve_ok (servedWorld nd ed hn he) src rank (Emax * n) 0 0 time p q router served_world Hr) as [N HN].
  exists N. intros fuel Hfuel. eapply returns_mono; [by apply HN |]. cbv beta. intros [resp r'] [Hr' Hresp]. split; [done |].
  eapply replied_mono; [| exact Hresp]. intros s d res Hs _. unfold nodesOf in Hs. cbn in Hs. unfold getNumOfNodes in Hs.
  destruct (ed_coords _ _ _ _ _ _ _ _ _ Hd) as [_ E]. rewrite E, Hcoord in Hs. split; [done |]. by apply answered_exactly.
Qed.
End server.

(** ** Property *)

(** The whole system is exact: from a simple symmetric graph, whatever the shuffle and the
    interleaving of the label threads, the preprocessing ends without an exception, and the server
    that runs on its data answers every request between the nearest nodes of the two points with
    their distance in the graph and a path along its edges of that length, or that there is no
    route when no walk connects them. *)
Theorem served_exactly {D} `{!JDouble D, !DoubleOrder D} e g n Emax B (ns : Nodes D) rnd picks ids l nd ed :
  contractible e g n Emax B ns -> all_edges e g n -> alen (nLongitude ns) = n ->
  2 * n <= B -> 2 * B <= MAX_VALUE -> 3 * (Emax * n) <= MAX_VALUE -> 0 <= n -> n <> 1 ->
  (forall i, 0 <= i < n -> 0 <= rnd i < n - 1) -> IntArrayList.repr ids l ->
  returns (prepare rnd picks ids ns e g) (fun '(hn, he) => let w := servedWorld nd ed hn he in
    forall time p q router, server_ready w router -> exists N, forall fuel, (N <= fuel)%nat ->
    returns (serve w fuel time (mkRequest (Some p) (Some q)) router) (fun '(resp, r') =>
      server_ready w (Some r') /\ replied w (exact_answer e g) p q resp)).
Proof.
  intros Hco Hall Hcoord HB1 HB2 Hbig Hn Hn1 Hrnd Hids. eapply returns_mono.
  { by apply (prepared_data e g n Emax B ns Hco Hall rnd picks ids (conj Hn Hn1) (conj HB1 HB2) Hbig Hrnd (ex_intro _ l Hids)). }
  cbv beta. intros [hn he] (src & rank & Hd). cbv zeta. intros time p q router Hr.
  destruct (exact_served e g n Emax B ns Hco Hcoord Hbig nd ed hn he src rank Hd time p q router Hr) as [N HN].
  exists N. intros fuel Hfuel. eapply returns_mono; [by apply HN |]. cbv beta. intros [resp r'] [Hr' Hresp]. split; [done |].
  by eapply replied_mono; [| exact Hresp]; intros s d res _ _ [_ ?].
Qed.

(** ** Witness: the path 1 - 0 - 2, with its three nodes in one plane *)

#[local] Existing Instance intDouble.
#[local] Existing Instance intDouble_order.

Definition shoreNodes : Nodes Z := mkNodes [3; 3; 3] [4; 6; 5] [0; 0; 0].
Definition noGrid : Node Z := mkNode [] [].
Definition noEdges : Edge := mkEdge [] [] [].

Lemma path_all : all_edges pathStore pathRows 3.
Proof.
  intros x Hx. cbn in Hx. assert (x = 0 \/ x = 1 \/ x = 2 \/ x = 3) as [-> | [-> | [-> | ->]]] by lia;
    [exists 1 | exists 0 | exists 0 | exists 2]; (split; [lia |]); apply list_elem_of_In; vm_compute; tauto.
Qed.

(** The request from the point of node 1 to the point of node 2 is answered over node 0. *)
Lemma served_exactly_witness :
  match prepare centreFirst (fun _ => []) pathIds shoreNodes pathStore pathRows with
  | Ok (hn, he) => fst <$> serve (servedWorld noGrid noEdges hn he) 20 50 (mkRequest (Some (mkLatLong 3 6)) (Some (mkLatLong 3 5))) None
      = Ok (OK (RoutingResult.mk (Some [1; 0; 2]) (Some [[3; 6]; [3; 4]; [3; 5]]) 12 50 true))
  | Err _ => False
  end /\
  returns (prepare centreFirst (fun _ => []) pathIds shoreNodes pathStore pathRows) (fun '(hn, he) =>
    let w := servedWorld noGrid noEdges hn he in
    forall time p q router, server_ready w router -> exists N, forall fuel, (N <= fuel)%nat ->
    returns (serve w fuel time (mkRequest (Some p) (Some q)) router) (fun '(resp, r') =>
      server_ready w (Some r') /\ replied w (exact_answer pathStore pathRows) p q resp)).
Proof.
  split; [vm_compute; reflexivity |].
  apply (served_exactly pathStore pathRows 3 12 8 shoreNodes centreFirst (fun _ => []) pathIds [] noGrid noEdges);
    [by apply path_graph | apply path_all | done | lia | done | done | lia | lia | apply centreFirst_ok | apply pathIds_ok].
Defined.
