(* ===== verification/Import.v ===== *)
(** * From the grid file to the graph

    [DynamicGrid.importFmiFile] on the file of a simple symmetric graph with at most four edges
    per node: it leaves the edges of the file, and a graph that can be contracted. *)

From S2P Require Import Prelude Text Doubles DijkstraGrid HubLEdges HubLNodes HubLRouter HubLRoute Grid Edges DynamicGrid CHSearch LevelGraph LevelCorrect Hierarchy.
From S2P Require Import Preprocessing Controller Serving.

(** ** The rows of edge ids *)

Section rows.
Context (starts : list Z) (n : Z).
Notation m := (alen starts).

(** The edges below [i] that start at [u], in order. *)
Definition from (u i : Z) : list Z := filter (fun x : Z => starts.[x] = u) (seqZ 0 i).

Lemma from_S u i : 0 <= i -> from u (i + 1) = from u i ++ (if decide (starts.[i] = u) then [i] else []).
Proof.
  intros Hi. unfold from. replace (i + 1) with (Z.of_nat (S (Z.to_nat i))) by lia. rewrite seqZ_S, filter_app.
  replace (Z.of_nat (Z.to_nat i)) with i by lia. done.
Qed.

Lemma elem_of_from u i x : x ∈ from u i <-> 0 <= x < i /\ starts.[x] = u.
Proof. unfold from. rewrite list_elem_of_filter, elem_of_seqZ, Z.add_0_l. tauto. Qed.

Lemma from_le u i j : 0 <= i <= j -> alen (from u i) <= alen (from u j).
Proof.
  intros Hij. assert (length (from u i) <= length (from u j))%nat; [| unfold alen; lia].
  apply submseteq_length, NoDup_submseteq; [apply NoDup_filter, NoDup_seqZ |]. intros x. rewrite !elem_of_from. lia.
Qed.

Context (Hstarts : forall x, 0 <= x < m -> 0 <= starts.[x] < n) (Hfour : forall u, 0 <= u < n -> alen (from u m) <= 4).
Context (Hm : m <= MAX_VALUE).

Definition rows_upto (i : Z) (st : list (option (list Z)) * list Z) : Prop :=
  alen st.1 = n /\ alen st.2 = n /\ forall u, 0 <= u < n -> exists r, st.1.[u] = Some r /\ alen r = 4 /\
    st.2.[u] = alen (from u i) /\ take (length (from u i)) r = from u i.

Lemma sortEdge_ok i st : 0 <= i < m -> rows_upto i st -> returns (sortEdge starts i st) (rows_upto (i + 1)).
Proof.
  destruct st as [rows counts]. intros Hi (L1 & L2 & Hrows). cbn [fst snd] in *. pose proof (Hstarts i Hi) as Hu.
  set (u := starts.[i]) in *. destruct (Hrows u Hu) as (r & Er & Hr & Ec & Htake).
  assert (alen (from u i) + 1 <= 4) as Hroom.
  { specialize (Hfour u Hu). pose proof (from_le u (i + 1) m ltac:(lia)) as Hle. rewrite from_S, decide_True, alen_app in Hle by (done || lia).
    change (alen [i]) with 1 in Hle. lia. }
  pose proof (alen_nonneg (from u i)). unfold sortEdge. rewrite aget_ok, bind_ok by lia. fold u.
  rewrite (aget_ok counts u), bind_ok, Ec by lia. unfold setCell, row. rewrite (aget_ok rows u), bind_ok, Er, bind_ok by lia.
  rewrite (aset_ok r), bind_ok by lia. rewrite (aset_ok rows), bind_ok by lia. unfold incr. rewrite (aget_ok counts u), bind_ok, Ec by lia.
  rewrite iadd_id by (unfold is_int, MIN_VALUE, MAX_VALUE; lia). rewrite aset_ok, bind_ok by lia. ret.
  split; [cbn; by autorewrite with alen |]. split; [cbn; by autorewrite with alen |]. cbn [fst snd]. intros v Hv.
  rewrite from_S by lia. fold u. rewrite !at_insert by lia. destruct (decide (u = v)) as [<- | Hne]; rewrite ?decide_True, ?decide_False by done.
  - eexists. split; [done |]. split; [by rewrite alen_insert |].
    split; [by rewrite alen_app |]. rewrite length_app. cbn [length].
    rewrite Nat.add_1_r, (take_S_r _ _ i); [f_equal |].
    + rewrite take_insert_ge by (unfold alen; lia). done.
    + replace (Z.to_nat (alen (from u i))) with (length (from u i)) by (unfold alen; lia).
      apply list_lookup_insert_eq. unfold alen in *. lia.
  - rewrite app_nil_r. by apply Hrows.
Qed.

Lemma sortEdges_ok : 0 <= n -> returns (forRange 0 m (sortEdge starts) (replicate (Z.to_nat n) (Some (replicate 4 0)), replicate (Z.to_nat n) 0))
  (rows_upto m).
Proof.
  intros Hn. apply (forRange_inv rows_upto); [apply alen_nonneg | | intros i st; apply sortEdge_ok].
  split; [by apply alen_replicate |]. split; [by apply alen_replicate |]. cbn [fst snd]. intros u Hu. exists (replicate 4 0).
  split; [apply list_lookup_total_correct, lookup_replicate; split; [done | lia] |]. split; [done |]. split; [| done].
  apply list_lookup_total_correct, lookup_replicate. split; [done | lia].
Qed.

(** [initializeEdges] copies every row. *)
Lemma initializeEdges_ok rows counts : rows_upto m (rows, counts) ->
  returns (initializeEdges rows counts) (fun g => g = DynamicGrid.mk rows counts rows counts).
Proof.
  intros (L1 & _ & Hrows). cbn [fst snd] in *. unfold initializeEdges. eapply returns_bind.
  - apply (forEach_inv (fun pre acc => acc = pre)); [done |]. intros pre r todo acc E ->.
    assert (exists l, r = Some l) as [l ->]; [| by ret].
    assert (rows.[alen pre] = r) as Er by (rewrite E, at_app_r, Z.sub_diag by lia; done).
    destruct (Hrows (alen pre)) as (l & El & _); [| exists l; congruence].
    pose proof (alen_nonneg pre). rewrite <-L1, E, alen_app, alen_cons. pose proof (alen_nonneg todo). lia.
  - cbv beta. intros copies ->. by ret.
Qed.

Lemma rows_graph rows counts : rows_upto m (rows, counts) -> let g := DynamicGrid.mk rows counts rows counts in
  grid_ok g n /\ (forall u, 0 <= u < n -> current g u = from u m /\ everEdge g u = from u m) /\
  forall B u, 4 <= B -> 0 <= u < n -> roomy B rows u.
Proof.
  intros (L1 & L2 & Hrows). cbn [fst snd] in *. cbv zeta.
  assert (table_ok rows counts n) as Ht.
  { split; [done | done |]. intros u Hu. right. destruct (Hrows u Hu) as (r & Er & Hr & Ec & _). exists r. rewrite Ec, Hr.
    split; [done |]. pose proof (alen_nonneg (from u m)). specialize (Hfour u Hu). unfold MAX_VALUE. lia. }
  split; [by split |]. split.
  - intros u Hu. destruct (Hrows u Hu) as (r & Er & Hr & Ec & Htake). unfold current, everEdge, slice. cbn. rewrite Er, Ec. cbn.
    replace (Z.to_nat (alen (from u m))) with (length (from u m)) by (unfold alen; lia). done.
  - intros B u HB Hu. destruct (Hrows u Hu) as (r & Er & Hr & _). exists r. split; [done | lia].
Qed.
End rows.

(** ** The graph of a file *)

(** A walk along the edges of a list. *)
Inductive gwalk (l : list TmpEdge) (a : Z) : Z -> Z -> Prop :=
| gw_here : gwalk l a a 0
| gw_step u d v w : gwalk l a u d -> mkTmpEdge u v w ∈ l -> gwalk l a v (d + w).

(** A simple symmetric graph on [n] nodes with at most four edges per node, all of them strictly
    shorter than every detour, in which no shortest way is longer than [Emax]. *)
Record sea_list (n Emax : Z) (l : list TmpEdge) : Prop := {
  sl_range : forall u v w, mkTmpEdge u v w ∈ l -> 0 <= u < n /\ 0 <= v < n /\ v <> u /\ 0 < w <= Emax;
  sl_unique : NoDup ((fun x => (tStart x, tDest x)) <$> l);
  sl_sym : forall u v w, mkTmpEdge u v w ∈ l -> mkTmpEdge v u w ∈ l;
  sl_four : forall u : Z, alen (filter (fun s : Z => s = u) (tStart <$> l)) <= 4;
  sl_bound : forall a u d, 0 <= a < n -> gwalk l a u d -> exists d', gwalk l a u d' /\ d' <= Emax;
  sl_strict : forall u v w c d1 d2, mkTmpEdge u v w ∈ l -> c <> u -> c <> v ->
    gwalk l u c d1 -> gwalk l c v d2 -> w < d1 + d2;
}.

(** The order of the edges in the file does not matter. *)
#[export] Instance gwalk_proper : Proper ((≡ₚ) ==> (=) ==> (=) ==> (=) ==> iff) gwalk.
Proof.
  assert (forall l l' a v d, l ≡ₚ l' -> gwalk l a v d -> gwalk l' a v d) as H.
  { intros l l' a v d Hl. induction 1 as [| u d v w Hw IH Hin]; [constructor |]. rewrite Hl in Hin. by apply (gw_step _ _ u). }
  intros l l' Hl a ? <- v ? <- d ? <-. by split; apply H.
Qed.

#[export] Instance sea_list_proper n Emax : Proper ((≡ₚ) ==> iff) (sea_list n Emax).
Proof.
  assert (forall l l', l ≡ₚ l' -> sea_list n Emax l -> sea_list n Emax l') as H.
  { intros l l' Hl [H1 H2 H3 H4 H5 H6]. split; setoid_rewrite <-Hl; assumption. }
  intros l l' Hl. by split; apply H.
Qed.

Section graph.
Context (l : list TmpEdge) (n Emax : Z) (Hl : sea_list n Emax l).
Context (e : Edges.t) (g : DynamicGrid.t).
Notation m := (alen l).
Notation starts := (tStart <$> l).

(** The store has the arrays of [l] and no shortcut, the grid their ids. *)
Context (Hnum : numOfOriginalEdges e = m) (Hst : originalEdgeStart e = starts).
Context (Hde : originalEdgeDest e = tDest <$> l) (Hdi : originalEdgeDist e = tDist <$> l).
Context (Hcur : forall u, 0 <= u < n -> current g u = from starts u m).

Lemma fmap_at (p : TmpEdge -> Z) x : 0 <= x < m -> (p <$> l).[x] = p l.[x].
Proof. intros Hx. apply (list_lookup_total_fmap p l). unfold alen in Hx. lia. Qed.

Lemma edge_data x : 0 <= x < m -> Edges.getDest e x = Ok (tDest l.[x]) /\ Edges.getDist e x = Ok (tDist l.[x]) /\
  Edges.src e x = tStart l.[x].
Proof.
  intros Hx. unfold Edges.getDest, Edges.getDist, Edges.src. rewrite Hnum, Hst, Hde, Hdi. destruct (Z.ltb_spec x m); [| lia].
  rewrite !aget_ok by (rewrite alen_fmap; lia). by rewrite !fmap_at.
Qed.

Lemma edge_ends x : 0 <= x < m -> dst e x = tDest l.[x] /\ weight e x = tDist l.[x].
Proof. intros Hx. unfold dst, weight. by destruct (edge_data x Hx) as (-> & -> & _). Qed.

Lemma in_row u x : 0 <= u < n -> x ∈ current g u <-> 0 <= x < m /\ tStart l.[x] = u.
Proof.
  intros Hu. rewrite Hcur, elem_of_from by done. split; intros [Hx E]; (split; [done |]);
    [rewrite <-fmap_at by done; done | rewrite fmap_at by done; done].
Qed.

Lemma row_edge u x : 0 <= u < n -> x ∈ current g u -> 0 <= x < m /\ mkTmpEdge u (dst e x) (weight e x) ∈ l.
Proof.
  intros Hu [Hx <-]%in_row; [| done]. split; [done |]. destruct (edge_ends x Hx) as [-> ->].
  replace (mkTmpEdge _ _ _) with l.[x] by (by destruct (l.[x])). by apply at_In.
Qed.

Lemma row_of_edge u v w : mkTmpEdge u v w ∈ l -> exists x, x ∈ current g u /\ dst e x = v /\ weight e x = w.
Proof.
  intros Hin. destruct (sl_range _ _ _ Hl u v w Hin) as [Hu _]. apply In_at in Hin as (x & Hx & E). exists x.
  rewrite in_row by done. destruct (edge_ends x Hx) as [-> ->]. by rewrite E.
Qed.

Lemma walk_cwalk a v d : gwalk l a v d -> cwalk e g a v d.
Proof.
  induction 1 as [| u d v w Hw IH Hin]; [constructor |]. destruct (row_of_edge u v w Hin) as (x & Hx & <- & <-). by apply (cw_step _ _ _ u).
Qed.

Lemma cwalk_gwalk a v d : 0 <= a < n -> cwalk e g a v d -> gwalk l a v d /\ 0 <= v < n.
Proof.
  intros Ha. induction 1 as [| u d x Hw [IH Hu] Hx]; [split; [constructor | done] |].
  destruct (row_edge u x Hu Hx) as [_ Hin]. split; [by apply (gw_step _ _ u) | apply (sl_range _ _ _ Hl _ _ _ Hin)].
Qed.

Lemma rows_simple u : 0 <= u < n -> NoDup (dst e <$> current g u).
Proof.
  intros Hu. apply NoDup_fmap_2_strong; [| rewrite Hcur by done; apply NoDup_filter, NoDup_seqZ].
  intros x y [Hx Ex]%in_row [Hy Ey]%in_row E; [| done..]. pose proof (sl_unique _ _ _ Hl) as Hnd. rewrite NoDup_alt in Hnd.
  destruct (edge_ends x Hx) as [Edx _], (edge_ends y Hy) as [Edy _]. enough (Z.to_nat x = Z.to_nat y) by lia.
  apply (Hnd _ _ (u, dst e x)); rewrite list_lookup_fmap, at_lookup by done; cbn.
  - by rewrite Ex, Edx.
  - by rewrite Ey, E, Edy.
Qed.

Lemma graph_all : all_edges e g n.
Proof.
  intros x Hx. rewrite Hnum in Hx. exists (tStart l.[x]). assert (l.[x] ∈ l) as Hin by by apply at_In.
  destruct (l.[x]) as [u v w] eqn:E. apply (sl_range _ _ _ Hl) in Hin as [Hu _]. cbn. split; [done |]. rewrite in_row by done.
  by rewrite E.
Qed.

Lemma edge_of_list u v w : 0 <= u < n -> edge_of e g u v w <-> mkTmpEdge u v w ∈ l.
Proof.
  intros Hu. split; [| apply row_of_edge]. intros (x & Hx & <- & <-). by apply row_edge.
Qed.

Section contractible.
Context {D : Type} (ns : Nodes D) (B : Z).
Context (Hgrid : grid_ok g n) (Hever : forall u, 0 <= u < n -> everEdge g u = current g u).
Context (Hrows : forall u, 0 <= u < n -> roomy B (allEdgeIds g) u /\ roomy B (currentEdgeIds g) u).
Context (Hmodels : Edges.models e []) (Hinc : 0 < shortcutEdgeSizeIncrease e).
Context (Hroom : 0 <= Emax /\ 2 * Emax < MAX_VALUE) (Hids : 0 <= n /\ m + n * n < MAX_VALUE).

Lemma graph_searchable : searchable e g n Emax Emax.
Proof.
  split.
  - done.
  - pose proof (alen_nonneg l). nia.
  - intros u x Hu Hx. destruct (row_edge u x Hu Hx) as [Hxm Hin]. destruct (edge_ends x Hxm) as [Ed Ew].
    destruct (edge_data x Hxm) as (E1 & E2 & _). rewrite E1, E2, <-Ed, <-Ew.
    destruct (sl_range _ _ _ Hl _ _ _ Hin) as (_ & ? & ? & ?). done.
  - apply rows_simple.
  - intros u x Hu Hx. apply row_of_edge, (sl_sym _ _ _ Hl). by apply row_edge.
  - intros a u d Ha Hw. apply cwalk_gwalk in Hw as [Hw _]; [| done]. destruct (sl_bound _ _ _ Hl a u d Ha Hw) as (d' & Hw' & Hle).
    exists d'. split; [by apply walk_cwalk | done].
  - lia.
Qed.

Lemma graph_contractible : getNodeCount ns = n /\ alen (nLevels ns) = n -> contractible e g n Emax B ns.
Proof.
  intros Hns. pose proof Hmodels as (_ & Hnext & _). rewrite alen_nil in Hnext. split.
  - apply graph_searchable.
  - intros u x Hu Hx c d1 d2 Hcu Hcx H1 H2. destruct (row_edge u x Hu Hx) as [_ Hin].
    apply cwalk_gwalk in H1 as [H1 Hc]; [| done]. apply cwalk_gwalk in H2 as [H2 _]; [| done].
    by apply (sl_strict _ _ _ Hl u (dst e x) _ c).
  - done.
  - intros u x Hu Hx. destruct (row_edge u x Hu Hx) as [? _]. lia.
  - done.
  - intros u x Hu Hx. apply in_row in Hx as [Hx <-]; [| done]. split; [lia |]. by destruct (edge_data x Hx) as (_ & _ & ?).
  - split; try done; [apply NoDup_nil_2 | set_solver | intros k Hk; unfold alen in Hk; cbn in Hk; lia | lia].
  - done.
Qed.
End contractible.
End graph.

(** ** The import *)

(** The arrays of the original edges are kept. *)
Lemma initialize_kept s m : 0 <= m -> alen (originalEdgeStart s) = m -> alen (originalEdgeDest s) = m ->
  alen (originalEdgeDist s) = m -> returns (initializeForShortcutEdges s m) (fun s' => Edges.models s' [] /\
    (2 <= m -> 0 < shortcutEdgeSizeIncrease s') /\ originalEdgeStart s' = originalEdgeStart s /\
    originalEdgeDest s' = originalEdgeDest s /\ originalEdgeDist s' = originalEdgeDist s /\ numOfOriginalEdges s' = m).
Proof.
  intros Hm H1 H2 H3. destruct (returns_elim _ _ (initialize_models s m Hm H1 H2 H3)) as (s' & E & Hs & Hinc).
  apply (returns_intro _ _ s' E). split; [done |]. split; [intros H; rewrite Hinc; dlia |].
  unfold initializeForShortcutEdges, newArray in E.
  destruct (m `quot` 2 <? 0); [done |]. destruct (m `quot` 2 * 2 <? 0); [done |]. rewrite !bind_ok in E. by injection E as <-.
Qed.

(** The nodes of the file in order, and its edges under the new ids. *)
Section import.
Context {D : Type} `{!JDouble D} `{!DoubleText D}.
Context (entrySet : gmap Z (list TmpEdge) -> list (Z * list TmpEdge)).
Context (Hentries : forall m, entrySet m ≡ₚ map_to_list m).
Context (nodes : list (TmpNode D)) (es : list (Z * Z * Z)) (Hok : file_ok nodes es).
Notation n := (alen nodes).
Notation l := (translate nodes <$> es).

Context (Emax : Z) (Hl : sea_list n Emax l) (Hne : es <> []).

(** Symmetric, so none is missing. *)
Lemma sea_symmetric : symmetric l.
Proof.
  intros [u v w] Hin. exists (mkTmpEdge v u w). split; [by apply (sl_sym _ _ _ Hl) |]. unfold opposite. cbn. by rewrite !Z.eqb_refl.
Qed.

(** An edge and its reverse are two edges of two nodes. *)
Lemma sea_sizes : 2 <= n /\ 2 <= alen es /\ 0 < Emax.
Proof.
  destruct es as [| x es']; [done |]. assert (translate nodes x ∈ translate nodes <$> x :: es') as Hin by (cbn; left).
  destruct (translate nodes x) as [u v w]. pose proof (sl_range _ _ _ Hl u v w Hin) as (Hu & Hv & Huv & Hw).
  split; [lia |]. split; [| lia]. apply (sl_sym _ _ _ Hl) in Hin as Hback.
  destruct es' as [| y es'']; [| rewrite !alen_cons; pose proof (alen_nonneg es''); lia].
  apply list_elem_of_singleton in Hin, Hback. congruence.
Qed.

Context (Hids : alen es + n * n < MAX_VALUE) (HE : 3 * (Emax * n) <= MAX_VALUE).

(** What the import leaves: the sorted edges, their ids in the rows of their start nodes. *)
Definition imported_graph (ns : Nodes D) (e : Edges.t) (g : DynamicGrid.t) : Prop :=
  contractible e g n Emax (2 * n) ns /\ all_edges e g n /\
  nLatitude ns = tLat <$> nodes /\ nLongitude ns = tLong <$> nodes /\
  (forall u v w, 0 <= u < n -> edge_of e g u v w <-> mkTmpEdge u v w ∈ l) /\
  (forall a v d, 0 <= a < n -> cwalk e g a v d <-> gwalk l a v d).

Lemma rows_four (ll : list TmpEdge) u : sea_list n Emax ll -> alen (from (tStart <$> ll) u (alen ll)) <= 4.
Proof.
  intros Hll. etransitivity; [| apply (sl_four _ _ _ Hll u)]. apply Z.eq_le_incl. unfold alen. f_equal. set (ss := tStart <$> ll).
  replace (length ll) with (length ss) by apply length_fmap.
  assert (forall i, (i <= length ss)%nat -> length (from ss u (Z.of_nat i)) = length (filter (fun s : Z => s = u) (take i ss))) as H.
  { induction i as [| i IH]; intros Hi; [done |]. replace (Z.of_nat (S i)) with (Z.of_nat i + 1) by lia. rewrite from_S by lia.
    rewrite (take_S_r ss i ss.[Z.of_nat i]) by (rewrite <-at_lookup by (unfold alen; lia); f_equal; lia).
    rewrite filter_app, !length_app, IH by lia. f_equal. rewrite filter_cons, filter_nil. by case_decide. }
  rewrite H, take_ge by lia. done.
Qed.

Lemma import_ok e0 h1 h2 : returns (DynamicGrid.importFmiFile entrySet e0 (fileOf nodes es h1 h2))
  (fun '(ns, e, g) => imported_graph ns e g).
Proof.
  destruct sea_sizes as (Hn & Hm & HEmax). destruct (readFmi_ok entrySet Hentries nodes es Hok h1 h2) as (extra & E & _ & _ & Hextra & _).
  rewrite Hextra, app_nil_r in E by apply sea_symmetric. set (ll := sortBy tStart (sortBy tStart l)) in E.
  assert (ll ≡ₚ l) as Hll by (unfold ll; by rewrite !sortBy_perm). assert (sea_list n Emax ll) as Hsl by by rewrite Hll.
  assert (alen ll = alen es) as Hlen by by rewrite Hll, alen_fmap.
  unfold DynamicGrid.importFmiFile. rewrite E, bind_ok. unfold imported. cbn [fLat fLong fEdge startNode destNode dist].
  unfold initializeLvls, newArray. rewrite !alen_fmap. destruct (Z.ltb_spec n 0); [lia |]. rewrite !bind_ok. cbv zeta.
  eapply returns_bind.
  { apply (initialize_kept _ (alen ll)); cbn; [apply alen_nonneg | apply alen_fmap ..]. }
  cbv beta. intros e (Hmodels & Hinc & E1 & E2 & E3 & E4). cbn in E1, E2, E3, E4. rewrite bind_ok. unfold fill. rewrite length_replicate.
  set (starts := tStart <$> ll) in *. assert (alen starts = alen ll) as Hs by apply alen_fmap. rewrite <-Hs.
  assert (forall x, 0 <= x < alen starts -> 0 <= starts.[x] < n) as Hstarts.
  { intros x Hx. unfold starts. rewrite fmap_at by lia. assert (ll.[x] ∈ ll) as Hin by (apply at_In; lia). destruct (ll.[x]) as [u v w].
    apply (sl_range _ _ _ Hsl _ _ _ Hin). }
  assert (forall u, 0 <= u < n -> alen (from starts u (alen starts)) <= 4) as Hfour.
  { intros u _. rewrite Hs. by apply rows_four. }
  eapply returns_bind; [apply (sortEdges_ok starts n Hstarts Hfour); nia |]. cbv beta. intros [rows counts] Hrows.
  eapply returns_bind; [by apply (initializeEdges_ok starts n) |]. cbv beta. intros g ->. ret.
  destruct (rows_graph starts n Hfour rows counts Hrows) as (Hgrid & Hcur & Hroomy).
  set (g := DynamicGrid.mk rows counts rows counts) in *.
  assert (forall u, 0 <= u < n -> current g u = from starts u (alen ll)) as Hcur'.
  { intros u Hu. rewrite <-Hs. by apply Hcur. }
  assert (numOfOriginalEdges e = alen ll) as Hnum by by rewrite E4.
  split.
  { apply (graph_contractible ll n Emax Hsl e g Hnum E1 E2 E3 Hcur' (mkNodes (tLat <$> nodes) (tLong <$> nodes) (replicate (Z.to_nat n) 0))).
    - done.
    - intros u Hu. by destruct (Hcur u Hu) as [-> ->].
    - intros u Hu. split; apply Hroomy; lia.
    - done.
    - apply Hinc. lia.
    - nia.
    - lia.
    - unfold getNodeCount. cbn. rewrite alen_fmap, alen_replicate by lia. done. }
  split; [by apply (graph_all ll n Emax Hsl e g) |]. split; [done |]. split; [done |]. split.
  - intros u v w Hu. rewrite <-Hll. by apply (edge_of_list ll n Emax Hsl e g).
  - intros a v d Ha. rewrite <-Hll. split; [intros Hw; by apply (cwalk_gwalk ll n Emax Hsl e g) in Hw as [? _] | by apply (walk_cwalk ll n Emax Hsl e g)].
Qed.
End import.

(** ** The answers for a file *)

(** [res] is a shortest way along the edges [l], or says that there is none. *)
Definition file_answer {D} (l : list TmpEdge) (s d : Z) (res : RoutingResult.t D) : Prop :=
  if RoutingResult.routeFound res then
    let w := RoutingResult.overallDistance res in
    gwalk l s d w /\ (forall w', gwalk l s d w' -> w <= w') /\
    exists p, RoutingResult.path res = Some p /\ linked (fun u v x => mkTmpEdge u v x ∈ l) p w /\ head p = Some s /\ last p = Some d
  else forall w, ~ gwalk l s d w.

Section answers.
Context (l : list TmpEdge) (n Emax : Z) (Hl : sea_list n Emax l) (e : Edges.t) (g : DynamicGrid.t).
Context (Hedges : forall u v w, 0 <= u < n -> edge_of e g u v w <-> mkTmpEdge u v w ∈ l).
Context (Hwalks : forall a v d, 0 <= a < n -> cwalk e g a v d <-> gwalk l a v d).

Lemma linked_file p w : linked (edge_of e g) p w -> (forall s, head p = Some s -> 0 <= s < n) ->
  linked (fun u v x => mkTmpEdge u v x ∈ l) p w.
Proof.
  induction 1 as [x | x y p w d He Hp IH]; intros Hx; [constructor |]. specialize (Hx x eq_refl). apply Hedges in He; [| done].
  constructor; [done |]. apply IH. intros s [= <-]. by apply (sl_range _ _ _ Hl _ _ _ He).
Qed.

Lemma file_answered {D} s d (res : RoutingResult.t D) : 0 <= s < n -> exact_answer e g s d res -> file_answer l s d res.
Proof.
  intros Hs. unfold exact_answer, file_answer. destruct (RoutingResult.routeFound res).
  - intros ([Hw Hmin] & p & Hp & Hlink & Hhead & Hlast). apply Hwalks in Hw; [| done]. split; [done |]. split.
    + intros w' Hw'. by apply Hmin, Hwalks.
    + exists p. split; [done |]. split; [| done]. apply linked_file; [done |]. intros s' Hs'. congruence.
  - intros Hno w Hw. by apply (Hno w), Hwalks.
Qed.
End answers.

(** ** Witness: the file of the path 20 - 10 - 30 *)

#[local] Existing Instance intDouble.
#[local] Existing Instance intDouble_order.
#[local] Existing Instance intDouble_text.

Definition pathEdges : list (Z * Z * Z) := [(20, 10, 5); (10, 20, 5); (10, 30, 7); (30, 10, 7)].
Definition pathList : list TmpEdge := [mkTmpEdge 1 0 5; mkTmpEdge 0 1 5; mkTmpEdge 0 2 7; mkTmpEdge 2 0 7].

Lemma path_translated : translate fileNodes <$> pathEdges = pathList.
Proof. vm_compute. reflexivity. Qed.

Lemma path_file_ok : file_ok fileNodes pathEdges.
Proof.
  split; [| | | | reflexivity | discriminate].
  - apply NoDup_ListNoDup. repeat constructor; cbn; lia.
  - apply Forall_forall. repeat (apply Forall_cons; split); try apply Forall_nil_2; done.
  - apply Forall_forall. repeat (apply Forall_cons; split); try apply Forall_nil_2; cbn;
      (split; [set_solver |]); (split; [set_solver |]); done.
  - apply Forall_forall. repeat (apply Forall_cons; split); try apply Forall_nil_2; cbn;
      [exists (10, 20, 5) | exists (20, 10, 5) | exists (30, 10, 7) | exists (10, 20, 5)];
      (split; [set_solver | done]).
Qed.

Lemma path_edge u v w : mkTmpEdge u v w ∈ pathList <-> (u = 1 /\ v = 0 /\ w = 5) \/ (u = 0 /\ v = 1 /\ w = 5) \/
  (u = 0 /\ v = 2 /\ w = 7) \/ (u = 2 /\ v = 0 /\ w = 7).
Proof.
  unfold pathList. rewrite !elem_of_cons, elem_of_nil. split; [intros [[=] | [[=] | [[=] | [[=] | []]]]]; subst; tauto |].
  intros [(-> & -> & ->) | [(-> & -> & ->) | [(-> & -> & ->) | (-> & -> & ->)]]]; tauto.
Qed.

(** No walk is shorter than the line on which the nodes lie. *)
Lemma path_gwalk u v d : 0 <= u < 3 -> gwalk pathList u v d -> 0 <= v < 3 /\ Z.abs (place v - place u) <= d.
Proof.
  intros Hu. induction 1 as [| x d v w Hw [Hx IH] He%path_edge]; [split; [done | lia] |].
  destruct He as [(-> & -> & ->) | [(-> & -> & ->) | [(-> & -> & ->) | (-> & -> & ->)]]]; (split; [lia |]);
    unfold place in *; cbn in *; lia.
Qed.

Lemma path_greached u v : 0 <= u < 3 -> 0 <= v < 3 -> gwalk pathList u v (Z.abs (place v - place u)).
Proof.
  assert (forall a b w, mkTmpEdge a b w ∈ pathList -> gwalk pathList a b w) as Hone.
  { intros a b w He. apply (gw_step pathList a a 0 b w); [constructor | done]. }
  assert (forall b w, mkTmpEdge 0 b w ∈ pathList -> forall a x, gwalk pathList a 0 x -> gwalk pathList a b (x + w)) as Htwo.
  { intros b w He a x Hx. by apply (gw_step _ _ 0). }
  assert (gwalk pathList 1 0 5 /\ gwalk pathList 2 0 7 /\ gwalk pathList 0 1 5 /\ gwalk pathList 0 2 7) as (H1 & H2 & H3 & H4).
  { split_and!; apply Hone, path_edge; tauto. }
  assert (gwalk pathList 1 2 12) as H5 by (apply (Htwo 2 7) in H1; [done | apply path_edge; tauto]).
  assert (gwalk pathList 2 1 12) as H6 by (apply (Htwo 1 5) in H2; [done | apply path_edge; tauto]).
  intros Hu Hv. assert (u = 0 \/ u = 1 \/ u = 2) as [-> | [-> | ->]] by lia; assert (v = 0 \/ v = 1 \/ v = 2) as [-> | [-> | ->]] by lia;
    first [exact (gw_here _ _) | assumption].
Qed.

Lemma path_sea : sea_list 3 12 pathList.
Proof.
  split.
  - intros u v w He%path_edge. lia.
  - apply NoDup_ListNoDup. vm_compute. repeat constructor; cbn; intuition congruence.
  - intros u v w He. apply path_edge in He. apply path_edge. tauto.
  - intros u. cbn [pathList fmap list_fmap tStart]. rewrite !filter_cons, filter_nil.
    repeat case_decide; unfold alen; cbn; lia.
  - intros a u d Ha Hw. destruct (path_gwalk a u d Ha Hw) as [Hu _]. exists (Z.abs (place u - place a)).
    split; [by apply path_greached |]. unfold place. repeat case_match; lia.
  - intros u v w c d1 d2 He%path_edge Hcu Hcv H1 H2. assert (0 <= u < 3) as Hu by lia.
    destruct (path_gwalk u c d1 Hu H1) as [Hc Hd1]. destruct (path_gwalk c v d2 Hc H2) as [_ Hd2].
    assert (c = 0 \/ c = 1 \/ c = 2) as Hcc by lia.
    destruct He as [(-> & -> & ->) | [(-> & -> & ->) | [(-> & -> & ->) | (-> & -> & ->)]]];
      destruct Hcc as [-> | [-> | ->]]; unfold place in *; cbn in *; lia.
Qed.

Definition pathFile : list string := fileOf fileNodes pathEdges "#" "".
Definition noStore : Edges.t := Edges.mk [] [] [] 0 [] [] [] [] 0 0.
