(* ===== verification/Stores.v ===== *)
(** * HubLStore.java, CHData.java and TmpLabelData.java: the files between the programs

    Each class copies static fields into an object and writes it to a file, or reads the object
    and puts its fields back.  [Files] has the writing and the interface of Java's serialization. *)

From S2P Require Import Prelude Files Edges DynamicGrid Labels HubLEdges HubLNodes.

(** ** The objects *)

Record CHData (D : Type) := mkCHData {
  originalEdgeStart : list Z; originalEdgeDest : list Z; originalEdgeDist : list Z; numOfOriginalEdges : Z;
  shortcutEdgeStart : list Z; shortcutEdgeDest : list Z; shortcutEdgeDist : list Z; shortcutEdgeParts : list Z;
  nextShortcutId : Z; shortcutEdgeSizeIncrease : Z;
  latitude : list D; longitude : list D; levels : list Z;
  currentEdgeIds : table; currentEdgeCount : list Z; allEdgeIds : table; allEdgeCount : list Z;
}.
Arguments mkCHData {D}.

Record TmpLabelData := mkTmpLabelData {
  labelNodes : list (option (list Z)); labelEdges : list (option (list Z)); labelDist : list (option (list Z));
}.

Record HubLStore (D : Type) := mkHubLStore {
  hlLevel : Z; longitudes : list D; latitudes : list D; hubLevels : list Z; edgesOffset : list Z; edges : list Z;
  labelOffset : list Z; labelNode : list Z; labelEdge : list Z; hubLabelDist : list Z;
  dest : list Z; dist : list Z; firstShortcutIdx : Z; shortcutParts : list Z;
}.
Arguments mkHubLStore {D}.

(** What a file can hold. *)
Inductive object (D : Type) :=
| AnyCHData (d : CHData D)
| AnyTmpLabelData (d : TmpLabelData)
| AnyHubLStore (d : HubLStore D).
Arguments AnyCHData {D}.
Arguments AnyTmpLabelData {D}.
Arguments AnyHubLStore {D}.

Section stores.
Context {D B : Type} `{!Serial (object D) B}.
Implicit Types (files : disk B) (cut : option nat).

(** Reading: [None] is the answer [false], when there is no such file.  A broken file, or one of
    another class, ends the program. *)
Definition readFile {A} (cast : object D -> option A) (name : string) files : res (option A) :=
  match files !! name with
  | None => Ok None
  | Some b =>
      match deserialize b with
      | Ok o => match cast o with Some d => Ok (Some d) | None => Err SystemExit end
      | Err _ => Err SystemExit
      end
  end.

(** *** CHData *)

Definition CH_FILE : string := "ch_data.ser".

Definition newCHData (e : Edges.t) (ns : Nodes D) (g : DynamicGrid.t) : CHData D :=
  mkCHData (Edges.originalEdgeStart e) (Edges.originalEdgeDest e) (Edges.originalEdgeDist e) (Edges.numOfOriginalEdges e)
    (Edges.shortcutEdgeStart e) (Edges.shortcutEdgeDest e) (Edges.shortcutEdgeDist e) (Edges.shortcutEdgeParts e)
    (Edges.nextShortcutId e) (Edges.shortcutEdgeSizeIncrease e)
    (nLatitude ns) (nLongitude ns) (nLevels ns)
    (DynamicGrid.currentEdgeIds g) (DynamicGrid.currentEdgeCount g) (DynamicGrid.allEdgeIds g) (DynamicGrid.allEdgeCount g).

Definition setCHData (d : CHData D) : Nodes D * Edges.t * DynamicGrid.t :=
  let '(mkCHData os od oi nm ss sd si pa nx inc la lo lv ci cc ai ac) := d in
  (mkNodes la lo lv, Edges.mk os od oi nm ss sd si pa nx inc, DynamicGrid.mk ci cc ai ac).

Definition readCH files : res (option (Nodes D * Edges.t * DynamicGrid.t)) :=
  d ← readFile (fun o => match o with AnyCHData d => Some d | _ => None end) CH_FILE files;
  Ok (option_map setCHData d).

Definition storeCH cut (ns : Nodes D) (e : Edges.t) (g : DynamicGrid.t) files : disk B :=
  writeFile cut CH_FILE (serialize (AnyCHData (newCHData e ns g))) files.

(** *** TmpLabelData *)

Definition TMP_FILE : string := "tmp_label_data.ser".

Definition readTmp files : res (option Labels.t) :=
  d ← readFile (fun o => match o with AnyTmpLabelData d => Some d | _ => None end) TMP_FILE files;
  Ok (option_map (fun d => Labels.mk (labelNodes d) (labelEdges d) (labelDist d)) d).

Definition newTmpLabelData (lab : Labels.t) : TmpLabelData :=
  mkTmpLabelData (Labels.labelNodes lab) (Labels.labelEdges lab) (Labels.labelDist lab).

Definition storeTmp cut (lab : Labels.t) files : disk B :=
  writeFile cut TMP_FILE (serialize (AnyTmpLabelData (D := D) (newTmpLabelData lab))) files.

(** *** HubLStore *)

Definition newHubLStore (hn : HubLNodes.t D) (he : HubLEdges.t) : HubLStore D :=
  mkHubLStore (HubLNodes.hlLevel hn) (HubLNodes.longitudes hn) (HubLNodes.latitudes hn) (HubLNodes.levels hn)
    (HubLNodes.edgesOffset hn) (HubLNodes.edges hn) (HubLNodes.labelOffset hn) (HubLNodes.labelNode hn)
    (HubLNodes.labelEdge hn) (HubLNodes.labelDist hn)
    (HubLEdges.dest he) (HubLEdges.dist he) (HubLEdges.firstShortcutIdx he) (HubLEdges.shortcutParts he).

Definition setHubLStore (d : HubLStore D) : HubLNodes.t D * HubLEdges.t :=
  let '(mkHubLStore hl lo la lv eo es lof ln le ld de di fs pa) := d in
  (HubLNodes.mk hl lv lo la eo es lof ln le ld, HubLEdges.mk de di fs pa).

Definition readHubL (filename : string) files : res (option (HubLNodes.t D * HubLEdges.t)) :=
  d ← readFile (fun o => match o with AnyHubLStore d => Some d | _ => None end) filename files;
  Ok (option_map setHubLStore d).

Definition storeHubL cut (filename : string) (hn : HubLNodes.t D) (he : HubLEdges.t) files : disk B :=
  writeFile cut filename (serialize (AnyHubLStore (newHubLStore hn he))) files.

(** ** Reading *)

Lemma readFile_None {A} (cast : object D -> option A) name files : readFile cast name files = Ok None <-> files !! name = None.
Proof.
  unfold readFile. destruct (files !! name) as [b |]; [| done].
  destruct (deserialize b) as [o |]; [destruct (cast o) |]; done.
Qed.

(** A file that was cut off ends the program that reads it. *)
Lemma readFile_unreadable {A} (cast : object D -> option A) name files : unreadable (object D) name files = true ->
  readFile cast name files = Err SystemExit.
Proof.
  unfold unreadable, readFile. destruct (files !! name) as [b |]; [| done]. by destruct (deserialize b).
Qed.

Lemma readFile_ne {A} (cast : object D -> option A) name name' content files : name <> name' ->
  readFile cast name (<[name' := content]> files) = readFile cast name files.
Proof. intros Hne. unfold readFile. by rewrite lookup_insert_ne. Qed.

Lemma readCH_missing files : readCH files = Ok None <-> files !! CH_FILE = None.
Proof.
  rewrite <-(readFile_None (fun o => match o with AnyCHData d => Some d | _ => None end)). unfold readCH.
  destruct (readFile _ CH_FILE files) as [[d |] |]; done.
Qed.

Lemma readTmp_missing files : readTmp files = Ok None <-> files !! TMP_FILE = None.
Proof.
  rewrite <-(readFile_None (fun o => match o with AnyTmpLabelData d => Some d | _ => None end)). unfold readTmp.
  destruct (readFile _ TMP_FILE files) as [[d |] |]; done.
Qed.

Lemma readCH_unreadable files : unreadable (object D) CH_FILE files = true -> readCH files = Err SystemExit.
Proof. intros H. unfold readCH. by rewrite readFile_unreadable. Qed.

Lemma readTmp_unreadable files : unreadable (object D) TMP_FILE files = true -> readTmp files = Err SystemExit.
Proof. intros H. unfold readTmp. by rewrite readFile_unreadable. Qed.

Lemma readCH_ne name content files : CH_FILE <> name -> readCH (<[name := content]> files) = readCH files.
Proof. intros Hne. unfold readCH. by rewrite readFile_ne. Qed.

Lemma readTmp_ne name content files : TMP_FILE <> name -> readTmp (<[name := content]> files) = readTmp files.
Proof. intros Hne. unfold readTmp. by rewrite readFile_ne. Qed.

(** ** What was stored is read back *)

Context `{!SerialLaws (object D) B}.

Definition ch_stored (ns : Nodes D) (e : Edges.t) (g : DynamicGrid.t) files : Prop :=
  files !! CH_FILE = Some (serialize (AnyCHData (newCHData e ns g))).
Definition tmp_stored (lab : Labels.t) files : Prop :=
  files !! TMP_FILE = Some (serialize (AnyTmpLabelData (D := D) (newTmpLabelData lab))).
Definition hub_stored (name : string) (hn : HubLNodes.t D) (he : HubLEdges.t) files : Prop :=
  files !! name = Some (serialize (AnyHubLStore (newHubLStore hn he))).

Lemma read_file {A} (cast : object D -> option A) name files o d : files !! name = Some (serialize o) -> cast o = Some d ->
  readFile cast name files = Ok (Some d).
Proof. intros E Ec. unfold readFile. by rewrite E, deserialize_serialize, Ec. Qed.

Lemma readCH_stored files ns e g : ch_stored ns e g files -> readCH files = Ok (Some (ns, e, g)).
Proof. intros E. unfold readCH. erewrite read_file by done. by destruct ns, e, g. Qed.

Lemma readTmp_stored files lab : tmp_stored lab files -> readTmp files = Ok (Some lab).
Proof. intros E. unfold readTmp. erewrite read_file by done. by destruct lab. Qed.

Lemma readHubL_stored name files hn he : hub_stored name hn he files -> readHubL name files = Ok (Some (hn, he)).
Proof. intros E. unfold readHubL. erewrite read_file by done. by destruct hn, he. Qed.
End stores.
