(* ===== verification/Main.v ===== *)
(** * LabelCreator.main and SearouterApplication.main

    The two programs, with the files between them.  The first one resumes runs that were cut off, is
    exact in the end, and gives up on a file that was cut off in the middle; the second one then
    answers every request exactly. *)

From S2P Require Import Prelude Files Text Doubles IntArrayList RoutingResult DijkstraGrid HubLEdges HubLNodes HubLRouter HubLRoute Grid Edges.
From S2P Require Import DynamicGrid Labels LabelCreator Contraction LevelGraph LevelCorrect Hierarchy.
From S2P Require Import Preprocessing Controller Serving Import Stores.

Definition FMI_FILE_NAME : string := "exported_grid.fmi".
Definition HUB_LABEL_FILE_NAME : string := "hub_label_data".

Section programs.
Context {D B : Type} `{!JDouble D} `{!Serial (object D) B}.
Implicit Types (files : disk B) (cut torn : option nat).

(** The resources of the class path: texts, line by line. *)
Notation resources := (gmap string (list string)).
Context (entrySet : gmap Z (list TmpEdge) -> list (Z * list TmpEdge)) (classPath : resources).

(** A missing resource is an [IOException]: its handler ends the program. *)
Definition openResource (name : string) : res (list string) :=
  match classPath !! name with Some file => Ok file | None => Err SystemExit end.

(** ** LabelCreator.main *)

Section creator.
Context (rnd : Z -> Z) (picks : Z -> list nat) (ids : IntArrayList.t) (e0 : Edges.t).

(** Step 1: the contraction hierarchy.  [cut] is the number of bytes of the file after which the program
    is killed, if it is. *)
Definition createCH cut files : res (Nodes D * Edges.t * DynamicGrid.t * disk B) :=
  stored ← readCH files;
  match stored with
  | Some ch => Ok (ch, files)
  | None =>
      file ← openResource FMI_FILE_NAME;
      '(ns, e, g) ← DynamicGrid.importFmiFile entrySet e0 file;
      s ← calculateCH rnd ids ns e g;
      Ok (Contraction.nodes s, Contraction.edges s, Contraction.grid s,
          storeCH cut (Contraction.nodes s) (Contraction.edges s) (Contraction.grid s) files)
  end.

(** Step 2: the labels. *)
Definition createTmpLabels cut (ns : Nodes D) (e : Edges.t) (g : DynamicGrid.t) files : res (Labels.t * disk B) :=
  stored ← readTmp files;
  match stored with
  | Some lab => Ok (lab, files)
  | None =>
      lab ← (lab ← Labels.initialize (getNodeCount ns); calcLabels ns e g picks lab);
      Ok (lab, storeTmp cut lab files)
  end.

(** Step 3: the data for the router. *)
Definition createHubLData cut (ns : Nodes D) (e : Edges.t) (g : DynamicGrid.t) (lab : Labels.t) files : res (disk B) :=
  '(hn, he) ← serializeHubLData ns e g lab;
  Ok (storeHubL cut HUB_LABEL_FILE_NAME hn he files).

Definition main files : res (disk B) :=
  '(ns, e, g, files) ← createCH None files;
  '(lab, files) ← createTmpLabels None ns e g files;
  createHubLData None ns e g lab files.

(** What is in the working directory after a run that is killed after its first [k] steps, or, if
    [torn] is a number, in the next step, when that many bytes of its file have been written. *)
Definition mainUpTo (k : nat) torn files : res (disk B) :=
  match k, torn with
  | O, None => Ok files
  | O, Some _ => '(_, files) ← createCH torn files; Ok files
  | S k, _ =>
      '(ns, e, g, files) ← createCH None files;
      match k, torn with
      | O, None => Ok files
      | O, Some _ => '(_, files) ← createTmpLabels torn ns e g files; Ok files
      | S k, _ =>
          '(lab, files) ← createTmpLabels None ns e g files;
          match k, torn with
          | O, None => Ok files
          | O, Some _ => createHubLData torn ns e g lab files
          | S _, _ => createHubLData None ns e g lab files
          end
      end
  end.
End creator.

(** ** SearouterApplication.main

    [w0] has the static fields before.  Without a hub label file, or after an [IOException], they
    are what they were, and the server starts all the same. *)
Definition startServer (USE_HUB_LABEL_ROUTER : bool) (w0 : world D) files : res (world D) :=
  if USE_HUB_LABEL_ROUTER then
    stored ← readHubL HUB_LABEL_FILE_NAME files;
    Ok (let '(hn, he) := default (hublNodes w0, hublEdges w0) stored in
        mkWorld true (Controller.offset w0) (Controller.node w0) (Controller.edge w0) hn he)
  else
    match classPath !! FMI_FILE_NAME with
    | None => Ok (mkWorld false (Controller.offset w0) (Controller.node w0) (Controller.edge w0) (hublNodes w0) (hublEdges w0))
    | Some file =>
        '(nd, g) ← Grid.importFmiFile entrySet file;
        Ok (mkWorld false (Some (DijkstraGrid.offset g)) nd (DijkstraGrid.edges g) (hublNodes w0) (hublEdges w0))
    end.
End programs.

(** ** Cut off and run again *)

Section again.
Context {D B : Type} `{!JDouble D} `{!Serial (object D) B, !SerialLaws (object D) B}.
Context (entrySet : gmap Z (list TmpEdge) -> list (Z * list TmpEdge)) (classPath : gmap string (list string)).
Implicit Types (files : disk B) (cut torn : option nat).
Notation createCH := (createCH entrySet classPath).
Notation main := (main entrySet classPath).
Notation mainUpTo := (mainUpTo entrySet classPath).
Notation unreadable := (unreadable (object D)).

(** A step that finds its file reads it; otherwise it computes and writes, up to where it is killed. *)
Lemma createCH_cases cut rnd ids e0 files ns e g files' : createCH rnd ids e0 cut files = Ok (ns, e, g, files') ->
  (files' = files /\ readCH files = Ok (Some (ns, e, g))) \/
  (files !! CH_FILE = None /\ files' = storeCH cut ns e g files /\
    forall cut', createCH rnd ids e0 cut' files = Ok (ns, e, g, storeCH cut' ns e g files)).
Proof.
  unfold Main.createCH. destruct (readCH files) as [[ch |] |] eqn:E; [| | done]; rewrite bind_ok.
  - intros [= -> <-]. by left.
  - apply readCH_missing in E. destruct (openResource _ _) as [file |]; [rewrite bind_ok | done].
    destruct (DynamicGrid.importFmiFile _ _ _) as [[[ns0 e1] g0] |] eqn:Ei; [rewrite bind_ok | done].
    destruct (calculateCH _ _ _ _ _) as [s |] eqn:Ec; [rewrite bind_ok | done]. intros [= <- <- <- <-].
    right. split; [done |]. split; [done |]. intros cut'. rewrite !bind_ok. rewrite ?Ei, ?bind_ok. by rewrite Ec, ?bind_ok.
Qed.

Lemma createTmpLabels_cases cut picks ns e g files lab files' : createTmpLabels picks cut ns e g files = Ok (lab, files') ->
  (files' = files /\ readTmp (D := D) files = Ok (Some lab)) \/
  (files !! TMP_FILE = None /\ files' = storeTmp (D := D) cut lab files /\
    forall cut', createTmpLabels picks cut' ns e g files = Ok (lab, storeTmp (D := D) cut' lab files)).
Proof.
  unfold createTmpLabels. destruct (readTmp files) as [[lab0 |] |] eqn:E; [| | done]; rewrite bind_ok.
  - intros [= -> <-]. by left.
  - apply readTmp_missing in E. match goal with |- mbind _ ?m = _ -> _ => destruct m as [lab0 |]; [rewrite bind_ok | done] end.
    intros [= <- <-]. right. split; [done |]. split; [done |]. intros cut'. by rewrite !bind_ok.
Qed.

(** A step that has been done is not done again: the next run reads what it stored. *)
Lemma createCH_again rnd ids e0 files ns e g files' : createCH rnd ids e0 None files = Ok (ns, e, g, files') ->
  readCH files' = Ok (Some (ns, e, g)).
Proof.
  intros [[-> H] | (_ & -> & _)]%createCH_cases; [done |]. apply readCH_stored. unfold storeCH. rewrite writeFile_all. apply lookup_insert_eq.
Qed.

Lemma createTmpLabels_again picks ns e g files lab files' ch : createTmpLabels picks None ns e g files = Ok (lab, files') ->
  readCH (D := D) files = Ok ch -> readTmp (D := D) files' = Ok (Some lab) /\ readCH (D := D) files' = Ok ch.
Proof.
  intros [[-> H] | (_ & -> & _)]%createTmpLabels_cases Hch; [done |]. unfold storeTmp. rewrite writeFile_all. split.
  - apply (readTmp_stored (D := D)), lookup_insert_eq.
  - by rewrite readCH_ne.
Qed.

(** The third step reads only what the first two have stored, and always writes its file anew. *)
Lemma main_reads rnd picks ids e0 files ns e g lab : readCH files = Ok (Some (ns, e, g)) -> readTmp (D := D) files = Ok (Some lab) ->
  main rnd picks ids e0 files = createHubLData None ns e g lab files.
Proof. intros H1 H2. unfold Main.main, Main.createCH, createTmpLabels. by rewrite H1, !bind_ok, H2, !bind_ok. Qed.

Lemma hub_overwritten ns e g lab content files : createHubLData None ns e g lab (<[HUB_LABEL_FILE_NAME := content]> files) =
  createHubLData (D := D) None ns e g lab files.
Proof.
  unfold createHubLData. destruct (serializeHubLData _ _ _ _) as [[hn he] |]; [| done]. rewrite !bind_ok. unfold storeHubL.
  by rewrite !writeFile_all, insert_insert_eq.
Qed.

Lemma createHubLData_writes cut ns e g lab files files' : createHubLData (D := D) cut ns e g lab files = Ok files' ->
  exists content, files' = <[HUB_LABEL_FILE_NAME := content]> files.
Proof.
  unfold createHubLData. destruct (serializeHubLData _ _ _ _) as [[hn he] |]; [rewrite bind_ok | done]. intros [= <-].
  unfold storeHubL. rewrite writeFile_bytes. by eexists.
Qed.

(** Killed between two steps. *)
Lemma resumes_between rnd picks ids e0 k files files' : mainUpTo rnd picks ids e0 k None files = Ok files' ->
  main rnd picks ids e0 files' = main rnd picks ids e0 files.
Proof.
  destruct k as [| k]; cbn [Main.mainUpTo]; [by intros [= ->] |]. unfold Main.main at 2.
  destruct (createCH _ _ _ _ files) as [[[[ns e] g] f1] |] eqn:E1; [| done]. rewrite !bind_ok.
  pose proof (createCH_again _ _ _ _ _ _ _ _ E1) as H1. destruct k as [| k].
  { intros [= ->]. unfold Main.main, Main.createCH. by rewrite H1, !bind_ok. }
  destruct (createTmpLabels _ _ _ _ _ f1) as [[lab f2] |] eqn:E2; [| done]. rewrite !bind_ok.
  destruct (createTmpLabels_again _ _ _ _ _ _ _ _ E2 H1) as [H2 H2']. destruct k as [| k].
  { intros [= ->]. by apply main_reads. }
  intros E3. destruct (createHubLData_writes _ _ _ _ _ _ _ E3) as [content ->].
  rewrite (main_reads _ _ _ _ _ ns e g lab); [apply hub_overwritten | by rewrite readCH_ne | by rewrite readTmp_ne].
Qed.

Lemma main_idle rnd picks ids e0 files files' : main rnd picks ids e0 files = Ok files' ->
  forall rnd' picks' ids' e0', main rnd' picks' ids' e0' files' = Ok files'.
Proof.
  unfold Main.main at 1. destruct (createCH _ _ _ _ files) as [[[[ns e] g] f1] |] eqn:E1; [| done]. rewrite !bind_ok.
  pose proof (createCH_again _ _ _ _ _ _ _ _ E1) as H1.
  destruct (createTmpLabels _ _ _ _ _ f1) as [[lab f2] |] eqn:E2; [| done]. rewrite !bind_ok.
  destruct (createTmpLabels_again _ _ _ _ _ _ _ _ E2 H1) as [H2 H2']. intros E3 ????.
  destruct (createHubLData_writes _ _ _ _ _ _ _ E3) as [content ->]. rewrite <-E3.
  rewrite (main_reads _ _ _ _ _ ns e g lab); [apply hub_overwritten | by rewrite readCH_ne | by rewrite readTmp_ne].
Qed.

(** What a killed run can leave: the files between two steps, or one of the three files torn. *)
Inductive killed rnd picks ids e0 (k : nat) torn files : disk B -> Prop :=
| killed_between k' files' : mainUpTo rnd picks ids e0 k' None files = Ok files' -> killed rnd picks ids e0 k torn files files'
| killed_ch m content : k = O -> torn = Some m -> files !! CH_FILE = None -> unreadable CH_FILE (<[CH_FILE := content]> files) = true ->
    killed rnd picks ids e0 k torn files (<[CH_FILE := content]> files)
| killed_tmp m content ns e g f1 : k = 1%nat -> torn = Some m -> createCH rnd ids e0 None files = Ok (ns, e, g, f1) ->
    f1 !! TMP_FILE = None -> unreadable TMP_FILE (<[TMP_FILE := content]> f1) = true ->
    killed rnd picks ids e0 k torn files (<[TMP_FILE := content]> f1)
| killed_hub m content f2 : k = 2%nat -> torn = Some m -> mainUpTo rnd picks ids e0 2 None files = Ok f2 ->
    killed rnd picks ids e0 k torn files (<[HUB_LABEL_FILE_NAME := content]> f2).

Lemma killed_ok rnd picks ids e0 k torn files files' : mainUpTo rnd picks ids e0 k torn files = Ok files' ->
  killed rnd picks ids e0 k torn files files'.
Proof.
  intros H. destruct torn as [m |]; [| by apply killed_between with k].
  destruct k as [| [| [| k]]]; cbn [Main.mainUpTo] in H.
  - destruct (createCH _ _ _ _ files) as [[[[ns e] g] f1] |] eqn:E1; [rewrite bind_ok in H | done]. injection H as ->.
    destruct (createCH_cases _ _ _ _ _ _ _ _ _ E1) as [[-> _] | (Hno & -> & Hcut)]; [by apply killed_between with O |].
    unfold storeCH in *. setoid_rewrite writeFile_bytes in Hcut. rewrite writeFile_bytes.
    destruct (unreadable CH_FILE (<[CH_FILE := take m (serialize (AnyCHData (newCHData e ns g)))]> files)) eqn:Eu; [by apply (killed_ch _ _ _ _ _ _ _ m) |].
    rewrite (unreadable_cut _ _ _ _ Eu). apply killed_between with 1%nat. cbn [Main.mainUpTo]. by rewrite (Hcut None), bind_ok.
  - destruct (createCH _ _ _ _ files) as [[[[ns e] g] f1] |] eqn:E1; [rewrite bind_ok in H | done].
    destruct (createTmpLabels _ _ _ _ _ f1) as [[lab f2] |] eqn:E2; [rewrite bind_ok in H | done]. injection H as ->.
    destruct (createTmpLabels_cases _ _ _ _ _ _ _ _ E2) as [[-> _] | (Hno & -> & Hcut)].
    { apply killed_between with 1%nat. cbn [Main.mainUpTo]. by rewrite E1, bind_ok. }
    unfold storeTmp in *. setoid_rewrite writeFile_bytes in Hcut. rewrite writeFile_bytes.
    destruct (unreadable TMP_FILE (<[TMP_FILE := take m (serialize (AnyTmpLabelData (D := D) (newTmpLabelData lab)))]> f1)) eqn:Eu;
      [by apply (killed_tmp _ _ _ _ _ _ _ m _ ns e g) |].
    rewrite (unreadable_cut _ _ _ _ Eu). apply killed_between with 2%nat. cbn [Main.mainUpTo]. by rewrite E1, bind_ok, (Hcut None), bind_ok.
  - destruct (createCH _ _ _ _ files) as [[[[ns e] g] f1] |] eqn:E1; [rewrite bind_ok in H | done].
    destruct (createTmpLabels _ _ _ _ _ f1) as [[lab f2] |] eqn:E2; [rewrite bind_ok in H | done].
    destruct (createHubLData_writes _ _ _ _ _ _ _ H) as [content ->]. apply (killed_hub _ _ _ _ _ _ _ m); [done | done |].
    cbn [Main.mainUpTo]. by rewrite E1, bind_ok, E2, bind_ok.
  - apply killed_between with 3%nat. exact H.
Qed.

(** Between two steps the files of the first two steps are missing or whole. *)
Lemma between_whole rnd picks ids e0 k files files' : mainUpTo rnd picks ids e0 k None files = Ok files' ->
  (unreadable CH_FILE files = false -> unreadable CH_FILE files' = false) /\
  (unreadable TMP_FILE files = false -> unreadable TMP_FILE files' = false).
Proof.
  destruct k as [| k]; cbn [Main.mainUpTo]; [by intros [= ->] |].
  destruct (createCH _ _ _ _ files) as [[[[ns e] g] f1] |] eqn:E1; [| done]. rewrite !bind_ok.
  assert ((unreadable CH_FILE files = false -> unreadable CH_FILE f1 = false) /\
    (unreadable TMP_FILE files = false -> unreadable TMP_FILE f1 = false)) as [H1 H1'].
  { destruct (createCH_cases _ _ _ _ _ _ _ _ _ E1) as [[-> _] | (_ & -> & _)]; [done |]. unfold storeCH. rewrite writeFile_all.
    split; intros H; [eapply unreadable_written, lookup_insert_eq | by rewrite unreadable_ne]. }
  destruct k as [| k]; [by intros [= <-] |].
  destruct (createTmpLabels _ _ _ _ _ f1) as [[lab f2] |] eqn:E2; [| done]. rewrite !bind_ok.
  assert ((unreadable CH_FILE files = false -> unreadable CH_FILE f2 = false) /\
    (unreadable TMP_FILE files = false -> unreadable TMP_FILE f2 = false)) as H2.
  { destruct (createTmpLabels_cases _ _ _ _ _ _ _ _ E2) as [[-> _] | (_ & -> & _)]; [done |]. unfold storeTmp. rewrite writeFile_all.
    split; intros H; [rewrite unreadable_ne by done; by apply H1 | eapply unreadable_written, lookup_insert_eq]. }
  destruct k as [| k]; [by intros [= <-] |].
  intros E3. destruct (createHubLData_writes _ _ _ _ _ _ _ E3) as [content ->]. by rewrite !unreadable_ne.
Qed.

(** A file that the next run would have to read is torn. *)
Definition torn_files files : bool := unreadable CH_FILE files || unreadable TMP_FILE files.

Lemma torn_ch_exits rnd picks ids e0 files : unreadable CH_FILE files = true -> main rnd picks ids e0 files = Err SystemExit.
Proof. intros H. unfold Main.main, Main.createCH. by rewrite (readCH_unreadable files H). Qed.

Lemma torn_tmp_exits rnd picks ids e0 files ch : readCH files = Ok (Some ch) -> unreadable TMP_FILE files = true ->
  main rnd picks ids e0 files = Err SystemExit.
Proof.
  intros Hch H. unfold Main.main, Main.createCH. rewrite Hch, !bind_ok. destruct ch as [[ns e] g]. cbv beta iota.
  unfold createTmpLabels. by rewrite (readTmp_unreadable files H).
Qed.
(** The file [name] could be read (or was not there) before, and cannot be read now. *)
Definition tears (name : string) files files' : Prop := unreadable name files = false /\ unreadable name files' = true.

Section killed.
Context rnd picks ids e0 k torn files files' (Hk : killed rnd picks ids e0 k torn files files').

Lemma killed_resumes : ~ tears CH_FILE files files' -> ~ tears TMP_FILE files files' ->
  main rnd picks ids e0 files' = main rnd picks ids e0 files.
Proof.
  intros Hch Htmp. destruct Hk as [k' f Hf | m content -> -> Hno Hu | m content ns e g f1 -> -> E1 Hno Hu | m content f2 -> -> Hf].
  - by apply (resumes_between rnd picks ids e0 k').
  - destruct Hch. split; [by apply unreadable_None | done].
  - destruct Htmp. split; [| done]. destruct (createCH_cases _ _ _ _ _ _ _ _ _ E1) as [[-> _] | (_ & -> & _)]; [by apply unreadable_None |].
    unfold storeCH in Hno. rewrite writeFile_all, lookup_insert_ne in Hno by done. by apply unreadable_None.
  - rewrite <-(resumes_between _ _ _ _ _ _ _ Hf). cbn [Main.mainUpTo] in Hf.
    destruct (createCH _ _ _ _ files) as [[[[ns e] g] f1] |] eqn:E1; [rewrite bind_ok in Hf | done].
    destruct (createTmpLabels _ _ _ _ _ f1) as [[lab f] |] eqn:E2; [rewrite bind_ok in Hf | done]. injection Hf as ->.
    destruct (createTmpLabels_again _ _ _ _ _ _ _ _ E2 (createCH_again _ _ _ _ _ _ _ _ E1)) as [H2 H2'].
    rewrite (main_reads _ _ _ _ f2 ns e g lab), (main_reads _ _ _ _ _ ns e g lab); rewrite ?readCH_ne, ?readTmp_ne by done; [apply hub_overwritten | done ..].
Qed.

Lemma killed_whole : torn = None \/ (2 <= k)%nat -> ~ tears CH_FILE files files' /\ ~ tears TMP_FILE files files'.
Proof.
  intros Hwhole. unfold tears.
  destruct Hk as [k' f Hf | m content -> -> Hno Hu | m content ns e g f1 -> -> E1 Hno Hu | m content f2 -> -> Hf];
    [| destruct Hwhole; [done | lia] .. |].
  - destruct (between_whole _ _ _ _ _ _ _ Hf) as [H1 H2]. split; intros [Hr Hu]; [rewrite H1 in Hu | rewrite H2 in Hu]; done.
  - destruct (between_whole _ _ _ _ _ _ _ Hf) as [H1 H2]. rewrite !unreadable_ne by done.
    split; intros [Hr Hu]; [rewrite H1 in Hu | rewrite H2 in Hu]; done.
Qed.

Lemma killed_torn name : name = CH_FILE \/ name = TMP_FILE -> tears name files files' ->
  (forall rnd' picks' ids' e0', main rnd' picks' ids' e0' files' = Err SystemExit) /\
  main rnd picks ids e0 (delete name files') = main rnd picks ids e0 files.
Proof.
  intros Hname [Hr Hu].
  destruct Hk as [k' f Hf | m content -> -> Hno _ | m content ns e g f1 -> -> E1 Hno _ | m content f2 -> -> Hf].
  - destruct (between_whole _ _ _ _ _ _ _ Hf) as [H1 H2]. destruct Hname as [-> | ->]; [rewrite H1 in Hu | rewrite H2 in Hu]; done.
  - destruct Hname as [-> | ->]; [| by rewrite unreadable_ne, Hr in Hu]. split; [intros; by apply torn_ch_exits |].
    by rewrite delete_insert_id.
  - pose proof (createCH_again _ _ _ _ _ _ _ _ E1) as H1. assert (mainUpTo rnd picks ids e0 1 None files = Ok f1) as Hf.
    { cbn [Main.mainUpTo]. by rewrite E1, bind_ok. }
    destruct (between_whole _ _ _ _ _ _ _ Hf) as [H2 _].
    destruct Hname as [-> | ->]; [rewrite unreadable_ne, H2 in Hu by done; done |]. split.
    + intros. apply (torn_tmp_exits _ _ _ _ _ (ns, e, g)); [by rewrite readCH_ne | done].
    + rewrite delete_insert_id by done. by apply (resumes_between rnd picks ids e0 1).
  - destruct (between_whole _ _ _ _ _ _ _ Hf) as [H1 H2].
    destruct Hname as [-> | ->]; rewrite unreadable_ne in Hu by done; [rewrite H1 in Hu | rewrite H2 in Hu]; done.
Qed.
End killed.
End again.

(** ** What earlier runs have left *)

(** The grid file: a simple symmetric graph, small enough for ids and distances to be ints. *)
Record sea_file {D} `{!JDouble D} (nodes : list (TmpNode D)) (es : list (Z * Z * Z)) (Emax : Z) : Prop := {
  sf_file : file_ok nodes es;
  sf_sea : sea_list (alen nodes) Emax (translate nodes <$> es);
  sf_some : es <> [];
  sf_ids : alen es + alen nodes * alen nodes < MAX_VALUE;
  sf_dist : 3 * (Emax * alen nodes) <= MAX_VALUE;
}.

(** The arguments of a run: numbers in range from the random generator, and a list to start with. *)
Definition run_ok (n : Z) (rnd : Z -> Z) (ids : IntArrayList.t) : Prop :=
  (forall i, 0 <= i < n -> 0 <= rnd i < n - 1) /\ exists l, IntArrayList.repr ids l.

Section restart.
Context {D B : Type} `{!JDouble D, !DoubleText D} `{!Serial (object D) B, !SerialLaws (object D) B}.
Context (entrySet : gmap Z (list TmpEdge) -> list (Z * list TmpEdge)) (classPath : gmap string (list string)).
Context (Hentries : forall m, entrySet m ≡ₚ map_to_list m).
Context (nodes : list (TmpNode D)) (es : list (Z * Z * Z)) (Emax : Z) (Hfile : sea_file nodes es Emax).
Context (h1 h2 : string) (Hpath : classPath !! FMI_FILE_NAME = Some (fileOf nodes es h1 h2)).
Implicit Types (files : disk B).
Notation n := (alen nodes).
Notation l := (translate nodes <$> es).
Notation main := (main entrySet classPath).
Notation mainUpTo := (mainUpTo entrySet classPath).
Notation unreadable := (unreadable (object D)).

(** The contraction [s] of the graph of the file is stored, and its labels, if any are. *)
Definition contracted_files ns e g (s : Contraction.t D) files : Prop :=
  imported_graph nodes es Emax ns e g /\ finished e g n Emax (2 * n) ns s /\
  ch_stored (Contraction.nodes s) (Contraction.edges s) (Contraction.grid s) files /\
  (files !! TMP_FILE = None \/ unreadable TMP_FILE files = true \/
    exists lab, created e g n Emax (2 * n) ns lab s /\ tmp_stored (D := D) lab files).

Inductive progress files : Prop :=
| progress_none : files !! CH_FILE = None -> files !! TMP_FILE = None -> progress files
| progress_torn : unreadable CH_FILE files = true -> files !! TMP_FILE = None -> progress files
| progress_ch ns e g s : contracted_files ns e g s files -> progress files.

(** The files that were there before the first run, or that runs have left, each killed somewhere,
    also in the middle of a file; and a file that was torn may have been deleted by hand. *)
Inductive left_by_runs : disk B -> Prop :=
| left_none files : files !! CH_FILE = None -> files !! TMP_FILE = None -> left_by_runs files
| left_killed files files' rnd picks ids e0 k torn : left_by_runs files -> run_ok n rnd ids ->
    mainUpTo rnd picks ids e0 k torn files = Ok files' -> left_by_runs files'
| left_deleted files name : left_by_runs files -> unreadable name files = true -> left_by_runs (delete name files).

Lemma file_room : (0 <= n /\ n <> 1) /\ 2 * n <= 2 * n /\ 2 * (2 * n) <= MAX_VALUE.
Proof.
  destruct Hfile as [Hok Hl Hne Hids _]. destruct (sea_sizes nodes es Hok Emax Hl Hne) as (Hn & _ & _). pose proof (alen_nonneg es).
  split; [lia |]. split; [done |]. unfold MAX_VALUE in *. nia.
Qed.

(** Only these two files matter. *)
Lemma contracted_other ns e g s files files' : files' !! CH_FILE = files !! CH_FILE -> files' !! TMP_FILE = files !! TMP_FILE ->
  contracted_files ns e g s files -> contracted_files ns e g s files'.
Proof. unfold contracted_files, ch_stored, tmp_stored, Files.unreadable. by intros -> ->. Qed.

Lemma progress_other files files' : files' !! CH_FILE = files !! CH_FILE -> files' !! TMP_FILE = files !! TMP_FILE ->
  progress files -> progress files'.
Proof.
  intros E1 E2 [Hch Htmp | Hch Htmp | ns e g s Hs].
  - apply progress_none; congruence.
  - apply progress_torn; [| congruence]. unfold Files.unreadable in *. by rewrite E1.
  - by apply (progress_ch _ ns e g s), (contracted_other _ _ _ _ files).
Qed.

Lemma createCH_ok rnd ids e0 files : progress files -> unreadable CH_FILE files = false -> run_ok n rnd ids ->
  returns (createCH entrySet classPath rnd ids e0 None files) (fun '(ns', e', g', files') => exists ns e g s,
    ns' = Contraction.nodes s /\ e' = Contraction.edges s /\ g' = Contraction.grid s /\ contracted_files ns e g s files').
Proof.
  intros Hp Hread [Hrnd Hids]. destruct file_room as (Hn & HB). destruct Hfile as [Hok Hl Hne Hroom HE]. unfold createCH.
  destruct Hp as [Hch Htmp | Hch _ | ns e g s Hs]; [| congruence |].
  - rewrite (proj2 (readCH_missing files) Hch), bind_ok. unfold openResource. rewrite Hpath, bind_ok.
    eapply returns_bind; [by apply (import_ok entrySet Hentries nodes es Hok Emax Hl Hne Hroom HE e0 h1 h2) |].
    intros [[ns e] g] Hg. pose proof Hg as (Hco & _). cbv beta iota.
    eapply returns_bind; [by apply (calculateCH_finished e g n Emax (2 * n) ns HB Hco Hn rnd Hrnd ids Hids) |].
    cbv beta. intros s Hs. ret. exists ns, e, g, s. unfold storeCH. rewrite writeFile_all.
    split; [done |]. split; [done |]. split; [done |]. split; [done |]. split; [done |]. split.
    + apply lookup_insert_eq.
    + left. by rewrite lookup_insert_ne.
  - pose proof Hs as (_ & _ & Hch & _). rewrite (readCH_stored files _ _ _ Hch), bind_ok. ret. by exists ns, e, g, s.
Qed.

Lemma createTmpLabels_ok picks ns e g s files : contracted_files ns e g s files -> unreadable TMP_FILE files = false ->
  returns (createTmpLabels picks None (Contraction.nodes s) (Contraction.edges s) (Contraction.grid s) files)
    (fun '(lab, files') => created e g n Emax (2 * n) ns lab s /\ contracted_files ns e g s files').
Proof.
  intros (Hg & Hs & Hch & Htmp) Hread. destruct file_room as (Hn & HB). unfold createTmpLabels.
  destruct Htmp as [Hno | [Htorn | (lab & Hlab & Htmp)]]; [| congruence |].
  - rewrite (proj2 (readTmp_missing (D := D) files) Hno), bind_ok.
    eapply returns_bind; [by apply (labelling_ok e g n Emax (2 * n) ns Hn picks s Hs) |]. cbv beta. intros lab Hlab. ret.
    unfold storeTmp. rewrite writeFile_all. split; [done |]. split; [done |]. split; [done |]. split; [unfold ch_stored; by rewrite lookup_insert_ne |].
    right. right. exists lab. split; [done | apply lookup_insert_eq].
  - rewrite (readTmp_stored (D := D) files lab Htmp), bind_ok. ret. split; [done |]. split; [done |]. split; [done |]. split; [done |].
    right. right. by exists lab.
Qed.

Lemma createHubLData_ok ns e g s lab files : contracted_files ns e g s files -> created e g n Emax (2 * n) ns lab s ->
  returns (createHubLData None (Contraction.nodes s) (Contraction.edges s) (Contraction.grid s) lab files) (fun files' =>
    contracted_files ns e g s files' /\ exists hn he src rank, hub_stored HUB_LABEL_FILE_NAME hn he files' /\ exact_data e g n Emax ns hn he src rank).
Proof.
  intros Hc Hlab. pose proof Hc as (Hg & _). destruct file_room as (Hn & HB). pose proof Hg as (Hco & Hall & _). unfold createHubLData.
  eapply returns_bind; [by apply (serialize_ok e g n Emax (2 * n) ns Hco Hall lab s Hn (sf_dist _ _ _ Hfile)) |].
  intros [hn he] (src & rank & Hd). cbv beta iota. ret. unfold storeHubL. rewrite writeFile_all. split.
  - apply (contracted_other _ _ _ _ files); [by rewrite lookup_insert_ne .. | done].
  - exists hn, he, src, rank. split; [apply lookup_insert_eq | done].
Qed.

(** A run keeps the progress, wherever it is killed. *)
Lemma between_progress rnd picks ids e0 k files files' : progress files -> run_ok n rnd ids ->
  mainUpTo rnd picks ids e0 k None files = Ok files' -> progress files'.
Proof.
  intros Hp Hrun. destruct k as [| k]; cbn [Main.mainUpTo]; [by intros [= <-] |].
  destruct (unreadable CH_FILE files) eqn:Eu.
  { unfold createCH. by rewrite (readCH_unreadable (D := D) files Eu). }
  destruct (returns_elim _ _ (createCH_ok rnd ids e0 files Hp Eu Hrun)) as ([[[ns' e'] g'] f1] & E1 & ns & e & g & s & -> & -> & -> & Hs).
  rewrite E1, bind_ok. destruct k as [| k]; [intros [= <-]; by econstructor |].
  destruct (unreadable TMP_FILE f1) eqn:Et.
  { unfold createTmpLabels. by rewrite (readTmp_unreadable (D := D) f1 Et). }
  destruct (returns_elim _ _ (createTmpLabels_ok picks ns e g s f1 Hs Et)) as ([lab f2] & E2 & Hlab & Hs2).
  rewrite E2, bind_ok. destruct k as [| k]; [intros [= <-]; by econstructor |].
  destruct (returns_elim _ _ (createHubLData_ok ns e g s lab f2 Hs2 Hlab)) as (f3 & E3 & Hs3 & _).
  rewrite E3. intros [= <-]. by econstructor.
Qed.

Lemma killed_progress rnd picks ids e0 k torn files files' : progress files -> run_ok n rnd ids ->
  mainUpTo rnd picks ids e0 k torn files = Ok files' -> progress files'.
Proof.
  intros Hp Hrun [k' f Hf | m content -> -> Hno Hu | m content ns' e' g' f1 -> -> E1 Hno Hu | m content f2 -> -> Hf]%killed_ok.
  - by apply (between_progress rnd picks ids e0 k' files).
  - apply progress_torn; [done |]. rewrite lookup_insert_ne by done.
    destruct Hp as [_ ? | _ ? | ns e g s (_ & _ & Hch & _)]; [done | done |]. unfold ch_stored in Hch. congruence.
  - assert (unreadable CH_FILE files = false) as Hread.
    { destruct (unreadable CH_FILE files) eqn:Eu; [| done]. unfold createCH in E1. by rewrite (readCH_unreadable (D := D) files Eu) in E1. }
    pose proof (createCH_ok rnd ids e0 files Hp Hread Hrun) as H. rewrite E1 in H. destruct H as (ns & e & g & s & -> & -> & -> & Hg & Hs & Hch & _).
    apply (progress_ch _ ns e g s). split; [done |]. split; [done |]. split; [unfold ch_stored; by rewrite lookup_insert_ne | right; by left].
  - apply (progress_other f2); [by rewrite lookup_insert_ne .. |]. by apply (between_progress rnd picks ids e0 2 files).
Qed.

(** Deleting a torn file goes back to the last good one. *)
Lemma deleted_progress files name : progress files -> unreadable name files = true -> progress (delete name files).
Proof.
  intros Hp Hu. destruct (decide (name = CH_FILE)) as [-> | Hne]; [| destruct (decide (name = TMP_FILE)) as [-> | Hne2]].
  - destruct Hp as [Hno _ | _ Htmp | ns e g s (_ & _ & Hch & _)].
    + by rewrite unreadable_None in Hu.
    + apply progress_none; [apply lookup_delete_eq | by rewrite lookup_delete_ne].
    + by rewrite (unreadable_written _ _ _ Hch) in Hu.
  - destruct Hp as [_ Hno | _ Hno | ns e g s (Hg & Hs & Hch & _)]; [by rewrite unreadable_None in Hu .. |].
    apply (progress_ch _ ns e g s). split; [done |]. split; [done |]. split; [unfold ch_stored; by rewrite lookup_delete_ne |].
    left. apply lookup_delete_eq.
  - apply (progress_other files); [by rewrite lookup_delete_ne .. | done].
Qed.

Lemma left_progress files : left_by_runs files -> progress files.
Proof.
  induction 1 as [files Hch Htmp | files files' rnd picks ids e0 k torn _ IH Hrun E | files name _ IH Hu].
  - by apply progress_none.
  - by apply (killed_progress rnd picks ids e0 k torn files).
  - by apply deleted_progress.
Qed.

(** The data that a finished run leaves; a run on a torn file exits. *)
Lemma main_ok rnd picks ids e0 files : left_by_runs files -> torn_files (D := D) files = false -> run_ok n rnd ids ->
  returns (main rnd picks ids e0 files) (fun files' => exists ns e g hn he src rank, imported_graph nodes es Emax ns e g /\
    hub_stored HUB_LABEL_FILE_NAME hn he files' /\ exact_data e g n Emax ns hn he src rank).
Proof.
  intros Hp%left_progress [Hread1 Hread2]%orb_false_iff Hrun. unfold Main.main.
  destruct (returns_elim _ _ (createCH_ok rnd ids e0 files Hp Hread1 Hrun)) as ([[[ns' e'] g'] f1] & E1 & ns & e & g & s & -> & -> & -> & Hs).
  rewrite E1, bind_ok. assert (unreadable TMP_FILE f1 = false) as Hread.
  { destruct (createCH_cases _ _ _ _ _ _ _ _ _ _ _ E1) as [[-> _] | (_ & -> & _)]; [done |]. unfold storeCH. rewrite writeFile_all. by rewrite unreadable_ne. }
  eapply returns_bind; [by apply createTmpLabels_ok |]. intros [lab f2] (Hlab & Hs2). cbv beta iota.
  eapply returns_mono; [by apply (createHubLData_ok ns e g s lab) |]. cbv beta.
  intros files' [(Hg & _) (hn & he & src & rank & Hst & Hd)]. by exists ns, e, g, hn, he, src, rank.
Qed.

Lemma torn_exits rnd picks ids e0 files : left_by_runs files -> torn_files (D := D) files = true ->
  main rnd picks ids e0 files = Err SystemExit.
Proof.
  intros Hp%left_progress [Hu | Hu]%orb_true_iff; [by apply torn_ch_exits |].
  destruct Hp as [_ Hno | _ Hno | ns e g s (_ & _ & Hch & _)]; [by rewrite unreadable_None in Hu .. |].
  apply (torn_tmp_exits _ _ _ _ _ _ _ _ (readCH_stored _ _ _ _ Hch) Hu).
Qed.
End restart.

(** ** The servers *)

(** The server knows the nodes of the file, and meets its contract, whose routes are the ways of
    the file. *)
Definition knows_nodes {D} `{!JDouble D} (w : world D) (nodes : list (TmpNode D)) : Prop :=
  if useHLRouter w
  then HubLNodes.latitudes (hublNodes w) = tLat <$> nodes /\ HubLNodes.longitudes (hublNodes w) = tLong <$> nodes /\
    Controller.offset w = None
  else DijkstraGrid.latitude (Controller.node w) = tLat <$> nodes /\
    DijkstraGrid.longitude (Controller.node w) = tLong <$> nodes /\ Controller.offset w <> None.

Record exact_world {D} `{!JDouble D} (nodes : list (TmpNode D)) (l : list TmpEdge) (w : world D) : Prop := {
  ew_nodes : knows_nodes w nodes;
  ew_contract : exists src rank Dmax W Emax, world_ok w src rank Dmax W Emax /\
    forall s d res, 0 <= s < alen nodes -> answered (theContract w src) s d res -> file_answer l s d res;
}.

(** Every request is answered exactly. *)
Definition serves_file {D} `{!JDouble D} (l : list TmpEdge) (w : world D) : Prop :=
  forall time p q router, server_ready w router -> exists N, forall fuel, (N <= fuel)%nat ->
  returns (serve w fuel time (mkRequest (Some p) (Some q)) router) (fun '(resp, r') =>
    server_ready w (Some r') /\ replied w (file_answer l) p q resp).

(** The same message, or the same length, or no route from both. *)
Definition same_reply {D} (resp1 resp2 : response D) : Prop :=
  match resp1, resp2 with
  | BadRequest b1, BadRequest b2 => b1 = b2
  | OK r1, OK r2 => routeFound r1 = routeFound r2 /\ (routeFound r1 = true -> overallDistance r1 = overallDistance r2)
  | _, _ => False
  end.

Section servers.
Context {D : Type} `{!JDouble D, !DoubleOrder D} (nodes : list (TmpNode D)) (l : list TmpEdge).

Lemma world_count (w : world D) : knows_nodes w nodes -> nodesOf w = alen nodes.
Proof.
  unfold knows_nodes, nodesOf, getNumOfNodes, nodeSize. destruct (useHLRouter w); intros (E1 & E2 & _); rewrite ?E1, ?E2; apply alen_fmap.
Qed.

Lemma world_nearest (w : world D) lat lon : knows_nodes w nodes ->
  nearestNode w lat lon = nearestOf lat lon (aget (tLat <$> nodes)) (aget (tLong <$> nodes)) (alen nodes).
Proof.
  unfold knows_nodes, nearestNode, getNearestGridNodeByCoordinates, getNumOfNodes, nodeSize, getLat, getLong, getLatitude, getLongitude.
  destruct (useHLRouter w); intros (E1 & E2 & E3).
  - by rewrite E3, E1, E2, alen_fmap.
  - destruct (Controller.offset w); [| done]. by rewrite E1, E2, alen_fmap.
Qed.

Lemma exact_serves w : exact_world nodes l w -> serves_file l w.
Proof.
  intros [Hn (src & rank & Dmax & W & Emax & Hw & Hans)] time p q router Hr.
  destruct (serve_ok w src rank Dmax W Emax time p q router Hw Hr) as [N HN]. exists N. intros fuel Hfuel.
  eapply returns_mono; [by apply HN |]. cbv beta. intros [resp r'] [Hr' Hresp]. split; [done |].
  eapply replied_mono; [| exact Hresp]. intros s d res Hs _. rewrite (world_count w Hn) in Hs. by apply Hans.
Qed.

Lemma file_answers_agree s d (r1 r2 : RoutingResult.t D) : file_answer l s d r1 -> file_answer l s d r2 ->
  routeFound r1 = routeFound r2 /\ (routeFound r1 = true -> overallDistance r1 = overallDistance r2).
Proof.
  unfold file_answer. destruct (routeFound r1), (routeFound r2).
  - intros (Hw1 & Hm1 & _) (Hw2 & Hm2 & _). split; [done |]. intros _. apply Z.le_antisymm; auto.
  - intros (Hw1 & _) Hno. by destruct (Hno _ Hw1).
  - intros Hno (Hw2 & _). by destruct (Hno _ Hw2).
  - done.
Qed.

Lemma exact_agree w1 w2 time1 time2 p q router1 router2 : exact_world nodes l w1 -> exact_world nodes l w2 ->
  server_ready w1 router1 -> server_ready w2 router2 -> exists N, forall fuel1 fuel2, (N <= fuel1)%nat -> (N <= fuel2)%nat ->
  returns (serve w1 fuel1 time1 (mkRequest (Some p) (Some q)) router1) (fun '(resp1, _) =>
    returns (serve w2 fuel2 time2 (mkRequest (Some p) (Some q)) router2) (fun '(resp2, _) => same_reply resp1 resp2)).
Proof.
  intros [Hn1 (src1 & rank1 & Dmax1 & W1 & Emax1 & Hw1 & Hans1)] [Hn2 (src2 & rank2 & Dmax2 & W2 & Emax2 & Hw2 & Hans2)] Hr1 Hr2.
  destruct (serve_responds w1 src1 rank1 Dmax1 W1 Emax1 time1 p q router1 Hw1 Hr1) as (s1 & d1 & Es1 & Ed1 & Hs1 & _ & N1 & HN1).
  destruct (serve_responds w2 src2 rank2 Dmax2 W2 Emax2 time2 p q router2 Hw2 Hr2) as (s2 & d2 & Es2 & Ed2 & Hs2 & _ & N2 & HN2).
  rewrite world_nearest in Es1, Ed1, Es2, Ed2 by done. rewrite Es1 in Es2. rewrite Ed1 in Ed2. injection Es2 as <-. injection Ed2 as <-.
  exists (N1 `max` N2)%nat. intros fuel1 fuel2 Hf1 Hf2. eapply returns_mono; [apply HN1; lia |]. intros [resp1 r1] [_ H1].
  eapply returns_mono; [apply HN2; lia |]. intros [resp2 r2] [_ H2]. rewrite (world_count w1 Hn1) in Hs1.
  destruct resp1 as [b1 | x1], resp2 as [b2 | x2]; cbn in *; try (intuition (subst; lia || done)).
  destruct H1 as (? & ? & ? & Ha1), H2 as (? & ? & ? & Ha2).
  destruct Hs1 as [[? _] | [_ Hs]]; [lia |]. apply (file_answers_agree s1 d1); auto.
Qed.
End servers.

Section start.
Context {D B : Type} `{!JDouble D, !DoubleText D, !DoubleOrder D} `{!Serial (object D) B, !SerialLaws (object D) B}.
Context (entrySet : gmap Z (list TmpEdge) -> list (Z * list TmpEdge)) (classPath : gmap string (list string)).
Context (Hentries : forall m, entrySet m ≡ₚ map_to_list m).
Context (nodes : list (TmpNode D)) (es : list (Z * Z * Z)) (Emax : Z) (Hfile : sea_file nodes es Emax).
Context (h1 h2 : string) (Hpath : classPath !! FMI_FILE_NAME = Some (fileOf nodes es h1 h2)).
Implicit Types (files : disk B).
Notation n := (alen nodes).
Notation l := (translate nodes <$> es).

Lemma hub_exact_world nd ed ns e g hn he src rank : imported_graph nodes es Emax ns e g ->
  exact_data e g n Emax ns hn he src rank -> exact_world nodes l (servedWorld nd ed hn he).
Proof.
  intros (Hco & _ & Elat & Elon & Hedges & Hwalks) Hd. destruct Hfile as [Hok Hl Hne Hids HE].
  destruct (ed_coords _ _ _ _ _ _ _ _ _ Hd) as [E1 E2]. split.
  - unfold knows_nodes. cbn. by rewrite E1, E2.
  - exists src, rank, (Emax * n), 0, 0. split.
    + apply (served_world e g n Emax (2 * n) ns Hco); [by rewrite Elon, alen_fmap | done | done].
    + intros s d res Hs Ha. apply (file_answered l n Emax Hl e g Hedges Hwalks); [done |].
      by apply (answered_exactly e g n Emax (2 * n) ns Hco nd ed hn he src rank Hd).
Qed.

(** The hub label server reads the data of the finished run. *)
Lemma startServer_hub w0 hn he files : hub_stored HUB_LABEL_FILE_NAME hn he files -> Controller.offset w0 = None ->
  startServer entrySet classPath true w0 files = Ok (servedWorld (Controller.node w0) (Controller.edge w0) hn he).
Proof. intros Hst E. unfold startServer. by rewrite (readHubL_stored _ files hn he Hst), bind_ok, E. Qed.

(** The grid graph: its walks are the ways of the file. *)
Section grid.
Context (g : graph) (Hsize : size g = n) (Hedge : forall u v w, DijkstraGrid.edge g u v w <-> mkTmpEdge u v w ∈ l).

Lemma walk_gwalk s p v d : walk g s p v d ->
  gwalk l s v d /\ linked (fun u v x => mkTmpEdge u v x ∈ l) p d /\ head p = Some s /\ last p = Some v.
Proof.
  induction 1 as [| p u d v w Hw (IH & Hlink & Hhead & Hlast) He]; [split; [constructor | split; [constructor | done]] |].
  apply Hedge in He. split; [by apply (gw_step _ _ u) |]. apply last_Some in Hlast as [p' ->]. rewrite <-app_assoc. cbn [app].
  split; [| split; [by destruct p' | by rewrite last_app_cons]].
  apply linked_join; [done |]. rewrite <-(Z.add_0_r w). constructor; [done | constructor].
Qed.

Lemma gwalk_walk s v d : gwalk l s v d -> exists p, walk g s p v d.
Proof.
  induction 1 as [| u d v w Hw [p IH] Hin]; [exists [s]; constructor |]. exists (p ++ [v]). eapply walk_step; [done |]. by apply Hedge.
Qed.

Lemma grid_answered (w : world D) s d res : theContract w (fun _ => 0) = dijkstraContract w ->
  gridOf w (default [] (Controller.offset w)) = g -> answered (theContract w (fun _ => 0)) s d res -> file_answer l s d res.
Proof.
  intros -> Eg. unfold answered, file_answer. cbn [isRoute dijkstraContract]. rewrite Eg. destruct (routeFound res).
  - intros (p & Hp & _ & Hw & Hmin). destruct (walk_gwalk s p d _ Hw) as (Hg & Hlink & Hhead & Hlast).
    split; [done |]. split; [| by exists p]. intros w' Hw'. destruct (gwalk_walk s d w' Hw') as [p' Hp']. by apply (Hmin p').
  - intros Hno w' Hw'. destruct (gwalk_walk s d w' Hw') as [p' Hp']. by apply (Hno p' w').
Qed.
End grid.

(** The Dijkstra server reads the grid file itself. *)
Lemma startServer_grid w0 files : returns (startServer entrySet classPath false w0 files) (exact_world nodes l).
Proof.
  destruct Hfile as [Hok Hl Hne Hids HE]. unfold startServer. rewrite Hpath.
  assert (forall x, x ∈ es -> 0 <= x.2 <= Emax) as Hdist.
  { intros x Hx. apply (list_elem_of_fmap_2 (translate nodes)) in Hx. by apply (sl_range _ _ _ Hl) in Hx as (_ & _ & _ & ? & ?); split; [lia |]. }
  destruct (importFmiFile_ok entrySet nodes es h1 h2 Emax Hentries Hok Hdist) as (g & extra & -> & Hsize & Hg & Hedge & _ & Hextra & _).
  rewrite bind_ok. ret. rewrite Hextra, app_nil_r in Hedge by by apply (sea_symmetric nodes es Emax Hl).
  destruct g as [m off ed]. cbn in Hsize. subst m. set (w := mkWorld false _ _ _ _ _).
  assert (gridOf w off = mkGraph n off ed) as Egrid by (unfold gridOf, nodeSize; cbn; by rewrite alen_fmap).
  split; [by cbn |]. exists (fun _ => 0), (fun _ => 0), 0, Emax, Emax. split.
  - split; [done | unfold nodeSize; cbn; by rewrite !alen_fmap | |].
    + exists off. split; [done |]. rewrite Egrid. split; [done |]. intros s Hs p v d Hw.
      apply (walk_gwalk _ Hedge) in Hw as [Hw _]. unfold nodeSize in Hs. cbn in Hs. rewrite alen_fmap in Hs.
      destruct (sl_bound _ _ _ Hl s v d Hs Hw) as (d' & Hw' & Hle). destruct (gwalk_walk _ Hedge s v d' Hw') as [p' Hp']. by exists p', d'.
    + destruct (sea_sizes nodes es Hok Emax Hl Hne) as (Hn & _ & Hpos). nia.
  - intros s d res _. by apply (grid_answered _ Hedge w).
Qed.
End start.

(** ** Properties *)

(** C1: From the grid file to the answers, through the files between the programs.  The grid file
    holds a simple symmetric graph of other than one node, with positive lengths, edges that are
    strictly shorter than every detour, at most four of them at a node, and ids and distances that
    are ints ([sea_file]).  Runs of [LabelCreator.main] went before, each killed anywhere, also
    while it was writing a file; a torn file may have been deleted.  If a torn [ch_data.ser] or
    [tmp_label_data.ser] is still there, the next run exits.  Otherwise it ends without an
    exception, whatever the iteration order of the hash map, the shuffle and the interleaving of
    the label threads; and the server that is then started, with either router, answers every
    request between the nearest nodes of the two points with the length of a shortest way along
    the edges of the grid file and a path of that length, or that there is no route when there is
    no way. *)
Theorem main_exact {D B} `{!JDouble D, !DoubleText D, !DoubleOrder D, !Serial (object D) B, !SerialLaws (object D) B}
    entrySet classPath (nodes : list (TmpNode D)) es h1 h2 Emax rnd picks ids e0 w0 (files : disk B) :
  (forall m, entrySet m ≡ₚ map_to_list m) -> sea_file nodes es Emax ->
  classPath !! FMI_FILE_NAME = Some (fileOf nodes es h1 h2) ->
  left_by_runs entrySet classPath nodes files -> run_ok (alen nodes) rnd ids -> Controller.offset w0 = None ->
  if torn_files (D := D) files then main entrySet classPath rnd picks ids e0 files = Err SystemExit
  else returns (main entrySet classPath rnd picks ids e0 files) (fun files' => forall USE_HUB_LABEL_ROUTER,
    returns (startServer entrySet classPath USE_HUB_LABEL_ROUTER w0 files') (fun w =>
      useHLRouter w = USE_HUB_LABEL_ROUTER /\ knows_nodes w nodes /\ serves_file (translate nodes <$> es) w)).
Proof.
  intros Hentries Hfile Hpath Hleft Hrun Hw0. destruct (torn_files files) eqn:Hread.
  { by apply (torn_exits entrySet classPath Hentries nodes es Emax Hfile h1 h2 Hpath). }
  eapply returns_mono; [by apply (main_ok entrySet classPath Hentries nodes es Emax Hfile h1 h2 Hpath) |]. cbv beta.
  intros files' (ns & e & g & hn & he & src & rank & Hg & Hst & Hd) USE.
  assert (forall w, exact_world nodes (translate nodes <$> es) w -> useHLRouter w = USE ->
    useHLRouter w = USE /\ knows_nodes w nodes /\ serves_file (translate nodes <$> es) w) as Hex.
  { intros w Hw E. split; [done |]. split; [by apply (ew_nodes _ _ _ Hw) | by apply (exact_serves nodes)]. }
  destruct USE.
  - rewrite (startServer_hub entrySet classPath w0 hn he files' Hst Hw0). ret. apply Hex; [| done].
    by apply (hub_exact_world nodes es Emax Hfile _ _ ns e g hn he src rank).
  - pose proof (startServer_grid entrySet classPath Hentries nodes es Emax Hfile h1 h2 Hpath w0 files') as Hw.
    apply returns_elim in Hw as (w & E & Hw). rewrite E. ret. apply Hex; [done |].
    unfold startServer in E. rewrite Hpath in E. destruct (Grid.importFmiFile _ _) as [[nd g'] |]; [| done].
    rewrite bind_ok in E. by injection E as <-.
Qed.

(** C2: The two routers agree: after a finished run, the server with the hub label router and the
    server with Dijkstra's router answer every request alike, with the same message, routes of the
    same length, or both that there is no route.  The grid file is as for [main_exact], and no file
    is torn. *)
Theorem routers_agree {D B} `{!JDouble D, !DoubleText D, !DoubleOrder D, !Serial (object D) B, !SerialLaws (object D) B}
    entrySet classPath (nodes : list (TmpNode D)) es h1 h2 Emax rnd picks ids e0 w0 (files : disk B) :
  (forall m, entrySet m ≡ₚ map_to_list m) -> sea_file nodes es Emax ->
  classPath !! FMI_FILE_NAME = Some (fileOf nodes es h1 h2) ->
  left_by_runs entrySet classPath nodes files -> torn_files (D := D) files = false ->
  run_ok (alen nodes) rnd ids -> Controller.offset w0 = None ->
  returns (main entrySet classPath rnd picks ids e0 files) (fun files' =>
    returns (startServer entrySet classPath true w0 files') (fun w1 =>
    returns (startServer entrySet classPath false w0 files') (fun w2 =>
      forall time1 time2 p q router1 router2, server_ready w1 router1 -> server_ready w2 router2 ->
      exists N, forall fuel1 fuel2, (N <= fuel1)%nat -> (N <= fuel2)%nat ->
      returns (serve w1 fuel1 time1 (mkRequest (Some p) (Some q)) router1) (fun '(resp1, _) =>
      returns (serve w2 fuel2 time2 (mkRequest (Some p) (Some q)) router2) (fun '(resp2, _) => same_reply resp1 resp2))))).
Proof.
  intros Hentries Hfile Hpath Hleft Hread Hrun Hw0.
  eapply returns_mono; [by apply (main_ok entrySet classPath Hentries nodes es Emax Hfile h1 h2 Hpath) |]. cbv beta.
  intros files' (ns & e & g & hn & he & src & rank & Hg & Hst & Hd).
  rewrite (startServer_hub entrySet classPath w0 hn he files' Hst Hw0). ret.
  eapply returns_mono; [by apply (startServer_grid entrySet classPath Hentries nodes es Emax Hfile h1 h2 Hpath) |].
  intros w2 Hw2 time1 time2 p q router1 router2 Hr1 Hr2. apply (exact_agree nodes (translate nodes <$> es)); [| done ..].
  by apply (hub_exact_world nodes es Emax Hfile _ _ ns e g hn he src rank).
Qed.

(** C5: What becomes of a run that is killed, wherever: as long as it did not tear [ch_data.ser] or
    [tmp_label_data.ser], running [main] on the files it left gives exactly the files of the run
    that was not killed, or the same exception.  Killed before a write or between two writes it
    tears no file, and killed while it writes the last file neither of the two.  If it tore one
    of the two, every later run exits, and deleting that file by hand makes the next run go on as
    if nothing had happened.  On the files of a finished run a further run, with any random
    numbers and threads, changes nothing. *)
Theorem cut_resumes {D B} `{!JDouble D, !Serial (object D) B, !SerialLaws (object D) B}
    entrySet classPath rnd picks ids e0 k torn (files files' : disk B) :
  mainUpTo entrySet classPath rnd picks ids e0 k torn files = Ok files' ->
  (~ tears (D := D) CH_FILE files files' -> ~ tears (D := D) TMP_FILE files files' ->
    main entrySet classPath rnd picks ids e0 files' = main entrySet classPath rnd picks ids e0 files) /\
  (torn = None \/ (2 <= k)%nat -> ~ tears (D := D) CH_FILE files files' /\ ~ tears (D := D) TMP_FILE files files') /\
  (forall name, name = CH_FILE \/ name = TMP_FILE -> tears (D := D) name files files' ->
    (forall rnd' picks' ids' e0', main entrySet classPath rnd' picks' ids' e0' files' = Err SystemExit) /\
    main entrySet classPath rnd picks ids e0 (delete name files') = main entrySet classPath rnd picks ids e0 files) /\
  forall finished, main entrySet classPath rnd picks ids e0 files' = Ok finished ->
    forall rnd' picks' ids' e0', main entrySet classPath rnd' picks' ids' e0' finished = Ok finished.
Proof.
  intros E. pose proof (killed_ok entrySet classPath rnd picks ids e0 k torn files files' E) as Hk.
  split; [| split; [| split]].
  - intros Hch Htmp. by apply (killed_resumes entrySet classPath rnd picks ids e0 k torn).
  - intros Hnot. by apply (killed_whole entrySet classPath rnd picks ids e0 k torn).
  - intros name Hname Htears. by apply (killed_torn entrySet classPath rnd picks ids e0 k torn).
  - intros finished Hdone. by apply (main_idle entrySet classPath rnd picks ids e0 files').
Qed.

(** ** Witnesses: the file of the path 20 - 10 - 30 *)

#[local] Existing Instance intDouble.
#[local] Existing Instance intDouble_order.
#[local] Existing Instance intDouble_text.

(** Files of one byte, the object itself. *)
#[local] Instance plainFiles : Serial (object Z) (object Z) := oneByte id Some.
#[local] Instance plainFiles_laws : SerialLaws (object Z) (object Z).
Proof. by apply oneByte_laws. Qed.

Definition pathResources : gmap string (list string) := {[ FMI_FILE_NAME := pathFile ]}.

Lemma path_sea_file : sea_file fileNodes pathEdges 12.
Proof. split; [apply path_file_ok | rewrite path_translated; apply path_sea | done | done | done]. Qed.

Lemma path_run_ok : run_ok 3 centreFirst pathIds.
Proof. split; [apply centreFirst_ok |]. exists []. apply pathIds_ok. Qed.

(** What the first run leaves when it is killed in the second step, when the file of the labels has
    been opened; and the files without that one. *)
Definition tornFiles : disk (object Z) :=
  match mainUpTo map_to_list pathResources centreFirst (fun _ => []) pathIds noStore 1 (Some 0%nat) ∅ with Ok files => files | Err _ => ∅ end.
Definition cutFiles : disk (object Z) := delete TMP_FILE tornFiles.

Lemma tornFiles_ok : mainUpTo map_to_list pathResources centreFirst (fun _ => []) pathIds noStore 1 (Some 0%nat) ∅ = Ok tornFiles.
Proof. vm_compute. reflexivity. Qed.

Lemma tornFiles_left : left_by_runs map_to_list pathResources fileNodes tornFiles.
Proof.
  apply (left_killed _ _ _ ∅ tornFiles centreFirst (fun _ => []) pathIds noStore 1 (Some 0%nat)); [by apply left_none | apply path_run_ok | apply tornFiles_ok].
Qed.

Lemma cutFiles_left : left_by_runs map_to_list pathResources fileNodes cutFiles.
Proof. apply left_deleted; [apply tornFiles_left | vm_compute; reflexivity]. Qed.

Definition freshWorld : world Z := mkWorld false None noGrid noEdges
  (HubLNodes.mk 0 [] [] [] [] [] [] [] [] []) (HubLEdges.mk [] [] 0 []).

(** The request from the point of node 1 to the point of node 2. *)
Definition pathReply (USE_HUB_LABEL_ROUTER : bool) : res (response Z) :=
  files ← main map_to_list pathResources centreFirst (fun _ => []) pathIds noStore cutFiles;
  w ← startServer map_to_list pathResources USE_HUB_LABEL_ROUTER freshWorld files;
  fst <$> serve w 20 50 (mkRequest (Some (mkLatLong 3 6)) (Some (mkLatLong 3 5))) None.

Lemma main_exact_witness :
  pathReply true = Ok (OK (RoutingResult.mk (Some [1; 0; 2]) (Some [[3; 6]; [3; 4]; [3; 5]]) 12 50 true)) /\
  returns (main map_to_list pathResources centreFirst (fun _ => []) pathIds noStore cutFiles) (fun files' => forall use,
    returns (startServer map_to_list pathResources use freshWorld files') (fun w =>
      useHLRouter w = use /\ knows_nodes w fileNodes /\ serves_file (translate fileNodes <$> pathEdges) w)) /\
  main map_to_list pathResources centreFirst (fun _ => []) pathIds noStore tornFiles = Err SystemExit.
Proof.
  split; [vm_compute; reflexivity |].
  assert (torn_files (D := Z) cutFiles = false) as Ecut by (vm_compute; reflexivity).
  assert (torn_files (D := Z) tornFiles = true) as Etorn by (vm_compute; reflexivity).
  pose proof (fun files Hleft => main_exact map_to_list pathResources fileNodes pathEdges "#" "" 12 centreFirst (fun _ => []) pathIds noStore
    freshWorld files (fun _ => Permutation_refl _) path_sea_file eq_refl Hleft path_run_ok eq_refl) as H.
  split.
  - pose proof (H cutFiles cutFiles_left) as Hcut. rewrite Ecut in Hcut. exact Hcut.
  - pose proof (H tornFiles tornFiles_left) as Htorn. rewrite Etorn in Htorn. exact Htorn.
Defined.

Lemma routers_agree_witness : pathReply false = pathReply true /\
  returns (main map_to_list pathResources centreFirst (fun _ => []) pathIds noStore cutFiles) (fun files' =>
    returns (startServer map_to_list pathResources true freshWorld files') (fun w1 =>
    returns (startServer map_to_list pathResources false freshWorld files') (fun w2 =>
      forall time1 time2 p q router1 router2, server_ready w1 router1 -> server_ready w2 router2 ->
      exists N, forall fuel1 fuel2, (N <= fuel1)%nat -> (N <= fuel2)%nat ->
      returns (serve w1 fuel1 time1 (mkRequest (Some p) (Some q)) router1) (fun '(resp1, _) =>
      returns (serve w2 fuel2 time2 (mkRequest (Some p) (Some q)) router2) (fun '(resp2, _) => same_reply resp1 resp2))))).
Proof.
  split; [vm_compute; reflexivity |].
  apply (routers_agree map_to_list pathResources fileNodes pathEdges "#" "" 12 centreFirst (fun _ => []) pathIds noStore freshWorld cutFiles);
    [done | apply path_sea_file | done | apply cutFiles_left | vm_compute; reflexivity | apply path_run_ok | done].
Defined.

Lemma cut_resumes_witness :
  main map_to_list pathResources centreFirst (fun _ => []) pathIds noStore tornFiles = Err SystemExit /\
  main map_to_list pathResources centreFirst (fun _ => []) pathIds noStore cutFiles =
    main map_to_list pathResources centreFirst (fun _ => []) pathIds noStore ∅.
Proof.
  destruct (cut_resumes map_to_list pathResources centreFirst (fun _ => []) pathIds noStore 1 (Some 0%nat) ∅ tornFiles) as (_ & _ & Htorn & _);
    [vm_compute; reflexivity |].
  destruct (Htorn TMP_FILE) as [Hexit Hagain]; [by right | split; vm_compute; reflexivity |].
  split; [apply Hexit | apply Hagain].
Defined.
