(* ===== verification/GridCreator.v ===== *)
(** * dijkstragrid/GridNode.java, NodeCreateWorkerThread.java and GridCreator.java

    The generation of the grid file.  Points of a lattice that lie in water become nodes; this is
    computed by several threads that share the collections of [GridCreator].  Then every node gets
    an edge to each of its four neighbours on the lattice that is a node.

    Coordinates are decimals with two fraction digits and are counted in hundredths of a degree:
    on these the conversions between [BigDecimal] and [double] are exact and the keys of the maps
    are equal exactly when the numbers are.  The point-in-water test, which may throw, is an
    argument; [Generation] puts the real one in its place. *)

From S2P Require Import Prelude Text Doubles DijkstraGrid Grid.

Definition DEGREE : Z := 100.

(** ** GridNode.java *)

Record GridNode := mkGridNode { nodeLatitude : Z; nodeLongitude : Z }.

#[export] Instance GridNode_eq_dec : EqDecision GridNode.
Proof. solve_decision. Defined.
#[export] Instance GridNode_countable : Countable GridNode.
Proof.
  by apply (inj_countable' (fun n => (nodeLatitude n, nodeLongitude n)) (fun '(la, lo) => mkGridNode la lo)); intros [].
Defined.
#[export] Instance GridNode_inhabited : Inhabited GridNode := populate (mkGridNode 0 0).

Definition calcNorthernNode (s : GridNode) (latitudeOffset : Z) : option GridNode :=
  let nLatitude := nodeLatitude s + latitudeOffset in
  if 90 * DEGREE <? nLatitude then None else Some (mkGridNode nLatitude (nodeLongitude s)).

Definition calcSouthernNode (s : GridNode) (latitudeOffset : Z) : option GridNode :=
  let nLatitude := nodeLatitude s - latitudeOffset in
  if nLatitude <? - 90 * DEGREE then None else Some (mkGridNode nLatitude (nodeLongitude s)).

(** [BigDecimal.remainder] has the sign of the dividend. *)
Definition calcEasternNode (s : GridNode) (longitudeOffset : Z) : option GridNode :=
  let nLongitude := nodeLongitude s + longitudeOffset in
  let nLongitude := if 180 * DEGREE <? nLongitude then - 180 * DEGREE + Z.rem nLongitude (180 * DEGREE) else nLongitude in
  Some (mkGridNode (nodeLatitude s) nLongitude).

Definition calcWesternNode (s : GridNode) (longitudeOffset : Z) : option GridNode :=
  let nLongitude := nodeLongitude s - longitudeOffset in
  let nLongitude := if nLongitude <? - 180 * DEGREE then Z.rem nLongitude (180 * DEGREE) else nLongitude in
  Some (mkGridNode (nodeLatitude s) nLongitude).

(** ** The shared collections of GridCreator *)

Record collections := mkCollections {
  gridNodes : list GridNode;
  coordinateNodeStore : gmap Z (gmap Z GridNode);
}.

(** What a thread does to them, one call at a time. *)
Inductive action :=
| AddNode (n : GridNode)
| PutRow (lat : Z)
| PutNode (n : GridNode).

#[export] Instance action_eq_dec : EqDecision action.
Proof. solve_decision. Defined.

Definition act (a : action) (s : collections) : res collections :=
  match a with
  | AddNode n => Ok (mkCollections (gridNodes s ++ [n]) (coordinateNodeStore s))
  | PutRow lat =>
      match coordinateNodeStore s !! lat with
      | Some _ => Ok s
      | None => Ok (mkCollections (gridNodes s) (<[lat := ∅]> (coordinateNodeStore s)))
      end
  | PutNode n =>
      match coordinateNodeStore s !! nodeLatitude n with
      | None => Err NullPointer
      | Some row => Ok (mkCollections (gridNodes s)
          (<[nodeLatitude n := <[nodeLongitude n := n]> row]> (coordinateNodeStore s)))
      end
  end.

(** [for (x = start; continues x; x -= step)]: the values of [x]. *)
Fixpoint countDown (fuel : nat) (continues : Z -> bool) (step x : Z) : res (list Z) :=
  match fuel with
  | O => Err OutOfFuel
  | S fuel => if continues x then l ← countDown fuel continues step (x - step); Ok (x :: l) else Ok []
  end.

Section creator.
Context (pointInWater : Z -> Z -> res bool) (latStep lonStep : Z).

(** ** NodeCreateWorkerThread.java *)

Definition longitudes : res (list Z) :=
  countDown (S (Z.to_nat (360 * DEGREE))) (fun x => - 180 * DEGREE <? x) lonStep (180 * DEGREE).

(** The calls of the inner loop, point by point.  An exception of the test ends the thread: what it
    did before stays. *)
Fixpoint visit (points : list (Z * Z)) : list action :=
  match points with
  | [] => []
  | (lat, lon) :: points =>
      match pointInWater lat lon with
      | Ok true => let node := mkGridNode lat lon in [AddNode node; PutRow lat; PutNode node] ++ visit points
      | Ok false => visit points
      | Err _ => []
      end
  end.

(** The calls of [run], for the latitudes of one thread. *)
Definition run (lons latList : list Z) : list action := visit (flat_map (fun lat => pair lat <$> lons) latList).

(** ** GridCreator.java *)

Definition NUMBER_OF_THREADS_FOR_IN_WATER_CHECK : Z := 15.

Definition latitudes : res (list Z) :=
  countDown (S (S (Z.to_nat (180 * DEGREE)))) (fun x => - 90 * DEGREE <=? x) latStep (90 * DEGREE).

(** The threads take turns. *)
Definition assign (lats : list Z) : res (list (list Z)) :=
  '(threads, _) ← forEach lats (fun lat '(threads, count) =>
    let threadToAssign := Z.rem count NUMBER_OF_THREADS_FOR_IN_WATER_CHECK in
    latList ← aget threads threadToAssign;
    threads ← aset threads threadToAssign (latList ++ [lat]);
    Ok (threads, iadd count 1)) (replicate (Z.to_nat NUMBER_OF_THREADS_FOR_IN_WATER_CHECK) [], 0);
  Ok threads.

(** The threads run at the same time: [picks] says whose turn it is; in the end all have finished. *)
Fixpoint interleave (picks : list nat) (threads : list (list action)) : list action :=
  match picks with
  | [] => concat threads
  | i :: picks =>
      match threads !! i with
      | Some (a :: rest) => a :: interleave picks (<[i := rest]> threads)
      | _ => interleave picks threads
      end
  end.

Definition initGridCreator (picks : list nat) : res collections :=
  lats ← latitudes;
  threads ← assign lats;
  lons ← longitudes;
  forEach (interleave picks (run lons <$> threads)) act (mkCollections [] ∅).

Definition getNodeByLatLong (s : collections) (lat lon : Z) : option GridNode :=
  match coordinateNodeStore s !! lat with Some row => row !! lon | None => None end.

(** The neighbours of a node, east, west, north, south: the nodes at the calculated coordinates. *)
Definition neighbourNodes (s : collections) (currNode : GridNode) : list (option GridNode) :=
  (fun calcNode : option GridNode =>
     calcNode ≫= (fun n => getNodeByLatLong s (nodeLatitude n) (nodeLongitude n))) <$>
  [calcEasternNode currNode lonStep; calcWesternNode currNode lonStep;
   calcNorthernNode currNode latStep; calcSouthernNode currNode latStep].

Section grid.
Context {D : Type} `{!JDouble D}.

Definition degrees (x : Z) : D := ddiv (dofZ x) (dofZ DEGREE).

(** The ids of the node objects. *)
Definition setIds (nodes : list GridNode) : res (gmap GridNode Z) :=
  forRange 0 (alen nodes) (fun id ids => n ← lget nodes id; Ok (<[n := id]> ids)) ∅.

Definition addEdges (s : collections) (ids : gmap GridNode Z) (nodeIdx : Z) (dyn : list (Z * Z * Z)) : res (list (Z * Z * Z)) :=
  currNode ← lget (gridNodes s) nodeIdx;
  forEach (neighbourNodes s currNode) (fun node dyn =>
    match node with
    | Some node => Ok (dyn ++ [(nodeIdx, default 0 (ids !! node),
        dtoInt (getDistance (degrees (nodeLatitude currNode)) (degrees (nodeLongitude currNode))
                            (degrees (nodeLatitude node)) (degrees (nodeLongitude node))))])
    | None => Ok dyn
    end) dyn.

Definition createGrid (picks : list nat) : res (Node D * Edge) :=
  s ← initGridCreator picks;
  ids ← setIds (gridNodes s);
  dyn ← forRange 0 (alen (gridNodes s)) (addEdges s ids) [];
  Ok (mkNode (degrees <$> (nodeLatitude <$> gridNodes s)) (degrees <$> (nodeLongitude <$> gridNodes s)),
      mkEdge ((fun e => e.1.1) <$> dyn) ((fun e => e.1.2) <$> dyn) (snd <$> dyn)).

(** [createGrid] ends with the export of the grid; [main] of [GridCreator] after its set-up. *)
Definition createGridFile (picks : list nat) : res string :=
  '(node, edge) ← createGrid picks; exportToFmiFile node edge.
End grid.
End creator.

(** The sizes that are configured. *)
Definition DIMENSION_LATITUDE : Z := 500.
Definition DIMENSION_LONGITUDE : Z := 2000.
Definition coordinate_step_latitude : Z := 180 * DEGREE / DIMENSION_LATITUDE.
Definition coordinate_step_longitude : Z := 360 * DEGREE / DIMENSION_LONGITUDE.

(** ** The lattice *)

(** The values of [x] in the loop, which are at least [b], and how many there are. *)
Lemma countDown_ok continues step b : 0 < step -> (forall x y, x <= y -> continues x = true -> continues y = true) ->
  (forall x, continues x = true -> b <= x) -> forall fuel x, x - b + 1 < Z.of_nat fuel -> (0 < fuel)%nat ->
  returns (countDown fuel continues step x) (fun l => NoDup l /\ (l = [] \/ (alen l - 1) * step <= x - b) /\
    forall y, y ∈ l <-> continues y = true /\ exists k, 0 <= k /\ y = x - k * step).
Proof.
  intros Hstep Hmono Hb. induction fuel as [| fuel IH]; intros x Hfuel Hpos; [lia |]. cbn [countDown].
  destruct (continues x) eqn:Ex.
  - pose proof (Hb x Ex). destruct (decide (fuel = 0%nat)) as [-> | Hne]; [lia |].
    eapply returns_bind; [apply IH; lia |]. cbv beta. intros l (Hnd & Hlen & Hl). ret. split; [| split].
    + constructor; [| done]. rewrite Hl. intros (_ & k & Hk & E). nia.
    + right. rewrite alen_cons. destruct Hlen as [-> | Hlen]; [change (alen []) with 0; nia | nia].
    + intros y. rewrite elem_of_cons, Hl. split.
      * intros [-> | (Hy & k & Hk & ->)]; [split; [done |]; exists 0; lia | split; [done |]; exists (k + 1); lia].
      * intros (Hy & k & Hk & ->). destruct (decide (k = 0)) as [-> | Hk0]; [left; lia | right].
        split; [done |]. exists (k - 1). lia.
  - ret. split; [constructor |]. split; [by left |]. intros y. split; [intros Hy; by apply elem_of_nil in Hy |].
    intros (Hy & k & Hk & ->). apply (Hmono _ x) in Hy; [congruence | nia].
Qed.

Section lattice.
Context (latStep lonStep : Z) (Hlat : 0 < latStep) (Hlon : 0 < lonStep).

(** The latitudes and longitudes of the lattice. *)
Definition lattice_lat (y : Z) : Prop := - 90 * DEGREE <= y /\ exists k, 0 <= k /\ y = 90 * DEGREE - k * latStep.
Definition lattice_lon (y : Z) : Prop := - 180 * DEGREE < y /\ exists k, 0 <= k /\ y = 180 * DEGREE - k * lonStep.

Lemma count_le {A} (l : list A) step w : 0 < step -> 0 <= w -> (l = [] \/ (alen l - 1) * step <= w) -> alen l <= w / step + 1.
Proof.
  intros Hs Hw [-> | Hl]; [pose proof (Z.div_pos w step Hw Hs); change (alen []) with 0; lia |].
  pose proof (Z.div_le_lower_bound w step (alen l - 1) Hs ltac:(lia)). lia.
Qed.

Lemma latitudes_ok : returns (latitudes latStep) (fun l =>
  NoDup l /\ alen l <= 180 * DEGREE / latStep + 1 /\ forall y, y ∈ l <-> lattice_lat y).
Proof.
  unfold latitudes, lattice_lat. eapply returns_mono.
  - apply (countDown_ok _ latStep (- 90 * DEGREE)); [done | | | vm_compute; done | lia]; intros; rewrite ?Z.leb_le in *; lia.
  - cbv beta. intros l (Hnd & Hlen & Hl). split; [done |]. split; [apply count_le; [done .. | done] |].
    intros y. by rewrite Hl, Z.leb_le.
Qed.

Lemma longitudes_ok : returns (longitudes lonStep) (fun l =>
  NoDup l /\ alen l <= 360 * DEGREE / lonStep + 1 /\ forall y, y ∈ l <-> lattice_lon y).
Proof.
  unfold longitudes, lattice_lon. eapply returns_mono.
  - apply (countDown_ok _ lonStep (- 180 * DEGREE + 1)); [done | | | vm_compute; done | lia]; intros; rewrite ?Z.ltb_lt in *; lia.
  - cbv beta. intros l (Hnd & Hlen & Hl). split; [done |].
    split; [apply count_le; [done .. |]; destruct Hlen as [-> | Hlen]; [by left | right; lia] |].
    intros y. by rewrite Hl, Z.ltb_lt.
Qed.
End lattice.

Lemma split_at {A} (l : list A) i x : l !! i = Some x -> exists l1 l2, l = l1 ++ x :: l2 /\ forall y, <[i := y]> l = l1 ++ y :: l2.
Proof.
  intros H. exists (take i l), (drop (S i) l). split; [by rewrite take_drop_middle |]. intros y.
  by rewrite insert_take_drop by exact (lookup_lt_Some _ _ _ H).
Qed.

(** Every latitude is given to one thread. *)
Lemma assign_ok lats : alen lats < MAX_VALUE -> returns (assign lats) (fun threads => concat threads ≡ₚ lats).
Proof.
  intros Hlen. unfold assign. pose (N := NUMBER_OF_THREADS_FOR_IN_WATER_CHECK).
  eapply (returns_bind _ _ (fun st : list (list Z) * Z => alen st.1 = N /\ concat st.1 ≡ₚ lats /\ st.2 = alen lats)).
  2:{ intros [threads c] (_ & Hp & _). by ret. }
  apply (forEach_inv (fun pre st => alen st.1 = N /\ concat st.1 ≡ₚ pre /\ st.2 = alen pre)).
  - split_and!; done.
  - intros pre lat todo [threads c] E (Hl & Hp & Hc). cbn [fst snd] in *. subst c. pose proof (alen_nonneg pre).
    assert (0 <= Z.rem (alen pre) N < N) as Hrem by (apply Z.rem_bound_pos; [done | reflexivity]).
    unfold N in *. set (i := Z.rem _ _) in *. rewrite aget_ok, bind_ok by lia. rewrite aset_ok, bind_ok by lia. ret. cbn [fst snd].
    split; [by rewrite alen_insert |]. split.
    + rewrite <-Hp. assert (threads !! Z.to_nat i = Some threads.[i]) as Hi by (apply at_lookup; lia).
      destruct (split_at _ _ _ Hi) as (l1 & l2 & E' & ->). rewrite E' at 2. rewrite !concat_app, !concat_cons. solve_Permutation.
    + rewrite alen_app, iadd_id; [done |]. rewrite E, alen_app, alen_cons in Hlen. pose proof (alen_nonneg todo).
      unfold is_int, MIN_VALUE, MAX_VALUE in *. lia.
Qed.

(** ** The threads *)

(** The nodes that the actions add to the list. *)
Definition added (acts : list action) : list GridNode := omap (fun a => match a with AddNode n => Some n | _ => None end) acts.

(** A row is there before a node is put into it; the rows in [R] are there already. *)
Fixpoint safe (R : gset Z) (acts : list action) : Prop :=
  match acts with
  | [] => True
  | AddNode _ :: acts => safe R acts
  | PutRow lat :: acts => safe ({[lat]} ∪ R) acts
  | PutNode n :: acts => nodeLatitude n ∈ R /\ safe R acts
  end.

Lemma safe_mono acts : forall R R', R ⊆ R' -> safe R acts -> safe R' acts.
Proof.
  induction acts as [| [n | lat | n] acts IH]; intros R R' Hsub; cbn; [done | by apply IH | apply IH; set_solver |].
  intros [Hn Hs]. split; [set_solver | by apply (IH R)].
Qed.

Lemma safe_app p : forall R q, safe R p -> safe R q -> safe R (p ++ q).
Proof.
  induction p as [| [n | lat | n] p IH]; intros R q; cbn; [done | by apply IH | |].
  - intros Hp Hq. apply IH; [done |]. eapply safe_mono; [| done]. set_solver.
  - intros [Hn Hp] Hq. split; [done | by apply IH].
Qed.

Lemma safe_concat R ts : Forall (safe R) ts -> safe R (concat ts).
Proof. induction 1 as [| t ts Ht _ IH]; [done |]. by apply safe_app. Qed.

(** Whatever the interleaving, no thread meets a missing row. *)
Lemma safe_interleave picks : forall R ts, Forall (safe R) ts -> safe R (interleave picks ts).
Proof.
  induction picks as [| i picks IH]; intros R ts Hts; [by apply safe_concat |]. cbn [interleave].
  destruct (ts !! i) as [[| a rest] |] eqn:E; [by apply IH | | by apply IH].
  assert (safe R (a :: rest)) as Ha by (rewrite Forall_forall in Hts; by eapply Hts, list_elem_of_lookup_2).
  destruct (split_at _ _ _ E) as (l1 & l2 & -> & ->). apply Forall_app in Hts as [H1 [_ H2]%Forall_cons].
  assert (forall R', R ⊆ R' -> safe R' rest -> Forall (safe R') (l1 ++ rest :: l2)) as Hrest.
  { intros R' Hsub Hr. apply Forall_app. split; [| constructor; [done |]]; eapply Forall_impl; try done; intros t; by apply safe_mono. }
  destruct a as [n | lat | n]; cbn in *; [apply IH, Hrest; done | apply IH, Hrest; [set_solver | done] |].
  destruct Ha as [Hn Hr]. split; [done |]. by apply IH, Hrest.
Qed.

Lemma interleave_perm picks : forall ts, interleave picks ts ≡ₚ concat ts.
Proof.
  induction picks as [| i picks IH]; intros ts; [done |]. cbn [interleave].
  destruct (ts !! i) as [[| a rest] |] eqn:E; [by apply IH | | by apply IH].
  rewrite IH. destruct (split_at _ _ _ E) as (l1 & l2 & -> & ->). rewrite !concat_app, !concat_cons. cbn. solve_Permutation.
Qed.

(** What the calls leave: the nodes in the order in which they came, and all of them in the map. *)
Lemma acts_ok acts : forall s, safe (dom (coordinateNodeStore s)) acts ->
  returns (forEach acts act s) (fun s' => gridNodes s' = gridNodes s ++ added acts /\
    forall la lo, getNodeByLatLong s' la lo =
      if decide (PutNode (mkGridNode la lo) ∈ acts) then Some (mkGridNode la lo) else getNodeByLatLong s la lo).
Proof.
  induction acts as [| a acts IH]; intros s Hs.
  { ret. split; [by rewrite app_nil_r |]. intros la lo. rewrite decide_False; [done |]. apply not_elem_of_nil. }
  cbn [forEach]. eapply (returns_bind _ _ (fun s1 => safe (dom (coordinateNodeStore s1)) acts /\
    gridNodes s1 = gridNodes s ++ added [a] /\ forall la lo, getNodeByLatLong s1 la lo =
      if decide (a = PutNode (mkGridNode la lo)) then Some (mkGridNode la lo) else getNodeByLatLong s la lo)).
  - destruct a as [n | lat | n]; cbn in Hs |- *.
    + split; [done |]. split; [done |]. intros la lo. by rewrite decide_False.
    + unfold getNodeByLatLong. destruct (coordinateNodeStore s !! lat) as [row |] eqn:E; cbn; rewrite app_nil_r.
      * split; [eapply safe_mono; [| done]; apply elem_of_dom_2 in E; set_solver |]. split; [done |]. intros la lo. by rewrite decide_False.
      * split; [by rewrite dom_insert_L |]. split; [done |]. intros la lo. rewrite decide_False by done.
        destruct (decide (lat = la)) as [<- | Hne]; [by rewrite lookup_insert_eq, E, lookup_empty | by rewrite lookup_insert_ne].
    + destruct Hs as [Hn Hs]. apply elem_of_dom in Hn as [row E]. rewrite E. cbn. rewrite app_nil_r.
      split; [eapply safe_mono; [| done]; rewrite dom_insert_L; set_solver |]. split; [done |].
      intros la lo. unfold getNodeByLatLong. cbn. destruct n as [la' lo']. cbn in *.
      destruct (decide (la' = la)) as [<- | Hne]; [rewrite lookup_insert_eq, E | rewrite lookup_insert_ne, decide_False by congruence; done].
      destruct (decide (lo' = lo)) as [<- | Hne]; [by rewrite lookup_insert_eq, decide_True | by rewrite lookup_insert_ne, decide_False by congruence].
  - cbv beta. intros s1 (Hs1 & Hn1 & Hg1). eapply returns_mono; [by apply IH |]. cbv beta. intros s' (-> & Hg). split.
    + rewrite Hn1, <-app_assoc. f_equal. unfold added. by rewrite <-omap_app.
    + intros la lo. rewrite Hg, Hg1. repeat case_decide; try done; subst; set_solver.
Qed.

Lemma added_flat_map {A} (f : A -> list action) l : added (flat_map f l) = l ≫= (fun x => added (f x)).
Proof. induction l as [| x l IH]; [done |]. unfold added in *. cbn. by rewrite omap_app, IH. Qed.

Lemma safe_flat_map {A} R (f : A -> list action) l : (forall x, safe R (f x)) -> safe R (flat_map f l).
Proof. intros Hf. induction l as [| x l IH]; [done |]. by apply safe_app. Qed.

Lemma bind_length {A B} (f : A -> list B) c l : (forall x, alen (f x) <= c) -> alen (l ≫= f) <= c * alen l.
Proof.
  intros Hf. induction l as [| x l IH]; cbn [mbind list_bind]; [change (@alen A []) with 0; change (@alen B []) with 0; lia |].
  rewrite alen_app, alen_cons. specialize (Hf x). lia.
Qed.

(** ** The generated nodes *)

Section nodes.
Context (inWater : Z -> Z -> bool) (latStep lonStep : Z) (Hlat : 0 < latStep) (Hlon : 0 < lonStep).

(** The nodes of the grid: the points of the lattice that lie in water. *)
Definition grid_node (n : GridNode) : Prop :=
  lattice_lat latStep (nodeLatitude n) /\ lattice_lon lonStep (nodeLongitude n) /\
  inWater (nodeLatitude n) (nodeLongitude n) = true.

(** What a thread does when the test answers for each of its points. *)
Definition actions (lons latList : list Z) : list action :=
  flat_map (fun lat => flat_map (fun lon =>
    if inWater lat lon then let node := mkGridNode lat lon in [AddNode node; PutRow lat; PutNode node] else []) lons) latList.

(** The test answers at the points of the lattice. *)
Definition answers (pointInWater : Z -> Z -> res bool) : Prop := forall lat lon,
  lattice_lat latStep lat -> lattice_lon lonStep lon -> pointInWater lat lon = Ok (inWater lat lon).

Lemma run_answered test lons lats : (forall lat lon, lat ∈ lats -> lon ∈ lons -> test lat lon = Ok (inWater lat lon)) ->
  run test lons lats = actions lons lats.
Proof.
  intros Htest. unfold run, actions. induction lats as [| lat lats IH]; [done |]. cbn [flat_map].
  rewrite <-IH by (intros; apply Htest; set_solver). clear IH.
  assert (forall lon, lon ∈ lons -> test lat lon = Ok (inWater lat lon)) as Hrow by (intros; apply Htest; set_solver). clear Htest.
  generalize (flat_map (fun lat => pair lat <$> lons) lats). intros rest.
  induction lons as [| lon lons IH]; [done |]. cbn [fmap list_fmap app visit flat_map]. rewrite Hrow by set_solver.
  rewrite IH by (intros; apply Hrow; set_solver). by destruct (inWater lat lon).
Qed.

Lemma actions_safe R lons lats : safe R (actions lons lats).
Proof.
  apply safe_flat_map. intros la. apply safe_flat_map. intros lo. destruct (inWater la lo); cbn; [| done].
  split; [set_solver | done].
Qed.

Lemma actions_elem lons lats a : a ∈ actions lons lats <->
  exists n, nodeLatitude n ∈ lats /\ nodeLongitude n ∈ lons /\ inWater (nodeLatitude n) (nodeLongitude n) = true /\
    a ∈ [AddNode n; PutRow (nodeLatitude n); PutNode n].
Proof.
  unfold actions. rewrite list_elem_of_In, in_flat_map. split.
  - intros (la & Hla & (lo & Hlo & Ha)%in_flat_map). exists (mkGridNode la lo). cbn.
    destruct (inWater la lo); [| done]. rewrite !list_elem_of_In. done.
  - intros ([la lo] & Hla & Hlo & Hw & Ha). cbn in *. exists la. rewrite <-list_elem_of_In. split; [done |].
    rewrite in_flat_map. exists lo. rewrite Hw, <-!list_elem_of_In. done.
Qed.

Lemma actions_nodup lons lats : NoDup lons -> NoDup lats -> NoDup (added (actions lons lats)).
Proof.
  intros Hlons Hlats. unfold actions. rewrite added_flat_map. apply NoDup_bind; [| | done].
  - intros la la' n _ _. rewrite !added_flat_map, !list_elem_of_bind.
    intros (lo & Hn & _) (lo' & Hn' & _). destruct (inWater la lo), (inWater la' lo'); cbn in *; set_solver.
  - intros la _. rewrite added_flat_map. apply NoDup_bind; [| | done].
    + intros lo lo' n _ _ Hn Hn'. destruct (inWater la lo), (inWater la lo'); cbn in *; set_solver.
    + intros lo _. destruct (inWater la lo); cbn; [apply NoDup_singleton | constructor].
Qed.

Lemma actions_length lons lats : alen (added (actions lons lats)) <= alen lons * alen lats.
Proof.
  unfold actions. rewrite added_flat_map. apply bind_length. intros la. rewrite added_flat_map.
  etrans; [apply (bind_length _ 1) | lia]. intros lo. by destruct (inWater la lo).
Qed.

Lemma actions_concat lons ts : concat (actions lons <$> ts) = actions lons (concat ts).
Proof. induction ts as [| t ts IH]; [done |]. cbn. rewrite IH. unfold actions. by rewrite flat_map_app. Qed.

(** What the threads leave, in whatever order they ran. *)
Record created (s : collections) : Prop := {
  cr_nodup : NoDup (gridNodes s);
  cr_nodes : forall n, n ∈ gridNodes s <-> grid_node n;
  cr_store : forall la lo, getNodeByLatLong s la lo =
    if decide (mkGridNode la lo ∈ gridNodes s) then Some (mkGridNode la lo) else None;
  cr_size : alen (gridNodes s) <= (360 * DEGREE / lonStep + 1) * (180 * DEGREE / latStep + 1);
}.

Lemma initGrid_ok pointInWater picks : answers pointInWater -> returns (initGridCreator pointInWater latStep lonStep picks) created.
Proof.
  intros Hanswers.
  assert (180 * DEGREE / latStep <= 18000) as Hmax by (apply Z.div_le_upper_bound; unfold DEGREE; lia).
  unfold initGridCreator.
  eapply returns_bind; [by apply latitudes_ok |]. cbv beta. intros lats (Hnd & Hlen & Hlats).
  eapply returns_bind; [apply assign_ok; unfold MAX_VALUE; lia |]. cbv beta. intros threads Hth.
  eapply returns_bind; [by apply longitudes_ok |]. cbv beta. intros lons (Hnd' & Hlen' & Hlons).
  assert (forall lats', lats' ∈ threads -> run pointInWater lons lats' = actions lons lats') as Hrun.
  { intros lats' Hin. apply run_answered. intros lat lon Hlat' Hlon'. apply Hanswers; [apply Hlats; rewrite <-Hth | by apply Hlons].
    apply list_elem_of_In, in_concat. exists lats'. by rewrite <-!list_elem_of_In. }
  rewrite (list_fmap_ext _ (actions lons) threads) by (intros k lats' Hk; by eapply Hrun, list_elem_of_lookup_2).
  set (all := interleave picks _).
  assert (all ≡ₚ actions lons (concat threads)) as Hall by (unfold all; by rewrite interleave_perm, actions_concat).
  assert (forall a, a ∈ all <-> exists n, grid_node n /\ a ∈ [AddNode n; PutRow (nodeLatitude n); PutNode n]) as Hin.
  { intros a. rewrite Hall, actions_elem. unfold grid_node. apply exist_proper. intros n. rewrite Hth, Hlats, Hlons. tauto. }
  eapply returns_mono; [apply acts_ok, safe_interleave, Forall_fmap, Forall_true; intros; apply actions_safe |].
  cbv beta. cbn [gridNodes app]. intros s [En Hg].
  assert (gridNodes s ≡ₚ added (actions lons (concat threads))) as Hp by (rewrite En; unfold added; by rewrite Hall).
  assert (forall n, n ∈ gridNodes s <-> grid_node n) as Hn.
  { intros n. rewrite En. unfold added. rewrite list_elem_of_omap. split.
    - intros (a & (n' & Hn' & Ha)%Hin & E). destruct a; simplify_eq. by assert (n = n') as -> by set_solver.
    - intros Hn. exists (AddNode n). split; [apply Hin; exists n; split; [done | set_solver] | done]. }
  split; [| done | |].
  - rewrite Hp. apply actions_nodup; [done |]. by rewrite Hth.
  - intros la lo. rewrite Hg. apply decide_ext. rewrite Hn, Hin. split.
    + intros (n & Hn' & Ha). by assert (mkGridNode la lo = n) as -> by set_solver.
    + intros Hn'. eexists. split; [done |]. set_solver.
  - pose proof (actions_length lons (concat threads)) as Hr. rewrite (alen_proper _ _ Hp).
    rewrite (alen_proper _ _ Hth) in Hr. pose proof (alen_nonneg lats). pose proof (alen_nonneg lons). nia.
Qed.
End nodes.

(** ** The ids *)

Lemma lget_ok {A} `{!Inhabited A} (l : list A) i : 0 <= i < alen l -> lget l i = Ok l.[i].
Proof. intros Hi. unfold lget. destruct (Z.ltb_spec i 0); [lia |]. by rewrite at_lookup. Qed.

Lemma setIds_ok nodes : NoDup nodes ->
  returns (setIds nodes) (fun ids => forall n i, ids !! n = Some i <-> 0 <= i < alen nodes /\ nodes.[i] = n).
Proof.
  intros Hnd. unfold setIds.
  apply (forRange_inv (fun k (ids : gmap GridNode Z) => forall n i, ids !! n = Some i <-> 0 <= i < k /\ nodes.[i] = n)).
  - apply alen_nonneg.
  - intros n i. rewrite lookup_empty. split; [done | lia].
  - intros k ids Hk Hids. rewrite lget_ok, bind_ok by done. ret. intros n i.
    rewrite lookup_insert. case_decide as E.
    + split; [intros [= <-]; split; [lia | done] |]. intros [Hi Ei]. f_equal.
      assert (Z.to_nat k = Z.to_nat i) as ?; [| lia].
      eapply NoDup_lookup; [done | apply at_lookup; lia |]. rewrite E, <-Ei. apply at_lookup. lia.
    + rewrite Hids. split; intros [Hi Ei]; (split; [| done]); [lia |].
      assert (i <> k) by (intros ->; done). lia.
Qed.

(** ** Rows of edges *)

Section flat_map.
Context (f : Z -> list TmpEdge) (Hf : forall u x, x ∈ f u -> tStart x = u).

(** The edges that leave [u], among the rows of several nodes. *)
Lemma leaving_flat_map u l : NoDup l -> leaving u (flat_map f l) = if decide (u ∈ l) then f u else [].
Proof.
  assert (forall v, leaving u (f v) = if decide (u = v) then f u else []) as Hrow.
  { intros v. pose proof (Hf v) as Hv. case_decide as E.
    - subst. induction (f v) as [| x r IH]; [done |]. unfold leaving in *. cbn.
      rewrite (Hv x), Z.eqb_refl, IH by set_solver. done.
    - induction (f v) as [| x r IH]; [done |]. unfold leaving in *. cbn.
      rewrite (Hv x), (proj2 (Z.eqb_neq v u)) by (done || set_solver). apply IH. set_solver. }
  induction 1 as [| v l Hv Hnd IH]; [done |]. cbn [flat_map]. unfold leaving in *.
  rewrite List.filter_app, IH, Hrow. repeat case_decide; subst; try set_solver. by rewrite app_nil_r.
Qed.

Lemma flat_map_sorted n : forall m, sortedBy tStart (flat_map f (seqZ m (Z.of_nat n))).
Proof.
  induction n as [| n IH]; intros m; [apply sortedBy_nil |].
  replace (Z.of_nat (S n)) with (1 + Z.of_nat n) by lia. rewrite seqZ_app by lia. cbn [seqZ flat_map]. rewrite flat_map_app.
  change (seqZ m 1) with [m]. cbn. rewrite app_nil_r.
  assert (forall x, x ∈ flat_map f (seqZ (m + 1) (Z.of_nat n)) -> m <= tStart x) as Hge.
  { intros x (u & Hu%list_elem_of_In%elem_of_seqZ & Hx%list_elem_of_In)%list_elem_of_In%in_flat_map.
    rewrite (Hf u x Hx). lia. }
  pose proof (Hf m) as Hm. induction (f m) as [| x r IHr]; [apply IH |]. cbn. apply sortedBy_cons. split; [| apply IHr; set_solver].
  intros y [Hy | Hy]%elem_of_app; rewrite (Hm x) by set_solver; [rewrite (Hm y) by set_solver; lia | by apply Hge].
Qed.
End flat_map.

(** ** The generated edges *)

Section edges.
Context (inWater : Z -> Z -> bool) (latStep lonStep : Z) (Hlat : 0 < latStep) (Hlon : 0 < lonStep).
Context (Hwhole : (lonStep | 360 * DEGREE)) (Hthree : lonStep < 180 * DEGREE).

(** The four places around a node; the column after 180 is the first one. *)
Definition eastOf (n : GridNode) : GridNode :=
  mkGridNode (nodeLatitude n) (if nodeLongitude n =? 180 * DEGREE then - 180 * DEGREE + lonStep else nodeLongitude n + lonStep).
Definition around (n : GridNode) : list GridNode :=
  [eastOf n; mkGridNode (nodeLatitude n) (nodeLongitude n - lonStep);
   mkGridNode (nodeLatitude n + latStep) (nodeLongitude n); mkGridNode (nodeLatitude n - latStep) (nodeLongitude n)].

Lemma lon_max n : grid_node inWater latStep lonStep n -> nodeLongitude n <= 180 * DEGREE.
Proof. intros (_ & (_ & k & Hk & ->) & _). nia. Qed.

(** Only the edge from 180 to the first column goes one way. *)
Lemma around_reverse n m : nodeLongitude n <= 180 * DEGREE -> m ∈ around n ->
  n ∈ around m \/ (nodeLongitude n = 180 * DEGREE /\ m = eastOf n).
Proof.
  intros Hn Hm. destruct (decide (nodeLongitude n = 180 * DEGREE /\ m = eastOf n)) as [He | He]; [by right |].
  left. unfold around, eastOf in *. destruct n as [la lo]. cbn in *. rewrite !elem_of_cons in *.
  destruct Hm as [-> | [-> | [-> | [-> | Hm%elem_of_nil]]]]; [| | | | done]; cbn in *.
  - destruct (Z.eqb_spec lo (180 * DEGREE)) as [-> | Hne]; [by destruct He |]. right; left. f_equal. lia.
  - left. rewrite (proj2 (Z.eqb_neq (lo - lonStep) (180 * DEGREE))) by lia. f_equal. lia.
  - do 3 right. left. f_equal. lia.
  - do 2 right. left. f_equal. lia.
Qed.

Lemma dateline_one_way n : nodeLongitude n = 180 * DEGREE -> n ∉ around (eastOf n).
Proof.
  intros Hn. unfold around, eastOf. destruct n as [la lo]. cbn in *. subst lo. rewrite Z.eqb_refl.
  rewrite (proj2 (Z.eqb_neq (- 180 * DEGREE + lonStep) (180 * DEGREE))) by lia.
  rewrite !elem_of_cons, elem_of_nil. unfold DEGREE in *. intuition simplify_eq; lia.
Qed.

(** What the lookups answer, once the nodes are created. *)
Lemma neighbourNodes_ok s n : created inWater latStep lonStep s -> grid_node inWater latStep lonStep n ->
  neighbourNodes latStep lonStep s n = (fun m => if decide (m ∈ gridNodes s) then Some m else None) <$> around n.
Proof.
  intros Hs Hn. pose proof (lon_max n Hn) as Hmax.
  assert (forall m, getNodeByLatLong s (nodeLatitude m) (nodeLongitude m) = if decide (m ∈ gridNodes s) then Some m else None) as Hget
    by (intros [la lo]; apply (cr_store _ _ _ s Hs)).
  assert (forall m, ~ lattice_lat latStep (nodeLatitude m) -> m ∉ gridNodes s) as Hout by (intros m Hm Hin%(cr_nodes _ _ _ s Hs); by apply Hm, Hin).
  destruct Hn as (_ & (Hlo & k & Hk & Ek) & _).
  unfold neighbourNodes, around. cbn [fmap list_fmap]. repeat f_equal.
  - unfold calcEasternNode, eastOf. cbn [mbind option_bind]. rewrite Hget. destruct (Z.eqb_spec (nodeLongitude n) (180 * DEGREE)) as [E | E].
    + rewrite E, (proj2 (Z.ltb_lt _ _)) by lia. replace (Z.rem _ _) with lonStep; [done |].
      rewrite Z.rem_mod_nonneg by (unfold DEGREE in *; lia). rewrite <-(Z.mod_small lonStep (180 * DEGREE)) at 1 by lia.
      by rewrite Z.add_comm, Zplus_mod, Z_mod_same_full, Z.add_0_r, Zmod_mod.
    + rewrite (proj2 (Z.ltb_ge _ _)); [done |]. assert (k <> 0) by lia. nia.
  - unfold calcWesternNode. cbn [mbind option_bind]. rewrite (proj2 (Z.ltb_ge _ _)); [by rewrite Hget |].
    destruct Hwhole as [q Hq]. assert (k + 1 <= q) by nia. nia.
  - unfold calcNorthernNode. destruct (Z.ltb_spec (90 * DEGREE) (nodeLatitude n + latStep)); cbn [mbind option_bind]; [| by rewrite Hget].
    rewrite decide_False; [done |]. apply Hout. cbn. intros (_ & j & Hj & E). nia.
  - unfold calcSouthernNode. destruct (Z.ltb_spec (nodeLatitude n - latStep) (- 90 * DEGREE)); cbn [mbind option_bind]; [| by rewrite Hget].
    rewrite decide_False; [done |]. apply Hout. cbn. intros (Hl & _). lia.
Qed.

Section rows.
Context {D : Type} `{!JDouble D} (s : collections) (ids : gmap GridNode Z).

Definition distanceBetween (n m : GridNode) : Z :=
  dtoInt (getDistance (degrees (nodeLatitude n)) (degrees (nodeLongitude n)) (degrees (nodeLatitude m)) (degrees (nodeLongitude m))).

(** The edges that node [u] gets. *)
Definition row (u : Z) : list TmpEdge :=
  (fun m => mkTmpEdge u (default 0 (ids !! m)) (distanceBetween (gridNodes s).[u] m)) <$>
  filter (fun m => m ∈ gridNodes s) (around (gridNodes s).[u]).

Definition tuple (e : TmpEdge) : Z * Z * Z := (tStart e, tDest e, tDist e).

Context (Hs : created inWater latStep lonStep s).
Context (Hids : forall n i, ids !! n = Some i <-> 0 <= i < alen (gridNodes s) /\ (gridNodes s).[i] = n).

Lemma node_at u : 0 <= u < alen (gridNodes s) -> grid_node inWater latStep lonStep (gridNodes s).[u].
Proof. intros Hu. by apply (cr_nodes _ _ _ s Hs), at_In. Qed.

Lemma addEdges_walk u dyn : 0 <= u < alen (gridNodes s) ->
  addEdges latStep lonStep s ids u dyn = Ok (dyn ++ (tuple <$> row u)).
Proof.
  intros Hu. unfold addEdges. rewrite lget_ok, bind_ok by done.
  rewrite neighbourNodes_ok by (done || by apply node_at). unfold row.
  set (n := (gridNodes s).[u]). generalize (around n). clear. intros l. revert dyn.
  induction l as [| m l IH]; intros dyn; [cbn; by rewrite app_nil_r |]. cbn [fmap list_fmap forEach].
  rewrite filter_cons. case_decide; rewrite bind_ok, IH; [cbn; by rewrite <-app_assoc | done].
Qed.

(** An edge joins a node and one around it. *)
Lemma row_has u v w : 0 <= u < alen (gridNodes s) ->
  mkTmpEdge u v w ∈ row u <-> 0 <= v < alen (gridNodes s) /\ (gridNodes s).[v] ∈ around (gridNodes s).[u] /\
    w = distanceBetween (gridNodes s).[u] (gridNodes s).[v].
Proof.
  intros Hu. unfold row. rewrite list_elem_of_fmap. split.
  - intros (m & [= Ev Ew] & [Hm Ha]%list_elem_of_filter). apply In_at in Hm as (i & Hi & <-).
    rewrite (proj2 (Hids _ i)) in Ev by done. cbn in Ev. subst i w. done.
  - intros (Hv & Ha & ->). exists (gridNodes s).[v]. rewrite (proj2 (Hids _ v)) by done. split; [done |].
    apply list_elem_of_filter. split; [by apply at_In | done].
Qed.

Lemma row_start u x : x ∈ row u -> tStart x = u.
Proof. by intros (m & -> & _)%list_elem_of_fmap. Qed.

Definition rows : list TmpEdge := flat_map row (seqZ 0 (alen (gridNodes s))).

Lemma rows_edge u v w : mkTmpEdge u v w ∈ rows <-> 0 <= u < alen (gridNodes s) /\ 0 <= v < alen (gridNodes s) /\
  (gridNodes s).[v] ∈ around (gridNodes s).[u] /\ w = distanceBetween (gridNodes s).[u] (gridNodes s).[v].
Proof.
  unfold rows. rewrite list_elem_of_In, in_flat_map. split.
  - intros (u' & Hu%list_elem_of_In%elem_of_seqZ & Hx%list_elem_of_In). pose proof (row_start _ _ Hx) as E. cbn in E. subst u'.
    apply row_has in Hx; [| lia]. split; [lia | done].
  - intros (Hu & H). exists u. rewrite <-!list_elem_of_In. split; [apply elem_of_seqZ; lia | by apply row_has].
Qed.

Lemma row_four u : alen (row u) <= 4.
Proof.
  unfold row. rewrite alen_fmap. unfold alen. pose proof (length_filter (fun m => m ∈ gridNodes s) (around (gridNodes s).[u])) as H.
  change (length (around (gridNodes s).[u])) with 4%nat in H. lia.
Qed.

Lemma rows_length : alen rows <= 4 * alen (gridNodes s).
Proof.
  unfold rows. rewrite flat_map_concat_map. pose proof (bind_length row 4 (seqZ 0 (alen (gridNodes s))) row_four) as H.
  unfold alen in H at 3. rewrite length_seqZ in H. pose proof (alen_nonneg (gridNodes s)).
  replace (concat (map _ _)) with (seqZ 0 (alen (gridNodes s)) ≫= row); [lia |].
  generalize (seqZ 0 (alen (gridNodes s))). intros l. induction l as [| u l IH]; [done |]. cbn. by rewrite IH.
Qed.
End rows.

(** The grid in the arrays. *)
Lemma createGrid_ok {D} `{!JDouble D} pointInWater picks : answers inWater latStep lonStep pointInWater -> returns (createGrid pointInWater latStep lonStep picks) (fun '(node, edge) =>
  exists s ids, created inWater latStep lonStep s /\
    (forall n i, ids !! n = Some i <-> 0 <= i < alen (gridNodes s) /\ (gridNodes s).[i] = n) /\
    node = mkNode (degrees <$> (nodeLatitude <$> gridNodes s)) (degrees <$> (nodeLongitude <$> gridNodes s)) /\
    edge = edgeOf (rows s ids)).
Proof.
  intros Hanswers. unfold createGrid. eapply returns_bind; [by apply (initGrid_ok inWater) |]. cbv beta. intros s Hs.
  eapply returns_bind; [by apply setIds_ok, Hs |]. cbv beta. intros ids Hids.
  assert (forRange 0 (alen (gridNodes s)) (addEdges latStep lonStep s ids) [] = Ok (tuple <$> rows s ids)) as ->.
  { pose proof (alen_nonneg (gridNodes s)) as Hn.
    refine (forRange_steps (fun k => tuple <$> flat_map (row s ids) (seqZ 0 k)) 0 (alen (gridNodes s)) _ Hn _). intros u Hu.
    rewrite (addEdges_walk s ids Hs) by done. f_equal. rewrite (seqZ_app 0 u 1), flat_map_app, fmap_app by lia.
    change (seqZ (0 + u) 1) with [u]. cbn [flat_map]. by rewrite app_nil_r. }
  rewrite bind_ok. ret. exists s, ids. split; [done |]. split; [done |]. split; [done |].
  unfold edgeOf. rewrite <-!list_fmap_compose. done.
Qed.

Section reimport.
Context {D : Type} `{!JDouble D} (s : collections) (ids : gmap GridNode Z).
Context (Hs : created inWater latStep lonStep s).
Context (Hids : forall n i, ids !! n = Some i <-> 0 <= i < alen (gridNodes s) /\ (gridNodes s).[i] = n).

(** An edge without its reverse goes from 180 to the first column, and comes first in its row. *)
Lemma unpaired_dateline u v w : mkTmpEdge u v w ∈ rows s ids -> unpaired (rows s ids) (mkTmpEdge u v w) = true ->
  nodeLongitude (gridNodes s).[u] = 180 * DEGREE /\ (gridNodes s).[v] = eastOf (gridNodes s).[u].
Proof.
  intros Hx Hun. apply (rows_edge s ids Hids) in Hx as (Hu & Hv & Ha & ->).
  pose proof (lon_max _ (node_at s Hs u Hu)) as Hmax.
  destruct (around_reverse _ _ Hmax Ha) as [Hback | Hdate]; [exfalso | done].
  rewrite unpaired_spec in Hun.
  assert (mkTmpEdge v u (distanceBetween (gridNodes s).[v] (gridNodes s).[u]) ∈ rows s ids) as Hrev by (by apply (rows_edge s ids Hids)).
  specialize (Hun _ Hrev). unfold opposite in Hun. cbn in Hun. by rewrite !Z.eqb_refl in Hun.
Qed.

Lemma unpaired_leading x : x ∈ rows s ids -> unpaired (rows s ids) x = true ->
  x ∈ leading (rows s ids) (leaving (tStart x) (rows s ids)).
Proof.
  destruct x as [u v w]. intros Hx Hun. destruct (unpaired_dateline u v w Hx Hun) as [_ Ev].
  apply (rows_edge s ids Hids) in Hx as (Hu & Hv & _ & ->). cbn [tStart].
  unfold rows at 2. rewrite leaving_flat_map by (intros; by apply (row_start s ids) || apply NoDup_seqZ).
  rewrite decide_True by (apply elem_of_seqZ; lia).
  unfold row, around. rewrite filter_cons, <-Ev, decide_True by (by apply at_In). cbn [fmap list_fmap].
  rewrite (proj2 (Hids _ v)) by done. cbn [from_option leading id]. rewrite Hun. by left.
Qed.

Lemma edgeList_edgeOf (l : list TmpEdge) : edgeList (edgeOf l) = l.
Proof.
  unfold edgeList, edgeOf, edgeSize. cbn [startNode destNode dist]. rewrite alen_fmap.
  etrans; [| by apply (tabulate_self l (alen l))]. apply list_fmap_ext. intros k i Hi.
  apply list_elem_of_lookup_2, elem_of_seqZ in Hi. unfold alen in Hi.
  rewrite (list_lookup_total_fmap tStart l), (list_lookup_total_fmap tDest l), (list_lookup_total_fmap tDist l) by lia.
  by destruct (l !!! _).
Qed.

Lemma dateline_unpaired u v w : nodeLongitude (gridNodes s).[u] = 180 * DEGREE ->
  (gridNodes s).[v] = eastOf (gridNodes s).[u] -> unpaired (rows s ids) (mkTmpEdge u v w) = true.
Proof.
  intros Hlon180 Ev. apply unpaired_spec. intros [v' u' w'] Hx. unfold opposite. cbn.
  apply not_true_is_false. intros [->%Z.eqb_eq ->%Z.eqb_eq]%andb_prop.
  apply (rows_edge s ids Hids) in Hx as (_ & _ & Ha & _). rewrite Ev in Ha. by apply dateline_one_way in Ha.
Qed.

(** The arrays can be exported and read again, when the distances are ints and the first column
    is not cut off. *)
Context (W : Z) (HW : W <= MAX_VALUE).
Context (Hdist : forall n m, grid_node inWater latStep lonStep n -> m ∈ around n -> 0 <= distanceBetween n m <= W).
Context (Hsize : 8 * ((360 * DEGREE / lonStep + 1) * (180 * DEGREE / latStep + 1)) <= MAX_VALUE).
Context (Hcolumn : forall n, grid_node inWater latStep lonStep n -> nodeLongitude n = 180 * DEGREE ->
  grid_node inWater latStep lonStep (eastOf n) ->
  exists m, grid_node inWater latStep lonStep m /\ m ∈ around (eastOf n)).

Lemma rows_dist x : x ∈ rows s ids -> 0 <= tDist x <= W.
Proof.
  destruct x as [u v w]. intros (Hu & Hv & Ha & ->)%(rows_edge s ids Hids). cbn. apply Hdist; [| done].
  by apply node_at.
Qed.

(** Every node with an edge to it has an edge from it. *)
Lemma rows_leave u v w : mkTmpEdge u v w ∈ rows s ids -> exists x, x ∈ rows s ids /\ tStart x = v.
Proof.
  intros (Hu & Hv & Ha & ->)%(rows_edge s ids Hids). pose proof (lon_max _ (node_at s Hs u Hu)) as Hmax.
  assert (exists m, grid_node inWater latStep lonStep m /\ m ∈ around (gridNodes s).[v]) as (m & Hm & Hma).
  { destruct (around_reverse _ _ Hmax Ha) as [Hback | [H180 Ev]].
    - exists (gridNodes s).[u]. split; [by apply node_at | done].
    - rewrite Ev. apply Hcolumn; [by apply node_at | done |]. rewrite <-Ev. by apply node_at. }
  apply (cr_nodes _ _ _ s Hs), In_at in Hm as (k & Hk & <-).
  eexists (mkTmpEdge v k _). split; [by apply (rows_edge s ids Hids) | done].
Qed.

Lemma grid_exportable : exportable (mkNode (degrees <$> (nodeLatitude <$> gridNodes s)) (degrees <$> (nodeLongitude <$> gridNodes s)) : Node D)
  (edgeOf (rows s ids)).
Proof.
  pose proof (alen_nonneg (gridNodes s)). pose proof (cr_size _ _ _ s Hs). pose proof (rows_length s ids).
  assert (forall x, x ∈ rows s ids -> exists e, 0 <= e < alen (rows s ids) /\ (rows s ids).[e] = x) as Hat by (intros x; apply In_at).
  assert (forall e, 0 <= e < alen (rows s ids) -> (tStart <$> rows s ids).[e] = tStart (rows s ids).[e] /\
    (tDest <$> rows s ids).[e] = tDest (rows s ids).[e] /\ (tDist <$> rows s ids).[e] = tDist (rows s ids).[e]) as Hget.
  { intros e He. unfold alen in He. split_and!; [apply (list_lookup_total_fmap tStart) | apply (list_lookup_total_fmap tDest) |
      apply (list_lookup_total_fmap tDist)]; lia. }
  split; unfold nodeSize, edgeOf, edgeSize; cbn [latitude longitude startNode destNode dist]; rewrite ?alen_fmap; try (unfold MAX_VALUE in *; lia).
  - intros e He. destruct (Hget e He) as (-> & -> & ->). pose proof (at_In _ _ He) as Hx.
    pose proof (rows_dist _ Hx). destruct ((rows s ids).[e]) as [u v w].
    apply (rows_edge s ids Hids) in Hx as (Hu & Hv & _ & _). split; [done |]. split; [done |]. unfold is_int, MIN_VALUE. cbn in *. lia.
  - intros e He. pose proof (at_In _ _ He) as Hx. destruct (Hget e He) as (_ & -> & _). destruct ((rows s ids).[e]) as [u v w].
    apply rows_leave in Hx as (x & (e' & He' & Ex)%Hat & Est). exists e'. split; [done |].
    destruct (Hget e' He') as (-> & _ & _). by rewrite Ex.
Qed.

Lemma repaired_rows extra u v : (forall x, x ∈ extra -> exists e, e ∈ rows s ids /\ x = reverseOf e) ->
  repairs (rows s ids) extra ->
  (exists w, mkTmpEdge u v w ∈ rows s ids ++ extra) <->
    0 <= u < alen (gridNodes s) /\ 0 <= v < alen (gridNodes s) /\
    ((gridNodes s).[v] ∈ around (gridNodes s).[u] \/ (gridNodes s).[u] ∈ around (gridNodes s).[v]).
Proof.
  intros Hrev Hlead. assert (forall a b, (exists w, mkTmpEdge a b w ∈ rows s ids) <-> 0 <= a < alen (gridNodes s) /\
    0 <= b < alen (gridNodes s) /\ (gridNodes s).[b] ∈ around (gridNodes s).[a]) as Hrows.
  { intros a b. split; [intros [w Hw%(rows_edge s ids Hids)]; tauto |]. intros (Ha & Hb & Hab). eexists. by apply (rows_edge s ids Hids). }
  split.
  - intros [w [Hw | (e & He & E)%Hrev]%elem_of_app].
    + destruct (proj1 (Hrows u v)) as (? & ? & ?); [by exists w | tauto].
    + destruct e as [a b w']. unfold reverseOf in E. cbn in E. injection E as <- <- <-. destruct (proj1 (Hrows v u)) as (? & ? & ?); [by exists w | tauto].
  - intros (Hu & Hv & [Ha | Ha]); [destruct (proj2 (Hrows u v)) as [w Hw]; [done |]; exists w; apply elem_of_app; by left |].
    destruct (proj2 (Hrows v u)) as [w Hw]; [done |].
    assert (symmetric (rows s ids ++ extra)) as Hsym.
    { apply repaired_symmetric; [done |]. intros e He Hun. by eapply repairs_leading, unpaired_leading. }
    destruct (Hsym (mkTmpEdge v u w)) as ([a b w'] & Hin & Hopp); [apply elem_of_app; by left |].
    unfold opposite in Hopp. cbn in Hopp. apply andb_prop in Hopp as [->%Z.eqb_eq ->%Z.eqb_eq]. by exists w'.
Qed.
End reimport.
End edges.

(** Steps that divide the map: the columns close up, and the grid is small enough for ints. *)
Record lattice_ok (latStep lonStep : Z) : Prop := {
  lo_lat : 0 < latStep;
  lo_lon : 0 < lonStep;
  lo_whole : (lonStep | 360 * DEGREE);
  lo_three : lonStep < 180 * DEGREE;
  lo_size : 8 * ((360 * DEGREE / lonStep + 1) * (180 * DEGREE / latStep + 1)) <= MAX_VALUE;
}.

Lemma configured_lattice : lattice_ok coordinate_step_latitude coordinate_step_longitude.
Proof. split; [reflexivity | reflexivity | exists 2000; reflexivity | reflexivity | vm_compute; discriminate]. Qed.

(** C18: When the test answers at every point, the generation returns, however the threads interleave.  The nodes are the points of the
    lattice that lie in water, each once; the edges lead from each node to the nodes east, west,
    north and south of it, with the distance between them.  The only edges without a reverse are
    those from the column at 180 degrees to the first column. *)
Theorem generated_grid {D} `{!JDouble D} pointInWater inWater latStep lonStep picks : lattice_ok latStep lonStep ->
  answers inWater latStep lonStep pointInWater ->
  exists nodes edge, createGrid pointInWater latStep lonStep picks =
      Ok (mkNode (degrees <$> (nodeLatitude <$> nodes)) (degrees <$> (nodeLongitude <$> nodes)) : Node D, edge) /\
    NoDup nodes /\ (forall n, n ∈ nodes <-> grid_node inWater latStep lonStep n) /\
    (forall u v w, mkTmpEdge u v w ∈ edgeList edge <-> 0 <= u < alen nodes /\ 0 <= v < alen nodes /\
      nodes.[v] ∈ around latStep lonStep nodes.[u] /\ w = distanceBetween nodes.[u] nodes.[v]) /\
    forall u v w, mkTmpEdge u v w ∈ edgeList edge ->
      (unpaired (edgeList edge) (mkTmpEdge u v w) = true <->
       nodeLongitude nodes.[u] = 180 * DEGREE /\ nodes.[v] = eastOf lonStep nodes.[u]).
Proof.
  intros [Hlat Hlon Hwhole Hthree _] Hanswers.
  destruct (returns_elim _ _ (createGrid_ok inWater latStep lonStep Hlat Hlon Hwhole Hthree (D := D) pointInWater picks Hanswers))
    as ([node edge] & E & s & ids & Hs & Hids & -> & ->).
  exists (gridNodes s), (edgeOf (rows latStep lonStep s ids)). split; [exact E |].
  split; [apply Hs |]. split; [apply Hs |]. rewrite edgeList_edgeOf. split; [intros u v w; by apply rows_edge |].
  intros u v w Hx. split; [by apply (unpaired_dateline inWater) | intros []; by apply (dateline_unpaired inWater latStep)].
Qed.

(** The generated file, once imported, is the full grid: the nodes of the lattice in water, with an
    edge between any two neighbours both ways, the reverse edges at the date line included.  It
    asks that the distances are ints and that no node of the first column has only the column at
    180 next to it. *)
Lemma createGridFile_ok {D} `{!JDouble D, !DoubleText D} pointInWater inWater latStep lonStep picks entrySet W :
  lattice_ok latStep lonStep -> answers inWater latStep lonStep pointInWater -> (forall m, entrySet m ≡ₚ map_to_list m) -> W <= MAX_VALUE ->
  (forall n m, grid_node inWater latStep lonStep n -> m ∈ around latStep lonStep n ->
    0 <= distanceBetween (D := D) n m <= W) ->
  (forall n, grid_node inWater latStep lonStep n -> nodeLongitude n = 180 * DEGREE ->
    grid_node inWater latStep lonStep (eastOf lonStep n) ->
    exists m, grid_node inWater latStep lonStep m /\ m ∈ around latStep lonStep (eastOf lonStep n)) ->
  exists nodes text g, createGridFile (D := D) pointInWater latStep lonStep picks = Ok text /\
    importFmiFile entrySet (lines text) =
      Ok (mkNode (degrees <$> (nodeLatitude <$> nodes)) (degrees <$> (nodeLongitude <$> nodes)) : Node D, g) /\
    NoDup nodes /\ (forall n, n ∈ nodes <-> grid_node inWater latStep lonStep n) /\
    size g = alen nodes /\ graph_ok g W /\
    forall u v, (exists w, DijkstraGrid.edge g u v w) <-> 0 <= u < alen nodes /\ 0 <= v < alen nodes /\
      (nodes.[v] ∈ around latStep lonStep nodes.[u] \/ nodes.[u] ∈ around latStep lonStep nodes.[v]).
Proof.
  intros [Hlat Hlon Hwhole Hthree Hsize] Hanswers Hentries HW Hdist Hcolumn.
  destruct (returns_elim _ _ (createGrid_ok inWater latStep lonStep Hlat Hlon Hwhole Hthree (D := D) pointInWater picks Hanswers))
    as ([node edge] & E & s & ids & Hs & Hids & -> & ->).
  assert (exportable (mkNode (degrees <$> (nodeLatitude <$> gridNodes s)) (degrees <$> (nodeLongitude <$> gridNodes s)) : Node D)
    (edgeOf (rows latStep lonStep s ids))) as Hexp by by apply (grid_exportable inWater) with (W := W).
  destruct (exportable_imported _ _ Hexp entrySet W Hentries) as (text & g & extra & Et & Eg & Hn & Hok & Hedge & Hrev & Hlead).
  { rewrite edgeList_edgeOf. by apply (rows_dist inWater). }
  rewrite edgeList_edgeOf in Hedge, Hrev, Hlead.
  exists (gridNodes s), text, g. split; [unfold createGridFile; by rewrite E, bind_ok |]. split; [exact Eg |].
  split; [apply Hs |]. split; [apply Hs |]. split; [rewrite Hn; unfold nodeSize; cbn; by rewrite !alen_fmap |]. split; [done |].
  intros u v. setoid_rewrite Hedge. by apply (repaired_rows inWater).
Qed.

#[local] Existing Instance intDouble.
#[local] Existing Instance intDouble_text.

(** West of -180 the remainder loses the half turn: the neighbour would be next to 0. *)
Example western_wrap : calcWesternNode (mkGridNode 0 (- 180 * DEGREE)) 18 = Some (mkGridNode 0 (-18)).
Proof. reflexivity. Qed.

(** When a node of the first column has only the column at 180 next to it, the exported file is
    not importable: nothing leaves that node. *)
Lemma lonely_column : exists text,
  createGridFile (D := Z) (fun la lo => Ok ((la =? 0) && ((lo =? 180 * DEGREE) || (lo =? - 90 * DEGREE)))) 9000 9000 [] = Ok text /\
  importFmiFile (D := Z) map_to_list (lines text) = Err NullPointer.
Proof. eexists. split; [vm_compute; reflexivity | vm_compute; reflexivity]. Qed.

(** ** Witnesses *)

(** Water at the equator, steps of 90 degrees. *)
Definition equator (la lo : Z) : bool := la =? 0.
Definition equatorTest (la lo : Z) : res bool := Ok (equator la lo).

Lemma quarter_lattice : lattice_ok 9000 9000.
Proof. split; [reflexivity | reflexivity | by exists 4 | reflexivity | vm_compute; discriminate]. Defined.

Lemma equator_nodes n : grid_node equator 9000 9000 n -> n ∈ [mkGridNode 0 18000; mkGridNode 0 9000; mkGridNode 0 0; mkGridNode 0 (-9000)].
Proof.
  destruct n as [la lo]. unfold grid_node, equator. cbn. intros (_ & (Hlo & k & Hk & E) & ->%Z.eqb_eq). unfold DEGREE in *.
  assert (k = 0 \/ k = 1 \/ k = 2 \/ k = 3) as [-> | [-> | [-> | ->]]] by lia; subst; set_solver.
Qed.

Lemma generated_grid_witness : lattice_ok 9000 9000 /\
  exists nodes edge, createGrid (D := Z) equatorTest 9000 9000 [2; 7; 7; 0]%nat =
      Ok (mkNode (degrees <$> (nodeLatitude <$> nodes)) (degrees <$> (nodeLongitude <$> nodes)), edge) /\
    mkGridNode 0 18000 ∈ nodes.
Proof.
  split; [exact quarter_lattice |].
  destruct (generated_grid (D := Z) equatorTest equator 9000 9000 [2; 7; 7; 0]%nat quarter_lattice (fun _ _ _ _ => eq_refl)) as (nodes & edge & E & _ & Hn & _).
  exists nodes, edge. split; [exact E |]. apply Hn. split; [| split; [| reflexivity]].
  - split; [discriminate | exists 1; done].
  - split; [reflexivity | exists 0; done].
Defined.
