(* ===== verification/Coastline.v ===== *)
(** * osmimport/CoastlineImporter.java, importdata/CoastlineWay.java, Point.java and
      coastlinegrid/CoastlineWays.java: the coastlines

    The entities of an OSM file come one after the other from the parser's callbacks; the ways
    that are coastlines are kept with the points of their known nodes, and are then flattened to
    arrays in which every pair of adjacent points is an edge.  The parser is an interface. *)

From S2P Require Import Prelude Files Grid.

(** The cast of a double to a float. *)
Class JFloat (D : Type) := toFloat : D -> D.

(** ** Point.java, CoastlineWay.java *)

Record Point (D : Type) := mkPoint { pointId : Z; pLat : D; pLon : D }.
Arguments mkPoint {D}.
Arguments pointId {D}.
Arguments pLat {D}.
Arguments pLon {D}.

(** The points of a way. *)
Notation CoastlineWay D := (list (Point D)) (only parsing).

Section coastline.
Context {D : Type}.

Definition getNumberOfEdges (way : CoastlineWay D) : Z := if alen way <=? 1 then 0 else alen way - 1.
Definition getNumberOfPoints (way : CoastlineWay D) : Z := if alen way <=? 1 then 0 else alen way.

(** ** CoastlineImporter.java *)

(** What the parser calls back with. *)
Inductive entity :=
| PbfHeader
| PbfNode (id : Z) (lat lon : D)
| PbfWay (tags : gmap string string) (nodes : list Z).

Record importer := mkImporter { coastLineWays : list (CoastlineWay D); allNodes : gmap Z (Point D) }.

Definition isCoastlineEntity (tags : gmap string string) (nodes : list Z) : bool :=
  bool_decide (tags !! "natural"%string = Some "coastline"%string) && (0 <? alen nodes)
  && negb (bool_decide (tags !! "coastline"%string = Some "bogus"%string)).

Definition processWay (tags : gmap string string) (nodes : list Z) (s : importer) : importer :=
  if isCoastlineEntity tags nodes then
    let cWay := foldl (fun cWay id => match allNodes s !! id with Some node => cWay ++ [node] | None => cWay end) [] nodes in
    mkImporter (coastLineWays s ++ [cWay]) (allNodes s)
  else s.

Definition processNode `{!JFloat D} (id : Z) (lat lon : D) (s : importer) : importer :=
  mkImporter (coastLineWays s) (<[id := mkPoint id (toFloat lat) (toFloat lon)]> (allNodes s)).

Definition processHeader (s : importer) : importer := s.

Definition process `{!JFloat D} (s : importer) (e : entity) : importer :=
  match e with
  | PbfHeader => processHeader s
  | PbfNode id lat lon => processNode id lat lon s
  | PbfWay tags nodes => processWay tags nodes s
  end.

Definition importPBF `{!JFloat D} (entities : list entity) : list (CoastlineWay D) :=
  coastLineWays (foldl process (mkImporter [] ∅) entities).

(** ** CoastlineWays.java *)

Record t := mk { edgePosStart : list Z; pointLat : list D; pointLon : list D }.

Section arrays.
Context (zero : D).

(** One point of a way; the counters are [nextEdgeIdx] and [nextCoordIdx]. *)
Definition addPoint (currPoints : CoastlineWay D) (pointIdx : Z) (st : t * Z * Z) : res (t * Z * Z) :=
  let '(s, nextEdgeIdx, nextCoordIdx) := st in
  currPoint ← lget currPoints pointIdx;
  lon ← aset (pointLon s) nextCoordIdx (pLon currPoint);
  lat ← aset (pointLat s) nextCoordIdx (pLat currPoint);
  if pointIdx =? alen currPoints - 1 then Ok (mk (edgePosStart s) lat lon, nextEdgeIdx, iadd nextCoordIdx 1)
  else
    start ← aset (edgePosStart s) nextEdgeIdx nextCoordIdx;
    Ok (mk start lat lon, iadd nextEdgeIdx 1, iadd nextCoordIdx 1).

Definition addWay (currCoastlineWay : CoastlineWay D) (st : t * Z * Z) : res (t * Z * Z) :=
  if alen currCoastlineWay <=? 1 then Ok st
  else forRange 0 (alen currCoastlineWay) (addPoint currCoastlineWay) st.

Definition initEdges (importedCoastlines : list (CoastlineWay D)) : res t :=
  '(numberOfEdges, numberOfCoordinates) ← forEach importedCoastlines (fun way '(e, c) =>
    Ok (iadd e (getNumberOfEdges way), iadd c (getNumberOfPoints way))) (0, 0);
  edgePosStart ← newArray 0 numberOfEdges;
  pointLon ← newArray zero numberOfCoordinates;
  pointLat ← newArray zero numberOfCoordinates;
  '(s, _, _) ← forEach importedCoastlines addWay (mk edgePosStart pointLat pointLon, 0, 0);
  Ok s.

Definition numberOfEdges (s : t) : Z := alen (edgePosStart s).
Definition getStartLatByEdgeIdx (s : t) (e : Z) : res D := i ← aget (edgePosStart s) e; aget (pointLat s) i.
Definition getDestLatByEdgeIdx (s : t) (e : Z) : res D := i ← aget (edgePosStart s) e; aget (pointLat s) (iadd i 1).
Definition getStartLonByEdgeIdx (s : t) (e : Z) : res D := i ← aget (edgePosStart s) e; aget (pointLon s) i.
Definition getDestLonByEdgeIdx (s : t) (e : Z) : res D := i ← aget (edgePosStart s) e; aget (pointLon s) (iadd i 1).

Definition COASTLINE_WAYS_SERIALIZATION_FILE_NAME : string := "CoastlineWays.ser".

(** [pbf] is [None] when the import throws an IOException, which is only printed; [cut] is the number
    of bytes of the file after which the program is killed, if it is. *)
Definition initCoastlineWays {B} `{!Serial t B} (pbf : option (list (CoastlineWay D))) (cut : option nat) (files : disk B)
    : res (t * disk B) :=
  match files !! COASTLINE_WAYS_SERIALIZATION_FILE_NAME with
  | None =>
      s ← initEdges (default [] pbf);
      Ok (s, writeFile cut COASTLINE_WAYS_SERIALIZATION_FILE_NAME (serialize s) files)
  | Some b => match deserialize b with Ok s => Ok (s, files) | Err _ => Err SystemExit end
  end.
End arrays.
End coastline.
Arguments entity : clear implicits.
Arguments importer : clear implicits.
Arguments t : clear implicits.

(** ** The arrays *)

Section edges.
Context {D : Type}.
Implicit Types (ways : list (CoastlineWay D)) (way : CoastlineWay D).

(** The edges of the coastlines: the pairs of adjacent points. *)
Definition pairs way : list (Point D * Point D) := zip way (tail way).
Definition segments ways : list (Point D * Point D) := flat_map pairs ways.

(** The points that are stored, and the index of the first point of each edge. *)
Definition pointsOf way : list (Point D) := if alen way <=? 1 then [] else way.
Definition startsOf (o : Z) way : list Z := if alen way <=? 1 then [] else seqZ o (alen way - 1).
Definition points ways : list (Point D) := flat_map pointsOf ways.
Fixpoint starts (o : Z) ways : list Z :=
  match ways with [] => [] | way :: ways => startsOf o way ++ starts (o + alen (pointsOf way)) ways end.

Lemma alen_pointsOf way : alen (pointsOf way) = getNumberOfPoints way.
Proof. unfold pointsOf, getNumberOfPoints. by destruct (Z.leb_spec (alen way) 1). Qed.

Lemma alen_startsOf o way : alen (startsOf o way) = getNumberOfEdges way.
Proof.
  unfold startsOf, getNumberOfEdges. destruct (Z.leb_spec (alen way) 1); [done |]. unfold alen in *. rewrite length_seqZ. lia.
Qed.

Lemma starts_app ways : forall o ways', starts o (ways ++ ways') = starts o ways ++ starts (o + alen (points ways)) ways'.
Proof.
  induction ways as [| way ways IH]; intros o ways'; cbn; [by rewrite Z.add_0_r |].
  by rewrite IH, <-app_assoc, alen_app, Z.add_assoc.
Qed.

Lemma points_app ways ways' : points (ways ++ ways') = points ways ++ points ways'.
Proof. apply flat_map_app. Qed.

(** An array filled from the front. *)
Lemma put_next {A} (l : list A) n d x : 0 < n -> aset (l ++ replicate (Z.to_nat n) d) (alen l) x = Ok ((l ++ [x]) ++ replicate (Z.to_nat (n - 1)) d).
Proof.
  intros Hn. replace (Z.to_nat n) with (S (Z.to_nat (n - 1))) by lia. cbn [replicate].
  rewrite aset_ok by (rewrite alen_app, alen_cons; pose proof (alen_nonneg l); pose proof (alen_nonneg (replicate (Z.to_nat (n - 1)) d)); lia).
  unfold alen. rewrite Nat2Z.id, insert_app_r_alt, Nat.sub_diag by lia. cbn. by rewrite <-app_assoc.
Qed.

Section fill.
Context (zero : D) (ne nc : Z) (Hne : is_int ne) (Hnc : is_int nc).

(** The arrays with the first edges and points put in. *)
Definition filled (es : list Z) (ps : list (Point D)) : t D * Z * Z :=
  (mk (es ++ replicate (Z.to_nat (ne - alen es)) 0) ((pLat <$> ps) ++ replicate (Z.to_nat (nc - alen ps)) zero)
      ((pLon <$> ps) ++ replicate (Z.to_nat (nc - alen ps)) zero), alen es, alen ps).

Lemma addPoint_ok way i p es ps : lget way i = Ok p -> alen ps < nc -> (i <> alen way - 1 -> alen es < ne) ->
  addPoint way i (filled es ps) = Ok (filled (if i =? alen way - 1 then es else es ++ [alen ps]) (ps ++ [p])).
Proof.
  intros Hp Hps Hes. pose proof (alen_nonneg ps). pose proof (alen_nonneg es). unfold is_int, MIN_VALUE in *.
  assert (forall f : Point D -> D, aset ((f <$> ps) ++ replicate (Z.to_nat (nc - alen ps)) zero) (alen ps) (f p)
    = Ok ((f <$> ps ++ [p]) ++ replicate (Z.to_nat (nc - alen (ps ++ [p]))) zero)) as Hput.
  { intros f. pose proof (put_next (f <$> ps) (nc - alen ps) zero (f p) ltac:(lia)) as E. rewrite alen_fmap in E.
    rewrite E, fmap_app, alen_app. by replace (nc - (alen ps + alen [p])) with (nc - alen ps - 1) by (change (alen [p]) with 1; lia). }
  unfold addPoint, filled. rewrite Hp, bind_ok. cbn [pointLon pointLat edgePosStart]. rewrite !Hput, !bind_ok.
  rewrite (iadd_id (alen ps) 1) by (unfold is_int, MIN_VALUE in *; lia).
  destruct (Z.eqb_spec i (alen way - 1)) as [E | E]; [by rewrite (alen_app ps) |].
  specialize (Hes E). rewrite put_next, bind_ok by lia. rewrite (iadd_id (alen es) 1) by (unfold is_int, MIN_VALUE in *; lia).
  rewrite (alen_app es). change (alen [alen ps]) with 1. by rewrite Z.sub_add_distr, (alen_app ps).
Qed.

Lemma addWay_ok way es ps : alen ps + getNumberOfPoints way <= nc -> alen es + getNumberOfEdges way <= ne ->
  addWay way (filled es ps) = Ok (filled (es ++ startsOf (alen ps) way) (ps ++ pointsOf way)).
Proof.
  intros Hps Hes. unfold addWay, startsOf, pointsOf, getNumberOfPoints, getNumberOfEdges in *.
  destruct (Z.leb_spec (alen way) 1) as [Hone | Hmany]; [by rewrite !app_nil_r |].
  pose proof (forRange_steps (fun i => filled (es ++ seqZ (alen ps) (Z.min i (alen way - 1))) (ps ++ take (Z.to_nat i) way))
    0 (alen way) (addPoint way)) as H.
  cbv beta in H. change (take (Z.to_nat 0) way) with (@nil (Point D)) in H. rewrite (Z.min_l 0) in H by lia.
  change (seqZ (alen ps) 0) with (@nil Z) in H. rewrite !app_nil_r in H.
  rewrite Z.min_r, firstn_all2 in H by (unfold alen; lia). apply H; [lia |]. clear H.
  intros i Hi. destruct (lookup_lt_is_Some_2 way (Z.to_nat i)) as [p Hp]; [unfold alen in Hi; lia |].
  assert (alen (take (Z.to_nat i) way) = i) as Ht by (apply alen_take; lia).
  rewrite (addPoint_ok way i p).
  - do 2 f_equal.
    + destruct (Z.eqb_spec i (alen way - 1)) as [-> | E]; [do 2 f_equal; lia |].
      rewrite alen_app, Ht, <-app_assoc, !Z.min_l by lia. f_equal. rewrite seqZ_app by lia. done.
    + rewrite <-app_assoc. f_equal. replace (Z.to_nat (i + 1)) with (S (Z.to_nat i)) by lia. by rewrite (take_S_r _ _ p).
  - unfold lget. destruct (Z.ltb_spec i 0); [lia |]. by rewrite Hp.
  - rewrite alen_app, Ht. lia.
  - intros E. rewrite alen_app. unfold alen at 2. rewrite length_seqZ. lia.
Qed.

Lemma addWays_ok ways : forall es ps, alen ps + alen (points ways) <= nc -> alen es + alen (starts (alen ps) ways) <= ne ->
  forEach ways addWay (filled es ps) = Ok (filled (es ++ starts (alen ps) ways) (ps ++ points ways)).
Proof.
  induction ways as [| way ways IH]; intros es ps Hps Hes; cbn; [by rewrite !app_nil_r |].
  cbn in Hps, Hes. fold (points ways) in *. rewrite alen_app, alen_pointsOf in Hps. rewrite alen_app, alen_startsOf in Hes.
  pose proof (alen_nonneg (points ways)). pose proof (alen_nonneg (starts (alen ps + alen (pointsOf way)) ways)).
  rewrite addWay_ok by lia. rewrite bind_ok, IH; rewrite ?alen_app, ?alen_pointsOf, ?alen_startsOf.
  - by rewrite <-!app_assoc.
  - lia.
  - rewrite alen_pointsOf in *. lia.
Qed.
End fill.

Lemma pairs_lookup way i : pairs way !! i = match way !! i, way !! S i with Some p, Some q => Some (p, q) | _, _ => None end.
Proof. unfold pairs. rewrite lookup_zip_with, lookup_tail. destruct (way !! i), (way !! S i); reflexivity. Qed.

Lemma alen_pairs way : alen (pairs way) = getNumberOfEdges way.
Proof.
  unfold pairs, getNumberOfEdges, alen. rewrite length_zip_with. destruct way as [| p way]; [done |].
  change (length (tail (p :: way))) with (length way). cbn [length]. destruct (Z.leb_spec (Z.of_nat (S (length way))) 1); lia.
Qed.

Lemma alen_starts ways : forall o, alen (starts o ways) = alen (segments ways).
Proof.
  induction ways as [| way ways IH]; intros o; [done |]. cbn. fold (segments ways).
  by rewrite !alen_app, alen_startsOf, alen_pairs, IH.
Qed.

Lemma starts_points ways o : alen (starts o ways) <= alen (points ways).
Proof.
  revert o. induction ways as [| way ways IH]; intros o; [done |]. cbn. fold (points ways).
  rewrite !alen_app, alen_startsOf, alen_pointsOf. specialize (IH (o + getNumberOfPoints way)).
  unfold getNumberOfEdges, getNumberOfPoints in *. destruct (Z.leb_spec (alen way) 1); lia.
Qed.

(** The index of the first point of an edge leads to its two points. *)
Lemma starts_segments ways : forall o i s, starts o ways !! i = Some s ->
  exists p q j, s = o + Z.of_nat j /\ segments ways !! i = Some (p, q) /\ points ways !! j = Some p /\ points ways !! S j = Some q.
Proof.
  induction ways as [| way ways IH]; intros o i s; [done |]. cbn. fold (points ways) (segments ways).
  assert (length (startsOf o way) = length (pairs way)) as Hlen by (pose proof (alen_pairs way); pose proof (alen_startsOf o way); unfold alen in *; lia).
  rewrite lookup_app. destruct (startsOf o way !! i) as [s' |] eqn:E.
  - intros [= ->]. unfold startsOf, pointsOf in *. destruct (Z.leb_spec (alen way) 1) as [| Hway]; [done |].
    apply lookup_seqZ in E as [-> Hi]. unfold alen in *.
    destruct (lookup_lt_is_Some_2 way i) as [p Hp]; [lia |]. destruct (lookup_lt_is_Some_2 way (S i)) as [q Hq]; [lia |].
    exists p, q, i. split; [done |]. rewrite !lookup_app, pairs_lookup, Hp, Hq. done.
  - intros Hs. rewrite Hlen in Hs. apply IH in Hs as (p & q & j & -> & Hseg & Hp & Hq).
    exists p, q, (length (pointsOf way) + j)%nat. split; [unfold alen; lia |].
    apply lookup_ge_None in E. rewrite lookup_app_r by lia. split; [done |].
    rewrite <-Nat.add_succ_r, !lookup_app_r by lia. by rewrite !Nat.add_sub'.
Qed.

Lemma counts_ok ways : alen (points ways) <= MAX_VALUE ->
  forEach ways (fun way '(e, c) => Ok (iadd e (getNumberOfEdges way), iadd c (getNumberOfPoints way))) (0, 0)
    = Ok (alen (starts 0 ways), alen (points ways)).
Proof.
  intros Hmax. assert (forall pre, alen (points pre) <= MAX_VALUE -> is_int (alen (starts 0 pre)) /\ is_int (alen (points pre))) as Hint.
  { intros pre Hpre. pose proof (starts_points pre 0). pose proof (alen_nonneg (starts 0 pre)). pose proof (alen_nonneg (points pre)).
    unfold is_int, MIN_VALUE. lia. }
  match goal with |- ?m = Ok ?x => enough (returns m (fun st => st = x)) as (st & -> & ->)%returns_elim by done end.
  apply (forEach_inv (fun pre st => st = (alen (starts 0 pre), alen (points pre)))); [done |].
  intros pre way todo st E ->. cbn.
  assert (alen (points (pre ++ [way])) <= MAX_VALUE) as Hpre.
  { rewrite E, (cons_middle way), app_assoc, points_app, alen_app in Hmax. pose proof (alen_nonneg (points todo)). lia. }
  destruct (Hint _ Hpre) as [Hs Hp]. rewrite starts_app, points_app, !alen_app in *. cbn in *. rewrite !app_nil_r in *.
  rewrite alen_startsOf, alen_pointsOf in *. by rewrite !iadd_id.
Qed.

Lemma initEdges_arrays zero ways : alen (points ways) <= MAX_VALUE ->
  initEdges zero ways = Ok (mk (starts 0 ways) (pLat <$> points ways) (pLon <$> points ways)).
Proof.
  intros Hmax. pose proof (starts_points ways 0). pose proof (alen_nonneg (starts 0 ways)). pose proof (alen_nonneg (points ways)).
  unfold initEdges. rewrite counts_ok, bind_ok by done. unfold newArray.
  rewrite (proj2 (Z.ltb_ge (alen (starts 0 ways)) 0)), (proj2 (Z.ltb_ge (alen (points ways)) 0)), !bind_ok by lia.
  assert (is_int (alen (starts 0 ways)) /\ is_int (alen (points ways))) as [Hs Hp] by (unfold is_int, MIN_VALUE; lia).
  pose proof (addWays_ok zero _ _ Hs Hp ways [] [] (Z.le_refl _) (Z.le_refl _)) as E.
  unfold filled in E. cbn [app fmap list_fmap] in E. change (@alen Z []) with 0 in E. change (@alen (Point D) []) with 0 in E.
  rewrite !Z.sub_0_r, !Z.sub_diag in E.
  change (Z.to_nat 0) with 0%nat in E. cbn [replicate] in E. rewrite !app_nil_r in E. by rewrite E.
Qed.
End edges.

(** ** The imported ways *)

Section ways.
Context {D : Type} `{!JFloat D}.
Implicit Types (es : list (entity D)).

(** The point of a node id: the last node of the file so far that has it. *)
Definition nodePoint (id : Z) (e : entity D) : option (Point D) :=
  match e with PbfNode id' lat lon => if id' =? id then Some (mkPoint id' (toFloat lat) (toFloat lon)) else None | _ => None end.
Definition lastNode es (id : Z) : option (Point D) := last (omap (nodePoint id) es).

Lemma lastNode_snoc es e id : lastNode (es ++ [e]) id = match nodePoint id e with Some p => Some p | None => lastNode es id end.
Proof. unfold lastNode. rewrite omap_app. cbn. destruct (nodePoint id e); [by rewrite last_snoc | by rewrite app_nil_r]. Qed.

Lemma resolve_ok (m : gmap Z (Point D)) nodes : forall acc,
  foldl (fun cWay id => match m !! id with Some node => cWay ++ [node] | None => cWay end) acc nodes = acc ++ omap (m !!.) nodes.
Proof.
  induction nodes as [| id nodes IH]; intros acc; cbn; [by rewrite app_nil_r |].
  rewrite IH. destruct (m !! id); [by rewrite <-app_assoc | done].
Qed.

Lemma import_nodes es id : allNodes (foldl process (mkImporter [] ∅) es) !! id = lastNode es id.
Proof.
  induction es as [| e es IH] using rev_ind; [apply lookup_empty |].
  rewrite foldl_snoc, lastNode_snoc, <-IH. destruct e as [| id' lat lon | tags nodes]; cbn; [done | |].
  - destruct (Z.eqb_spec id' id) as [-> |]; [by rewrite lookup_insert_eq | by rewrite lookup_insert_ne].
  - unfold processWay. by destruct (isCoastlineEntity tags nodes).
Qed.

(** A way of the file that is a coastline, with the points that its nodes have at that place. *)
Definition coast es (way : CoastlineWay D) : Prop :=
  exists pre tags nodes post, es = pre ++ PbfWay tags nodes :: post /\ isCoastlineEntity tags nodes = true /\
    way = omap (lastNode pre) nodes.

Lemma coast_snoc es e way : coast (es ++ [e]) way <-> coast es way \/
  exists tags nodes, e = PbfWay tags nodes /\ isCoastlineEntity tags nodes = true /\ way = omap (lastNode es) nodes.
Proof.
  split.
  - intros (pre & tags & nodes & post & E & Hc & Hw). destruct post as [| e' post _] using rev_ind.
    + apply app_inj_tail in E as [-> ->]. right. by exists tags, nodes.
    + rewrite app_comm_cons, app_assoc in E. apply app_inj_tail in E as [-> ->]. left. by exists pre, tags, nodes, post.
  - intros [(pre & tags & nodes & post & -> & Hc & Hw) | (tags & nodes & -> & Hc & Hw)].
    + exists pre, tags, nodes, (post ++ [e]). by rewrite <-app_assoc.
    + by exists es, tags, nodes, [].
Qed.

Lemma importPBF_coast es way : way ∈ importPBF es <-> coast es way.
Proof.
  unfold importPBF. induction es as [| e es IH] using rev_ind.
  - split; [intros H; by apply elem_of_nil in H |]. intros (pre & tags & nodes & post & E & _). by destruct pre.
  - rewrite foldl_snoc, coast_snoc, <-IH. destruct e as [| id lat lon | tags nodes]; cbn.
    1, 2: (split; [by left | intros [| (? & ? & [=] & _)]; done]).
    unfold processWay. destruct (isCoastlineEntity tags nodes) eqn:Ec; cbn.
    + rewrite elem_of_app, list_elem_of_singleton, resolve_ok. cbn [app].
      assert (omap (allNodes (foldl process (mkImporter [] ∅) es) !!.) nodes = omap (lastNode es) nodes) as ->
        by (apply list_omap_ext, Forall_Forall2_diag, Forall_true; intros id; apply import_nodes).
      split; [intros [|]; [by left | right; by exists tags, nodes] | intros [Hold | (? & ? & [= <- <-] & _ & ->)]; [by left | by right]].
    + split; [by left | intros [| (? & ? & [= <- <-] & Hc & _)]; [done | congruence]].
Qed.
End ways.

(** ** The edges *)

Section accessors.
Context {D : Type}.
Implicit Types (ways : list (CoastlineWay D)) (s : t D) (p q : Point D).

(** The accessors answer [p] and [q] for edge [e]. *)
Definition edge_is s (e : Z) p q : Prop :=
  getStartLatByEdgeIdx s e = Ok (pLat p) /\ getStartLonByEdgeIdx s e = Ok (pLon p) /\
  getDestLatByEdgeIdx s e = Ok (pLat q) /\ getDestLonByEdgeIdx s e = Ok (pLon q).

Lemma segments_elem ways p q : (p, q) ∈ segments ways <->
  exists way k, way ∈ ways /\ way !! k = Some p /\ way !! S k = Some q.
Proof.
  unfold segments. rewrite list_elem_of_In, in_flat_map. split.
  - intros (way & Hw%list_elem_of_In & Hk%list_elem_of_In). apply list_elem_of_lookup in Hk as [k Hk]. rewrite pairs_lookup in Hk.
    exists way, k. destruct (way !! k), (way !! S k); by simplify_eq.
  - intros (way & k & Hw & Hp & Hq). exists way. rewrite <-!list_elem_of_In. split; [done |].
    apply (list_elem_of_lookup_2 _ k). by rewrite pairs_lookup, Hp, Hq.
Qed.

Lemma arrays_edge ways i p q : alen (points ways) <= MAX_VALUE -> segments ways !! i = Some (p, q) ->
  edge_is (mk (starts 0 ways) (pLat <$> points ways) (pLon <$> points ways)) (Z.of_nat i) p q.
Proof.
  intros Hmax Hseg. assert (i < length (starts 0 ways))%nat as Hi.
  { apply lookup_lt_Some in Hseg. pose proof (alen_starts ways 0). unfold alen in *. lia. }
  destruct (lookup_lt_is_Some_2 _ _ Hi) as [s Hs]. destruct (starts_segments ways 0 i s Hs) as (p' & q' & j & -> & Hseg' & Hp & Hq).
  rewrite Hseg in Hseg'. injection Hseg' as <- <-.
  assert (forall {A} (l : list A) k x, l !! k = Some x -> aget l (Z.of_nat k) = Ok x) as Hget.
  { intros A l k x Hk. unfold aget. destruct (Z.ltb_spec (Z.of_nat k) 0); [lia |]. by rewrite Nat2Z.id, Hk. }
  assert (iadd (0 + Z.of_nat j) 1 = Z.of_nat (S j)) as Hnext.
  { rewrite iadd_id; [lia |]. apply lookup_lt_Some in Hq. unfold alen, is_int, MIN_VALUE in *. lia. }
  unfold edge_is, getStartLatByEdgeIdx, getStartLonByEdgeIdx, getDestLatByEdgeIdx, getDestLonByEdgeIdx.
  cbn [edgePosStart pointLat pointLon]. rewrite (Hget _ _ _ _ Hs), !bind_ok, Hnext, Z.add_0_l.
  split_and!; apply Hget; by rewrite list_lookup_fmap, ?Hp, ?Hq.
Qed.
End accessors.

(** C20: From the entities of the OSM file to the edges: the first run imports, writes its file and
    returns, every later run returns the same arrays from that file.  The edges are exactly the
    pairs of adjacent known points on the ways of the file that are coastlines, and the four
    accessors answer their coordinates, as floats. *)
Theorem coastline_edges {D B} `{!JFloat D, !Serial (t D) B, !SerialLaws (t D) B} zero entities (files : disk B) :
  alen (points (importPBF entities)) <= MAX_VALUE -> files !! COASTLINE_WAYS_SERIALIZATION_FILE_NAME = None ->
  exists s files', initCoastlineWays zero (Some (importPBF entities)) None files = Ok (s, files') /\
    (forall pbf cut, initCoastlineWays zero pbf cut files' = Ok (s, files')) /\
    (forall e, 0 <= e < numberOfEdges s -> exists way k p q, coast entities way /\
      way !! k = Some p /\ way !! S k = Some q /\ edge_is s e p q) /\
    (forall way k p q, coast entities way -> way !! k = Some p -> way !! S k = Some q ->
      exists e, 0 <= e < numberOfEdges s /\ edge_is s e p q).
Proof.
  intros Hmax Hfile. set (ways := importPBF entities) in *. unfold initCoastlineWays. rewrite Hfile. cbn [from_option id].
  rewrite initEdges_arrays, bind_ok by done. rewrite writeFile_all. eexists _, _. split; [done |].
  split; [intros pbf cut; by rewrite lookup_insert_eq, deserialize_serialize |].
  pose proof (alen_starts ways 0) as Hlen. unfold numberOfEdges. cbn [edgePosStart]. rewrite Hlen. split.
  - intros e He. destruct (lookup_lt_is_Some_2 (segments ways) (Z.to_nat e)) as [[p q] Hseg]; [unfold alen in He; lia |].
    pose proof (arrays_edge ways _ p q Hmax Hseg) as Hedge. rewrite Z2Nat.id in Hedge by lia.
    apply list_elem_of_lookup_2, segments_elem in Hseg as (way & k & Hw & Hp & Hq).
    exists way, k, p, q. split; [by apply importPBF_coast | done].
  - intros way k p q Hw%importPBF_coast Hp Hq.
    assert ((p, q) ∈ segments ways) as [i Hi]%list_elem_of_lookup by (apply segments_elem; by exists way, k).
    exists (Z.of_nat i). split; [apply lookup_lt_Some in Hi; unfold alen; lia | by apply arrays_edge].
Qed.

(** ** Witness *)

#[local] Instance roundFloat : JFloat Z := fun x => x.
#[local] Instance plainSerial : Serial (t Z) (t Z) := oneByte id Some.
#[local] Instance plainSerialLaws : SerialLaws (t Z) (t Z).
Proof. by apply oneByte_laws. Qed.

(** A coastline of three points, one of which is moved by a later node, an unknown node, and ways
    that are no coastlines. *)
Definition sampleFile : list (entity Z) :=
  [PbfHeader; PbfNode 1 50 10; PbfNode 2 51 11; PbfNode 3 52 12;
   PbfWay {["natural"%string := "coastline"%string]} [1; 2; 9; 3];
   PbfWay {["natural"%string := "coastline"%string; "coastline"%string := "bogus"%string]} [1; 2];
   PbfWay {["highway"%string := "yes"%string]} [2; 3]; PbfNode 2 0 0].

Example sample_edges : (s ← initEdges 0 (importPBF sampleFile); Ok (edgePosStart s, pointLat s, pointLon s))
  = Ok ([0; 1], [50; 51; 52], [10; 11; 12]).
Proof. reflexivity. Qed.

Lemma coastline_edges_witness : exists s files',
  initCoastlineWays (B := t Z) 0 (Some (importPBF sampleFile)) None ∅ = Ok (s, files') /\ numberOfEdges s = 2.
Proof.
  destruct (coastline_edges (D := Z) (B := t Z) 0 sampleFile ∅) as (s & files' & E & _);
    [vm_compute; discriminate | reflexivity |].
  exists s, files'. split; [exact E |]. vm_compute in E. injection E as <- _. reflexivity.
Defined.
