(* ===== verification/Geometry.v ===== *)
(** * utils/IntersectionHelper.java: arcs on the sphere

    The tests by which the coastline is located: the position of a point relative to a cell, and
    whether an arc meets another arc or a parallel.  [getDistance] is in [Grid].  The operations on
    doubles that these need, and Guava's [DoubleMath.fuzzyEquals], are an interface on top of
    [JDouble]. *)

From S2P Require Import Prelude Text Doubles.

Class JMath (D : Type) := {
  dle : D -> D -> bool;
  dabs : D -> D;
  dmax : D -> D -> D;
  dmin : D -> D -> D;
  dfloor : D -> D;
  dacos : D -> D;
  dtoRadians : D -> D;
  drem : D -> D -> D;                       (* the operator % *)
  fuzzyEquals : D -> D -> D -> bool;
}.

Section geometry.
Context {D : Type} `{!JDouble D, !JMath D}.

(** West, east, north, south. *)
Definition getPositionInfoOfPointRelativeToCell (pointToCheckLat pointToCheckLon westernBoundLon easternBoundLon
    southernBoundLon northernBoundLon : D) : bool * bool * bool * bool :=
  let west := dlt pointToCheckLon westernBoundLon in
  let east := negb west && dlt easternBoundLon pointToCheckLon in
  let south := dlt pointToCheckLat southernBoundLon in
  let north := negb south && dlt northernBoundLon pointToCheckLat in
  (west, east, north, south).

(** ** Vectors *)

Definition vector : Type := D * D * D.

Definition latLonToVector (lat lon : D) : vector :=
  let lat := dtoRadians lat in
  let lon := dtoRadians lon in
  let latCos := dcos lat in
  (dmul latCos (dcos lon), dmul latCos (dsin lon), dsin lat).

Definition addVectors (a b : vector) : vector :=
  let '(a0, a1, a2) := a in let '(b0, b1, b2) := b in (dadd a0 b0, dadd a1 b1, dadd a2 b2).

Definition crossProductOfVector (a u : vector) : vector :=
  let '(a0, a1, a2) := a in let '(u0, u1, u2) := u in
  (dsub (dmul a1 u2) (dmul a2 u1), dsub (dmul a2 u0) (dmul a0 u2), dsub (dmul a0 u1) (dmul a1 u0)).

Definition dotProductOfVector (a b : vector) : D :=
  let '(a0, a1, a2) := a in let '(b0, b1, b2) := b in dadd (dadd (dmul a0 b0) (dmul a1 b1)) (dmul a2 b2).

Definition vectorLength (v : vector) : D :=
  let '(v0, v1, v2) := v in dsqrt (dadd (dadd (dmul v0 v0) (dmul v1 v1)) (dmul v2 v2)).

Definition EARTH_RADIUS_METERS : Z := 6371 * 1000.

Definition distance (v u : vector) : D :=
  dmul (dofZ EARTH_RADIUS_METERS) (datan2 (vectorLength (crossProductOfVector v u)) (dotProductOfVector v u)).

(** ** Arcs *)

(** 0.0000001 *)
Definition tolerance : D := ddiv (dofZ 1) (dofZ 10000000).

(** The written intersection point, when there is one; the array it goes to is new. *)
Definition lineIntersection (sourceA destA sourceB destB target : vector) : bool * vector :=
  let c1 := crossProductOfVector sourceA destA in
  let c2 := crossProductOfVector sourceB destB in
  let i1 := crossProductOfVector c1 c2 in
  let i2 := crossProductOfVector c2 c1 in
  let midPoint := addVectors sourceA (addVectors destA (addVectors sourceB destB)) in
  let dot := dotProductOfVector midPoint i1 in
  if dlt (dofZ 0) dot then (true, i1)
  else if dlt dot (dofZ 0) then (true, i2)
  else (false, target).

Definition isIntersectionInGreatCircleSegment (source dest inter : vector) : bool :=
  let arcLength := distance source dest in
  dle (distance inter source) arcLength && dle (distance inter dest) arcLength.

Definition greatCircleSegmentIntersection (sourceA destA sourceB destB target : vector) : bool :=
  let '(intersect, target) := lineIntersection sourceA destA sourceB destB target in
  if isIntersectionInGreatCircleSegment sourceA destA target && isIntersectionInGreatCircleSegment sourceB destB target
  then intersect else false.

Definition arcsIntersect (latSourceA lonSourceA latDestA lonDestA latSourceB lonSourceB latDestB lonDestB : D) : bool :=
  if fuzzyEquals lonSourceA lonDestA tolerance && fuzzyEquals lonDestA lonSourceB tolerance
     && fuzzyEquals lonSourceB lonDestB tolerance then true
  else greatCircleSegmentIntersection (latLonToVector latSourceA lonSourceA) (latLonToVector latDestA lonDestA)
         (latLonToVector latSourceB lonSourceB) (latLonToVector latDestB lonDestB) (dofZ 0, dofZ 0, dofZ 0).

Definition arcsIntersectWithException (latSourceA lonSourceA latDestA lonDestA latSourceB lonSourceB latDestB lonDestB : D) : res bool :=
  if fuzzyEquals lonSourceA lonDestB tolerance || fuzzyEquals lonDestA lonDestB tolerance then Err IllegalArgument
  else Ok (arcsIntersect latSourceA lonSourceA latDestA lonDestA latSourceB lonSourceB latDestB lonDestB).

(** ** Parallels *)

Definition degreeCoordinateToRadian (degreeCoord : D) : D := ddiv (dmul degreeCoord dPI) (dofZ 180).

Definition mod_ (y x : D) : D := dsub y (dmul x (dfloor (ddiv y x))).

Definition coordinateBetweenValues (coordinateToCheck minValue maxValue : D) : bool :=
  if fuzzyEquals coordinateToCheck minValue tolerance && fuzzyEquals minValue maxValue tolerance then true
  else if dlt (dofZ 175) maxValue && dlt minValue (dofZ (-175)) then
    (dlt coordinateToCheck (dofZ 180) && dlt maxValue coordinateToCheck)
    || (dlt (dofZ (-180)) coordinateToCheck && dlt coordinateToCheck minValue)
  else dlt coordinateToCheck maxValue && dlt minValue coordinateToCheck.

(** The two longitudes at which the great circle meets the parallel, or none. *)
Definition crossesLatitude (pointALat pointALon pointBLat pointBLon latToIntersect lonValStart lonValDest : D) : bool :=
  if fuzzyEquals pointALat latToIntersect tolerance || fuzzyEquals pointBLat latToIntersect tolerance then true
  else if dlt (dmax pointALat pointBLat) latToIntersect || dlt latToIntersect (dmin pointALat pointBLat) then false
  else
    let pointALat := degreeCoordinateToRadian pointALat in
    let pointBLat := degreeCoordinateToRadian pointBLat in
    let pointALon := degreeCoordinateToRadian pointALon in
    let pointBLon := degreeCoordinateToRadian pointBLon in
    let latToIntersect := degreeCoordinateToRadian latToIntersect in
    let lonValStart := degreeCoordinateToRadian lonValStart in
    let lonValDest := degreeCoordinateToRadian lonValDest in
    let latMax := dmax pointALat pointBLat in
    let latMin := dmin pointALat pointBLat in
    if negb (coordinateBetweenValues latToIntersect latMin latMax) then false
    else
      let lonDiff := dsub pointALon pointBLon in
      let A := dmul (dmul (dmul (dsin pointALat) (dcos pointBLat)) (dcos latToIntersect)) (dsin lonDiff) in
      let B := dsub (dmul (dmul (dmul (dsin pointALat) (dcos pointBLat)) (dcos latToIntersect)) (dcos lonDiff))
                    (dmul (dmul (dcos pointALat) (dsin pointBLat)) (dcos latToIntersect)) in
      let C := dmul (dmul (dmul (dcos pointALat) (dcos pointBLat)) (dsin latToIntersect)) (dsin lonDiff) in
      let lon := datan2 B A in
      let sumABsquared := dsqrt (dadd (dmul A A) (dmul B B)) in
      if dlt sumABsquared (dabs C) then false
      else
        let dlon := dacos (ddiv C sumABsquared) in
        let twoPI := dmul (dofZ 2) dPI in
        let crossLonA := dsub (mod_ (dadd (dadd (dadd pointALon dlon) lon) dPI) twoPI) dPI in
        let crossLonB := dsub (mod_ (dadd (dadd (dsub pointALon dlon) lon) dPI) twoPI) dPI in
        let maxLon := dmax pointALon pointBLon in
        let minLon := dmin pointALon pointBLon in
        let lonMax := dmax lonValStart lonValDest in
        let lonMin := dmin lonValStart lonValDest in
        let firstIntersectValid := coordinateBetweenValues crossLonA minLon maxLon && coordinateBetweenValues crossLonA lonMin lonMax in
        let secondIntersectValid := coordinateBetweenValues crossLonB minLon maxLon && coordinateBetweenValues crossLonB lonMin lonMax in
        firstIntersectValid || secondIntersectValid.

Definition crossesLatitudeWithException (pointALat pointALon pointBLat pointBLon latToIntersect lonValStart lonValDest : D) : res bool :=
  if fuzzyEquals pointALat latToIntersect tolerance || fuzzyEquals pointBLat latToIntersect tolerance then Err IllegalArgument
  else Ok (crossesLatitude pointALat pointALon pointBLat pointBLon latToIntersect lonValStart lonValDest).

(** ** The position test *)

(** A point lies in a cell, its borders included. *)
Definition inside (lat lon west east south north : D) : bool :=
  negb (dlt lon west) && negb (dlt east lon) && negb (dlt lat south) && negb (dlt north lat).

Lemma position_inside lat lon west east south north :
  (let '(w, e, n, s) := getPositionInfoOfPointRelativeToCell lat lon west east south north in negb (w || e || n || s))
  = inside lat lon west east south north.
Proof.
  unfold getPositionInfoOfPointRelativeToCell, inside.
  by destruct (dlt lon west), (dlt east lon), (dlt lat south), (dlt north lat).
Qed.
End geometry.
