(* ===== verification/PointInWater.v ===== *)
(** * coastlinegrid/GridCell.java, GridLeaf.java, GridParent.java and PointInWaterChecker.java

    The multi-level grid that says whether a point lies in water.  The map is divided in cells of
    ten degrees, a cell in three by three smaller ones as long as these hold too many coastline
    edges.  A leaf knows whether its center point lies in water, and a point of the leaf lies in
    water depending on how many edges are crossed on the way from there.  A set of edge ids is a
    [gset]; the order in which Java iterates over one is taken to be that of [elements]. *)

From S2P Require Import Prelude Files Text Doubles Geometry.
From S2P Require Coastline.

(** The indices of the arrays of lower level cells. *)
Inductive third := Low | Mid | High.

#[export] Instance third_eq_dec : EqDecision third.
Proof. solve_decision. Defined.

Definition thirds : list third := [Low; Mid; High].

Inductive ApproachDirection := FROM_HORIZONTAL | FROM_VERTICAL.

Section cells.
Context {D : Type} `{!JDouble D, !JMath D}.

Inductive GridCell :=
| GridLeaf (edgeIds : list Z) (centerPointInWater : bool) (latCenterPoint lonCenterPoint : D)
| GridParent (southernLatitude northernLatitude westernLongitude easternLongitude : D)
    (innerLatBorders innerLonBorders : D * D) (centerPointLat centerPointLon : D)
    (lowerLevelCells : third -> third -> GridCell).

Definition EDGE_THRESHOLD : Z := 1000.

(** The edges of the coastline, with their four coordinates. *)
Context (coast : Coastline.t D).

Definition coordinates (edgeId : Z) : res (D * D * D * D) :=
  startLat ← Coastline.getStartLatByEdgeIdx coast edgeId;
  startLon ← Coastline.getStartLonByEdgeIdx coast edgeId;
  destLat ← Coastline.getDestLatByEdgeIdx coast edgeId;
  destLon ← Coastline.getDestLonByEdgeIdx coast edgeId;
  Ok (startLat, startLon, destLat, destLon).

(** ** GridParent.java: the division *)

(** Whether an edge belongs to a cell: it starts or ends in it, or meets its border; the other
    class does the same test for the top level. *)
Definition belongs (south north west east : D) (edgeId : Z) : res bool :=
  '(startLat, startLon, destLat, destLon) ← coordinates edgeId;
  let '(sw, se, sn, ss) := getPositionInfoOfPointRelativeToCell startLat startLon west east south north in
  if negb (sw || se || sn || ss) then Ok true else
  let '(dw, de, dn, ds) := getPositionInfoOfPointRelativeToCell destLat destLon west east south north in
  if negb (dw || de || dn || ds) then Ok true else
  if (sw && dw) || (se && de) || (sn && dn) || (ss && ds) then Ok false else
  if arcsIntersect startLat startLon destLat destLon south west north west then Ok true
  else if arcsIntersect startLat startLon destLat destLon south east north east then Ok true
  else if crossesLatitude startLat startLon destLat destLon south west east then Ok true
  else Ok (crossesLatitude startLat startLon destLat destLon north west east).

Definition edgesInCell (edgeIDs : list Z) (south north west east : D) : res (gset Z) :=
  forEach edgeIDs (fun edgeId (cell : gset Z) =>
    b ← belongs south north west east edgeId;
    Ok (if (b : bool) then {[edgeId]} ∪ cell else cell)) ∅.

(** The borders of a third, out of the four of [lowerLevelLat] and [lowerLevelLon]. *)
Definition separation (x y : D) : D := ddiv (dabs (dsub x y)) (dofZ 3).
Definition innerBorders (lower sep : D) : D * D := (dadd lower sep, dadd lower (dmul (dofZ 2) sep)).
Definition lowerBorder (lower upper : D) (inner : D * D) (i : third) : D :=
  match i with Low => lower | Mid => inner.1 | High => inner.2 end.
Definition upperBorder (lower upper : D) (inner : D * D) (i : third) : D :=
  match i with Low => inner.1 | Mid => inner.2 | High => upper end.

(** The nine cells, in the order of the loops. *)
Definition nineCells (f : third -> third -> res GridCell) : res (third -> third -> GridCell) :=
  c00 ← f Low Low; c01 ← f Low Mid; c02 ← f Low High;
  c10 ← f Mid Low; c11 ← f Mid Mid; c12 ← f Mid High;
  c20 ← f High Low; c21 ← f High Mid; c22 ← f High High;
  Ok (fun latIdx lonIdx => match latIdx, lonIdx with
    | Low, Low => c00 | Low, Mid => c01 | Low, High => c02
    | Mid, Low => c10 | Mid, Mid => c11 | Mid, High => c12
    | High, Low => c20 | High, Mid => c21 | High, High => c22
    end).

(** The constructor; the fields of the center point are 0 until they are set. *)
Fixpoint newGridParent (fuel : nat) (edgeIDs : list Z) (south north west east : D) : res GridCell :=
  match fuel with
  | O => Err OutOfFuel
  | S fuel =>
      let latBorders := innerBorders south (separation north south) in
      let lonBorders := innerBorders west (separation west east) in
      cells ← nineCells (fun latIdx lonIdx =>
        let s := lowerBorder south north latBorders latIdx in
        let n := upperBorder south north latBorders latIdx in
        let w := lowerBorder west east lonBorders lonIdx in
        let e := upperBorder west east lonBorders lonIdx in
        cell ← edgesInCell edgeIDs s n w e;
        if EDGE_THRESHOLD <=? Z.of_nat (size cell) then newGridParent fuel (elements cell) s n w e
        else Ok (GridLeaf (elements cell) false (ddiv (dadd s n) (dofZ 2)) (ddiv (dadd w e) (dofZ 2))));
      Ok (GridParent south north west east latBorders lonBorders (dofZ 0) (dofZ 0) cells)
  end.

(** ** The cells *)

Fixpoint getAllContainedEdgeIDs (c : GridCell) : gset Z :=
  match c with
  | GridLeaf edgeIds _ _ _ => list_to_set edgeIds
  | GridParent _ _ _ _ _ _ _ _ cells =>
      ⋃ ((fun i => ⋃ ((fun j => getAllContainedEdgeIDs (cells i j)) <$> thirds)) <$> thirds)
  end.

Fixpoint getCtrLat (c : GridCell) : D :=
  match c with
  | GridLeaf _ _ latCenterPoint _ => latCenterPoint
  | GridParent _ _ _ _ _ _ _ _ cells => getCtrLat (cells Mid Mid)
  end.

Fixpoint getCtrLon (c : GridCell) : D :=
  match c with
  | GridLeaf _ _ _ lonCenterPoint => lonCenterPoint
  | GridParent _ _ _ _ _ _ _ _ cells => getCtrLon (cells Mid Mid)
  end.

Definition getCenterPoint (c : GridCell) : D * D :=
  match c with
  | GridLeaf _ _ lat lon => (lat, lon)
  | GridParent _ _ _ _ _ _ lat lon _ => (lat, lon)
  end.

Fixpoint collectAllCenterpoints (c : GridCell) (pointList : list (D * D)) : list (D * D) :=
  match c with
  | GridLeaf _ _ lat lon => pointList ++ [(lat, lon)]
  | GridParent _ _ _ _ _ _ _ _ cells =>
      foldl (fun acc i => foldl (fun acc j => collectAllCenterpoints (cells i j) acc) acc thirds) pointList thirds
  end.

(** The lower level cell that is asked. *)
Definition thirdOf (x : D) (inner : D * D) : third :=
  if dlt x inner.1 then Low else if dlt x inner.2 then Mid else High.

Fixpoint isPointInWater (c : GridCell) (lat lon : D) : res bool :=
  match c with
  | GridLeaf edgeIds centerPointInWater latCenterPoint lonCenterPoint =>
      forEach edgeIds (fun idx pointInWater =>
        '(startLat, startLon, destLat, destLon) ← coordinates idx;
        Ok (if arcsIntersect lat lon latCenterPoint lonCenterPoint startLat startLon destLat destLon
            then negb pointInWater else pointInWater)) centerPointInWater
  | GridParent _ _ _ _ latBorders lonBorders _ _ cells =>
      isPointInWater (cells (thirdOf lat latBorders) (thirdOf lon lonBorders)) lat lon
  end.

(** ** The center points *)

(** 0.000001 *)
Definition shift : D := ddiv (dofZ 1) (dofZ 1000000).

(** The do-while loop of a center point: count the crossed edges; when an edge ends on the line,
    shift the line and count anew.  Answers the place of the line and the status. *)
Fixpoint countCrossings (tries : nat) (crosses : D -> D * D * D * D -> res bool) (edgeIds : list Z) (origin : bool) (line : D)
    : res (D * bool) :=
  match tries with
  | O => Err OutOfFuel
  | S tries =>
      match forEach edgeIds (fun edgeId inWater =>
        e ← coordinates edgeId; b ← crosses line e; Ok (if (b : bool) then negb inWater else inWater)) origin with
      | Err IllegalArgument => countCrossings tries crosses edgeIds origin (dadd line shift)
      | Err e => Err e
      | Ok inWater => Ok (line, inWater)
      end
  end.

Context (tries : nat).

(** [initCenterPoint] also puts edges into the set it is given. *)
Definition initCenterPointWith (setCenterPoint : GridCell -> D -> D -> bool -> res GridCell)
    (c : GridCell) (originLat originLon : D) (originInWater : bool) (additionalEdges : gset Z) (dir : ApproachDirection)
    : res (GridCell * bool * gset Z) :=
  match c with
  | GridLeaf edgeIds _ latCenterPoint lonCenterPoint =>
      let allEdgeIds := additionalEdges ∪ list_to_set edgeIds in
      match dir with
      | FROM_HORIZONTAL =>
          '(latCenterPoint, inWater) ← countCrossings tries (fun lat '(sLat, sLon, dLat, dLon) =>
            crossesLatitudeWithException sLat sLon dLat dLon lat originLon lonCenterPoint) (elements allEdgeIds) originInWater latCenterPoint;
          Ok (GridLeaf edgeIds inWater latCenterPoint lonCenterPoint, inWater, allEdgeIds)
      | FROM_VERTICAL =>
          '(lonCenterPoint, inWater) ← countCrossings tries (fun lon '(sLat, sLon, dLat, dLon) =>
            arcsIntersectWithException sLat sLon dLat dLon originLat originLon latCenterPoint lon) (elements allEdgeIds) originInWater lonCenterPoint;
          Ok (GridLeaf edgeIds inWater latCenterPoint lonCenterPoint, inWater, allEdgeIds)
      end
  | GridParent south north west east _ _ _ _ cells =>
      let centerLat := ddiv (dadd south north) (dofZ 2) in
      let centerLon := ddiv (dadd west east) (dofZ 2) in
      match dir with
      | FROM_HORIZONTAL =>
          let allEdgeIds := additionalEdges ∪ ⋃ ((fun i => getAllContainedEdgeIDs (cells Mid i)) <$> thirds) in
          '(centerLat, inWater) ← countCrossings tries (fun lat '(sLat, sLon, dLat, dLon) =>
            crossesLatitudeWithException sLat sLon dLat dLon lat originLon centerLon) (elements allEdgeIds) originInWater centerLat;
          c ← setCenterPoint c centerLat centerLon inWater;
          Ok (c, inWater, allEdgeIds)
      | FROM_VERTICAL =>
          let allEdgeIds := additionalEdges ∪ ⋃ ((fun i => getAllContainedEdgeIDs (cells i Mid)) <$> thirds) in
          '(_, inWater) ← countCrossings tries (fun lon '(sLat, sLon, dLat, dLon) =>
            arcsIntersectWithException sLat sLon dLat dLon centerLat centerLon originLat lon) (elements allEdgeIds) originInWater originLon;
          c ← setCenterPoint c centerLat centerLon inWater;
          Ok (c, inWater, allEdgeIds)
      end
  end.

(** The middle cell takes the center point of its parent; from there the middle row is initialized
    horizontally, and from its cells the two others vertically. *)
Fixpoint setCenterPoint (c : GridCell) (lat lon : D) (isInWater : bool) {struct c} : res GridCell :=
  match c with
  | GridLeaf edgeIds _ _ _ => Ok (GridLeaf edgeIds isInWater lat lon)
  | GridParent south north west east latBorders lonBorders _ _ cells =>
      c11 ← setCenterPoint (cells Mid Mid) lat lon isInWater;
      let set0 := getAllContainedEdgeIDs (cells Mid Low) in
      let set1 := getAllContainedEdgeIDs c11 in
      let set2 := getAllContainedEdgeIDs (cells Mid High) in
      '(c10, w0, set1) ← initCenterPointWith setCenterPoint (cells Mid Low) lat lon isInWater set1 FROM_HORIZONTAL;
      '(c12, w2, set1) ← initCenterPointWith setCenterPoint (cells Mid High) lat lon isInWater set1 FROM_HORIZONTAL;
      let lat0 := getCtrLat c10 in let lon0 := getCtrLon c10 in
      '(c00, _, set0) ← initCenterPointWith setCenterPoint (cells Low Low) lat0 lon0 w0 set0 FROM_VERTICAL;
      '(c20, _, set0) ← initCenterPointWith setCenterPoint (cells High Low) lat0 lon0 w0 set0 FROM_VERTICAL;
      let lat1 := getCtrLat c11 in let lon1 := getCtrLon c11 in
      '(c01, _, set1) ← initCenterPointWith setCenterPoint (cells Low Mid) lat1 lon1 isInWater set1 FROM_VERTICAL;
      '(c21, _, set1) ← initCenterPointWith setCenterPoint (cells High Mid) lat1 lon1 isInWater set1 FROM_VERTICAL;
      let lat2 := getCtrLat c12 in let lon2 := getCtrLon c12 in
      '(c02, _, set2) ← initCenterPointWith setCenterPoint (cells Low High) lat2 lon2 w2 set2 FROM_VERTICAL;
      '(c22, _, set2) ← initCenterPointWith setCenterPoint (cells High High) lat2 lon2 w2 set2 FROM_VERTICAL;
      Ok (GridParent south north west east latBorders lonBorders lat lon (fun latIdx lonIdx =>
        match latIdx, lonIdx with
        | Low, Low => c00 | Low, Mid => c01 | Low, High => c02
        | Mid, Low => c10 | Mid, Mid => c11 | Mid, High => c12
        | High, Low => c20 | High, Mid => c21 | High, High => c22
        end))
  end.

Definition initCenterPoint := initCenterPointWith setCenterPoint.

(** ** PointInWaterChecker.java *)

Definition INITIAL_POINT_LAT : D := dofZ (-83).
Definition INITIAL_POINT_LON : D := dofZ (-170).
Definition INITIAL_POINT_IN_WATER : bool := false.

(** The cells of ten degrees, south to north and west to east. *)
Definition lowerLatBound (latIdx : Z) : D := dmul (dofZ 10) (dofZ (latIdx - 9)).
Definition leftLonBound (lonIdx : Z) : D := dmul (dofZ 10) (dofZ (lonIdx - 18)).
Definition nextBound (bound : D) : D := dadd bound (dofZ 10).

Definition topLevelCell (fuel : nat) (latIdx lonIdx : Z) : res GridCell :=
  let s := lowerLatBound latIdx in let n := nextBound s in
  let w := leftLonBound lonIdx in let e := nextBound w in
  cell ← edgesInCell (seqZ 0 (Coastline.numberOfEdges coast)) s n w e;
  newGridParent fuel (elements cell) s n w e.

Definition topLevelGrid (fuel : nat) : res (list (list GridCell)) :=
  forRange 0 18 (fun latIdx grid =>
    row ← forRange 0 36 (fun lonIdx row => c ← topLevelCell fuel latIdx lonIdx; Ok (row ++ [c])) [];
    Ok (grid ++ [row])) [].

(** The coordinates of the center points: from [first] on, ten degrees apart. *)
Definition centerPoints (first n : Z) : res (list D) :=
  '(l, _) ← forRange 0 n (fun _ '(l, x) => Ok (l ++ [x], dadd x (dofZ 10))) ([], dofZ first);
  Ok l.

Definition gridGet (grid : list (list GridCell)) (latIdx lonIdx : Z) : res GridCell :=
  row ← aget grid latIdx; aget row lonIdx.

Definition gridSet (grid : list (list GridCell)) (latIdx lonIdx : Z) (c : GridCell) : res (list (list GridCell)) :=
  row ← aget grid latIdx; row ← aset row lonIdx c; aset grid latIdx row.

(** Whether the first center point lies in water. *)
Definition firstPoint (lat lon : D) : res bool :=
  forRange 0 (Coastline.numberOfEdges coast) (fun edgeId firstPointInWater =>
    '(sLat, sLon, dLat, dLon) ← coordinates edgeId;
    Ok (if arcsIntersect sLat sLon dLat dLon INITIAL_POINT_LAT INITIAL_POINT_LON lat lon
        then negb firstPointInWater else firstPointInWater)) INITIAL_POINT_IN_WATER.

(** The bottom row, from west to east; then every column, from south to north. *)
Definition bottomCell (centerPointLat centerPointLon : list D) (lonIdx : Z)
    (st : list (list GridCell) * list bool * list (gset Z)) : res (list (list GridCell) * list bool * list (gset Z)) :=
  let '(grid, inWater, additionalEdges) := st in
  c ← gridGet grid 0 lonIdx;
  firstRowLat ← aget centerPointLat 0;
  lon ← aget centerPointLon (lonIdx - 1);
  w ← aget inWater (lonIdx - 1);
  edges ← aget additionalEdges (lonIdx - 1);
  '(c, w, edges) ← initCenterPoint c firstRowLat lon w edges FROM_HORIZONTAL;
  grid ← gridSet grid 0 lonIdx c;
  inWater ← aset inWater lonIdx w;
  additionalEdges ← aset additionalEdges (lonIdx - 1) edges;
  additionalEdges ← aset additionalEdges lonIdx (getAllContainedEdgeIDs c);
  Ok (grid, inWater, additionalEdges).

Definition columnCell (centerPointLat centerPointLon : list D) (lonIdx latIdx : Z)
    (st : list (list GridCell) * bool * gset Z) : res (list (list GridCell) * bool * gset Z) :=
  let '(grid, previousPointInWater, previousEdges) := st in
  c ← gridGet grid latIdx lonIdx;
  lat ← aget centerPointLat (latIdx - 1);
  lon ← aget centerPointLon lonIdx;
  '(c, w, _) ← initCenterPoint c lat lon previousPointInWater previousEdges FROM_VERTICAL;
  grid ← gridSet grid latIdx lonIdx c;
  Ok (grid, w, getAllContainedEdgeIDs c).

Definition newPointInWaterChecker (fuel : nat) : res (list (list GridCell)) :=
  grid ← topLevelGrid fuel;
  centerPointLat ← centerPoints (-85) 18;
  centerPointLon ← centerPoints (-175) 36;
  lat0 ← aget centerPointLat 0;
  lon0 ← aget centerPointLon 0;
  firstPointInWater ← firstPoint lat0 lon0;
  c ← gridGet grid 0 0;
  c ← setCenterPoint c lat0 lon0 firstPointInWater;
  grid ← gridSet grid 0 0 c;
  firstCenterPointInWater ← aset (replicate 36 false) 0 firstPointInWater;
  firstAdditionalEdges ← aset (replicate 36 ∅) 0 (getAllContainedEdgeIDs c);
  '(grid, firstCenterPointInWater, firstAdditionalEdges) ←
    forRange 1 36 (bottomCell centerPointLat centerPointLon) (grid, firstCenterPointInWater, firstAdditionalEdges);
  forRange 0 36 (fun lonIdx grid =>
    previousPointInWater ← aget firstCenterPointInWater lonIdx;
    previousEdges ← aget firstAdditionalEdges lonIdx;
    '(grid, _, _) ← forRange 1 18 (columnCell centerPointLat centerPointLon lonIdx) (grid, previousPointInWater, previousEdges);
    Ok grid) grid.

Definition deq (x y : D) : bool := dle x y && dle y x.

(** Which tenth of the map a coordinate lies in: [top] is its last index, [half] that of the first
    one above 0. *)
Definition tenth (maximum top half : Z) (x : D) : Z :=
  if deq x (dofZ maximum) then top
  else if deq x (dofZ (- maximum)) then 0
  else if dlt (dofZ 0) x then dtoInt (ddiv (dsub x (drem x (dofZ 10))) (dofZ 10)) + half
  else
    let tmp := dmul x (dofZ (-1)) in
    dtoInt (dsub (dofZ (half - 1)) (ddiv (dsub tmp (drem tmp (dofZ 10))) (dofZ 10))).

Definition pointInWater (grid : list (list GridCell)) (lat lon : D) : res bool :=
  let latIdx := tenth 90 17 9 lat in
  let lonIdx := tenth 180 35 18 lon in
  c ← gridGet grid latIdx lonIdx;
  isPointInWater c lat lon.
End cells.
Arguments GridCell : clear implicits.

(** The singleton and its file. *)
Definition POINT_IN_WATER_CHECKER_SERIALIZATION_FILE_NAME : string := "coastlineChecker.ser".

Definition initPointInWaterChecker {D B} `{!JDouble D, !JMath D, !Serial (list (list (GridCell D))) B}
    (coast : Coastline.t D) (tries fuel : nat) (cut : option nat) (files : disk B) : res (list (list (GridCell D)) * disk B) :=
  match files !! POINT_IN_WATER_CHECKER_SERIALIZATION_FILE_NAME with
  | None =>
      grid ← newPointInWaterChecker coast tries fuel;
      Ok (grid, writeFile cut POINT_IN_WATER_CHECKER_SERIALIZATION_FILE_NAME (serialize grid) files)
  | Some b => match deserialize b with Ok grid => Ok (grid, files) | Err _ => Err SystemExit end
  end.

(** [INSTANCE], null until [initCalled]. *)
Definition getInstance {D B} `{!JDouble D, !JMath D, !Serial (list (list (GridCell D))) B}
    (coast : Coastline.t D) (tries fuel : nat) (instance : option (list (list (GridCell D)))) (cut : option nat) (files : disk B)
    : res (list (list (GridCell D)) * disk B) :=
  match instance with Some grid => Ok (grid, files) | None => initPointInWaterChecker coast tries fuel cut files end.
