(* ===== verification/WaterCells.v ===== *)
(** * The multi-level grid finds the right leaf

    About [PointInWater]: the division of the map keeps every coastline edge where it ends, a leaf
    has fewer edges than the threshold, and the lookup of a point ends in a leaf whose area the
    point lies in. *)

From S2P Require Import Prelude Files Text Doubles Geometry PointInWater.
From S2P Require Coastline.

(** Coordinates as integer numbers of a smallest unit: the laws of floating-point arithmetic that the
    grid relies on.  [numeric] are the numbers that are neither NaN nor infinite; every one of them
    is a multiple of the smallest float.  The laws are about these only, mostly within a thousand
    degrees: rounding is monotone, and exact on whole degrees. *)
Class Coordinates (D : Type) `{!JDouble D, !JMath D} := {
  units : Z;
  value : D -> Z;
  numeric : D -> Prop;
  units_pos : 0 < units;
  dlt_value x y : numeric x -> numeric y -> dlt x y = (value x <? value y);
  dle_value x y : numeric x -> numeric y -> dle x y = (value x <=? value y);
  value_ofZ z : -1000 <= z <= 1000 -> numeric (dofZ z) /\ value (dofZ z) = z * units;
  value_tens k : -1000 <= 10 * k <= 1000 -> numeric (dmul (dofZ 10) (dofZ k)) /\ value (dmul (dofZ 10) (dofZ k)) = 10 * k * units;
  value_next x k : numeric x -> -1000 <= k <= 1000 -> value x = k * units ->
    numeric (dadd x (dofZ 10)) /\ value (dadd x (dofZ 10)) = (k + 10) * units;
  value_neg x : numeric x -> numeric (dmul x (dofZ (-1))) /\ value (dmul x (dofZ (-1))) = - value x;
  value_rem x : numeric x -> numeric (drem x (dofZ 10)) /\ value (drem x (dofZ 10)) = Z.rem (value x) (10 * units);
  value_sub x y k : numeric x -> numeric y -> -1000 <= k <= 1000 -> value x - value y = k * units ->
    numeric (dsub x y) /\ value (dsub x y) = k * units;
  value_div x k : numeric x -> -1000 <= k <= 1000 -> value x = 10 * k * units ->
    numeric (ddiv x (dofZ 10)) /\ value (ddiv x (dofZ 10)) = k * units;
  value_int x k : numeric x -> -1000 <= k <= 1000 -> value x = k * units -> dtoInt x = k;
  (** The middle of a cell and its inner borders lie in it, in order. *)
  value_middle x y : numeric x -> numeric y -> - 1000 * units <= value x -> value x <= value y -> value y <= 1000 * units ->
    numeric (ddiv (dadd x y) (dofZ 2)) /\ value x <= value (ddiv (dadd x y) (dofZ 2)) <= value y;
  thirds_ordered x y : numeric x -> numeric y -> - 1000 * units <= value x -> value x <= value y -> value y <= 1000 * units ->
    let inner := innerBorders x (separation y x) in
    numeric inner.1 /\ numeric inner.2 /\ value x <= value inner.1 /\ value inner.1 <= value inner.2 /\ value inner.2 <= value y;
  separation_sym x y : separation x y = separation y x;
}.

(** A coordinate that is not far from the map. *)
Definition plain {D} `{!JDouble D, !JMath D, !Coordinates D} (x : D) : Prop := numeric x /\ -1000 * units <= value x <= 1000 * units.

(** The line of a center point moved [k] times. *)
Fixpoint shifted {D} `{!JDouble D} (k : nat) (x : D) : D := match k with O => x | S k => shifted k (dadd x shift) end.

(** A shift is larger than the tolerance of [fuzzyEquals]: as long as the line is near the map, it meets
    a coordinate at most once. *)
Class ShiftLaws (D : Type) `{!JDouble D, !JMath D, !Coordinates D} : Prop := {
  met_once (a x : D) k k' : numeric a -> plain x -> Z.of_nat k <= 2 * MAX_VALUE -> Z.of_nat k' <= 2 * MAX_VALUE ->
    fuzzyEquals a (shifted k x) tolerance = true -> fuzzyEquals a (shifted k' x) tolerance = true -> k = k';
}.

Section cells.
Context {D : Type} `{!JDouble D, !JMath D, !Coordinates D} (coast : Coastline.t D).

Lemma inside_value lat lon w e s n : numeric lat -> numeric lon -> numeric w -> numeric e -> numeric s -> numeric n ->
  inside lat lon w e s n = true <-> value w <= value lon <= value e /\ value s <= value lat <= value n.
Proof.
  intros. unfold inside. rewrite !dlt_value, !andb_true_iff, !negb_true_iff, !Z.ltb_ge by done. lia.
Qed.

(** ** Thirds *)

(** The borders of a cell. *)
Definition interval (x y : D) : Prop := plain x /\ plain y /\ value x <= value y.

Lemma inside_interval lat lon w e s n : numeric lat -> numeric lon -> interval w e -> interval s n ->
  inside lat lon w e s n = true <-> value w <= value lon <= value e /\ value s <= value lat <= value n.
Proof. intros ? ? ([] & [] & _) ([] & [] & _). by apply inside_value. Qed.

Lemma interval_thirds x y : interval x y -> let inner := innerBorders x (separation y x) in
  numeric inner.1 /\ numeric inner.2 /\ value x <= value inner.1 /\ value inner.1 <= value inner.2 /\ value inner.2 <= value y.
Proof. intros ([Hx Hbx] & [Hy Hby] & Hxy). apply thirds_ordered; done || lia. Qed.

Lemma interval_middle x y : interval x y -> plain (ddiv (dadd x y) (dofZ 2)).
Proof. intros ([Hx Hbx] & [Hy Hby] & Hxy). destruct (value_middle x y) as [? ?]; [done | done | lia | lia | lia |]. split; [done | lia]. Qed.

(** The borders of a third. *)
Notation low x y i := (lowerBorder x y (innerBorders x (separation y x)) i).
Notation up x y i := (upperBorder x y (innerBorders x (separation y x)) i).

Lemma third_inside x y i : interval x y ->
  interval (low x y i) (up x y i) /\ value x <= value (low x y i) /\ value (up x y i) <= value y.
Proof.
  intros Hxy. destruct (interval_thirds x y Hxy) as (? & ? & ? & ? & ?). destruct Hxy as ([Hx Hbx] & [Hy Hby] & Hxy).
  unfold interval, plain. destruct i; cbn [lowerBorder upperBorder]; (split_and!; try done); lia.
Qed.

Lemma thirdOf_inside x y z : interval x y -> numeric z -> value x <= value z <= value y ->
  value (low x y (thirdOf z (innerBorders x (separation y x)))) <= value z <= value (up x y (thirdOf z (innerBorders x (separation y x)))).
Proof.
  intros Hxy Hz Hb. set (inner := innerBorders x (separation y x)). destruct (interval_thirds x y Hxy) as (? & ? & ? & ? & ?). unfold thirdOf. rewrite !dlt_value by done.
  destruct (Z.ltb_spec (value z) (value inner.1)); [cbn [lowerBorder upperBorder]; lia |].
  destruct (Z.ltb_spec (value z) (value inner.2)); cbn [lowerBorder upperBorder]; lia.
Qed.

(** ** The edges of a cell *)

(** There are not more edges than an array has places, and their coordinates are numbers. *)
Definition numbers (c : D * D * D * D) : Prop := let '(sLat, sLon, dLat, dLon) := c in
  numeric sLat /\ numeric sLon /\ numeric dLat /\ numeric dLon.
Definition edges_ok : Prop := Coastline.numberOfEdges coast <= MAX_VALUE /\
  forall e, 0 <= e < Coastline.numberOfEdges coast -> exists c, coordinates coast e = Ok c /\ numbers c.

(** Edge [e] starts or ends in the area. *)
Definition ends_in (e : Z) (s n w east : D) : Prop := exists sLat sLon dLat dLon,
  coordinates coast e = Ok (sLat, sLon, dLat, dLon) /\ (inside sLat sLon w east s n = true \/ inside dLat dLon w east s n = true).

Lemma belongs_ok e s n w east : (exists c, coordinates coast e = Ok c /\ numbers c) ->
  exists b, belongs coast s n w east e = Ok b /\ (ends_in e s n w east -> b = true).
Proof.
  intros ([[[sLat sLon] dLat] dLon] & E & _). unfold belongs. rewrite E, bind_ok.
  pose proof (position_inside sLat sLon w east s n) as Hs. pose proof (position_inside dLat dLon w east s n) as Hd.
  destruct (getPositionInfoOfPointRelativeToCell sLat sLon w east s n) as [[[sw se] sn] ss].
  destruct (getPositionInfoOfPointRelativeToCell dLat dLon w east s n) as [[[dw de] dn] ds]. cbv beta iota zeta in Hs, Hd.
  assert (ends_in e s n w east -> inside sLat sLon w east s n = true \/ inside dLat dLon w east s n = true) as Hends.
  { intros (? & ? & ? & ? & E' & H). rewrite E in E'. by simplify_eq. }
  rewrite Hs, Hd. destruct (inside sLat sLon w east s n); [by exists true |].
  destruct (inside dLat dLon w east s n); [by exists true |].
  assert (forall b, ends_in e s n w east -> b = true) as Hno by (intros b [|]%Hends; done).
  repeat case_match; eexists; (split; [done |]); auto.
Qed.

Lemma edgesInCell_ok ids s n w east : edges_ok -> (forall e, e ∈ ids -> 0 <= e < Coastline.numberOfEdges coast) ->
  exists cell, edgesInCell coast ids s n w east = Ok cell /\ (forall e, e ∈ cell -> e ∈ ids) /\
    forall e, e ∈ ids -> ends_in e s n w east -> e ∈ cell.
Proof.
  intros Hok Hids. unfold edgesInCell.
  enough (returns (forEach ids (fun edgeId (cell : gset Z) => b ← belongs coast s n w east edgeId; Ok (if (b : bool) then {[edgeId]} ∪ cell else cell)) ∅)
    (fun cell => (forall e, e ∈ cell -> e ∈ ids) /\ forall e, e ∈ ids -> ends_in e s n w east -> e ∈ cell)) as (cell & -> & H)%returns_elim by by exists cell.
  apply (forEach_inv (fun pre cell => (forall e, e ∈ cell -> e ∈ pre) /\ forall e, e ∈ pre -> ends_in e s n w east -> e ∈ cell)).
  - split; intros e He; [set_solver | by apply elem_of_nil in He].
  - intros pre e todo cell E [Hsub Hends]. destruct (belongs_ok e s n w east) as (b & -> & Hb).
    { apply Hok, Hids. rewrite E. set_solver. }
    rewrite bind_ok. ret. split; intros e' He'.
    + destruct b; set_solver.
    + intros Hin. apply elem_of_app in He' as [He' | ->%list_elem_of_singleton]; [destruct b; set_solver | rewrite Hb by done; set_solver].
Qed.

(** ** The invariant of a cell *)

(** A leaf has few edges, and all that end in its area; a parent is divided in thirds. *)
Fixpoint covers (c : GridCell D) (s n w e : D) : Prop :=
  interval s n /\ interval w e /\
  match c with
  | GridLeaf ids _ _ _ => alen ids < EDGE_THRESHOLD /\ (forall i, i ∈ ids -> 0 <= i < Coastline.numberOfEdges coast) /\
      forall i, 0 <= i < Coastline.numberOfEdges coast -> ends_in i s n w e -> i ∈ ids
  | GridParent s' n' w' e' latBorders lonBorders _ _ cells =>
      (s', n', w', e') = (s, n, w, e) /\ latBorders = innerBorders s (separation n s) /\ lonBorders = innerBorders w (separation e w) /\
      forall i j, covers (cells i j) (lowerBorder s n latBorders i) (upperBorder s n latBorders i)
                         (lowerBorder w e lonBorders j) (upperBorder w e lonBorders j)
  end.

Lemma nineCells_ok f (cells : third -> third -> GridCell D) : nineCells f = Ok cells -> forall i j, f i j = Ok (cells i j).
Proof.
  unfold nineCells. intros H i j.
  repeat (apply bind_inv in H as (? & ? & H)). injection H as <-. by destruct i, j.
Qed.

Lemma covers_area c s n w e : covers c s n w e -> interval s n /\ interval w e.
Proof. by destruct c; intros (? & ? & _). Qed.

(** The center points of a cell that was only divided. *)
Fixpoint fresh (c : GridCell D) : Prop :=
  match c with
  | GridLeaf _ _ lat lon => plain lat /\ plain lon
  | GridParent _ _ _ _ _ _ _ _ cells => forall i j, fresh (cells i j)
  end.

(** The division establishes both. *)
Lemma newGridParent_covers fuel : edges_ok -> forall ids s n w e c, newGridParent coast fuel ids s n w e = Ok c ->
  interval s n -> interval w e -> (forall i, i ∈ ids -> 0 <= i < Coastline.numberOfEdges coast) ->
  (forall i, 0 <= i < Coastline.numberOfEdges coast -> ends_in i s n w e -> i ∈ ids) -> covers c s n w e /\ fresh c.
Proof.
  intros Hok. induction fuel as [| fuel IH]; intros ids s n w e c H Hsn Hwe Hids Hends; [done |]. cbn [newGridParent] in H.
  apply bind_inv in H as (cells & Hcells & H). injection H as <-. cbn [covers fresh].
  set (lb := innerBorders s (separation n s)) in *. set (lob := innerBorders w (separation w e)) in *.
  enough (forall i j, covers (cells i j) (lowerBorder s n lb i) (upperBorder s n lb i) (lowerBorder w e lob j) (upperBorder w e lob j) /\ fresh (cells i j)) as Hall.
  { split; [| apply Hall]. split; [done |]. split; [done |]. split; [done |]. split; [done |]. split; [by unfold lob; rewrite separation_sym |]. apply Hall. }
  intros i j. pose proof (nineCells_ok _ _ Hcells i j) as Hc. cbv beta zeta in Hc. unfold lob in Hc |- *. rewrite (separation_sym w e) in Hc |- *.
  destruct (third_inside s n i Hsn) as (Hs' & ? & ?), (third_inside w e j Hwe) as (Hw' & ? & ?). fold lb in Hs', H, H0.
  set (s' := lowerBorder s n _ i) in *. set (n' := upperBorder s n _ i) in *.
  set (w' := lowerBorder w e _ j) in *. set (e' := upperBorder w e _ j) in *.
  destruct (edgesInCell_ok ids s' n' w' e' Hok Hids) as (cell & Ecell & Hsub & Hin). rewrite Ecell, bind_ok in Hc.
  assert (forall k, k ∈ elements cell -> 0 <= k < Coastline.numberOfEdges coast) as Hrange by (intros k Hk%elem_of_elements%Hsub; by apply Hids).
  assert (forall k, 0 <= k < Coastline.numberOfEdges coast -> ends_in k s' n' w' e' -> k ∈ elements cell) as Hall.
  { intros k Hk He. apply elem_of_elements, Hin; [| done]. apply Hends; [done |]. destruct Hok as [_ Hnum].
    destruct (Hnum k Hk) as ([[[a1 a2] a3] a4] & Ek & Ha1 & Ha2 & Ha3 & Ha4).
    destruct He as (sLat & sLon & dLat & dLon & E & He). rewrite Ek in E. injection E as <- <- <- <-.
    exists a1, a2, a3, a4. split; [done |]. rewrite !inside_interval in * by done. lia. }
  destruct (Z.leb_spec EDGE_THRESHOLD (Z.of_nat (size cell))) as [Hbig | Hsmall].
  - by apply (IH _ _ _ _ _ _ Hc).
  - injection Hc as <-. cbn. split; [| by split; apply interval_middle]. split; [done |]. split; [done |]. split; [| done].
    unfold size, set_size in Hsmall. unfold alen. cbn in Hsmall. lia.
Qed.

Notation in_range edges := (forall i, i ∈ edges -> 0 <= i < Coastline.numberOfEdges coast) (only parsing).

(** ** Where the division ends, and where not *)

Lemma nineCells_returns (f : third -> third -> res (GridCell D)) : (forall i j, exists c, f i j = Ok c) -> exists cells, nineCells f = Ok cells.
Proof.
  intros Hf. unfold nineCells. repeat (match goal with |- context [f ?i ?j ≫= _] => destruct (Hf i j) as [? ->]; rewrite bind_ok end).
  by eexists.
Qed.

(** Fewer edges than the threshold touch the area. *)
Definition touches (s n w e : D) (i : Z) : bool := match belongs coast s n w e i with Ok b => b | Err _ => false end.
Definition few (s n w e : D) : bool := alen (List.filter (touches s n w e) (seqZ 0 (Coastline.numberOfEdges coast))) <? EDGE_THRESHOLD.

(** Every area that is left after [depth] divisions in thirds is touched by few edges. *)
Fixpoint sparse (depth : nat) (s n w e : D) : Prop :=
  few s n w e = true \/
  match depth with
  | O => False
  | S depth => forall i j, sparse depth (low s n i) (up s n i) (low w e j) (up w e j)
  end.

Lemma edgesInCell_few ids s n w e cell : in_range ids -> few s n w e = true ->
  edgesInCell coast ids s n w e = Ok cell -> Z.of_nat (size cell) < EDGE_THRESHOLD.
Proof.
  intros Hids Hfew%Z.ltb_lt E. enough (forall i, i ∈ cell -> i ∈ ids /\ touches s n w e i = true) as Hcell.
  { eapply Z.le_lt_trans; [| exact Hfew]. unfold alen. apply Nat2Z.inj_le.
    rewrite <-(size_list_to_set (C := gset Z) (List.filter _ _)); [| apply NoDup_ListNoDup, List.NoDup_filter, NoDup_ListNoDup, NoDup_seqZ].
    apply subseteq_size. intros i [Hi Ht]%Hcell. apply elem_of_list_to_set, list_elem_of_In, filter_In. split; [| done].
    apply list_elem_of_In, elem_of_seqZ. specialize (Hids i Hi). lia. }
  revert E. unfold edgesInCell.
  enough (forall todo (acc : gset Z), (forall i, i ∈ todo -> i ∈ ids) -> (forall i, i ∈ acc -> i ∈ ids /\ touches s n w e i = true) ->
    forEach todo (fun edgeId (cell : gset Z) => b ← belongs coast s n w e edgeId; Ok (if (b : bool) then {[edgeId]} ∪ cell else cell)) acc = Ok cell ->
    forall i, i ∈ cell -> i ∈ ids /\ touches s n w e i = true) as H by (intros E; apply (H ids ∅); [done | set_solver | done]).
  induction todo as [| k todo IH]; intros acc Htodo Hacc E; [by injection E as <- |]. cbn [forEach] in E.
  apply bind_inv in E as (acc' & E' & E). apply bind_inv in E' as (b & Eb & [= <-]).
  refine (IH _ (fun i Hi => Htodo i (list_elem_of_further _ _ _ Hi)) _ E). intros i Hi.
  destruct b; [| by apply Hacc]. apply elem_of_union in Hi as [->%elem_of_singleton | Hi]; [| by apply Hacc].
  split; [apply Htodo; by left |]. unfold touches. by rewrite Eb.
Qed.

(** The division of a sparse area ends. *)
Lemma division_ends depth : edges_ok -> forall ids s n w e, in_range ids ->
  (forall i j, sparse depth (low s n i) (up s n i) (low w e j) (up w e j)) ->
  exists c, newGridParent coast (S depth) ids s n w e = Ok c.
Proof.
  intros Hok. induction depth as [| depth IH]; intros ids s n w e Hids Hsparse;
    (cbn [newGridParent]; match goal with |- exists c, (nineCells ?f ≫= _) = _ => destruct (nineCells_returns f) as [cells ->]; [| by eexists] end;
    intros i j; cbv zeta; rewrite (separation_sym w e);
    destruct (edgesInCell_ok ids (low s n i) (up s n i) (low w e j) (up w e j) Hok Hids) as (sub & E & Hsub & _); rewrite E, bind_ok;
    case_match eqn:Hbig; [| by eexists]; apply Z.leb_le in Hbig; destruct (Hsparse i j) as [Hfew | Hdeep];
    [pose proof (edgesInCell_few _ _ _ _ _ _ Hids Hfew E); lia |]).
  - done.
  - apply IH; [| done]. intros k Hk%elem_of_elements%Hsub. by apply Hids.
Qed.

Lemma few_edges s n w e : Coastline.numberOfEdges coast < EDGE_THRESHOLD -> few s n w e = true.
Proof.
  intros H. apply Z.ltb_lt. eapply Z.le_lt_trans; [| exact H]. unfold alen.
  pose proof (List.filter_length_le (touches s n w e) (seqZ 0 (Coastline.numberOfEdges coast))) as Hl. rewrite length_seqZ in Hl.
  assert (0 <= Coastline.numberOfEdges coast) by apply alen_nonneg. lia.
Qed.

Lemma sparse_few depth s n w e : few s n w e = true -> sparse depth s n w e.
Proof. destruct depth; by left. Qed.

(** C34: The division never ends in a place where as many edges as the threshold start or end in one
    point: whatever the depth, the cell around the point is divided again. *)
Theorem division_endless ids s n w e lat lon : edges_ok -> in_range ids -> NoDup ids -> EDGE_THRESHOLD <= alen ids ->
  interval s n -> interval w e -> numeric lat -> numeric lon -> inside lat lon w e s n = true ->
  (forall i, i ∈ ids -> exists sLat sLon dLat dLon, coordinates coast i = Ok (sLat, sLon, dLat, dLon) /\
    ((sLat, sLon) = (lat, lon) \/ (dLat, dLon) = (lat, lon))) ->
  forall fuel c, newGridParent coast fuel ids s n w e <> Ok c.
Proof.
  intros Hok Hids Hnd Hmany Hsn Hwe Hlat Hlon Hin Hpoint fuel. revert ids s n w e Hids Hnd Hmany Hsn Hwe Hin Hpoint.
  induction fuel as [| fuel IH]; intros ids s n w e Hids Hnd Hmany Hsn Hwe Hin Hpoint c H; [done |]. cbn [newGridParent] in H.
  apply bind_inv in H as (cells & Hcells & _). rewrite (separation_sym w e) in Hcells.
  set (i := thirdOf lat (innerBorders s (separation n s))). set (j := thirdOf lon (innerBorders w (separation e w))).
  pose proof (nineCells_ok _ _ Hcells i j) as Hc. cbv beta zeta in Hc.
  destruct (third_inside s n i Hsn) as [Hs' _], (third_inside w e j Hwe) as [Hw' _].
  assert (inside lat lon (low w e j) (up w e j) (low s n i) (up s n i) = true) as Hin'.
  { rewrite inside_interval in Hin |- * by done. destruct Hin. split; by apply thirdOf_inside. }
  destruct (edgesInCell_ok ids (low s n i) (up s n i) (low w e j) (up w e j) Hok Hids) as (cell & E & Hsub & Hall). rewrite E, bind_ok in Hc.
  assert (list_to_set ids ⊆ cell) as Hsup.
  { intros k Hk%elem_of_list_to_set. apply Hall; [done |]. destruct (Hpoint k Hk) as (sLat & sLon & dLat & dLon & Ec & Hp).
    exists sLat, sLon, dLat, dLon. split; [done |]. destruct Hp as [[= -> ->] | [= -> ->]]; [by left | by right]. }
  assert (EDGE_THRESHOLD <= Z.of_nat (size cell)) as Hbig.
  { apply subseteq_size in Hsup. rewrite size_list_to_set in Hsup by done. unfold alen in Hmany. lia. }
  rewrite (proj2 (Z.leb_le _ _) Hbig) in Hc. apply IH in Hc; [done | | apply NoDup_elements | done | done | done | done |].
  - intros k Hk%elem_of_elements%Hsub. by apply Hids.
  - intros k Hk%elem_of_elements%Hsub. by apply Hpoint.
Qed.

(** ** The center points *)

Lemma contained_range c : forall s n w e, covers c s n w e -> in_range (getAllContainedEdgeIDs c).
Proof.
  induction c as [ids flag clat clon | s' n' w' e' lb lob clat clon cells IH]; intros s n w e Hc i; cbn [getAllContainedEdgeIDs].
  - rewrite elem_of_list_to_set. apply Hc.
  - destruct Hc as (_ & _ & _ & _ & _ & Hcells).
    intros (? & (a & -> & _)%list_elem_of_fmap & (? & (b & -> & _)%list_elem_of_fmap & Hi)%elem_of_union_list)%elem_of_union_list.
    by apply (IH _ _ _ _ _ _ (Hcells a b)).
Qed.

Context `{!ShiftLaws D}.

(** A count of crossings fails only on an edge with an end on the line: [ends] of the edge. *)
Definition countable_by (crosses : D -> D * D * D * D -> res bool) (ends : D * D * D * D -> list D) : Prop :=
  forall line c, (exists b, crosses line c = Ok b) \/
    (crosses line c = Err IllegalArgument /\ exists a, a ∈ ends c /\ fuzzyEquals a line tolerance = true).

(** The coordinates that the line may meet, two for every edge. *)
Definition endsOf (ends : D * D * D * D -> list D) (i : Z) : list D :=
  match coordinates coast i with Ok c => ends c | Err _ => [] end.

Lemma count_once crosses ends ids origin line : edges_ok -> in_range ids -> countable_by crosses ends ->
  let count := forEach ids (fun edgeId inWater =>
    e ← coordinates coast edgeId; b ← crosses line e; Ok (if (b : bool) then negb inWater else inWater)) origin in
  (exists w, count = Ok w) \/
  (count = Err IllegalArgument /\ exists i a, i ∈ ids /\ a ∈ endsOf ends i /\ fuzzyEquals a line tolerance = true).
Proof.
  intros Hok Hids Hcr. cbv zeta. revert origin. induction ids as [| i ids IH]; intros origin; [by left; exists origin |].
  cbn [forEach]. destruct Hok as [Hmax Hok]. destruct (Hok i) as (c & E & _); [apply Hids; set_solver |]. rewrite E, bind_ok.
  destruct (Hcr line c) as [[b ->] | (-> & a & Ha & Hf)].
  - rewrite !bind_ok. destruct (IH ltac:(intros; apply Hids; set_solver) (if b then negb origin else origin)) as [[w Ew] | (Ew & j & a & Hj & Ha & Hf)];
      rewrite Ew; [left; by exists w | right]. split; [done |]. exists j, a. split; [by right | done].
  - right. split; [done |]. exists i, a. split; [by left |]. unfold endsOf. by rewrite E.
Qed.

(** The line that was moved [m] times from [x] on. *)
Lemma shifted_next m (x : D) : shifted (S m) x = dadd (shifted m x) shift.
Proof. revert x. induction m as [| m IH]; intros x; [done |]. cbn [shifted] in *. apply IH. Qed.

(** Every failure uses up a coordinate, so that the loop ends: [left] are those that the line may
    still meet. *)
Lemma countCrossings_ok crosses ends ids origin x : edges_ok -> in_range ids -> countable_by crosses ends -> plain x ->
  forall tries m (left : list D), (length left < tries)%nat -> Z.of_nat m + alen left <= 2 * MAX_VALUE ->
    (forall a, a ∈ left -> numeric a) ->
    (forall i a, i ∈ ids -> a ∈ endsOf ends i -> a ∈ left \/ numeric a /\ exists k, (k < m)%nat /\ fuzzyEquals a (shifted k x) tolerance = true) ->
    exists r, countCrossings coast tries crosses ids origin (shifted m x) = Ok r.
Proof.
  intros Hok Hids Hcr Hx. induction tries as [| tries IH]; intros m left Hlen Hm Hnum Hleft; [lia |]. cbn [countCrossings].
  destruct (count_once crosses ends ids origin (shifted m x) Hok Hids Hcr) as [[w ->] | (-> & i & a & Hi & Ha & Hf)]; [by eexists |].
  rewrite <-shifted_next. pose proof (alen_nonneg left) as Hnn.
  assert (a ∈ left) as Hin.
  { destruct (Hleft i a Hi Ha) as [| (Hna & k & Hk & Hf')]; [done |].
    pose proof (met_once a x m k Hna Hx ltac:(lia) ltac:(lia) Hf Hf'). lia. }
  apply list_elem_of_split in Hin as (l1 & l2 & ->). rewrite alen_app, alen_cons in Hm. rewrite length_app in Hlen. cbn [length] in Hlen.
  apply (IH _ (l1 ++ l2)).
  - rewrite length_app. lia.
  - rewrite alen_app. lia.
  - intros b Hb. apply Hnum. set_solver.
  - intros j b Hj Hb. destruct (Hleft j b Hj Hb) as [Hbl | (Hnb & k & Hk & Hfk)].
    + apply elem_of_app in Hbl as [Hbl | [-> | Hbl]%elem_of_cons]; [left; set_solver | right | left; set_solver].
      split; [apply Hnum; set_solver |]. exists m. split; [lia | done].
    + right. split; [done |]. exists k. split; [lia | done].
Qed.

Context (tries : nat) (Htries : 2 * Coastline.numberOfEdges coast < Z.of_nat tries).

(** The ends are two coordinates of the edge. *)
Definition two_of (ends : D * D * D * D -> list D) : Prop := forall c, length (ends c) = 2%nat /\ (numbers c -> forall a, a ∈ ends c -> numeric a).

Lemma count_returns crosses ends (edges : gset Z) origin line : edges_ok -> in_range edges -> countable_by crosses ends ->
  two_of ends -> plain line -> exists r, countCrossings coast tries crosses (elements edges) origin line = Ok r.
Proof.
  intros Hok Hedges Hcr Htwo Hline.
  assert (in_range (elements edges)) as Hids by (intros i Hi%elem_of_elements; by apply Hedges).
  assert (Z.of_nat (length (elements edges)) <= Coastline.numberOfEdges coast) as Hn.
  { apply (DijkstraGrid.nodup_length (elements edges)); [apply alen_nonneg | apply NoDup_elements | by apply Forall_forall]. }
  assert (forall l, (length (l ≫= endsOf ends) <= 2 * length l)%nat) as Hl.
  { induction l as [| i l IH]; cbn [mbind list_bind length]; [lia |]. rewrite length_app. unfold endsOf at 1.
    destruct (coordinates coast i) as [c |]; [rewrite (proj1 (Htwo c)) |]; cbn; lia. }
  specialize (Hl (elements edges)).
  apply (countCrossings_ok crosses ends _ _ line Hok Hids Hcr Hline tries 0 (elements edges ≫= endsOf ends)).
  - lia.
  - destruct Hok as [Hmax _]. unfold alen. lia.
  - intros a (i & Ha & Hi)%list_elem_of_bind. destruct Hok as [_ Hok]. destruct (Hok i (Hids i Hi)) as (c & E & Hc).
    unfold endsOf in Ha. rewrite E in Ha. by apply (Htwo c).
  - intros i a Hi Ha. left. apply list_elem_of_bind. by exists i.
Qed.

Definition latEnds (c : D * D * D * D) : list D := let '(sLat, sLon, dLat, dLon) := c in [sLat; dLat].
Definition lonEnds (c : D * D * D * D) : list D := let '(sLat, sLon, dLat, dLon) := c in [sLon; dLon].

Lemma latEnds_two : two_of latEnds.
Proof. intros [[[sLat sLon] dLat] dLon]. split; [done |]. intros (? & ? & ? & ?) a. cbn. rewrite !elem_of_cons, elem_of_nil. by intros [-> | [-> | []]]. Qed.

Lemma lonEnds_two : two_of lonEnds.
Proof. intros [[[sLat sLon] dLat] dLon]. split; [done |]. intros (? & ? & ? & ?) a. cbn. rewrite !elem_of_cons, elem_of_nil. by intros [-> | [-> | []]]. Qed.

Lemma crossesLatitude_countable (lon lon' : D) : countable_by (fun lat '(sLat, sLon, dLat, dLon) =>
  crossesLatitudeWithException sLat sLon dLat dLon lat lon lon') latEnds.
Proof.
  intros line [[[sLat sLon] dLat] dLon]. unfold crossesLatitudeWithException, latEnds.
  destruct (fuzzyEquals sLat line tolerance) eqn:E; [right; split; [done |]; exists sLat; split; [set_solver | done] |].
  destruct (fuzzyEquals dLat line tolerance) eqn:E'; [right; split; [done |]; exists dLat; split; [set_solver | done] | by left; eexists].
Qed.

Lemma arcsIntersect_countable (f : D -> D * D * D) : countable_by (fun lon '(sLat, sLon, dLat, dLon) =>
  let '(lat1, lon1, lat2) := f lon in arcsIntersectWithException sLat sLon dLat dLon lat1 lon1 lat2 lon) lonEnds.
Proof.
  intros line [[[sLat sLon] dLat] dLon]. unfold arcsIntersectWithException, lonEnds. destruct (f line) as [[lat1 lon1] lat2].
  destruct (fuzzyEquals sLon line tolerance) eqn:E; [right; split; [done |]; exists sLon; split; [set_solver | done] |].
  destruct (fuzzyEquals dLon line tolerance) eqn:E'; [right; split; [done |]; exists dLon; split; [set_solver | done] | by left; eexists].
Qed.

(** Setting the center points ends, and changes neither areas nor edges. *)
Lemma initCenterPointWith_ok set c s n w e lat lon origin edges dir : edges_ok -> in_range edges -> covers c s n w e -> fresh c ->
  (dir = FROM_VERTICAL -> plain lon) ->
  (forall lat lon b, plain lon -> returns (set c lat lon b) (fun c' => covers c' s n w e /\ plain (getCtrLon c'))) ->
  returns (initCenterPointWith coast tries set c lat lon origin edges dir)
    (fun '(c', _, edges') => covers c' s n w e /\ in_range edges' /\ (dir = FROM_HORIZONTAL -> plain (getCtrLon c'))).
Proof.
  intros Hok Hedges Hc Hfresh Hlon Hset. destruct (covers_area _ _ _ _ _ Hc) as [Hsn Hwe].
  assert (forall i j, in_range (getAllContainedEdgeIDs (match c with GridParent _ _ _ _ _ _ _ _ cells => cells i j | _ => c end))) as Hsub.
  { intros i j. destruct c; [by eapply contained_range |]. destruct Hc as (_ & _ & _ & _ & _ & Hcells). by eapply contained_range. }
  destruct c as [ids flag clat clon | s' n' w' e' lb lob clat clon cells]; cbn [initCenterPointWith].
  - assert (in_range (edges ∪ list_to_set ids)) as Hall.
    { intros i [Hi | Hi%elem_of_list_to_set]%elem_of_union; [by apply Hedges | by apply Hc]. }
    destruct Hfresh as [Hclat Hclon]. destruct dir.
    + destruct (count_returns _ _ _ origin clat Hok Hall (crossesLatitude_countable lon clon) latEnds_two Hclat) as [[line water] ->]. by ret.
    + destruct (count_returns _ _ _ origin clon Hok Hall (arcsIntersect_countable (fun _ => (lat, lon, clat))) lonEnds_two Hclon) as [[line water] ->].
      by ret.
  - assert (forall f : third -> GridCell D, (forall i, in_range (getAllContainedEdgeIDs (f i))) ->
      in_range (edges ∪ ⋃ ((fun i => getAllContainedEdgeIDs (f i)) <$> thirds))) as Hall.
    { intros f Hf i [Hi | (? & (a & -> & _)%list_elem_of_fmap & Hi)%elem_of_union_list]%elem_of_union; [by apply Hedges | by eapply Hf]. }
    assert ((s', n', w', e') = (s, n, w, e)) as [= -> -> -> ->] by apply Hc.
    destruct dir.
    + destruct (count_returns _ _ _ origin (ddiv (dadd s n) (dofZ 2)) Hok (Hall (cells Mid) (Hsub Mid))
        (crossesLatitude_countable lon (ddiv (dadd w e) (dofZ 2))) latEnds_two (interval_middle s n Hsn)) as [[line water] ->].
      rewrite bind_ok. eapply returns_bind; [by apply Hset, interval_middle |]. cbv beta. intros c2 [Hc2 Hlon2]. ret.
      split; [done |]. split; [by apply Hall, Hsub | done].
    + destruct (count_returns _ _ _ origin lon Hok (Hall (fun i => cells i Mid) (fun i => Hsub i Mid))
        (arcsIntersect_countable (fun _ => (ddiv (dadd s n) (dofZ 2), ddiv (dadd w e) (dofZ 2), lat))) lonEnds_two (Hlon eq_refl)) as [[line water] ->].
      rewrite bind_ok. eapply returns_bind; [by apply Hset, interval_middle |]. cbv beta. intros c2 [Hc2 Hlon2]. ret.
      split; [done |]. split; [apply (Hall (fun i => cells i Mid)); intros i; apply Hsub | done].
Qed.

Lemma setCenterPoint_ok (Hok : edges_ok) c : forall s n w e lat lon b, covers c s n w e -> fresh c -> plain lon ->
  returns (setCenterPoint coast tries c lat lon b) (fun c' => covers c' s n w e /\ plain (getCtrLon c')).
Proof.
  induction c as [ids flag clat clon | s' n' w' e' lb lob clat clon cells IH]; intros s n w e lat lon b Hc Hfresh Hlon; cbn [setCenterPoint]; [by ret |].
  destruct Hc as (Hsn & Hwe & E & Elb & Elob & Hcells).
  set (sub := fun (c : GridCell D) i j => covers c (lowerBorder s n lb i) (upperBorder s n lb i) (lowerBorder w e lob j) (upperBorder w e lob j)).
  assert (forall c i j, sub c i j -> in_range (getAllContainedEdgeIDs c)) as Hrange by (intros c i j; apply contained_range).
  assert (forall i j lat lon origin edges dir, in_range edges -> (dir = FROM_VERTICAL -> plain lon) ->
    returns (initCenterPointWith coast tries (setCenterPoint coast tries) (cells i j) lat lon origin edges dir)
      (fun '(c', _, edges') => sub c' i j /\ in_range edges' /\ (dir = FROM_HORIZONTAL -> plain (getCtrLon c')))) as Hinit.
  { intros i j lat' lon' origin edges dir Hedges Hlon'. apply initCenterPointWith_ok; [done | done | apply Hcells | apply Hfresh | done |].
    intros lat2 lon2 b2. apply IH; [apply Hcells | apply Hfresh]. }
  assert (forall i j lat lon origin edges, in_range edges ->
    returns (initCenterPointWith coast tries (setCenterPoint coast tries) (cells i j) lat lon origin edges FROM_HORIZONTAL)
      (fun '(c', _, edges') => sub c' i j /\ in_range edges' /\ plain (getCtrLon c'))) as Hrow.
  { intros i j lat' lon' origin edges Hedges. eapply returns_mono; [by apply Hinit |]. intros [[c' b'] es] (? & ? & H). auto. }
  assert (forall i j lat lon origin edges, in_range edges -> plain lon ->
    returns (initCenterPointWith coast tries (setCenterPoint coast tries) (cells i j) lat lon origin edges FROM_VERTICAL)
      (fun '(c', _, edges') => sub c' i j /\ in_range edges')) as Hcolumn.
  { intros i j lat' lon' origin edges Hedges Hlon'. eapply returns_mono; [by apply Hinit |]. intros [[c' b'] es] (? & ? & _). done. }
  eapply returns_bind; [apply IH; [apply (Hcells Mid Mid) | apply Hfresh | done] |]. cbv beta. intros c11 [H11 Hlon11]. fold (sub c11 Mid Mid) in H11.
  pose proof (Hrange _ _ _ (Hcells Mid Low)) as Hset0. pose proof (Hrange _ _ _ H11) as Hset1. pose proof (Hrange _ _ _ (Hcells Mid High)) as Hset2.
  do 2 (eapply returns_bind; [apply Hrow; assumption |]; cbv beta; intros [[? ?] ?] (? & ? & ?)).
  do 6 (eapply returns_bind; [apply Hcolumn; assumption |]; cbv beta; intros [[? ?] ?] [? ?]).
  ret. cbn [covers]. split; [| exact Hlon11]. split; [done |]. split; [done |]. split; [done |]. split; [done |]. split; [done |].
  intros [] []; assumption.
Qed.

Lemma initCenterPoint_ok c s n w e lat lon origin edges dir : edges_ok -> in_range edges -> covers c s n w e -> fresh c ->
  (dir = FROM_VERTICAL -> plain lon) ->
  returns (initCenterPoint coast tries c lat lon origin edges dir) (fun '(c', _, edges') => covers c' s n w e /\ in_range edges').
Proof.
  intros Hok Hedges Hc Hfresh Hlon. eapply returns_mono; [apply initCenterPointWith_ok; [done .. |] | by intros [[c' b] es] (? & ? & _)].
  intros lat' lon' b. by apply setCenterPoint_ok.
Qed.

(** ** The lookup of a point *)

Fixpoint is_leaf (l c : GridCell D) : Prop :=
  match c with
  | GridLeaf _ _ _ _ => l = c
  | GridParent _ _ _ _ _ _ _ _ cells => exists i j, is_leaf l (cells i j)
  end.

Lemma dispatch c lat lon : numeric lat -> numeric lon -> forall s n w e, covers c s n w e -> inside lat lon w e s n = true ->
  exists ids flag clat clon s' n' w' e', is_leaf (GridLeaf ids flag clat clon) c /\
    isPointInWater coast c lat lon = isPointInWater coast (GridLeaf ids flag clat clon) lat lon /\
    covers (GridLeaf ids flag clat clon) s' n' w' e' /\ inside lat lon w' e' s' n' = true.
Proof.
  intros Hlat Hlon. induction c as [ids flag clat clon | s' n' w' e' lb lob clat clon cells IH]; intros s n w e Hc Hin.
  - by exists ids, flag, clat, clon, s, n, w, e.
  - destruct Hc as (Hsn & Hwe & E & -> & -> & Hcells). cbn [isPointInWater is_leaf].
    set (i := thirdOf lat _). set (j := thirdOf lon _).
    destruct (IH i j _ _ _ _ (Hcells i j)) as (ids & flag & cla & clo & s2 & n2 & w2 & e2 & Hl & E2 & Hc2 & Hin2).
    { destruct (third_inside s n i Hsn) as [Hs' _], (third_inside w e j Hwe) as [Hw' _].
      rewrite inside_interval in Hin |- * by done. destruct Hin. split; by apply thirdOf_inside. }
    exists ids, flag, cla, clo, s2, n2, w2, e2. split; [by exists i, j | done].
Qed.

(** How often the way from the point to the center point crosses an edge of the leaf. *)
Definition crossed (lat lon clat clon : D) (i : Z) : bool :=
  match coordinates coast i with
  | Ok (sLat, sLon, dLat, dLon) => arcsIntersect lat lon clat clon sLat sLon dLat dLon
  | Err _ => false
  end.

Lemma leaf_parity ids flag clat clon lat lon : edges_ok -> (forall i, i ∈ ids -> 0 <= i < Coastline.numberOfEdges coast) ->
  isPointInWater coast (GridLeaf ids flag clat clon) lat lon =
    Ok (xorb flag (Nat.odd (length (List.filter (crossed lat lon clat clon) ids)))).
Proof.
  intros Hok Hids. cbn [isPointInWater]. revert flag. induction ids as [| i ids IH]; intros flag; [by rewrite xorb_false_r |].
  cbn [forEach List.filter]. destruct (proj2 Hok i) as ([[[sLat sLon] dLat] dLon] & E & _); [apply Hids; set_solver |].
  unfold crossed at 1. rewrite E, !bind_ok, IH by (intros; apply Hids; set_solver).
  destruct (arcsIntersect lat lon clat clon sLat sLon dLat dLon); [| done].
  cbn [length]. rewrite Nat.odd_succ, <-Nat.negb_odd. by destruct flag, (Nat.odd _).
Qed.

(** ** The top level *)

Lemma bounds_value f : -1000 <= 10 * f <= 980 -> let b := dmul (dofZ 10) (dofZ f) in
  numeric b /\ numeric (nextBound b) /\ value b = 10 * f * units /\ value (nextBound b) = 10 * (f + 1) * units.
Proof.
  intros Hf b. destruct (value_tens f ltac:(lia)) as [Hb Eb]. destruct (value_next b (10 * f) Hb ltac:(lia) Eb) as [Hn En].
  split; [done |]. split; [done |]. split; [done |]. unfold nextBound. rewrite En. lia.
Qed.

(** A top-level cell is an interval in both directions. *)
Lemma bounds_interval f : -90 <= f <= 90 -> interval (dmul (dofZ 10) (dofZ f)) (nextBound (dmul (dofZ 10) (dofZ f))).
Proof.
  intros Hf. destruct (bounds_value f ltac:(lia)) as (H1 & H2 & E1 & E2). pose proof units_pos. unfold interval, plain. rewrite E1, E2.
  split_and!; done || nia.
Qed.

(** The index of a coordinate in range is that of a cell around it. *)
Lemma tenth_ok maximum half x : numeric x -> 0 < half <= 18 -> maximum = 10 * half -> - maximum * units <= value x <= maximum * units ->
  let i := tenth maximum (2 * half - 1) half x in
  0 <= i < 2 * half /\ 10 * (i - half) * units <= value x <= 10 * (i - half + 1) * units.
Proof.
  intros Hx Hhalf -> Hb. pose proof units_pos as HU.
  assert (forall z, -1000 <= z <= 1000 -> numeric (dofZ (D := D) z) /\ value (dofZ (D := D) z) = z * units) as Hz by apply value_ofZ.
  unfold tenth, deq. rewrite !dle_value, dlt_value by (done || (apply Hz; lia)).
  rewrite !(fun z H => proj2 (Hz z H)) by lia. cbv zeta.
  destruct (Z.eqb_spec (value x) (10 * half * units)) as [E | Hmax]; [rewrite E, !Z.leb_refl; cbn [andb]; nia |].
  assert ((value x <=? 10 * half * units) && (10 * half * units <=? value x) = false) as -> by (apply andb_false_iff; rewrite !Z.leb_gt; lia).
  destruct (Z.eqb_spec (value x) (- (10 * half) * units)) as [E | Hmin]; [rewrite E, !Z.leb_refl; cbn [andb]; nia |].
  assert ((value x <=? - (10 * half) * units) && (- (10 * half) * units <=? value x) = false) as -> by (apply andb_false_iff; rewrite !Z.leb_gt; lia).
  assert (forall y, numeric y -> 0 <= value y < 10 * half * units -> let q := value y / (10 * units) in
    0 <= q < half /\ 10 * q * units <= value y <= 10 * (q + 1) * units /\
    numeric (ddiv (dsub y (drem y (dofZ 10))) (dofZ 10)) /\ value (ddiv (dsub y (drem y (dofZ 10))) (dofZ 10)) = q * units) as Hquot.
  { intros y Hyn Hy q. assert (10 * units <> 0 /\ 0 < 10 * units) as [H0 Hpos] by lia. pose proof (Z.div_mod (value y) _ H0) as Ediv.
    pose proof (Z.mod_pos_bound (value y) _ Hpos) as Hmod. fold q in Ediv.
    assert (0 <= q < half) as Hq by nia. split; [done |]. split; [nia |].
    destruct (value_rem y Hyn) as [Hrn Er]. rewrite Z.rem_mod_nonneg in Er by lia.
    destruct (value_sub y (drem y (dofZ 10)) (10 * q) Hyn Hrn) as [Hsn Es]; [lia | lia |].
    apply value_div; [done | lia |]. rewrite Es. lia. }
  destruct (Z.ltb_spec (0 * units) (value x)) as [Hpos | Hneg].
  - destruct (Hquot x Hx ltac:(lia)) as (Hq & Hbq & Hn & Hv). set (q := value x / (10 * units)) in *.
    rewrite (value_int _ q) by (done || lia). nia.
  - destruct (value_neg x Hx) as [Hny Ey]. set (y := dmul x (dofZ (-1))) in *.
    destruct (Hquot y Hny) as (Hq & Hbq & Hn & Hv); [lia |]. set (q := value y / (10 * units)) in *.
    destruct (Hz (half - 1)) as [Hh Eh]; [lia |].
    destruct (value_sub (dofZ (half - 1)) (ddiv (dsub y (drem y (dofZ 10))) (dofZ 10)) (half - 1 - q) Hh Hn) as [Hsn Es]; [lia | rewrite Hv, Eh; lia |].
    rewrite (value_int _ (half - 1 - q)); [nia | done | lia | done].
Qed.

(** The borders of a top-level cell. *)
Notation cell_covers c i j := (covers c (lowerLatBound i) (nextBound (lowerLatBound i)) (leftLonBound j) (nextBound (leftLonBound j))).

Lemma topLevelCell_covers fuel i j c : edges_ok -> 0 <= i < 18 -> 0 <= j < 36 -> topLevelCell coast fuel i j = Ok c -> cell_covers c i j /\ fresh c.
Proof.
  intros Hok Hi Hj H. unfold topLevelCell in H. cbv zeta in H.
  assert (forall e, e ∈ seqZ 0 (Coastline.numberOfEdges coast) -> 0 <= e < Coastline.numberOfEdges coast) as Hall
    by (intros e He%elem_of_seqZ; lia).
  set (s := lowerLatBound i) in *. set (w := leftLonBound j) in *.
  destruct (edgesInCell_ok _ s (nextBound s) w (nextBound w) Hok Hall) as (cell & E & Hsub & Hin). rewrite E, bind_ok in H.
  apply (newGridParent_covers fuel Hok _ _ _ _ _ _ H).
  - apply bounds_interval. lia.
  - apply bounds_interval. lia.
  - intros e He%elem_of_elements%Hsub. by apply Hall.
  - intros e He Hends. apply elem_of_elements, Hin; [apply elem_of_seqZ; lia | done].
Qed.

(** Every top-level cell gets sparse by [depth] divisions after its first one. *)
Definition sparse_map (depth : nat) : Prop := forall i j, 0 <= i < 18 -> 0 <= j < 36 -> forall a b,
  let s := lowerLatBound i in let n := nextBound s in let w := leftLonBound j in let e := nextBound w in
  sparse depth (low s n a) (up s n a) (low w e b) (up w e b).

Lemma topLevelCell_ends depth i j : edges_ok -> sparse_map depth -> 0 <= i < 18 -> 0 <= j < 36 -> exists c, topLevelCell coast (S depth) i j = Ok c.
Proof.
  intros Hok Hsparse Hi Hj. unfold topLevelCell. cbv zeta.
  assert (forall e, e ∈ seqZ 0 (Coastline.numberOfEdges coast) -> 0 <= e < Coastline.numberOfEdges coast) as Hall
    by (intros e He%elem_of_seqZ; lia).
  destruct (edgesInCell_ok _ (lowerLatBound i) (nextBound (lowerLatBound i)) (leftLonBound j) (nextBound (leftLonBound j)) Hok Hall) as (cell & E & Hsub & _).
  rewrite E, bind_ok. apply division_ends; [done | intros e He%elem_of_elements%Hsub; by apply Hall |]. intros a b. by apply Hsparse.
Qed.

(** With fewer edges than the threshold one level of cells is enough. *)
Lemma sparse_small : Coastline.numberOfEdges coast < EDGE_THRESHOLD -> sparse_map 0.
Proof. intros Hfew i j _ _ a b. by apply sparse_few, few_edges. Qed.

(** ** The whole grid *)

#[local] Instance cell_inhabited : Inhabited (GridCell D) := populate (GridLeaf [] false (dofZ 0) (dofZ 0)).

Definition grid_ok (grid : list (list (GridCell D))) : Prop := alen grid = 18 /\ forall i, 0 <= i < 18 ->
  alen grid.[i] = 36 /\ forall j, 0 <= j < 36 -> cell_covers grid.[i].[j] i j.

(** The cells at [P] have not got a center point yet. *)
Definition waiting (P : Z -> Z -> Prop) (grid : list (list (GridCell D))) : Prop :=
  grid_ok grid /\ forall i j, 0 <= i < 18 -> 0 <= j < 36 -> P i j -> fresh grid.[i].[j].

Lemma gridGet_ok grid i j : grid_ok grid -> 0 <= i < 18 -> 0 <= j < 36 -> gridGet grid i j = Ok grid.[i].[j].
Proof. intros [Hl Hg] Hi Hj. destruct (Hg i Hi) as [Hr _]. unfold gridGet. rewrite aget_ok, bind_ok by lia. by rewrite aget_ok by lia. Qed.

Lemma gridSet_ok (P Q : Z -> Z -> Prop) grid i j c : waiting P grid -> 0 <= i < 18 -> 0 <= j < 36 -> cell_covers c i j ->
  (forall i' j', Q i' j' -> P i' j' /\ ~ (i' = i /\ j' = j)) -> returns (gridSet grid i j c) (waiting Q).
Proof.
  intros [[Hl Hg] Hfresh] Hi Hj Hc HQ. destruct (Hg i Hi) as [Hr Hcells]. unfold gridSet. rewrite aget_ok, bind_ok by lia.
  rewrite aset_ok, bind_ok, aset_ok by lia. ret. split.
  - split; [by rewrite alen_insert |]. intros i' Hi'.
    rewrite at_insert by lia. case_decide as E; [subst i' | by apply Hg]. rewrite alen_insert. split; [done |]. intros j' Hj'.
    rewrite at_insert by lia. case_decide as E; [by subst j' | by apply Hcells].
  - intros i' j' Hi' Hj' [HP Hne]%HQ. rewrite at_insert by lia. case_decide as E; [subst i' | by apply Hfresh].
    rewrite at_insert by lia. case_decide as E'; [by subst j'; destruct Hne | by apply Hfresh].
Qed.

Section build.
Context (depth : nat) (Hok : edges_ok) (Hsparse : sparse_map depth).

Lemma topLevelGrid_ok : returns (topLevelGrid coast (S depth)) (waiting (fun _ _ => True)).
Proof.
  unfold topLevelGrid. eapply returns_mono.
  - apply (forRange_inv (fun n grid => alen grid = n /\ forall i, 0 <= i < n -> alen grid.[i] = 36 /\ forall j, 0 <= j < 36 ->
      cell_covers grid.[i].[j] i j /\ fresh grid.[i].[j])); [lia | split; [done | lia] |].
    intros i grid Hi [Hl Hg].
    eapply (returns_bind _ _ (fun row => alen row = 36 /\ forall j, 0 <= j < 36 -> cell_covers row.[j] i j /\ fresh row.[j])).
    + apply (forRange_inv (fun m row => alen row = m /\ forall j, 0 <= j < m -> cell_covers row.[j] i j /\ fresh row.[j])); [lia | split; [done | lia] |].
      intros j row Hj [Hlr Hrow]. destruct (topLevelCell_ends depth i j Hok Hsparse Hi Hj) as [c Ec]. rewrite Ec, bind_ok. ret.
      split; [rewrite alen_app, Hlr; done |]. intros j' Hj'. destruct (decide (j' = j)) as [-> | Hne].
      * rewrite at_app_r, Hlr, Z.sub_diag by lia. by apply (topLevelCell_covers (S depth)).
      * rewrite at_app_l by lia. apply Hrow. lia.
    + cbv beta. intros row [Hlr Hrow]. ret. split; [rewrite alen_app, Hl; done |]. intros i' Hi'.
      destruct (decide (i' = i)) as [-> | Hne].
      * by rewrite at_app_r, Hl, Z.sub_diag by lia.
      * rewrite at_app_l by lia. apply Hg. lia.
  - cbv beta. intros grid [Hl Hg]. split; [split; [done |] |].
    + intros i Hi. destruct (Hg i Hi) as [Hr Hc]. split; [done |]. intros j Hj. by apply Hc.
    + intros i j Hi Hj _. by apply (Hg i Hi).
Qed.

#[local] Instance D_inhabited : Inhabited D := populate (dofZ 0).

Lemma centerPoints_ok first n : 0 <= n -> -500 <= first <= 500 -> n <= 40 ->
  returns (centerPoints (D := D) first n) (fun l => alen l = n /\ forall k, 0 <= k < n -> plain l.[k]).
Proof.
  intros Hn Hfirst Hmax. unfold centerPoints. pose proof units_pos as HU.
  eapply (returns_bind _ _ (fun st : list D * D => alen st.1 = n /\ forall k, 0 <= k < n -> plain st.1.[k])).
  - eapply returns_mono; [apply (forRange_inv (fun m (st : list D * D) => (alen st.1 = m /\ forall k, 0 <= k < m -> plain st.1.[k]) /\
      numeric st.2 /\ value st.2 = (first + 10 * m) * units)); [done | |] | by intros st [H _]].
    + destruct (value_ofZ (D := D) first ltac:(lia)). split; [split; [done | lia] |]. split; [done |]. cbn [snd]. lia.
    + intros i [l x] Hi [[Hl Hp] [Hx Ex]]. ret. cbn [fst snd] in *.
      destruct (value_next x (first + 10 * i) Hx ltac:(lia) Ex) as [Hx' Ex']. split; [split |].
      * by rewrite alen_app, Hl.
      * intros k Hk. destruct (decide (k = i)) as [-> | Hne]; [| rewrite at_app_l by lia; apply Hp; lia].
        rewrite at_app_r, Hl, Z.sub_diag by lia. split; [done |]. change ([x].[0]) with x. nia.
      * split; [done |]. rewrite Ex'. lia.
  - intros [l x] Hl. by ret.
Qed.

Lemma firstPoint_ok lat lon : returns (firstPoint coast lat lon) (fun _ => True).
Proof.
  unfold firstPoint. apply (forRange_inv (fun _ _ => True)); [apply alen_nonneg | done |]. intros i w Hi _.
  destruct (proj2 Hok i Hi) as ([[[sLat sLon] dLat] dLon] & -> & _). by ret.
Qed.

Lemma bottomCell_ok lats lons j grid inWater edges : alen lats = 18 -> alen lons = 36 -> 1 <= j < 36 ->
  waiting (fun i' j' => 0 < i' \/ j <= j') grid -> alen inWater = 36 -> alen edges = 36 -> (forall k, 0 <= k < 36 -> in_range edges.[k]) ->
  returns (bottomCell coast tries lats lons j (grid, inWater, edges)) (fun '(grid, inWater, edges) =>
    waiting (fun i' j' => 0 < i' \/ j + 1 <= j') grid /\ alen inWater = 36 /\ alen edges = 36 /\ forall k, 0 <= k < 36 -> in_range edges.[k]).
Proof.
  intros Hlats Hlons Hj Hw Hb He Hr. pose proof Hw as [Hg Hfresh]. unfold bottomCell. rewrite (gridGet_ok grid), bind_ok by (done || lia).
  rewrite !(aget_ok lats), !(aget_ok lons), !(aget_ok inWater), !(aget_ok edges), !bind_ok by lia.
  eapply returns_bind; [apply initCenterPoint_ok; [done | apply Hr; lia | apply Hg; lia | apply Hfresh; lia | done] |].
  cbv beta. intros [[c b] edges'] [Hc He'].
  eapply returns_bind; [apply (gridSet_ok _ (fun i' j' => 0 < i' \/ j + 1 <= j') _ _ _ _ Hw); [lia | lia | exact Hc | lia] |].
  cbv beta. intros grid' Hg'.
  rewrite (aset_ok inWater), (aset_ok edges), !bind_ok by lia. rewrite aset_ok, bind_ok by (rewrite alen_insert; lia). ret.
  rewrite !alen_insert. split; [done |]. split; [done |]. split; [done |]. intros k Hk.
  rewrite !at_insert by (rewrite ?alen_insert; lia). repeat case_decide; [by eapply contained_range | done | by apply Hr].
Qed.

Lemma columnCell_ok lats lons j i grid b edges : alen lats = 18 -> alen lons = 36 -> plain lons.[j] -> 0 <= j < 36 -> 1 <= i < 18 ->
  waiting (fun i' j' => 0 < i' /\ j < j' \/ i <= i' /\ j = j') grid -> in_range edges ->
  returns (columnCell coast tries lats lons j i (grid, b, edges))
    (fun '(grid, _, edges) => waiting (fun i' j' => 0 < i' /\ j < j' \/ i + 1 <= i' /\ j = j') grid /\ in_range edges).
Proof.
  intros Hlats Hlons Hplain Hj Hi Hw He. pose proof Hw as [Hg Hfresh]. unfold columnCell. rewrite (gridGet_ok grid), bind_ok by (done || lia).
  rewrite !(aget_ok lats), !(aget_ok lons), !bind_ok by lia.
  eapply returns_bind; [apply initCenterPoint_ok; [done | done | apply Hg; lia | apply Hfresh; lia | done] |].
  cbv beta. intros [[c b'] edges'] [Hc _].
  eapply returns_bind; [apply (gridSet_ok _ (fun i' j' => 0 < i' /\ j < j' \/ i + 1 <= i' /\ j = j') _ _ _ _ Hw); [lia | lia | exact Hc | lia] |].
  cbv beta. intros grid' Hg'. ret. split; [done | by eapply contained_range].
Qed.

Lemma waiting_mono (P Q : Z -> Z -> Prop) grid : waiting P grid -> (forall i j, Q i j -> P i j) -> waiting Q grid.
Proof. intros [? H] HQ. split; [done |]. intros i j Hi Hj HQij. apply H; auto. Qed.

Lemma columns_ok lats lons (inWater : list bool) edges grid : alen lats = 18 -> alen lons = 36 -> (forall k, 0 <= k < 36 -> plain lons.[k]) ->
  alen inWater = 36 -> alen edges = 36 -> (forall k, 0 <= k < 36 -> in_range edges.[k]) -> waiting (fun i' _ => 0 < i') grid ->
  returns (forRange 0 36 (fun lonIdx grid =>
    previousPointInWater ← aget inWater lonIdx;
    previousEdges ← aget edges lonIdx;
    '(grid, _, _) ← forRange 1 18 (columnCell coast tries lats lons lonIdx) (grid, previousPointInWater, previousEdges);
    Ok grid) grid) grid_ok.
Proof.
  intros Hlats Hlons Hplain Hb He Hr Hg. eapply returns_mono;
    [apply (forRange_inv (fun j g => waiting (fun i' j' => 0 < i' /\ j <= j') g)); [lia | |] | by intros g [H _]].
  - apply (waiting_mono _ _ _ Hg). lia.
  - intros j g Hj Hgj. rewrite !aget_ok, !bind_ok by lia.
    eapply (returns_bind _ _ (fun '(g, _, es) => waiting (fun i' j' => 0 < i' /\ j < j' \/ 18 <= i' /\ j = j') g /\ in_range es)).
    + apply (forRange_inv (fun i '(g, _, es) => waiting (fun i' j' => 0 < i' /\ j < j' \/ i <= i' /\ j = j') g /\ in_range es)); [lia | |].
      * split; [apply (waiting_mono _ _ _ Hgj); lia | by apply Hr].
      * intros i [[g3 b3] es3] Hi [? ?]. apply columnCell_ok; auto.
    + intros [[g3 b3] es3] [Hg3 _]. ret. apply (waiting_mono _ _ _ Hg3). lia.
Qed.

Lemma newPointInWaterChecker_ok : returns (newPointInWaterChecker coast tries (S depth)) grid_ok.
Proof.
  unfold newPointInWaterChecker. eapply returns_bind; [apply topLevelGrid_ok |]. cbv beta. intros grid Hg.
  eapply returns_bind; [apply centerPoints_ok; lia |]. cbv beta. intros lats [Hlats _].
  eapply returns_bind; [apply centerPoints_ok; lia |]. cbv beta. intros lons [Hlons Hplain].
  rewrite (aget_ok lats), (aget_ok lons), !bind_ok by lia.
  eapply returns_bind; [apply firstPoint_ok |]. cbv beta. intros w _.
  rewrite (gridGet_ok grid), bind_ok by (apply Hg || lia).
  eapply returns_bind; [apply (setCenterPoint_ok Hok); [apply Hg; lia | by apply Hg; lia | apply Hplain; lia] |]. cbv beta. intros c [Hc _].
  eapply returns_bind; [apply (gridSet_ok _ (fun i' j' => 0 < i' \/ 1 <= j') _ _ _ _ Hg); [lia | lia | exact Hc | lia] |].
  cbv beta. intros grid' Hg'.
  rewrite !aset_ok, !bind_ok by (unfold alen; rewrite length_replicate; lia).
  eapply (returns_bind _ _ (fun '(grid, inWater, edges) =>
    waiting (fun i' j' => 0 < i' \/ 36 <= j') grid /\ alen inWater = 36 /\ alen edges = 36 /\ forall k, 0 <= k < 36 -> in_range edges.[k])).
  - apply (forRange_inv (fun j '(grid, inWater, edges) =>
      waiting (fun i' j' => 0 < i' \/ j <= j') grid /\ alen inWater = 36 /\ alen edges = 36 /\ forall k, 0 <= k < 36 -> in_range edges.[k])); [lia | |].
    + split; [done |]. rewrite !alen_insert. split; [done |]. split; [done |]. intros k Hk.
      rewrite at_insert by (unfold alen; rewrite ?length_replicate; lia). case_decide; [by eapply contained_range |].
      rewrite at_replicate by lia. set_solver.
    + intros j [[g b] es] Hj (? & ? & ? & ?). by apply bottomCell_ok.
  - cbv beta. intros [[g b] es] (Hg2 & Hb & Hes & Hr). apply columns_ok; [done .. |]. apply (waiting_mono _ _ _ Hg2). lia.
Qed.
End build.

(** A point of the map is answered by a leaf around it. *)
Lemma pointInWater_ok grid lat lon : edges_ok -> grid_ok grid -> numeric lat -> numeric lon ->
  -90 * units <= value lat <= 90 * units -> -180 * units <= value lon <= 180 * units ->
  exists i j c ids flag clat clon s n w e,
    gridGet grid i j = Ok c /\ is_leaf (GridLeaf ids flag clat clon) c /\
    pointInWater coast grid lat lon = Ok (xorb flag (Nat.odd (length (List.filter (crossed lat lon clat clon) ids)))) /\
    inside lat lon w e s n = true /\ alen ids < EDGE_THRESHOLD /\
    forall k, 0 <= k < Coastline.numberOfEdges coast -> ends_in k s n w e -> k ∈ ids.
Proof.
  intros Hok Hg Hlatn Hlonn Hlat Hlon. pose proof units_pos as HU.
  destruct (tenth_ok 90 9 lat Hlatn) as [Hi Hbi]; [lia | lia | lia |]. destruct (tenth_ok 180 18 lon Hlonn) as [Hj Hbj]; [lia | lia | lia |].
  change (2 * 9 - 1) with 17 in *. change (2 * 18 - 1) with 35 in *.
  unfold pointInWater. cbv zeta. set (i := tenth 90 17 9 lat) in *. set (j := tenth 180 35 18 lon) in *.
  rewrite gridGet_ok, bind_ok by (done || lia). destruct Hg as [Hl Hg]. destruct (Hg i ltac:(lia)) as [Hlr Hcells].
  destruct (bounds_value (i - 9) ltac:(lia)) as (Ni & Ni' & Ei & Ei'), (bounds_value (j - 18) ltac:(lia)) as (Nj & Nj' & Ej & Ej').
  destruct (dispatch _ lat lon Hlatn Hlonn _ _ _ _ (Hcells j ltac:(lia))) as (ids & flag & clat & clon & s & n & w & e & Hleaf & Ew & Hc & Hin).
  { unfold lowerLatBound, leftLonBound. rewrite inside_value by done. rewrite Ei, Ei', Ej, Ej'. lia. }
  exists i, j, grid.[i].[j], ids, flag, clat, clon, s, n, w, e. split; [by apply gridGet_ok; [split | lia | lia] |].
  split; [done |]. destruct Hc as (_ & _ & Hfew & Hrange & Hall). split; [rewrite Ew; by apply leaf_parity | done].
Qed.

(** C19: The checker is built, and answers every point of the map.  The recursive division ends when every
    area that is left after [depth] divisions is touched by fewer edges than the threshold
    ([sparse_map]; without it the division may never end, see [division_endless]), and the shifts
    of the center points end because each uses up a coordinate of an edge.  The answer is the status
    of the center point of a leaf, changed once for every edge of the leaf that is crossed on the
    way there; the point lies in the area of that leaf, which has fewer edges than the threshold,
    and all that start or end in its area.  The coordinates of edges and point are numbers, not NaN
    or infinite. *)
Theorem point_in_leaf depth : edges_ok -> sparse_map depth ->
  exists grid, newPointInWaterChecker coast tries (S depth) = Ok grid /\
    forall lat lon, numeric lat -> numeric lon -> -90 * units <= value lat <= 90 * units -> -180 * units <= value lon <= 180 * units ->
    exists i j c ids flag clat clon s n w e,
      gridGet grid i j = Ok c /\ is_leaf (GridLeaf ids flag clat clon) c /\
      pointInWater coast grid lat lon = Ok (xorb flag (Nat.odd (length (List.filter (crossed lat lon clat clon) ids)))) /\
      inside lat lon w e s n = true /\ alen ids < EDGE_THRESHOLD /\
      forall k, 0 <= k < Coastline.numberOfEdges coast -> ends_in k s n w e -> k ∈ ids.
Proof.
  intros Hok Hsparse. destruct (returns_elim _ _ (newPointInWaterChecker_ok depth Hok Hsparse)) as (grid & E & Hg).
  exists grid. split; [done |]. intros lat lon. by apply pointInWater_ok.
Qed.
End cells.

(** ** Witnesses *)

(** Fixed-point numbers with seven decimals, with a trigonometry that is good enough to run the
    definitions. *)
Definition one : Z := 10000000.

#[local] Instance fixedDouble : JDouble Z := {|
  dofZ z := z * one; dadd := Z.add; dsub := Z.sub; dmul x y := Z.quot (x * y) one; ddiv x y := Z.quot (x * one) y;
  dlt := Z.ltb; dsin x := x; dcos x := one; dsqrt x := Z.sqrt (x * one); datan2 y x := y; dPI := 3 * one; dMAX := 2 ^ 1023;
  dtoInt z := Z.quot z one; parseDouble := @parseDouble Z intDouble; printDouble := printInt;
|}.

#[local] Instance fixedMath : JMath Z := {|
  dle := Z.leb; dabs := Z.abs; dmax := Z.max; dmin := Z.min; dfloor x := x / one * one; dacos x := x; dtoRadians x := x;
  drem := Z.rem; fuzzyEquals a b t := Z.abs (a - b) <=? t;
|}.

#[local] Instance fixedCoordinates : Coordinates Z.
Proof.
  refine {| units := one; value x := x; numeric _ := True |}; unfold innerBorders, separation; cbn; unfold one; try done; try lia.
  - intros k Hk. split; [done |]. replace (10 * 10000000 * (k * 10000000)) with (10 * k * 10000000 * 10000000) by lia. by rewrite Z.quot_mul.
  - intros x _. split; [done |]. replace (x * (-1 * 10000000)) with (- x * 10000000) by lia. by rewrite Z.quot_mul.
  - intros x k _ _ ->. split; [done |]. replace (10 * k * 10000000 * 10000000) with (k * 10000000 * (10 * 10000000)) by lia. by rewrite Z.quot_mul.
  - intros x k _ _ ->. by rewrite Z.quot_mul.
  - intros x y _ _ _ Hxy _. split; [done |]. replace (2 * 10000000) with (10000000 * 2) by lia. rewrite (Z.mul_comm (x + y)), Z.quot_mul_cancel_l by lia.
    pose proof (Z.quot_le_mono (2 * x) (x + y) 2 ltac:(lia) ltac:(lia)) as H1. pose proof (Z.quot_le_mono (x + y) (2 * y) 2 ltac:(lia) ltac:(lia)) as H2.
    rewrite (Z.mul_comm 2 x), Z.quot_mul in H1 by lia. rewrite (Z.mul_comm 2 y), Z.quot_mul in H2 by lia. lia.
  - intros x y _ _ _ Hxy _. rewrite !Z.abs_eq by lia. set (q := Z.quot _ _).
    assert (3 * q <= y - x /\ 0 <= q) as Hq.
    { subst q. replace (3 * 10000000) with (10000000 * 3) by lia. rewrite (Z.mul_comm (y - x)), Z.quot_mul_cancel_l by lia.
      pose proof (Z.mul_quot_le (y - x) 3 ltac:(lia) ltac:(lia)). pose proof (Z.quot_pos (y - x) 3 ltac:(lia) ltac:(lia)). lia. }
    replace (2 * 10000000 * q) with (2 * q * 10000000) by lia. rewrite Z.quot_mul by lia. lia.
  - intros x y. by rewrite <-Z.abs_opp, Z.opp_sub_distr, Z.add_comm.
Defined.

#[local] Instance fixedShift : ShiftLaws Z.
Proof.
  assert (forall k x, shifted k x = x + 10 * Z.of_nat k) as Hk.
  { induction k as [| k IH]; intros x; [cbn; lia |]. cbn [shifted]. rewrite IH. replace (dadd x shift) with (x + 10) by reflexivity. lia. }
  split. intros a x k k' _ _ _ _. rewrite !Hk. replace tolerance with 1 by reflexivity. cbn. rewrite !Z.leb_le. lia.
Qed.

(** A coastline of three points. *)
Definition sampleCoast : Coastline.t Z :=
  Coastline.mk [0; 1] [5 * one; 6 * one; 7 * one] [1 * one; 2 * one; 1 * one].

Example sample_answers : match newPointInWaterChecker sampleCoast 10 1 with
  | Ok grid => [pointInWater sampleCoast grid (6 * one) one; pointInWater sampleCoast grid (66 * one) (161 * one)]
  | Err _ => [] end = [Ok true; Ok false].
Proof. vm_compute. reflexivity. Qed.

Definition edge_answers (coast : Coastline.t Z) (e : Z) : bool := match coordinates coast e with Ok _ => true | Err _ => false end.

Lemma all_answer coast : Coastline.numberOfEdges coast <= MAX_VALUE -> bool_decide (Forall (fun e => edge_answers coast e = true) (seqZ 0 (Coastline.numberOfEdges coast))) = true ->
  edges_ok coast.
Proof.
  intros Hmax H%bool_decide_eq_true. split; [done |]. intros e He. rewrite Forall_forall in H. specialize (H e ltac:(apply elem_of_seqZ; lia)).
  unfold edge_answers in H. destruct (coordinates coast e) as [[[[sLat sLon] dLat] dLon] | x]; [by eexists | done].
Qed.

Lemma sample_edges_ok : edges_ok sampleCoast.
Proof. apply all_answer; [discriminate | vm_compute; reflexivity]. Qed.

Lemma point_in_leaf_witness : exists grid, newPointInWaterChecker sampleCoast 10 1 = Ok grid /\
  exists i j c ids flag clat clon, gridGet grid i j = Ok c /\ is_leaf (GridLeaf ids flag clat clon) c /\
    pointInWater sampleCoast grid (6 * one) one = Ok (xorb flag (Nat.odd (length (List.filter (crossed sampleCoast (6 * one) one clat clon) ids)))).
Proof.
  destruct (point_in_leaf (D := Z) sampleCoast 10 ltac:(reflexivity) 0 sample_edges_ok
    (sparse_small sampleCoast ltac:(reflexivity))) as (grid & E & Hall).
  exists grid. split; [exact E |].
  destruct (Hall (6 * one) one I I) as (i & j & c & ids & flag & clat & clon & s & n & w & e & Hc & Hl & Ew & _);
    [vm_compute; split; discriminate | vm_compute; split; discriminate |].
  exists i, j, c, ids, flag, clat, clon. split; [exact Hc |]. split; [exact Hl | exact Ew].
Defined.

(** A thousand edges at one point. *)
Definition crowdedCoast : Coastline.t Z :=
  Coastline.mk ((fun k => 2 * k) <$> seqZ 0 1000) (replicate 2000 (5 * one)) (replicate 2000 (5 * one)).

Lemma crowded_coordinates i : i ∈ seqZ 0 1000 -> coordinates crowdedCoast i = Ok (5 * one, 5 * one, 5 * one, 5 * one).
Proof.
  assert (bool_decide (Forall (fun i => coordinates crowdedCoast i = Ok (5 * one, 5 * one, 5 * one, 5 * one)) (seqZ 0 1000)) = true) as H
    by (vm_compute; reflexivity).
  apply bool_decide_eq_true in H. rewrite Forall_forall in H. apply H.
Qed.

Lemma crowded_range i : i ∈ seqZ 0 1000 -> 0 <= i < Coastline.numberOfEdges crowdedCoast.
Proof. intros Hi%elem_of_seqZ. change (Coastline.numberOfEdges crowdedCoast) with 1000. lia. Qed.

Lemma division_endless_witness : inside (5 * one) (5 * one) 0 (10 * one) 0 (10 * one) = true /\
  ~ exists c, newGridParent crowdedCoast 100 (seqZ 0 1000) 0 (10 * one) 0 (10 * one) = Ok c.
Proof.
  split; [reflexivity |]. intros [c Hc]. revert Hc.
  apply (division_endless (D := Z) crowdedCoast (seqZ 0 1000) 0 (10 * one) 0 (10 * one) (5 * one) (5 * one)).
  - split; [discriminate |]. intros e He. eexists. split; [apply crowded_coordinates, elem_of_seqZ; change (Coastline.numberOfEdges crowdedCoast) with 1000 in He; lia | done].
  - exact crowded_range.
  - apply NoDup_seqZ.
  - discriminate.
  - split_and!; [split; [done | vm_compute; split; discriminate] .. | vm_compute; discriminate].
  - split_and!; [split; [done | vm_compute; split; discriminate] .. | vm_compute; discriminate].
  - done.
  - done.
  - reflexivity.
  - intros i Hi. exists (5 * one), (5 * one), (5 * one), (5 * one). split; [by apply crowded_coordinates | by left].
Defined.
