(* ===== verification/Generation.v ===== *)
(** * GridCreator.main: from the coastlines to the grid file

    The program that generates the grid: it imports the coastlines, builds the point-in-water
    checker and creates the grid with that checker as the test of the threads.  The coastlines and
    the checker are kept in files, which a later run reads; a run that is killed while it writes
    one of them leaves it torn.  The run time, which is printed, is left out. *)

From S2P Require Import Prelude Files Text Doubles DijkstraGrid Grid GridCreator Geometry PointInWater WaterCells.
From S2P Require Coastline.
Import Coastline.

Notation Checker D := (list (list (GridCell D))) (only parsing).

Section program.
Context {D B : Type} `{!JDouble D, !JMath D, !JFloat D, !Serial (Coastline.t D) B, !Serial (Checker D) B}.
Implicit Types (files : disk B) (coast : Coastline.t D) (checker : Checker D) (torn : option nat).

(** The test of the worker threads; the coordinates are cast to floats. *)
Definition waterTest coast checker (lat lon : Z) : res bool :=
  pointInWater coast checker (toFloat (degrees lat)) (toFloat (degrees lon)).

(** [pbf] has the ways of the OSM file, [tries] and [fuel] bound the shifts of the center points and
    the depth of the cells.  The class of the threads fetches the checker when it is loaded. *)
Definition main (pbf : option (list (list (Point D)))) (tries fuel : nat) (latStep lonStep : Z) (picks : list nat) files
    : res (string * disk B) :=
  '(coast, files) ← initCoastlineWays (dofZ 0) pbf None files;
  '(checker, files) ← initPointInWaterChecker coast tries fuel None files;
  '(POINT_IN_WATER_CHECKER, files) ← getInstance coast tries fuel (Some checker) None files;
  text ← createGridFile (waterTest coast POINT_IN_WATER_CHECKER) latStep lonStep picks;
  Ok (text, files).

(** The files after a run that is killed after its first [k] steps, or, if [torn] is a number, in the
    next step, when that many bytes of its file have been written. *)
Definition mainUpTo (pbf : option (list (list (Point D)))) (tries fuel : nat) (k : nat) torn files : res (disk B) :=
  match k, torn with
  | O, None => Ok files
  | O, Some _ => '(_, files) ← initCoastlineWays (dofZ 0) pbf torn files; Ok files
  | S k, _ =>
      '(coast, files) ← initCoastlineWays (dofZ 0) pbf None files;
      match k, torn with
      | O, None => Ok files
      | O, Some _ => '(_, files) ← initPointInWaterChecker coast tries fuel torn files; Ok files
      | S _, _ => '(_, files) ← initPointInWaterChecker coast tries fuel None files; Ok files
      end
  end.
End program.

(** The floats nearest to coordinates of the map are on the map: rounding is monotone, and exact on
    whole degrees. *)
Class FloatLaws (D : Type) `{!JDouble D, !JMath D, !Coordinates D, !JFloat D} : Prop := {
  float_range x m : 0 <= m <= 180 -> - m * DEGREE <= x <= m * DEGREE ->
    numeric (toFloat (degrees x)) /\ - m * units <= value (toFloat (degrees x)) <= m * units;
}.

(** ** The steps *)

(** The object is not stored, its file is torn, or it is there. *)
Definition stored {A B} `{!Serial A B} (name : string) (x : A) (files : disk B) : Prop :=
  files !! name = None \/ unreadable A name files = true \/ files !! name = Some (serialize x).

Section files.
Context {A B : Type} `{!Serial A B, !SerialLaws A B}.
Implicit Types (files : disk B) (x : A).

Lemma stored_write name x cut files : stored name x (writeFile cut name (serialize x) files).
Proof.
  unfold stored, unreadable. rewrite writeFile_bytes, lookup_insert_eq. right.
  destruct cut as [m |]; [| by right]. destruct (early_cases x m) as [-> | [e ->]]; [by right | by left].
Qed.

Lemma stored_other name name' x cut content files : name <> name' -> stored name x files -> stored name x (writeFile cut name' content files).
Proof. intros Hne. unfold stored, unreadable. rewrite writeFile_bytes. by rewrite lookup_insert_ne. Qed.

Lemma stored_delete name x name' files : stored name x files -> stored name x (delete name' files).
Proof.
  unfold stored, unreadable. destruct (decide (name' = name)) as [-> | Hne]; [rewrite lookup_delete_eq; by left | by rewrite lookup_delete_ne].
Qed.
End files.

Section steps.
Context {D B : Type} `{!JDouble D, !JMath D, !JFloat D, !Coordinates D, !ShiftLaws D, !FloatLaws D}.
Context `{!Serial (Coastline.t D) B, !SerialLaws (Coastline.t D) B, !Serial (Checker D) B, !SerialLaws (Checker D) B}.
Implicit Types (files : disk B) (coast : Coastline.t D) (checker : Checker D) (torn : option nat).

Lemma initEdges_edges_ok (ways : list (list (Point D))) coast : alen (points ways) <= MAX_VALUE ->
  (forall p, p ∈ points ways -> numeric (pLat p) /\ numeric (pLon p)) -> initEdges (dofZ 0) ways = Ok coast -> edges_ok coast.
Proof.
  intros Hmax Hnum E. rewrite initEdges_arrays in E by done. injection E as <-. split; cbn [numberOfEdges edgePosStart].
  { pose proof (starts_points ways 0). unfold numberOfEdges. cbn [edgePosStart]. lia. }
  intros e He. unfold numberOfEdges in He. cbn [edgePosStart] in He. unfold alen in He.
  destruct (lookup_lt_is_Some_2 (starts 0 ways) (Z.to_nat e)) as [o Ho]; [lia |].
  destruct (starts_segments ways 0 _ _ Ho) as (p & q & j & _ & Hseg & Hp & Hq).
  destruct (arrays_edge ways _ p q Hmax Hseg) as (E1 & E2 & E3 & E4). rewrite Z2Nat.id in E1, E2, E3, E4 by lia.
  eexists. split; [unfold coordinates; by rewrite E1, bind_ok, E2, bind_ok, E3, bind_ok, E4, bind_ok |].
  apply list_elem_of_lookup_2, Hnum in Hp as [? ?]. by apply list_elem_of_lookup_2, Hnum in Hq as [? ?].
Qed.

Context (entities : list (entity D)) (tries depth : nat).
Notation pbf := (Some (importPBF entities)) (only parsing).

(** The coastlines of the OSM file fit into arrays, their coordinates are numbers, and they are nowhere
    too dense for the division of the map: [coast] are the arrays. *)
Record coastline_ok coast : Prop := {
  co_points : alen (points (importPBF entities)) <= MAX_VALUE;
  co_numbers p : p ∈ points (importPBF entities) -> numeric (pLat p) /\ numeric (pLon p);
  co_edges : initEdges (dofZ 0) (importPBF entities) = Ok coast;
  co_tries : 2 * numberOfEdges coast < Z.of_nat tries;
  co_sparse : sparse_map coast depth;
}.

(** The files that were there before the first run, or that runs have left, each killed somewhere, also
    in the middle of a file; and a file that was torn may have been deleted by hand. *)
Inductive left_by_runs : disk B -> Prop :=
| left_none files : files !! COASTLINE_WAYS_SERIALIZATION_FILE_NAME = None ->
    files !! POINT_IN_WATER_CHECKER_SERIALIZATION_FILE_NAME = None -> left_by_runs files
| left_killed files files' k torn : left_by_runs files -> mainUpTo pbf tries (S depth) k torn files = Ok files' -> left_by_runs files'
| left_deleted_coast files : left_by_runs files -> unreadable (Coastline.t D) COASTLINE_WAYS_SERIALIZATION_FILE_NAME files = true ->
    left_by_runs (delete COASTLINE_WAYS_SERIALIZATION_FILE_NAME files)
| left_deleted_checker files : left_by_runs files -> unreadable (Checker D) POINT_IN_WATER_CHECKER_SERIALIZATION_FILE_NAME files = true ->
    left_by_runs (delete POINT_IN_WATER_CHECKER_SERIALIZATION_FILE_NAME files).

(** A file that the next run would have to read is torn. *)
Definition torn_files files : bool :=
  unreadable (Coastline.t D) COASTLINE_WAYS_SERIALIZATION_FILE_NAME files
  || unreadable (Checker D) POINT_IN_WATER_CHECKER_SERIALIZATION_FILE_NAME files.

Context coast (Hcoast : coastline_ok coast).

Lemma coast_edges_ok : edges_ok coast.
Proof. destruct Hcoast. by apply (initEdges_edges_ok (importPBF entities)). Qed.

(** What the files hold belongs to these coastlines. *)
Definition progress files : Prop := stored COASTLINE_WAYS_SERIALIZATION_FILE_NAME coast files /\
  exists checker, newPointInWaterChecker coast tries (S depth) = Ok checker /\
    stored POINT_IN_WATER_CHECKER_SERIALIZATION_FILE_NAME checker files.

Lemma checker_built : returns (newPointInWaterChecker coast tries (S depth)) (fun checker => WaterCells.grid_ok coast checker).
Proof. destruct Hcoast as [_ _ _ Htries Hsparse]. apply (newPointInWaterChecker_ok coast tries Htries depth coast_edges_ok Hsparse). Qed.

(** A step on a torn file exits; otherwise it gives the coastlines, or the checker. *)
Lemma initCoastlineWays_progress torn files : progress files ->
  if unreadable (Coastline.t D) COASTLINE_WAYS_SERIALIZATION_FILE_NAME files
  then initCoastlineWays (dofZ 0) pbf torn files = Err SystemExit
  else exists files', initCoastlineWays (dofZ 0) pbf torn files = Ok (coast, files') /\ progress files' /\
    unreadable (Checker D) POINT_IN_WATER_CHECKER_SERIALIZATION_FILE_NAME files' = unreadable (Checker D) POINT_IN_WATER_CHECKER_SERIALIZATION_FILE_NAME files /\
    (torn = None -> unreadable (Coastline.t D) COASTLINE_WAYS_SERIALIZATION_FILE_NAME files' = false).
Proof.
  intros [Hs (checker & Ec & Hc)]. unfold initCoastlineWays, unreadable at 1. destruct Hs as [E | [E | E]].
  - rewrite E. cbn [default from_option id]. rewrite (co_edges _ Hcoast), bind_ok. eexists. split; [done |]. split; [split |].
    + apply stored_write.
    + exists checker. split; [done | by apply stored_other].
    + rewrite writeFile_bytes, unreadable_ne by done. split; [done |]. intros ->. apply (unreadable_written _ coast), lookup_insert_eq.
  - unfold unreadable in E. destruct (files !! _) as [b |]; [| done]. by destruct (deserialize b).
  - rewrite E, deserialize_serialize. exists files. split; [done |]. split; [split; [by right; right | by exists checker] |].
    split; [done |]. intros _. by apply (unreadable_written _ coast).
Qed.

Lemma initPointInWaterChecker_progress torn files : progress files ->
  if unreadable (Checker D) POINT_IN_WATER_CHECKER_SERIALIZATION_FILE_NAME files
  then initPointInWaterChecker coast tries (S depth) torn files = Err SystemExit
  else exists checker files', newPointInWaterChecker coast tries (S depth) = Ok checker /\
    initPointInWaterChecker coast tries (S depth) torn files = Ok (checker, files') /\ progress files' /\
    unreadable (Coastline.t D) COASTLINE_WAYS_SERIALIZATION_FILE_NAME files' = unreadable (Coastline.t D) COASTLINE_WAYS_SERIALIZATION_FILE_NAME files /\
    (torn = None -> unreadable (Checker D) POINT_IN_WATER_CHECKER_SERIALIZATION_FILE_NAME files' = false).
Proof.
  intros [Hs (checker & Ec & Hc)]. unfold initPointInWaterChecker, unreadable at 1. destruct Hc as [E | [E | E]].
  - rewrite E, Ec, bind_ok. exists checker. eexists. split; [done |]. split; [done |]. split; [split; [by apply stored_other |] | split].
    + exists checker. split; [done | apply stored_write].
    + by rewrite writeFile_bytes, unreadable_ne.
    + intros ->. rewrite writeFile_all. apply (unreadable_written _ checker), lookup_insert_eq.
  - unfold unreadable in E. destruct (files !! _) as [b |]; [| done]. by destruct (deserialize b).
  - rewrite E, deserialize_serialize. exists checker, files. split; [done |]. split; [done |]. split; [split; [done |] | split; [done |]].
    + exists checker. split; [done | by right; right].
    + intros _. by apply (unreadable_written _ checker).
Qed.

Lemma killed_generation k torn files files' : progress files -> mainUpTo pbf tries (S depth) k torn files = Ok files' -> progress files'.
Proof.
  intros Hp. pose proof (fun torn => initCoastlineWays_progress torn files Hp) as Hcoastline. unfold mainUpTo.
  destruct k as [| k]; [destruct torn as [m |]; [| by intros [= <-]] |].
  - specialize (Hcoastline (Some m)). case_match; [by rewrite Hcoastline |].
    destruct Hcoastline as (f1 & -> & H1 & _). rewrite bind_ok. by intros [= <-].
  - specialize (Hcoastline None). case_match; [by rewrite Hcoastline |].
    destruct Hcoastline as (f1 & -> & H1 & _). rewrite bind_ok.
    pose proof (fun torn => initPointInWaterChecker_progress torn f1 H1) as Hchecker.
    assert (forall torn, ('(_, files) ← initPointInWaterChecker coast tries (S depth) torn f1; Ok files) = Ok files' -> progress files') as Hstep.
    { intros torn'. specialize (Hchecker torn'). destruct (unreadable (Checker D) _ f1); [by rewrite Hchecker |].
      destruct Hchecker as (checker & f2 & _ & -> & H2 & _). rewrite bind_ok. by intros [= <-]. }
    destruct k as [| k]; [destruct torn as [m |]; [| by intros [= <-]] |]; apply Hstep.
Qed.

Lemma left_partial files : left_by_runs files -> progress files.
Proof.
  induction 1 as [files Hc Hp | files files' k torn _ IH E | files _ [Hs (checker & Ec & Hc)] _ | files _ [Hs (checker & Ec & Hc)] _].
  - split; [by left |]. destruct (returns_elim _ _ checker_built) as (checker & Ec & _). exists checker. split; [done | by left].
  - by apply (killed_generation k torn files).
  - split; [by apply stored_delete |]. exists checker. split; [done | by apply stored_delete].
  - split; [by apply stored_delete |]. exists checker. split; [done | by apply stored_delete].
Qed.

(** ** The test *)

(** The answer of the checker. *)
Definition isWater checker (lat lon : Z) : bool := match waterTest coast checker lat lon with Ok b => b | Err _ => false end.

Lemma waterTest_answers checker latStep lonStep : newPointInWaterChecker coast tries (S depth) = Ok checker ->
  lattice_ok latStep lonStep -> answers (isWater checker) latStep lonStep (waterTest coast checker).
Proof.
  intros Ec [Hlat Hlon _ _ _] lat lon (Hlat1 & k & Hk & Elat) (Hlon1 & l & Hl & Elon). unfold isWater.
  destruct (returns_elim _ _ checker_built) as (checker' & Ec' & Hg). rewrite Ec in Ec'. injection Ec' as <-.
  destruct (float_range lat 90) as [Nlat Rlat]; [lia | unfold DEGREE in *; nia |].
  destruct (float_range lon 180) as [Nlon Rlon]; [lia | unfold DEGREE in *; nia |].
  destruct (pointInWater_ok coast tries (co_tries _ Hcoast) checker (toFloat (degrees lat)) (toFloat (degrees lon)) coast_edges_ok Hg Nlat Nlon Rlat Rlon)
    as (i & j & c & ids & flag & clat & clon & s & n & w & e & _ & _ & Ew & _).
  unfold waterTest. by rewrite Ew.
Qed.

Lemma generate_torn latStep lonStep picks files : left_by_runs files -> torn_files files = true ->
  main pbf tries (S depth) latStep lonStep picks files = Err SystemExit.
Proof.
  intros Hp%left_partial Htorn. pose proof (initCoastlineWays_progress None files Hp) as Hcoastline. unfold main, torn_files in *.
  case_match eqn:Eu; [by rewrite Hcoastline |]. destruct Hcoastline as (f1 & -> & H1 & Hsame & _). rewrite bind_ok.
  pose proof (initPointInWaterChecker_progress None f1 H1) as Hchecker. cbn [orb] in Htorn. rewrite Hsame, Htorn in Hchecker. by rewrite Hchecker.
Qed.

Lemma generate_ok latStep lonStep picks files : left_by_runs files -> torn_files files = false -> exists checker files',
  newPointInWaterChecker coast tries (S depth) = Ok checker /\ left_by_runs files' /\ torn_files files' = false /\
  main pbf tries (S depth) latStep lonStep picks files =
    (text ← createGridFile (waterTest coast checker) latStep lonStep picks; Ok (text, files')).
Proof.
  intros Hleft [Hread1 Hread2]%orb_false_iff. pose proof (left_partial files Hleft) as Hp.
  pose proof (initCoastlineWays_progress None files Hp) as Hcoastline. rewrite Hread1 in Hcoastline.
  destruct Hcoastline as (f1 & E1 & H1 & Hsame & Hr1). rewrite Hread2 in Hsame.
  pose proof (initPointInWaterChecker_progress None f1 H1) as Hchecker. rewrite Hsame in Hchecker.
  destruct Hchecker as (checker & f2 & Ec & E2 & H2 & Hsame2 & Hr2). exists checker, f2. split; [done |]. split; [| split].
  - apply (left_killed files f2 2 None Hleft). cbn [mainUpTo]. by rewrite E1, bind_ok, E2, bind_ok.
  - unfold torn_files. by rewrite Hsame2, Hr1, Hr2.
  - unfold main. rewrite E1, bind_ok, E2, bind_ok. cbn [getInstance]. by rewrite bind_ok.
Qed.
End steps.

(** C6: From the OSM file to the graph.  Runs went before, each killed anywhere, also while it was
    writing a file; a torn file may have been deleted.  If a torn [CoastlineWays.ser] or
    [coastlineChecker.ser] is still there, the run exits.  Otherwise the checker is built and answers
    at every point of the lattice; the file that [main] writes, once imported, is the full grid of the
    points that the checker finds in water, with an edge between any two neighbours both ways; and
    the files are good for the next run.  The conditions on the data: the coastlines fit into
    arrays, with numbers as coordinates ([coastline_ok]), no area that is left after [depth]
    divisions is touched by a thousand of their edges ([sparse_map]), the steps divide the map
    ([lattice_ok]), the distances are ints, and no node of the column at 180 degrees has a node to
    its east that has no other neighbour (see [lonely_column]).  The laws on doubles are about
    numbers within a thousand degrees ([Coordinates], [ShiftLaws], [FloatLaws]). *)
Theorem main_generates {D B} `{!JDouble D, !DoubleText D, !JMath D, !JFloat D, !Coordinates D, !ShiftLaws D, !FloatLaws D}
    `{!Serial (Coastline.t D) B, !SerialLaws (Coastline.t D) B, !Serial (Checker D) B, !SerialLaws (Checker D) B}
    (entities : list (entity D)) tries depth coast latStep lonStep picks (files : disk B) entrySet W :
  coastline_ok entities tries depth coast -> left_by_runs entities tries depth files ->
  lattice_ok latStep lonStep -> (forall m, entrySet m ≡ₚ map_to_list m) -> W <= MAX_VALUE ->
  (forall n m, lattice_lat latStep (nodeLatitude n) -> lattice_lon lonStep (nodeLongitude n) -> m ∈ around latStep lonStep n ->
    0 <= distanceBetween (D := D) n m <= W) ->
  (forall checker n, newPointInWaterChecker coast tries (S depth) = Ok checker ->
    grid_node (isWater coast checker) latStep lonStep n -> nodeLongitude n = 180 * DEGREE ->
    grid_node (isWater coast checker) latStep lonStep (eastOf lonStep n) ->
    exists m, grid_node (isWater coast checker) latStep lonStep m /\ m ∈ around latStep lonStep (eastOf lonStep n)) ->
  if torn_files files then main (Some (importPBF entities)) tries (S depth) latStep lonStep picks files = Err SystemExit
  else exists checker nodes text g files', newPointInWaterChecker coast tries (S depth) = Ok checker /\
    main (Some (importPBF entities)) tries (S depth) latStep lonStep picks files = Ok (text, files') /\
    left_by_runs entities tries depth files' /\ torn_files files' = false /\
    importFmiFile entrySet (lines text) =
      Ok (mkNode (degrees <$> (nodeLatitude <$> nodes)) (degrees <$> (nodeLongitude <$> nodes)) : Node D, g) /\
    NoDup nodes /\ size g = alen nodes /\ graph_ok g W /\
    (forall n, n ∈ nodes <-> lattice_lat latStep (nodeLatitude n) /\ lattice_lon lonStep (nodeLongitude n) /\
      waterTest coast checker (nodeLatitude n) (nodeLongitude n) = Ok true) /\
    forall u v, (exists w, DijkstraGrid.edge g u v w) <-> 0 <= u < alen nodes /\ 0 <= v < alen nodes /\
      (nodes.[v] ∈ around latStep lonStep nodes.[u] \/ nodes.[u] ∈ around latStep lonStep nodes.[v]).
Proof.
  intros Hcoast Hleft Hlattice Hentries HW Hdist Hcolumn. destruct (torn_files files) eqn:Htorn; [by apply (generate_torn _ _ _ coast) |].
  destruct (generate_ok entities tries depth coast Hcoast latStep lonStep picks files Hleft Htorn) as (checker & files' & Ec & Hleft' & Htorn' & Em).
  pose proof (waterTest_answers entities tries depth coast Hcoast checker latStep lonStep Ec Hlattice) as Hanswers.
  destruct (createGridFile_ok _ _ latStep lonStep picks entrySet W Hlattice Hanswers Hentries HW)
    as (nodes & text & g & Et & Eg & Hnd & Hn & Hsize & Hok & Hedge).
  { intros n m (? & ? & _). by apply Hdist. }
  { intros n. by apply Hcolumn. }
  exists checker, nodes, text, g, files'. split; [done |]. split; [by rewrite Em, Et, bind_ok |].
  do 6 (split; [done |]). split; [| done]. intros n. rewrite Hn. unfold grid_node.
  split; intros (Hla & Hlo & Hw); (split; [done |]; split; [done |]).
  - by rewrite Hanswers, Hw.
  - unfold isWater. by rewrite Hw.
Qed.

(** ** Witness *)

#[local] Existing Instance fixedDouble.
#[local] Existing Instance fixedMath.
#[local] Existing Instance fixedCoordinates.
#[local] Existing Instance fixedShift.
#[local] Existing Instance roundFloat.

#[local] Instance fixedText : DoubleText Z.
Proof. split; intros x; [apply (parse_printDouble (DoubleText := intDouble_text)) | apply word_printInt]. Qed.

#[local] Instance fixedFloat : FloatLaws Z.
Proof.
  split. intros x m _ Hx. split; [done |].
  assert (value (toFloat (degrees x)) = x * 100000) as ->.
  { change (Z.quot (x * one * one) (100 * one) = x * 100000). unfold one.
    replace (x * 10000000 * 10000000) with (x * 100000 * (100 * 10000000)) by lia. by rewrite Z.quot_mul. }
  change units with one. unfold one, DEGREE in *. lia.
Qed.

(** A byte is an object of either class. *)
Definition object : Type := Coastline.t Z + Checker Z.

#[local] Instance serialCoast : Serial (Coastline.t Z) object := oneByte inl (fun b => match b with inl x => Some x | inr _ => None end).
#[local] Instance serialChecker : Serial (Checker Z) object := oneByte inr (fun b => match b with inr x => Some x | inl _ => None end).
#[local] Instance serialCoastLaws : SerialLaws (Coastline.t Z) object.
Proof. by apply oneByte_laws. Qed.
#[local] Instance serialCheckerLaws : SerialLaws (Checker Z) object.
Proof. by apply oneByte_laws. Qed.

(** A coast with a bay around the point that is known to be land: all else is water. *)
Definition bayFile : list (entity Z) :=
  [PbfNode 1 (-84 * one) (-171 * one); PbfNode 2 (-84 * one) (-174 * one);
   PbfNode 3 (-84 * one) (-172 * one); PbfNode 4 (-84 * one) (-173 * one);
   PbfWay {["natural"%string := "coastline"%string]} [1; 2]; PbfWay {["natural"%string := "coastline"%string]} [3; 4]].

Definition bay : Coastline.t Z :=
  Coastline.mk [0; 2] [-84 * one; -84 * one; -84 * one; -84 * one] [-171 * one; -174 * one; -172 * one; -173 * one].

Lemma bay_ok : coastline_ok bayFile 10 0 bay.
Proof.
  split; [vm_compute; discriminate | done | reflexivity | reflexivity | apply sparse_small; reflexivity].
Qed.

Definition quarterPoints : list GridNode := flat_map (fun la => mkGridNode la <$> [18000; 9000; 0; -9000]) [9000; 0; -9000].

Lemma quarter_points n : lattice_lat 9000 (nodeLatitude n) -> lattice_lon 9000 (nodeLongitude n) -> n ∈ quarterPoints.
Proof.
  destruct n as [la lo]. cbn [nodeLatitude nodeLongitude]. intros (Hla & k & Hk & Ela) (Hlo & l & Hl & Elo). unfold DEGREE in *.
  assert (k = 0 \/ k = 1 \/ k = 2) as Hk' by lia. assert (l = 0 \/ l = 1 \/ l = 2 \/ l = 3) as Hl' by lia.
  apply list_elem_of_In, in_flat_map. exists la. rewrite <-!list_elem_of_In. split.
  - destruct Hk' as [-> | [-> | ->]]; subst la; set_solver.
  - apply list_elem_of_fmap. exists lo. split; [done |]. destruct Hl' as [-> | [-> | [-> | ->]]]; subst lo; set_solver.
Qed.

Lemma quarter_pole : lattice_lat 9000 9000.
Proof. split; [discriminate | by exists 0]. Qed.

Lemma quarter_meridian : lattice_lon 9000 0.
Proof. split; [reflexivity | by exists 2]. Qed.

Lemma quarter_distances n m : lattice_lat 9000 (nodeLatitude n) -> lattice_lon 9000 (nodeLongitude n) -> m ∈ around 9000 9000 n ->
  0 <= distanceBetween (D := Z) n m <= MAX_VALUE.
Proof.
  intros Hla Hlo Hm. pose proof (quarter_points n Hla Hlo) as Hn.
  assert (Forall (fun n => Forall (fun m => 0 <= distanceBetween (D := Z) n m <= MAX_VALUE) (around 9000 9000 n)) quarterPoints) as H
    by (apply (proj1 (bool_decide_eq_true _)); vm_compute; reflexivity).
  rewrite Forall_forall in H. specialize (H n Hn). rewrite Forall_forall in H. by apply H.
Qed.

(** Everything on the lattice is water. *)
Definition all_water (checker : res (Checker Z)) : bool :=
  match checker with Ok checker => forallb (fun n => isWater bay checker (nodeLatitude n) (nodeLongitude n)) quarterPoints | Err _ => false end.

Lemma bay_water : all_water (newPointInWaterChecker bay 10 1) = true.
Proof. vm_compute. reflexivity. Qed.

Lemma bay_is_water checker n : newPointInWaterChecker bay 10 1 = Ok checker -> n ∈ quarterPoints ->
  isWater bay checker (nodeLatitude n) (nodeLongitude n) = true.
Proof.
  intros E Hn%list_elem_of_In. pose proof bay_water as Hw. rewrite E in Hw. cbn [all_water] in Hw.
  rewrite forallb_forall in Hw. exact (Hw n Hn).
Qed.

Lemma bay_column checker n : newPointInWaterChecker bay 10 1 = Ok checker ->
  grid_node (isWater bay checker) 9000 9000 n -> nodeLongitude n = 180 * DEGREE ->
  grid_node (isWater bay checker) 9000 9000 (eastOf 9000 n) ->
  exists m, grid_node (isWater bay checker) 9000 9000 m /\ m ∈ around 9000 9000 (eastOf 9000 n).
Proof.
  intros E (Hla & _ & _) Hn _. exists (mkGridNode (nodeLatitude n) 0).
  split.
  - split; [exact Hla |]. split; [exact quarter_meridian |].
    exact (bay_is_water checker _ E (quarter_points (mkGridNode (nodeLatitude n) 0) Hla quarter_meridian)).
  - unfold eastOf. rewrite Hn. left.
Qed.

(** What is left when the first run is killed in the second step, as soon as the file is there. *)
Definition tornBay : disk object :=
  match mainUpTo (Some (importPBF bayFile)) 10 1 1 (Some 0%nat) ∅ with Ok files => files | Err _ => ∅ end.

Lemma tornBay_left : left_by_runs bayFile 10 0 tornBay.
Proof. apply (left_killed _ _ _ ∅ tornBay 1 (Some 0%nat)); [by apply left_none | vm_compute; reflexivity]. Qed.

Lemma main_generates_witness : coastline_ok bayFile 10 0 bay /\
  main (Some (importPBF bayFile)) 10 1 9000 9000 [2; 7; 7; 0]%nat tornBay = Err SystemExit /\ exists nodes text g files',
  main (B := object) (Some (importPBF bayFile)) 10 1 9000 9000 [2; 7; 7; 0]%nat ∅ = Ok (text, files') /\
  importFmiFile map_to_list (lines text) =
    Ok (mkNode (degrees <$> (nodeLatitude <$> nodes)) (degrees <$> (nodeLongitude <$> nodes)) : Node Z, g) /\
  mkGridNode 9000 0 ∈ nodes.
Proof.
  split; [exact bay_ok |].
  assert (torn_files tornBay = true) as Etorn by (vm_compute; reflexivity).
  pose proof (fun files Hleft => main_generates (D := Z) (B := object) bayFile 10 0 bay 9000 9000 [2; 7; 7; 0]%nat files map_to_list MAX_VALUE
    bay_ok Hleft quarter_lattice (fun _ => reflexivity _) (Z.le_refl _) quarter_distances bay_column) as H.
  split; [pose proof (H tornBay tornBay_left) as Htorn; rewrite Etorn in Htorn; exact Htorn |].
  destruct (H ∅ (left_none _ _ _ ∅ (lookup_empty _) (lookup_empty _)))
    as (checker & nodes & text & g & files' & Ec & Em & _ & _ & Ei & _ & _ & _ & Hn & _).
  exists nodes, text, g, files'. split; [exact Em |]. split; [exact Ei |]. apply Hn.
  split; [exact quarter_pole |]. split; [exact quarter_meridian |].
  pose proof (bay_is_water checker _ Ec (quarter_points (mkGridNode 9000 0) quarter_pole quarter_meridian)) as Hw. revert Hw. clear. unfold isWater.
  cbn [nodeLatitude nodeLongitude]. generalize (waterTest bay checker 9000 0). intros [[] |]; [reflexivity | discriminate | discriminate].
Defined.
