(* ===== verification/GeoJson.v ===== *)
(** * utils/GeoJsonConverter.java: coastlines and nodes as GeoJSON

    Debugging output; no class calls it.  The JSON library is an interface: objects with named
    fields, arrays that grow at their end, strings and numbers.  An object is put into another one
    after it is complete, so that values can stand for references. *)

From S2P Require Import Prelude Text Doubles Grid GridCreator.
From S2P Require Coastline.

Class JsonLib (D J : Type) := {
  jsonString : string -> J;
  jsonNumber : D -> J;
  newJSONObject : J;
  put : J -> string -> J -> J;
  newJSONArray : J;
  append : J -> J -> J;
}.

(** Reading back: a field has the value that was put last, an array the elements in their order. *)
Class JsonLaws (D J : Type) `{!JsonLib D J} := {
  field : J -> string -> option J;
  items : J -> list J;
  field_put o k v k' : field (put o k v) k' = if decide (k = k') then Some v else field o k';
  items_new : items newJSONArray = [];
  items_append a x : items (append a x) = items a ++ [x];
}.

Section converter.
Context {D J : Type} `{!JDouble D, !JsonLib D J}.

Definition typed (type : string) : J := put newJSONObject "type" (jsonString type).

Definition longLatPair (lon lat : D) : J := append (append newJSONArray (jsonNumber lon)) (jsonNumber lat).

(** A feature object with this geometry. *)
Definition featureOf (geometry : J) : J :=
  put (put (typed "Feature") "properties" newJSONObject) "geometry" geometry.

Definition edgeToJSON (lat1 lon1 lat2 lon2 : D) : J :=
  let longLatArray := append (append newJSONArray (longLatPair lon1 lat1)) (longLatPair lon2 lat2) in
  featureOf (put (typed "LineString") "coordinates" longLatArray).

Definition osmWayToGeoJSON (wayToConvert : list (Coastline.Point D)) : res J :=
  longLatArray ← forRange 0 (Coastline.getNumberOfPoints wayToConvert) (fun i longLatArray =>
    p ← lget wayToConvert i;
    Ok (append longLatArray (longLatPair (Coastline.pLon p) (Coastline.pLat p)))) newJSONArray;
  Ok (featureOf (put (typed "LineString") "coordinates" longLatArray)).

Definition gridNodeToGeoJSONFeature (node : GridNode) : J :=
  featureOf (put (typed "Point") "coordinates" (longLatPair (degrees (nodeLongitude node)) (degrees (nodeLatitude node)))).

Definition featureCollection (features : J) : J := put (typed "FeatureCollection") "features" features.

(** The number of edges that are written is fixed. *)
Definition coastlineWaysToGeoJSON (coast : Coastline.t D) : res J :=
  features ← forRange 0 10000 (fun i features =>
    lat1 ← Coastline.getStartLatByEdgeIdx coast i;
    lon1 ← Coastline.getStartLonByEdgeIdx coast i;
    lat2 ← Coastline.getDestLatByEdgeIdx coast i;
    lon2 ← Coastline.getDestLonByEdgeIdx coast i;
    Ok (append features (edgeToJSON lat1 lon1 lat2 lon2))) newJSONArray;
  Ok (featureCollection features).

Definition coastlineWayToGeoJSON (waysToConvert : list (list (Coastline.Point D))) : res J :=
  features ← forEach waysToConvert (fun currWay features => way ← osmWayToGeoJSON currWay; Ok (append features way)) newJSONArray;
  Ok (featureCollection features).

Definition osmNodesToGeoJSON (nodes : list GridNode) : J :=
  featureCollection (foldl (fun features node => append features (gridNodeToGeoJSONFeature node)) newJSONArray nodes).
End converter.

(** ** What is written *)

Section written.
Context {D J : Type} `{!JDouble D, !JsonLib D J, !JsonLaws D J}.

(** The features of a collection, and the coordinates of a feature. *)
Definition features_of (o : J) : option (list J) := items <$> field o "features".
Definition coordinates_of (o : J) : option (list (list J)) :=
  (fun c => items <$> items c) <$> (field o "geometry" ≫= fun g => field g "coordinates").

Definition position (lon lat : D) : list J := [jsonNumber lon; jsonNumber lat].

Lemma items_longLatPair lon lat : items (longLatPair lon lat) = position lon lat.
Proof. unfold longLatPair. by rewrite !items_append, items_new. Qed.

Lemma coordinates_feature (type : string) (c : J) : coordinates_of (featureOf (put (typed type) "coordinates" c)) = Some (items <$> items c).
Proof.
  unfold coordinates_of, featureOf. rewrite field_put, decide_True by done. cbn [mbind option_bind].
  rewrite field_put, decide_True by done. done.
Qed.

(** An edge is a line of two points, longitude first. *)
Lemma edgeToJSON_line lat1 lon1 lat2 lon2 : coordinates_of (edgeToJSON lat1 lon1 lat2 lon2) = Some [position lon1 lat1; position lon2 lat2].
Proof. unfold edgeToJSON. rewrite coordinates_feature, !items_append, items_new. cbn. by rewrite !items_longLatPair. Qed.

(** A way is the line of its points; a way of one point has no coordinates. *)
Lemma osmWayToGeoJSON_line way : returns (osmWayToGeoJSON way) (fun o =>
  coordinates_of o = Some ((fun p => position (Coastline.pLon p) (Coastline.pLat p)) <$> (if alen way <=? 1 then [] else way))).
Proof.
  unfold osmWayToGeoJSON. set (f := fun p : Coastline.Point D => position (Coastline.pLon p) (Coastline.pLat p)).
  eapply (returns_bind _ _ (fun a => items <$> items a = f <$> take (Z.to_nat (Coastline.getNumberOfPoints way)) way)).
  - apply (forRange_inv (fun i a => items <$> items a = f <$> take (Z.to_nat i) way)).
    + unfold Coastline.getNumberOfPoints. pose proof (alen_nonneg way). by destruct (alen way <=? 1).
    + by rewrite items_new.
    + intros i a Hi Ha. assert (0 <= i < alen way) as Hi'.
      { unfold Coastline.getNumberOfPoints in Hi. destruct (Z.leb_spec (alen way) 1); lia. }
      destruct (lookup_lt_is_Some_2 way (Z.to_nat i)) as [p Hp]; [unfold alen in Hi'; lia |].
      unfold lget. rewrite (proj2 (Z.ltb_ge _ _)), Hp, bind_ok by lia. ret.
      rewrite items_append, fmap_app, Ha. cbn [fmap list_fmap]. rewrite items_longLatPair.
      rewrite Z2Nat.inj_add, Nat.add_1_r by lia. by rewrite (take_S_r _ _ p), fmap_app by done.
  - cbv beta. intros a Ha. ret. rewrite coordinates_feature, Ha. unfold Coastline.getNumberOfPoints.
    destruct (Z.leb_spec (alen way) 1); [done |]. by rewrite firstn_all2 by (unfold alen; lia).
Qed.

(** All the nodes are written, in their order. *)
Lemma osmNodesToGeoJSON_all nodes : features_of (osmNodesToGeoJSON nodes) = Some (gridNodeToGeoJSONFeature <$> nodes).
Proof.
  unfold features_of, osmNodesToGeoJSON, featureCollection. rewrite field_put, decide_True by done. cbn [fmap option_fmap option_map]. f_equal.
  assert (forall l a, items (foldl (fun features node => append features (gridNodeToGeoJSONFeature node)) a l) =
    items a ++ (gridNodeToGeoJSONFeature <$> l)) as ->; [| by rewrite items_new].
  induction l as [| x l IH]; intros a; cbn; [by rewrite app_nil_r |]. by rewrite IH, items_append, <-app_assoc.
Qed.

(** With less than 10000 edges, nothing is written: the first that is not there is an exception. *)
Lemma coastlineWaysToGeoJSON_few coast : Coastline.numberOfEdges coast < 10000 ->
  (forall e, 0 <= e < Coastline.numberOfEdges coast -> exists p q, Coastline.edge_is coast e p q) ->
  coastlineWaysToGeoJSON coast = Err ArrayIndexOutOfBounds.
Proof.
  intros Hfew Hedges. unfold coastlineWaysToGeoJSON. pose proof (alen_nonneg (Coastline.edgePosStart coast)) as Hn.
  unfold Coastline.numberOfEdges in *. set (m := alen (Coastline.edgePosStart coast)) in *.
  enough (forall k i (features : J), 0 <= i <= m -> m < i + Z.of_nat k -> forLoop k i (fun i features =>
    lat1 ← Coastline.getStartLatByEdgeIdx coast i; lon1 ← Coastline.getStartLonByEdgeIdx coast i;
    lat2 ← Coastline.getDestLatByEdgeIdx coast i; lon2 ← Coastline.getDestLonByEdgeIdx coast i;
    Ok (append features (edgeToJSON lat1 lon1 lat2 lon2))) features = Err ArrayIndexOutOfBounds) as H.
  { unfold forRange. rewrite H; [done | lia | lia]. }
  induction k as [| k IH]; intros i features Hi Hk; [lia |]. cbn [forLoop]. destruct (decide (i = m)) as [-> | Hne].
  - assert (Coastline.getStartLatByEdgeIdx coast m = Err ArrayIndexOutOfBounds) as ->; [| done].
    unfold Coastline.getStartLatByEdgeIdx. by rewrite aget_oob by (right; subst m; lia).
  - destruct (Hedges i ltac:(lia)) as (p & q & E1 & E2 & E3 & E4). rewrite E1, bind_ok, E2, bind_ok, E3, bind_ok, E4, !bind_ok.
    apply IH; lia.
Qed.
End written.

(** ** A library *)

#[local] Existing Instance intDouble.

Inductive json := JString (s : string) | JNumber (x : Z) | JObject (fields : list (string * json)) | JArray (l : list json).

Definition fieldsOf (o : json) : list (string * json) := match o with JObject fields => fields | _ => [] end.
Definition itemsOf (a : json) : list json := match a with JArray l => l | _ => [] end.

#[local] Instance treeJson : JsonLib Z json := {|
  jsonString := JString; jsonNumber := JNumber; newJSONObject := JObject []; newJSONArray := JArray [];
  put o k v := JObject ((k, v) :: fieldsOf o); append a x := JArray (itemsOf a ++ [x]);
|}.

#[local] Instance treeLaws : JsonLaws Z json.
Proof.
  refine {| field o k := snd <$> List.find (fun kv => bool_decide (kv.1 = k)) (fieldsOf o); items := itemsOf |}; try done.
  intros o k v k'. cbn. case_bool_decide; [by rewrite decide_True | by rewrite decide_False].
Defined.

Example edge_line : coordinates_of (edgeToJSON (J := json) 1 2 3 4) = Some [[JNumber 2; JNumber 1]; [JNumber 4; JNumber 3]].
Proof. reflexivity. Qed.
