(* ===== verification/PerformanceTest.v ===== *)
(** * SearouterApplication.test: the performance test

    Pseudo-random requests are answered one after the other, and statistics of the answers are
    kept.  The random numbers and the times of the answers are arguments; the averages and
    the printing are left out. *)

From S2P Require Import Prelude Doubles RoutingResult Controller.

Section test.
Context {D R : Type} `{!JDouble D} `{!Router D R} (nearest : D -> D -> res Z) (fuel : nat).

Definition IGNORE_RES_NO_ROUTE : bool := false.
Definition TEST_NUM_OF_ROUTES : Z := 100000.

Record statistics := mkStatistics {
  calcTime : list D; minCalcTime : D; maxCalcTime : D; routesFound : Z; noRoutePossible : Z; distances : list Z;
}.

(** The coordinates of the requests, from numbers between 0 and 1. *)
Definition testLatitude (random : D) : D := dadd (dofZ (-90)) (dmul (dsub (dofZ 90) (dofZ (-90))) random).
Definition testLongitude (random : D) : D := dadd (dofZ (-180)) (dmul (dsub (dofZ 180) (dofZ (-180))) random).

(** Two numbers for each point. *)
Definition testPoints (testNum : Z) (random : Z -> D) : res (list D * list D) :=
  lats ← newArray (dofZ 0) (testNum * 2);
  longs ← newArray (dofZ 0) (testNum * 2);
  forRange 0 (testNum * 2) (fun i '(lats, longs) =>
    lats ← aset lats i (testLatitude (random (2 * i)));
    longs ← aset longs i (testLongitude (random (2 * i + 1)));
    Ok (lats, longs)) (lats, longs).

(** The time of an answer. *)
Definition addTime (time : D) (s : statistics) : statistics :=
  let '(mkStatistics ts lo hi found none ds) := s in
  if dlt time lo then mkStatistics (ts ++ [time]) time hi found none ds
  else if dlt hi time then mkStatistics (ts ++ [time]) lo time found none ds
  else mkStatistics (ts ++ [time]) lo hi found none ds.

(** What one answer adds; [null] stands for points that are not valid. *)
Definition addResult (result : option (RoutingResult.t D)) (s : statistics) : statistics :=
  match result with
  | None => s
  | Some r =>
      let '(mkStatistics ts lo hi found none ds) := s in
      if getOverallDistance r =? -1 then
        let s := mkStatistics ts lo hi found (iadd none 1) ds in
        if negb IGNORE_RES_NO_ROUTE then addTime (calculationTimeInMs r) s else s
      else addTime (calculationTimeInMs r) (mkStatistics ts lo hi (iadd found 1) none (ds ++ [getOverallDistance r]))
  end.

Definition noStatistics : statistics := mkStatistics [] dMAX (dofZ (-1)) 0 0 [].

Definition request (lats longs : list D) (i : Z) : res (RoutingRequest D) :=
  lat1 ← aget lats (i * 2); long1 ← aget longs (i * 2);
  lat2 ← aget lats (i * 2 + 1); long2 ← aget longs (i * 2 + 1);
  Ok (mkRequest (Some (mkLatLong lat1 long1)) (Some (mkLatLong lat2 long2))).

Definition testRequest (times : Z -> D) (lats longs : list D) (i : Z) (st : statistics * option R) : res (statistics * option R) :=
  let '(s, router) := st in
  rq ← request lats longs i;
  '(result, router) ← getRoutingResult nearest fuel (times i) rq router;
  Ok (addResult result s, Some router).

Definition test (testNum : Z) (random times : Z -> D) : res statistics :=
  '(lats, longs) ← testPoints testNum random;
  '(s, _) ← forRange 0 testNum (testRequest times lats longs) (noStatistics, None);
  Ok s.

(** ** What the statistics say *)

(** Which answers count as a route, and as none. *)
Definition isFound (result : option (RoutingResult.t D)) : bool :=
  match result with Some r => negb (getOverallDistance r =? -1) | None => false end.
Definition isNone (result : option (RoutingResult.t D)) : bool :=
  match result with Some r => getOverallDistance r =? -1 | None => false end.
Definition timesOf (results : list (option (RoutingResult.t D))) : list D := omap (option_map calculationTimeInMs) results.

Definition distancesOf (results : list (option (RoutingResult.t D))) : list Z :=
  omap (fun r => if isFound r then option_map getOverallDistance r else None) results.

(** The smallest so far, with [dMAX] for none; and the largest among those that are not smaller
    than all before them. *)
Fixpoint strictMinimum (lo : D) (ts : list D) : D :=
  match ts with [] => lo | t :: ts => strictMinimum (if dlt t lo then t else lo) ts end.
Fixpoint maximumBut (lo hi : D) (ts : list D) : D :=
  match ts with [] => hi | t :: ts => if dlt t lo then maximumBut t hi ts else maximumBut lo (if dlt hi t then t else hi) ts end.

Lemma addResults results : forall s, alen results + routesFound s <= MAX_VALUE -> alen results + noRoutePossible s <= MAX_VALUE ->
  0 <= routesFound s -> 0 <= noRoutePossible s ->
  foldl (fun s r => addResult r s) s results = mkStatistics (calcTime s ++ timesOf results)
    (strictMinimum (minCalcTime s) (timesOf results)) (maximumBut (minCalcTime s) (maxCalcTime s) (timesOf results))
    (routesFound s + alen (List.filter isFound results)) (noRoutePossible s + alen (List.filter isNone results))
    (distances s ++ distancesOf results).
Proof.
  induction results as [| result results IH]; intros [ts lo hi found none ds] Hf Hn Hf0 Hn0; cbn [routesFound noRoutePossible] in Hf, Hn, Hf0, Hn0.
  { cbn. by rewrite !app_nil_r, !Z.add_0_r. }
  pose proof (alen_nonneg results). rewrite alen_cons in Hf, Hn.
  assert (forall x, 0 <= x -> 1 + alen results + x <= MAX_VALUE -> iadd x 1 = x + 1) as Hadd.
  { intros x Hx Hm. apply iadd_id. unfold is_int, MIN_VALUE in *. lia. }
  cbn [foldl]. destruct result as [r |]; [| cbn [addResult]; rewrite IH by (cbn [routesFound noRoutePossible]; lia); done].
  unfold addResult. cbn [IGNORE_RES_NO_ROUTE negb]. unfold timesOf. cbn [omap list_omap option_map]. fold (timesOf results).
  assert (distancesOf (Some r :: results) = if getOverallDistance r =? -1 then distancesOf results
    else getOverallDistance r :: distancesOf results) as -> by (unfold distancesOf; cbn; by destruct (_ =? -1)).
  cbn [List.filter isFound isNone]. destruct (getOverallDistance r =? -1) eqn:E; cbn [negb].
  - rewrite (Hadd none) by lia. unfold addTime. cbn [strictMinimum maximumBut].
    destruct (dlt (calculationTimeInMs r) lo) eqn:El; [| destruct (dlt hi (calculationTimeInMs r)) eqn:Eh];
      rewrite IH by (cbn [routesFound noRoutePossible]; lia);
      cbn [calcTime minCalcTime maxCalcTime routesFound noRoutePossible distances]; rewrite ?alen_cons, <-?app_assoc; f_equal;
      repeat (match goal with H : dlt _ _ = _ |- _ => rewrite H end); try lia; done.
  - rewrite (Hadd found) by lia. unfold addTime. cbn [strictMinimum maximumBut].
    destruct (dlt (calculationTimeInMs r) lo) eqn:El; [| destruct (dlt hi (calculationTimeInMs r)) eqn:Eh];
      rewrite IH by (cbn [routesFound noRoutePossible]; lia);
      cbn [calcTime minCalcTime maxCalcTime routesFound noRoutePossible distances]; rewrite ?alen_cons, <-?app_assoc; f_equal;
      repeat (match goal with H : dlt _ _ = _ |- _ => rewrite H end); try lia; done.
Qed.

(** The answers to the requests, with the router that the first one creates. *)
Definition answers (times : Z -> D) (lats longs : list D) (testNum : Z) : res (list (option (RoutingResult.t D)) * option R) :=
  forRange 0 testNum (fun i '(results, router) =>
    rq ← request lats longs i;
    '(result, router) ← getRoutingResult nearest fuel (times i) rq router;
    Ok (results ++ [result], Some router)) ([], None).

Lemma testRequest_eq times lats longs i s router : testRequest times lats longs i (s, router) =
  rq ← request lats longs i;
  '(result, router) ← getRoutingResult nearest fuel (times i) rq router;
  Ok (addResult result s, Some router).
Proof. done. Qed.

Lemma test_loop times lats longs n : forall i results router,
  forLoop n i (testRequest times lats longs) (foldl (fun s r => addResult r s) noStatistics results, router) =
  '(results, router) ← forLoop n i (fun i '(results, router) =>
    rq ← request lats longs i;
    '(result, router) ← getRoutingResult nearest fuel (times i) rq router;
    Ok (results ++ [result], Some router)) (results, router);
  Ok (foldl (fun s r => addResult r s) noStatistics results, router).
Proof.
  induction n as [| n IH]; intros i results router; [done |]. cbn [forLoop].
  rewrite testRequest_eq. destruct (request lats longs i) as [rq |]; [rewrite !bind_ok | done].
  destruct (getRoutingResult _ _ _ _ router) as [[result router'] |]; [rewrite !bind_ok | done].
  rewrite <-IH. by rewrite foldl_snoc.
Qed.

Lemma answers_length times lats longs testNum results router : 0 <= testNum -> answers times lats longs testNum = Ok (results, router) ->
  alen results = testNum.
Proof.
  intros Hnum. unfold answers, forRange. rewrite Z.sub_0_r. enough (forall n i pre router results router',
    forLoop n i (fun i '(results, router) => rq ← request lats longs i;
      '(result, router) ← getRoutingResult nearest fuel (times i) rq router; Ok (results ++ [result], Some router)) (pre, router)
      = Ok (results, router') -> alen results = alen pre + Z.of_nat n) as H.
  { intros E%H. unfold alen in *. cbn [length] in E. lia. }
  induction n as [| n IH]; intros i pre r res r'; cbn [forLoop]; [intros [= -> _]; lia |].
  destruct (request lats longs i) as [rq |]; [rewrite bind_ok | done].
  destruct (getRoutingResult _ _ _ _ r) as [[result r2] |]; [rewrite !bind_ok | done].
  intros E%IH. unfold alen in *. rewrite length_app in E. cbn [length] in E. lia.
Qed.

(** The statistics of a test are those of the answers to its requests: how many routes were found and
    how many were not, the lengths of the found ones, the times of all of them, the least time,
    and the largest among the times that are not smaller than all before them. *)
Theorem test_statistics testNum random times lats longs results router : 0 <= testNum <= MAX_VALUE ->
  testPoints testNum random = Ok (lats, longs) -> answers times lats longs testNum = Ok (results, router) ->
  test testNum random times = Ok (mkStatistics (timesOf results) (strictMinimum dMAX (timesOf results))
    (maximumBut dMAX (dofZ (-1)) (timesOf results)) (alen (List.filter isFound results)) (alen (List.filter isNone results)) (distancesOf results)).
Proof.
  intros Hnum Hpoints Hanswers. pose proof (answers_length _ _ _ _ _ _ (proj1 Hnum) Hanswers) as Hlen.
  unfold test. rewrite Hpoints, bind_ok. unfold answers, forRange in *.
  pose proof (test_loop times lats longs (Z.to_nat (testNum - 0)) 0 [] None) as E. cbn [foldl] in E.
  rewrite E, Hanswers, !bind_ok. rewrite addResults; cbn [routesFound noRoutePossible noStatistics]; [by rewrite !Z.add_0_l | lia ..].
Qed.

(** The least time is one, and no time is less. *)
Lemma strictMinimum_least `{!DoubleOrder D} ts : forall lo, (forall x y z : D, dlt x y = false -> dlt y z = false -> dlt x z = false) ->
  (strictMinimum lo ts = lo \/ strictMinimum lo ts ∈ ts) /\ dlt lo (strictMinimum lo ts) = false /\ forall t, t ∈ ts -> dlt t (strictMinimum lo ts) = false.
Proof.
  induction ts as [| t ts IH]; intros lo Hneg; cbn.
  { split; [by left |]. split; [apply dlt_irrefl | intros t Ht; by apply elem_of_nil in Ht]. }
  destruct (dlt t lo) eqn:E; destruct (IH (if dlt t lo then t else lo) Hneg) as (Hin & Hlo & Hall); rewrite E in *.
  - split; [right; destruct Hin as [-> | Hin]; set_solver |]. split.
    + destruct (dlt lo (strictMinimum t ts)) eqn:E'; [| done]. by rewrite (dlt_trans _ _ _ E E') in Hlo.
    + intros t' [-> | Ht']%elem_of_cons; [done | by apply Hall].
  - split; [destruct Hin as [-> | Hin]; [by left | right; set_solver] |]. split; [done |].
    intros t' [-> | Ht']%elem_of_cons; [by eapply Hneg | by apply Hall].
Qed.
End test.

#[local] Existing Instance intDouble.

(** Times that fall: every one is a new minimum, and the maximum stays -1. *)
Example falling_times : maximumBut (D := Z) dMAX (-1) [30; 20; 10] = -1.
Proof. reflexivity. Qed.

(** A request whose points have the same nearest node counts as one without a route, with the time -1. *)
Example same_node : addResult (D := Z) (Some (newEmpty (-1))) noStatistics = mkStatistics [-1] (-1) (-1) 0 1 [].
Proof. reflexivity. Qed.
