(* ===== verification/Frontend.v ===== *)
(** * vue-frontend/src: the browser client

    [main.js] boots Vue with the components [Navbar] and [RoutingWindow]; the second holds all the
    behaviour.  Its methods, watchers and the promise callbacks are functions on its state; every
    call that leaves the component (Leaflet layers, the request, an alert) is appended to a trace,
    so that what the map shows is a function of the trace.  A user event or a response is one
    [step], after which Vue flushes the watchers of the fields that changed.

    A number is [NaN], an infinity, or a finite double, counted in units of [2^-1074], of which
    every finite double is a multiple.  The only arithmetic of the component, [%] and the sum
    [-180 + r] with [0 <= r < 180] a remainder, is exact on doubles.  How numbers are printed and
    parsed is an interface, [JsLib], with the laws of the language as [JsLaws]; Leaflet, which may
    refuse coordinates, is the interface [Leaflet]. *)

From S2P Require Import Prelude Text.
From Stdlib Require Import Ascii DecimalString DecimalZ.

(** ** Numbers, strings and values of the language *)

Inductive num := NaN | Infinity | NegInfinity | Fin (z : Z).

Definition one : Z := 2 ^ 1074.
Definition degrees (d : Z) : Z := d * one.

Definition representable (z : Z) : Prop :=
  exists m e, z = m * 2 ^ e /\ Z.abs m < 2 ^ 53 /\ 0 <= e <= 2045.

Definition nlt (x y : num) : bool :=
  match x, y with
  | NaN, _ | _, NaN => false
  | Fin a, Fin b => a <? b
  | NegInfinity, NegInfinity => false
  | NegInfinity, _ => true
  | _, Infinity => match x with Infinity => false | _ => true end
  | _, _ => false
  end.

Definition nrem (x y : num) : num :=
  match x, y with
  | Fin a, Fin b => if b =? 0 then NaN else Fin (Z.rem a b)
  | Fin a, (Infinity | NegInfinity) => Fin a
  | _, _ => NaN
  end.

Definition nadd (x y : num) : num :=
  match x, y with
  | Fin a, Fin b => Fin (a + b)
  | NaN, _ | _, NaN => NaN
  | Infinity, NegInfinity | NegInfinity, Infinity => NaN
  | Fin _, z => z
  | z, _ => z
  end.

Class JsLib := {
  stringToNumber : string -> num;   (* the conversion of a string by an operator *)
  parseFloat : string -> num;
  numToString : num -> string;
}.

Class JsLaws (J : JsLib) : Prop := {
  stringToNumber_print z : representable z -> stringToNumber (numToString (Fin z)) = Fin z;
  parseFloat_print z : representable z -> parseFloat (numToString (Fin z)) = Fin z;
  print_word z : word (numToString (Fin z));
}.

(** [L.marker] and [L.polyline] throw on coordinates that they do not accept. *)
Class Leaflet := {
  validLatLng : num -> num -> bool;
  validLine : list (list num) -> bool;
}.

Inductive value := Undefined | Str (s : string) | Num (x : num).

Definition newline : string := String "010"%char EmptyString.

(** ** Data of the component *)

Record point := mkPoint { latitude : num; longitude : value }.
Record request := mkRequest { reqStart : point; reqEnd : point }.

(** The answer of the server. *)
Record answer := mkAnswer {
  routeFound : bool;
  overallDistance : num;
  calculationTimeInMs : num;
  pathCoordinates : option (list (list num));
}.

Inductive effect :=
| AddMarker (id : nat) (lat lng : num) (tooltip : string)
| AddPolyline (id : nat) (coords : list (list num)) (popup : string)
| RemoveLayer (id : nat)
| Post (url : string) (req : request)
| Alert (message : string)
| Uncaught.

(** [data()], with [map] set by [mounted], and what the component has done so far. *)
Record t := mk {
  chooseStartPointActive : bool;
  chooseTargetPointActive : bool;
  startPoint : option string;
  startMarker : option nat;
  targetPoint : option string;
  targetMarker : option nat;
  route : option nat;
  responseData : option answer;
  pending : nat;
  nextLayer : nat;
  trace : list effect;
}.

Definition setChoose (a b : bool) (s : t) : t :=
  mk a b (startPoint s) (startMarker s) (targetPoint s) (targetMarker s) (route s) (responseData s)
     (pending s) (nextLayer s) (trace s).
Definition setStartPoint (p : string) (s : t) : t :=
  mk (chooseStartPointActive s) (chooseTargetPointActive s) (Some p) (startMarker s) (targetPoint s)
     (targetMarker s) (route s) (responseData s) (pending s) (nextLayer s) (trace s).
Definition setTargetPoint (p : string) (s : t) : t :=
  mk (chooseStartPointActive s) (chooseTargetPointActive s) (startPoint s) (startMarker s) (Some p)
     (targetMarker s) (route s) (responseData s) (pending s) (nextLayer s) (trace s).
Definition setResponseData (d : answer) (s : t) : t :=
  mk (chooseStartPointActive s) (chooseTargetPointActive s) (startPoint s) (startMarker s)
     (targetPoint s) (targetMarker s) (route s) (Some d) (pending s) (nextLayer s) (trace s).
Definition setPending (n : nat) (s : t) : t :=
  mk (chooseStartPointActive s) (chooseTargetPointActive s) (startPoint s) (startMarker s)
     (targetPoint s) (targetMarker s) (route s) (responseData s) n (nextLayer s) (trace s).
Definition emit (e : effect) (s : t) : t :=
  mk (chooseStartPointActive s) (chooseTargetPointActive s) (startPoint s) (startMarker s)
     (targetPoint s) (targetMarker s) (route s) (responseData s) (pending s) (nextLayer s)
     (trace s ++ [e]).

(** The three layers the component keeps a reference to. *)
Inductive slot := StartMarker | TargetMarker | RouteLine.

Definition layerOf (k : slot) (s : t) : option nat :=
  match k with StartMarker => startMarker s | TargetMarker => targetMarker s | RouteLine => route s end.

(** A fresh layer is created, stored in its field and added to the map. *)
Definition addLayer (k : slot) (e : nat -> effect) (s : t) : t :=
  let id := nextLayer s in
  mk (chooseStartPointActive s) (chooseTargetPointActive s)
     (startPoint s) (match k with StartMarker => Some id | _ => startMarker s end)
     (targetPoint s) (match k with TargetMarker => Some id | _ => targetMarker s end)
     (match k with RouteLine => Some id | _ => route s end) (responseData s)
     (pending s) (S id) (trace s ++ [e id]).

Definition removeLayer (k : slot) (s : t) : t :=
  match layerOf k s with Some id => emit (RemoveLayer id) s | None => s end.

(** [data()] and [mounted]. *)
Definition mounted : t := mk false false None None None None None None 0 0 [].

Section component.
Context `{JsLib} `{Leaflet}.

Definition toNumber (v : value) : num :=
  match v with Undefined => NaN | Str s => stringToNumber s | Num x => x end.

(** [parseFloat] of an array element, which is [undefined] past the end. *)
Definition parseFloatAt (l : list string) (i : nat) : num :=
  match l !! i with Some s => parseFloat s | None => NaN end.

Definition valueAt (l : list string) (i : nat) : value :=
  match l !! i with Some s => Str s | None => Undefined end.

(** ** The methods *)

Definition choosePointOnMap (isStart : bool) (s : t) : t :=
  if isStart then setChoose true false s else setChoose false true s.

(** The click handler that [setupLeafletMap] installs. *)
Definition mapClick (lat lng : num) (s : t) : t :=
  let text := (numToString lat +:+ " " +:+ numToString lng)%string in
  let s := if chooseStartPointActive s
           then setChoose false (chooseTargetPointActive s) (setStartPoint text s) else s in
  if chooseTargetPointActive s
  then setChoose (chooseStartPointActive s) false (setTargetPoint text s) else s.

Definition sanitizeLongitude (v : value) : value :=
  if nlt (toNumber v) (Fin (degrees (-180))) then Num (nrem (toNumber v) (Fin (degrees 180)))
  else if nlt (Fin (degrees 180)) (toNumber v)
  then Num (nadd (Fin (degrees (-180))) (nrem (toNumber v) (Fin (degrees 180))))
  else v.

Definition routeUrl : string := "http://localhost:8080/route".

(** [null.split] throws; otherwise exactly one request is sent. *)
Definition calcRoute (start target : option string) (s : t) : t :=
  match start, target with
  | Some a, Some b =>
      let latlong := splitSpace a in
      let latOne := parseFloatAt latlong 0 in
      let longOne := sanitizeLongitude (valueAt latlong 1) in
      let latlong := splitSpace b in
      let latTwo := parseFloatAt latlong 0 in
      let longTwo := sanitizeLongitude (Num (parseFloatAt latlong 1)) in
      setPending (S (pending s))
        (emit (Post routeUrl (mkRequest (mkPoint latOne longOne) (mkPoint latTwo longTwo))) s)
  | _, _ => emit Uncaught s
  end.

(** [addRoute]; the answer tells whether it returned. *)
Definition addRoute (latLongsArray : list (list num)) (distance : num) (s : t) : t * bool :=
  let s := removeLayer RouteLine s in
  if validLine latLongsArray then
    (addLayer RouteLine
       (fun id => AddPolyline id latLongsArray ("Distance: " +:+ numToString distance +:+ "m")) s, true)
  else (s, false).

(** [point[i]] in a string concatenation. *)
Definition coordText (p : list num) (i : nat) : string :=
  match p !! i with Some x => numToString x | None => "undefined" end.
Definition pointText (p : list num) : string :=
  (coordText p 0 +:+ " " +:+ coordText p 1)%string.

(** The callback of [then]; [false] when it throws. *)
Definition onAnswer (d : answer) (s : t) : t * bool :=
  let s := setResponseData d s in
  let time := numToString (calculationTimeInMs d) in
  if negb (routeFound d) then
    (emit (Alert ("No route found" +:+ newline +:+ "Dijkstra calc time (ms): " +:+ time)) s, true)
  else
    let s := emit (Alert ("Distance of route (m): " +:+ numToString (overallDistance d) +:+ newline
                          +:+ "Dijkstra calc time (ms): " +:+ time)) s in
    match pathCoordinates d with
    | None => (s, false)
    | Some coords =>
        match coords !! 0%nat, List.last (Some <$> coords) None with
        | Some p, Some q =>
            let s := setTargetPoint (pointText q) (setStartPoint (pointText p) s) in
            addRoute coords (overallDistance d) s
        | _, _ => (s, false)
        end
    end.

(** The callback of [catch], for a failed request and for what [then] threw. *)
Definition onError (error : string) (s : t) : t :=
  emit (Alert ("Please choose only start/destination points on the ocean!" +:+ newline +:+ error)) s.

(** The watchers of [startPoint] and [targetPoint]: an empty value is ignored; the old marker is
    removed before the new one is made, which throws on coordinates Leaflet refuses. *)
Definition watchPoint (k : slot) (tooltip : string) (val : option string) (s : t) : t :=
  match val with
  | None => s
  | Some val =>
      if bool_decide (val = "")%string then s else
      let latlong := splitSpace val in
      let lat := parseFloatAt latlong 0 in
      let long := parseFloatAt latlong 1 in
      let s := removeLayer k s in
      if validLatLng lat long then addLayer k (fun id => AddMarker id lat long tooltip) s
      else emit Uncaught s
  end.

Definition watchStartPoint (s : t) : t := watchPoint StartMarker "Start" (startPoint s) s.
Definition watchTargetPoint (s : t) : t := watchPoint TargetMarker "Target" (targetPoint s) s.

(** Vue runs the watchers of the changed fields once, after the handler. *)
Definition flush (old s : t) : t :=
  let s := if decide (startPoint s = startPoint old) then s else watchStartPoint s in
  if decide (targetPoint s = targetPoint old) then s else watchTargetPoint s.

(** ** Events *)

Inductive event :=
| EditStart (text : string)
| EditTarget (text : string)
| ClickSelect (isStart : bool)
| ClickMap (lat lng : num)
| ClickCalculate
| Answer (d : answer)
| Failure (error : string).

(** The template: which events can happen, and the handler of each.  The button of the active
    selection is disabled, and a response needs a request that was not answered yet. *)
Definition enabled (e : event) (s : t) : bool :=
  match e with
  | ClickSelect true => negb (chooseStartPointActive s)
  | ClickSelect false => negb (chooseTargetPointActive s)
  | Answer _ | Failure _ => (0 <? pending s)%nat
  | _ => true
  end.

Definition handle (typeError : string) (e : event) (s : t) : t :=
  match e with
  | EditStart text => setStartPoint text s
  | EditTarget text => setTargetPoint text s
  | ClickSelect isStart => choosePointOnMap isStart s
  | ClickMap lat lng => mapClick lat lng s
  | ClickCalculate => calcRoute (startPoint s) (targetPoint s) s
  | Answer d =>
      let '(s, returned) := onAnswer d (setPending (pending s - 1) s) in
      if returned then s else onError typeError s
  | Failure error => onError error (setPending (pending s - 1) s)
  end.

Definition step (typeError : string) (e : event) (s : t) : option t :=
  if enabled e s then Some (flush s (handle typeError e s)) else None.

Fixpoint run (typeError : string) (es : list event) (s : t) : option t :=
  match es with
  | [] => Some s
  | e :: es => s' ← step typeError e s; run typeError es s'
  end.
End component.

(** ** Navbar.vue and main.js *)

Record date := mkDate { fullYear : Z; month : Z; day : Z; hours : Z; minutes : Z; seconds : Z }.

(** [getNow]: the new value of [timestamp]. *)
Definition getNow (today : date) : string :=
  let date := (printInt (fullYear today) +:+ "-" +:+ printInt (month today + 1) +:+ "-"
               +:+ printInt (day today))%string in
  let time := (printInt (hours today) +:+ ":" +:+ printInt (minutes today) +:+ ":"
               +:+ printInt (seconds today))%string in
  (date +:+ " " +:+ time)%string.

(** The template of [Navbar], and the timer that [created] starts. *)
Definition brand : string := "SeaRouter".
Record timer := mkTimer { callback : date -> string; period : Z }.
Definition created : timer := mkTimer getNow 1000.

(** The icon options merged into Leaflet's defaults when [RoutingWindow] is loaded; [require] is
    the bundler's resolution of an asset to its URL. *)
Definition iconOptions (require : string -> string) : list (string * string) :=
  [("iconRetinaUrl", require "leaflet/dist/images/marker-icon-2x.png");
   ("iconUrl", require "leaflet/dist/images/marker-icon.png");
   ("shadowUrl", require "leaflet/dist/images/marker-shadow.png")].

(** babel.config.js *)
Definition presets : list string := ["@vue/cli-plugin-babel/preset"].

(** The components that [App.vue] renders, each in the state its [data()] gives. *)
Inductive appComponent := Navbar (timestamp : string) | RoutingWindow (s : t).
Definition App : list appComponent := [Navbar ""; RoutingWindow mounted].

Inductive vueCall :=
| Use (plugin : string)
| SetProductionTip (b : bool)
| Mount (root : list appComponent) (selector : string).

Definition main : list vueCall :=
  [Use "BootstrapVue"; Use "IconsPlugin"; SetProductionTip false; Mount App "#app"].

(** ** What the map shows *)

Definition slotOf (tooltip : string) : slot :=
  if bool_decide (tooltip = "Start")%string then StartMarker else TargetMarker.

(** The layers on the map, by id, with the field each was made for. *)
Definition showStep (e : effect) (l : list (nat * slot)) : list (nat * slot) :=
  match e with
  | AddMarker id _ _ tooltip => (id, slotOf tooltip) :: l
  | AddPolyline id _ _ => (id, RouteLine) :: l
  | RemoveLayer id => List.filter (fun x => negb (x.1 =? id)%nat) l
  | _ => l
  end.
Definition shown (tr : list effect) : list (nat * slot) := foldl (fun l e => showStep e l) [] tr.

Lemma shown_snoc tr e : shown (tr ++ [e]) = showStep e (shown tr).
Proof. unfold shown. by rewrite foldl_app. Qed.

#[export] Instance slot_eq_dec : EqDecision slot.
Proof. solve_decision. Defined.

(** Ids are fresh, no two fields share a layer, and a layer on the map is one a field holds. *)
Record tracked (refs : slot -> option nat) (next : nat) (tr : list effect) : Prop := {
  tr_fresh : forall k id, refs k = Some id -> (id < next)%nat;
  tr_refs : forall id k, (id, k) ∈ shown tr -> refs k = Some id;
  tr_nodup : NoDup (shown tr).*1;
  tr_distinct : forall k k' id, refs k = Some id -> refs k' = Some id -> k = k';
}.

Definition tracks (s : t) : Prop := tracked (fun k => layerOf k s) (nextLayer s) (trace s).

Lemma elem_of_removed id k i l :
  (id, k) ∈ List.filter (fun x : nat * slot => negb (x.1 =? i)%nat) l <-> (id, k) ∈ l /\ id <> i.
Proof.
  rewrite !list_elem_of_In, filter_In. cbn.
  rewrite negb_true_iff, Nat.eqb_neq. done.
Qed.

Lemma nodup_removed i (l : list (nat * slot)) : NoDup l.*1 ->
  NoDup (List.filter (fun x : nat * slot => negb (x.1 =? i)%nat) l).*1.
Proof.
  induction l as [| [id k] l IH]; [done |]. cbn. intros [Hnot Hnd]%NoDup_cons.
  destruct (id =? i)%nat; cbn; [by apply IH |]. apply NoDup_cons. split; [| by apply IH].
  intros Hin. apply Hnot. apply list_elem_of_fmap in Hin as ([id' k'] & -> & Hin).
  apply elem_of_removed in Hin as [Hin _]. apply list_elem_of_fmap. by exists (id', k').
Qed.

Definition quiet (e : effect) : bool :=
  match e with AddMarker _ _ _ _ | AddPolyline _ _ _ | RemoveLayer _ => false | _ => true end.

Lemma tracks_emit e s : quiet e = true -> tracks s -> tracks (emit e s).
Proof.
  unfold tracks. cbn. intros Hq [Hf Hr Hn Hd].
  assert (shown (trace s ++ [e]) = shown (trace s)) as E by (rewrite shown_snoc; by destruct e).
  split; rewrite ?E; done.
Qed.

Lemma layerOf_emit k e s : layerOf k (emit e s) = layerOf k s.
Proof. by destruct k. Qed.

Lemma tracks_removeLayer k s : tracks s ->
  tracks (removeLayer k s) /\ forall id, (id, k) ∉ shown (trace (removeLayer k s)).
Proof.
  unfold removeLayer. intros Ht. destruct Ht as [Hf Hr Hn Hd] eqn:Et. clear Et.
  destruct (layerOf k s) as [i |] eqn:Ei.
  - split.
    + split; cbn; rewrite ?shown_snoc; cbn.
      * intros k'. rewrite layerOf_emit. apply Hf.
      * intros id k' [Hin _]%elem_of_removed. rewrite layerOf_emit. by apply Hr.
      * by apply nodup_removed.
      * intros k1 k2 id. rewrite !layerOf_emit. apply Hd.
    + intros id. cbn. rewrite shown_snoc. intros [Hin Hne]%elem_of_removed.
      apply Hr in Hin. congruence.
  - split; [done |]. intros id Hin. apply Hr in Hin. congruence.
Qed.

Lemma layerOf_addLayer k k' e s : layerOf k' (addLayer k e s) =
  if decide (k = k') then Some (nextLayer s) else layerOf k' s.
Proof. by destruct k, k'. Qed.

Lemma tracks_addLayer k e s : (forall id, showStep (e id) = cons (id, k)) ->
  tracks s -> (forall id, (id, k) ∉ shown (trace s)) -> tracks (addLayer k e s).
Proof.
  intros He [Hf Hr Hn Hd] Hgone.
  assert (shown (trace (addLayer k e s)) = (nextLayer s, k) :: shown (trace s)) as E.
  { cbn. by rewrite shown_snoc, He. }
  unfold tracks. split; rewrite ?E.
  - intros k' id. rewrite layerOf_addLayer. cbn. case_decide; [intros [= <-]; lia |].
    intros Hid. apply Hf in Hid. lia.
  - intros id k'. rewrite layerOf_addLayer. intros [[= -> ->] | Hin]%elem_of_cons.
    + by rewrite decide_True.
    + case_decide; [subst; by apply Hgone in Hin | by apply Hr].
  - cbn. apply NoDup_cons. split; [| done].
    intros ([id k'] & Heq & Hin)%list_elem_of_fmap. cbn in Heq. subst id.
    apply Hr, Hf in Hin. lia.
  - intros k1 k2 id. rewrite !layerOf_addLayer. repeat case_decide; try congruence.
    + intros [= <-] Hid. apply Hf in Hid. lia.
    + intros Hid [= <-]. apply Hf in Hid. lia.
    + apply Hd.
Qed.

Section invariant.
Context `{JsLib} `{Leaflet}.

(** The marker of a field stands where the text of the field says, when Leaflet accepts it. *)
Definition follows (k : slot) (tooltip : string) (val : option string) (s : t) : Prop :=
  forall text, val = Some text -> text <> ""%string ->
  let lat := parseFloatAt (splitSpace text) 0 in
  let long := parseFloatAt (splitSpace text) 1 in
  validLatLng lat long = true ->
  exists id, layerOf k s = Some id /\ (id, k) ∈ shown (trace s) /\
    AddMarker id lat long tooltip ∈ trace s.

(** During an event the markers still follow the texts the event found. *)
Definition during (old s : t) : Prop :=
  tracks s /\ follows StartMarker "Start" (startPoint old) s /\
  follows TargetMarker "Target" (targetPoint old) s.

Lemma follows_emit k tip v e s : quiet e = true -> follows k tip v s -> follows k tip v (emit e s).
Proof.
  intros Hq Hf text Ht Hne lat long Hv. destruct (Hf text Ht Hne Hv) as (id & Hid & Hin & Hadd).
  exists id. rewrite layerOf_emit. cbn. rewrite shown_snoc. split_and!; [done | | set_solver +Hadd].
  by destruct e.
Qed.

Lemma follows_removeLayer k k' tip v s : k <> k' -> tracks s ->
  follows k tip v s -> follows k tip v (removeLayer k' s).
Proof.
  unfold removeLayer. intros Hk Ht Hf. destruct (layerOf k' s) as [i |] eqn:Ei; [| done].
  intros text Htext Hne lat long Hv. destruct (Hf text Htext Hne Hv) as (id & Hid & Hin & Hadd).
  exists id. rewrite layerOf_emit. cbn. rewrite shown_snoc. split_and!; [done | | set_solver +Hadd].
  cbn. apply elem_of_removed. split; [done |]. intros ->.
  by apply Hk, (tr_distinct _ _ _ Ht k k' i).
Qed.

Lemma follows_addLayer k k' tip v e s : k <> k' -> (forall id, showStep (e id) = cons (id, k')) ->
  follows k tip v s -> follows k tip v (addLayer k' e s).
Proof.
  intros Hk He Hf text Htext Hne lat long Hv.
  destruct (Hf text Htext Hne Hv) as (id & Hid & Hin & Hadd).
  exists id. rewrite layerOf_addLayer, decide_False by done. cbn. rewrite shown_snoc, He.
  split_and!; [done | set_solver +Hin | set_solver +Hadd].
Qed.

Lemma during_emit old e s : quiet e = true -> during old s -> during old (emit e s).
Proof.
  intros Hq (Ht & Hs & Hd). split_and!;
    [by apply tracks_emit | by apply follows_emit | by apply follows_emit].
Qed.

Lemma watchPoint_tracks k tip val s : k <> RouteLine -> slotOf tip = k -> tracks s ->
  tracks (watchPoint k tip val s).
Proof.
  intros Hk Hslot Ht. unfold watchPoint. destruct val as [text |]; [| done].
  case_bool_decide; [done |]. destruct (tracks_removeLayer k s Ht) as [Ht' Hgone].
  destruct (validLatLng _ _); [| by apply tracks_emit].
  apply tracks_addLayer; [| done | done]. intros id. by rewrite <-Hslot.
Qed.

Lemma watchPoint_follows k tip val s : slotOf tip = k -> tracks s ->
  follows k tip val (watchPoint k tip val s).
Proof.
  intros Hslot Ht text -> Hne lat long Hv. unfold watchPoint.
  rewrite bool_decide_eq_false_2 by done. fold lat long. rewrite Hv.
  exists (nextLayer (removeLayer k s)). rewrite layerOf_addLayer, decide_True by done.
  cbn [trace addLayer]. rewrite shown_snoc. cbn [showStep]. rewrite Hslot. set_solver.
Qed.

Lemma watchPoint_other k tip val s k' tip' val' : slotOf tip = k -> k' <> k -> tracks s ->
  follows k' tip' val' s -> follows k' tip' val' (watchPoint k tip val s).
Proof.
  intros Hslot Hk Ht Hf. unfold watchPoint. destruct val as [text |]; [| done].
  case_bool_decide; [done |].
  pose proof (follows_removeLayer _ _ _ _ s Hk Ht Hf) as Hf'.
  destruct (validLatLng _ _); [| by apply follows_emit].
  apply follows_addLayer; [done | | done]. intros id. by rewrite <-Hslot.
Qed.

Lemma flush_during old s : during old s -> during s (flush old s).
Proof.
  intros (Ht & Hs & Hd). unfold flush.
  assert (tracks (if decide (startPoint s = startPoint old) then s else watchStartPoint s) /\
    follows StartMarker "Start" (startPoint s)
      (if decide (startPoint s = startPoint old) then s else watchStartPoint s) /\
    follows TargetMarker "Target" (targetPoint old)
      (if decide (startPoint s = startPoint old) then s else watchStartPoint s) /\
    targetPoint (if decide (startPoint s = startPoint old) then s else watchStartPoint s)
      = targetPoint s) as (Ht1 & Hs1 & Hd1 & Htp).
  { case_decide as E; [by rewrite E |]. unfold watchStartPoint. split_and!.
    - by apply watchPoint_tracks.
    - by apply watchPoint_follows.
    - by apply watchPoint_other.
    - unfold watchPoint, removeLayer. destruct (startPoint s); [| done].
      case_bool_decide; [done |]. by destruct (layerOf _ s), (validLatLng _ _). }
  revert Ht1 Hs1 Hd1 Htp. generalize (if decide (startPoint s = startPoint old) then s
    else watchStartPoint s) as s1. intros s1 Ht1 Hs1 Hd1 Htp.
  rewrite Htp. case_decide as E; [unfold during; rewrite E; by split_and! |].
  unfold watchTargetPoint. rewrite Htp. split_and!.
  - by apply watchPoint_tracks.
  - by apply watchPoint_other.
  - by apply watchPoint_follows.
Qed.

Lemma addRoute_during old coords d s : during old s -> during old (addRoute coords d s).1.
Proof.
  intros (Ht & Hs & Hd). unfold addRoute.
  destruct (tracks_removeLayer RouteLine s Ht) as [Ht' Hgone].
  assert (during old (removeLayer RouteLine s)) as Hr.
  { split_and!; [done | by apply follows_removeLayer | by apply follows_removeLayer]. }
  destruct (validLine coords); [| done]. destruct Hr as (_ & Hs' & Hd'). split_and!.
  - by apply tracks_addLayer.
  - by apply follows_addLayer.
  - by apply follows_addLayer.
Qed.

Lemma onAnswer_during old d s : during old s -> during old (onAnswer d s).1.
Proof.
  intros Hi. unfold onAnswer. destruct (routeFound d); cbn [negb].
  2:{ apply during_emit; [done |]. by destruct Hi as (? & ? & ?). }
  assert (during old (emit (Alert ("Distance of route (m): " +:+ numToString (overallDistance d)
    +:+ newline +:+ "Dijkstra calc time (ms): " +:+ numToString (calculationTimeInMs d)))
    (setResponseData d s))) as Ha.
  { apply during_emit; [done |]. by destruct Hi as (? & ? & ?). }
  destruct (pathCoordinates d) as [coords |]; [| done].
  destruct (coords !! 0%nat) as [p |]; [| done].
  destruct (List.last _ _) as [q |]; [| done].
  apply addRoute_during. by destruct Ha as (? & ? & ?).
Qed.

Lemma handle_during te e s : during s s -> during s (handle te e s).
Proof.
  intros Hi. pose proof Hi as (Ht & Hs & Hd).
  destruct e as [text | text | isStart | lat lng | | d | error]; cbn [handle].
  - by split_and!.
  - by split_and!.
  - destruct isStart; by split_and!.
  - unfold mapClick. by destruct (chooseStartPointActive s); cbn; destruct (chooseTargetPointActive s).
  - unfold calcRoute. destruct (startPoint s) as [a |] eqn:Ea, (targetPoint s) as [b |] eqn:Eb;
      [| by apply during_emit ..].
    match goal with |- during s (setPending _ (emit ?r s)) =>
      exact (during_emit s r s eq_refl Hi) end.
  - pose proof (onAnswer_during s d (setPending (pending s - 1) s)) as Ha.
    destruct (onAnswer _ _) as [s' returned]. cbn in Ha.
    assert (during s s') by (apply Ha; by split_and!).
    destruct returned; [done | by apply during_emit].
  - apply during_emit; [done | by split_and!].
Qed.

Lemma mounted_during : during mounted mounted.
Proof.
  split_and!; [| by intros ? [=] ..]. split; cbn; try done.
  - by intros [].
  - intros ? ? Hin. by apply elem_of_nil in Hin.
  - apply NoDup_nil_2.
  - intros [] ? ? [=].
Qed.

Lemma follows_ext s s' : startPoint s = startPoint s' -> targetPoint s = targetPoint s' ->
  during s s' -> during s' s'.
Proof. unfold during. by intros -> ->. Qed.

Lemma watchPoint_fields k tip val s :
  startPoint (watchPoint k tip val s) = startPoint s /\
  targetPoint (watchPoint k tip val s) = targetPoint s /\
  chooseStartPointActive (watchPoint k tip val s) = chooseStartPointActive s /\
  chooseTargetPointActive (watchPoint k tip val s) = chooseTargetPointActive s /\
  pending (watchPoint k tip val s) = pending s.
Proof.
  unfold watchPoint, removeLayer. destruct val; [| done]. case_bool_decide; [done |].
  by destruct (layerOf k s), (validLatLng _ _).
Qed.

Lemma flush_fields old s :
  startPoint (flush old s) = startPoint s /\ targetPoint (flush old s) = targetPoint s /\
  chooseStartPointActive (flush old s) = chooseStartPointActive s /\
  chooseTargetPointActive (flush old s) = chooseTargetPointActive s /\
  pending (flush old s) = pending s.
Proof.
  unfold flush, watchStartPoint, watchTargetPoint.
  pose proof (watchPoint_fields StartMarker "Start" (startPoint s) s) as (Ea & Eb & Ec & Ed & Ee).
  case_decide; case_decide; try done.
  - apply watchPoint_fields.
  - pose proof (watchPoint_fields TargetMarker "Target"
      (targetPoint (watchPoint StartMarker "Start" (startPoint s) s))
      (watchPoint StartMarker "Start" (startPoint s) s)) as (-> & -> & -> & -> & ->). done.
Qed.
End invariant.

Lemma step_ok `{JsLib} `{Leaflet} te e s s' : during s s -> step te e s = Some s' -> during s' s'.
Proof.
  intros Hi. unfold step. destruct (enabled e s); [| done]. intros [= <-].
  pose proof (flush_during s (handle te e s) (handle_during te e s Hi)) as Hf.
  pose proof (flush_fields s (handle te e s)) as (Ea & Eb & _).
  by apply (follows_ext (handle te e s)).
Qed.

Lemma run_ok `{JsLib} `{Leaflet} te es s s' : during s s -> run te es s = Some s' -> during s' s'.
Proof.
  revert s. induction es as [| e es IH]; intros s Hi; cbn.
  { by intros [= <-]. }
  destruct (step te e s) as [s1 |] eqn:E; [| done]. cbn. apply IH. by eapply step_ok.
Qed.

Lemma one_selection `{JsLib} `{Leaflet} te es s s' :
  chooseStartPointActive s && chooseTargetPointActive s = false -> run te es s = Some s' ->
  chooseStartPointActive s' && chooseTargetPointActive s' = false.
Proof.
  revert s. induction es as [| e es IH]; intros s Hi; cbn.
  { by intros [= <-]. }
  destruct (step te e s) as [s1 |] eqn:E; [| done]. cbn. apply IH. revert E.
  unfold step. destruct (enabled e s); [| done]. intros [= <-].
  pose proof (flush_fields s (handle te e s)) as (_ & _ & -> & -> & _).
  destruct e as [| | [] | | | d |]; cbn; try done.
  - unfold mapClick. destruct (chooseStartPointActive s) eqn:Ea; cbn;
      destruct (chooseTargetPointActive s) eqn:Eb; cbn; rewrite ?Ea, ?Eb; done.
  - unfold calcRoute. destruct (startPoint s), (targetPoint s); done.
  - unfold onAnswer, addRoute, removeLayer. destruct (routeFound d); cbn [negb]; [| done].
    destruct (pathCoordinates d) as [coords |]; [| done].
    destruct (coords !! 0%nat) as [p |]; [| done].
    destruct (List.last _ _) as [q |]; [| done].
    destruct (layerOf _ _), (validLine coords); done.
Qed.

(** C25: Whatever the user does and in whatever order the responses arrive, the map never shows a
    stale layer: each layer on it is the one that the component's field for that purpose holds,
    no layer is there twice, and at most one of the two selection modes is active. *)
Theorem no_stale_layers `{JsLib} `{Leaflet} te es s : run te es mounted = Some s ->
  NoDup (shown (trace s)).*1 /\
  (forall id k, (id, k) ∈ shown (trace s) -> layerOf k s = Some id) /\
  chooseStartPointActive s && chooseTargetPointActive s = false.
Proof.
  intros Hr. pose proof (run_ok te es mounted s mounted_during Hr) as (Ht & _ & _). split_and!.
  - apply (tr_nodup _ _ _ Ht).
  - apply (tr_refs _ _ _ Ht).
  - by apply (one_selection te es mounted s).
Qed.

(** C38: Whatever happened before, a text of the start (target) field whose two numbers Leaflet
    accepts as coordinates has its marker on the map, at those coordinates. *)
Theorem markers_follow_text `{JsLib} `{Leaflet} te es s : run te es mounted = Some s ->
  follows StartMarker "Start" (startPoint s) s /\ follows TargetMarker "Target" (targetPoint s) s.
Proof.
  intros Hr. by pose proof (run_ok te es mounted s mounted_during Hr) as (_ & Hs & Hd).
Qed.

(** ** Longitudes *)

(** Two longitudes name the same meridian when they differ by full turns. *)
Definition sameMeridian (x y : Z) : Prop := (degrees 360 | x - y).

Lemma degrees_pos d : 0 < d -> 0 < degrees d.
Proof. unfold degrees, one. intros. apply Z.mul_pos_pos; [done |]. apply Z.pow_pos_nonneg; lia. Qed.

Lemma half_turns h x y q : 0 < h -> y - x = q * h -> ((2 * h | y - x) <-> Z.Even q).
Proof.
  intros Hh ->. split.
  - intros [k Hk]. exists k. nia.
  - intros [k ->]. exists k. lia.
Qed.

Lemma sanitize_num `{JsLib} x : exists y, sanitizeLongitude (Num (Fin x)) = Num (Fin y) /\
  y = if x <? - degrees 180 then Z.rem x (degrees 180)
      else if degrees 180 <? x then - degrees 180 + Z.rem x (degrees 180) else x.
Proof.
  pose proof (degrees_pos 180 ltac:(lia)) as Hp.
  unfold sanitizeLongitude. cbn [toNumber nlt nrem nadd].
  replace (degrees (-180)) with (- degrees 180) by (unfold degrees; lia).
  destruct (Z.eqb_spec (degrees 180) 0) as [E | _]; [rewrite E in Hp; lia |].
  eexists. split; [| reflexivity].
  destruct (_ <? _); [done |]. by destruct (_ <? _).
Qed.

(** C40: A sanitized longitude always lies in [-180, 180].  It names the same meridian exactly when
    the longitude was in that range, or lies an odd number of half turns above it, or an even
    number below: 190 becomes -170, but -190 becomes -10 instead of 170. *)
Theorem sanitizeLongitude_meridian `{JsLib} x : exists y,
  sanitizeLongitude (Num (Fin x)) = Num (Fin y) /\
  - degrees 180 <= y <= degrees 180 /\
  (sameMeridian y x <->
     - degrees 180 <= x <= degrees 180 \/
     (degrees 180 < x /\ Z.Odd (x / degrees 180)) \/
     (x < - degrees 180 /\ Z.Even (- x / degrees 180))).
Proof.
  destruct (sanitize_num x) as (y & Hy & Ey). exists y. split; [done |].
  pose proof (degrees_pos 180 ltac:(lia)) as Hp. unfold sameMeridian.
  replace (degrees 360) with (2 * degrees 180) by (unfold degrees; lia).
  revert Hp Ey. generalize (degrees 180) as h. intros h Hp Ey.
  destruct (Z.ltb_spec x (- h)) as [Hlo | Hlo]; [| destruct (Z.ltb_spec h x) as [Hhi | Hhi]].
  - assert (y = - ((- x) mod h) /\ y - x = (- x / h) * h) as [Ey1 Ey2].
    { rewrite Ey, <-(Z.opp_involutive x), Z.rem_opp_l, Z.rem_mod_nonneg by lia.
      rewrite Z.opp_involutive. pose proof (Z.div_mod (- x) h). lia. }
    pose proof (Z.mod_pos_bound (- x) h Hp). split; [lia |].
    rewrite (half_turns h x y _ Hp Ey2). intuition lia.
  - assert (y = - h + x mod h /\ y - x = - (x / h + 1) * h) as [Ey1 Ey2].
    { rewrite Ey, Z.rem_mod_nonneg by lia. pose proof (Z.div_mod x h). lia. }
    pose proof (Z.mod_pos_bound x h Hp). split; [lia |].
    rewrite (half_turns h x y _ Hp Ey2).
    assert (Z.Even (- (x / h + 1)) <-> Z.Odd (x / h)) as ->.
    { split; intros [k Hk]; exists (- k - 1); lia. }
    intuition lia.
  - subst y. split; [lia |]. replace (x - x) with 0 by lia. split; [| intros; apply Z.divide_0_r].
    by left.
Qed.

(** ** Choosing two points and asking for the route *)

Lemma run_cons `{JsLib} `{Leaflet} te e es s : enabled e s = true ->
  run te (e :: es) s = run te es (flush s (handle te e s)).
Proof. intros E. cbn. unfold step. by rewrite E. Qed.

Definition pointString `{JsLib} (lat lng : Z) : string :=
  (numToString (Fin lat) +:+ " " +:+ numToString (Fin lng))%string.

(** Choosing a point on the map writes its coordinates into the chosen field. *)
Lemma select_start `{JsLib} `{Leaflet} te a b s : chooseStartPointActive s = false ->
  exists s', run te [ClickSelect true; ClickMap (Fin a) (Fin b)] s = Some s' /\
    startPoint s' = Some (pointString a b) /\ targetPoint s' = targetPoint s /\
    chooseStartPointActive s' = false /\ chooseTargetPointActive s' = false /\ pending s' = pending s.
Proof.
  intros Hc. rewrite run_cons by (cbn; by rewrite Hc). rewrite run_cons by done.
  eexists. split; [done |]. set (s1 := flush s _).
  pose proof (flush_fields s (handle te (ClickSelect true) s)) as (E1 & E2 & E3 & E4 & E5).
  fold s1 in E1, E2, E3, E4, E5. cbn in E1, E2, E3, E4, E5.
  pose proof (flush_fields s1 (handle te (ClickMap (Fin a) (Fin b)) s1)) as (-> & -> & -> & -> & ->).
  cbn. unfold mapClick. rewrite E3. cbn. rewrite E4. cbn. by rewrite E2, E5.
Qed.

Lemma select_target `{JsLib} `{Leaflet} te a b s : chooseTargetPointActive s = false ->
  exists s', run te [ClickSelect false; ClickMap (Fin a) (Fin b)] s = Some s' /\
    targetPoint s' = Some (pointString a b) /\ startPoint s' = startPoint s /\
    chooseStartPointActive s' = false /\ chooseTargetPointActive s' = false /\ pending s' = pending s.
Proof.
  intros Hc. rewrite run_cons by (cbn; by rewrite Hc). rewrite run_cons by done.
  eexists. split; [done |]. set (s1 := flush s _).
  pose proof (flush_fields s (handle te (ClickSelect false) s)) as (E1 & E2 & E3 & E4 & E5).
  fold s1 in E1, E2, E3, E4, E5. cbn in E1, E2, E3, E4, E5.
  pose proof (flush_fields s1 (handle te (ClickMap (Fin a) (Fin b)) s1)) as (-> & -> & -> & -> & ->).
  cbn. unfold mapClick. rewrite E3. cbn. rewrite E4. cbn. by rewrite E1, E5.
Qed.

Lemma run_app `{JsLib} `{Leaflet} te es1 es2 s s1 :
  run te es1 s = Some s1 -> run te (es1 ++ es2) s = run te es2 s1.
Proof.
  revert s. induction es1 as [| e es1 IH]; intros s; cbn; [by intros [= ->] |].
  destruct (step te e s) as [s' |]; [| done]. cbn. apply IH.
Qed.

Lemma sanitize_in_range `{JsLib} v x : toNumber v = Fin x -> - degrees 180 <= x <= degrees 180 ->
  sanitizeLongitude v = v.
Proof.
  intros Hv Hx. unfold sanitizeLongitude. rewrite Hv. cbn.
  replace (degrees (-180)) with (- degrees 180) by (unfold degrees; lia).
  destruct (Z.ltb_spec x (- degrees 180)); [lia |].
  by destruct (Z.ltb_spec (degrees 180) x); [lia |].
Qed.

Lemma flush_same `{JsLib} `{Leaflet} old s : startPoint s = startPoint old ->
  targetPoint s = targetPoint old -> flush old s = s.
Proof. intros Hs Ht. unfold flush. by rewrite (decide_True _ _ Hs), (decide_True _ _ Ht). Qed.

Lemma calcRoute_points `{JsLib} a b s : startPoint (calcRoute a b s) = startPoint s /\
  targetPoint (calcRoute a b s) = targetPoint s.
Proof. by destruct a, b. Qed.

(** C39: Choosing the start and then the target point on the map and pressing the button sends one
    request, with exactly the chosen coordinates when both longitudes are in [-180, 180]; the start
    longitude is sent as the text of the number, the three others as numbers. *)
Theorem select_and_calculate `{JsLib, !JsLaws _} `{Leaflet} te a b c d s :
  chooseStartPointActive s = false ->
  representable a -> representable b -> representable c -> representable d ->
  - degrees 180 <= b <= degrees 180 -> - degrees 180 <= d <= degrees 180 ->
  exists s0 s1,
    run te [ClickSelect true; ClickMap (Fin a) (Fin b); ClickSelect false; ClickMap (Fin c) (Fin d)] s
      = Some s0 /\
    step te ClickCalculate s0 = Some s1 /\
    trace s1 = trace s0 ++ [Post routeUrl
      (mkRequest (mkPoint (Fin a) (Str (numToString (Fin b)))) (mkPoint (Fin c) (Num (Fin d))))] /\
    pending s1 = S (pending s).
Proof.
  intros Hs Ra Rb Rc Rd Hb Hd.
  destruct (select_start te a b s Hs) as (t1 & Hr1 & Hp1 & _ & _ & Hc1 & Hn1).
  destruct (select_target te c d t1 Hc1) as (t2 & Hr2 & Hp2 & Hq2 & _ & _ & Hn2).
  exists t2. eexists. split_and!; [exact (eq_trans (run_app te _ _ s t1 Hr1) Hr2) | done | |].
  all: rewrite flush_same by (cbn; apply calcRoute_points);
    cbn [handle]; unfold calcRoute; rewrite Hq2, Hp1, Hp2; cbn.
  - do 2 f_equal. unfold pointString. rewrite !splitSpace_join, !splitSpace_word by apply print_word.
    unfold parseFloatAt, valueAt. cbn [lookup list_lookup].
    rewrite !parseFloat_print by done.
    rewrite (sanitize_in_range _ b), (sanitize_in_range _ d); try done.
    cbn. by apply stringToNumber_print.
  - congruence.
Qed.

(** ** What is sent *)

Section sent.
Context `{JsLib} `{Leaflet}.

Definition in_range (x : num) : Prop :=
  match x with NaN => True | Fin z => - degrees 180 <= z <= degrees 180 | _ => False end.

(** A longitude as it is sent: missing, a text of a number in range, or a number in range. *)
Definition longitude_ok (v : value) : Prop :=
  match v with Undefined => True | Str text => in_range (stringToNumber text) | Num x => in_range x end.

Lemma sanitize_ok v : longitude_ok (sanitizeLongitude v).
Proof.
  pose proof (degrees_pos 180 ltac:(lia)) as Hp. unfold sanitizeLongitude.
  assert (nlt (toNumber v) (Fin (degrees (-180))) = false -> nlt (Fin (degrees 180)) (toNumber v) = false ->
    in_range (toNumber v)) as Hin.
  { destruct (toNumber v) as [| | | z]; cbn; try done.
    replace (degrees (-180)) with (- degrees 180) by (unfold degrees; lia).
    intros ?%Z.ltb_ge ?%Z.ltb_ge. lia. }
  assert (forall z, - degrees 180 < Z.rem z (degrees 180) < degrees 180) as Hrem.
  { intros z. apply Z.abs_lt. pose proof (Z.rem_bound_abs z (degrees 180) ltac:(lia)) as Hb.
    by rewrite (Z.abs_eq (degrees 180)) in Hb by lia. }
  destruct (nlt (toNumber v) _) eqn:E1; [| destruct (nlt _ (toNumber v)) eqn:E2].
  - destruct (toNumber v) as [| | | z]; cbn; [done .. |].
    destruct (_ =? _); [done |]. cbn. specialize (Hrem z). revert Hrem. generalize (Z.rem z (degrees 180)). lia.
  - destruct (toNumber v) as [| | | z]; cbn in *; [done .. |].
    destruct (Z.eqb_spec (degrees 180) 0) as [E | _]; [done |]. cbn. apply Z.ltb_lt in E2.
    pose proof (Z.rem_bound_pos z (degrees 180) ltac:(lia) Hp) as Hr. revert Hr.
    replace (degrees (-180)) with (- degrees 180) by (unfold degrees; lia).
    generalize (Z.rem z (degrees 180)). lia.
  - destruct v; cbn; [done | by apply Hin ..].
Qed.

Lemma sanitize_num_type x : exists y, sanitizeLongitude (Num x) = Num y.
Proof. unfold sanitizeLongitude. destruct (nlt _ _); [by eexists |]. destruct (nlt _ _); by eexists. Qed.

Definition effect_ok (e : effect) : Prop :=
  match e with
  | Post url rq => url = routeUrl /\ longitude_ok (longitude (reqStart rq)) /\
      exists x, longitude (reqEnd rq) = Num x /\ in_range x
  | _ => True
  end.

(** ** What a step adds to the trace *)

Definition alerts (tr : list effect) : nat :=
  length (List.filter (fun e => match e with Alert _ => true | _ => false end) tr).

(** [s'] goes on from [s]: its trace is longer by permitted effects. *)
Definition extends (s s' : t) : Prop := exists l, trace s' = trace s ++ l /\ Forall effect_ok l.

#[local] Instance extends_preorder : PreOrder extends.
Proof.
  split.
  - intros s. exists []. by rewrite app_nil_r.
  - intros s1 s2 s3 (l1 & E1 & H1) (l2 & E2 & H2). exists (l1 ++ l2).
    rewrite E2, E1, app_assoc. split; [done |]. by apply Forall_app.
Qed.

Lemma extends_emit e s : effect_ok e -> extends s (emit e s).
Proof. intros He. exists [e]. split; [done |]. by repeat constructor. Qed.

Lemma extends_same s s' : trace s' = trace s -> extends s s'.
Proof. intros E. exists []. by rewrite app_nil_r. Qed.

Lemma extends_removeLayer k s : extends s (removeLayer k s).
Proof. unfold removeLayer. destruct (layerOf k s); [by apply extends_emit | done]. Qed.

Lemma extends_addLayer k e s : (forall id, effect_ok (e id)) -> extends s (addLayer k e s).
Proof. intros He. eexists. split; [done |]. by repeat constructor. Qed.

Lemma extends_watchPoint k tip val s : extends s (watchPoint k tip val s).
Proof.
  unfold watchPoint. destruct val as [text |]; [| done]. case_bool_decide; [done |].
  transitivity (removeLayer k s); [apply extends_removeLayer |].
  destruct (validLatLng _ _); [by apply extends_addLayer | by apply extends_emit].
Qed.

Lemma extends_flush old s : extends s (flush old s).
Proof.
  unfold flush, watchStartPoint, watchTargetPoint. case_decide; case_decide; try done.
  - apply extends_watchPoint.
  - apply extends_watchPoint.
  - etransitivity; apply extends_watchPoint.
Qed.

Lemma extends_addRoute coords d s : extends s (addRoute coords d s).1.
Proof.
  unfold addRoute. pose proof (extends_removeLayer RouteLine s) as Hr.
  destruct (validLine coords); cbn; [| done]. etransitivity; [exact Hr | by apply extends_addLayer].
Qed.

(** Every answer raises an alert, and so does every failure. *)
Lemma onAnswer_alert d s : exists l, trace (onAnswer d s).1 = trace s ++ l /\ Forall effect_ok l /\
  (1 <= alerts l)%nat.
Proof.
  unfold onAnswer. destruct (routeFound d); cbn [negb].
  2:{ eexists. split; [done |]. split; [by repeat constructor | done]. }
  set (s1 := emit _ _).
  assert (exists a, trace s1 = trace s ++ [Alert a]) as [a Ea] by (by eexists).
  assert (forall s2, extends s1 s2 -> exists l, trace s2 = trace s ++ l /\ Forall effect_ok l /\ (1 <= alerts l)%nat)
    as Hext.
  { intros s2 (l & El & Hl). exists (Alert a :: l). rewrite El, Ea, <-app_assoc. split; [done |].
    split; [by constructor |]. unfold alerts. cbn. lia. }
  destruct (pathCoordinates d) as [coords |]; [| by apply Hext].
  destruct (coords !! 0%nat) as [q |]; [| by apply Hext].
  destruct (List.last _ _) as [q' |]; [| by apply Hext].
  apply Hext. etransitivity; [| apply extends_addRoute]. by apply extends_same.
Qed.

Lemma extends_handle te e s : extends s (handle te e s).
Proof.
  destruct e as [text | text | isStart | lat lng | | d | error]; cbn [handle].
  - by apply extends_same.
  - by apply extends_same.
  - apply extends_same. by destruct isStart.
  - apply extends_same. unfold mapClick.
    by destruct (chooseStartPointActive s); cbn; destruct (chooseTargetPointActive s).
  - unfold calcRoute. destruct (startPoint s) as [a |]; [destruct (targetPoint s) as [b |] |];
      [| by apply extends_emit ..].
    eexists. split; [done |]. constructor; [| done]. split; [done |]. split; [apply sanitize_ok |]. cbn.
    destruct (sanitize_num_type (parseFloatAt (splitSpace b) 1)) as [x Ex]. exists x. split; [done |].
    pose proof (sanitize_ok (Num (parseFloatAt (splitSpace b) 1))) as Hok. by rewrite Ex in Hok.
  - pose proof (onAnswer_alert d (setPending (pending s - 1) s)) as (l & El & Hl & _).
    destruct (onAnswer _ _) as [s' returned]. cbn in El.
    assert (extends s s') as Hs by (by exists l).
    destruct returned; [done |]. etransitivity; [exact Hs | by apply extends_emit].
  - etransitivity; [| by apply extends_emit]. by apply extends_same.
Qed.

Lemma extends_run te es s s' : run te es s = Some s' -> extends s s'.
Proof.
  revert s. induction es as [| e es IH]; intros s; cbn; [by intros [= <-] |].
  unfold step. destruct (enabled e s); [| done]. cbn. intros Hr.
  etransitivity; [apply (extends_handle te e) |]. etransitivity; [apply extends_flush | by apply IH].
Qed.

Definition response (e : event) : bool := match e with Answer _ | Failure _ => true | _ => false end.

Lemma alerts_app l1 l2 : alerts (l1 ++ l2) = (alerts l1 + alerts l2)%nat.
Proof. unfold alerts. by rewrite List.filter_app, length_app. Qed.

Lemma extends_alerts s s' : extends s s' -> (alerts (trace s) <= alerts (trace s'))%nat.
Proof. intros (l & -> & _). rewrite alerts_app. lia. Qed.

Lemma addRoute_pending coords d s : pending (addRoute coords d s).1 = pending s.
Proof. unfold addRoute, removeLayer. by destruct (layerOf _ s), (validLine coords). Qed.

Lemma onAnswer_pending d s : pending (onAnswer d s).1 = pending s.
Proof.
  unfold onAnswer. destruct (routeFound d); cbn [negb]; [| done].
  destruct (pathCoordinates d) as [coords |]; [| done].
  destruct (coords !! 0%nat); [| done]. destruct (List.last _ _); [| done]. by rewrite addRoute_pending.
Qed.

Lemma handle_response te e s : response e = true ->
  pending (handle te e s) = (pending s - 1)%nat /\
  (S (alerts (trace s)) <= alerts (trace (handle te e s)))%nat.
Proof.
  destruct e as [| | | | | d | error]; try done; intros _; cbn [handle].
  - pose proof (onAnswer_alert d (setPending (pending s - 1) s)) as (l & El & _ & Hl).
    pose proof (onAnswer_pending d (setPending (pending s - 1) s)) as Hp.
    destruct (onAnswer _ _) as [s' returned]. cbn in El, Hp.
    destruct returned; unfold onError, emit; cbn [trace pending]; rewrite ?Hp, El, ?alerts_app; (split; [done | lia]).
  - split; [done |]. unfold onError, emit, setPending; cbn [trace]. rewrite alerts_app.
    change (alerts [Alert _]) with 1%nat. lia.
Qed.
End sent.

(** C27: Whatever the user does, every request that is ever sent is well formed: it goes to the route
    URL, its target longitude is a number and its start longitude a text, a number or missing;
    each denotes no number or a longitude from -180 to 180. *)
Theorem posts_typed `{JsLib} `{Leaflet} te es s url rq : run te es mounted = Some s ->
  Post url rq ∈ trace s ->
  url = routeUrl /\ longitude_ok (longitude (reqStart rq)) /\
  exists x, longitude (reqEnd rq) = Num x /\ in_range x.
Proof.
  intros Hr Hin. destruct (extends_run te es mounted s Hr) as (l & El & Hl). cbn in El. rewrite El in Hin.
  rewrite Forall_forall in Hl. by apply (Hl (Post url rq)).
Qed.

(** C26: No response is lost and none blocks the next: in every state the responses to the pending
    requests can arrive, in any order and of any kind; each raises at least one alert, afterwards
    no request is pending and no further response is possible. *)
Theorem responses_drain `{JsLib} `{Leaflet} te rs s : length rs = pending s ->
  Forall (fun e => response e = true) rs ->
  exists s', run te rs s = Some s' /\ pending s' = 0%nat /\
    (alerts (trace s) + length rs <= alerts (trace s'))%nat /\
    forall e, response e = true -> enabled e s' = false.
Proof.
  revert s. induction rs as [| e rs IH]; intros s Hlen Hrs; cbn in Hlen.
  { exists s. split; [done |]. split; [done |]. split; [cbn; lia |].
    intros e He. destruct e; try done; cbn; by rewrite <-Hlen. }
  apply Forall_cons in Hrs as [He Hrs].
  assert (enabled e s = true) as Hen by (destruct e; try done; cbn; by destruct (pending s)).
  rewrite run_cons by done. destruct (handle_response te e s He) as [Hp Ha].
  pose proof (flush_fields s (handle te e s)) as (_ & _ & _ & _ & Hpf).
  destruct (IH (flush s (handle te e s))) as (s' & Hr & Hp' & Ha' & Hno); [rewrite Hpf, Hp; lia | done |].
  exists s'. split; [done |]. split; [done |]. split; [| done].
  pose proof (extends_alerts _ _ (extends_flush s (handle te e s))). cbn [length]. lia.
Qed.

(** ** A concrete library, and a session with it *)

#[local] Instance sampleLib : JsLib := {|
  stringToNumber s := match NilZero.int_of_string s with Some d => Fin (Z.of_int d) | None => NaN end;
  parseFloat s := match NilZero.int_of_string s with Some d => Fin (Z.of_int d) | None => NaN end;
  numToString x := match x with
    | NaN => "NaN" | Infinity => "Infinity" | NegInfinity => "-Infinity" | Fin z => printInt z
    end;
|}.

#[local] Instance sampleLeaflet : Leaflet := {|
  validLatLng lat long := match lat, long with NaN, _ | _, NaN => false | _, _ => true end;
  validLine l := true;
|}.

#[local] Instance sampleLaws : JsLaws sampleLib.
Proof.
  split; intros z; cbn; intros; rewrite ?printInt_digits, ?DecimalZ.of_to; try done.
  apply word_printInt.
Qed.

Definition session : list event :=
  [ClickSelect true; ClickMap (Fin 5) (Fin 7); ClickSelect false; ClickMap (Fin 9) (Fin 4);
   ClickCalculate; EditStart "x"; ClickCalculate;
   Answer (mkAnswer true (Fin 8) (Fin 1) (Some [[Fin 5; Fin 6]; [Fin 9; Fin 3]]));
   Answer (mkAnswer true (Fin 7) (Fin 1) None)].

Definition afterSession : t := Eval vm_compute in default mounted (run "TypeError" session mounted).

Lemma no_stale_layers_witness : run "TypeError" session mounted = Some afterSession /\
  shown (trace afterSession) = [(4%nat, TargetMarker); (3%nat, StartMarker); (2%nat, RouteLine)] /\
  NoDup (shown (trace afterSession)).*1.
Proof.
  split; [vm_compute; reflexivity |]. split; [vm_compute; reflexivity |].
  apply (no_stale_layers "TypeError" session). vm_compute. reflexivity.
Defined.

Lemma markers_follow_text_witness : startPoint afterSession = Some "5 6"%string /\
  follows StartMarker "Start" (startPoint afterSession) afterSession.
Proof.
  split; [vm_compute; reflexivity |].
  apply (markers_follow_text "TypeError" session). vm_compute. reflexivity.
Defined.

Lemma representable_small z : Z.abs z < 2 ^ 53 -> representable z.
Proof. intros Hz. exists z, 0. lia. Qed.

Lemma select_and_calculate_witness : exists s0 s1,
  run "TypeError" [ClickSelect true; ClickMap (Fin 5) (Fin 7); ClickSelect false; ClickMap (Fin 9) (Fin 4)]
    mounted = Some s0 /\
  step "TypeError" ClickCalculate s0 = Some s1 /\
  trace s1 = trace s0 ++ [Post routeUrl
    (mkRequest (mkPoint (Fin 5) (Str (numToString (Fin 7)))) (mkPoint (Fin 9) (Num (Fin 4))))] /\ pending s1 = 1%nat.
Proof.
  pose proof (degrees_pos 180 ltac:(lia)) as Hp.
  assert (1000 <= degrees 180) as Hd.
  { unfold degrees, one. assert (2 ^ 10 <= 2 ^ 1074) by (apply Z.pow_le_mono_r; lia). lia. }
  apply (select_and_calculate "TypeError" 5 7 9 4 mounted);
    [reflexivity | apply representable_small; lia .. | lia | lia].
Defined.

Lemma posts_typed_witness :
  run "TypeError" session mounted = Some afterSession /\
  longitude_ok (Str (numToString (Fin 7))) /\
  exists rq, Post routeUrl rq ∈ trace afterSession /\ exists x, longitude (reqEnd rq) = Num x /\ in_range x.
Proof.
  split; [vm_compute; reflexivity |]. split; [vm_compute; split; discriminate |].
  assert (exists rq, Post routeUrl rq ∈ trace afterSession) as [rq Hin].
  { eexists. unfold afterSession. cbn [trace]. rewrite !elem_of_cons. tauto. }
  exists rq. split; [done |].
  apply (posts_typed "TypeError" session afterSession routeUrl rq); [vm_compute; reflexivity | done].
Defined.

Definition waiting : t := setPending 2 mounted.

Lemma responses_drain_witness :
  exists s', run "TypeError" [Failure "Network Error"; Answer (mkAnswer false (Fin 0) (Fin 1) None)] waiting = Some s' /\
    pending s' = 0%nat /\ (2 <= alerts (trace s'))%nat /\ forall e, response e = true -> enabled e s' = false.
Proof.
  apply (responses_drain "TypeError"
    [Failure "Network Error"; Answer (mkAnswer false (Fin 0) (Fin 1) None)] waiting); [reflexivity |].
  by repeat constructor.
Defined.
